(* ===== verification/_CoqProject ===== *)
-Q . S2P
Prelude.v
Json.v
Order.v
CoreError.v
Bytes.v
RoomEvents.v
SampleRoom.v
AuthTypes.v
RoomMember.v
EventAuth.v
AuthFacts.v
AuthErrors.v
TopologicalSort.v
SplitConflicted.v
PowerSort.v
MainlineSort.v
IterativeAuth.v
ConflictedSubgraph.v
SubgraphFacts.v
Resolve.v
Pack.v
WireCodes.v
WireIds.v
WireEvents.v
WireInvites.v
PduId.v
PduSeq.v
TwoPhaseCounter.v
Store.v
ByteOrder.v
RecordCodec.v
WriteBatch.v
Watch.v
CounterMerge.v
Globals.v
StateDiffs.v
StateSave.v
ShortIds.v
Scan.v
AccountData.v
Backoff.v
PeerStatus.v
SendQueue.v
SendStore.v
SendWorker.v
SendSystem.v
PackQueue.v
Subscribers.v
Streams.v
StreamWindows.v
Membership.v
RoomChannels.v
Connections.v
RecentWindow.v
