(* ===== verification/Prelude.v ===== *)
(** * A verification of the homeserver's algorithms and stores

    The program is a Matrix homeserver.  This library models the parts of it
    whose correctness is a matter of algorithms and of stored state, file by
    file and function by function, and proves what each part promises to the
    others.

    ** The program's parts, and where they are modelled

    Room state (src/service/rooms/state_res).  A room is a graph of events;
    servers that disagree about its state resolve it to the same result.
    - [RoomEvents]: events and the typed views of their content; [Json] is the
      JSON they are read from, [SampleRoom] a concrete room for the examples.
    - [AuthTypes], [RoomMember], [EventAuth]: the authorization rules.
      [AuthFacts] and [AuthErrors] say what they guarantee and how they fail.
    - [TopologicalSort], [SplitConflicted], [PowerSort], [MainlineSort],
      [IterativeAuth], [ConflictedSubgraph] with [SubgraphFacts]: the steps of
      state resolution; [Resolve] composes them as resolve.rs does.
    - [StateDiffs], [StateSave], [ShortIds]: room states stored as layered
      differences under short numbers (state_compressor, short).

    Numbers.  Every write draws a number, and readers may go only as far as all
    smaller writes are done.
    - [TwoPhaseCounter], [Globals]: the counter, over its stored row.
    - [PduId], [PduSeq]: the keys and positions of stored events.

    The database (src/database).  RocksDB is below the sources.
    - [Store], [ByteOrder]: the interfaces of a key-value store and of a watch
      channel, and ordered maps of byte strings.
    - [RecordCodec]: keys and values; [WriteBatch]: transactions; [Watch]:
      waiting for a write; [CounterMerge]: merged counters; [Scan]: cursors,
      scans and reads of a map.
    - [AccountData]: one service wholly over these.

    Federation traffic (src/service/federation, src/service/sending).
    - [Backoff], [PeerStatus]: which servers are worth trying.
    - [SendQueue]: the stored queue; [SendStore]: its interface and the proof
      that the queue implements it; [SendWorker]: the worker that sends;
      [SendSystem]: the service with its channel, crashes and restarts.

    The wbf wire protocol (src/core/wbf) and its connections.
    - [Pack], [WireCodes], [WireIds], [WireEvents], [WireInvites]: frames, reject
      codes, ids, event sections and invites.
    - [PackQueue]: a connection's send queue; [Subscribers]: the registry of who
      listens to what; [Streams]: the room channels, device queues and invites
      over it; [StreamWindows]: what a catch-up delivers, with the packs and the
      event sections (src/service/streams).
    - [Membership]: who is in which room (src/service/rooms/state_cache);
      [RoomChannels]: subscriptions and membership changes interleaved
      (src/api/client/wbf/subscribe.rs).
    - [Connections]: connection limits and the end of a session
      (src/service/connections.rs); [RecentWindow]: the newest events of several
      rooms (src/api/client/wbf/recent.rs).

    Shared: [Prelude] (results, machine integers, byte strings, lists),
    [Order] (comparison functions, stable sorting, heaps, iteration orders),
    [CoreError] (the error type and its responses), [Bytes].

    ** How code becomes definitions

    - A function that can fail returns [Result E A]; [Panic] is an abort: an
      [expect], an index out of range, an overflow checked in a debug build.
      [debug_assertions] selects the build where it matters.
    - Integers are [Z] kept within their width by saturation, wrapping or a
      check, as the source does it.  [Usize] gives the width of [usize].
    - State is passed explicitly; a service is a record and an operation a
      function on it.  Interleaved code is a step relation or a function of a
      list of events, with one step per stretch the source runs under a lock or
      between two awaits.
    - The iteration order of a hash table and the completion order of futures
      are given by [HashOrder] (in [Order]): a theorem for every instance holds
      for every order.
    - Clocks, jitter and random numbers are arguments.

    Code outside the sources is a class with the laws relied on and an instance
    that has them: [Ruma] (JSON, identifiers, signatures), [KeyValue], [Column]
    and its iterators, [Watch], [Channel], [Inbox], [Lru], [Format], [Semaphore]
    and [Bounded].  The sources' own interfaces [SendStore] and [PackSink] are
    classes of the same form, which [SendStore.data_store] and
    [Subscribers.queue_sink] discharge.

    ** What the theorems show

    - State resolution returns the state the specification describes, in any
      order of hash tables and fetches, terminates, and admits only authorized
      changes ([Resolve], [PowerSort], [MainlineSort], [SubgraphFacts],
      [IterativeAuth], [TopologicalSort], [SplitConflicted]).
    - The authorization rules are exactly those of the specification, and no
      accepted power-levels event raises anyone above its sender ([RoomMember],
      [EventAuth], [AuthFacts]).
    - Numbers are never reused across restarts, waiters are released, short ids
      and saved states are read back as they were stored ([TwoPhaseCounter],
      [Globals], [ShortIds], [StateSave], [StateDiffs], [PduId]).
    - What is encoded is decoded, ordered and found under its prefix; a scan
      yields exactly the rows it should; a write wakes its watchers
      ([RecordCodec], [Scan], [WriteBatch], [Watch], [AccountData]).
    - Nothing queued for another server is lost: across failures, crashes and
      restarts a row is stored until it is delivered, its destination removed or
      the configured limit drops it; a destination has one transaction at a time
      ([SendSystem], [SendQueue]); whether it is tried follows from its failures
      ([PeerStatus]).
    - Frames decode to what was built, damage is named, and no input makes the
      decoder abort ([Pack], [WireCodes], [WireIds], [WireEvents]).
    - A connection's queue stays within its bounds and in order; a registry
      keeps exactly who subscribed; a push that is lost is announced; a window
      arrives as the events that were to be sent ([PackQueue], [Subscribers],
      [StreamWindows], [RecentWindow]).
    - The membership of a room is the last one applied, a room's channel reaches
      members only, the limits count what is open, and an ended session receives
      nothing more ([Membership], [RoomChannels], [Streams], [Connections]).

    ** Bounds and fuel

    Walks over event graphs take fuel and abort without it; the theorems that
    they return give the fuel, which is the number of events plus one.  A scan
    is a finite list of the column's records with a flag for its end; a loop
    that waits is a function of a finite list of what it receives, and the
    theorems quantify over that list.

    ** Not modelled, and why

    Reading and writing sockets and files, HTTP routing and the bodies of client
    and federation requests; RocksDB, serde, ruma and tokio themselves; option
    loading, logging and metrics; the admin commands and macros.  Of the send
    worker, the search for changed devices, receipts and presence and the
    composition of request bodies: they enter as the EDUs of a window and the
    outcome of a transaction.  Of the wbf connections, the session loop and login,
    the dispatch of packs, the bridge to HTTP routes, the connection tasks and
    the handlers of drafts, device queues, invites and sends: they call the
    modelled services and the client API.  Of room membership, the servers of an
    invite, the application-service cache and the data copied from a room's
    predecessor.  The other room services (timeline, state, federation) are
    database code around the modelled parts. *)

From stdpp Require Export base tactics numbers list option strings.
From stdpp Require Export gmap.
From Stdlib Require Export ZArith Lia.

(** ** Rust results

    [Result E A] is Rust's [Result<A, E>] with one more outcome: [Panic]
    stands for a run that aborts, by an integer overflow checked in debug
    builds, an index out of range or an [expect] that fails.  A function that
    cannot panic is one proved never to return [Panic]. *)

Inductive Result (E A : Type) : Type :=
| Ok (a : A)
| Err (e : E)
| Panic.
Arguments Ok {E A} a.
Arguments Err {E A} e.
Arguments Panic {E A}.

#[global] Instance result_ret {E} : MRet (Result E) := λ A, Ok.
#[global] Instance result_bind {E} : MBind (Result E) := λ A B k m,
  match m with
  | Ok a => k a
  | Err e => Err e
  | Panic => Panic
  end.
#[global] Instance result_fmap {E} : FMap (Result E) := λ A B f m,
  match m with
  | Ok a => Ok (f a)
  | Err e => Err e
  | Panic => Panic
  end.

Definition is_ok {E A} (r : Result E A) : bool :=
  match r with Ok _ => true | _ => false end.

Definition map_err {E F A} (f : E → F) (r : Result E A) : Result F A :=
  match r with Ok a => Ok a | Err e => Err (f e) | Panic => Panic end.

(** [Option::ok_or] *)
Definition ok_or {E A} (o : option A) (e : E) : Result E A :=
  match o with Some a => Ok a | None => Err e end.

(** [expect]/[unwrap] on an option. *)
Definition expect {E A} (o : option A) : Result E A :=
  match o with Some a => Ok a | None => Panic end.

(** [return Err(e)] under a guard. *)
Definition reject_if {E} (b : bool) (e : E) : Result E () :=
  if b then Err e else Ok ().

(** [debug_assert!]: checked only in a build with debug assertions. *)
Definition debug_assert {E} (debug_assertions b : bool) : Result E () :=
  if debug_assertions && negb b then Panic else Ok ().

Lemma debug_assert_true {E debug_assertions} b : b = true → debug_assert (E := E) debug_assertions b = Ok ().
Proof. intros ->. unfold debug_assert. by rewrite andb_false_r. Qed.

Lemma bind_Ok {E A B} (a : A) (k : A → Result E B) : (Ok a ≫= k) = k a.
Proof. reflexivity. Qed.

Lemma bind_Ok_inv {E A B} (m : Result E A) (k : A → Result E B) b :
  m ≫= k = Ok b → ∃ a, m = Ok a ∧ k a = Ok b.
Proof. destruct m; simpl; naive_solver. Qed.

Lemma bind_Err_inv {E A B} (m : Result E A) (k : A → Result E B) e :
  m ≫= k = Err e → m = Err e ∨ ∃ a, m = Ok a ∧ k a = Err e.
Proof. destruct m; simpl; naive_solver. Qed.

Lemma bind_not_Panic {E A B} (m : Result E A) (k : A → Result E B) :
  m ≠ Panic → (∀ a, m = Ok a → k a ≠ Panic) → m ≫= k ≠ Panic.
Proof. destruct m; simpl; naive_solver. Qed.

Lemma reject_if_Ok {E} b (e : E) u : reject_if b e = Ok u ↔ b = false.
Proof. destruct b, u; simpl; naive_solver. Qed.

Lemma reject_if_bind {E B} b (e : E) (k : () → Result E B) :
  (reject_if b e ≫= k) = if b then Err e else k ().
Proof. by destruct b. Qed.

(** Peels every successful bind off a hypothesis [_ = Ok _]. *)
Ltac inv_ok :=
  repeat match goal with
  | H : Ok _ = Ok _ |- _ => injection H as H; try subst
  | H : Err _ = Err _ |- _ => injection H as H; try subst
  | H : Ok _ = Err _ |- _ => discriminate H
  | H : Err _ = Ok _ |- _ => discriminate H
  | H : Ok _ = Panic |- _ => discriminate H
  | H : Panic = Ok _ |- _ => discriminate H
  | H : Err _ = Panic |- _ => discriminate H
  | H : Panic = Err _ |- _ => discriminate H
  | H : reject_if _ _ = Ok _ |- _ => apply reject_if_Ok in H
  | H : mret _ = Ok _ |- _ => unfold mret, result_ret in H
  | H : mbind _ _ = Ok _ |- _ =>
      let a := fresh "r" in let Ha := fresh "Hr" in
      apply bind_Ok_inv in H as (a & Ha & H)
  end.

(** Case analysis on every boolean test and every [match] of the goal. *)
Ltac case_all :=
  repeat (case_match || case_bool_decide); simplify_eq/=; try done.

(** ** Machine integers

    [usize] is 32 or 64 bits wide depending on the target; everything that
    computes with it takes the width as a class argument, so a theorem proved
    for any [Usize] holds for both. *)

Open Scope Z_scope.

Class Usize := {
  usize_bits : Z;
  usize_bits_cases : usize_bits = 32 ∨ usize_bits = 64
}.

Definition usize_32 : Usize := {| usize_bits := 32; usize_bits_cases := or_introl eq_refl |}.
Definition usize_64 : Usize := {| usize_bits := 64; usize_bits_cases := or_intror eq_refl |}.

Definition usize_max `{Usize} : Z := 2 ^ usize_bits - 1.
(** [isize::MAX], the largest allocation a [Vec] or a slice can have. *)
Definition isize_max `{Usize} : Z := 2 ^ (usize_bits - 1) - 1.

Definition u8_max : Z := 255.
Definition u32_max : Z := 4294967295.
Definition u64_max : Z := 18446744073709551615.

Definition u8 (x : Z) : Prop := 0 ≤ x ≤ u8_max.
Definition u32 (x : Z) : Prop := 0 ≤ x ≤ u32_max.
Definition u64 (x : Z) : Prop := 0 ≤ x ≤ u64_max.

Definition i64_min : Z := -9223372036854775808.
Definition i64_max : Z := 9223372036854775807.
Definition i64 (x : Z) : Prop := i64_min ≤ x ≤ i64_max.

(** [u as i64] and [i as u64]: the bits are kept. *)
Definition as_i64 (u : Z) : Z := if u <=? i64_max then u else u - 18446744073709551616.
Definition as_u64 (i : Z) : Z := i mod 18446744073709551616.

Lemma as_u64_i64 u : u64 u → as_u64 (as_i64 u) = u.
Proof.
  unfold u64, u64_max, as_u64, as_i64, i64_max. intros.
  destruct (Z.leb_spec u 9223372036854775807); [by rewrite Z.mod_small by lia|].
  symmetry. apply (Z.mod_unique_pos _ _ (-1)); lia.
Qed.

Lemma as_i64_u64 i : i64 i → as_i64 (as_u64 i) = i.
Proof.
  unfold i64, as_u64, as_i64, i64_min, i64_max. intros.
  destruct (decide (0 ≤ i)).
  - rewrite Z.mod_small by lia. destruct (Z.leb_spec i 9223372036854775807); lia.
  - replace (i mod _) with (i + 18446744073709551616) by (apply (Z.mod_unique_pos _ _ (-1)); lia).
    destruct (Z.leb_spec (i + 18446744073709551616) 9223372036854775807); lia.
Qed.

Lemma as_u64_range i : u64 (as_u64 i).
Proof. unfold u64, u64_max, as_u64. pose proof (Z.mod_pos_bound i 18446744073709551616). lia. Qed.

Lemma usize_max_cases `{Usize} :
  (usize_max = u32_max ∧ isize_max = 2147483647) ∨
  (usize_max = u64_max ∧ isize_max = 9223372036854775807).
Proof.
  unfold usize_max, isize_max.
  destruct usize_bits_cases as [-> | ->]; [left | right]; by vm_compute.
Qed.

(** Arithmetic that needs the size of [usize]: both widths are tried. *)
Ltac usize_lia :=
  destruct usize_max_cases as [[? ?]|[? ?]]; unfold u8, u32, u64, u8_max, u32_max, u64_max in *; lia.

(** [a + b] on [usize]: overflow aborts. *)
Definition add_usize `{Usize} {E} (a b : Z) : Result E Z :=
  if a + b <=? usize_max then Ok (a + b) else Panic.

(** [usize::saturating_add] *)
Definition sat_add `{Usize} (a b : Z) : Z := Z.min (a + b) usize_max.

(** [u32::try_from(len)] *)
Definition u32_try_from {E} (n : Z) (e : E) : Result E Z :=
  if n <=? u32_max then Ok n else Err e.

(** [slice.len()] *)
Definition zlen {A} (l : list A) : Z := Z.of_nat (length l).

(** [bs[a..b]] *)
Definition slice {E A} (bs : list A) (a b : Z) : Result E (list A) :=
  if (0 <=? a) && (a <=? b) && (b <=? zlen bs)
  then Ok (take (Z.to_nat (b - a)) (drop (Z.to_nat a) bs))
  else Panic.

(** [bs[i]] *)
Definition index {E A} (bs : list A) (i : Z) : Result E A :=
  if 0 <=? i then expect (bs !! Z.to_nat i) else Panic.

(** [bs[a..a+n].copy_from_slice(src)] for a [src] of the range's length. *)
Definition patch {A} (bs : list A) (a : Z) (src : list A) : list A :=
  take (Z.to_nat a) bs ++ src ++ drop (Z.to_nat a + length src) bs.

Lemma zlen_app {A} (l k : list A) : zlen (l ++ k) = zlen l + zlen k.
Proof. unfold zlen. rewrite length_app. lia. Qed.
Lemma zlen_cons {A} (x : A) l : zlen (x :: l) = 1 + zlen l.
Proof. unfold zlen. simpl. lia. Qed.
Lemma zlen_nil {A} : zlen (@nil A) = 0.
Proof. reflexivity. Qed.
Lemma zlen_nonneg {A} (l : list A) : 0 ≤ zlen l.
Proof. unfold zlen. lia. Qed.
Lemma zlen_take {A} n (l : list A) : 0 ≤ n ≤ zlen l → zlen (take (Z.to_nat n) l) = n.
Proof. unfold zlen. intros. rewrite length_take. lia. Qed.

(** ** Big-endian integers *)

(** [x.to_be_bytes()] for an integer of [n] bytes. *)
Fixpoint be_bytes (n : nat) (x : Z) : list Z :=
  match n with
  | O => []
  | S n' => Z.land (Z.shiftr x (8 * Z.of_nat n')) 255 :: be_bytes n' x
  end.

(** [uN::from_be_bytes(bs)] *)
Fixpoint from_be (bs : list Z) : Z :=
  match bs with
  | [] => 0
  | b :: rest => Z.lor (Z.shiftl b (8 * zlen rest)) (from_be rest)
  end.

Definition bytes_ok (bs : list Z) : Prop := Forall u8 bs.

Lemma length_be_bytes n x : length (be_bytes n x) = n.
Proof. induction n; simpl; auto. Qed.

Lemma zlen_be_bytes n x : zlen (be_bytes n x) = Z.of_nat n.
Proof. unfold zlen. by rewrite length_be_bytes. Qed.

Lemma land_255_mod x : Z.land x 255 = x mod 256.
Proof. change 255 with (Z.ones 8). rewrite Z.land_ones by lia. reflexivity. Qed.

Lemma be_bytes_ok n x : bytes_ok (be_bytes n x).
Proof.
  induction n; constructor; [|assumption].
  rewrite land_255_mod. unfold u8, u8_max.
  pose proof (Z.mod_pos_bound (x ≫ (8 * Z.of_nat n)) 256). lia.
Qed.

Lemma land_shiftl_low b k r : 0 ≤ k → 0 ≤ r < 2 ^ k → Z.land (b ≪ k) r = 0.
Proof.
  intros Hk Hr. apply Z.bits_inj'. intros i Hi.
  rewrite Z.land_spec, Z.bits_0.
  destruct (decide (i < k)); [by rewrite Z.shiftl_spec_low by lia|].
  destruct (decide (r = 0)) as [->|]; [by rewrite Z.bits_0, andb_false_r|].
  rewrite (Z.bits_above_log2 r), andb_false_r; [done|lia|].
  apply Z.lt_le_trans with k; [apply Z.log2_lt_pow2|]; lia.
Qed.

(** Concatenating bit fields is adding them. *)
Lemma lor_shiftl_add b k r :
  0 ≤ k → 0 ≤ r < 2 ^ k → Z.lor (b ≪ k) r = b * 2 ^ k + r.
Proof.
  intros Hk Hr. pose proof (Z.add_lor_land (b ≪ k) r) as H.
  rewrite land_shiftl_low, Z.shiftl_mul_pow2 in H by lia.
  rewrite Z.shiftl_mul_pow2 by lia. lia.
Qed.

Lemma from_be_bound bs : bytes_ok bs → 0 ≤ from_be bs < 2 ^ (8 * zlen bs).
Proof.
  induction 1 as [|b bs Hb Hbs IH]; simpl; [by vm_compute|].
  rewrite zlen_cons. pose proof (zlen_nonneg bs).
  rewrite lor_shiftl_add by lia.
  replace (8 * (1 + zlen bs)) with (8 + 8 * zlen bs) by lia.
  rewrite Z.pow_add_r by lia. unfold u8, u8_max in Hb.
  change (2 ^ 8) with 256. nia.
Qed.

Lemma from_be_cons b bs :
  bytes_ok bs → from_be (b :: bs) = b * 2 ^ (8 * zlen bs) + from_be bs.
Proof.
  intros Hbs. simpl. apply lor_shiftl_add; [pose proof (zlen_nonneg bs); lia|].
  by apply from_be_bound.
Qed.

Lemma from_be_be_bytes n x : from_be (be_bytes n x) = x mod 2 ^ (8 * Z.of_nat n).
Proof.
  induction n as [|n IH]; [simpl; by rewrite Z.mod_1_r|].
  change (be_bytes (S n) x) with (Z.land (x ≫ (8 * Z.of_nat n)) 255 :: be_bytes n x).
  rewrite from_be_cons, zlen_be_bytes, IH, land_255_mod, Z.shiftr_div_pow2
    by (lia || apply be_bytes_ok).
  replace (8 * Z.of_nat (S n)) with (8 * Z.of_nat n + 8) by lia.
  rewrite (Z.pow_add_r 2 (8 * Z.of_nat n) 8) by lia. change (2 ^ 8) with 256.
  rewrite Z.rem_mul_r by lia. lia.
Qed.

Lemma from_be_be_bytes_small n x :
  0 ≤ x < 2 ^ (8 * Z.of_nat n) → from_be (be_bytes n x) = x.
Proof. intros. by rewrite from_be_be_bytes, Z.mod_small. Qed.

Lemma be_bytes_from_be bs n :
  bytes_ok bs → length bs = n → be_bytes n (from_be bs) = bs.
Proof.
  intros Hbs <-. induction Hbs as [|b bs Hb Hbs IH]; [done|].
  pose proof (from_be_bound bs Hbs) as Hlt. rewrite from_be_cons by done.
  assert (Hdrop : ∀ m k, (m ≤ length bs)%nat →
    be_bytes m (k * 2 ^ (8 * zlen bs) + from_be bs) = be_bytes m (from_be bs)).
  { clear -Hlt. induction m as [|m IHm]; intros k Hm; [done|]. simpl.
    f_equal; [|apply IHm; lia].
    rewrite !land_255_mod, !Z.shiftr_div_pow2 by lia.
    unfold zlen in *.
    replace (8 * Z.of_nat (length bs)) with
      ((8 * (Z.of_nat (length bs) - Z.of_nat m - 1)) + 8 + 8 * Z.of_nat m) by lia.
    rewrite !Z.pow_add_r by lia. rewrite !Z.mul_assoc, Z.div_add_l by lia.
    change (2 ^ 8) with 256. rewrite Z.add_comm, Z.mod_add by lia. done. }
  simpl. rewrite Hdrop, IH by lia. f_equal.
  rewrite land_255_mod, Z.shiftr_div_pow2 by lia. unfold zlen in *.
  rewrite Z.div_add_l, (Z.div_small (from_be bs)) by lia.
  unfold u8, u8_max in Hb. rewrite Z.mod_small by lia. lia.
Qed.

Lemma be_bytes_inj n x y :
  0 ≤ x < 2 ^ (8 * Z.of_nat n) → 0 ≤ y < 2 ^ (8 * Z.of_nat n) →
  be_bytes n x = be_bytes n y → x = y.
Proof.
  intros Hx Hy H. apply (f_equal from_be) in H.
  by rewrite !from_be_be_bytes_small in H.
Qed.

(** ** Filters *)

Lemma filter_ext_in {A} (P Q : A → Prop) `{∀ x, Decision (P x)} `{∀ x, Decision (Q x)} (l : list A) :
  (∀ x, x ∈ l → P x ↔ Q x) → filter P l = filter Q l.
Proof.
  induction l as [|x l IH]; intros Hl; [done|]. rewrite !filter_cons.
  assert (Hx : P x ↔ Q x) by (apply Hl; left).
  rewrite IH by (intros y Hy; apply Hl; by right). by destruct (decide (P x)), (decide (Q x)); try tauto.
Qed.

Lemma filter_all {A} (P : A → Prop) `{∀ x, Decision (P x)} (l : list A) :
  (∀ x, x ∈ l → P x) → filter P l = l.
Proof.
  induction l as [|x l IH]; intros Hl; [done|]. rewrite filter_cons_True by (apply Hl; left).
  f_equal. apply IH. intros y Hy. apply Hl. by right.
Qed.

Lemma filter_none {A} (P : A → Prop) `{∀ x, Decision (P x)} (l : list A) :
  (∀ x, x ∈ l → ¬ P x) → filter P l = [].
Proof.
  induction l as [|x l IH]; intros Hl; [done|]. rewrite filter_cons_False by (apply Hl; left).
  apply IH. intros y Hy. apply Hl. by right.
Qed.

Lemma bind_if {A B} (b : A → bool) (f : A → B) (l : list A) :
  (l ≫= λ x, if b x then [f x] else []) = f <$> filter b l.
Proof.
  induction l as [|x l IH]; [done|]. rewrite bind_cons, filter_cons, IH.
  destruct (b x); simpl; [|done]. by destruct (decide True).
Qed.

Lemma filter_some {A} (P : A → Prop) `{∀ x, Decision (P x)} (l : list A) :
  zlen (filter P l) ≠ 0 ↔ ∃ x, x ∈ l ∧ P x.
Proof.
  split.
  - intros Hne. destruct (filter P l) as [|x k] eqn:Hf; [done|].
    assert (Hin : x ∈ filter P l) by (rewrite Hf; left). apply list_elem_of_filter in Hin as [? ?]. eauto.
  - intros (x & Hx & HP) Hz. assert (Hin : x ∈ filter P l) by by apply list_elem_of_filter.
    destruct (filter P l); [by apply elem_of_nil in Hin|]. rewrite zlen_cons in Hz. unfold zlen in Hz. lia.
Qed.

Lemma filter_full {A} (P : A → Prop) `{∀ x, Decision (P x)} (l : list A) :
  zlen (filter P l) = zlen l ↔ ∀ x, x ∈ l → P x.
Proof.
  split.
  - induction l as [|x l IH]; [set_solver|]. rewrite filter_cons. case_decide.
    + rewrite !zlen_cons. intros Hl. set_solver by lia.
    + pose proof (length_filter P l). rewrite zlen_cons. unfold zlen. lia.
  - intros Hall. by rewrite filter_all.
Qed.

Lemma filter_le {A} (P : A → Prop) `{∀ x, Decision (P x)} (l : list A) : zlen (filter P l) ≤ zlen l.
Proof. unfold zlen. pose proof (length_filter P l). lia. Qed.

(** Filtering by a stronger predicate keeps fewer elements. *)
Lemma filter_implies {A} (P Q : A → Prop) `{∀ x, Decision (P x), ∀ x, Decision (Q x)} (l : list A) :
  (∀ x, P x → Q x) → (length (filter P l) ≤ length (filter Q l))%nat.
Proof.
  intros HPQ. induction l as [|x l IH]; [done|]. rewrite !filter_cons.
  repeat case_decide; cbn; [lia|naive_solver|lia|lia].
Qed.

Lemma filter_less {A} (P Q : A → Prop) `{∀ x, Decision (P x), ∀ x, Decision (Q x)} (l : list A) e :
  (∀ x, P x → Q x) → e ∈ l → Q e → ¬ P e → (S (length (filter P l)) ≤ length (filter Q l))%nat.
Proof.
  intros HPQ He HQ HP. induction l as [|x l IH]; [by apply elem_of_nil in He|]. rewrite !filter_cons.
  pose proof (filter_implies P Q l HPQ) as Hle. apply elem_of_cons in He as [->|He].
  - rewrite decide_False, decide_True by done. cbn. lia.
  - specialize (IH He). repeat case_decide; cbn; [lia|naive_solver|lia|lia].
Qed.

Lemma filter_short {A} (P : A → Prop) `{∀ x, Decision (P x)} (l : list A) :
  zlen (filter P l) ≠ zlen l ↔ ∃ x, x ∈ l ∧ ¬ P x.
Proof.
  rewrite filter_full. split.
  - intros Hn. apply (Exists_exists (λ x, ¬ P x)), not_Forall_Exists; [done|]. by rewrite Forall_forall.
  - intros (x & Hx & HP) Hall. by apply HP, Hall.
Qed.

(** ** The order of byte strings

    [memcmp], then the shorter string first: the order of [[u8]] and the
    comparator of the key-value store. *)

Fixpoint lex_cmp (a b : list Z) : comparison :=
  match a, b with
  | [], [] => Eq
  | [], _ :: _ => Lt
  | _ :: _, [] => Gt
  | x :: a, y :: b => match x ?= y with Eq => lex_cmp a b | c => c end
  end.

Lemma lex_cmp_app a b x y :
  length a = length b →
  lex_cmp (a ++ x) (b ++ y) = match lex_cmp a b with Eq => lex_cmp x y | c => c end.
Proof.
  revert b. induction a as [|p a IH]; intros [|q b] Hlen; try done. simpl.
  destruct (p ?= q); [|done..]. apply IH. by injection Hlen.
Qed.

Lemma lex_cmp_refl a : lex_cmp a a = Eq.
Proof. induction a; simpl; [done|]. by rewrite Z.compare_refl. Qed.

(** Big-endian strings of one length are ordered as the integers. *)
Lemma lex_cmp_from_be a b :
  bytes_ok a → bytes_ok b → length a = length b → lex_cmp a b = (from_be a ?= from_be b).
Proof.
  intros Ha. revert b. induction Ha as [|x a Hx Ha IH]; intros b Hb Hlen.
  { by destruct b. }
  destruct Hb as [|y b Hy Hb]; [done|]. injection Hlen as Hlen.
  rewrite !from_be_cons by done. simpl. unfold zlen. rewrite Hlen.
  pose proof (from_be_bound a Ha) as Ba. pose proof (from_be_bound b Hb) as Bb.
  unfold zlen in *. rewrite Hlen in Ba. rewrite (IH b Hb Hlen).
  destruct (Z.compare_spec x y) as [->|Hxy|Hxy]; symmetry.
  - apply Z.add_compare_mono_l.
  - apply Z.compare_lt_iff. nia.
  - apply Z.compare_gt_iff. nia.
Qed.

Lemma lex_cmp_be_bytes n x y :
  0 ≤ x < 2 ^ (8 * Z.of_nat n) → 0 ≤ y < 2 ^ (8 * Z.of_nat n) →
  lex_cmp (be_bytes n x) (be_bytes n y) = (x ?= y).
Proof.
  intros. rewrite lex_cmp_from_be by (apply be_bytes_ok || by rewrite !length_be_bytes).
  by rewrite !from_be_be_bytes_small.
Qed.

(** ** Slicing lemmas *)

Lemma slice_Ok {E A} (l : list A) a b :
  0 ≤ a ≤ b → b ≤ zlen l →
  slice (E := E) l a b = Ok (take (Z.to_nat (b - a)) (drop (Z.to_nat a) l)).
Proof.
  intros. unfold slice.
  by rewrite (proj2 (Z.leb_le 0 a)), (proj2 (Z.leb_le a b)), (proj2 (Z.leb_le b _)) by lia.
Qed.

(** The middle of a concatenation. *)
Lemma slice_app {E A} (l m r : list A) a b :
  a = zlen l → b = zlen l + zlen m → slice (E := E) (l ++ m ++ r) a b = Ok m.
Proof.
  intros -> ->. pose proof (zlen_nonneg l). pose proof (zlen_nonneg m).
  pose proof (zlen_nonneg r).
  rewrite slice_Ok by (rewrite ?zlen_app; lia). f_equal.
  unfold zlen. replace (Z.to_nat _) with (length m) by lia.
  by rewrite Nat2Z.id, drop_app_length, take_app_length.
Qed.

(** A slice splits its list in three. *)
Lemma slice_inv {E A} (l m : list A) a b :
  slice (E := E) l a b = Ok m →
  ∃ l1 l2, l = l1 ++ m ++ l2 ∧ zlen l1 = a ∧ zlen m = b - a.
Proof.
  unfold slice. intros H. destruct (_ && _) eqn:Hc; [|done]. injection H as <-.
  apply andb_true_iff in Hc as [[Ha Hab]%andb_true_iff Hb].
  apply Z.leb_le in Ha, Hab, Hb. unfold zlen in *.
  exists (take (Z.to_nat a) l), (drop (Z.to_nat (b - a)) (drop (Z.to_nat a) l)).
  rewrite take_drop, take_drop. split_and!; [done| |].
  - rewrite length_take. lia.
  - rewrite length_take, length_drop. lia.
Qed.

Lemma slice_not_Panic {E A} (l : list A) a b :
  0 ≤ a ≤ b → b ≤ zlen l → ∃ m, slice (E := E) l a b = Ok m ∧ zlen m = b - a.
Proof.
  intros. eexists. split; [by apply slice_Ok|]. unfold zlen in *.
  rewrite length_take, length_drop. lia.
Qed.

Lemma add_usize_Ok `{Usize} {E} a b :
  a + b ≤ usize_max → add_usize (E := E) a b = Ok (a + b).
Proof. intros. unfold add_usize. by rewrite (proj2 (Z.leb_le _ _)). Qed.

Lemma add_usize_inv `{Usize} {E} a b c :
  add_usize (E := E) a b = Ok c → c = a + b ∧ a + b ≤ usize_max.
Proof.
  unfold add_usize. destruct (Z.leb_spec (a + b) usize_max); [|done].
  intros [= <-]. done.
Qed.

Lemma slice_mid {E A} (l l1 m l2 : list A) a b :
  l = l1 ++ m ++ l2 → a = zlen l1 → b = a + zlen m → slice (E := E) l a b = Ok m.
Proof. intros -> -> ->. by apply slice_app. Qed.

(** A list at least [n] long splits at [n]. *)
Lemma split_at {A} (l : list A) n :
  0 ≤ n ≤ zlen l → ∃ l1 l2, l = l1 ++ l2 ∧ zlen l1 = n.
Proof.
  intros. exists (take (Z.to_nat n) l), (drop (Z.to_nat n) l).
  by rewrite take_drop, zlen_take.
Qed.

Lemma zlen_replicate {A} n (x : A) : zlen (replicate n x) = Z.of_nat n.
Proof. unfold zlen. by rewrite length_replicate. Qed.

Lemma patch_mid {A} (l1 m l2 src : list A) a :
  a = zlen l1 → length src = length m → patch (l1 ++ m ++ l2) a src = l1 ++ src ++ l2.
Proof.
  intros -> Hsrc. unfold patch, zlen. rewrite Nat2Z.id, take_app_length. f_equal.
  f_equal. rewrite Hsrc, drop_app_add, drop_app_length. done.
Qed.

#[global] Hint Rewrite @zlen_app @zlen_cons @zlen_nil @zlen_be_bytes @zlen_replicate : zlen.

(** Linear arithmetic over list lengths. *)
Ltac zlen_nonneg_all :=
  repeat match goal with
  | |- context [@zlen ?A ?l] =>
      lazymatch goal with
      | _ : 0 ≤ @zlen A l |- _ => fail
      | _ => pose proof (@zlen_nonneg A l)
      end
  | _ : context [@zlen ?A ?l] |- _ =>
      lazymatch goal with
      | _ : 0 ≤ @zlen A l |- _ => fail
      | _ => pose proof (@zlen_nonneg A l)
      end
  end.

Ltac zl := autorewrite with zlen in *; zlen_nonneg_all; lia.

Lemma slice_not_Err {E A} (l : list A) a b (e : E) : slice l a b ≠ Err e.
Proof. unfold slice. by case_match. Qed.
Lemma index_not_Err {E A} (l : list A) i (e : E) : index l i ≠ Err e.
Proof. unfold index, expect. by repeat case_match. Qed.
Lemma add_usize_not_Err `{Usize} {E} a b (e : E) : add_usize a b ≠ Err e.
Proof. unfold add_usize. by case_match. Qed.
Lemma reject_if_Err {E} b (e e' : E) : reject_if b e = Err e' ↔ b = true ∧ e = e'.
Proof. destruct b; simpl; naive_solver. Qed.

(** Walks a chain of binds that ended in an error back to the step that
    raised it. *)
Ltac inv_err :=
  repeat match goal with
  | H : mbind _ _ = Err _ |- _ => apply bind_Err_inv in H as [H|(? & ? & H)]
  | H : slice _ _ _ = Err _ |- _ => by apply slice_not_Err in H
  | H : index _ _ = Err _ |- _ => by apply index_not_Err in H
  | H : add_usize _ _ = Err _ |- _ => by apply add_usize_not_Err in H
  | H : reject_if _ _ = Err _ |- _ => apply reject_if_Err in H as [? <-]
  | H : Ok _ = Err _ |- _ => discriminate H
  end.
