(* ===== verification/Json.v ===== *)
(** * Json: JSON values as the code holds them

    [serde_json::Value] and ruma's [CanonicalJsonValue], with the accessors the
    sources use.  Parsing and printing stay with the libraries; an object is
    read by key, or in key order as a [BTreeMap] iterates. *)

From stdpp Require Import sorting.
From S2P Require Import Prelude.

(** [serde_json::Value] *)
Inductive Value :=
| Null
| Bool_ (b : bool)
| Number (digits : string)
| Str (s : string)
| Arr (l : list Value)
| Object (m : list (string * Value)).

Definition as_str (v : Value) : option string := match v with Str s => Some s | _ => None end.
Definition as_bool (v : Value) : option bool := match v with Bool_ b => Some b | _ => None end.
Definition as_object (v : Value) : option (list (string * Value)) :=
  match v with Object m => Some m | _ => None end.

(** [Map::get] *)
Fixpoint map_get {A} (m : list (string * A)) (key : string) : option A :=
  match m with
  | [] => None
  | (k, v) :: rest => if bool_decide (k = key) then Some v else map_get rest key
  end.

(** [Value::get] with a string index: [None] on anything but an object. *)
Definition value_get (v : Value) (key : string) : option Value :=
  m ← as_object v; map_get m key.

(** [CanonicalJsonValue] *)
Inductive CanonicalJson :=
| CNull
| CBool (b : bool)
| CInteger (i : Z)
| CString (s : string)
| CArray (l : list CanonicalJson)
| CObject (m : gmap string CanonicalJson).

Notation CanonicalJsonObject := (gmap string CanonicalJson).

Definition c_as_str (v : CanonicalJson) : option string :=
  match v with CString s => Some s | _ => None end.
Definition c_as_object (v : CanonicalJson) : option CanonicalJsonObject :=
  match v with CObject m => Some m | _ => None end.

(** ** The order of strings

    [str] is ordered by its bytes; [BTreeMap] and [BTreeSet] iterate in that
    order. *)

Definition str_le (a b : string) : Prop := String.leb a b = true.
#[global] Instance str_le_dec a b : Decision (str_le a b).
Proof. unfold str_le. apply _. Defined.

Lemma str_compare_antisym a b : String.compare a b = CompOpp (String.compare b a).
Proof. apply String.compare_antisym. Qed.

#[global] Instance str_le_total : Total str_le.
Proof. intros a b. unfold str_le. apply String.leb_total. Qed.

#[global] Instance str_le_antisymm : AntiSymm (=) str_le.
Proof. intros a b Ha Hb. by apply String.leb_antisym. Qed.

Lemma ascii_compare_nat a b : Ascii.compare a b = Nat.compare (Ascii.nat_of_ascii a) (Ascii.nat_of_ascii b).
Proof.
  unfold Ascii.compare, Ascii.nat_of_ascii.
  rewrite N2Nat.inj_compare. done.
Qed.

Lemma str_compare_trans a b c :
  String.compare a b ≠ Gt → String.compare b c ≠ Gt → String.compare a c ≠ Gt.
Proof.
  revert b c. induction a as [|x a IH]; intros [|y b] [|z c]; simpl; try done.
  rewrite !ascii_compare_nat.
  destruct (Nat.compare_spec (Ascii.nat_of_ascii x) (Ascii.nat_of_ascii y));
  destruct (Nat.compare_spec (Ascii.nat_of_ascii y) (Ascii.nat_of_ascii z));
  destruct (Nat.compare_spec (Ascii.nat_of_ascii x) (Ascii.nat_of_ascii z));
    intros; try done; try lia. by apply IH with b.
Qed.

#[global] Instance str_le_trans : Transitive str_le.
Proof.
  intros a b c. unfold str_le, String.leb. intros Ha Hb.
  pose proof (str_compare_trans a b c).
  destruct (String.compare a b); try done; destruct (String.compare b c); try done;
    destruct (String.compare a c); try done; exfalso; naive_solver.
Qed.

#[global] Instance str_le_po : PartialOrder str_le.
Proof.
  repeat split; [|apply _..]. intros a. destruct (str_le_total a a); done.
Qed.

(** [BTreeMap::iter] *)
Definition key_le {A} (x y : string * A) : Prop := str_le x.1 y.1.
#[global] Instance key_le_dec {A} (x y : string * A) : Decision (key_le x y).
Proof. unfold key_le. apply _. Defined.

Definition btree_iter {A} (m : gmap string A) : list (string * A) :=
  merge_sort key_le (map_to_list m).

(** [slice::sort] on strings, and [Vec::dedup] *)
Definition str_sort (l : list string) : list string := merge_sort str_le l.

Fixpoint dedup (l : list string) : list string :=
  match l with
  | [] => []
  | x :: rest =>
      match rest with
      | [] => [x]
      | y :: _ => if bool_decide (x = y) then dedup rest else x :: dedup rest
      end
  end.

Lemma elem_of_btree_iter {A} (m : gmap string A) k v :
  (k, v) ∈ btree_iter m ↔ m !! k = Some v.
Proof.
  unfold btree_iter. rewrite (merge_sort_Permutation key_le (map_to_list m)).
  apply elem_of_map_to_list.
Qed.

Lemma elem_of_dedup x l : x ∈ dedup l ↔ x ∈ l.
Proof.
  induction l as [|y l IH]; [done|]. simpl. destruct l as [|z l].
  { done. }
  case_bool_decide; subst; rewrite ?elem_of_cons, IH, ?elem_of_cons; naive_solver.
Qed.

Lemma elem_of_str_sort x l : x ∈ str_sort l ↔ x ∈ l.
Proof. unfold str_sort. by rewrite (merge_sort_Permutation str_le l). Qed.

(** Sorting and removing neighbours that are equal leaves each string once. *)
Lemma dedup_sorted l : StronglySorted str_le l → NoDup (dedup l).
Proof.
  induction l as [|x l IH]; intros Hs; [constructor|].
  apply StronglySorted_inv in Hs as [Hs Hx]. specialize (IH Hs). simpl.
  destruct l as [|y l]; [apply NoDup_singleton|]. case_bool_decide as Hxy; [done|].
  apply NoDup_cons. split; [|done]. rewrite elem_of_dedup. intros Hin. apply Hxy.
  apply Forall_cons in Hx as [Hxy' _]. apply StronglySorted_inv in Hs as [_ Hy].
  apply elem_of_cons in Hin as [->|Hin]; [done|]. rewrite Forall_forall in Hy.
  apply (anti_symm str_le); [done|]. by apply Hy.
Qed.

Lemma NoDup_dedup_sort l : NoDup (dedup (str_sort l)).
Proof. apply dedup_sorted. unfold str_sort. apply (StronglySorted_merge_sort str_le l). Qed.

Lemma str_sort_sorted l : StronglySorted str_le (str_sort l).
Proof. unfold str_sort. apply (StronglySorted_merge_sort str_le l). Qed.

Lemma dedup_strongly l : StronglySorted str_le l → StronglySorted str_le (dedup l).
Proof.
  induction l as [|x l IH]; intros Hs; [constructor|]. apply StronglySorted_inv in Hs as [Hs Hx].
  specialize (IH Hs). simpl. destruct l as [|y l]; [repeat constructor|]. case_bool_decide; [done|].
  constructor; [done|]. rewrite Forall_forall in *. intros z Hz. apply Hx. by apply elem_of_dedup.
Qed.

(** The sorted list of a set of strings is determined by the set. *)
Lemma dedup_sort_unique l k : (∀ x, x ∈ l ↔ x ∈ k) → dedup (str_sort l) = dedup (str_sort k).
Proof.
  intros Hlk. apply (StronglySorted_unique str_le).
  - apply dedup_strongly, str_sort_sorted.
  - apply dedup_strongly, str_sort_sorted.
  - apply NoDup_Permutation; [apply NoDup_dedup_sort..|]. intros x.
    by rewrite !elem_of_dedup, !elem_of_str_sort.
Qed.
