(* ===== verification/Order.v ===== *)
(** * Order: comparison functions

    [Ord::cmp] as a function to [comparison], the laws a lawful [cmp] has,
    their closure under [then], reversal and key extraction, and the two users
    of such functions in the standard library the sources rely on: a stable
    sort and a priority queue. *)

From stdpp Require Import sorting.
From S2P Require Import Prelude Json.

Section Laws.
Context {A : Type}.

(** [a.cmp(b)] is not [Greater]. *)
Definition cmp_le (cmp : A → A → comparison) (a b : A) : Prop := cmp a b ≠ Gt.

#[global] Instance cmp_le_dec cmp a b : Decision (cmp_le cmp a b).
Proof. unfold cmp_le. destruct (cmp a b); [left|left|right]; naive_solver. Defined.

Class LawfulCmp (cmp : A → A → comparison) : Prop := {
  cmp_opp : ∀ a b, cmp a b = CompOpp (cmp b a);
  cmp_trans : ∀ a b c, cmp_le cmp a b → cmp_le cmp b c → cmp_le cmp a c
}.

Context (cmp : A → A → comparison) `{!LawfulCmp cmp}.

Lemma cmp_refl a : cmp a a = Eq.
Proof. pose proof (cmp_opp a a) as H. by destruct (cmp a a). Qed.

#[global] Instance cmp_le_total : Total (cmp_le cmp).
Proof. intros a b. unfold cmp_le. rewrite (cmp_opp a b). destruct (cmp b a); naive_solver. Qed.

#[global] Instance cmp_le_preorder : PreOrder (cmp_le cmp).
Proof. split; [intros a; unfold cmp_le; by rewrite cmp_refl|intros a b c; apply cmp_trans]. Qed.

Lemma cmp_le_antisym a b : cmp_le cmp a b → cmp_le cmp b a → cmp a b = Eq.
Proof. unfold cmp_le. rewrite (cmp_opp a b). destruct (cmp b a); naive_solver. Qed.

(** In a chain that ends level, every step is level. *)
Lemma cmp_eq_mid a b c : cmp_le cmp a b → cmp_le cmp b c → cmp a c = Eq → cmp a b = Eq ∧ cmp b c = Eq.
Proof.
  intros Hab Hbc Hac. assert (Hca : cmp_le cmp c a).
  { unfold cmp_le. rewrite (cmp_opp c a), Hac. done. }
  split; apply cmp_le_antisym; try done; etrans; done.
Qed.

End Laws.

#[global] Hint Mode LawfulCmp - ! : typeclass_instances.

(** [Ordering::then] *)
Definition cmp_then {A} (c1 c2 : A → A → comparison) (a b : A) : comparison :=
  match c1 a b with Eq => c2 a b | c => c end.

#[global] Instance cmp_then_lawful {A} (c1 c2 : A → A → comparison) :
  LawfulCmp c1 → LawfulCmp c2 → LawfulCmp (cmp_then c1 c2).
Proof.
  intros H1 H2. split.
  - intros a b. unfold cmp_then. rewrite (cmp_opp a b), (cmp_opp (cmp := c2) a b). by destruct (c1 b a).
  - intros a b c Hab Hbc.
    assert (Hab1 : cmp_le c1 a b) by (unfold cmp_le, cmp_then in *; by destruct (c1 a b)).
    assert (Hbc1 : cmp_le c1 b c) by (unfold cmp_le, cmp_then in *; by destruct (c1 b c)).
    pose proof (cmp_trans a b c Hab1 Hbc1) as Hac1.
    unfold cmp_le, cmp_then in *. destruct (c1 a c) eqn:Hac; [|done|done].
    destruct (cmp_eq_mid c1 a b c Hab1 Hbc1 Hac) as [Heq1 Heq2]. rewrite Heq1 in Hab. rewrite Heq2 in Hbc.
    by apply (cmp_trans (cmp := c2) a b c).
Qed.

(** Comparing by a key, and in reverse. *)
Definition cmp_on {A B} (f : A → B) (c : B → B → comparison) (a b : A) : comparison := c (f a) (f b).
Definition cmp_rev {A} (c : A → A → comparison) (a b : A) : comparison := c b a.

#[global] Typeclasses Opaque cmp_then cmp_on cmp_rev.

#[global] Instance cmp_on_lawful {A B} (f : A → B) c : LawfulCmp c → LawfulCmp (cmp_on f c).
Proof. intros Hc. split; unfold cmp_on; [intros; apply cmp_opp|]. intros x y z. apply (cmp_trans (cmp := c)). Qed.

#[global] Instance cmp_rev_lawful {A} (c : A → A → comparison) : LawfulCmp c → LawfulCmp (cmp_rev c).
Proof.
  intros Hc. split; unfold cmp_rev; [intros; apply cmp_opp|].
  intros x y z Hxy Hyz. exact (cmp_trans (cmp := c) z y x Hyz Hxy).
Qed.

#[global] Instance Z_cmp_lawful : LawfulCmp Z.compare.
Proof. split; [intros; apply Z.compare_antisym|]. unfold cmp_le. intros a b c
  H1%Z.compare_ngt_iff H2%Z.compare_ngt_iff. apply Z.compare_ngt_iff. lia.
Qed.

#[global] Instance string_cmp_lawful : LawfulCmp String.compare.
Proof. split; [apply str_compare_antisym|]. intros a b c. apply str_compare_trans. Qed.

Lemma string_cmp_eq a b : String.compare a b = Eq → a = b.
Proof. apply String.compare_eq_iff. Qed.

(** ** Priority queues

    [BinaryHeap<Reverse<T>>]: [pop] removes an element no other is below. *)

Section Heap.
Context {A : Type} (cmp : A → A → comparison).

(** The least of [x] and [l], the first one if several are level, and the rest. *)
Fixpoint select_min (x : A) (l : list A) : A * list A :=
  match l with
  | [] => (x, [])
  | y :: rest =>
      match cmp y x with
      | Lt => let '(m, r) := select_min y rest in (m, x :: r)
      | _ => let '(m, r) := select_min x rest in (m, y :: r)
      end
  end.

Definition pop_min (heap : list A) : option (A * list A) :=
  match heap with [] => None | x :: l => Some (select_min x l) end.

Context `{!LawfulCmp cmp}.

Lemma select_min_spec x l :
  x :: l ≡ₚ (select_min x l).1 :: (select_min x l).2 ∧
  Forall (cmp_le cmp (select_min x l).1) (x :: l).
Proof.
  revert x. induction l as [|y l IH]; intros x; simpl.
  { split; [done|]. constructor; [reflexivity|done]. }
  destruct (cmp y x) eqn:Hyx.
  1,3: destruct (IH x) as [Hp Hm]; destruct (select_min x l) as [m r]; simpl in *; split;
    [by rewrite (Permutation_swap y m r), <- Hp, (Permutation_swap y x l)|
     apply Forall_cons in Hm as [Hmx Hml]; repeat (constructor; [|]); try done;
     etrans; [exact Hmx|]; unfold cmp_le; rewrite (cmp_opp x y), Hyx; done].
  destruct (IH y) as [Hp Hm]. destruct (select_min y l) as [m r]. simpl in *. split.
  - by rewrite (Permutation_swap x m r), <- Hp.
  - apply Forall_cons in Hm as [Hmy Hml]. repeat (constructor; [|]); try done.
    etrans; [exact Hmy|]. unfold cmp_le. by rewrite Hyx.
Qed.

Lemma pop_min_Some heap m rest :
  pop_min heap = Some (m, rest) → heap ≡ₚ m :: rest ∧ Forall (cmp_le cmp m) heap.
Proof.
  destruct heap as [|x l]; [done|]. simpl. intros [= Heq]. pose proof (select_min_spec x l) as [Hp Hm].
  rewrite Heq in Hp, Hm. done.
Qed.

End Heap.

(** ** Iteration order

    [std::collections::HashMap] and [HashSet] document an arbitrary iteration
    order, and a stream of unordered futures completes in an arbitrary order.
    [hash_order site] is the order met at one place of the program, named by
    [site]; what holds for every instance holds for every hash seed and every
    completion order. *)
Class HashOrder := {
  hash_order : list string → ∀ {A : Type}, list A → list A;
  hash_order_perm : ∀ site A (l : list A), hash_order site l ≡ₚ l
}.

(** Two orders that differ, for closed examples. *)
Definition in_order : HashOrder := {|
  hash_order := λ _ _ l, l;
  hash_order_perm := λ _ _ l, Permutation_refl l
|}.

Definition reversed : HashOrder := {|
  hash_order := λ _ _ l, rev l;
  hash_order_perm := λ _ _ l, Permutation_sym (Permutation_rev l)
|}.

Lemma elem_of_hash_order `{HashOrder} {A} site (l : list A) x : x ∈ hash_order site l ↔ x ∈ l.
Proof. by rewrite hash_order_perm. Qed.

Lemma NoDup_hash_order `{HashOrder} {A} site (l : list A) : NoDup (hash_order site l) ↔ NoDup l.
Proof. by rewrite hash_order_perm. Qed.

(** ** Stable sorting and binary search *)

Section SortSearch.
Context {A : Type}.

(** [slice::sort_by] is stable: equal elements keep their order. *)
Fixpoint insert_by (cmp : A → A → comparison) (x : A) (l : list A) : list A :=
  match l with
  | [] => [x]
  | y :: rest => match cmp x y with Gt => y :: insert_by cmp x rest | _ => x :: l end
  end.

Definition sort_by (cmp : A → A → comparison) (l : list A) : list A := foldr (insert_by cmp) [] l.

(** [Vec::dedup_by]: an element that is the same as the last one kept goes. *)
Fixpoint dedup_after (same : A → A → bool) (last : A) (l : list A) : list A :=
  match l with
  | [] => []
  | x :: rest => if same x last then dedup_after same last rest else x :: dedup_after same x rest
  end.

Definition dedup_by (same : A → A → bool) (l : list A) : list A :=
  match l with [] => [] | x :: rest => x :: dedup_after same x rest end.

(** [slice::binary_search_by]: [size] halves until one candidate is left. *)
Fixpoint search_from (fuel : nat) (f : A → comparison) (l : list A) (base size : nat) : option nat :=
  match fuel with
  | O => None
  | S fuel =>
      if bool_decide (size ≤ 1)%nat then
        match f <$> l !! base with Some Eq => Some base | _ => None end
      else
        let half := (size / 2)%nat in
        let mid := (base + half)%nat in
        match f <$> l !! mid with
        | Some Gt => search_from fuel f l base (size - half)
        | _ => search_from fuel f l mid (size - half)
        end
  end.

Definition binary_search_by (f : A → comparison) (l : list A) : option nat :=
  search_from (S (length l)) f l 0 (length l).

(** [f] goes from [Less] through at most one [Equal] to [Greater] along [l]. *)
Definition searchable (f : A → comparison) (l : list A) : Prop :=
  ∀ i j x y, (i < j)%nat → l !! i = Some x → l !! j = Some y → f x ≠ Lt → f y = Gt.

Lemma search_from_spec fuel f l base size i :
  searchable f l → (size ≤ fuel)%nat → (0 < size)%nat → (base + size ≤ length l)%nat →
  (base ≤ i < base + size)%nat → (∃ x, l !! i = Some x ∧ f x = Eq) →
  search_from fuel f l base size = Some i.
Proof.
  intros Hs. revert base size. induction fuel as [|fuel IH]; intros base size Hf H0 Hl Hi (x & Hx & Heq); [lia|].
  cbn [search_from]. case_bool_decide as H1.
  { assert (base = i) as -> by lia. by rewrite Hx; simpl; rewrite Heq. }
  assert (Hh : (0 < size / 2 < size ∧ 2 * (size / 2) ≤ size)%nat).
  { split_and!; [apply Nat.div_str_pos|apply Nat.div_lt|apply Nat.Div0.mul_div_le]; lia. }
  generalize dependent (size / 2)%nat. intros half Hh.
  destruct (lookup_lt_is_Some_2 l (base + half)) as [y Hy]; [lia|]. rewrite Hy. simpl.
  destruct (f y) eqn:Hfy.
  - assert (i = base + half)%nat as Heqi.
    { destruct (Nat.lt_total i (base + half)) as [Hlt|[|Hlt]]; [|done|].
      - by rewrite (Hs i (base + half)%nat x y Hlt Hx Hy ltac:(by rewrite Heq)) in Hfy.
      - by rewrite (Hs (base + half)%nat i y x Hlt Hy Hx ltac:(by rewrite Hfy)) in Heq. }
    apply IH; [lia..|eauto].
  - apply IH; [lia..| |eauto]. destruct (Nat.lt_ge_cases i (base + half)) as [Hlt|]; [|lia].
    by rewrite (Hs i (base + half)%nat x y Hlt Hx Hy ltac:(by rewrite Heq)) in Hfy.
  - apply IH; [lia..| |eauto]. destruct (Nat.lt_ge_cases i (base + half)) as [|Hge]; [lia|].
    destruct (decide (i = base + half)%nat) as [->|]; [congruence|].
    assert (Hlt : (base + half < i)%nat) by lia.
    by rewrite (Hs _ _ _ _ Hlt Hy Hx ltac:(by rewrite Hfy)) in Heq.
Qed.

Lemma search_from_Eq fuel f l base size i :
  search_from fuel f l base size = Some i → ∃ x, l !! i = Some x ∧ f x = Eq.
Proof.
  revert base size. induction fuel as [|fuel IH]; intros base size; [done|]. cbn [search_from].
  case_bool_decide.
  - destruct (l !! base) as [x|] eqn:Hx; [|done]. simpl. destruct (f x) eqn:Hf; [|done..].
    intros [= <-]. eauto.
  - destruct (_ <$> _) as [[]|]; apply IH.
Qed.

(** Binary search finds the element if there is one. *)
Lemma binary_search_spec f l i :
  searchable f l → binary_search_by f l = Some i ↔ ∃ x, l !! i = Some x ∧ f x = Eq.
Proof.
  intros Hs. split; [apply search_from_Eq|]. intros (x & Hx & Heq).
  pose proof (lookup_lt_Some _ _ _ Hx). apply search_from_spec; [done|lia..|eauto].
Qed.

End SortSearch.

Lemma strongly_sorted_lookup {A} (R : A → A → Prop) l i j a b :
  StronglySorted R l → (i < j)%nat → l !! i = Some a → l !! j = Some b → R a b.
Proof.
  intros Hs. revert i j. induction Hs as [|x l _ IH Hx]; intros i j Hij Hi Hj; [done|].
  destruct j as [|j]; [lia|]. destruct i as [|i]; simpl in *.
  - injection Hi as ->. rewrite Forall_forall in Hx. apply Hx. by eapply list_elem_of_lookup_2.
  - apply (IH i j); [lia|done..].
Qed.

(** ** A table built by sorting

    Entries sorted by key, reversed and deduplicated, and searched by key: the
    entry found is the last one of the original list with the key. *)

Section Table.
Context {K V : Type} `{EqDecision K} (kcmp : K → K → comparison) `{!LawfulCmp kcmp}.
Context (kcmp_eq : ∀ a b, kcmp a b = Eq → a = b).

#[local] Notation entry := (K * V)%type.

Definition key_table (l : list entry) : list entry :=
  dedup_by (λ a b, bool_decide (a.1 = b.1)) (reverse (sort_by (cmp_on fst kcmp) l)).

Definition table_get (table : list entry) (key : K) : option V :=
  i ← binary_search_by (λ a, kcmp key a.1) table;
  entry ← table !! i;
  Some entry.2.

Definition with_key (key : K) (l : list entry) : list entry := filter (λ a, a.1 = key) l.

Lemma kcmp_refl k : kcmp k k = Eq.
Proof. apply (cmp_refl kcmp). Qed.

Lemma insert_by_spec a (l : list entry) :
  insert_by (cmp_on fst kcmp) a l ≡ₚ a :: l ∧
  (StronglySorted (cmp_le (cmp_on fst kcmp)) l →
     StronglySorted (cmp_le (cmp_on fst kcmp)) (insert_by (cmp_on fst kcmp) a l)) ∧
  ∀ key, with_key key (insert_by (cmp_on fst kcmp) a l) = with_key key (a :: l).
Proof.
  induction l as [|b l (Hp & Hs & Hk)]; cbn [insert_by]; [split_and!; try done; repeat constructor|].
  destruct (cmp_on fst kcmp a b) eqn:Hab.
  1,2: split_and!; [done| |done]; intros Hsb; constructor; [done|];
    assert (Hle : cmp_le (cmp_on fst kcmp) a b) by (unfold cmp_le; by rewrite Hab);
    apply StronglySorted_inv in Hsb as [_ Hb]; constructor; [done|];
    eapply Forall_impl; [exact Hb|]; intros c Hc; by etrans.
  split_and!.
  - rewrite Hp. constructor.
  - intros [Hl Hb]%StronglySorted_inv. constructor; [by apply Hs|]. rewrite Hp. constructor; [|done].
    unfold cmp_le. rewrite (cmp_opp b a), Hab. done.
  - intros key. unfold with_key in *. rewrite !filter_cons, Hk, filter_cons.
    destruct (decide (b.1 = key)) as [Hb|], (decide (a.1 = key)) as [Ha|]; try done.
    unfold cmp_on in Hab. by rewrite Ha, Hb, kcmp_refl in Hab.
Qed.

Lemma sort_by_spec (l : list entry) :
  StronglySorted (cmp_le (cmp_on fst kcmp)) (sort_by (cmp_on fst kcmp) l) ∧
  ∀ key, with_key key (sort_by (cmp_on fst kcmp) l) = with_key key l.
Proof.
  induction l as [|a l [Hs Hk]]; [split; [constructor|done]|]. simpl.
  destruct (insert_by_spec a (sort_by (cmp_on fst kcmp) l)) as (_ & Hs' & Hk'). split; [by apply Hs'|].
  intros key. unfold sort_by in *. rewrite Hk'. specialize (Hk key). unfold with_key in *.
  by rewrite !filter_cons, Hk.
Qed.

(** Descending, weakly and strictly. *)
Definition falls (a b : entry) : Prop := kcmp b.1 a.1 ≠ Gt.
Definition drops (a b : entry) : Prop := kcmp b.1 a.1 = Lt.

Lemma falls_drops a b c : falls a b → drops b c → drops a c.
Proof.
  unfold falls, drops. intros Hab Hbc.
  assert (Hle : cmp_le kcmp c.1 a.1) by (eapply (cmp_trans (cmp := kcmp)); [|exact Hab]; unfold cmp_le; by rewrite Hbc).
  destruct (kcmp c.1 a.1) eqn:Hca; [|done|by destruct Hle]. exfalso.
  apply kcmp_eq in Hca. rewrite Hca in Hbc. apply Hab. by rewrite (cmp_opp b.1 a.1), Hbc.
Qed.

Lemma drops_falls a b c : drops a b → falls b c → drops a c.
Proof.
  unfold falls, drops. intros Hab Hbc.
  assert (Hle : cmp_le kcmp c.1 a.1) by (eapply (cmp_trans (cmp := kcmp)); [exact Hbc|]; unfold cmp_le; by rewrite Hab).
  destruct (kcmp c.1 a.1) eqn:Hca; [|done|by destruct Hle]. exfalso.
  apply kcmp_eq in Hca. rewrite Hca in Hbc. apply Hbc. by rewrite (cmp_opp a.1 b.1), Hab.
Qed.

Lemma dedup_after_spec last l :
  StronglySorted falls (last :: l) →
  let t := dedup_after (λ a b, bool_decide (a.1 = b.1)) last l in
  Forall (drops last) t ∧ StronglySorted drops t ∧
  ∀ key, with_key key t = if bool_decide (last.1 = key) then [] else take 1 (with_key key l).
Proof.
  revert last. induction l as [|a l IH]; intros last Hs; cbn [dedup_after].
  { split_and!; [done|constructor|]. intros key. by case_bool_decide. }
  apply StronglySorted_inv in Hs as [Hs Hlast]. apply Forall_cons in Hlast as [Hla Hlast].
  case_bool_decide as Hal.
  - destruct (IH last) as (Hf & Hd & Hk); [constructor; [by apply StronglySorted_inv in Hs as []|done]|].
    split_and!; [done|done|]. intros key. rewrite Hk. case_bool_decide; [done|].
    unfold with_key. by rewrite filter_cons_False by (by rewrite Hal).
  - destruct (IH a Hs) as (Hf & Hd & Hk).
    assert (Hdrop : drops last a).
    { unfold drops. unfold falls in Hla. destruct (kcmp a.1 last.1) eqn:Hc; [|done|done]. by apply kcmp_eq in Hc. }
    split_and!.
    + constructor; [done|]. eapply Forall_impl; [exact Hf|]. intros c Hc. by apply (falls_drops last a c).
    + by constructor.
    + intros key. unfold with_key. rewrite !filter_cons. specialize (Hk key). unfold with_key in Hk. rewrite Hk. clear Hk.
      destruct (decide (a.1 = key)) as [Ha|Ha].
      { rewrite (bool_decide_eq_true_2 (a.1 = key)) by done. case_bool_decide as Hl; [|done].
        destruct Hal. by rewrite Ha, Hl. }
      rewrite (bool_decide_eq_false_2 (a.1 = key)) by done. case_bool_decide as Hl; [|done].
      assert (Hnil : filter (λ c : entry, c.1 = key) l = []); [|by rewrite Hnil].
      apply StronglySorted_inv in Hs as [_ Hac]. apply filter_none. intros c Hc Hck.
      rewrite Forall_forall in Hac. specialize (Hac c Hc). pose proof (drops_falls last a c Hdrop Hac) as Hlc.
      unfold drops in Hlc. by rewrite Hck, Hl, kcmp_refl in Hlc.
Qed.

Lemma key_table_spec l :
  StronglySorted drops (key_table l) ∧
  ∀ key, with_key key (key_table l) = option_list (last (with_key key l)).
Proof.
  unfold key_table. destruct (sort_by_spec l) as [Hs Hk]. set (s := sort_by _ l) in *.
  assert (Hfalls : StronglySorted falls (reverse s)).
  { clearbody s. clear Hk. induction s as [|a s IH]; [apply SSorted_nil|]. apply StronglySorted_inv in Hs as [Hs Ha].
    rewrite reverse_cons. apply StronglySorted_app_2; [|by apply IH|repeat constructor].
    intros b c Hb ->%list_elem_of_singleton. rewrite elem_of_reverse in Hb.
    rewrite Forall_forall in Ha. apply (Ha b Hb). }
  assert (Hrev : ∀ key, head (with_key key (reverse s)) = last (with_key key l)).
  { intros key. rewrite <- Hk. unfold with_key. rewrite filter_reverse. apply head_reverse. }
  destruct (reverse s) as [|a r]; cbn [dedup_by].
  { split; [constructor|]. intros key. by rewrite <- Hrev. }
  destruct (dedup_after_spec a r Hfalls) as (Hf & Hd & Hkey). split; [by constructor|].
  intros key. rewrite <- Hrev. unfold with_key in *. rewrite !filter_cons, Hkey.
  case_decide as Ha; [by rewrite bool_decide_eq_true_2|]. rewrite bool_decide_eq_false_2 by done.
  by destruct (filter _ r).
Qed.

(** Looking a key up in the table gives the last entry with that key. *)
Lemma key_table_get l key : table_get (key_table l) key = option_map snd (last (with_key key l)).
Proof.
  destruct (key_table_spec l) as [Hd Hk]. specialize (Hk key). set (t := key_table l) in *.
  assert (Hs : searchable (λ a : entry, kcmp key a.1) t).
  { intros i j x y Hij Hi Hj Hx. assert (Hxy : drops x y) by by eapply strongly_sorted_lookup.
    unfold drops in Hxy. destruct (kcmp key y.1) eqn:Hky; [| |done]; exfalso; apply Hx.
    - apply kcmp_eq in Hky. by subst key.
    - assert (Hle : cmp_le kcmp key x.1) by (eapply (cmp_trans (cmp := kcmp)) with (b := y.1); unfold cmp_le; [by rewrite Hky|by rewrite Hxy]).
      destruct (kcmp key x.1) eqn:Hkx; [|done|by destruct Hle]. apply kcmp_eq in Hkx. subst key.
      by rewrite (cmp_opp x.1 y.1), Hxy in Hky. }
  unfold table_get. destruct (binary_search_by _ t) as [i|] eqn:Hi; simpl.
  - apply binary_search_spec in Hi as (x & Hx & Heq); [|done]. rewrite Hx. simpl. apply kcmp_eq in Heq.
    assert (Hin : x ∈ with_key key t).
    { apply list_elem_of_filter. split; [done|]. by eapply list_elem_of_lookup_2. }
    rewrite Hk in Hin. destruct (last _); simpl in *; [|by apply elem_of_nil in Hin].
    by apply list_elem_of_singleton in Hin as ->.
  - destruct (last (with_key key l)) as [x|]; [|done]. exfalso.
    assert (Hin : x ∈ with_key key t) by (rewrite Hk; left).
    apply list_elem_of_filter in Hin as [Hx Hin]. apply list_elem_of_lookup_1 in Hin as [i Hlook].
    assert (binary_search_by (λ a : entry, kcmp key a.1) t = Some i); [|congruence].
    apply binary_search_spec; [done|]. exists x. split; [done|]. rewrite Hx. apply kcmp_refl.
Qed.

End Table.
