(* ===== verification/CoreError.v ===== *)
(** * CoreError: the error type and its wire mapping

    src/core/error/mod.rs ([Error] with [kind], [status_code],
    [is_not_found]) and src/core/error/response.rs.  A status code is its
    number.  Message texts are kept where the code carries them and left out of
    the response; the payloads of variants nothing inspects are left out. *)

From S2P Require Import Prelude.

(** The kinds of ruma's [ErrorKind] the sources name; the enum is open. *)
Inductive ErrorKind :=
| NotYetUploaded | ConnectionTimeout | BadStatus | ConnectionFailed | LimitExceeded | TooLarge
| CannotOverwriteMedia | NotFound | NotImplemented | FeatureDisabledKind | Unrecognized
| GuestAccessForbidden | ThreepidAuthFailed | UserDeactivated | UserSuspended | ThreepidDenied
| InviteBlocked | WrongRoomKeysVersion | Forbidden | UnknownToken | MissingToken | Unauthorized
| UserLocked | UnsupportedRoomVersion | IncompatibleRoomVersion | UnableToAuthorizeJoin
| UnableToGrantJoin | NotJson | InvalidParam | Unknown | OtherKind (code : string).

#[global] Instance ErrorKind_eq_dec : EqDecision ErrorKind.
Proof. solve_decision. Defined.

(** [ruma::api::error::Error]: its status and its standard body's kind. *)
Record RumaError := mkRumaError { ruma_status : Z; ruma_kind : option ErrorKind }.

(** [std::io::ErrorKind] *)
Inductive IoKind :=
| InvalidInput | PermissionDenied | IoNotFound | TimedOut | FileTooLarge | StorageFull
| Interrupted | OtherIo.

(** [enum Error] *)
Inductive Error :=
| PanicAny | PanicStr (msg : string)
| Fmt | FromUtf8 | Io (kind : IoKind) | ParseFloat | ParseInt | Std | SystemTime
| ThreadAccessError | TryFromInt | TryFromSlice | Utf8
| CapacityError | CargoToml | Clap | Errno | Extension | Figment | HtmlFormDe | HtmlFormSer
| Http | HttpHeader | JoinError | JsonError | JsParseInt | JsTryFromInt | ObjectStore | PathError
| Poison | Regex | Reqwest (status : option Z) | SerdeDe (msg : string) | SerdeSer (msg : string)
| TomlDe | TomlSer | TracingFilter | TracingReload | TypedHeader | UrlParse | Yaml
| Arithmetic (msg : string) | AuthCheck (error : Error) | BadRequest (kind : ErrorKind) (msg : string)
| BadServerResponse (msg : string) | CanonicalJsonError | Config (item msg : string)
| Conflict (msg : string) | ContentDisposition | Database (msg : string)
| FeatureDisabled (feature : string) | Federation (origin : string) (error : RumaError)
| HttpJson (status : Z) | InconsistentRoomState (msg room : string) | IntoHttp | Ldap (msg : string)
| Mxc | Mxid | PowerLevels | Redaction (origin : string)
| Request (kind : ErrorKind) (msg : string) (status : Z) | RumaErr (error : RumaError)
| Signatures | SignaturesJson | Uiaa | ErrMsg (msg : string).

Notation Res := (Result Error).

(** The forms of [err!] the sources use. *)
Definition err_msg {A} (msg : string) : Res A := Err (ErrMsg msg).
Definition err_request {A} (kind : ErrorKind) (msg : string) : Res A := Err (Request kind msg 400).

(** ** src/core/error/response.rs *)

Definition bad_request_code (kind : ErrorKind) : Z :=
  match kind with
  | NotYetUploaded | ConnectionTimeout => 504
  | BadStatus | ConnectionFailed => 502
  | LimitExceeded => 429
  | TooLarge => 413
  | CannotOverwriteMedia => 409
  | NotFound | NotImplemented | FeatureDisabledKind | Unrecognized => 404
  | GuestAccessForbidden | ThreepidAuthFailed | UserDeactivated | UserSuspended | ThreepidDenied
  | InviteBlocked | WrongRoomKeysVersion | Forbidden => 403
  | UnknownToken | MissingToken | Unauthorized | UserLocked => 401
  | _ => 400
  end.

(** [response::status_code] *)
Definition status_code_hint (kind : ErrorKind) (hint : Z) : Z :=
  if hint =? 400 then bad_request_code kind else hint.

Definition io_error_code (kind : IoKind) : Z :=
  match kind with
  | InvalidInput => 400
  | PermissionDenied => 403
  | IoNotFound => 404
  | TimedOut => 504
  | FileTooLarge => 413
  | StorageFull => 507
  | Interrupted => 503
  | OtherIo => 500
  end.

Definition ruma_error_kind (e : RumaError) : ErrorKind := default Unknown (ruma_kind e).

(** ** src/core/error/mod.rs *)

(** [Error::kind] *)
Definition kind (self : Error) : ErrorKind :=
  match self with
  | FeatureDisabled _ => FeatureDisabledKind
  | CanonicalJsonError | JsonError => NotJson
  | AuthCheck _ => Forbidden
  | BadRequest kind _ | Request kind _ _ => kind
  | Federation _ error | RumaErr error => ruma_error_kind error
  | _ => Unknown
  end.

(** [Error::status_code] *)
Definition status_code (self : Error) : Z :=
  match self with
  | AuthCheck _ => 403
  | Conflict _ => 409
  | Federation _ error | RumaErr error => ruma_status error
  | FeatureDisabled _ | CanonicalJsonError | JsonError | JsParseInt | JsTryFromInt =>
      bad_request_code (kind self)
  | BadRequest kind _ => bad_request_code kind
  | Request kind _ code => status_code_hint kind code
  | Io k => io_error_code k
  | HttpJson code => code
  | Reqwest status => default 500 status
  | _ => 500
  end.

(** [Error::is_not_found] *)
Definition is_not_found (self : Error) : bool := status_code self =? 404.

(** [UiaaResponse], the two forms an error becomes. *)
Inductive UiaaResponse :=
| AuthResponse
| MatrixError (status : Z) (kind : ErrorKind).

Definition is_relayable (kind : ErrorKind) : bool :=
  match kind with
  | Forbidden | NotFound | UnsupportedRoomVersion | IncompatibleRoomVersion | InviteBlocked
  | UnableToAuthorizeJoin | UnableToGrantJoin => true
  | _ => false
  end.

Definition withheld_remote_error : UiaaResponse := MatrixError 502 Unknown.

(** [From<Error> for UiaaResponse] *)
Definition into_response (error : Error) : UiaaResponse :=
  match error with
  | Uiaa => AuthResponse
  | Federation _ remote =>
      if negb (is_relayable (ruma_error_kind remote)) then withheld_remote_error
      else if status_code error =? 401 then MatrixError 400 (kind error)
      else MatrixError (status_code error) (kind error)
  | _ => MatrixError (status_code error) (kind error)
  end.

(** What a remote server answered is never passed to a client as if it were
    about the client's own session: the response to a federation error is a
    Matrix error whose status is not 401 and whose kind is one of the seven a
    remote may speak for, or the withheld form, and the kind and status are the
    remote's own exactly when the kind is relayable and the status is not 401. *)
Theorem federation_errors_contained (origin : string) (remote : RumaError) :
  ∃ status k, into_response (Federation origin remote) = MatrixError status k ∧
    status ≠ 401 ∧ k ≠ UnknownToken ∧ k ≠ MissingToken ∧ k ≠ UserLocked ∧
    (is_relayable k = true ∨ status = 502 ∧ k = Unknown) ∧
    (is_relayable (ruma_error_kind remote) = true →
       k = ruma_error_kind remote ∧
       status = (if ruma_status remote =? 401 then 400 else ruma_status remote)).
Proof.
  unfold into_response. cbn [status_code kind].
  destruct (is_relayable (ruma_error_kind remote)) eqn:Hr; cbn [negb].
  - destruct (Z.eqb_spec (ruma_status remote) 401) as [Hs|Hs];
      (eexists _, _; split_and!; [done|done|..]; [intros Hk; rewrite Hk in Hr; done..| |done]); by left.
  - exists 502, Unknown. split_and!; try done. by right.
Qed.
