(* ===== verification/Bytes.v ===== *)
(** * Bytes: integers in stored rows, and checked arithmetic

    src/core/utils/bytes.rs ([u64_from_bytes], [u64_from_u8], [increment]) and
    the [checked!] and [expected!] forms of src/core/utils/math.rs. *)

From S2P Require Import Prelude CoreError.

(** [bytes.try_into::<[u8; 8]>()?] *)
Definition u64_from_bytes (bytes : list Z) : Res Z :=
  if zlen bytes =? 8 then Ok (from_be bytes) else Err TryFromSlice.

Definition u64_from_u8 (bytes : list Z) : Res Z :=
  match u64_from_bytes bytes with Ok v => Ok v | _ => Panic end.

Definition increment (old : option (list Z)) : list Z :=
  let count := match old with
               | Some bytes => match u64_from_bytes bytes with Ok v => v | _ => 0 end
               | None => 0
               end in
  be_bytes 8 ((count + 1) mod 18446744073709551616).

(** [checked!(..)?]: the value when it fits the type, an error otherwise. *)
Definition checked (max x : Z) : Res Z :=
  if x <=? max then Ok x else Err (Arithmetic "operation overflowed or result invalid").

(** [expected!(..)] *)
Definition expected (max x : Z) : Res Z := if x <=? max then Ok x else Panic.

Lemma checked_Ok max x y : checked max x = Ok y ↔ x ≤ max ∧ y = x.
Proof. unfold checked. case_match; [|naive_solver lia]. split; [intros [= <-]|intros [? ->]]; auto with lia. Qed.

Lemma checked_fits max x : x ≤ max → checked max x = Ok x.
Proof. intros. by apply checked_Ok. Qed.

Lemma expected_fits max x : x ≤ max → expected max x = Ok x.
Proof. intros. unfold expected. by rewrite (proj2 (Z.leb_le _ _)). Qed.

Lemma be_bytes_8 x : u64 x → from_be (be_bytes 8 x) = x.
Proof.
  unfold u64, u64_max. intros. apply from_be_be_bytes_small.
  change (2 ^ (8 * Z.of_nat 8)) with 18446744073709551616. lia.
Qed.

Lemma u64_from_bytes_be x : u64 x → u64_from_bytes (be_bytes 8 x) = Ok x.
Proof. intros. unfold u64_from_bytes. rewrite zlen_be_bytes. simpl. f_equal. by apply be_bytes_8. Qed.

Lemma u64_from_u8_be x : u64 x → u64_from_u8 (be_bytes 8 x) = Ok x.
Proof. intros. unfold u64_from_u8. by rewrite u64_from_bytes_be. Qed.

#[export] Hint Rewrite @zlen_be_bytes @length_be_bytes : bytes.

(** ** [std::str::from_utf8]

    The well-formed byte sequences of the Unicode standard: no overlong form,
    no surrogate, nothing above U+10FFFF. *)

Definition in_byte (lo hi b : Z) : bool := (lo <=? b) && (b <=? hi).
Definition continuation (b : Z) : bool := in_byte 128 191 b.

(** The second byte a lead byte allows. *)
Definition second_ok (lead b : Z) : bool :=
  if lead =? 224 then in_byte 160 191 b
  else if lead =? 237 then in_byte 128 159 b
  else if lead =? 240 then in_byte 144 191 b
  else if lead =? 244 then in_byte 128 143 b
  else continuation b.

Fixpoint utf8_valid (s : list Z) : bool :=
  match s with
  | [] => true
  | a :: s =>
      if in_byte 0 127 a then utf8_valid s
      else match s with
      | b :: s =>
          second_ok a b &&
          (if in_byte 194 223 a then utf8_valid s
           else match s with
           | c :: s =>
               continuation c &&
               (if in_byte 224 239 a then utf8_valid s
                else match s with
                | d :: s => in_byte 240 244 a && continuation d && utf8_valid s
                | [] => false
                end)
           | [] => false
           end)
      | [] => false
      end
  end.

(** [string::str_from_bytes] *)
Definition str_from_bytes (bytes : list Z) : Res (list Z) :=
  if utf8_valid bytes then Ok bytes else Err Utf8.

Lemma in_byte_spec lo hi b : in_byte lo hi b = true ↔ lo ≤ b ≤ hi.
Proof. unfold in_byte. rewrite andb_true_iff, !Z.leb_le. done. Qed.

Lemma second_ok_range a b : second_ok a b = true → 128 ≤ b ≤ 191.
Proof. unfold second_ok, continuation. repeat case_match; rewrite in_byte_spec; lia. Qed.

(** No valid text holds a byte above 244, the separator of records among them. *)
Lemma utf8_bytes s : utf8_valid s = true → Forall (λ b, 0 ≤ b ≤ 244) s.
Proof.
  remember (length s) as n eqn:Hn. assert (Hle : (length s ≤ n)%nat) by lia. clear Hn. revert s Hle.
  induction n as [|n IH]; intros [|a s] Hle; [constructor|simpl in Hle; lia|constructor|].
  simpl in *. destruct (in_byte 0 127 a) eqn:Ha.
  { intros Hs. apply in_byte_spec in Ha. constructor; [lia|]. apply IH; [lia|done]. }
  destruct s as [|b s]; [done|]. intros [Hb%second_ok_range Hs]%andb_true_iff. simpl in Hle.
  destruct (in_byte 194 223 a) eqn:Ha2.
  { apply in_byte_spec in Ha2. repeat constructor; [lia..|]. apply IH; [lia|done]. }
  destruct s as [|c s]; [done|]. apply andb_true_iff in Hs as [Hc Hs]. simpl in Hle.
  unfold continuation in *. rewrite in_byte_spec in Hc. destruct (in_byte 224 239 a) eqn:Ha3.
  { apply in_byte_spec in Ha3. repeat constructor; [lia..|]. apply IH; [lia|done]. }
  destruct s as [|d s]; [done|]. rewrite !andb_true_iff, !in_byte_spec in Hs. destruct Hs as [[? ?] ?].
  simpl in Hle. repeat constructor; [lia..|]. apply IH; [lia|done].
Qed.
