(* ===== verification/RoomEvents.v ===== *)
(** * RoomEvents: events and the typed views of their content

    The event data state resolution works on (src/core/matrix/pdu.rs,
    [trait Event] of src/core/matrix/event.rs) and the helper types of
    src/service/rooms/state_res/events.rs and events/*.rs, which deserialise
    one field of an event's content at a time.

    Identifiers and event types are their text.  What ruma and serde do with
    texts and raw JSON is the class [Ruma], one function per use; a
    deserialiser returns [None] where the library reports an error.  Error
    messages are the literals of the source without the interpolated text. *)

From S2P Require Import Prelude Json CoreError.

(** ** Data *)

(** [ruma::events::room::member::MembershipState] *)
Inductive MembershipState := Ban | Invite | Join | Knock | Leave | CustomMembership (s : string).

#[global] Instance MembershipState_eq_dec : EqDecision MembershipState.
Proof. solve_decision. Defined.

(** [enum JoinRule] of join_rules.rs *)
Inductive JoinRule :=
| PublicRule | InviteRule | KnockRule | RestrictedRule | KnockRestrictedRule
| CustomRule (s : string).

#[global] Instance JoinRule_eq_dec : EqDecision JoinRule.
Proof. solve_decision. Defined.

(** The [StringEnum] derivation with [rename_all = "snake_case"]. *)
Definition JoinRule_from_str (s : string) : JoinRule :=
  if bool_decide (s = "public"%string) then PublicRule
  else if bool_decide (s = "invite"%string) then InviteRule
  else if bool_decide (s = "knock"%string) then KnockRule
  else if bool_decide (s = "restricted"%string) then RestrictedRule
  else if bool_decide (s = "knock_restricted"%string) then KnockRestrictedRule
  else CustomRule s.

(** [ruma::events::room::power_levels::UserPowerLevel] *)
Inductive UserPowerLevel := Infinite | IntLevel (level : Z).

#[global] Instance UserPowerLevel_eq_dec : EqDecision UserPowerLevel.
Proof. solve_decision. Defined.

(** The order ruma documents: [Infinite] is above every integer. *)
Definition level_order (a b : UserPowerLevel) : comparison :=
  match a, b with
  | Infinite, Infinite => Eq
  | Infinite, IntLevel _ => Gt
  | IntLevel _, Infinite => Lt
  | IntLevel x, IntLevel y => x ?= y
  end.

Lemma level_order_opp a b : level_order a b = CompOpp (level_order b a).
Proof. destruct a, b; simpl; try done. apply Z.compare_antisym. Qed.

(** [ruma::room_version_rules::AuthorizationRules], the fields the sources read. *)
Record AuthorizationRules := mkRules {
  special_case_room_redaction : bool;
  special_case_room_aliases : bool;
  limit_notifications_power_levels : bool;
  knocking : bool;
  restricted_join_rule : bool;
  knock_restricted_join_rule : bool;
  integer_power_levels : bool;
  use_room_create_sender : bool;
  explicitly_privilege_room_creators : bool;
  additional_room_creators : bool;
  room_create_event_id_as_room_id : bool
}.

(** The key types of the maps of a power levels event. *)
Inductive MapKey := EventTypeKey | StringKey | UserIdKey.

(** ** The libraries *)

Class Ruma := {
  (** Raw JSON text of an event's content, and of one field's value. *)
  RawJson : Type;
  (** [<&UserId>::try_from] accepts the text. *)
  user_id_ok : string → bool;
  (** [UserId::server_name] *)
  user_server_name : string → string;
  (** [RoomId::server_name] *)
  room_server_name : string → option string;
  (** [EventId::server_name] *)
  event_server_name : string → option string;
  (** [RoomId::as_event_id] *)
  room_as_event_id : string → option string;
  (** [from_raw_json_value] at the field structs of the sources. *)
  de_room_version : RawJson → option (option string);
  de_federate : RawJson → option (option bool);
  de_creator : RawJson → option string;
  de_creator_present : RawJson → option bool;
  de_additional_creators : RawJson → option (list string);
  de_membership : RawJson → option MembershipState;
  de_join_authorised : RawJson → option (option string);
  de_third_party_signed : RawJson → option (option CanonicalJsonObject);
  de_join_rule : RawJson → option string;
  de_public_keys : RawJson → option (option string * list string);
  (** The content of a power levels event as a [JsonObject]. *)
  de_object : RawJson → option (gmap string RawJson);
  (** [from_json_value::<Int>] and [deserialize_v1_powerlevel] *)
  de_int : RawJson → option Z;
  de_v1_int : RawJson → option Z;
  (** [vec_deserialize_int_powerlevel_values] and the v1 variant, which fail on
      a key that does not parse at the key type. *)
  de_int_map : MapKey → RawJson → option (list (string * Z));
  de_v1_int_map : MapKey → RawJson → option (list (string * Z));
  (** [PartialOrd for UserPowerLevel] *)
  level_cmp : UserPowerLevel → UserPowerLevel → comparison;
  level_cmp_documented : ∀ a b, level_cmp a b = level_order a b;
  (** Third-party invite signatures. *)
  canonical_json_for_signing : CanonicalJsonObject → option string;
  signing_key_algorithm : string → option string;
  base64_parse : string → option (list Z);
  public_key_decode : string → option (list Z);
  verify_canonical_json_bytes : string → list Z → list Z → string → bool
}.

(** [struct Pdu], with what [trait Event] exposes of it to state resolution. *)
Record Pdu `{Ruma} := mkPdu {
  event_id : string;
  room_id : string;
  sender : string;
  event_type : string;
  content : RawJson;
  state_key : option string;
  prev_events : list string;
  auth_events : list string;
  origin_server_ts : Z;
  redacts : option string;
  rejected : bool
}.

(** [TypeStateKey] *)
Definition TypeStateKey : Type := string * string.

Definition ROOM_CREATE : string := "m.room.create".
Definition ROOM_MEMBER : string := "m.room.member".
Definition ROOM_POWER_LEVELS : string := "m.room.power_levels".
Definition ROOM_JOIN_RULES : string := "m.room.join_rules".
Definition ROOM_THIRD_PARTY_INVITE : string := "m.room.third_party_invite".
Definition ROOM_REDACTION : string := "m.room.redaction".
Definition ROOM_ALIASES : string := "m.room.aliases".

(** Power level comparisons, each side an integer or a user's level. *)
Definition level_lt `{Ruma} (a b : UserPowerLevel) : bool :=
  match level_cmp a b with Lt => true | _ => false end.
Definition level_le `{Ruma} (a b : UserPowerLevel) : bool :=
  match level_cmp a b with Gt => false | _ => true end.

(** [from_raw_json_value(..).map_err(|err| err!(msg))?] and its request form. *)
Definition de_or {A} (o : option A) (msg : string) : Res A := ok_or o (ErrMsg msg).
Definition de_or_invalid {A} (o : option A) (msg : string) : Res A :=
  ok_or o (Request InvalidParam msg 400).

Section Views.
Context `{Ruma}.

(** ** events/create.rs *)

Definition room_version (self : Pdu) : Res string :=
  v ← de_or (de_room_version (content self))
        "invalid `room_version` field in `m.room.create` event";
  Ok (default "1"%string v).

Definition federate (self : Pdu) : Res bool :=
  v ← de_or (de_federate (content self)) "invalid `m.federate` field in `m.room.create` event";
  Ok (default true v).

Definition creator (self : Pdu) (rules : AuthorizationRules) : Res string :=
  if use_room_create_sender rules then Ok (sender self)
  else de_or (de_creator (content self))
         "missing or invalid `creator` field in `m.room.create` event".

Definition additional_creators (self : Pdu) (rules : AuthorizationRules) : Res (list string) :=
  if additional_room_creators rules then
    l ← de_or (de_additional_creators (content self))
          "invalid `additional_creators` field in `m.room.create` event";
    Ok (dedup (str_sort l))
  else Ok [].

Definition creators (self : Pdu) (rules : AuthorizationRules) : Res (list string) :=
  initial ← creator self rules;
  additional ← additional_creators self rules;
  Ok (initial :: additional).

Definition has_creator (self : Pdu) : Res bool :=
  de_or (de_creator_present (content self)) "invalid `creator` field in `m.room.create` event".

(** ** events/join_rules.rs *)

Definition join_rule (self : Pdu) : Res JoinRule :=
  s ← de_or (de_join_rule (content self))
        "missing or invalid `join_rule` field in `m.room.join_rules` event";
  Ok (JoinRule_from_str s).

(** ** events/third_party_invite.rs *)

(** [public_keys]: collected into a set, which iterates in order. *)
Definition public_keys (self : Pdu) : Res (list string) :=
  content ← de_or (de_public_keys (content self))
    "invalid `public_key` or `public_keys` in `m.room.third_party_invite` event";
  let '(public_key, public_keys) := content in
  Ok (dedup (str_sort (option_list public_key ++ public_keys))).

(** ** events/member.rs *)

(** [RoomMemberEventContent] is the raw content. *)
Definition membership (self : RawJson) : Res MembershipState :=
  de_or_invalid (de_membership self)
    "missing or invalid `membership` field in `m.room.member` event".

Definition join_authorised_via_users_server (self : RawJson) : Res (option string) :=
  de_or_invalid (de_join_authorised self)
    "invalid `join_authorised_via_users_server` field in `m.room.member` event".

(** [struct ThirdPartyInvite] *)
Record ThirdPartyInvite := mkThirdPartyInvite { signed : CanonicalJsonObject }.

Definition third_party_invite (self : RawJson) : Res (option ThirdPartyInvite) :=
  v ← de_or_invalid (de_third_party_signed self)
        "invalid `third_party_invite` field in `m.room.member` event";
  Ok (option_map mkThirdPartyInvite v).

Definition token (self : ThirdPartyInvite) : Res string :=
  match signed self !! "token"%string with
  | None => err_request InvalidParam
      "missing `token` field in `third_party_invite.signed` of `m.room.member` event"
  | Some v => ok_or (c_as_str v) (Request InvalidParam
      "unexpected format of `token` field in `third_party_invite.signed` of `m.room.member` event: expected string" 400)
  end.

Definition mxid (self : ThirdPartyInvite) : Res string :=
  match signed self !! "mxid"%string with
  | None => err_request InvalidParam
      "missing `mxid` field in `third_party_invite.signed` of `m.room.member` event"
  | Some v => ok_or (c_as_str v) (Request InvalidParam
      "unexpected format of `mxid` field in `third_party_invite.signed` of `m.room.member` event: expected string" 400)
  end.

Definition signatures (self : ThirdPartyInvite) : Res CanonicalJsonObject :=
  match signed self !! "signatures"%string with
  | None => err_request InvalidParam
      "missing `signatures` field in `third_party_invite.signed` of `m.room.member` event"
  | Some v => ok_or (c_as_object v) (Request InvalidParam
      "unexpected format of `signatures` field in `third_party_invite.signed` of `m.room.member` event: expected object" 400)
  end.

Definition signed_canonical_json (self : ThirdPartyInvite) : Res string :=
  de_or_invalid (canonical_json_for_signing (signed self))
    "invalid `third_party_invite.signed` field in `m.room.member` event".

(** [RoomMemberEventResultExt::membership]: no event means [leave]. *)
Definition membership_or_leave (self : Res Pdu) : Res MembershipState :=
  match self with
  | Ok event => membership (content event)
  | Err error => if is_not_found error then Ok Leave else Err error
  | Panic => Panic
  end.

(** ** events/power_levels.rs *)

Definition DEFAULT_CREATOR_POWER_LEVEL : Z := 100.

Inductive RoomPowerLevelsIntField :=
| UsersDefault | EventsDefault | StateDefault | BanField | RedactField | KickField | InviteField.

#[global] Instance IntField_eq_dec : EqDecision RoomPowerLevelsIntField.
Proof. solve_decision. Defined.

Definition ALL_FIELDS : list RoomPowerLevelsIntField :=
  [UsersDefault; EventsDefault; StateDefault; BanField; RedactField; KickField; InviteField].

Definition field_as_str (self : RoomPowerLevelsIntField) : string :=
  match self with
  | UsersDefault => "users_default"
  | EventsDefault => "events_default"
  | StateDefault => "state_default"
  | BanField => "ban"
  | RedactField => "redact"
  | KickField => "kick"
  | InviteField => "invite"
  end.

Definition default_value (self : RoomPowerLevelsIntField) : Z :=
  match self with
  | UsersDefault | EventsDefault | InviteField => 0
  | StateDefault | KickField | BanField | RedactField => 50
  end.

Definition position {K V} `{EqDecision K} (vec : list (K * V)) (key : K) : option nat :=
  fst <$> list_find (λ kv, kv.1 = key) vec.

Definition get_value {K V} `{EqDecision K} (vec : list (K * V)) (key : K) : option V :=
  i ← position vec key; snd <$> vec !! i.

Definition contains_key {K V} `{EqDecision K} (vec : list (K * V)) (key : K) : bool :=
  bool_decide (is_Some (position vec key)).

Definition deserialized_content (self : Pdu) : Res (gmap string RawJson) :=
  de_or_invalid (de_object (content self)) "malformed `m.room.power_levels` content".

Definition get_as_int (self : Pdu) (field : RoomPowerLevelsIntField) (rules : AuthorizationRules)
  : Res (option Z) :=
  content ← deserialized_content self;
  match content !! field_as_str field with
  | None => Ok None
  | Some value =>
      let res := if integer_power_levels rules then de_int value else de_v1_int value in
      power_level ← de_or_invalid res
        "unexpected format of field in `content` of `m.room.power_levels` event";
      Ok (Some power_level)
  end.

Definition get_as_int_or_default (self : Pdu) (field : RoomPowerLevelsIntField)
    (rules : AuthorizationRules) : Res Z :=
  v ← get_as_int self field rules; Ok (default (default_value field) v).

Definition get_as_int_map (self : Pdu) (key : MapKey) (field : string) (rules : AuthorizationRules)
  : Res (option (list (string * Z))) :=
  content ← deserialized_content self;
  match content !! field with
  | None => Ok None
  | Some value =>
      let res := if integer_power_levels rules then de_int_map key value
                 else de_v1_int_map key value in
      m ← de_or_invalid res
        "unexpected format of field in `content` of `m.room.power_levels` event";
      Ok (Some m)
  end.

Definition events (self : Pdu) (rules : AuthorizationRules) : Res (option (list (string * Z))) :=
  get_as_int_map self EventTypeKey "events" rules.
Definition notifications (self : Pdu) (rules : AuthorizationRules)
  : Res (option (list (string * Z))) := get_as_int_map self StringKey "notifications" rules.
Definition users (self : Pdu) (rules : AuthorizationRules) : Res (option (list (string * Z))) :=
  get_as_int_map self UserIdKey "users" rules.

(** [RoomPowerLevelsEvent::user_power_level] *)
Definition event_user_power_level (self : Pdu) (user_id : string) (rules : AuthorizationRules)
  : Res UserPowerLevel :=
  users ← users self rules;
  level ← match (users ← users; get_value users user_id) with
          | Some level => Ok level
          | None => get_as_int_or_default self UsersDefault rules
          end;
  Ok (IntLevel level).

(** [RoomPowerLevelsEvent::event_power_level] *)
Definition event_event_power_level (self : Pdu) (event_type : string) (state_key : option string)
    (rules : AuthorizationRules) : Res Z :=
  events ← events self rules;
  match (events ← events; get_value events event_type) with
  | Some power_level => Ok power_level
  | None =>
      let default_field := if bool_decide (is_Some state_key) then StateDefault else EventsDefault in
      get_as_int_or_default self default_field rules
  end.

(** [int_fields_map]: the present fields, stopping at the first error. *)
Fixpoint int_fields_from (self : Pdu) (fields : list RoomPowerLevelsIntField)
    (rules : AuthorizationRules) : Res (list (RoomPowerLevelsIntField * Z)) :=
  match fields with
  | [] => Ok []
  | field :: rest =>
      value ← get_as_int self field rules;
      tail ← int_fields_from self rest rules;
      Ok (match value with Some value => (field, value) :: tail | None => tail end)
  end.

Definition int_fields_map (self : Pdu) (rules : AuthorizationRules)
  : Res (list (RoomPowerLevelsIntField * Z)) := int_fields_from self ALL_FIELDS rules.

(** [RoomPowerLevelsEventOptionExt].  The creators iterator is used up by the
    first [any] only when no creator matched, and then the second finds none. *)
Definition user_power_level (self : option Pdu) (user_id : string) (creators : list string)
    (rules : AuthorizationRules) : Res UserPowerLevel :=
  if explicitly_privilege_room_creators rules && bool_decide (user_id ∈ creators)
  then Ok Infinite
  else match self with
       | Some ev => event_user_power_level ev user_id rules
       | None =>
           Ok (IntLevel (if bool_decide (user_id ∈ creators) then DEFAULT_CREATOR_POWER_LEVEL
                         else default_value UsersDefault))
       end.

Definition int_or_default (self : option Pdu) (field : RoomPowerLevelsIntField)
    (rules : AuthorizationRules) : Res Z :=
  match self with
  | None => Ok (default_value field)
  | Some ev => get_as_int_or_default ev field rules
  end.

Definition event_power_level (self : option Pdu) (event_type : string) (state_key : option string)
    (rules : AuthorizationRules) : Res Z :=
  match self with
  | None =>
      let default_field := if bool_decide (is_Some state_key) then StateDefault else EventsDefault in
      Ok (default_value default_field)
  | Some ev => event_event_power_level ev event_type state_key rules
  end.

(** ** events.rs *)

Definition is_power_event (event : Pdu) : bool :=
  let t := event_type event in
  if bool_decide (t = ROOM_POWER_LEVELS) || bool_decide (t = ROOM_JOIN_RULES)
     || bool_decide (t = ROOM_CREATE)
  then bool_decide (state_key event = Some ""%string)
  else if bool_decide (t = ROOM_MEMBER) then
    match membership (content event) with
    | Ok Leave | Ok Ban => bool_decide (Some (sender event) ≠ state_key event)
    | _ => false
    end
  else false.

(** ** fetch_state.rs: a state snapshot is a function of type and state key. *)

Definition FetchState : Type := string → string → Res Pdu.

Definition room_create_event (fetch : FetchState) : Res Pdu :=
  map_err (λ error, if is_not_found error
                    then ErrMsg "no `m.room.create` event in current state" else error)
    (fetch ROOM_CREATE ""%string).

Definition user_membership (fetch : FetchState) (user_id : string) : Res MembershipState :=
  membership_or_leave (fetch ROOM_MEMBER user_id).

(** [.map(Some).or_else(|error| error.is_not_found().then_some(None).ok_or(error))] *)
Definition optional {A} (r : Res A) : Res (option A) :=
  match r with
  | Ok a => Ok (Some a)
  | Err error => if is_not_found error then Ok None else Err error
  | Panic => Panic
  end.

Definition room_power_levels_event (fetch : FetchState) : Res (option Pdu) :=
  optional (fetch ROOM_POWER_LEVELS ""%string).

Definition room_join_rule (fetch : FetchState) : Res JoinRule :=
  ev ← map_err (λ error, if is_not_found error
                         then ErrMsg "no `m.room.join_rules` event in current state" else error)
         (fetch ROOM_JOIN_RULES ""%string);
  join_rule ev.

Definition room_third_party_invite_event (fetch : FetchState) (token : string)
  : Res (option Pdu) :=
  optional (fetch ROOM_THIRD_PARTY_INVITE token).

End Views.
