(* ===== verification/SampleRoom.v ===== *)
(** * SampleRoom: a concrete room

    An instance of the library interface over a small JSON, and one room in it,
    on which the theorems of the event authorisation files are applied. *)

From Stdlib Require Import Ascii.
From S2P Require Import Prelude Json CoreError RoomEvents.

Inductive SJ :=
| SJInt (z : Z) | SJStr (s : string) | SJBool (b : bool) | SJMap (l : list (string * Z))
| SJList (l : list string) | SJSigned (m : CanonicalJsonObject) | SJObj (l : list (string * SJ)).

Definition sj_get (c : SJ) (k : string) : option SJ :=
  match c with SJObj l => map_get l k | _ => None end.

(** A field that may be absent, and must have the right shape when present. *)
Definition sj_opt {A} (f : SJ → option A) (c : SJ) (k : string) : option (option A) :=
  match sj_get c k with
  | None => Some None
  | Some v => a ← f v; Some (Some a)
  end.

Definition sj_str (v : SJ) : option string := match v with SJStr s => Some s | _ => None end.
Definition sj_bool (v : SJ) : option bool := match v with SJBool b => Some b | _ => None end.
Definition sj_int (v : SJ) : option Z := match v with SJInt z => Some z | _ => None end.
Definition sj_map (v : SJ) : option (list (string * Z)) := match v with SJMap l => Some l | _ => None end.
Definition sj_signed (v : SJ) : option CanonicalJsonObject :=
  match v with SJSigned m => Some m | _ => None end.

Definition sj_membership (s : string) : MembershipState :=
  if bool_decide (s = "ban"%string) then Ban
  else if bool_decide (s = "invite"%string) then Invite
  else if bool_decide (s = "join"%string) then Join
  else if bool_decide (s = "knock"%string) then Knock
  else if bool_decide (s = "leave"%string) then Leave
  else CustomMembership s.

Fixpoint after_colon (s : string) : option string :=
  match s with
  | EmptyString => None
  | String c rest => if bool_decide (c = ":"%char) then Some rest else after_colon rest
  end.

#[global] Instance sample_ruma : Ruma := {|
  RawJson := SJ;
  user_id_ok s := match s with String "@"%char rest => bool_decide (is_Some (after_colon rest)) | _ => false end;
  user_server_name s := default ""%string (after_colon s);
  room_server_name := after_colon;
  event_server_name := after_colon;
  room_as_event_id s := match s with String _ rest => Some (String "$"%char rest) | _ => None end;
  de_room_version c := sj_opt sj_str c "room_version";
  de_federate c := sj_opt sj_bool c "m.federate";
  de_creator c := v ← sj_get c "creator"; sj_str v;
  de_creator_present c := Some (bool_decide (is_Some (sj_get c "creator")));
  de_additional_creators c :=
    match sj_get c "additional_creators" with None => Some [] | Some (SJList l) => Some l | _ => None end;
  de_membership c := v ← sj_get c "membership"; s ← sj_str v; Some (sj_membership s);
  de_join_authorised c := sj_opt sj_str c "join_authorised_via_users_server";
  de_third_party_signed c := sj_opt sj_signed c "third_party_invite";
  de_join_rule c := v ← sj_get c "join_rule"; sj_str v;
  de_public_keys c :=
    k ← sj_opt sj_str c "public_key";
    match sj_get c "public_keys" with
    | None => Some (k, [])
    | Some (SJList l) => Some (k, l)
    | _ => None
    end;
  de_object c := match c with SJObj l => Some (list_to_map l) | _ => None end;
  de_int := sj_int;
  de_v1_int := sj_int;
  de_int_map _ := sj_map;
  de_v1_int_map _ := sj_map;
  level_cmp := level_order;
  level_cmp_documented _ _ := eq_refl;
  canonical_json_for_signing _ := Some "signed"%string;
  signing_key_algorithm k := Some k;
  base64_parse s := Some [Z.of_nat (String.length s)];
  public_key_decode s := Some [Z.of_nat (String.length s)];
  verify_canonical_json_bytes _ key signature _ := bool_decide (key = signature)
|}.

(** ** A room of version 10 *)

Definition rules_v10 : AuthorizationRules :=
  mkRules false false true true true true true false false false false.

(** Version 12: creators are privileged and the room id is the create event's. *)
Definition rules_v12 : AuthorizationRules :=
  mkRules false false true true true true true true true true true.

Definition alice : string := "@alice:h".
Definition bob : string := "@bob:h".
Definition carol : string := "@carol:h".

Definition sample_event (id : string) (from ty : string) (key : option string)
    (c : list (string * SJ)) (prev auth : list string) : Pdu :=
  mkPdu _ id "!room:h" from ty (SJObj c) key prev auth 0 None false.

Definition create_event : Pdu :=
  sample_event "$create" alice ROOM_CREATE (Some ""%string) [("creator"%string, SJStr alice)] [] [].

Definition member_event (id from target membership : string) (prev : list string) : Pdu :=
  sample_event id from ROOM_MEMBER (Some target) [("membership"%string, SJStr membership)] prev
    ["$create"%string].

Definition power_event (id from : string) (l : list (string * Z)) : Pdu :=
  sample_event id from ROOM_POWER_LEVELS (Some ""%string)
    [("users"%string, SJMap l); ("ban"%string, SJInt 60)] ["$x"%string] ["$create"%string].

Definition join_rules_event (rule : string) : Pdu :=
  sample_event "$rules" alice ROOM_JOIN_RULES (Some ""%string) [("join_rule"%string, SJStr rule)]
    ["$x"%string] ["$create"%string].

(** The room: Alice (100) and Bob (50) are in it, Carol is banned. *)
Definition sample_state : list Pdu :=
  [create_event; member_event "$a" alice alice "join" ["$create"%string];
   member_event "$b" bob bob "join" ["$a"%string];
   member_event "$c" alice carol "ban" ["$b"%string];
   power_event "$p" alice [(alice, 100); (bob, 50)];
   join_rules_event "public"].

Definition fetch_from (state : list Pdu) : FetchState := λ ty key,
  match list_find (λ e, event_type e = ty ∧ state_key e = Some key) state with
  | Some (_, e) => Ok e
  | None => Err (Request NotFound "no such state" 400)
  end.

Definition fetch_id (l : list Pdu) : string → Res Pdu := λ id,
  match list_find (λ e, event_id e = id) l with
  | Some (_, e) => Ok e
  | None => Err (Request NotFound "no such event" 400)
  end.

(** ** A room that forked

    Alice made the room, set power levels and opened it, and Bob joined.  On one
    branch Alice then took Bob's power away and set a topic; on the other Alice
    banned Bob, who had set a topic first. *)

Definition fork_event (id from ty key : string) (c : list (string * SJ)) (auth : list string) : Pdu :=
  sample_event id from ty (Some key) c ["$x"%string] auth.

Definition fork_events : list Pdu :=
  let s := SJStr in
  [create_event;
   fork_event "$a" alice ROOM_MEMBER alice [("membership", s "join")] ["$create"];
   fork_event "$p1" alice ROOM_POWER_LEVELS "" [("users", SJMap [(alice, 100); (bob, 50)])]
     ["$create"; "$a"];
   fork_event "$j" alice ROOM_JOIN_RULES "" [("join_rule", s "public")] ["$create"; "$a"; "$p1"];
   fork_event "$b" bob ROOM_MEMBER bob [("membership", s "join")] ["$create"; "$p1"; "$j"];
   fork_event "$p2" alice ROOM_POWER_LEVELS "" [("users", SJMap [(alice, 100)])]
     ["$create"; "$a"; "$p1"];
   fork_event "$t2" alice "m.room.topic" "" [("topic", s "two")] ["$create"; "$a"; "$p2"];
   fork_event "$t1" bob "m.room.topic" "" [("topic", s "one")] ["$create"; "$b"; "$p1"];
   fork_event "$ban" alice ROOM_MEMBER bob [("membership", s "ban")]
     ["$create"; "$a"; "$p1"; "$b"]]%string.

Definition fork_fetch : string → Res Pdu := fetch_id fork_events.

Definition fork_ids : list string := event_id <$> fork_events.

(** The position of an event in the room's history. *)
Definition fork_rank (id : string) : nat :=
  match list_find (λ x, x = id) fork_ids with Some (i, _) => S i | None => 0%nat end.

Lemma fetch_id_cases l id :
  (∃ ev, fetch_id l id = Ok ev ∧ event_id ev = id ∧ ev ∈ l) ∨
  ∃ e, fetch_id l id = Err e ∧ is_not_found e = true.
Proof.
  unfold fetch_id. destruct (list_find _ l) as [[i ev]|] eqn:Hf; [|by right; eexists].
  apply list_find_Some in Hf as (Hi & Hid & _). left. exists ev. split_and!; [done|done|].
  by eapply list_elem_of_lookup_2.
Qed.
