(* ===== verification/AuthTypes.v ===== *)
(** * AuthTypes: the state an event is authorised against
      (src/service/rooms/state_res/event_auth/auth_types.rs)

    [AuthTypes] is an [ArrayVec] of ten entries: a push past its capacity
    aborts. *)

From S2P Require Import Prelude Json CoreError RoomEvents.

(** [MAX_AUTH_EVENTS] of src/core/matrix/pdu.rs *)
Definition MAX_AUTH_EVENTS : nat := 10.

(** [ArrayVec::push] *)
Definition push (vec : list TypeStateKey) (key : TypeStateKey) : Res (list TypeStateKey) :=
  if bool_decide (length vec < MAX_AUTH_EVENTS)%nat then Ok (vec ++ [key]) else Panic.

(** [if !auth_types.contains(&key) { auth_types.push(key) }] *)
Definition push_new (vec : list TypeStateKey) (key : TypeStateKey) : Res (list TypeStateKey) :=
  if bool_decide (key ∈ vec) then Ok vec else push vec key.

Definition is_join_invite_knock (m : MembershipState) : bool :=
  match m with Join | Invite | Knock => true | _ => false end.

Section WithRuma.
Context `{Ruma}.

(** [auth_types_for_member_event] *)
Definition auth_types_for_member_event (auth_types : list TypeStateKey) (state_key : option string)
    (content : RawJson) (rules : AuthorizationRules) : Res (list TypeStateKey) :=
  match state_key with
  | None => err_msg "missing `state_key` field for `m.room.member` event"
  | Some state_key =>
      auth_types ← push_new auth_types (ROOM_MEMBER, state_key);
      m ← membership content;
      auth_types ← (if is_join_invite_knock m
                    then push_new auth_types (ROOM_JOIN_RULES, ""%string) else Ok auth_types);
      auth_types ← (if bool_decide (m = Invite) then
                      tpi ← third_party_invite content;
                      match tpi with
                      | Some tpi =>
                          tok ← token tpi;
                          push_new auth_types (ROOM_THIRD_PARTY_INVITE, tok)
                      | None => Ok auth_types
                      end
                    else Ok auth_types);
      if bool_decide (m = Join) && restricted_join_rule rules then
        via ← join_authorised_via_users_server content;
        match via with
        | Some user_id => push_new auth_types (ROOM_MEMBER, user_id)
        | None => Ok auth_types
        end
      else Ok auth_types
  end.

(** [auth_types_for_event] *)
Definition auth_types_for_event (event_type : string) (sender : string) (state_key : option string)
    (content : RawJson) (rules : AuthorizationRules) (always_create : bool)
  : Res (list TypeStateKey) :=
  auth_types ← (if bool_decide (event_type ≠ ROOM_CREATE) then
                  auth_types ← (if negb (room_create_event_id_as_room_id rules) || always_create
                                then push [] (ROOM_CREATE, ""%string) else Ok []);
                  auth_types ← push auth_types (ROOM_POWER_LEVELS, ""%string);
                  push auth_types (ROOM_MEMBER, sender)
                else Ok []);
  if bool_decide (event_type = ROOM_MEMBER)
  then auth_types_for_member_event auth_types state_key content rules
  else Ok auth_types.

(** ** What is selected

    The selection as the specification lists it, without the capacity. *)

Definition base_types (sender : string) (rules : AuthorizationRules) (always_create : bool)
  : list TypeStateKey :=
  (if negb (room_create_event_id_as_room_id rules) || always_create
   then [(ROOM_CREATE, ""%string)] else []) ++
  [(ROOM_POWER_LEVELS, ""%string); (ROOM_MEMBER, sender)].

(** The keys a membership event adds for its target and its content. *)
Definition member_types (target : string) (c : RawJson) (m : MembershipState)
    (rules : AuthorizationRules) : list TypeStateKey :=
  [(ROOM_MEMBER, target)] ++
  (if is_join_invite_knock m then [(ROOM_JOIN_RULES, ""%string)] else []) ++
  (if bool_decide (m = Invite) then
     match third_party_invite c with
     | Ok (Some tpi) => match token tpi with Ok t => [(ROOM_THIRD_PARTY_INVITE, t)] | _ => [] end
     | _ => []
     end else []) ++
  (if bool_decide (m = Join) && restricted_join_rule rules then
     match join_authorised_via_users_server c with
     | Ok (Some u) => [(ROOM_MEMBER, u)]
     | _ => []
     end else []).

Lemma push_new_Ok vec key vec' :
  push_new vec key = Ok vec' → NoDup vec →
  NoDup vec' ∧ (∀ k, k ∈ vec' ↔ k ∈ vec ∨ k = key) ∧ (length vec' ≤ S (length vec))%nat.
Proof.
  unfold push_new, push. intros Hp Hnd. case_bool_decide as Hin; [|case_bool_decide as Hlen; [|done]];
    simplify_eq.
  - split_and!; [done| |lia]. naive_solver.
  - split_and!.
    + apply NoDup_app. split_and!; [done| |by apply NoDup_singleton].
      intros x Hx ->%list_elem_of_singleton. done.
    + intros k. rewrite elem_of_app, list_elem_of_singleton. done.
    + rewrite length_app. simpl. lia.
Qed.

Lemma push_new_total vec key :
  (length vec < 10)%nat → ∃ vec', push_new vec key = Ok vec' ∧ (length vec' ≤ S (length vec))%nat.
Proof.
  intros Hl. unfold push_new, push, MAX_AUTH_EVENTS. case_bool_decide; [eauto|].
  rewrite bool_decide_eq_true_2 by done. eexists. split; [done|]. rewrite length_app. simpl. lia.
Qed.

(** One [push_new] with room left. *)
Lemma push_new_step vec key :
  NoDup vec → (length vec < 10)%nat → ∃ vec', push_new vec key = Ok vec' ∧
  NoDup vec' ∧ (∀ k, k ∈ vec' ↔ k ∈ vec ∨ k = key) ∧ (length vec' ≤ S (length vec))%nat.
Proof.
  intros Hnd Hl. destruct (push_new_total vec key Hl) as (vec' & Hp & _).
  exists vec'. split; [done|]. by apply push_new_Ok.
Qed.

(** A selection that adds the keys [extra] to [vec], unless it reports an error. *)
Definition selects (vec extra : list TypeStateKey) (r : Res (list TypeStateKey)) : Prop :=
  match r with
  | Ok vec' => NoDup vec' ∧ (∀ k, k ∈ vec' ↔ k ∈ vec ∨ k ∈ extra) ∧
               (length vec' ≤ length vec + length extra)%nat
  | Err _ => True
  | Panic => False
  end.

Lemma selects_nil vec : NoDup vec → selects vec [] (Ok vec).
Proof. intros. simpl. split_and!; [done| |lia]. intros k. rewrite elem_of_nil. naive_solver. Qed.

Lemma selects_push_new vec key :
  NoDup vec → (length vec < 10)%nat → selects vec [key] (push_new vec key).
Proof.
  intros Hnd Hl. destruct (push_new_step vec key Hnd Hl) as (v & -> & Hv & Hin & Hlen). simpl.
  split_and!; [done| |lia]. intros k. by rewrite Hin, list_elem_of_singleton.
Qed.

Lemma selects_bind vec e1 e2 r (k : list TypeStateKey → Res (list TypeStateKey)) :
  selects vec e1 r →
  (∀ v, NoDup v → (length v ≤ length vec + length e1)%nat → selects v e2 (k v)) →
  selects vec (e1 ++ e2) (r ≫= k).
Proof.
  destruct r as [v| |]; simpl; try done. intros (Hnd & Hin & Hlen) Hk.
  specialize (Hk v Hnd Hlen). destruct (k v) as [v'| |]; simpl in *; try done.
  destruct Hk as (Hnd' & Hin' & Hlen'). split_and!; [done| |rewrite length_app; lia].
  intros x. rewrite Hin', Hin, elem_of_app. naive_solver.
Qed.

Lemma member_types_selects vec target c rules :
  NoDup vec → (length vec ≤ 3)%nat →
  match membership c with
  | Ok m => selects vec (member_types target c m rules)
              (auth_types_for_member_event vec (Some target) c rules)
  | _ => True
  end.
Proof.
  intros Hnd Hl. unfold auth_types_for_member_event, member_types.
  destruct (membership c) as [m| |] eqn:Hm; [|done..].
  apply selects_bind; [apply selects_push_new; [done|lia]|]. intros v Hv Hlv. simpl in Hlv.
  rewrite bind_Ok. apply selects_bind.
  { destruct (is_join_invite_knock m); [apply selects_push_new; [done|lia]|by apply selects_nil]. }
  intros v2 Hv2 Hlv2.
  assert (length v2 ≤ 5)%nat by (destruct (is_join_invite_knock m); simpl in Hlv2; lia).
  clear Hlv2. apply selects_bind.
  { case_bool_decide; [|by apply selects_nil].
    destruct (third_party_invite c) as [[tpi|]| |] eqn:Ht; simpl; [|by apply selects_nil|done|].
    - destruct (token tpi) as [t| |] eqn:Htok; simpl; [|done|].
      + apply selects_push_new; [done|lia].
      + exfalso. unfold token in Htok. repeat case_match; try done. by destruct (c_as_str _).
    - exfalso. unfold third_party_invite, de_or_invalid in Ht. by destruct (de_third_party_signed c). }
  intros v3 Hv3 Hlv3.
  assert (length v3 ≤ 6)%nat.
  { revert Hlv3. case_bool_decide; [|simpl; lia]. repeat case_match; simpl; lia. }
  destruct (_ && _); [|by apply selects_nil].
  destruct (join_authorised_via_users_server c) as [[u|]| |] eqn:Hj; simpl; [|by apply selects_nil|done|].
  - apply selects_push_new; [done|lia].
  - exfalso. unfold join_authorised_via_users_server, de_or_invalid in Hj. by destruct (de_join_authorised c).
Qed.

Lemma member_types_length target c m rules : (length (member_types target c m rules) ≤ 3)%nat.
Proof.
  unfold member_types. rewrite !length_app. simpl.
  destruct m; simpl; repeat case_match; simpl; lia.
Qed.

Lemma base_types_selects ty sender rules always :
  ty ≠ ROOM_CREATE →
  (auth_types ← (if negb (room_create_event_id_as_room_id rules) || always
                 then push [] (ROOM_CREATE, ""%string) else Ok []);
   auth_types ← push auth_types (ROOM_POWER_LEVELS, ""%string);
   push auth_types (ROOM_MEMBER, sender)) = Ok (base_types sender rules always).
Proof. intros _. unfold base_types. by destruct (_ || _). Qed.

Lemma base_types_NoDup sender rules always :
  NoDup (base_types sender rules always) ∧ (length (base_types sender rules always) ≤ 3)%nat.
Proof.
  unfold base_types. destruct (_ || _); simpl; (split; [|lia]);
    repeat (constructor; [rewrite ?elem_of_cons, ?elem_of_nil; naive_solver|]); constructor.
Qed.

End WithRuma.

Lemma auth_types_spec `{Ruma} (ty sender : string) (state_key : option string)
    (content : RawJson) (rules : AuthorizationRules) (always_create : bool) :
  let r := auth_types_for_event ty sender state_key content rules always_create in
  r ≠ Panic ∧
  ∀ l, r = Ok l →
    NoDup l ∧ (length l ≤ 6)%nat ∧
    (ty = ROOM_MEMBER → ∃ target m, state_key = Some target ∧ membership content = Ok m) ∧
    (∀ k, k ∈ l ↔
       (ty ≠ ROOM_CREATE ∧ k ∈ base_types sender rules always_create) ∨
       (ty = ROOM_MEMBER ∧ ∃ target m, state_key = Some target ∧ membership content = Ok m ∧
          k ∈ member_types target content m rules)).
Proof.
  cbv zeta. unfold auth_types_for_event. destruct (decide (ty = ROOM_CREATE)) as [->|Hc].
  { rewrite (bool_decide_eq_false_2 (ROOM_CREATE ≠ ROOM_CREATE)) by (intros Hn; by apply Hn).
      rewrite bind_Ok, (bool_decide_eq_false_2 (ROOM_CREATE = ROOM_MEMBER)) by done. split; [done|]. intros l [= <-].
      split_and!; [constructor|simpl; lia|done|]. intros k. rewrite elem_of_nil. naive_solver. }
  rewrite (bool_decide_eq_true_2 (ty ≠ ROOM_CREATE)), (base_types_selects ty), bind_Ok by done.
  destruct (base_types_NoDup sender rules always_create) as [Hnd Hlen].
  case_bool_decide as Hm.
  2:{ split; [done|]. intros l [= <-]. split_and!; [done|lia|done|]. naive_solver. }
  destruct state_key as [target|]; [|done].
  pose proof (member_types_selects _ target content rules Hnd Hlen) as Hs.
  destruct (membership content) as [m|e|] eqn:Hmem.
  - pose proof (member_types_length target content m rules) as H3.
    destruct (auth_types_for_member_event _ _ _ _) as [l| |]; [|done..]. cbn [selects] in Hs.
    destruct Hs as (Hnd' & Hin & Hl'). split; [done|]. intros ? [= <-].
    split_and!; [done|lia|by eauto|]. intros k. rewrite Hin. naive_solver.
  - unfold auth_types_for_member_event. rewrite Hmem.
    destruct (push_new_total (base_types sender rules always_create) (ROOM_MEMBER, target))
      as (v & -> & _); [lia|]. done.
  - exfalso. unfold membership, de_or_invalid in Hmem. by destruct (de_membership content).
Qed.

(** The keys an event is authorised against are selected without duplicates
    and never overflow the ten entries reserved for them: whatever the content,
    [auth_types_for_event] does not abort, and what it returns is exactly the
    create, power levels and sender entries plus, for a membership event, the
    target's and those its content calls for. *)
Theorem auth_types_selection `{Ruma} (ty sender : string) (state_key : option string)
    (content : RawJson) (rules : AuthorizationRules) (always_create : bool) :
  let r := auth_types_for_event ty sender state_key content rules always_create in
  r ≠ Panic ∧
  ∀ l, r = Ok l →
    NoDup l ∧ (length l ≤ 6)%nat ∧
    (ty = ROOM_MEMBER → ∃ target m, state_key = Some target ∧ membership content = Ok m) ∧
    (∀ k, k ∈ l ↔
       (ty ≠ ROOM_CREATE ∧ k ∈ base_types sender rules always_create) ∨
       (ty = ROOM_MEMBER ∧ ∃ target m, state_key = Some target ∧ membership content = Ok m ∧
          k ∈ member_types target content m rules)).
Proof. apply auth_types_spec. Qed.
