(* ===== verification/RoomMember.v ===== *)
(** * RoomMember: the membership rules
      (src/service/rooms/state_res/event_auth/room_member.rs)

    [join] and [join3] run their futures to the end and return every result;
    the code then takes them apart in the order shown here. *)

From S2P Require Import Prelude Json CoreError RoomEvents SampleRoom.

Section WithRuma.
Context `{Ruma}.

(** [check_room_member_join] *)
Definition check_room_member_join (ev : Pdu) (target_user : string) (rules : AuthorizationRules)
    (create : Pdu) (fetch : FetchState) : Res () :=
  creator ← creator create rules;
  creators ← creators create rules;
  let prev_event_is_room_create_event :=
    match prev_events ev with
    | first :: _ => bool_decide (first = event_id create)
    | [] => false
    end in
  let prev_event_is_only_room_create_event :=
    prev_event_is_room_create_event && bool_decide (length (prev_events ev) = 1%nat) in
  if prev_event_is_only_room_create_event && bool_decide (target_user = creator) then Ok ()
  else if bool_decide (sender ev ≠ target_user) then
    err_msg "sender of join event must match target user"
  else
  current_membership ← user_membership fetch target_user;
  if bool_decide (current_membership = Ban) then err_msg "banned user cannot join room"
  else
  join_rule ← room_join_rule fetch;
  if (bool_decide (join_rule = InviteRule) || knocking rules && bool_decide (join_rule = KnockRule))
     && (bool_decide (current_membership = Invite) || bool_decide (current_membership = Join))
  then Ok ()
  else if restricted_join_rule rules && bool_decide (join_rule = RestrictedRule)
     || knock_restricted_join_rule rules && bool_decide (join_rule = KnockRestrictedRule)
  then
    if bool_decide (current_membership = Join) || bool_decide (current_membership = Invite)
    then Ok ()
    else
    via ← join_authorised_via_users_server (content ev);
    match via with
    | None => err_msg
        "cannot join restricted room without `join_authorised_via_users_server` field if not invited"
    | Some authorized_via_user =>
        via_membership ← user_membership fetch authorized_via_user;
        if bool_decide (via_membership ≠ Join) then
          err_msg "`join_authorised_via_users_server` is not joined"
        else
        power_levels ← room_power_levels_event fetch;
        via_power_level ← user_power_level power_levels authorized_via_user creators rules;
        invite_power_level ← int_or_default power_levels InviteField rules;
        if level_lt via_power_level (IntLevel invite_power_level) then
          err_msg "`join_authorised_via_users_server` does not have enough power"
        else Ok ()
    end
  else if bool_decide (join_rule ≠ PublicRule) then
    err_msg "cannot join a room that is not `public`"
  else Ok ().

(** The inner loops of [check_third_party_invite]: a signature of one entity
    that verifies against one of the public keys. *)
Definition signature_verifies (public_keys : list string) (json : string)
    (entry : string * CanonicalJson) : bool :=
  match signing_key_algorithm (fst entry) with
  | None => false
  | Some algorithm =>
      match c_as_str (snd entry) with
      | None => false
      | Some signature_str =>
          match base64_parse signature_str with
          | None => false
          | Some signature =>
              existsb (λ encoded, match public_key_decode encoded with
                                  | None => false
                                  | Some key => verify_canonical_json_bytes algorithm key signature json
                                  end) public_keys
          end
      end
  end.

(** The outer loop, over the signing entities in key order. *)
Fixpoint check_signatures (public_keys : list string) (json : string)
    (entities : list (string * CanonicalJson)) : Res () :=
  match entities with
  | [] => err_msg
      "no signature on third-party invite matches a public key in `m.room.third_party_invite` event"
  | (_, entity_signatures_value) :: rest =>
      match c_as_object entity_signatures_value with
      | None => err_request InvalidParam
          "unexpected format of `signatures` field in `third_party_invite.signed` of `m.room.member` event: expected a map of string to object"
      | Some entity_signatures =>
          if existsb (signature_verifies public_keys json) (btree_iter entity_signatures)
          then Ok () else check_signatures public_keys json rest
      end
  end.

(** [check_third_party_invite] *)
Definition check_third_party_invite (ev : Pdu) (tpi : ThirdPartyInvite) (target_user : string)
    (fetch : FetchState) : Res () :=
  current_target_user_membership ← user_membership fetch target_user;
  if bool_decide (current_target_user_membership = Ban) then
    err_msg "cannot invite user that is banned"
  else
  token ← token tpi;
  mxid ← mxid tpi;
  if bool_decide (target_user ≠ mxid) then
    err_msg "third-party invite mxid does not match target user"
  else
  room_tpi ← room_third_party_invite_event fetch token;
  match room_tpi with
  | None => err_msg "no `m.room.third_party_invite` in room state matches the token"
  | Some room_tpi =>
      if bool_decide (sender ev ≠ sender room_tpi) then
        err_msg "sender of `m.room.third_party_invite` does not match sender of `m.room.member`"
      else
      signatures ← signatures tpi;
      public_keys ← public_keys room_tpi;
      json ← signed_canonical_json tpi;
      check_signatures public_keys json (btree_iter signatures)
  end.

(** [check_room_member_invite] *)
Definition check_room_member_invite (ev : Pdu) (target_user : string) (rules : AuthorizationRules)
    (create : Pdu) (fetch : FetchState) : Res () :=
  tpi ← third_party_invite (content ev);
  match tpi with
  | Some tpi => check_third_party_invite ev tpi target_user fetch
  | None =>
      sender_membership ← user_membership fetch (sender ev);
      if bool_decide (sender_membership ≠ Join) then
        err_msg "cannot invite user if sender is not joined"
      else
      current_target_user_membership ← user_membership fetch target_user;
      if bool_decide (current_target_user_membership = Join)
         || bool_decide (current_target_user_membership = Ban) then
        err_msg "cannot invite user that is joined or banned"
      else
      power_levels ← room_power_levels_event fetch;
      creators ← creators create rules;
      sender_power_level ← user_power_level power_levels (sender ev) creators rules;
      invite_power_level ← int_or_default power_levels InviteField rules;
      if level_lt sender_power_level (IntLevel invite_power_level) then
        err_msg "sender does not have enough power to invite"
      else Ok ()
  end.

(** [check_room_member_leave] *)
Definition check_room_member_leave (ev : Pdu) (target_user : string) (rules : AuthorizationRules)
    (create : Pdu) (fetch : FetchState) : Res () :=
  sender_membership ← user_membership fetch (sender ev);
  if bool_decide (sender ev = target_user) then
    let membership_is_invite_or_join :=
      bool_decide (sender_membership = Join) || bool_decide (sender_membership = Invite) in
    let membership_is_knock := knocking rules && bool_decide (sender_membership = Knock) in
    if membership_is_invite_or_join || membership_is_knock then Ok ()
    else err_msg "cannot leave if not joined, invited or knocked"
  else if bool_decide (sender_membership ≠ Join) then
    err_msg "cannot kick if sender is not joined"
  else
  creators ← creators create rules;
  current_target_user_membership ← user_membership fetch target_user;
  power_levels ← room_power_levels_event fetch;
  sender_power_level ← user_power_level power_levels (sender ev) creators rules;
  ban_power_level ← int_or_default power_levels BanField rules;
  if bool_decide (current_target_user_membership = Ban)
     && level_lt sender_power_level (IntLevel ban_power_level) then
    err_msg "sender does not have enough power to unban"
  else
  kick_power_level ← int_or_default power_levels KickField rules;
  target_user_power_level ← user_power_level power_levels target_user creators rules;
  if level_le (IntLevel kick_power_level) sender_power_level
     && level_lt target_user_power_level sender_power_level
  then Ok ()
  else err_msg "sender does not have enough power to kick target user".

(** [check_room_member_ban] *)
Definition check_room_member_ban (ev : Pdu) (target_user : string) (rules : AuthorizationRules)
    (create : Pdu) (fetch : FetchState) : Res () :=
  sender_membership ← user_membership fetch (sender ev);
  if bool_decide (sender_membership ≠ Join) then err_msg "cannot ban if sender is not joined"
  else
  power_levels ← room_power_levels_event fetch;
  creators ← creators create rules;
  sender_power_level ← user_power_level power_levels (sender ev) creators rules;
  ban_power_level ← int_or_default power_levels BanField rules;
  target_user_power_level ← user_power_level power_levels target_user creators rules;
  if level_le (IntLevel ban_power_level) sender_power_level
     && level_lt target_user_power_level sender_power_level
  then Ok ()
  else err_msg "sender does not have enough power to ban target user".

(** [check_room_member_knock] *)
Definition check_room_member_knock (ev : Pdu) (target_user : string) (rules : AuthorizationRules)
    (fetch : FetchState) : Res () :=
  join_rule ← room_join_rule fetch;
  let supports_knock := bool_decide (join_rule = KnockRule)
    || (knock_restricted_join_rule rules && bool_decide (join_rule = KnockRestrictedRule)) in
  if negb supports_knock then
    err_msg "join rule is not set to knock or knock_restricted, knocking is not allowed"
  else if bool_decide (sender ev ≠ target_user) then
    err_msg "cannot make another user knock, sender does not match target user"
  else
  sender_membership ← user_membership fetch (sender ev);
  if negb (bool_decide (sender_membership = Ban) || bool_decide (sender_membership = Invite)
           || bool_decide (sender_membership = Join))
  then Ok ()
  else err_msg "cannot knock if user is banned, invited or joined".

(** [check_room_member] *)
Definition check_room_member (ev : Pdu) (rules : AuthorizationRules) (create : Pdu)
    (fetch : FetchState) : Res () :=
  match state_key ev with
  | None => err_msg "missing `state_key` field in `m.room.member` event"
  | Some target_user =>
      if negb (user_id_ok target_user) then
        err_msg "invalid `state_key` field in `m.room.member` event"
      else
      federate ← federate create;
      if negb federate && bool_decide (user_server_name target_user ≠ user_server_name (sender create))
      then err_msg "MSC4361: room is not federated and target user domain does not match `m.room.create` event's sender domain"
      else
      target_membership ← membership (content ev);
      match target_membership with
      | Join => check_room_member_join ev target_user rules create fetch
      | Invite => check_room_member_invite ev target_user rules create fetch
      | Leave => check_room_member_leave ev target_user rules create fetch
      | Ban => check_room_member_ban ev target_user rules create fetch
      | Knock => if knocking rules then check_room_member_knock ev target_user rules fetch
                 else err_msg "unknown membership"
      | CustomMembership _ => err_msg "unknown membership"
      end
  end.

End WithRuma.

(** ** Reading a check backwards *)

(** Follows a check that succeeded down its only successful branch. *)
Ltac follow H :=
  repeat match type of H with
  | (if ?b then _ else _) = Ok _ =>
      let Hb := fresh "Hb" in destruct b eqn:Hb; try discriminate H
  | mbind _ _ = Ok _ =>
      let r := fresh "r" in let Hr := fresh "Hr" in apply bind_Ok_inv in H as (r & Hr & H)
  | err_msg _ = Ok _ => discriminate H
  | err_request _ _ = Ok _ => discriminate H
  end.

Section Facts.
Context `{Ruma}.

Lemma level_lt_true a b : level_lt a b = true ↔ level_order a b = Lt.
Proof. unfold level_lt. rewrite level_cmp_documented. by destruct (level_order a b). Qed.
Lemma level_lt_false a b : level_lt a b = false ↔ level_order a b ≠ Lt.
Proof. unfold level_lt. rewrite level_cmp_documented. by destruct (level_order a b). Qed.
Lemma level_le_true a b : level_le a b = true ↔ level_order a b ≠ Gt.
Proof. unfold level_le. rewrite level_cmp_documented. by destruct (level_order a b). Qed.
Lemma level_le_false a b : level_le a b = false ↔ level_order a b = Gt.
Proof. unfold level_le. rewrite level_cmp_documented. by destruct (level_order a b). Qed.

Lemma level_order_refl a : level_order a a = Eq.
Proof. destruct a; simpl; [done|apply Z.compare_refl]. Qed.

(** What [check_room_member] has established before the membership rules. *)
(** The levels a moderation check compares. *)
Record moderation (ev : Pdu) (target : string) (rules : AuthorizationRules) (create : Pdu)
    (fetch : FetchState) (field : RoomPowerLevelsIntField) : Prop := {
  mod_joined : user_membership fetch (sender ev) = Ok Join;
  mod_levels : ∃ power_levels creators need sender_level target_level,
    room_power_levels_event fetch = Ok power_levels ∧
    RoomEvents.creators create rules = Ok creators ∧
    int_or_default power_levels field rules = Ok need ∧
    user_power_level power_levels (sender ev) creators rules = Ok sender_level ∧
    user_power_level power_levels target creators rules = Ok target_level ∧
    level_order (IntLevel need) sender_level ≠ Gt ∧
    level_order target_level sender_level = Lt
}.

Lemma moderation_not_self ev target rules create fetch field :
  moderation ev target rules create fetch field → sender ev ≠ target.
Proof.
  intros [_ (pl & cs & need & ls & lt & _ & _ & _ & Hs & Ht & _ & Hlt)] Heq.
  subst target.  rewrite Hs in Ht. simplify_eq. by rewrite level_order_refl in Hlt.
Qed.

Lemma check_ban_inv ev target rules create fetch :
  check_room_member_ban ev target rules create fetch = Ok () ↔
  moderation ev target rules create fetch BanField.
Proof.
  unfold check_room_member_ban. split.
  - intros Hc. follow Hc. apply bool_decide_eq_false, dec_stable in Hb as ->.
    apply andb_true_iff in Hb0 as [Hle%level_le_true Hlt%level_lt_true].
    split; [done|]. naive_solver.
  - intros [-> (pl & cs & need & ls & lt & -> & -> & Hn & Hs & Ht & Hle & Hlt)].
    rewrite bind_Ok, bool_decide_eq_false_2 by tauto. rewrite !bind_Ok, Hs, bind_Ok, Hn, bind_Ok, Ht, bind_Ok.
    apply level_le_true in Hle as ->. by apply level_lt_true in Hlt as ->.
Qed.

(** Leaving, being kicked, and being unbanned by someone else. *)
Definition leave_allowed (ev : Pdu) (target : string) (rules : AuthorizationRules) (create : Pdu)
    (fetch : FetchState) : Prop :=
  ∃ m, user_membership fetch (sender ev) = Ok m ∧
  if bool_decide (sender ev = target)
  then m = Join ∨ m = Invite ∨ knocking rules = true ∧ m = Knock
  else m = Join ∧ ∃ cs tm pl ls ban kick lt,
    creators create rules = Ok cs ∧ user_membership fetch target = Ok tm ∧
    room_power_levels_event fetch = Ok pl ∧
    user_power_level pl (sender ev) cs rules = Ok ls ∧
    int_or_default pl BanField rules = Ok ban ∧ int_or_default pl KickField rules = Ok kick ∧
    user_power_level pl target cs rules = Ok lt ∧
    (tm = Ban → level_order (IntLevel ban) ls ≠ Gt) ∧
    level_order (IntLevel kick) ls ≠ Gt ∧ level_order lt ls = Lt.

Lemma level_not_lt_ge a b : level_order a b ≠ Lt ↔ level_order b a ≠ Gt.
Proof. rewrite (level_order_opp a b). by destruct (level_order b a). Qed.

Lemma check_leave_iff ev target rules create fetch :
  check_room_member_leave ev target rules create fetch = Ok () ↔
  leave_allowed ev target rules create fetch.
Proof.
  unfold check_room_member_leave, leave_allowed.
  destruct (user_membership fetch (sender ev)) as [m| |]; [|simpl; naive_solver..]. rewrite bind_Ok.
  destruct (bool_decide (sender ev = target)).
  { destruct (knocking rules); repeat case_bool_decide; naive_solver. }
  destruct (decide (m = Join)) as [->|Hm].
  2:{ rewrite bool_decide_eq_true_2 by done. naive_solver. }
  rewrite bool_decide_eq_false_2 by tauto. split.
  - intros Hc. follow Hc. apply andb_true_iff in Hb0 as [?%level_le_true ?%level_lt_true].
    eexists. do 2 (split; [done|]). do 7 eexists. split_and!; try done.
    intros ->. simpl in Hb. by apply level_lt_false, level_not_lt_ge in Hb.
  - intros (_ & [= <-] & _ & cs & tm & pl & ls & ban & kick & lt & -> & Htm & -> & Hls & Hban & Hkick & Hlt & H1 & H2 & H3).
    rewrite bind_Ok, Htm, !bind_Ok, Hls, bind_Ok, Hban, bind_Ok.
    rewrite Hkick, Hlt. apply level_le_true in H2. apply level_lt_true in H3.
    assert (Hub : bool_decide (tm = Ban) && level_lt ls (IntLevel ban) = false).
    { case_bool_decide; [|done]. simpl. by apply level_lt_false, level_not_lt_ge, H1. }
    rewrite Hub, !bind_Ok. by rewrite H2, H3.
Qed.

Lemma check_kick_inv ev target rules create fetch :
  sender ev ≠ target →
  check_room_member_leave ev target rules create fetch = Ok () →
  moderation ev target rules create fetch KickField ∧
  (user_membership fetch target = Ok Ban → moderation ev target rules create fetch BanField).
Proof.
  intros Hne (m & Hm & Hrest)%check_leave_iff. rewrite bool_decide_eq_false_2 in Hrest by done.
  destruct Hrest as (-> & cs & tm & pl & ls & ban & kick & lt & H1 & H2 & H3 & H4 & H5 & H6 & H7 & H8 & H9 & H10).
  split; [by split; [done|]; do 5 eexists; split_and!|].
  intros Hban. rewrite Hban in H2. simplify_eq. split; [done|]. do 5 eexists. split_and!; try done. by apply H8.
Qed.

(** ** Joining *)

(** The join rule lets members of other rooms in, in this room version. *)
Definition restricted_on (rules : AuthorizationRules) (rule : JoinRule) : bool :=
  restricted_join_rule rules && bool_decide (rule = RestrictedRule)
  || knock_restricted_join_rule rules && bool_decide (rule = KnockRestrictedRule).

(** The user named as authorising a restricted join may invite. *)
Definition authorised_via (ev : Pdu) (rules : AuthorizationRules) (creators : list string)
    (fetch : FetchState) : Prop :=
  ∃ via power_levels level need,
    join_authorised_via_users_server (content ev) = Ok (Some via) ∧
    user_membership fetch via = Ok Join ∧
    room_power_levels_event fetch = Ok power_levels ∧
    user_power_level power_levels via creators rules = Ok level ∧
    int_or_default power_levels InviteField rules = Ok need ∧
    level_order level (IntLevel need) ≠ Lt.

(** The join rules of the specification. *)
Definition join_allowed (ev : Pdu) (target : string) (rules : AuthorizationRules) (create : Pdu)
    (fetch : FetchState) : Prop :=
  ∃ c cs, creator create rules = Ok c ∧ creators create rules = Ok cs ∧
  (prev_events ev = [event_id create] ∧ target = c ∨
   sender ev = target ∧ ∃ m rule,
     user_membership fetch target = Ok m ∧ m ≠ Ban ∧ room_join_rule fetch = Ok rule ∧
     (rule = PublicRule ∨
      (m = Invite ∨ m = Join) ∧
        (rule = InviteRule ∨ knocking rules = true ∧ rule = KnockRule ∨ restricted_on rules rule = true) ∨
      restricted_on rules rule = true ∧ authorised_via ev rules cs fetch)).

Lemma only_prev_create ev create :
  match prev_events ev with first :: _ => bool_decide (first = event_id create) | [] => false end
    && bool_decide (length (prev_events ev) = 1%nat) = true ↔ prev_events ev = [event_id create].
Proof.
  destruct (prev_events ev) as [|x [|y l]]; simpl; rewrite ?andb_true_iff, ?bool_decide_eq_true;
    [done| |]; naive_solver.
Qed.

Lemma authorised_via_check ev rules creators fetch :
  (via ← join_authorised_via_users_server (content ev);
   match via with
   | None => err_msg
       "cannot join restricted room without `join_authorised_via_users_server` field if not invited"
   | Some authorized_via_user =>
       via_membership ← user_membership fetch authorized_via_user;
       if bool_decide (via_membership ≠ Join) then
         err_msg "`join_authorised_via_users_server` is not joined"
       else
       power_levels ← room_power_levels_event fetch;
       via_power_level ← user_power_level power_levels authorized_via_user creators rules;
       invite_power_level ← int_or_default power_levels InviteField rules;
       if level_lt via_power_level (IntLevel invite_power_level) then
         err_msg "`join_authorised_via_users_server` does not have enough power"
       else Ok ()
   end) = Ok () ↔ authorised_via ev rules creators fetch.
Proof.
  split.
  - intros Hc. follow Hc. destruct r as [via|]; [|done]. follow Hc.
    apply bool_decide_eq_false, dec_stable in Hb as ->. apply level_lt_false in Hb0.
    do 4 eexists. split_and!; done.
  - intros (via & pl & lv & need & -> & Hm & -> & Hl & Hn & Hlt). rewrite bind_Ok, Hm, bind_Ok.
    rewrite bool_decide_eq_false_2 by tauto. rewrite bind_Ok, Hl, bind_Ok, Hn, bind_Ok.
    by apply level_lt_false in Hlt as ->.
Qed.

Lemma check_join_iff ev target rules create fetch :
  check_room_member_join ev target rules create fetch = Ok () ↔
  join_allowed ev target rules create fetch.
Proof.
  unfold check_room_member_join, join_allowed.
  destruct (creator create rules) as [c| |]; [|simpl; naive_solver..]. rewrite bind_Ok.
  destruct (creators create rules) as [cs| |]; [|simpl; naive_solver..]. rewrite bind_Ok. cbv zeta.
  pose proof (only_prev_create ev create) as Hprev.
  set (p := (match prev_events ev with [] => false | first :: _ => _ end) && _) in *.
  destruct (p && bool_decide (target = c)) eqn:Hinit.
  { apply andb_true_iff in Hinit as [?%Hprev ?%bool_decide_eq_true]. naive_solver. }
  assert (Hno : ¬ (prev_events ev = [event_id create] ∧ target = c)).
  { intros [Hpe%Hprev ->]. rewrite Hpe, bool_decide_eq_true_2 in Hinit; done. }
  clear Hprev Hinit p.
  destruct (decide (sender ev = target)) as [Hs|Hs].
  2:{ rewrite bool_decide_eq_true_2 by done. split; [done|naive_solver]. }
  rewrite bool_decide_eq_false_2 by tauto.
  destruct (user_membership fetch target) as [m| |]; [|simpl; naive_solver..]. rewrite bind_Ok.
  destruct (decide (m = Ban)) as [->|Hban].
  { rewrite bool_decide_eq_true_2 by done. split; [done|naive_solver]. }
  rewrite bool_decide_eq_false_2 by done.
  destruct (room_join_rule fetch) as [rule| |]; [|simpl; naive_solver..]. rewrite bind_Ok.
  transitivity (rule = PublicRule ∨
      (m = Invite ∨ m = Join) ∧
        (rule = InviteRule ∨ knocking rules = true ∧ rule = KnockRule ∨ restricted_on rules rule = true) ∨
      restricted_on rules rule = true ∧ authorised_via ev rules cs fetch); [|naive_solver].
  clear Hno Hs Hban. rewrite <- authorised_via_check. fold (restricted_on rules rule).
  set (V := join_authorised_via_users_server (content ev) ≫= _).
  assert (HR : restricted_on rules rule = true → rule ≠ PublicRule).
  { unfold restricted_on. rewrite orb_true_iff, !andb_true_iff, !bool_decide_eq_true. naive_solver. }
  destruct (restricted_on rules rule), (knocking rules);
    repeat case_bool_decide; simplify_eq/=; naive_solver.
Qed.

(** ** Inviting and knocking *)

Definition third_party_allowed (ev : Pdu) (tpi : ThirdPartyInvite) (target : string)
    (fetch : FetchState) : Prop :=
  ∃ m tok room_tpi sigs keys json,
    user_membership fetch target = Ok m ∧ m ≠ Ban ∧
    token tpi = Ok tok ∧ mxid tpi = Ok target ∧
    room_third_party_invite_event fetch tok = Ok (Some room_tpi) ∧ sender ev = sender room_tpi ∧
    signatures tpi = Ok sigs ∧ public_keys room_tpi = Ok keys ∧ signed_canonical_json tpi = Ok json ∧
    ∃ before entity entity_signatures after key_id signature,
      btree_iter sigs = before ++ (entity, CObject entity_signatures) :: after ∧
      Forall (λ e, is_Some (c_as_object e.2)) before ∧
      entity_signatures !! key_id = Some signature ∧
      signature_verifies keys json (key_id, signature) = true.

Definition invite_allowed (ev : Pdu) (target : string) (rules : AuthorizationRules) (create : Pdu)
    (fetch : FetchState) : Prop :=
  ∃ tpi, third_party_invite (content ev) = Ok tpi ∧
  match tpi with
  | Some tpi => third_party_allowed ev tpi target fetch
  | None =>
      user_membership fetch (sender ev) = Ok Join ∧ ∃ tm cs pl ls need,
        user_membership fetch target = Ok tm ∧ tm ≠ Join ∧ tm ≠ Ban ∧
        creators create rules = Ok cs ∧ room_power_levels_event fetch = Ok pl ∧
        user_power_level pl (sender ev) cs rules = Ok ls ∧
        int_or_default pl InviteField rules = Ok need ∧ level_order (IntLevel need) ls ≠ Gt
  end.

Definition knock_allowed (ev : Pdu) (target : string) (rules : AuthorizationRules)
    (fetch : FetchState) : Prop :=
  sender ev = target ∧ ∃ rule m,
    room_join_rule fetch = Ok rule ∧
    (rule = KnockRule ∨ knock_restricted_join_rule rules = true ∧ rule = KnockRestrictedRule) ∧
    user_membership fetch (sender ev) = Ok m ∧ m ≠ Ban ∧ m ≠ Invite ∧ m ≠ Join.

Lemma check_signatures_iff keys json l :
  check_signatures keys json l = Ok () ↔
  ∃ before entity entity_signatures after key_id signature,
    l = before ++ (entity, CObject entity_signatures) :: after ∧
    Forall (λ e, is_Some (c_as_object e.2)) before ∧
    entity_signatures !! key_id = Some signature ∧
    signature_verifies keys json (key_id, signature) = true.
Proof.
  induction l as [|[name v] l IH]; simpl.
  { split; [done|]. intros (before & ? & ? & ? & ? & ? & Hl & _). by destruct before. }
  destruct (c_as_object v) as [o|] eqn:Hv.
  2:{ split; [done|]. intros (before & ? & ? & ? & ? & ? & Hl & Hf & _).
      destruct before as [|b before]; simplify_eq/=.
      apply Forall_cons in Hf as [[? Hf] _]. simpl in Hf. by rewrite Hv in Hf. }
  destruct (existsb _ _) eqn:He.
  - apply List.existsb_exists in He as ([kid s] & Hin%list_elem_of_In%elem_of_btree_iter & Hver).
    split; [|done]. intros _. destruct v; simplify_eq/=.
    by eexists [], name, o, l, kid, s.
  - rewrite IH. split.
    + intros (b & en & es & a & kid & s & -> & Hf & Hk & Hver).
      exists ((name, v) :: b), en, es, a, kid, s. split_and!; try done. by constructor.
    + intros (b & en & es & a & kid & s & Hl & Hf & Hk & Hver). destruct b as [|b0 b]; simplify_eq/=.
      * exfalso. apply not_true_iff_false in He. apply He, List.existsb_exists.
        exists (kid, s). split; [by apply list_elem_of_In, elem_of_btree_iter|done].
      * apply Forall_cons in Hf as [_ Hf]. by exists b, en, es, a, kid, s.
Qed.

Lemma check_third_party_iff ev tpi target fetch :
  check_third_party_invite ev tpi target fetch = Ok () ↔ third_party_allowed ev tpi target fetch.
Proof.
  unfold check_third_party_invite, third_party_allowed. split.
  - intros Hc. follow Hc. destruct r2 as [room_tpi|]; [|done]. follow Hc.
    apply bool_decide_eq_false in Hb. apply bool_decide_eq_false, dec_stable in Hb0, Hb1. subst.
    apply check_signatures_iff in Hc. do 6 eexists. split_and!; done.
  - intros (m & tok & rt & sigs & keys & json & -> & Hban & -> & -> & Hrt & Hs & -> & Hk & -> & Hver).
    rewrite bind_Ok, bool_decide_eq_false_2, !bind_Ok by done.
    rewrite (bool_decide_eq_false_2 (target ≠ target)) by tauto. rewrite Hrt, bind_Ok.
    rewrite bool_decide_eq_false_2 by tauto. rewrite bind_Ok, Hk, !bind_Ok. by apply check_signatures_iff.
Qed.

Lemma check_invite_iff ev target rules create fetch :
  check_room_member_invite ev target rules create fetch = Ok () ↔
  invite_allowed ev target rules create fetch.
Proof.
  unfold check_room_member_invite, invite_allowed.
  destruct (third_party_invite (content ev)) as [tpi| |]; [|simpl; naive_solver..]. rewrite bind_Ok.
  destruct tpi as [tpi|]; [rewrite check_third_party_iff; naive_solver|]. split.
  - intros Hc. follow Hc. apply bool_decide_eq_false, dec_stable in Hb as ->.
    apply orb_false_iff in Hb0 as [?%bool_decide_eq_false ?%bool_decide_eq_false].
    apply level_lt_false, level_not_lt_ge in Hb1.
    eexists. split; [done|]. simpl. split; [done|]. do 5 eexists. split_and!; done.
  - intros (_ & [= <-] & -> & tm & cs & pl & ls & need & Htm & Hj & Hban & -> & -> & Hls & Hneed & Hle).
    rewrite bind_Ok, (bool_decide_eq_false_2 (Join ≠ Join)), Htm, bind_Ok by tauto.
    rewrite !bool_decide_eq_false_2 by done. simpl orb. cbv iota.
    rewrite !bind_Ok, Hls, bind_Ok, Hneed, bind_Ok.
    by apply level_not_lt_ge, level_lt_false in Hle as ->.
Qed.

Lemma check_knock_iff ev target rules fetch :
  check_room_member_knock ev target rules fetch = Ok () ↔ knock_allowed ev target rules fetch.
Proof.
  unfold check_room_member_knock, knock_allowed.
  destruct (room_join_rule fetch) as [rule| |]; [|simpl; naive_solver..]. rewrite bind_Ok. cbv zeta.
  assert (Hk : (bool_decide (rule = KnockRule)
      || knock_restricted_join_rule rules && bool_decide (rule = KnockRestrictedRule)) = true ↔
    (rule = KnockRule ∨ knock_restricted_join_rule rules = true ∧ rule = KnockRestrictedRule)).
  { by rewrite orb_true_iff, andb_true_iff, !bool_decide_eq_true. }
  destruct (_ || _) eqn:Hsup; simpl negb; cbv iota.
  2:{ split; [done|]. intros (_ & rule' & m & [= <-] & Hr%Hk & _). done. }
  destruct (decide (sender ev = target)) as [Hs|Hs].
  2:{ rewrite bool_decide_eq_true_2 by done. split; [done|]. naive_solver. }
  rewrite bool_decide_eq_false_2 by tauto.
  destruct (user_membership fetch (sender ev)) as [m| |]; [|simpl; naive_solver..]. rewrite bind_Ok.
  transitivity (m ≠ Ban ∧ m ≠ Invite ∧ m ≠ Join); [|naive_solver].
  repeat case_bool_decide; simpl; subst; naive_solver.
Qed.

(** The membership rules of the specification, with the two checks that come
    before them. *)
Definition member_allowed (ev : Pdu) (rules : AuthorizationRules) (create : Pdu)
    (fetch : FetchState) : Prop :=
  ∃ target fed m, state_key ev = Some target ∧ user_id_ok target = true ∧
    federate create = Ok fed ∧
    (fed = false → user_server_name target = user_server_name (sender create)) ∧
    membership (content ev) = Ok m ∧
    match m with
    | Join => join_allowed ev target rules create fetch
    | Invite => invite_allowed ev target rules create fetch
    | Leave => leave_allowed ev target rules create fetch
    | Ban => moderation ev target rules create fetch BanField
    | Knock => knocking rules = true ∧ knock_allowed ev target rules fetch
    | CustomMembership _ => False
    end.

Lemma check_room_member_iff ev rules create fetch :
  check_room_member ev rules create fetch = Ok () ↔ member_allowed ev rules create fetch.
Proof.
  unfold check_room_member, member_allowed.
  destruct (state_key ev) as [target|].
  2:{ split; [done|]. by intros (t & f & m & Ht & _). }
  destruct (user_id_ok target) eqn:Hu; simpl negb; cbv iota.
  2:{ split; [done|]. intros (t & f & m & [= <-] & Hu' & _). congruence. }
  destruct (federate create) as [fed|e|]; [|by split; [done|intros (t & f & m & _ & _ & Hf & _)]..].
  rewrite bind_Ok. destruct (negb fed && bool_decide _) eqn:Hfed.
  { apply andb_true_iff in Hfed as [Hf%negb_true_iff Hne%bool_decide_eq_true].
    split; [done|]. intros (t & f & m & [= <-] & _ & [= <-] & Heq & _). by destruct Hne; apply Heq. }
  assert (Hok : fed = false → user_server_name target = user_server_name (sender create)).
  { intros ->. simpl in Hfed. by apply bool_decide_eq_false, dec_stable in Hfed. }
  clear Hfed. destruct (membership (content ev)) as [m|e|];
    [|by split; [done|intros (t & f & m & _ & _ & _ & _ & Hm & _)]..].
  rewrite bind_Ok. split.
  - intros Hc. exists target, fed, m. split_and!; try done.
    destruct m; try done;
      try by first [apply check_join_iff|apply check_invite_iff|apply check_leave_iff|apply check_ban_inv].
    destruct (knocking rules); [|done]. split; [done|]. by apply check_knock_iff.
  - intros (t & f & m' & [= <-] & _ & [= <-] & _ & [= <-] & Hc).
    destruct m; try done;
      try by first [apply check_join_iff|apply check_invite_iff|apply check_leave_iff|apply check_ban_inv].
    destruct Hc as [-> Hc]. by apply check_knock_iff.
Qed.

End Facts.

(** C8: the membership check accepts exactly the events the membership rules
    allow: for every event, room version and state snapshot, it returns success
    if and only if the declarative rules for the event's membership (join by
    creator, join rule or authorising user; invite by power or by a verified
    third-party signature; leave, kick, unban and ban by power; knock) hold. *)
Theorem room_member_rules_exact `{Ruma} (ev : Pdu) (rules : AuthorizationRules) (create : Pdu)
    (fetch : FetchState) :
  check_room_member ev rules create fetch = Ok () ↔ member_allowed ev rules create fetch.
Proof. apply check_room_member_iff. Qed.

(** A ban holds until somebody with the power to ban lifts it: while the
    state says a user is banned, the membership events about that user the
    check accepts are further bans, an unban by another joined user who has
    both the ban and the kick level and is strictly above the banned user, and
    the join of a room's creator whose only predecessor is the create event. *)
Theorem banned_user_contained `{Ruma} (ev : Pdu) (rules : AuthorizationRules) (create : Pdu)
    (fetch : FetchState) (target : string)
    (Htarget : state_key ev = Some target)
    (Hbanned : user_membership fetch target = Ok Ban)
    (Hcheck : check_room_member ev rules create fetch = Ok ()) :
  (membership (content ev) = Ok Ban ∧ moderation ev target rules create fetch BanField) ∨
  (membership (content ev) = Ok Leave ∧ sender ev ≠ target ∧
     moderation ev target rules create fetch BanField ∧
     moderation ev target rules create fetch KickField) ∨
  (membership (content ev) = Ok Join ∧ prev_events ev = [event_id create] ∧
     creator create rules = Ok target).
Proof.
  apply check_room_member_iff in Hcheck
    as (t & fed & m & Ht & _ & _ & _ & Hm & Hrules). rewrite Htarget in Ht. simplify_eq.
  destruct m; try done.
  - left. done.
  - destruct Hrules as (tpi & _ & Hrules). destruct tpi.
    + destruct Hrules as (m & _ & _ & _ & _ & _ & Hmm & Hban & _). by rewrite Hbanned in Hmm; simplify_eq.
    + destruct Hrules as (_ & tm & _ & _ & _ & _ & Htm & _ & Hban & _). by rewrite Hbanned in Htm; simplify_eq.
  - destruct Hrules as (c & cs & Hc & _ & [[Hp ->]|(_ & m & rule & Hmm & Hban & _)]).
    + by right; right.
    + by rewrite Hbanned in Hmm; simplify_eq.
  - destruct Hrules as (_ & Hs & _ & m & _ & _ & Hmm & Hban & _).
    rewrite Hs, Hbanned in Hmm. by simplify_eq.
  - right; left. assert (Hne : sender ev ≠ t).
    { intros Hs. destruct Hrules as (m & Hmm & Hrules). rewrite Hs, Hbanned in Hmm. simplify_eq.
      rewrite bool_decide_eq_true_2 in Hrules by done. naive_solver. }
    apply check_leave_iff in Hrules. destruct (check_kick_inv _ _ _ _ _ Hne Hrules) as [Hk Hb].
    split_and!; try done. by apply Hb.
Qed.

Lemma banned_user_contained_witness :
  let ev := member_event "$u" alice carol "leave" ["$c"%string] in
  moderation ev carol rules_v10 create_event (fetch_from sample_state) BanField.
Proof.
  pose proof (banned_user_contained (member_event "$u" alice carol "leave" ["$c"%string]) rules_v10
    create_event (fetch_from sample_state) carol) as Hw.
  destruct Hw as [[Hm _]|[(_ & _ & Hmod & _)|[Hm _]]];
    [vm_compute; reflexivity|vm_compute; reflexivity|vm_compute; reflexivity| | |].
  - by vm_compute in Hm.
  - exact Hmod.
  - by vm_compute in Hm.
Defined.

(** Nobody moderates above themselves: an accepted ban, kick or unban comes
    from a joined user other than its target whose level reaches the required
    one and is strictly above the target's, so no user can ban or kick a user of
    equal or higher level. *)
Theorem moderation_needs_power `{Ruma} (ev : Pdu) (rules : AuthorizationRules) (create : Pdu)
    (fetch : FetchState) (target : string) (m : MembershipState)
    (Htarget : state_key ev = Some target)
    (Hcheck : check_room_member ev rules create fetch = Ok ())
    (Hm : membership (content ev) = Ok m)
    (Hkind : m = Ban ∨ m = Leave ∧ sender ev ≠ target) :
  sender ev ≠ target ∧
  moderation ev target rules create fetch (if bool_decide (m = Ban) then BanField else KickField).
Proof.
  apply check_room_member_iff in Hcheck
    as (t & fed & m' & Ht & _ & _ & _ & Hm' & Hrules). rewrite Htarget in Ht.
  rewrite Hm in Hm'. simplify_eq.
  destruct Hkind as [->|[-> Hne]].
  - rewrite bool_decide_eq_true_2 by done. split; [|done]. by eapply moderation_not_self.
  - rewrite bool_decide_eq_false_2 by done. split; [done|].
    apply check_leave_iff in Hrules. by apply (check_kick_inv _ _ _ _ _ Hne Hrules).
Qed.

Lemma moderation_needs_power_witness :
  let ev := member_event "$k" alice bob "leave" ["$c"%string] in
  moderation ev bob rules_v10 create_event (fetch_from sample_state) KickField.
Proof.
  refine (proj2 (moderation_needs_power (member_event "$k" alice bob "leave" ["$c"%string]) rules_v10
    create_event (fetch_from sample_state) bob Leave _ _ _ _)); [vm_compute; reflexivity..|].
  right. split; [reflexivity|by apply (bool_decide_unpack _); vm_compute].
Defined.
