(* ===== verification/EventAuth.v ===== *)
(** * EventAuth: event authorisation
      (src/service/rooms/state_res/event_auth.rs)

    [fetch_event] and [fetch_state] are functions of their arguments: a check
    reads one snapshot.  [try_join] runs the two halves of [auth_check]
    concurrently and returns the error that arrives first; which one that is
    when both fail is the argument [independent_first]. *)

From Stdlib Require Import Ascii.
From S2P Require Import Prelude Json CoreError RoomEvents SampleRoom AuthTypes RoomMember.

(** [enum AuthCheckOutcome] *)
Inductive AuthCheckOutcome := Allow | Deny (error : Error).

(** [AuthCheckOutcome::into_result] *)
Definition into_result (self : AuthCheckOutcome) : Res () :=
  match self with
  | Allow => Ok ()
  | Deny (Request InvalidParam msg status) => Err (Request InvalidParam msg status)
  | Deny error => Err (AuthCheck error)
  end.

(** [classify_auth_error] *)
Definition classify_auth_error (error : Error) : Res AuthCheckOutcome :=
  match error with
  | ErrMsg _ | Request InvalidParam _ _ => Ok (Deny error)
  | error => Err error
  end.

Section WithRuma.
Context `{Ruma}.

Definition FetchEvent : Type := string → Res Pdu.

(** ** State-independent rules *)

(** [check_room_create] *)
Definition check_room_create (create : Pdu) (rules : AuthorizationRules) : Res () :=
  match prev_events create, auth_events create with
  | _ :: _, _ => err_msg "`m.room.create` event cannot have previous events"
  | [], _ :: _ => err_msg "`m.room.create` event cannot have `auth_events`"
  | [], [] =>
      _ ← (if room_create_event_id_as_room_id rules then
             match room_as_event_id (room_id create) with
             | None => err_request InvalidParam
                 "Failed to create `event_id` out of `m.room.create` synthetic `room_id`"
             | Some room_create_event_id =>
                 if bool_decide (room_create_event_id ≠ event_id create) then
                   err_request InvalidParam
                     "`m.room.create` has mismatching synthetic `room_id` and `event_id`"
                 else Ok ()
             end
           else
             match room_server_name (room_id create) with
             | None => err_msg "Invalid `ServerName` for `room_id` in `m.room.create` event"
             | Some room_id_server_name =>
                 if bool_decide (room_id_server_name ≠ user_server_name (sender create)) then
                   err_msg "Mismatched `ServerName` for `room_id` in `m.room.create` with `sender`"
                 else Ok ()
             end);
      if negb (use_room_create_sender rules) then
        has_creator ← has_creator create;
        if negb has_creator then err_msg "missing `creator` field in `m.room.create` event"
        else Ok ()
      else Ok ()
  end.

(** The fold over the auth events, one entry at a time. *)
Fixpoint check_auth_events (incoming : Pdu) (fetch_event : FetchEvent)
    (expected seen : list TypeStateKey) (ids : list string) : Res (list TypeStateKey) :=
  match ids with
  | [] => Ok seen
  | id :: rest =>
      auth_event ← match fetch_event id with
                   | Err e => if is_not_found e then err_request NotFound "auth event" else Err e
                   | r => r
                   end;
      if bool_decide (room_id auth_event ≠ room_id incoming) then
        err_msg "auth event not in the same room"
      else
      state_key ← ok_or (state_key auth_event) (ErrMsg "auth event has no `state_key`");
      let key := (event_type auth_event, state_key) in
      if bool_decide (key ∈ seen) then err_msg "duplicate auth event for pair"
      else if bool_decide (key ∉ expected) then err_msg "unexpected auth event with pair"
      else if rejected auth_event then err_msg "rejected auth event"
      else check_auth_events incoming fetch_event expected (seen ++ [key]) rest
  end.

(** [check_state_independent_auth_rules] *)
Definition check_state_independent_auth_rules (rules : AuthorizationRules) (incoming : Pdu)
    (fetch_event : FetchEvent) : Res () :=
  if bool_decide (event_type incoming = ROOM_CREATE) then check_room_create incoming rules
  else
  expected ← auth_types_for_event (event_type incoming) (sender incoming) (state_key incoming)
               (content incoming) rules false;
  seen ← check_auth_events incoming fetch_event expected [] (auth_events incoming);
  if negb (room_create_event_id_as_room_id rules)
     && negb (existsb (λ k, bool_decide (fst k = ROOM_CREATE)) seen)
  then err_msg "no `m.room.create` event in auth events"
  else if room_create_event_id_as_room_id rules then
    room_create_event_id ← ok_or (room_as_event_id (room_id incoming))
      (Request InvalidParam "could not construct `m.room.create` event ID from room ID" 400);
    match fetch_event room_create_event_id with
    | Ok room_create_event =>
        if rejected room_create_event then err_msg "rejected `m.room.create` event" else Ok ()
    | Err _ => err_request NotFound "failed to find `m.room.create` event"
    | Panic => Panic
    end
  else Ok ().

(** ** Power levels *)

(** [check_power_level_maps] *)
Fixpoint check_power_level_keys (current new : option (list (string * Z)))
    (sender_power_level : UserPowerLevel) (reject_current : string → Z → bool) (msg : string)
    (keys : list string) : Res () :=
  match keys with
  | [] => Ok ()
  | key :: rest =>
      let current_power_level := m ← current; get_value m key in
      let new_power_level := m ← new; get_value m key in
      if bool_decide (current_power_level = new_power_level)
      then check_power_level_keys current new sender_power_level reject_current msg rest
      else
      let current_power_level_change_rejected :=
        match current_power_level with Some l => reject_current key l | None => false end in
      let new_power_level_too_big :=
        match new_power_level with
        | Some l => level_lt sender_power_level (IntLevel l)
        | None => false
        end in
      if current_power_level_change_rejected || new_power_level_too_big then err_msg msg
      else check_power_level_keys current new sender_power_level reject_current msg rest
  end.

Definition map_keys (m : option (list (string * Z))) : list string :=
  match m with Some m => fst <$> m | None => [] end.

Definition check_power_level_maps (current new : option (list (string * Z)))
    (sender_power_level : UserPowerLevel) (reject_current : string → Z → bool) (msg : string)
  : Res () :=
  check_power_level_keys current new sender_power_level reject_current msg
    (map_keys current ++ map_keys new).

(** The loop over the integer fields. *)
Fixpoint check_int_fields (current : Pdu) (new_int_fields : list (RoomPowerLevelsIntField * Z))
    (rules : AuthorizationRules) (sender_power_level : UserPowerLevel)
    (fields : list RoomPowerLevelsIntField) : Res () :=
  match fields with
  | [] => Ok ()
  | field :: rest =>
      current_power_level ← get_as_int current field rules;
      let new_power_level := get_value new_int_fields field in
      if bool_decide (current_power_level = new_power_level)
      then check_int_fields current new_int_fields rules sender_power_level rest
      else
      let current_power_level_too_big := level_lt sender_power_level
        (IntLevel (default (default_value field) current_power_level)) in
      let new_power_level_too_big := level_lt sender_power_level
        (IntLevel (default (default_value field) new_power_level)) in
      if current_power_level_too_big || new_power_level_too_big then
        err_msg "sender does not have enough power to change the power level"
      else check_int_fields current new_int_fields rules sender_power_level rest
  end.

(** [check_room_power_levels] *)
Definition check_room_power_levels (ev : Pdu) (current : option Pdu) (rules : AuthorizationRules)
    (sender_power_level : UserPowerLevel) (room_creators : list string) : Res () :=
  new_int_fields ← int_fields_map ev rules;
  new_events ← events ev rules;
  new_notifications ← notifications ev rules;
  new_users ← users ev rules;
  if explicitly_privilege_room_creators rules &&
     match new_users with
     | Some new_users => existsb (λ creator, contains_key new_users creator) room_creators
     | None => false
     end
  then err_request InvalidParam "creator user IDs are not allowed in the `users` field"
  else
  match current with
  | None => Ok ()
  | Some current =>
      _ ← check_int_fields current new_int_fields rules sender_power_level ALL_FIELDS;
      current_events ← events current rules;
      _ ← check_power_level_maps current_events new_events sender_power_level
            (λ _ l, level_lt sender_power_level (IntLevel l))
            "sender does not have enough power to change the event type power level";
      _ ← (if limit_notifications_power_levels rules then
             current_notifications ← notifications current rules;
             check_power_level_maps current_notifications new_notifications sender_power_level
               (λ _ l, level_lt sender_power_level (IntLevel l))
               "sender does not have enough power to change the notification power level"
           else Ok ());
      current_users ← users current rules;
      check_power_level_maps current_users new_users sender_power_level
        (λ user_id l, bool_decide (user_id ≠ sender ev) && level_le sender_power_level (IntLevel l))
        "sender does not have enough power to change the user's power level"
  end.

(** [check_room_redaction] *)
Definition check_room_redaction (ev : Pdu) (current : option Pdu) (rules : AuthorizationRules)
    (sender_level : UserPowerLevel) : Res () :=
  redact_level ← int_or_default current RedactField rules;
  if level_le (IntLevel redact_level) sender_level then Ok ()
  else if bool_decide (event_server_name (event_id ev) =
                       (id ← redacts ev; event_server_name id))
  then Ok ()
  else err_msg "`m.room.redaction` event did not pass any of the allow rules".

(** ** State-dependent rules *)

(** [str::starts_with('@')] *)
Definition starts_with_at (k : string) : bool :=
  match k with String "@"%char _ => true | _ => false end.

(** [check_state_dependent_auth_rules] *)
Definition check_state_dependent_auth_rules (rules : AuthorizationRules) (incoming : Pdu)
    (fetch : FetchState) : Res () :=
  if bool_decide (event_type incoming = ROOM_CREATE) then Ok ()
  else
  let sender_membership := user_membership fetch (sender incoming) in
  let current_room_power_levels_event := room_power_levels_event fetch in
  create ← room_create_event fetch;
  federate ← federate create;
  if negb federate
     && bool_decide (user_server_name (sender create) ≠ user_server_name (sender incoming))
  then err_msg "room is not federated and event's sender domain does not match `m.room.create` event's sender domain"
  else if special_case_room_aliases rules && bool_decide (event_type incoming = ROOM_ALIASES) then
    if bool_decide (state_key incoming ≠ Some (user_server_name (sender incoming))) then
      err_msg "server name of the `state_key` of `m.room.aliases` event does not match the server name of the sender"
    else Ok ()
  else if bool_decide (event_type incoming = ROOM_MEMBER) then
    check_room_member incoming rules create fetch
  else
  sender_membership ← sender_membership;
  if bool_decide (sender_membership ≠ Join) then err_msg "sender's membership is not `join`"
  else
  power_levels ← current_room_power_levels_event;
  creators ← creators create rules;
  sender_power_level ← user_power_level power_levels (sender incoming) creators rules;
  if bool_decide (event_type incoming = ROOM_THIRD_PARTY_INVITE) then
    invite_power_level ← int_or_default power_levels InviteField rules;
    if level_lt sender_power_level (IntLevel invite_power_level) then
      err_msg "sender does not have enough power to send invites in this room"
    else Ok ()
  else
  event_type_power_level ←
    event_power_level power_levels (event_type incoming) (state_key incoming) rules;
  if level_lt sender_power_level (IntLevel event_type_power_level) then
    err_msg "sender does not have enough power for event type"
  else if match state_key incoming with Some k => starts_with_at k | None => false end
          && bool_decide (state_key incoming ≠ Some (sender incoming))
  then err_msg "sender cannot send event with `state_key` matching another user's ID"
  else if bool_decide (event_type incoming = ROOM_POWER_LEVELS) then
    check_room_power_levels incoming power_levels rules sender_power_level creators
  else if special_case_room_redaction rules && bool_decide (event_type incoming = ROOM_REDACTION)
  then check_room_redaction incoming power_levels rules sender_power_level
  else Ok ().

(** ** The whole check *)

(** [try_join(independent, dependent)] *)
Definition try_join (independent_first : bool) (a b : Res ()) : Res () :=
  match a, b with
  | Ok _, Ok _ => Ok ()
  | Ok _, r => r
  | r, Ok _ => r
  | ra, rb => if independent_first then ra else rb
  end.

(** [auth_check] and [auth_check_outcome] *)
Definition auth_check (independent_first : bool) (rules : AuthorizationRules) (incoming : Pdu)
    (fetch_event : FetchEvent) (fetch_state : FetchState) : Res AuthCheckOutcome :=
  match try_join independent_first
          (check_state_independent_auth_rules rules incoming fetch_event)
          (check_state_dependent_auth_rules rules incoming fetch_state) with
  | Ok _ => Ok Allow
  | Err error => classify_auth_error error
  | Panic => Panic
  end.

End WithRuma.

(** ** Changing power levels *)

Section PowerLevels.
Context `{Ruma}.

Lemma get_value_cons {K V} `{EqDecision K} (k : K) (v : V) m key :
  get_value ((k, v) :: m) key = if bool_decide (k = key) then Some v else get_value m key.
Proof.
  unfold get_value, position. cbn [list_find]. cbn [fst].
  destruct (decide (k = key)) as [->|Hne].
  - by rewrite bool_decide_eq_true_2.
  - rewrite bool_decide_eq_false_2 by done.
    destruct (list_find _ m) as [[i kv]|]; done.
Qed.

Lemma get_value_key {V} (m : list (string * V)) key v :
  get_value m key = Some v → key ∈ fst <$> m.
Proof.
  induction m as [|[k w] m IH]; [done|]. rewrite get_value_cons. simpl.
  case_bool_decide; rewrite elem_of_cons; [by left|]. intros ?. right. by apply IH.
Qed.

(** A level is not above the sender's. *)
Definition within (sender_level : UserPowerLevel) (l : Z) : Prop :=
  level_order (IntLevel l) sender_level ≠ Gt.

(** How one entry of a power level map may change. *)
Definition entry_change_ok (sender_level : UserPowerLevel) (reject : string → Z → bool)
    (key : string) (current new : option Z) : Prop :=
  current = new ∨
  (∀ l, current = Some l → reject key l = false) ∧ (∀ l, new = Some l → within sender_level l).

Lemma check_keys_iff current new sl reject msg keys :
  check_power_level_keys current new sl reject msg keys = Ok () ↔
  ∀ key, key ∈ keys →
    entry_change_ok sl reject key (m ← current; get_value m key) (m ← new; get_value m key).
Proof.
  induction keys as [|k keys IH]; cbn [check_power_level_keys].
  { split; [|done]. intros _ key. by rewrite elem_of_nil. }
  set (cur := current ≫= _). set (nw := new ≫= _).
  match goal with |- context [if bool_decide _ then _ else if ?b then _ else _] => set (bad := b) end.
  assert (Hstep : entry_change_ok sl reject k cur nw ↔ cur = nw ∨ bad = false).
  { unfold entry_change_ok, within, bad. rewrite orb_false_iff.
    destruct cur as [c|], nw as [n|]; rewrite ?level_lt_false, ?level_not_lt_ge; naive_solver. }
  setoid_rewrite elem_of_cons. clearbody bad. split.
  - intros Hc key. destruct (decide (cur = nw)) as [Heq|Heq].
    + rewrite bool_decide_eq_true_2 in Hc by done. intros [->|Hin]; [by left|by apply IH].
    + rewrite bool_decide_eq_false_2 in Hc by done. destruct bad; [done|].
      intros [->|Hin]; [apply Hstep; by right|by apply IH].
  - intros Hall. pose proof (proj1 Hstep (Hall k (or_introl eq_refl))) as Hk.
    assert (Hrest : check_power_level_keys current new sl reject msg keys = Ok ())
      by (apply IH; intros key Hin; apply Hall; by right).
    case_bool_decide; [done|]. destruct Hk as [ | -> ]; done.
Qed.

(** The keys looked at cover every entry of either map. *)
Lemma check_maps_iff current new sl reject msg :
  check_power_level_maps current new sl reject msg = Ok () ↔
  ∀ key, entry_change_ok sl reject key (m ← current; get_value m key) (m ← new; get_value m key).
Proof.
  unfold check_power_level_maps. rewrite check_keys_iff. split; [|naive_solver].
  intros Hall key. destruct (decide (key ∈ map_keys current ++ map_keys new)) as [Hin|Hout]; [by apply Hall|].
  left. rewrite elem_of_app in Hout.
  destruct current as [c|], new as [n|]; simpl in *; try done;
    repeat match goal with |- context [get_value ?m key] =>
      let E := fresh in destruct (get_value m key) eqn:E; [apply get_value_key in E; tauto|] end; done.
Qed.

(** How an integer field may change: both values within the sender's level. *)
Definition field_change_ok (sl : UserPowerLevel) (field : RoomPowerLevelsIntField)
    (current new : option Z) : Prop :=
  current = new ∨
  within sl (default (default_value field) current) ∧ within sl (default (default_value field) new).

Lemma int_fields_from_get ev fields rules l field :
  NoDup fields → int_fields_from ev fields rules = Ok l → field ∈ fields →
  get_as_int ev field rules = Ok (get_value l field).
Proof.
  intros Hnd. revert l. induction Hnd as [|f fields Hf Hnd IH]; intros l Hl Hin;
    [by apply elem_of_nil in Hin|].
  cbn [int_fields_from] in Hl. apply bind_Ok_inv in Hl as (v & Hv & Hl).
  apply bind_Ok_inv in Hl as (tail & Ht & Hl). injection Hl as <-.
  assert (Hsub : ∀ g, g ∈ fst <$> tail → g ∈ fields).
  { clear -Ht. revert tail Ht. induction fields as [|f fields IH]; intros tail Ht g; cbn [int_fields_from] in Ht.
    - by injection Ht as <-.
    - apply bind_Ok_inv in Ht as (v & Hv & Ht). apply bind_Ok_inv in Ht as (tl & Htl & Ht).
      injection Ht as <-. rewrite elem_of_cons. destruct v; simpl; rewrite ?elem_of_cons; naive_solver. }
  apply elem_of_cons in Hin as [->|Hin].
  - rewrite Hv. destruct v as [v|]; [by rewrite get_value_cons, bool_decide_eq_true_2|].
    destruct (get_value tail f) as [z|] eqn:Hg; [|done]. exfalso. apply Hf, Hsub.
    clear -Hg. induction tail as [|[k w] m IH]; [done|]. rewrite get_value_cons in Hg. simpl.
    case_bool_decide; rewrite elem_of_cons; [by left|]. right. by apply IH.
  - rewrite (IH tail Ht Hin). destruct v as [v|]; [|done].
    rewrite get_value_cons, bool_decide_eq_false_2; [done|]. intros ->. done.
Qed.

Lemma check_int_fields_iff current nf rules sl fields :
  check_int_fields current nf rules sl fields = Ok () ↔
  ∀ field, field ∈ fields → ∃ c, get_as_int current field rules = Ok c ∧
    field_change_ok sl field c (get_value nf field).
Proof.
  induction fields as [|f fields IH]; cbn [check_int_fields].
  { split; [|done]. intros _ field. by rewrite elem_of_nil. }
  setoid_rewrite elem_of_cons. split.
  - intros Hc. apply bind_Ok_inv in Hc as (c & Hg & Hc). cbv zeta in Hc.
    assert (Hf : field_change_ok sl f c (get_value nf f) ∧
                 check_int_fields current nf rules sl fields = Ok ()).
    { case_bool_decide as Heq; [split; [by left|done]|].
      destruct (_ || _) eqn:Hb; [done|]. apply orb_false_iff in Hb as [H1 H2].
      split; [right|done]. by rewrite level_lt_false, level_not_lt_ge in H1, H2. }
    intros field [->|Hin]; [naive_solver|]. apply IH; tauto.
  - intros Hall. destruct (Hall f (or_introl eq_refl)) as (c & -> & Hf). rewrite bind_Ok. cbv zeta.
    assert (Hrest : check_int_fields current nf rules sl fields = Ok ())
      by (apply IH; intros; apply Hall; by right).
    case_bool_decide as Heq; [done|]. destruct Hf as [|[H1 H2]]; [done|].
    unfold within in *. rewrite <- level_not_lt_ge, <- level_lt_false in H1, H2. by rewrite H1, H2.
Qed.

Lemma contains_key_get {V} (m : list (string * V)) key :
  contains_key m key = true ↔ is_Some (get_value m key).
Proof.
  unfold contains_key, get_value. rewrite bool_decide_eq_true. unfold position.
  destruct (list_find _ m) as [[i kv]|] eqn:Hf; simpl; [|by rewrite !is_Some_alt].
  apply list_find_Some in Hf as [-> _]. simpl. split; by eauto.
Qed.

(** The value of [key] in an optional map. *)
Definition lookup_level (m : option (list (string * Z))) (key : string) : option Z :=
  m ← m; get_value m key.

(** The power levels rules of the specification. *)
Definition power_change_allowed (ev : Pdu) (current : option Pdu) (rules : AuthorizationRules)
    (sl : UserPowerLevel) (room_creators : list string) : Prop :=
  ∃ ne nn nu,
    (∀ field, ∃ n, get_as_int ev field rules = Ok n) ∧
    events ev rules = Ok ne ∧ notifications ev rules = Ok nn ∧ users ev rules = Ok nu ∧
    (explicitly_privilege_room_creators rules = true →
       ∀ c, c ∈ room_creators → lookup_level nu c = None) ∧
    ∀ cur, current = Some cur →
      (∀ field, ∃ c n, get_as_int cur field rules = Ok c ∧ get_as_int ev field rules = Ok n ∧
         field_change_ok sl field c n) ∧
      (∃ ce, events cur rules = Ok ce ∧ ∀ ty,
         entry_change_ok sl (λ _ l, level_lt sl (IntLevel l)) ty (lookup_level ce ty) (lookup_level ne ty)) ∧
      (limit_notifications_power_levels rules = true → ∃ cn, notifications cur rules = Ok cn ∧ ∀ key,
         entry_change_ok sl (λ _ l, level_lt sl (IntLevel l)) key (lookup_level cn key) (lookup_level nn key)) ∧
      (∃ cu, users cur rules = Ok cu ∧ ∀ u,
         entry_change_ok sl (λ u l, bool_decide (u ≠ sender ev) && level_le sl (IntLevel l)) u
           (lookup_level cu u) (lookup_level nu u)).

Lemma ALL_FIELDS_complete field : field ∈ ALL_FIELDS.
Proof. destruct field; unfold ALL_FIELDS; rewrite !elem_of_cons; tauto. Qed.

Lemma ALL_FIELDS_NoDup : NoDup ALL_FIELDS.
Proof. apply (bool_decide_unpack _). by vm_compute. Qed.

Lemma int_fields_map_iff ev rules :
  (∃ l, int_fields_map ev rules = Ok l) ↔ ∀ field, ∃ n, get_as_int ev field rules = Ok n.
Proof.
  split.
  - intros [l Hl] field. exists (get_value l field).
    by apply (int_fields_from_get _ ALL_FIELDS); [apply ALL_FIELDS_NoDup| |apply ALL_FIELDS_complete].
  - intros Hall. unfold int_fields_map. induction ALL_FIELDS as [|f fields [l Hl]]; [by eexists|].
    destruct (Hall f) as [n Hn]. cbn [int_fields_from]. rewrite Hn, bind_Ok, Hl. by eexists.
Qed.

Lemma creators_excluded nu creators :
  match nu with Some m => existsb (λ c, contains_key m c) creators | None => false end = false ↔
  ∀ c, c ∈ creators → lookup_level nu c = None.
Proof.
  destruct nu as [m|]; [|naive_solver]. simpl. rewrite <- not_true_iff_false, List.existsb_exists.
  split.
  - intros Hno c Hc. destruct (get_value m c) eqn:Hg; [|done]. exfalso. apply Hno. exists c.
    split; [by apply list_elem_of_In|]. apply contains_key_get. by rewrite Hg.
  - intros Hall (c & Hc%list_elem_of_In & [v Hv]%contains_key_get). by rewrite Hall in Hv.
Qed.

Lemma check_room_power_levels_iff ev current rules sl room_creators :
  check_room_power_levels ev current rules sl room_creators = Ok () ↔
  power_change_allowed ev current rules sl room_creators.
Proof.
  unfold check_room_power_levels, power_change_allowed. split.
  - intros Hc. follow Hc. exists r0, r1, r2.
    assert (Hnf : ∀ field, get_as_int ev field rules = Ok (get_value r field)).
    { intros field. by apply (int_fields_from_get _ ALL_FIELDS);
        [apply ALL_FIELDS_NoDup| |apply ALL_FIELDS_complete]. }
    split_and!; try done; [by eauto| |].
    { intros Hp. rewrite Hp in Hb. simpl in Hb. by apply creators_excluded. }
    intros cur ->. follow Hc. destruct r3, r5, r6. pose proof (proj1 (check_maps_iff _ _ _ _ _) Hc) as Hus.
    pose proof (proj1 (check_maps_iff _ _ _ _ _) Hr5) as Hev. split_and!.
    + intros field. pose proof (proj1 (check_int_fields_iff cur r rules sl ALL_FIELDS) Hr3 field
        (ALL_FIELDS_complete field)) as (c & Hg & Hok). by exists c, (get_value r field).
    + by exists r4.
    + intros Hn. rewrite Hn in Hr6. follow Hr6. eexists. split; [done|].
      exact (proj1 (check_maps_iff _ _ _ _ _) Hr6).
    + by exists r7.
  - intros (ne & nn & nu & Hint & -> & -> & -> & Hcr & Hcur).
    apply int_fields_map_iff in Hint as [nf Hnf]. rewrite Hnf, !bind_Ok.
    assert (Hg : ∀ field, get_as_int ev field rules = Ok (get_value nf field)).
    { intros field. by apply (int_fields_from_get _ ALL_FIELDS);
        [apply ALL_FIELDS_NoDup| |apply ALL_FIELDS_complete]. }
    destruct (_ && _) eqn:Hb.
    { apply andb_true_iff in Hb as [Hp Hb]. pose proof (proj2 (creators_excluded nu room_creators) (Hcr Hp)). congruence. }
    destruct current as [cur|]; [|done].
    destruct (Hcur cur eq_refl) as (Hf & (ce & Hce & Hev) & Hnot & (cu & Hcu & Hus)).
    assert (check_int_fields cur nf rules sl ALL_FIELDS = Ok ()) as ->.
    { apply check_int_fields_iff. intros field _. destruct (Hf field) as (c & n & Hc & Hn & Hok).
      rewrite Hg in Hn. exists c. split; [done|]. congruence. }
    rewrite bind_Ok, Hce, bind_Ok. rewrite (proj2 (check_maps_iff _ _ _ _ _) Hev), bind_Ok.
    assert (Hn : (if limit_notifications_power_levels rules then
      current_notifications ← notifications cur rules;
      check_power_level_maps current_notifications nn sl (λ _ l, level_lt sl (IntLevel l))
        "sender does not have enough power to change the notification power level"
      else Ok ()) = Ok ()).
    { destruct (limit_notifications_power_levels rules); [|done].
      destruct (Hnot eq_refl) as (cn & -> & Hok). rewrite bind_Ok. by apply check_maps_iff. }
    rewrite Hn, bind_Ok, Hcu, bind_Ok. by apply check_maps_iff.
Qed.

End PowerLevels.

Section Escalation.
Context `{Ruma}.

(** A user's level under a power levels event, taken apart. *)
Lemma event_user_power_level_inv ev u rules l :
  event_user_power_level ev u rules = Ok (IntLevel l) →
  ∃ us, users ev rules = Ok us ∧
    (lookup_level us u = Some l ∨
     lookup_level us u = None ∧ ∃ d, get_as_int ev UsersDefault rules = Ok d ∧
       l = default (default_value UsersDefault) d).
Proof.
  unfold event_user_power_level. intros Hl. apply bind_Ok_inv in Hl as (us & Hus & Hl).
  apply bind_Ok_inv in Hl as (l' & Hl' & [= ->]). exists us. split; [done|].
  fold (lookup_level us u) in Hl'. destruct (lookup_level us u); simplify_eq; [by left|right].
  split; [done|]. unfold get_as_int_or_default in Hl'. apply bind_Ok_inv in Hl' as (d & Hd & [= <-]). by eauto.
Qed.

End Escalation.

(** C9: a power levels event is accepted exactly when it changes only what its
    sender may change: every field parses, no privileged creator is listed,
    and against the current event each altered integer field had and gets a
    value within the sender's level, each altered event type or notification
    entry likewise, and each altered user entry gets a value within the
    sender's level and, unless it is the sender's own, was strictly below it. *)
Theorem power_levels_rules_exact `{Ruma} (ev : Pdu) (current : option Pdu)
    (rules : AuthorizationRules) (sl : UserPowerLevel) (room_creators : list string) :
  check_room_power_levels ev current rules sl room_creators = Ok () ↔
  power_change_allowed ev current rules sl room_creators.
Proof. apply check_room_power_levels_iff. Qed.


