(* ===== verification/AuthFacts.v ===== *)
(** * AuthFacts: what an accepted event guarantees

    Consequences of the checks of EventAuth: the state-independent rules as a
    specification, what the state-dependent rules demand of a sender, which
    part of the state they read, and the outcome of the whole check under any
    interleaving of its two halves. *)

From S2P Require Import Prelude Json CoreError RoomEvents SampleRoom AuthTypes RoomMember EventAuth.

Section Independent.
Context `{Ruma}.

(** An auth event that is acceptable for [incoming] under the key [key]. *)
Definition auth_event_ok (incoming : Pdu) (fetch_event : FetchEvent) (expected : list TypeStateKey)
    (id : string) (key : TypeStateKey) : Prop :=
  ∃ e, fetch_event id = Ok e ∧ room_id e = room_id incoming ∧ event_type e = key.1 ∧
    state_key e = Some key.2 ∧ key ∈ expected ∧ rejected e = false.

Lemma check_auth_events_iff incoming fetch_event expected ids seen keys :
  NoDup seen →
  check_auth_events incoming fetch_event expected seen ids = Ok keys ↔
  ∃ new, keys = seen ++ new ∧ NoDup keys ∧
    Forall2 (auth_event_ok incoming fetch_event expected) ids new.
Proof.
  revert seen. induction ids as [|id ids IH]; intros seen Hnd; cbn [check_auth_events].
  { split.
    - intros [= <-]. exists []. rewrite app_nil_r. by split_and!; [..|constructor].
    - intros (new & -> & _ & Hf). inversion Hf. by rewrite app_nil_r. }
  destruct (fetch_event id) as [e|err|] eqn:Hfe.
  2:{ split; [|intros (new & _ & _ & Hf); inversion Hf as [|? ? ? ? (e & He & _)]; congruence].
      by destruct (is_not_found err). }
  2:{ split; [done|intros (new & _ & _ & Hf); inversion Hf as [|? ? ? ? (e & He & _)]; congruence]. }
  rewrite bind_Ok.
  assert (Hinv : ∀ new, Forall2 (auth_event_ok incoming fetch_event expected) (id :: ids) new →
    room_id e = room_id incoming ∧ ∃ k tl, state_key e = Some k ∧ (event_type e, k) ∈ expected ∧
      rejected e = false ∧ new = (event_type e, k) :: tl ∧
      Forall2 (auth_event_ok incoming fetch_event expected) ids tl).
  { intros new Hf. inversion Hf as [|? key ? tl (e' & He & Hr & Ht & Hk & Hin & Hrej) Htl]; subst.
    rewrite Hfe in He. simplify_eq. split; [done|]. destruct key as [ty k]. simpl in *. subst. by eauto 10. }
  destruct (decide (room_id e = room_id incoming)) as [Hroom|Hroom].
  2:{ rewrite bool_decide_eq_true_2 by done. split; [done|].
      by intros (new & _ & _ & [Hr _]%Hinv). }
  rewrite bool_decide_eq_false_2 by tauto.
  destruct (state_key e) as [k|] eqn:Hk.
  2:{ split; [done|]. by intros (new & _ & _ & (_ & k & tl & Hk' & _)%Hinv). }
  cbn [ok_or]. rewrite bind_Ok. cbv zeta.
  destruct (decide ((event_type e, k) ∈ seen)) as [Hs|Hs].
  { rewrite bool_decide_eq_true_2 by done. split; [done|].
    intros (new & -> & Hnd' & (_ & k' & tl & [= <-] & _ & _ & -> & _)%Hinv).
    apply NoDup_app in Hnd' as (_ & Hdis & _). exfalso. eapply Hdis; [exact Hs|left]. }
  rewrite bool_decide_eq_false_2 by done.
  destruct (decide ((event_type e, k) ∈ expected)) as [He|He].
  2:{ rewrite bool_decide_eq_true_2 by done. split; [done|].
      by intros (new & _ & _ & (_ & k' & tl & [= <-] & Hin & _)%Hinv). }
  rewrite bool_decide_eq_false_2 by tauto.
  destruct (rejected e) eqn:Hrej.
  { split; [done|]. by intros (new & _ & _ & (_ & k' & tl & _ & _ & Hf & _)%Hinv). }
  assert (Hnd2 : NoDup (seen ++ [(event_type e, k)])).
  { apply NoDup_app. split_and!; [done| |apply NoDup_singleton].
    intros x Hx ->%list_elem_of_singleton. done. }
  rewrite (IH _ Hnd2). split.
  - intros (new & -> & Hndk & Hf). exists ((event_type e, k) :: new). rewrite <- app_assoc in *.
    split_and!; [done|done|]. constructor; [|done]. exists e. by split_and!.
  - intros (new & -> & Hndk & (_ & k' & tl & [= <-] & _ & _ & -> & Hf)%Hinv).
    exists tl. rewrite <- app_assoc. by split_and!.
Qed.

(** The state-independent rules for an event other than the create event. *)
Definition independent_allowed (rules : AuthorizationRules) (incoming : Pdu)
    (fetch_event : FetchEvent) : Prop :=
  ∃ expected keys,
    auth_types_for_event (event_type incoming) (sender incoming) (state_key incoming)
      (content incoming) rules false = Ok expected ∧
    NoDup keys ∧
    Forall2 (auth_event_ok incoming fetch_event expected) (auth_events incoming) keys ∧
    if room_create_event_id_as_room_id rules
    then ∃ id e, room_as_event_id (room_id incoming) = Some id ∧ fetch_event id = Ok e ∧
           rejected e = false
    else ∃ k, (ROOM_CREATE, k) ∈ keys.

(** The rules for the create event itself. *)
Definition create_allowed (rules : AuthorizationRules) (create : Pdu) : Prop :=
  prev_events create = [] ∧ auth_events create = [] ∧
  (if room_create_event_id_as_room_id rules
   then room_as_event_id (room_id create) = Some (event_id create)
   else room_server_name (room_id create) = Some (user_server_name (sender create))) ∧
  (use_room_create_sender rules = false → has_creator create = Ok true).

Lemma check_room_create_iff create rules :
  check_room_create create rules = Ok () ↔ create_allowed rules create.
Proof.
  unfold check_room_create, create_allowed.
  destruct (prev_events create); [|naive_solver]. destruct (auth_events create); [|naive_solver].
  transitivity ((if room_create_event_id_as_room_id rules
   then room_as_event_id (room_id create) = Some (event_id create)
   else room_server_name (room_id create) = Some (user_server_name (sender create))) ∧
  (use_room_create_sender rules = false → has_creator create = Ok true)); [|tauto].
  set (A := if room_create_event_id_as_room_id rules then _ = Some (event_id create) else _).
  match goal with |- (?m ≫= _) = _ ↔ _ => set (M := m) end.
  assert (HM : (M = Ok () ∧ A) ∨ (M ≠ Ok () ∧ ¬ A)).
  { unfold M, A. destruct (room_create_event_id_as_room_id rules); case_match;
      try case_bool_decide; subst; naive_solver. }
  destruct HM as [[-> HA]|[HM HA]].
  - rewrite bind_Ok. destruct (use_room_create_sender rules); simpl; [naive_solver|].
    destruct (has_creator create) as [[]| |]; simpl; naive_solver.
  - split; [|tauto]. intros Hc. apply bind_Ok_inv in Hc as ([] & Hc & _). done.
Qed.

End Independent.

(** The state-independent check accepts exactly the events the rules allow:
    a create event with no predecessors and no auth events, in the right room
    and with a creator; any other event whose auth events all exist, are in the
    same room, are distinct and expected for it, were not rejected, and include
    the create event (or whose room id names an accepted create event). *)
Theorem independent_rules_exact `{Ruma} (rules : AuthorizationRules) (incoming : Pdu)
    (fetch_event : FetchEvent) :
  check_state_independent_auth_rules rules incoming fetch_event = Ok () ↔
  if bool_decide (event_type incoming = ROOM_CREATE) then create_allowed rules incoming
  else independent_allowed rules incoming fetch_event.
Proof.
  unfold check_state_independent_auth_rules, independent_allowed.
  case_bool_decide; [apply check_room_create_iff|].
  destruct (auth_types_for_event _ _ _ _ _ _) as [expected| |]; [|simpl; naive_solver..].
  rewrite bind_Ok. split.
  - intros Hc. apply bind_Ok_inv in Hc as (seen & Hr & Hc).
    apply check_auth_events_iff in Hr as (keys & -> & Hnd & Hf); [|constructor].
    simpl in *. exists expected, keys. do 3 (split; [done|]).
    destruct (room_create_event_id_as_room_id rules) eqn:Hv; simpl in *.
    + apply bind_Ok_inv in Hc as (id & Hid & Hc).
      destruct (room_as_event_id _) as [id'|]; simplify_eq/=.
      destruct (fetch_event id) as [e| |] eqn:He; try done. destruct (rejected e) eqn:Hrej; [done|]. by eauto.
    + destruct (existsb _ _) eqn:Hb; [|done].
      apply List.existsb_exists in Hb as ([ty k] & Hin & Hty%bool_decide_eq_true).
      simpl in Hty. subst. exists k. by apply list_elem_of_In.
  - intros (_ & keys & [= <-] & Hnd & Hf & Hlast).
    rewrite (proj2 (check_auth_events_iff incoming fetch_event expected (auth_events incoming) [] keys
      (NoDup_nil_2))) by (by exists keys). rewrite bind_Ok.
    destruct (room_create_event_id_as_room_id rules); simpl.
    + destruct Hlast as (id & e & -> & He & Hrej). cbn [ok_or]. by rewrite bind_Ok, He, Hrej.
    + destruct Hlast as [k Hk].
      assert (existsb (λ k, bool_decide (fst k = ROOM_CREATE)) keys = true) as ->; [|done].
      apply List.existsb_exists. exists (ROOM_CREATE, k). split; [by apply list_elem_of_In|].
      by apply bool_decide_eq_true.
Qed.

(** ** What the state-dependent rules demand *)

(** An ordinary event: one no earlier rule of the check decides. *)
Definition ordinary `{Ruma} (rules : AuthorizationRules) (ev : Pdu) : Prop :=
  event_type ev ≠ ROOM_CREATE ∧ event_type ev ≠ ROOM_MEMBER ∧
  ¬ (special_case_room_aliases rules = true ∧ event_type ev = ROOM_ALIASES).

(** an accepted ordinary event comes from a joined sender, from the
    creator's server if the room does not federate, whose power level reaches
    the level the event needs; a state key that names a user names the sender;
    and a power levels event changes only what that level allows. *)
Theorem accepted_sender_authorised `{Ruma} (rules : AuthorizationRules) (ev : Pdu)
    (fetch : FetchState)
    (Hord : ordinary rules ev)
    (Hcheck : check_state_dependent_auth_rules rules ev fetch = Ok ()) :
  ∃ create fed power_levels cs level need,
    room_create_event fetch = Ok create ∧ federate create = Ok fed ∧
    (fed = false → user_server_name (sender create) = user_server_name (sender ev)) ∧
    user_membership fetch (sender ev) = Ok Join ∧
    room_power_levels_event fetch = Ok power_levels ∧ creators create rules = Ok cs ∧
    user_power_level power_levels (sender ev) cs rules = Ok level ∧
    (if bool_decide (event_type ev = ROOM_THIRD_PARTY_INVITE)
     then int_or_default power_levels InviteField rules
     else event_power_level power_levels (event_type ev) (state_key ev) rules) = Ok need ∧
    level_order (IntLevel need) level ≠ Gt ∧
    (event_type ev ≠ ROOM_THIRD_PARTY_INVITE →
       ∀ k, state_key ev = Some k → starts_with_at k = true → k = sender ev) ∧
    (event_type ev = ROOM_POWER_LEVELS →
       power_change_allowed ev power_levels rules level cs).
Proof.
  destruct Hord as (Hnc & Hnm & Hna). unfold check_state_dependent_auth_rules in Hcheck.
  rewrite (bool_decide_eq_false_2 (event_type ev = ROOM_CREATE)) in Hcheck by done. cbv zeta in Hcheck.
  apply bind_Ok_inv in Hcheck as (create & Hcr & Hcheck).
  apply bind_Ok_inv in Hcheck as (fed & Hfed & Hcheck).
  destruct (negb fed && _) eqn:Hb; [done|].
  assert (Hal : special_case_room_aliases rules && bool_decide (event_type ev = ROOM_ALIASES) = false).
  { apply not_true_iff_false. rewrite andb_true_iff, bool_decide_eq_true. tauto. }
  rewrite Hal, (bool_decide_eq_false_2 (event_type ev = ROOM_MEMBER)) in Hcheck by done.
  apply bind_Ok_inv in Hcheck as (m & Hm & Hcheck).
  destruct (bool_decide (m ≠ Join)) eqn:Hj; [done|]. apply bool_decide_eq_false, dec_stable in Hj as ->.
  apply bind_Ok_inv in Hcheck as (pl & Hpl & Hcheck).
  apply bind_Ok_inv in Hcheck as (cs & Hcs & Hcheck).
  apply bind_Ok_inv in Hcheck as (level & Hlv & Hcheck).
  exists create, fed, pl, cs, level.
  assert (Hserver : fed = false → user_server_name (sender create) = user_server_name (sender ev)).
  { intros ->. simpl in Hb. by apply bool_decide_eq_false, dec_stable in Hb. }
  destruct (bool_decide (event_type ev = ROOM_THIRD_PARTY_INVITE)) eqn:Htp.
  - apply bind_Ok_inv in Hcheck as (need & Hneed & Hcheck). exists need.
    destruct (level_lt _ _) eqn:Hlt; [done|]. apply level_lt_false, level_not_lt_ge in Hlt.
    apply bool_decide_eq_true in Htp. split_and!; try done. intros Hpw. by rewrite Htp in Hpw.
  - apply bind_Ok_inv in Hcheck as (need & Hneed & Hcheck). exists need.
    destruct (level_lt _ _) eqn:Hlt; [done|]. apply level_lt_false, level_not_lt_ge in Hlt.
    apply bool_decide_eq_false in Htp. destruct (match state_key ev with Some k => starts_with_at k | None => false end && _) eqn:Hk;
      [done|]. split_and!; try done.
    + intros _ k Hsk Hat. rewrite Hsk, Hat in Hk. simpl in Hk.
      apply bool_decide_eq_false, dec_stable in Hk. by simplify_eq.
    + intros Hpw. rewrite bool_decide_eq_true_2 in Hcheck by done.
      by apply check_room_power_levels_iff.
Qed.

Lemma accepted_sender_authorised_witness :
  let ev := power_event "$p2" alice [(alice, 100); (bob, 70)] in
  ∃ create fed power_levels cs level need,
    room_create_event (fetch_from sample_state) = Ok create ∧ federate create = Ok fed ∧
    (fed = false → user_server_name (sender create) = user_server_name (sender ev)) ∧
    user_membership (fetch_from sample_state) (sender ev) = Ok Join ∧
    room_power_levels_event (fetch_from sample_state) = Ok power_levels ∧
    creators create rules_v10 = Ok cs ∧
    user_power_level power_levels (sender ev) cs rules_v10 = Ok level ∧
    (if bool_decide (event_type ev = ROOM_THIRD_PARTY_INVITE)
     then int_or_default power_levels InviteField rules_v10
     else event_power_level power_levels (event_type ev) (state_key ev) rules_v10) = Ok need ∧
    level_order (IntLevel need) level ≠ Gt ∧
    (event_type ev ≠ ROOM_THIRD_PARTY_INVITE →
       ∀ k, state_key ev = Some k → starts_with_at k = true → k = sender ev) ∧
    (event_type ev = ROOM_POWER_LEVELS →
       power_change_allowed ev power_levels rules_v10 level cs).
Proof.
  apply (accepted_sender_authorised rules_v10 (power_event "$p2" alice [(alice, 100); (bob, 70)])
    (fetch_from sample_state)).
  - repeat split; try done. by intros [? _].
  - vm_compute. reflexivity.
Defined.

(** ** The part of the state that is read *)

Section Locality.
Context `{Ruma} (rules : AuthorizationRules) (f g : FetchState).

(** Two snapshots with the same events under the keys of [l]. *)
Definition agree_on (l : list TypeStateKey) : Prop := ∀ ty k, (ty, k) ∈ l → f ty k = g ty k.

Lemma agree_membership l u :
  agree_on l → (ROOM_MEMBER, u) ∈ l → user_membership f u = user_membership g u.
Proof. intros Ha Hin. unfold user_membership. by rewrite Ha. Qed.

Lemma agree_power_levels l :
  agree_on l → (ROOM_POWER_LEVELS, ""%string) ∈ l →
  room_power_levels_event f = room_power_levels_event g.
Proof. intros Ha Hin. unfold room_power_levels_event. by rewrite Ha. Qed.

Lemma agree_join_rule l :
  agree_on l → (ROOM_JOIN_RULES, ""%string) ∈ l → room_join_rule f = room_join_rule g.
Proof. intros Ha Hin. unfold room_join_rule. by rewrite Ha. Qed.

Lemma agree_create l :
  agree_on l → (ROOM_CREATE, ""%string) ∈ l → room_create_event f = room_create_event g.
Proof. intros Ha Hin. unfold room_create_event. by rewrite Ha. Qed.

Lemma agree_third_party l t :
  agree_on l → (ROOM_THIRD_PARTY_INVITE, t) ∈ l →
  room_third_party_invite_event f t = room_third_party_invite_event g t.
Proof. intros Ha Hin. unfold room_third_party_invite_event. by rewrite Ha. Qed.

Lemma bind_ext {A B} (m : Res A) (k1 k2 : A → Res B) :
  (∀ a, m = Ok a → k1 a = k2 a) → m ≫= k1 = m ≫= k2.
Proof. destruct m; simpl; auto. Qed.

(** The membership rules read only the keys selected for the event. *)
Lemma check_room_member_local ev create l target :
  (knock_restricted_join_rule rules = true → restricted_join_rule rules = true) →
  state_key ev = Some target →
  (∀ m, membership (content ev) = Ok m → ∀ k, k ∈ member_types target (content ev) m rules → k ∈ l) →
  (∀ k, k ∈ base_types (sender ev) rules true → k ∈ l) →
  agree_on l →
  check_room_member ev rules create f = check_room_member ev rules create g.
Proof.
  intros Hkr Hsk Hmem Hbase Ha. unfold check_room_member. rewrite Hsk.
  destruct (negb (user_id_ok target)); [done|]. apply bind_ext. intros fed _.
  destruct (_ && _); [done|]. apply bind_ext. intros m Hm. specialize (Hmem m Hm).
  assert (Hs : user_membership f (sender ev) = user_membership g (sender ev)).
  { apply (agree_membership l); [done|]. apply Hbase. unfold base_types. set_solver. }
  assert (Hp : room_power_levels_event f = room_power_levels_event g).
  { apply (agree_power_levels l); [done|]. apply Hbase. unfold base_types. set_solver. }
  assert (Ht : user_membership f target = user_membership g target).
  { apply (agree_membership l); [done|]. apply Hmem. unfold member_types. set_solver. }
  assert (Hj : is_join_invite_knock m = true → room_join_rule f = room_join_rule g).
  { intros Hjik. apply (agree_join_rule l); [done|]. apply Hmem. unfold member_types.
    rewrite Hjik. set_solver. }
  destruct m; simpl in Hj; try done.
  - unfold check_room_member_ban. by rewrite Hs, Hp.
  - unfold check_room_member_invite. apply bind_ext. intros [tpi|] Htpi; [|by rewrite Hs, Ht, Hp].
    unfold check_third_party_invite. rewrite Ht. apply bind_ext. intros tm _.
    destruct (bool_decide (tm = Ban)); [done|].
    apply bind_ext. intros tok Htok. apply bind_ext. intros mx _.
    destruct (bool_decide (target ≠ mx)); [done|].
    rewrite (agree_third_party l tok); [done|done|]. apply Hmem. unfold member_types.
    rewrite (bool_decide_eq_true_2 (Invite = Invite)), Htpi, Htok by done. set_solver.
  - unfold check_room_member_join. do 2 (apply bind_ext; intros ? _). cbv zeta.
    destruct (_ && bool_decide (target = _)); [done|]. destruct (bool_decide (sender ev ≠ target)); [done|].
    rewrite Ht, Hj by done. apply bind_ext. intros cm _. destruct (bool_decide (cm = Ban)); [done|].
    apply bind_ext. intros rule _.
    fold (restricted_on rules rule). destruct ((_ || _) && _); [done|].
    destruct (restricted_on rules rule) eqn:Hr; [|done]. destruct (_ || _); [done|].
    apply bind_ext. intros [via|] Hvia; [|done].
    rewrite (agree_membership l via), Hp; [done|done|]. apply Hmem. unfold member_types.
    assert (restricted_join_rule rules = true) as ->.
    { unfold restricted_on in Hr. apply orb_true_iff in Hr as [[? _]%andb_true_iff|[? _]%andb_true_iff]; auto. }
    rewrite (bool_decide_eq_true_2 (Join = Join)), Hvia by done. set_solver.
  - destruct (knocking rules); [|done]. unfold check_room_member_knock. by rewrite Hj, Hs.
  - unfold check_room_member_leave. rewrite Hs. apply bind_ext. intros sm _.
    destruct (bool_decide (sender ev = target)); [done|].
    destruct (bool_decide (sm ≠ Join)); [done|]. by rewrite Ht, Hp.
Qed.

Lemma dependent_rules_local ev l :
  (knock_restricted_join_rule rules = true → restricted_join_rule rules = true) →
  auth_types_for_event (event_type ev) (sender ev) (state_key ev) (content ev) rules true = Ok l →
  agree_on l →
  check_state_dependent_auth_rules rules ev f = check_state_dependent_auth_rules rules ev g.
Proof.
  intros Hkr Hl Ha.
  destruct (auth_types_spec (event_type ev) (sender ev) (state_key ev) (content ev) rules true) as [_ Hspec].
  destruct (Hspec l Hl) as (_ & _ & Hmem & Hin). unfold check_state_dependent_auth_rules.
  case_bool_decide as Hc; [done|].
  assert (Hbase : ∀ k, k ∈ base_types (sender ev) rules true → k ∈ l) by (intros; apply Hin; tauto).
  assert (Hb : ∀ k, k ∈ [(ROOM_CREATE, ""); (ROOM_POWER_LEVELS, ""); (ROOM_MEMBER, sender ev)]%string →
    k ∈ l).
  { intros k Hk. apply Hbase. unfold base_types. by rewrite orb_true_r. }
  cbv zeta. rewrite (agree_membership l (sender ev)), (agree_power_levels l), (agree_create l)
    by (done || apply Hb; set_solver).
  apply bind_ext. intros create _. apply bind_ext. intros fed _.
  destruct (_ && _); [done|]. destruct (_ && _); [done|].
  case_bool_decide as Hm; [|done]. destruct (Hmem Hm) as (target & m & Hsk & Hmm).
  apply (check_room_member_local ev create l target); try done.
  intros m' Hm' k Hk. apply Hin. right. split; [done|]. by eauto.
Qed.

End Locality.

(** C37: the auth event selection is sufficient: whether an event passes the
    state-dependent rules, and the error if not, depends only on the events of
    the snapshot under the keys [auth_types_for_event] selects for it, in every
    room version in which knock-restricted rooms are restricted rooms. *)
Theorem auth_types_sufficient `{Ruma} (rules : AuthorizationRules) (ev : Pdu) (f g : FetchState)
    (l : list TypeStateKey)
    (Hrules : knock_restricted_join_rule rules = true → restricted_join_rule rules = true)
    (Hl : auth_types_for_event (event_type ev) (sender ev) (state_key ev) (content ev) rules true = Ok l)
    (Hagree : ∀ ty k, (ty, k) ∈ l → f ty k = g ty k) :
  check_state_dependent_auth_rules rules ev f = check_state_dependent_auth_rules rules ev g.
Proof. by apply (dependent_rules_local rules f g ev l). Qed.

(** Carol's ban and the room's other members do not matter to Bob's invite. *)
Lemma auth_types_sufficient_witness :
  let ev := member_event "$i" bob "@dave:h" "invite" ["$c"%string] in
  check_state_dependent_auth_rules rules_v10 ev (fetch_from sample_state) =
  check_state_dependent_auth_rules rules_v10 ev
    (fetch_from (filter (λ e, state_key e ≠ Some carol) sample_state)).
Proof.
  apply (auth_types_sufficient rules_v10 (member_event "$i" bob "@dave:h" "invite" ["$c"%string]) _ _
    [(ROOM_CREATE, ""); (ROOM_POWER_LEVELS, ""); (ROOM_MEMBER, bob); (ROOM_MEMBER, "@dave:h");
     (ROOM_JOIN_RULES, "")]%string).
  - done.
  - vm_compute. reflexivity.
  - intros ty k Hk. rewrite !elem_of_cons, elem_of_nil in Hk.
    destruct Hk as [Hk|[Hk|[Hk|[Hk|[Hk|[]]]]]]; injection Hk as -> ->; vm_compute; reflexivity.
Defined.
