(* ===== verification/AuthErrors.v ===== *)
(** * AuthErrors: what can go wrong in the authorization rules

    A check against a state that either has an event or reports it missing
    allows or denies: it raises no other error and does not abort. *)

From S2P Require Import Prelude Json CoreError RoomEvents AuthTypes RoomMember EventAuth.

(** A result that is a success or a denial. *)
Definition soft {A} (r : Res A) : Prop :=
  match r with
  | Ok _ => True
  | Err e => is_ok (classify_auth_error e) = true
  | Panic => False
  end.

Create HintDb soft.

Lemma soft_Ok {A} (a : A) : soft (Ok a).
Proof. done. Qed.
Lemma soft_err_msg {A} msg : soft (err_msg msg : Res A).
Proof. done. Qed.
Lemma soft_invalid {A} msg : soft (err_request InvalidParam msg : Res A).
Proof. done. Qed.
Lemma soft_de_or {A} (o : option A) msg : soft (de_or o msg).
Proof. by destruct o. Qed.
Lemma soft_de_or_invalid {A} (o : option A) msg : soft (de_or_invalid o msg).
Proof. by destruct o. Qed.
Lemma soft_ok_or {A} (o : option A) msg code : soft (ok_or o (Request InvalidParam msg code)).
Proof. by destruct o. Qed.

Lemma soft_bind {A B} (m : Res A) (k : A → Res B) : soft m → (∀ a, soft (k a)) → soft (m ≫= k).
Proof. destruct m; simpl; auto. Qed.

#[export] Hint Resolve soft_Ok soft_err_msg soft_invalid soft_de_or soft_de_or_invalid soft_ok_or : soft.

(** Follows a check down all its branches. *)
Ltac soften :=
  repeat first
    [ progress intros
    | solve [eauto with soft]
    | apply soft_bind
    | match goal with |- soft (match ?x with _ => _ end) => destruct x end ].

Section Views.
Context `{Ruma}.

Lemma soft_federate ev : soft (federate ev).
Proof. unfold federate. soften. Qed.
Lemma soft_creator ev rules : soft (creator ev rules).
Proof. unfold creator. soften. Qed.
Lemma soft_creators ev rules : soft (creators ev rules).
Proof. unfold creators, additional_creators. pose proof soft_creator. soften. Qed.
Lemma soft_membership c : soft (membership c).
Proof. unfold membership. soften. Qed.
Lemma soft_join_authorised c : soft (join_authorised_via_users_server c).
Proof. unfold join_authorised_via_users_server. soften. Qed.
Lemma soft_third_party c : soft (third_party_invite c).
Proof. unfold third_party_invite. soften. Qed.
Lemma soft_token t : soft (token t).
Proof. unfold token. soften. Qed.
Lemma soft_mxid t : soft (mxid t).
Proof. unfold mxid. soften. Qed.
Lemma soft_signatures t : soft (signatures t).
Proof. unfold signatures. soften. Qed.
Lemma soft_signed_json t : soft (signed_canonical_json t).
Proof. unfold signed_canonical_json. soften. Qed.
Lemma soft_public_keys ev : soft (public_keys ev).
Proof. unfold public_keys. soften. Qed.
Lemma soft_get_as_int ev f rules : soft (get_as_int ev f rules).
Proof. unfold get_as_int, deserialized_content. soften. Qed.
Lemma soft_get_as_int_map ev k f rules : soft (get_as_int_map ev k f rules).
Proof. unfold get_as_int_map, deserialized_content. soften. Qed.
Hint Resolve soft_get_as_int soft_get_as_int_map : soft.
Lemma soft_int_or_default pl f rules : soft (int_or_default pl f rules).
Proof. unfold int_or_default, get_as_int_or_default. soften. Qed.
Lemma soft_user_power_level pl u cs rules : soft (user_power_level pl u cs rules).
Proof. unfold user_power_level, event_user_power_level, users, get_as_int_or_default. soften. Qed.
Lemma soft_event_power_level pl ty k rules : soft (event_power_level pl ty k rules).
Proof. unfold event_power_level, event_event_power_level, events, get_as_int_or_default. soften. Qed.
Lemma soft_int_fields ev fields rules : soft (int_fields_from ev fields rules).
Proof. induction fields; cbn [int_fields_from]; soften. Qed.

End Views.

#[export] Hint Resolve soft_federate soft_creator soft_creators soft_membership soft_join_authorised
  soft_third_party soft_token soft_mxid soft_signatures soft_signed_json soft_public_keys
  soft_get_as_int soft_get_as_int_map soft_int_or_default soft_user_power_level
  soft_event_power_level soft_int_fields : soft.

(** ** The rules *)

(** A snapshot that has an event or reports it missing. *)
Definition answers `{Ruma} (fetch : FetchState) : Prop := ∀ ty key,
  match fetch ty key with Ok _ => True | Err e => is_not_found e = true | Panic => False end.

Section Rules.
Context `{Ruma} (fetch : FetchState) (Hfetch : answers fetch).

Lemma soft_create : soft (room_create_event fetch).
Proof.
  unfold room_create_event. specialize (Hfetch ROOM_CREATE ""%string). destruct (fetch _ _); simpl; [done| |done].
  by rewrite Hfetch.
Qed.
Lemma soft_user_membership u : soft (user_membership fetch u).
Proof.
  unfold user_membership. specialize (Hfetch ROOM_MEMBER u). destruct (fetch _ _); simpl; [soften| |done].
  by rewrite Hfetch.
Qed.
Lemma soft_power_levels : soft (room_power_levels_event fetch).
Proof.
  unfold room_power_levels_event. specialize (Hfetch ROOM_POWER_LEVELS ""%string).
  destruct (fetch _ _); simpl; [done| |done]. by rewrite Hfetch.
Qed.
Lemma soft_join_rule : soft (room_join_rule fetch).
Proof.
  unfold room_join_rule. specialize (Hfetch ROOM_JOIN_RULES ""%string).
  destruct (fetch _ _); simpl; [unfold join_rule; soften| |done]. by rewrite Hfetch.
Qed.
Lemma soft_room_third_party t : soft (room_third_party_invite_event fetch t).
Proof.
  unfold room_third_party_invite_event. specialize (Hfetch ROOM_THIRD_PARTY_INVITE t).
  destruct (fetch _ _); simpl; [done| |done]. by rewrite Hfetch.
Qed.
Hint Resolve soft_create soft_user_membership soft_power_levels soft_join_rule soft_room_third_party : soft.

Lemma soft_check_signatures keys json l : soft (check_signatures keys json l).
Proof. induction l as [|[? ?] l IH]; cbn [check_signatures]; soften. Qed.
Hint Resolve soft_check_signatures : soft.

Lemma soft_check_room_member ev rules create : soft (check_room_member ev rules create fetch).
Proof.
  unfold check_room_member, check_room_member_join, check_room_member_invite, check_third_party_invite,
    check_room_member_leave, check_room_member_ban, check_room_member_knock. soften.
Qed.

Lemma soft_check_keys current new sl reject msg keys :
  soft (check_power_level_keys current new sl reject msg keys).
Proof. induction keys; cbn [check_power_level_keys]; soften. Qed.
Lemma soft_check_int_fields current nf rules sl fields :
  soft (check_int_fields current nf rules sl fields).
Proof. induction fields; cbn [check_int_fields]; soften. Qed.
Hint Resolve soft_check_room_member soft_check_keys soft_check_int_fields : soft.

Lemma soft_check_room_power_levels ev current rules sl cs :
  soft (check_room_power_levels ev current rules sl cs).
Proof.
  unfold check_room_power_levels, check_power_level_maps, int_fields_map, events, notifications, users. soften.
Qed.
Hint Resolve soft_check_room_power_levels : soft.

(** The state-dependent rules allow or deny. *)
Lemma soft_dependent_rules rules ev : soft (check_state_dependent_auth_rules rules ev fetch).
Proof. unfold check_state_dependent_auth_rules, check_room_redaction. soften. Qed.

End Rules.
