(* ===== verification/TopologicalSort.v ===== *)
(** * TopologicalSort: reverse topological power ordering
      (src/service/rooms/state_res/topological_sort.rs)

    The graph is a map from an event to the events it references; the hash
    map's iteration order is the order of the list of entries the sort is
    given, so a theorem that holds for every order of that list holds for every
    hash seed.  [with_capacity] hints are left out. *)

From S2P Require Import Prelude Json Order CoreError RoomEvents SampleRoom.

(** [HashMap<OwnedEventId, ReferencedIds>] *)
Notation Graph := (gmap string (list string)).

Section Sort.
Context `{Ruma}.

(** [struct TieBreaker] *)
Record TieBreaker := mkTie {
  tb_event_id : string;
  tb_power_level : UserPowerLevel;
  tb_origin_server_ts : Z
}.

(** [Ord for TieBreaker]: the power level is compared backwards. *)
Definition tie_cmp : TieBreaker → TieBreaker → comparison :=
  cmp_then (cmp_rev (cmp_on tb_power_level level_cmp))
    (cmp_then (cmp_on tb_origin_server_ts Z.compare) (cmp_on tb_event_id String.compare)).

Definition Query : Type := string → Res (UserPowerLevel * Z).

(** The closure wrapped around [query]. *)
Definition tie_query (query : Query) (event_id : string) : Res TieBreaker :=
  info ← query event_id;
  let '(power_level, origin_server_ts) := info in
  Ok (mkTie event_id power_level origin_server_ts).

(** The fold that builds [incoming]. *)
Definition add_incoming (incoming : Graph) (edge : string * string) : Graph :=
  let '(event_id, reference) := edge in
  let references := default [] (incoming !! reference) in
  <[reference := if bool_decide (event_id ∈ references) then references
                 else references ++ [event_id]]> incoming.

Definition incoming_edges (entries : list (string * list string)) : Graph :=
  foldl add_incoming ∅
    (entries ≫= λ entry, (λ reference, (entry.1, reference)) <$> entry.2).

(** [references.iter().any(|reference| graph.contains_key(reference))] *)
Definition has_present_reference (graph : Graph) (references : list string) : bool :=
  existsb (λ reference, bool_decide (is_Some (graph !! reference))) references.

(** The heap of events without a present reference, in iteration order. *)
Fixpoint horizon (query : Query) (graph : Graph) (entries : list (string * list string))
  : Res (list TieBreaker) :=
  match entries with
  | [] => Ok []
  | (event_id, references) :: rest =>
      if has_present_reference graph references then horizon query graph rest
      else
        tie ← tie_query query event_id;
        ties ← horizon query graph rest;
        Ok (tie :: ties)
  end.

(** The fold over the events that reference the popped one. *)
Fixpoint release (query : Query) (event_id : string) (parents : list string)
    (heap : list TieBreaker) (graph : Graph) : Res (list TieBreaker * Graph) :=
  match parents with
  | [] => Ok (heap, graph)
  | parent_id :: rest =>
      references ← expect (graph !! parent_id);
      let graph := <[parent_id := filter (λ r, r ≠ event_id) references]> graph in
      references ← expect (graph !! parent_id);
      if negb (has_present_reference graph references) then
        tie ← tie_query query parent_id;
        release query event_id rest (tie :: heap) graph
      else release query event_id rest heap graph
  end.

(** [kahn_sort]: one turn pops one event.  Running out of fuel aborts; the
    number of events is always enough. *)
Fixpoint kahn_sort (fuel : nat) (query : Query) (incoming : Graph) (heap : list TieBreaker)
    (graph : Graph) : Res (list string) :=
  match pop_min tie_cmp heap with
  | None => Ok []
  | Some (item, heap) =>
      match fuel with
      | O => Panic
      | S fuel =>
          let parents := default [] (incoming !! tb_event_id item) in
          state ← release query (tb_event_id item) parents heap graph;
          let '(heap, graph) := state in
          rest ← kahn_sort fuel query incoming heap graph;
          Ok (tb_event_id item :: rest)
      end
  end.

(** [topological_sort] on the graph whose entries iterate as [entries]. *)
Definition topological_sort (entries : list (string * list string)) (query : Query)
  : Res (list string) :=
  let graph := list_to_map entries in
  let incoming := incoming_edges entries in
  heap ← horizon query graph entries;
  kahn_sort (length entries) query incoming heap graph.

(** [is_topologically_sorted]: the set of events seen so far is a list. *)
Fixpoint sorted_from (graph : Graph) (seen order : list string) : bool :=
  match order with
  | [] => true
  | event_id :: rest =>
      let satisfied :=
        forallb (λ reference, bool_decide (reference ∈ seen))
          (filter (λ reference, is_Some (graph !! reference)) (default [] (graph !! event_id))) in
      if satisfied then sorted_from graph (event_id :: seen) rest else false
  end.

Definition is_topologically_sorted (order : list string) (graph : Graph) : bool :=
  sorted_from graph [] order.

(** [is_topologically_sorted_in_place] *)
Fixpoint sorted_suffixes {T} (id : T → string) (references : T → list string) (items : list T)
  : bool :=
  match items with
  | [] => true
  | item :: rest =>
      forallb (λ reference, forallb (λ other, negb (bool_decide (id other = reference))) items)
        (references item) && sorted_suffixes id references rest
  end.

Definition is_topologically_sorted_in_place {T} (items : list T) (id : T → string)
    (references : T → list string) : bool :=
  if bool_decide (length items < 2)%nat then true else sorted_suffixes id references items.

End Sort.

(** ** Lawful tie-breaking *)

Section Ties.
Context `{Ruma}.

#[global] Instance level_order_lawful : LawfulCmp level_order.
Proof.
  split; [apply level_order_opp|]. unfold cmp_le. intros [|x] [|y] [|z]; simpl; try done.
  apply (cmp_trans (cmp := Z.compare)).
Qed.

#[global] Instance level_cmp_lawful : LawfulCmp level_cmp.
Proof.
  split.
  - intros a b. rewrite !level_cmp_documented. apply cmp_opp.
  - unfold cmp_le. intros a b c. rewrite !level_cmp_documented. apply (cmp_trans (cmp := level_order)).
Qed.

#[global] Instance tie_cmp_lawful : LawfulCmp tie_cmp.
Proof. unfold tie_cmp. apply _. Qed.

Lemma tie_cmp_eq a b : tie_cmp a b = Eq → tb_event_id a = tb_event_id b.
Proof.
  unfold tie_cmp, cmp_then, cmp_on, cmp_rev.
  destruct (level_cmp _ _); [|done..]. destruct (Z.compare _ _); [|done..]. apply string_cmp_eq.
Qed.

End Ties.

(** ** The edges into an event *)

Lemma add_incoming_spec incoming p r k q :
  (q ∈ default [] (add_incoming incoming (p, r) !! k) ↔
     q ∈ default [] (incoming !! k) ∨ q = p ∧ k = r) ∧
  (NoDup (default [] (incoming !! k)) → NoDup (default [] (add_incoming incoming (p, r) !! k))).
Proof.
  unfold add_incoming. destruct (decide (k = r)) as [->|Hne].
  - rewrite lookup_insert_eq. simpl. case_bool_decide as Hin.
    + split; [|done]. naive_solver.
    + rewrite elem_of_app, list_elem_of_singleton. split; [naive_solver|]. intros Hnd.
      apply NoDup_app. split_and!; [done| |apply NoDup_singleton]. by intros x Hx ->%list_elem_of_singleton.
  - rewrite lookup_insert_ne by done. naive_solver.
Qed.

Lemma incoming_fold_spec edges acc k :
  NoDup (default [] (acc !! k)) →
  (∀ q, q ∈ default [] (foldl add_incoming acc edges !! k) ↔
     q ∈ default [] (acc !! k) ∨ (q, k) ∈ edges) ∧
  NoDup (default [] (foldl add_incoming acc edges !! k)).
Proof.
  revert acc. induction edges as [|[p r] edges IH]; intros acc Hnd; cbn [foldl].
  { split; [|done]. intros q. rewrite elem_of_nil. tauto. }
  pose proof (λ q, add_incoming_spec acc p r k q) as Hadd.
  destruct (IH (add_incoming acc (p, r))) as [Hin Hnd']; [by apply Hadd|].
  split; [|done]. intros q. rewrite Hin, (proj1 (Hadd q)), elem_of_cons. naive_solver.
Qed.

Lemma incoming_edges_spec entries k :
  (∀ p, p ∈ default [] (incoming_edges entries !! k) ↔ ∃ refs, (p, refs) ∈ entries ∧ k ∈ refs) ∧
  NoDup (default [] (incoming_edges entries !! k)).
Proof.
  unfold incoming_edges. destruct (incoming_fold_spec
    (entries ≫= λ entry, (λ reference, (entry.1, reference)) <$> entry.2) ∅ k) as [Hin Hnd].
  { rewrite lookup_empty. constructor. }
  split; [|done]. intros p. rewrite Hin, lookup_empty. simpl. rewrite elem_of_nil, list_elem_of_bind.
  split.
  - intros [[]|((e & refs) & (r & Heq & Hr)%list_elem_of_fmap & He)]. simpl in *. naive_solver.
  - intros (refs & He & Hk). right. exists (p, refs). split; [|done]. apply list_elem_of_fmap. by exists k.
Qed.

(** ** Kahn's algorithm *)

Section Kahn.
Context `{Ruma}.
Context (entries : list (string * list string)) (query : Query) (info : string → UserPowerLevel * Z).
Context (Hkeys : NoDup entries.*1).
Context (Hquery : ∀ e, e ∈ entries.*1 → query e = Ok (info e)).

Definition graph0 : Graph := list_to_map entries.

Definition refs (e : string) : list string := default [] (graph0 !! e).

(** The position of an event in the tie-breaking order. *)
Definition tie (e : string) : TieBreaker := mkTie e (info e).1 (info e).2.

(** The references of [e] that are events of the graph. *)
Definition depends (e r : string) : Prop := r ∈ refs e ∧ is_Some (graph0 !! r).

(** An event that may come next after [em]. *)
Definition ready (em : list string) (e : string) : Prop :=
  is_Some (graph0 !! e) ∧ e ∉ em ∧ ∀ r, depends e r → r ∈ em.

Lemma graph0_lookup e refs : graph0 !! e = Some refs ↔ (e, refs) ∈ entries.
Proof. symmetry. apply elem_of_list_to_map. done. Qed.

Lemma graph0_keys e : is_Some (graph0 !! e) ↔ e ∈ entries.*1.
Proof.
  rewrite list_elem_of_fmap. split.
  - intros [rs Hrs%graph0_lookup]. by exists (e, rs).
  - intros ([e' rs] & -> & Hin%graph0_lookup). by eexists.
Qed.

Lemma tie_query_Ok e : is_Some (graph0 !! e) → tie_query query e = Ok (tie e).
Proof.
  intros He. unfold tie_query, tie. rewrite Hquery by by apply graph0_keys.
  rewrite bind_Ok. by destruct (info e).
Qed.

(** What the loop keeps: the graph holds the references not yet emitted, and
    the heap holds exactly the events that are ready. *)
Definition residual (g : Graph) (keep : string → string → Prop) `{∀ e r, Decision (keep e r)} : Prop :=
  ∀ e, g !! e = filter (keep e) <$> graph0 !! e.

Definition heap_is (heap : list TieBreaker) (P : string → Prop) : Prop :=
  NoDup (tb_event_id <$> heap) ∧ (∀ e, e ∈ tb_event_id <$> heap ↔ P e) ∧
  Forall (λ t, t = tie (tb_event_id t)) heap.

Lemma heap_is_ext heap P Q : (∀ e, P e ↔ Q e) → heap_is heap P → heap_is heap Q.
Proof. intros HPQ (Hnd & Hin & Hf). split_and!; [done| |done]. intros e. by rewrite Hin. Qed.

Lemma heap_is_push heap P e :
  ¬ P e → heap_is heap P → heap_is (tie e :: heap) (λ x, x = e ∨ P x).
Proof.
  intros Hn (Hnd & Hin & Hf). split_and!.
  - cbn. constructor; [by rewrite Hin|done].
  - intros x. cbn. rewrite elem_of_cons, Hin. done.
  - by constructor.
Qed.

Lemma has_present_residual g keep `{∀ e r, Decision (keep e r)} l :
  residual g keep → has_present_reference g l = true ↔ ∃ r, r ∈ l ∧ is_Some (graph0 !! r).
Proof.
  intros Hg. unfold has_present_reference. rewrite List.existsb_exists.
  split; intros (r & Hr & Hs); exists r.
  - split; [by apply list_elem_of_In|]. apply bool_decide_eq_true in Hs. rewrite Hg in Hs.
    by apply fmap_is_Some in Hs.
  - split; [by apply list_elem_of_In|]. apply bool_decide_eq_true. rewrite Hg. by apply fmap_is_Some.
Qed.

(** What is ready once [E] is emitted and the parents other than [todo] have
    been told. *)
Definition ready_but (em : list string) (E : string) (todo : list string) (e : string) : Prop :=
  is_Some (graph0 !! e) ∧ e ∉ em ∧ e ≠ E ∧ ∀ r, depends e r → r ∈ em ∨ r = E ∧ e ∉ todo.

Definition keep_but (em : list string) (E : string) (todo : list string) (e r : string) : Prop :=
  r ∉ em ∧ (r = E → e ∈ todo).

#[local] Instance keep_but_dec em E todo e r : Decision (keep_but em E todo e r).
Proof. unfold keep_but. apply _. Defined.

Lemma release_spec em E todo heap g :
  ready em E → (∀ e, e ∈ em → ∀ r, depends e r → r ∈ em) →
  NoDup todo → (∀ p, p ∈ todo → is_Some (graph0 !! p) ∧ E ∈ refs p) →
  residual g (keep_but em E todo) → heap_is heap (ready_but em E todo) →
  ∃ heap' g', release query E todo heap g = Ok (heap', g') ∧
    residual g' (keep_but em E []) ∧ heap_is heap' (ready_but em E []).
Proof.
  intros HE Hclosed Hnd. revert heap g. induction Hnd as [|p todo Hp Hnd IH]; intros heap g Htodo Hg Hh.
  { by exists heap, g. }
  destruct (Htodo p (list_elem_of_here _ _)) as [[rs Hrs] HEp].
  assert (HEdep : depends p E) by (split; [done|apply HE]).
  assert (HEm : E ∉ em) by apply HE.
  assert (HpE : p ≠ E) by (intros ->; apply HEm, HE, HEdep).
  assert (Hpm : p ∉ em) by (intros Hpm; by apply HEm, (Hclosed p)).
  cbn [release]. rewrite Hg, Hrs. cbn [expect fmap option_fmap option_map]. rewrite bind_Ok.
  rewrite lookup_insert_eq. cbn [expect]. rewrite bind_Ok.
  set (g' := <[p := _]> g).
  assert (Hg' : residual g' (keep_but em E todo)).
  { intros e. unfold g'. destruct (decide (e = p)) as [->|Hne].
    - rewrite lookup_insert_eq, Hrs. cbn. f_equal. rewrite list_filter_filter.
      apply list_filter_iff. intros r. unfold keep_but. rewrite elem_of_cons. naive_solver.
    - rewrite lookup_insert_ne, Hg by done. destruct (graph0 !! e); [|done]. cbn. f_equal.
      apply list_filter_iff. intros r. unfold keep_but. rewrite elem_of_cons. naive_solver. }
  assert (Hother : ∀ e, e ≠ p → ready_but em E (p :: todo) e ↔ ready_but em E todo e).
  { intros e Hne. unfold ready_but. setoid_rewrite elem_of_cons. naive_solver. }
  assert (Hnot : ¬ ready_but em E (p :: todo) p).
  { intros (_ & _ & _ & Hall). destruct (Hall E HEdep) as [|[_ Hn]]; [done|]. apply Hn. left. }
  assert (Hpres : has_present_reference g' (filter (λ r, r ≠ E) (filter (keep_but em E (p :: todo) p) rs)) = false
    ↔ ready_but em E todo p).
  { rewrite <- not_true_iff_false, (has_present_residual g' _ _ Hg').
    unfold ready_but, depends, refs. rewrite Hrs. simpl. split.
    - intros Hno. split_and!; [done|done|done|]. intros r [Hr Hpr].
      destruct (decide (r ∈ em)) as [|Hrm]; [by left|]. right.
      destruct (decide (r = E)) as [->|Hne]; [done|]. exfalso. apply Hno. exists r. split; [|done].
      rewrite !list_elem_of_filter. unfold keep_but. naive_solver.
    - intros (_ & _ & _ & Hall) (r & Hr & Hpr). rewrite !list_elem_of_filter in Hr.
      destruct Hr as (Hne & [Hrm _] & Hr). destruct (Hall r (conj Hr Hpr)); naive_solver. }
  assert (Htodo' : ∀ q, q ∈ todo → is_Some (graph0 !! q) ∧ E ∈ refs q)
    by (intros q Hq; apply Htodo; by right).
  destruct (has_present_reference g' _) eqn:Hb; cbn [negb].
  - apply IH; [done|done|]. apply (heap_is_ext heap (ready_but em E (p :: todo))); [|done].
    intros e. destruct (decide (e = p)) as [->|]; [|by apply Hother].
    split; [done|]. intros Hr%Hpres. done.
  - rewrite tie_query_Ok, bind_Ok by done. apply IH; [done|done|].
    apply (heap_is_ext _ (λ x, x = p ∨ ready_but em E (p :: todo) x)); [|by apply heap_is_push].
    intros e. destruct (decide (e = p)) as [->|]; [|rewrite Hother by done; naive_solver].
    split; [|by left]. intros _. by apply Hpres.
Qed.

(** The order the specification describes: at each step the smallest event
    all of whose references have been placed, until none is left. *)
Inductive greedy (em : list string) : list string → Prop :=
| greedy_done : (∀ e, ¬ ready em e) → greedy em []
| greedy_step e rest :
    ready em e → (∀ e', ready em e' → cmp_le tie_cmp (tie e) (tie e')) →
    greedy (em ++ [e]) rest → greedy em (e :: rest).

Definition keep_new (em : list string) (e r : string) : Prop := r ∉ em.

#[local] Instance keep_new_dec em e r : Decision (keep_new em e r).
Proof. unfold keep_new. apply _. Defined.

Lemma parents_spec E :
  (∀ p, p ∈ default [] (incoming_edges entries !! E) ↔ is_Some (graph0 !! p) ∧ E ∈ refs p) ∧
  NoDup (default [] (incoming_edges entries !! E)).
Proof.
  destruct (incoming_edges_spec entries E) as [Hin Hnd]. split; [|done]. intros p. rewrite Hin.
  unfold refs. split.
  - intros (rs & Hrs%graph0_lookup & HE). by rewrite Hrs.
  - intros [[rs Hrs] HE]. rewrite Hrs in HE. exists rs. split; [by apply graph0_lookup|done].
Qed.

Lemma ready_bound em e : NoDup em → (∀ x, x ∈ em → x ∈ entries.*1) → ready em e →
  (length em < length entries)%nat.
Proof.
  intros Hnd Hsub [He [Hn _]]. rewrite <- (length_fmap fst entries).
  assert (Hlt : (length (e :: em) ≤ length entries.*1)%nat); [|simpl in Hlt; lia].
  apply submseteq_length, NoDup_submseteq; [by constructor|].
  intros x [->|Hx]%elem_of_cons; [by apply graph0_keys|by apply Hsub].
Qed.

Lemma kahn_spec fuel em heap g :
  (length entries ≤ length em + fuel)%nat → NoDup em → (∀ x, x ∈ em → x ∈ entries.*1) →
  (∀ e, e ∈ em → ∀ r, depends e r → r ∈ em) →
  residual g (keep_new em) → heap_is heap (ready em) →
  ∃ order, kahn_sort fuel query (incoming_edges entries) heap g = Ok order ∧ greedy em order.
Proof.
  revert em heap g. induction fuel as [|fuel IH]; intros em heap g Hfuel Hnd Hsub Hclosed Hg Hh.
  all: cbn [kahn_sort]; destruct (pop_min tie_cmp heap) as [[item heap1]|] eqn:Hpop.
  2,4: destruct heap; [|done]; exists []; split; [done|]; constructor; intros e He;
    destruct Hh as (_ & Hin & _); apply Hin in He; by apply elem_of_nil in He.
  all: apply pop_min_Some in Hpop as [Hperm Hmin]; [|apply _].
  all: destruct Hh as (Hhnd & Hin & Hties).
  all: assert (HE : ready em (tb_event_id item))
    by (apply Hin; rewrite Hperm; cbn; rewrite elem_of_cons; by left).
  { pose proof (ready_bound em _ Hnd Hsub HE). lia. }
  set (E := tb_event_id item) in *.
  destruct (parents_spec E) as [Hpar Hpnd]. set (parents := default [] _) in *.
  assert (Hitem : item = tie E).
  { rewrite Hperm in Hties. by apply Forall_cons in Hties as [? _]. }
  rewrite Hperm in Hhnd, Hties. cbn in Hhnd. apply NoDup_cons in Hhnd as [HEn Hhnd].
  apply Forall_cons in Hties as [_ Hties].
  assert (Hin1 : ∀ e, e ∈ tb_event_id <$> heap1 ↔ ready em e ∧ e ≠ E).
  { intros e. rewrite <- Hin, Hperm. cbn. rewrite elem_of_cons. fold E. naive_solver. }
  destruct (release_spec em E parents heap1 g) as (heap2 & g2 & Hrel & Hg2 & Hh2); try done.
  { intros p Hp. by apply Hpar. }
  { intros e. rewrite Hg. destruct (graph0 !! e) as [rs|] eqn:Hrs; [|done]. cbn. f_equal.
    apply filter_ext_in. intros r Hr. unfold keep_new, keep_but. split; [|naive_solver].
    intros Hn. split; [done|]. intros ->. apply Hpar. unfold refs. by rewrite Hrs. }
  { split_and!; [done| |done]. intros e. rewrite Hin1. unfold ready, ready_but. split.
    - intros [(H1 & H2 & H3) H4]. split_and!; try done. intros r Hr. left. by apply H3.
    - intros (H1 & H2 & H4 & H3). split_and!; try done. intros r Hr.
      destruct (H3 r Hr) as [|[-> Hn]]; [done|]. destruct Hn. apply Hpar. split; [done|apply Hr]. }
  rewrite Hrel, bind_Ok.
  destruct (IH (em ++ [E]) heap2 g2) as (order & Hok & Hgr).
  - rewrite length_app. simpl. lia.
  - apply NoDup_app. split_and!; [done| |apply NoDup_singleton].
    intros x Hx ->%list_elem_of_singleton. by apply HE.
  - intros x [Hx| ->%list_elem_of_singleton]%elem_of_app; [by apply Hsub|]. apply graph0_keys, HE.
  - intros e [He| ->%list_elem_of_singleton]%elem_of_app r Hr; apply elem_of_app; left;
      [by apply (Hclosed e)|by apply HE].
  - intros e. rewrite Hg2. destruct (graph0 !! e); [|done]. cbn. f_equal. apply list_filter_iff.
    intros r. unfold keep_but, keep_new. rewrite elem_of_app, list_elem_of_singleton, elem_of_nil. naive_solver.
  - apply (heap_is_ext heap2 (ready_but em E [])); [|done]. intros e. unfold ready_but, ready.
    rewrite elem_of_app, list_elem_of_singleton. setoid_rewrite elem_of_app.
    setoid_rewrite list_elem_of_singleton. setoid_rewrite elem_of_nil. naive_solver.
  - exists (E :: order). rewrite Hok. split; [done|]. constructor; [done| |done].
    intros e' He'%Hin. rewrite <- Hitem. apply list_elem_of_fmap in He' as (t & -> & Ht).
    pose proof (proj1 (Forall_forall _ _) Hmin t Ht) as Hle.
    rewrite Hperm, elem_of_cons in Ht. destruct Ht as [->|Ht]; [fold E; by rewrite <- Hitem|].
    pose proof (proj1 (Forall_forall _ _) Hties t Ht) as Htie. simpl in Htie. by rewrite <- Htie.
Qed.

Lemma horizon_spec es :
  (∀ x, x ∈ es → x ∈ entries) → NoDup es.*1 →
  ∃ heap, horizon query graph0 es = Ok heap ∧
    heap_is heap (λ e, e ∈ es.*1 ∧ ready [] e).
Proof.
  induction es as [|[e rs] es IH]; intros Hsub Hnd.
  { exists []. split; [done|]. split_and!; [constructor| |done].
    intros e. cbn. rewrite !elem_of_nil. tauto. }
  cbn in Hnd. apply NoDup_cons in Hnd as [Hn Hnd].
  destruct IH as (heap & Hok & Hh); [intros x Hx; apply Hsub; by right|done|].
  assert (He : graph0 !! e = Some rs) by (apply graph0_lookup, Hsub; left).
  assert (Hres : residual graph0 (λ _ _, True)).
  { intros x. destruct (graph0 !! x) as [l|]; [|done]. cbn. f_equal. symmetry. by apply filter_all. }
  assert (Hready : ready [] e ↔ has_present_reference graph0 rs = false).
  { rewrite <- not_true_iff_false, (has_present_residual graph0 _ rs Hres).
    unfold ready, depends, refs. rewrite He. simpl. setoid_rewrite elem_of_nil. naive_solver. }
  cbn [horizon]. destruct (has_present_reference graph0 rs).
  - exists heap. split; [done|].
    refine (heap_is_ext heap _ _ _ Hh). intros x. cbn. rewrite elem_of_cons.
    split; [naive_solver|]. intros [[->|Hx] Hr]; [|done]. by apply Hready in Hr.
  - rewrite tie_query_Ok by by rewrite He. rewrite bind_Ok, Hok, bind_Ok.
    exists (tie e :: heap). split; [done|].
    refine (heap_is_ext _ _ _ _ (heap_is_push heap _ e _ Hh)); [|naive_solver].
    intros x. cbn. rewrite elem_of_cons. naive_solver.
Qed.

Lemma topological_sort_greedy :
  ∃ order, topological_sort entries query = Ok order ∧ greedy [] order.
Proof.
  unfold topological_sort. fold graph0.
  destruct (horizon_spec entries) as (heap & -> & Hh); [done|done|]. rewrite bind_Ok.
  apply (kahn_spec _ [] heap graph0); [done|constructor|by intros x ?%elem_of_nil..| |].
  - intros e. destruct (graph0 !! e); [|done]. cbn. f_equal. symmetry. apply filter_all.
    intros r _. apply not_elem_of_nil.
  - refine (heap_is_ext heap _ _ _ Hh). intros e. split; [naive_solver|].
    intros He. split; [|done]. apply graph0_keys, He.
Qed.

End Kahn.

(** ** The specification's order *)

Section Spec.
Context `{Ruma} (entries : list (string * list string)) (info : string → UserPowerLevel * Z).

#[local] Notation graph0 := (graph0 entries).
#[local] Notation depends := (depends entries).
#[local] Notation ready := (ready entries).
#[local] Notation tie := (tie info).
#[local] Notation greedy := (greedy entries info).

(** An ordering of all events in which references come first. *)
Definition topological_order (order : list string) : Prop :=
  order ≡ₚ entries.*1 ∧ ∀ i e, order !! i = Some e → ∀ r, depends e r → r ∈ take i order.

(** [a] is at or before [b], comparing event by event. *)
Fixpoint lex_before (a b : list string) : Prop :=
  match a, b with
  | [], _ => True
  | _ :: _, [] => False
  | x :: a, y :: b => tie_cmp (tie x) (tie y) = Lt ∨ x = y ∧ lex_before a b
  end.

(** No event depends on itself, directly or through others. *)
Definition acyclic : Prop := ∃ rank : string → nat, ∀ e r, depends e r → (rank r < rank e)%nat.

Lemma greedy_unique em o1 o2 : greedy em o1 → greedy em o2 → o1 = o2.
Proof.
  intros H1. revert o2. induction H1 as [em Hno|em e rest Hr Hmin _ IH]; intros o2 H2.
  - destruct H2 as [|e rest Hr]; [done|]. by apply Hno in Hr.
  - destruct H2 as [Hno|e' rest' Hr' Hmin' Hg']; [by apply Hno in Hr|].
    assert (e = e') as <-; [|f_equal; by apply IH].
    apply (tie_cmp_eq (tie e) (tie e')), cmp_le_antisym; [apply _|by apply Hmin|by apply Hmin'].
Qed.

(** In an acyclic graph something is ready until everything is placed. *)
Lemma ready_exists em e :
  acyclic → is_Some (graph0 !! e) → e ∉ em → ∃ x, ready em x.
Proof.
  intros [rank Hrank]. remember (rank e) as n eqn:Hn. revert e Hn.
  induction (lt_wf n) as [n _ IH]. intros e -> He Hnin.
  destruct (decide (Forall (λ r, is_Some (graph0 !! r) → r ∈ em) (refs entries e))) as [Hall|Hex].
  - exists e. split_and!; [done|done|]. intros r [Hr Hp].
    by apply (proj1 (Forall_forall _ _) Hall r Hr).
  - apply not_Forall_Exists, Exists_exists in Hex as (r & Hr & Hnr); [|apply _].
    assert (Hp : is_Some (graph0 !! r)).
    { apply dec_stable. intros Hnp. apply Hnr. intros Hp. by destruct Hnp. }
    apply (IH (rank r)) with (e := r); [apply Hrank; by split|done|done|].
    intros Hin. by apply Hnr.
Qed.

Lemma greedy_topological em o :
  acyclic → NoDup entries.*1 → greedy em o →
  NoDup em → (∀ x, x ∈ em → x ∈ entries.*1) →
  (∀ i e, em !! i = Some e → ∀ r, depends e r → r ∈ take i em) →
  topological_order (em ++ o).
Proof.
  intros Hac Hkeys Hg. induction Hg as [em Hno|em e rest Hr _ _ IH]; intros Hnd Hsub Hdep.
  - rewrite app_nil_r. split; [|done]. apply NoDup_Permutation; [done|done|].
    intros x. split; [by apply Hsub|]. intros Hx. destruct (decide (x ∈ em)) as [|Hn]; [done|].
    destruct (ready_exists em x Hac) as [y Hy]; [by apply graph0_keys|done|]. by apply Hno in Hy.
  - rewrite cons_middle, app_assoc. apply IH.
    + apply NoDup_app. split_and!; [done| |apply NoDup_singleton].
      intros x Hx ->%list_elem_of_singleton. by apply Hr.
    + intros x [Hx| ->%list_elem_of_singleton]%elem_of_app; [by apply Hsub|]. by apply graph0_keys, Hr.
    + intros i x [Hi|[Hlen Hi]]%lookup_app_Some r Hdr.
      * rewrite take_app_le by (apply lookup_lt_Some in Hi; lia). by apply (Hdep i x).
      * apply list_lookup_singleton_Some in Hi as [Hi <-]. rewrite take_app_ge by lia.
        apply elem_of_app. left. by apply Hr.
Qed.

Lemma greedy_least em o o' :
  NoDup entries.*1 → greedy em o → topological_order (em ++ o') → lex_before o o'.
Proof.
  intros Hkeys Hg. revert o'. induction Hg as [em Hno|em e rest Hr Hmin _ IH]; intros o' [Hp Hd]; [done|].
  destruct o' as [|e' o'].
  { destruct Hr as (He & Hn & _). rewrite app_nil_r in Hp. apply graph0_keys in He; [|done].
    by rewrite <- Hp in He. }
  simpl. assert (He' : ready em e').
  { assert (Hnd : NoDup (em ++ e' :: o')) by by rewrite Hp.
    split_and!.
    - apply graph0_keys; [done|]. rewrite <- Hp. apply elem_of_app. right. left.
    - apply NoDup_app in Hnd as (_ & Hdis & _). intros Hin. apply (Hdis e' Hin). left.
    - intros r Hdr. specialize (Hd (length em) e'). rewrite list_lookup_middle in Hd by done.
      specialize (Hd eq_refl r Hdr). by rewrite take_app_length in Hd. }
  destruct (decide (e = e')) as [<-|Hne].
  - right. split; [done|]. apply IH. by rewrite <- app_assoc.
  - left. pose proof (Hmin e' He') as Hle. unfold cmp_le in Hle.
    destruct (tie_cmp (tie e) (tie e')) eqn:Hc; [|done|done].
    by apply (tie_cmp_eq (tie e) (tie e')) in Hc.
Qed.

End Spec.

Lemma greedy_perm `{Ruma} entries entries' info em o :
  NoDup entries.*1 → entries' ≡ₚ entries → greedy entries' info em o → greedy entries info em o.
Proof.
  intros Hnd Hp.
  assert (Hg : graph0 entries' = graph0 entries).
  { unfold graph0. apply list_to_map_proper; [by rewrite Hp|done]. }
  assert (Hr : ∀ em e, ready entries' em e ↔ ready entries em e).
  { intros em' e. unfold ready, depends, refs. by rewrite Hg. }
  induction 1 as [em' Hno|em' e rest Hre Hmin _ IH].
  - constructor. intros e. by rewrite <- Hr.
  - constructor; [by apply Hr| |done]. intros e' He'%Hr. by apply Hmin.
Qed.

Lemma topological_sort_spec `{Ruma} entries (info : string → UserPowerLevel * Z) :
  NoDup entries.*1 → acyclic entries →
  ∃ order,
    (∀ entries' query, entries' ≡ₚ entries → (∀ e, e ∈ entries.*1 → query e = Ok (info e)) →
       topological_sort entries' query = Ok order) ∧
    topological_order entries order ∧
    ∀ order', topological_order entries order' → lex_before info order order'.
Proof.
  intros Hkeys Hacyclic.
  destruct (topological_sort_greedy entries (λ e, Ok (info e)) info Hkeys) as (order & _ & Hg); [done|].
  exists order. split_and!.
  - intros entries' query Hp Hquery.
    destruct (topological_sort_greedy entries' query info) as (order' & -> & Hg').
    + by rewrite Hp.
    + intros e. rewrite Hp. apply Hquery.
    + f_equal. apply (greedy_unique entries info []); [|done]. by apply (greedy_perm entries entries').
  - apply (greedy_topological entries info [] order); try done; [constructor|by intros x ?%elem_of_nil].
  - intros order' Ho. by apply (greedy_least entries info [] order).
Qed.

(** C7: on an acyclic graph whose events can be queried, [topological_sort]
    returns, whatever order the hash map iterates in, one and the same list: an
    ordering of all the events in which every event comes after the events it
    references, and lexicographically the smallest such ordering under the
    tie-breaking order of power level, timestamp and event id. *)
Theorem topological_sort_correct `{Ruma} (entries : list (string * list string)) (query : Query)
    (info : string → UserPowerLevel * Z)
    (Hkeys : NoDup entries.*1)
    (Hquery : ∀ e, e ∈ entries.*1 → query e = Ok (info e))
    (Hacyclic : acyclic entries) :
  ∃ order,
    (∀ entries', entries' ≡ₚ entries → topological_sort entries' query = Ok order) ∧
    topological_order entries order ∧
    ∀ order', topological_order entries order' → lex_before info order order'.
Proof.
  destruct (topological_sort_spec entries info Hkeys Hacyclic) as (order & Hsort & Hrest).
  exists order. split; [|done]. intros entries' Hp. by apply Hsort.
Qed.

(** Two branches of a room and their merge, referring to one absent event. *)
Definition sample_graph : list (string * list string) :=
  [("$d", ["$b"; "$c"]); ("$b", ["$a"]); ("$c", ["$a"; "$gone"]); ("$a", [])]%string.

Definition sample_info (e : string) : UserPowerLevel * Z :=
  if bool_decide (e = "$c"%string) then (IntLevel 100, 7) else (IntLevel 50, 5).

Definition sample_rank (e : string) : nat :=
  if bool_decide (e = "$d"%string) then 2
  else if bool_decide (e = "$b"%string) then 1
  else if bool_decide (e = "$c"%string) then 1 else 0.

Lemma topological_sort_correct_witness :
  ∃ order,
    (∀ entries', entries' ≡ₚ sample_graph →
       topological_sort entries' (λ e, Ok (sample_info e)) = Ok order) ∧
    topological_order sample_graph order ∧
    ∀ order', topological_order sample_graph order' → lex_before sample_info order order'.
Proof.
  apply (topological_sort_correct sample_graph (λ e, Ok (sample_info e)) sample_info).
  - apply (bool_decide_unpack _). by vm_compute.
  - done.
  - exists sample_rank. intros e r [Hr Hp].
    assert (He : e ∈ sample_graph.*1).
    { unfold refs in Hr. apply graph0_keys; [apply (bool_decide_unpack _); by vm_compute|].
      destruct (graph0 sample_graph !! e); [done|]. by apply elem_of_nil in Hr. }
    simpl in He. rewrite !elem_of_cons, elem_of_nil in He.
    destruct He as [->|[->|[->|[->|[]]]]]; vm_compute in Hr;
      repeat (apply elem_of_cons in Hr as [->|Hr]; [try (vm_compute; lia); vm_compute in Hp; by destruct Hp|]);
      by apply elem_of_nil in Hr.
Defined.

(** ** Checking an order *)

Lemma sorted_from_iff (graph : Graph) seen order :
  sorted_from graph seen order = true ↔
  ∀ i e rs r, order !! i = Some e → graph !! e = Some rs → r ∈ rs → is_Some (graph !! r) →
    r ∈ seen ∨ r ∈ take i order.
Proof.
  revert seen. induction order as [|x order IH]; intros seen; cbn [sorted_from]; [done|].
  destruct (forallb _ _) eqn:Hsat.
  - rewrite IH. split.
    + intros Hall [|i] e rs r Hi Hrs Hr Hp.
      * injection Hi as <-. left. rewrite Hrs in Hsat. simpl in Hsat.
        apply (bool_decide_eq_true (r ∈ seen)). rewrite List.forallb_forall in Hsat. apply Hsat.
        apply list_elem_of_In, list_elem_of_filter. done.
      * simpl in *. destruct (Hall i e rs r Hi Hrs Hr Hp) as [[->|Hs]%elem_of_cons|Ht];
          rewrite elem_of_cons; tauto.
    + intros Hall i e rs r Hi Hrs Hr Hp. destruct (Hall (S i) e rs r Hi Hrs Hr Hp) as [Hs|Ht].
      * left. by right.
      * simpl in Ht. apply elem_of_cons in Ht as [->|Ht]; [left; left|by right].
  - split; [done|]. intros Hall. exfalso. apply not_true_iff_false in Hsat. apply Hsat.
    apply List.forallb_forall. intros r Hr%list_elem_of_In. apply list_elem_of_filter in Hr as [Hp Hr].
    destruct (graph !! x) as [rs|] eqn:Hx; [|by apply elem_of_nil in Hr]. simpl in Hr.
    destruct (Hall 0%nat x rs r eq_refl Hx Hr Hp) as [Hs|Ht]; [by apply bool_decide_eq_true|].
    by apply elem_of_nil in Ht.
Qed.

Lemma sorted_suffixes_iff {T} (id : T → string) (references : T → list string) items :
  sorted_suffixes id references items = true ↔
  ∀ i j x y, (i ≤ j)%nat → items !! i = Some x → items !! j = Some y → id y ∉ references x.
Proof.
  induction items as [|it items IH]; cbn [sorted_suffixes]; [split; [|done]; by intros _ i j x y _ Hi|].
  rewrite andb_true_iff, IH, List.forallb_forall. split.
  - intros [Hhd Htl] [|i] [|j] x y Hij Hi Hj Hin; try lia.
    1,2: simpl in Hi; injection Hi as ->; specialize (Hhd (id y) (proj1 (list_elem_of_In _ _) Hin));
      rewrite List.forallb_forall in Hhd; specialize (Hhd y);
      rewrite bool_decide_eq_true_2 in Hhd by done; cbn [negb] in Hhd;
      rewrite <- list_elem_of_In in Hhd; discriminate Hhd.
    + injection Hj as ->. left.
    + right. by apply (list_elem_of_lookup_2 _ j).
    + by apply (Htl i j x y); [lia|..].
  - intros Hall. split.
    + intros r Hr%list_elem_of_In. apply List.forallb_forall. intros y Hy%list_elem_of_In.
      apply negb_true_iff, bool_decide_eq_false. intros Heq. subst r.
      apply list_elem_of_lookup_1 in Hy as [j Hj]. by apply (Hall 0%nat j it y); [lia|..].
    + intros i j x y Hij Hi Hj. apply (Hall (S i) (S j) x y); [lia|done..].
Qed.

(** the two order checks decide what they document: [is_topologically_sorted]
    holds exactly when every event of the order comes after the events of the
    graph it references, [is_topologically_sorted_in_place] of two items or
    more exactly when no item references itself or a later item, and of fewer
    items always (a single item that references itself included). *)
Theorem topological_checks_exact {T} (id : T → string) (references : T → list string)
    (graph : Graph) (order : list string) (items : list T) :
  (is_topologically_sorted order graph = true ↔
     ∀ i e rs r, order !! i = Some e → graph !! e = Some rs → r ∈ rs → is_Some (graph !! r) →
       r ∈ take i order) ∧
  (is_topologically_sorted_in_place items id references = true ↔
     (length items < 2)%nat ∨
     ∀ i j x y, (i ≤ j)%nat → items !! i = Some x → items !! j = Some y → id y ∉ references x).
Proof.
  split.
  - unfold is_topologically_sorted. rewrite sorted_from_iff. setoid_rewrite elem_of_nil. naive_solver.
  - unfold is_topologically_sorted_in_place. case_bool_decide as Hl; [naive_solver|].
    rewrite sorted_suffixes_iff. naive_solver.
Qed.
