(* ===== verification/SplitConflicted.v ===== *)
(** * SplitConflicted: conflicted and unconflicted state, and the auth difference
      (src/service/rooms/state_res/resolve/split_conflicted.rs, auth_difference.rs
      and [AuthSet] of resolve.rs)

    State maps are maps from a (type, state key) pair to an event identifier.
    The occurrence tables are hash maps, read back in an arbitrary order.  The
    number of state maps is the length of a vector, which cannot overflow. *)

From stdpp Require Import sorting.
From S2P Require Import Prelude Json Order CoreError RoomEvents.

(** [StateMap<OwnedEventId>] and [ConflictMap<OwnedEventId>] *)
Notation StateMap := (gmap (string * string) string).
Notation ConflictMap := (gmap (string * string) (list string)).

(** [AuthSet]: distinct identifiers, in no particular order. *)
Notation AuthSet := (list string) (only parsing).

(** [FromIterator for AuthSet] *)
Definition AuthSet_from_iter (ids : list string) : AuthSet := dedup (str_sort ids).

Section Split.
Context `{Usize, HashOrder}.

(** [*occurrences.entry(k).or_default().entry(v).or_default() += 1], saturating. *)
Definition count_one (occurrences : gmap (string * string) (gmap string Z))
    (entry : (string * string) * string) : gmap (string * string) (gmap string Z) :=
  let '(k, v) := entry in
  let ids := default ∅ (occurrences !! k) in
  <[k := <[v := sat_add (default 0 (ids !! v)) 1]> ids]> occurrences.

Definition count_occurrences (state_maps : list StateMap)
  : gmap (string * string) (gmap string Z) :=
  foldl count_one ∅ (state_maps ≫= map_to_list).

(** The body of the inner loop; [debug] is the build's [debug_assertions]. *)
Definition place (debug : bool) (state_set_count : Z) (k : string * string)
    (acc : StateMap * ConflictMap) (entry : string * Z) : Res (StateMap * ConflictMap) :=
  let '(unconflicted, conflicted) := acc in
  let '(id, occurrence_count) := entry in
  if occurrence_count =? state_set_count then Ok (<[k := id]> unconflicted, conflicted)
  else
    let conflicts := default [] (conflicted !! k) in
    if debug && bool_decide (id ∈ conflicts) then Panic
    else Ok (unconflicted, <[k := conflicts ++ [id]]> conflicted).

Fixpoint place_ids (debug : bool) (state_set_count : Z) (k : string * string)
    (ids : list (string * Z)) (acc : StateMap * ConflictMap) : Res (StateMap * ConflictMap) :=
  match ids with
  | [] => Ok acc
  | entry :: rest =>
      acc ← place debug state_set_count k acc entry;
      place_ids debug state_set_count k rest acc
  end.

Fixpoint place_keys (debug : bool) (state_set_count : Z)
    (keys : list ((string * string) * gmap string Z)) (acc : StateMap * ConflictMap)
  : Res (StateMap * ConflictMap) :=
  match keys with
  | [] => Ok acc
  | (k, v) :: rest =>
      acc ← place_ids debug state_set_count k
              (hash_order ["split"; k.1; k.2]%string (map_to_list v)) acc;
      place_keys debug state_set_count rest acc
  end.

(** [split_conflicted_state] *)
Definition split_conflicted_state (debug : bool) (state_maps : list StateMap)
  : Res (StateMap * ConflictMap) :=
  let state_set_count := zlen state_maps in
  place_keys debug state_set_count
    (hash_order ["split"]%string (map_to_list (count_occurrences state_maps))) (∅, ∅).

(** [struct Counts] *)
Record Counts := mkCounts { by_id : gmap string Z; total : Z }.

Definition Counts_default : Counts := mkCounts ∅ 0.

Definition count_id (by_id : gmap string Z) (id : string) : gmap string Z :=
  <[id := sat_add (default 0 (by_id !! id)) 1]> by_id.

Definition merge (self : Counts) (set : AuthSet) : Counts :=
  mkCounts (foldl count_id (by_id self) set) (sat_add (total self) 1).

(** [auth_difference] *)
Definition auth_difference (auth_sets : list AuthSet) : list string :=
  let counts := foldl merge Counts_default auth_sets in
  hash_order ["auth_difference"]%string (map_to_list (by_id counts)) ≫= λ entry,
    if entry.2 <? total counts then [entry.1] else [].

End Split.

Lemma NoDup_fmap_filter {A B} (f : A → B) (P : A → Prop) `{∀ x, Decision (P x)} (l : list A) :
  NoDup (f <$> l) → NoDup (f <$> filter P l).
Proof.
  induction l as [|x l IH]; [done|]. rewrite fmap_cons, filter_cons. intros [Hx Hnd]%NoDup_cons.
  case_decide; [|by apply IH]. rewrite fmap_cons. apply NoDup_cons. split; [|by apply IH].
  intros (y & Heq & Hy)%list_elem_of_fmap. apply list_elem_of_filter in Hy as [_ Hy].
  apply Hx, list_elem_of_fmap. eauto.
Qed.

(** ** Counting *)

(** How often [x] is in [l]. *)
Definition num {A} `{EqDecision A} (x : A) (l : list A) : Z := zlen (filter (λ y, y = x) l).

Section Num.
Context {A : Type} `{EqDecision A}.

Lemma num_app (x : A) l k : num x (l ++ k) = num x l + num x k.
Proof. unfold num. by rewrite filter_app, zlen_app. Qed.

Lemma num_one (x y : A) : num x [y] = if bool_decide (y = x) then 1 else 0.
Proof. unfold num. rewrite filter_cons, filter_nil. case_bool_decide; by case_decide. Qed.

Lemma num_nonneg (x : A) l : 0 ≤ num x l.
Proof. unfold num, zlen. lia. Qed.

Lemma num_zero (x : A) l : x ∉ l → num x l = 0.
Proof.
  intros Hx. unfold num. induction l as [|y l IH]; [done|].
  rewrite filter_cons_False; [apply IH|]; set_solver.
Qed.

Lemma num_pos (x : A) l : 0 < num x l ↔ x ∈ l.
Proof.
  split.
  - intros Hpos. destruct (decide (x ∈ l)); [done|]. rewrite num_zero in Hpos by done. lia.
  - intros Hx. apply list_elem_of_split in Hx as (l1 & l2 & ->). change (x :: l2) with ([x] ++ l2).
    rewrite !num_app, num_one, bool_decide_eq_true_2 by done.
    pose proof (num_nonneg x l1). pose proof (num_nonneg x l2). lia.
Qed.

Lemma num_NoDup (x : A) l : NoDup l → num x l = if bool_decide (x ∈ l) then 1 else 0.
Proof.
  intros Hnd. case_bool_decide as Hx; [|by apply num_zero].
  apply list_elem_of_split in Hx as (l1 & l2 & ->). apply NoDup_app in Hnd as (_ & Hd & Hnd).
  apply NoDup_cons in Hnd as [Hx2 _]. change (x :: l2) with ([x] ++ l2).
  rewrite !num_app, num_one, bool_decide_eq_true_2, !num_zero; set_solver.
Qed.

(** In a family of lists without repetition, [x] occurs once per list that has it. *)
Lemma num_bind {B} (f : B → list A) x ls :
  (∀ l, l ∈ ls → NoDup (f l)) → num x (ls ≫= f) = zlen (filter (λ l, x ∈ f l) ls).
Proof.
  induction ls as [|l ls IH]; intros Hnd; [done|].
  rewrite bind_cons, num_app, IH, num_NoDup by set_solver.
  rewrite filter_cons. case_bool_decide; case_decide; try done. by rewrite zlen_cons.
Qed.

End Num.

(** ** The occurrence table *)

(** A table that counts [seen]: nothing for what never occurred. *)
Definition counted (n : Z) : option Z := if n =? 0 then None else Some n.

Lemma counted_Some n m : counted n = Some m ↔ n = m ∧ n ≠ 0.
Proof. unfold counted. destruct (Z.eqb_spec n 0); naive_solver. Qed.

Section Tables.
Context `{Usize, HashOrder}.

Lemma count_step n : 0 ≤ n → n + 1 ≤ usize_max →
  Some (sat_add (default 0 (counted n)) 1) = counted (n + 1).
Proof.
  intros Hn Hm. unfold counted, sat_add. destruct (Z.eqb_spec (n + 1) 0); [lia|].
  destruct (Z.eqb_spec n 0) as [->|]; simpl; f_equal; lia.
Qed.

Lemma count_ids_spec ids id :
  (∀ x, num x ids ≤ usize_max) →
  foldl count_id ∅ ids !! id = counted (num id ids).
Proof.
  revert id. induction ids as [|y ids IH] using rev_ind; intros id Hle; [cbn [foldl]; by rewrite lookup_empty|].
  assert (Hle' : ∀ x, num x ids ≤ usize_max).
  { intros x. specialize (Hle x). rewrite num_app in Hle. pose proof (num_nonneg x [y]). lia. }
  rewrite foldl_app. cbn [foldl]. unfold count_id at 1. rewrite num_app, num_one.
  case_bool_decide as Hy.
  - subst y. rewrite lookup_insert_eq, IH by done. apply count_step; [apply num_nonneg|].
    specialize (Hle id). by rewrite num_app, num_one, bool_decide_eq_true_2 in Hle.
  - rewrite lookup_insert_ne, IH, Z.add_0_r by done. done.
Qed.

Lemma count_all_spec entries k v :
  (∀ x, num x entries ≤ usize_max) →
  default ∅ (foldl count_one ∅ entries !! k) !! v = counted (num (k, v) entries).
Proof.
  revert k v. induction entries as [|[k0 v0] entries IH] using rev_ind; intros k v Hle.
  { cbn [foldl]. rewrite lookup_empty. cbn [default from_option id]. by rewrite lookup_empty. }
  assert (Hle' : ∀ x, num x entries ≤ usize_max).
  { intros x. specialize (Hle x). rewrite num_app in Hle. pose proof (num_nonneg x [(k0, v0)]). lia. }
  rewrite foldl_app. cbn [foldl]. unfold count_one at 1. rewrite num_app, num_one.
  destruct (decide (k0 = k)) as [->|Hk]; [rewrite lookup_insert_eq|rewrite lookup_insert_ne by done].
  - cbn [default from_option id]. destruct (decide (v0 = v)) as [->|Hv].
    + rewrite lookup_insert_eq, IH, bool_decide_eq_true_2 by done. apply count_step; [apply num_nonneg|].
      specialize (Hle (k, v)). by rewrite num_app, num_one, bool_decide_eq_true_2 in Hle.
    + rewrite lookup_insert_ne, IH, bool_decide_eq_false_2, Z.add_0_r by naive_solver. done.
  - rewrite IH, bool_decide_eq_false_2, Z.add_0_r by naive_solver. done.
Qed.

(** How many of the state maps hold [v] at [k]. *)
Definition votes (state_maps : list StateMap) (k : string * string) (v : string) : Z :=
  zlen (filter (λ m : StateMap, m !! k = Some v) state_maps).

Lemma votes_le state_maps k v : votes state_maps k v ≤ zlen state_maps.
Proof. apply filter_le. Qed.

Lemma votes_full state_maps k v :
  votes state_maps k v = zlen state_maps ↔ ∀ m, m ∈ state_maps → m !! k = Some v.
Proof. apply filter_full. Qed.

Lemma votes_pos state_maps k v :
  votes state_maps k v ≠ 0 ↔ ∃ m, m ∈ state_maps ∧ m !! k = Some v.
Proof. apply filter_some. Qed.

Lemma num_entries state_maps k v :
  num (k, v) (state_maps ≫= map_to_list) = votes state_maps k v.
Proof.
  rewrite num_bind by (intros; apply NoDup_map_to_list). unfold votes. f_equal.
  apply list_filter_iff. intros m. apply elem_of_map_to_list.
Qed.

Lemma occurrences_spec state_maps k v :
  zlen state_maps ≤ usize_max →
  default ∅ (count_occurrences state_maps !! k) !! v = counted (votes state_maps k v).
Proof.
  intros Hle. unfold count_occurrences. rewrite count_all_spec; [by rewrite num_entries|].
  intros [k' v']. rewrite num_entries. pose proof (votes_le state_maps k' v'). lia.
Qed.

End Tables.

(** ** Reading the table back *)

Section Placing.
Context `{HashOrder} (debug : bool) (total : Z).

Notation Triple := ((string * string) * (string * Z))%type.

Fixpoint place_all (triples : list Triple) (acc : StateMap * ConflictMap)
  : Res (StateMap * ConflictMap) :=
  match triples with
  | [] => Ok acc
  | (k, entry) :: rest => acc ← place debug total k acc entry; place_all rest acc
  end.

Lemma place_all_app l1 l2 acc :
  place_all (l1 ++ l2) acc = (acc ← place_all l1 acc; place_all l2 acc).
Proof.
  revert acc. induction l1 as [|[k e] l1 IH]; intros acc; [done|]. cbn [app place_all].
  destruct (place debug total k acc e); [apply IH|done..].
Qed.

Definition triples_of (keys : list ((string * string) * gmap string Z)) : list Triple :=
  keys ≫= λ '(k, v), pair k <$> hash_order ["split"; k.1; k.2]%string (map_to_list v).

Lemma place_keys_all keys acc : place_keys debug total keys acc = place_all (triples_of keys) acc.
Proof.
  revert acc. induction keys as [|[k v] keys IH]; intros acc; [done|].
  cbn [place_keys]. unfold triples_of. rewrite bind_cons, place_all_app.
  replace (place_ids debug total k (hash_order ["split"; k.1; k.2]%string (map_to_list v)) acc)
    with (place_all (pair k <$> hash_order ["split"; k.1; k.2]%string (map_to_list v)) acc).
  - destruct (place_all _ acc); [apply IH|done..].
  - generalize (hash_order ["split"; k.1; k.2]%string (map_to_list v)). intros l. revert acc.
    induction l as [|e l IHl]; intros acc; [done|]. cbn [fmap list_fmap place_all place_ids].
    destruct (place debug total k acc e); [apply IHl|done..].
Qed.

(** What is read so far: [u] and [c] hold exactly the triples of [done]. *)
Definition placed (done : list Triple) (acc : StateMap * ConflictMap) : Prop :=
  (∀ k v, acc.1 !! k = Some v ↔ (k, (v, total)) ∈ done) ∧
  (∀ k v, v ∈ default [] (acc.2 !! k) ↔ ∃ n, (k, (v, n)) ∈ done ∧ n ≠ total) ∧
  (∀ k ids, acc.2 !! k = Some ids → ids ≠ [] ∧ NoDup ids).

(** One triple per key and identifier, and one full count per key. *)
Definition readable (l : list Triple) : Prop :=
  NoDup ((λ t, (t.1, t.2.1)) <$> l) ∧
  ∀ k v v', (k, (v, total)) ∈ l → (k, (v', total)) ∈ l → v = v'.

Lemma place_placed done k v n acc :
  readable (done ++ [(k, (v, n))]) → placed done acc →
  ∃ acc', place debug total k acc (v, n) = Ok acc' ∧ placed (done ++ [(k, (v, n))]) acc'.
Proof.
  intros [Hnd Huniq] (Hu & Hc & Hne). destruct acc as [u c]. cbn [fst snd] in *. unfold place.
  assert (Hfresh : ∀ n', (k, (v, n')) ∉ done).
  { intros n' Hin. rewrite fmap_app in Hnd. apply NoDup_app in Hnd as (_ & Hd & _).
    apply (Hd (k, v)); [|by left]. apply list_elem_of_fmap. by exists (k, (v, n')). }
  destruct (Z.eqb_spec n total) as [->|Hn].
  - eexists. split; [done|]. split_and!; cbn [fst snd]; [|setoid_rewrite elem_of_app; set_solver|done].
    intros k' v'. rewrite elem_of_app, list_elem_of_singleton, <- Hu. destruct (decide (k = k')) as [<-|Hk].
    + rewrite lookup_insert_eq. split; [naive_solver|]. intros [Hin|Heq]; [|naive_solver].
      f_equal. apply (Huniq k); apply elem_of_app; [right; by left|left; by apply Hu].
    + rewrite lookup_insert_ne by done. naive_solver.
  - rewrite (bool_decide_eq_false_2 (v ∈ _)), andb_false_r.
    2: { intros (n' & Hin & _)%Hc. by apply (Hfresh n'). }
    eexists. split; [done|]. split_and!; cbn [fst snd].
    + intros k' v'. rewrite Hu, elem_of_app, list_elem_of_singleton. naive_solver.
    + intros k' v'. setoid_rewrite elem_of_app. setoid_rewrite list_elem_of_singleton.
      destruct (decide (k = k')) as [<-|Hk].
      * rewrite lookup_insert_eq. cbn [default from_option id].
        rewrite elem_of_app, Hc, list_elem_of_singleton. naive_solver.
      * rewrite lookup_insert_ne, Hc by done. naive_solver.
    + intros k' ids. destruct (decide (k = k')) as [<-|Hk].
      * rewrite lookup_insert_eq. intros [= <-]. split; [by destruct (default [] (c !! k))|].
        apply NoDup_app. split_and!; [|set_unfold; naive_solver|apply NoDup_singleton].
        destruct (c !! k) as [l|] eqn:Hl; [by apply (Hne k)|constructor].
      * rewrite lookup_insert_ne by done. apply Hne.
Qed.

Lemma readable_prefix l k : readable (l ++ k) → readable l.
Proof.
  intros [Hnd Huniq]. split; [|intros key v v' Hv Hv'; apply (Huniq key); apply elem_of_app; by left].
  rewrite fmap_app in Hnd. by apply NoDup_app in Hnd as (? & _).
Qed.

Lemma place_all_placed l done acc :
  readable (done ++ l) → placed done acc →
  ∃ acc', place_all l acc = Ok acc' ∧ placed (done ++ l) acc'.
Proof.
  revert done acc. induction l as [|[k [v n]] l IH]; intros done acc Hread Hp.
  { rewrite app_nil_r. by exists acc. }
  assert (Hcut : done ++ (k, (v, n)) :: l = (done ++ [(k, (v, n))]) ++ l) by by rewrite <- app_assoc.
  destruct (place_placed done k v n acc) as (acc1 & Hacc1 & Hp1); [|done|].
  { rewrite Hcut in Hread. by apply readable_prefix in Hread. }
  cbn [place_all]. rewrite Hacc1, Hcut. apply (IH (done ++ [(k, (v, n))])); [by rewrite <- Hcut|done].
Qed.

Lemma elem_of_triples keys k v n :
  (k, (v, n)) ∈ triples_of keys ↔ ∃ m, (k, m) ∈ keys ∧ m !! v = Some n.
Proof.
  unfold triples_of. rewrite list_elem_of_bind. split.
  - intros ((k' & m) & Hin & Hkeys). apply list_elem_of_fmap in Hin as ([v' n'] & [= <- <- <-] & Hin).
    exists m. split; [done|]. by rewrite elem_of_hash_order, elem_of_map_to_list in Hin.
  - intros (m & Hkeys & Hm). exists (k, m). split; [|done]. apply list_elem_of_fmap. exists (v, n).
    split; [done|]. by rewrite elem_of_hash_order, elem_of_map_to_list.
Qed.

Lemma triples_NoDup keys : NoDup keys.*1 → NoDup ((λ t, (t.1, t.2.1)) <$> triples_of keys).
Proof.
  induction keys as [|[k m] keys IH]; intros Hnd; [constructor|].
  cbn [fmap list_fmap fst] in Hnd. apply NoDup_cons in Hnd as [Hk Hnd].
  unfold triples_of. rewrite bind_cons, fmap_app. apply NoDup_app. split_and!; [| |by apply IH].
  - rewrite <- list_fmap_compose.
    rewrite (list_fmap_ext _ (pair k ∘ fst)) by done.
    rewrite (list_fmap_compose fst (pair k)). apply NoDup_fmap_2; [by intros ?? [=]|].
    rewrite hash_order_perm. apply NoDup_fst_map_to_list.
  - intros [k' v'] Hin Hin'. apply list_elem_of_fmap in Hin as ([k1 [v1 n1]] & [= -> ->] & Hin).
    apply list_elem_of_fmap in Hin as ([v2 n2] & [= -> -> ->] & _).
    apply list_elem_of_fmap in Hin' as ([k3 [v3 n3]] & [= -> ->] & Hin').
    apply elem_of_triples in Hin' as (m' & Hm' & _). apply Hk, list_elem_of_fmap. by exists (k3, m').
Qed.

End Placing.

Lemma split_conflicted_spec `{Usize, HashOrder} (debug : bool) (state_maps : list StateMap) :
  zlen state_maps ≤ usize_max →
  ∃ unconflicted conflicted,
    split_conflicted_state debug state_maps = Ok (unconflicted, conflicted) ∧
    (∀ k v, unconflicted !! k = Some v ↔
       state_maps ≠ [] ∧ ∀ m, m ∈ state_maps → m !! k = Some v) ∧
    (∀ k v, v ∈ default [] (conflicted !! k) ↔
       (∃ m, m ∈ state_maps ∧ m !! k = Some v) ∧ ∃ m, m ∈ state_maps ∧ m !! k ≠ Some v) ∧
    (∀ k ids, conflicted !! k = Some ids → ids ≠ [] ∧ NoDup ids).
Proof.
  intros Hle. unfold split_conflicted_state. rewrite place_keys_all.
  set (keys := hash_order _ _). set (total := zlen state_maps).
  assert (Hmem : ∀ k v n, (k, (v, n)) ∈ triples_of keys ↔ votes state_maps k v = n ∧ n ≠ 0).
  { intros k v n. rewrite elem_of_triples. trans (default ∅ (count_occurrences state_maps !! k) !! v = Some n).
    - unfold keys. setoid_rewrite elem_of_hash_order. setoid_rewrite elem_of_map_to_list.
      destruct (count_occurrences state_maps !! k) as [m|]; cbn [default from_option id]; [naive_solver|].
      rewrite lookup_empty. naive_solver.
    - rewrite occurrences_spec, counted_Some by done. naive_solver. }
  assert (Hfull : ∀ k v, votes state_maps k v = total ∧ total ≠ 0 ↔
                  state_maps ≠ [] ∧ ∀ m, m ∈ state_maps → m !! k = Some v).
  { intros k v. rewrite <- votes_full. unfold total. destruct state_maps; [naive_solver|].
    rewrite zlen_cons. unfold zlen. split; intros [??]; split; try done; lia. }
  destruct (place_all_placed debug total (triples_of keys) [] (∅, ∅)) as ([u c] & -> & Hu & Hc & Hne).
  - split.
    + apply triples_NoDup. unfold keys. rewrite hash_order_perm. apply NoDup_fst_map_to_list.
    + intros k v v' [Hv Hv0]%Hmem [Hv' _]%Hmem. destruct (proj1 (Hfull k v)) as [Hnil Hall]; [done|].
      destruct (proj1 (Hfull k v')) as [_ Hall']; [done|]. destruct state_maps as [|m maps]; [done|].
      specialize (Hall m ltac:(left)). specialize (Hall' m ltac:(left)). congruence.
  - split_and!; cbn [fst snd]; intros k v; rewrite lookup_empty; set_solver.
  - exists u, c. split_and!; [done| | |done].
    + intros k v. rewrite Hu. simpl. rewrite Hmem. apply Hfull.
    + intros k v. rewrite Hc. simpl. setoid_rewrite Hmem. rewrite <- votes_pos.
      assert (Hex : votes state_maps k v ≠ total ↔ ∃ m, m ∈ state_maps ∧ m !! k ≠ Some v)
        by apply filter_short.
      rewrite <- Hex. naive_solver.
Qed.

(** Splitting never panics and divides the state exactly as specified: a
    key is unconflicted with value [v] when every state map holds [v] there, an
    identifier contests a key when some state map holds it there and some other
    does not, each contested key lists its identifiers once, and the result is
    the same, up to the order of those lists, for every hash order and every
    order of the state maps. *)
Theorem split_conflicted_exact `{Usize} (order order' : HashOrder) (debug : bool)
    (state_maps state_maps' : list StateMap)
    (Hlen : zlen state_maps ≤ usize_max) (Hperm : state_maps ≡ₚ state_maps') :
  ∃ unconflicted conflicted conflicted',
    @split_conflicted_state _ order debug state_maps = Ok (unconflicted, conflicted) ∧
    @split_conflicted_state _ order' debug state_maps' = Ok (unconflicted, conflicted') ∧
    (∀ k v, unconflicted !! k = Some v ↔
       state_maps ≠ [] ∧ ∀ m, m ∈ state_maps → m !! k = Some v) ∧
    (∀ k v, v ∈ default [] (conflicted !! k) ↔
       (∃ m, m ∈ state_maps ∧ m !! k = Some v) ∧ ∃ m, m ∈ state_maps ∧ m !! k ≠ Some v) ∧
    (∀ k, default [] (conflicted !! k) ≡ₚ default [] (conflicted' !! k)) ∧
    (∀ k ids, conflicted !! k = Some ids → ids ≠ [] ∧ NoDup ids).
Proof.
  destruct (@split_conflicted_spec _ order debug state_maps) as (u & c & Hs & Hu & Hc & Hne); [done|].
  destruct (@split_conflicted_spec _ order' debug state_maps') as (u' & c' & Hs' & Hu' & Hc' & Hne').
  { unfold zlen in *. by rewrite <- Hperm. }
  assert (Hmem : ∀ m, m ∈ state_maps ↔ m ∈ state_maps') by (intros m; by rewrite Hperm).
  assert (Hnil : state_maps ≠ [] ↔ state_maps' ≠ []).
  { split; intros Hn ->; apply Hn; [by apply Permutation_nil_r|by symmetry; apply Permutation_nil_l]. }
  assert (u = u') as <-.
  { apply map_eq. intros k. apply option_eq. intros v. rewrite Hu, Hu', Hnil. by setoid_rewrite Hmem. }
  exists u, c, c'. split_and!; try done. intros k. apply NoDup_Permutation.
  - destruct (c !! k) eqn:Hk; [by apply (Hne k)|constructor].
  - destruct (c' !! k) eqn:Hk; [by apply (Hne' k)|constructor].
  - intros v. rewrite Hc, Hc'. by setoid_rewrite Hmem.
Qed.

Definition sample_maps : list StateMap :=
  let k (s : string) := (s, EmptyString) in
  [list_to_map [(k "m.room.create", "$1"); (k "m.room.topic", "$2"); (k "m.room.name", "$4")];
   list_to_map [(k "m.room.topic", "$3"); (k "m.room.create", "$1")]]%string.

Lemma split_conflicted_exact_witness :
  ∃ unconflicted conflicted conflicted',
    @split_conflicted_state usize_64 in_order true sample_maps = Ok (unconflicted, conflicted) ∧
    @split_conflicted_state usize_64 reversed true (rev sample_maps) = Ok (unconflicted, conflicted') ∧
    unconflicted !! ("m.room.create", "")%string = Some "$1"%string.
Proof.
  destruct (@split_conflicted_exact usize_64 in_order reversed true sample_maps (rev sample_maps))
    as (u & c & c' & Hs & Hs' & Hu & _).
  - by vm_compute.
  - apply Permutation_rev.
  - exists u, c, c'. split_and!; [done..|]. apply Hu. split; [done|].
    apply Forall_forall. repeat constructor.
Defined.

(** ** The auth difference *)

Lemma merge_spec `{Usize} auth_sets :
  zlen auth_sets ≤ usize_max →
  foldl merge Counts_default auth_sets =
  mkCounts (foldl count_id ∅ (mjoin auth_sets)) (zlen auth_sets).
Proof.
  induction auth_sets as [|set sets IH] using rev_ind; intros Hle; [done|].
  rewrite zlen_app in Hle. assert (zlen [set] = 1) as Hone by done.
  rewrite foldl_app, IH by lia. cbn [foldl]. unfold merge. cbn [by_id total].
  rewrite join_app, foldl_app. cbn [mjoin list_join]. rewrite app_nil_r, zlen_app. f_equal.
  unfold sat_add. lia.
Qed.

Lemma auth_difference_spec `{Usize, HashOrder} auth_sets :
  Forall (λ set, NoDup set) auth_sets → zlen auth_sets ≤ usize_max →
  NoDup (auth_difference auth_sets) ∧
  ∀ id, id ∈ auth_difference auth_sets ↔
    (∃ set, set ∈ auth_sets ∧ id ∈ set) ∧ ∃ set, set ∈ auth_sets ∧ id ∉ set.
Proof.
  intros Hnd Hle. unfold auth_difference. rewrite merge_spec by done. cbn [by_id total].
  set (table := foldl count_id ∅ (mjoin auth_sets)).
  pose (n id := zlen (filter (λ set : AuthSet, id ∈ set) auth_sets)).
  assert (Hnum : ∀ id, num id (mjoin auth_sets) = n id).
  { intros id.
    replace (mjoin auth_sets) with (auth_sets ≫= λ set, set) by (clear; induction auth_sets as [|s l IH]; [done|]; simpl; f_equal; apply IH).
    rewrite num_bind; [done|]. by apply Forall_forall. }
  assert (Hget : ∀ id, table !! id = counted (n id)).
  { intros id. unfold table. rewrite count_ids_spec; [by rewrite Hnum|]. intros x. rewrite Hnum.
    pose proof (filter_le (λ set : AuthSet, x ∈ set) auth_sets). unfold n. lia. }
  rewrite (bind_if (λ entry : string * Z, entry.2 <? zlen auth_sets) fst). split.
  - apply NoDup_fmap_filter. rewrite hash_order_perm. apply NoDup_fst_map_to_list.
  - intros id. trans (n id ≠ 0 ∧ n id < zlen auth_sets).
    + rewrite list_elem_of_fmap. setoid_rewrite list_elem_of_filter. setoid_rewrite elem_of_hash_order. split.
      * intros ([id' m] & -> & Hlt & Hin%elem_of_map_to_list). cbn [fst snd] in *.
        rewrite Hget in Hin. apply counted_Some in Hin as [<- Hne]. apply Is_true_true, Z.ltb_lt in Hlt. done.
      * intros [Hne Hlt]. exists (id, n id). split_and!; [done|by apply Is_true_true, Z.ltb_lt|].
        apply elem_of_map_to_list. rewrite Hget. by apply counted_Some.
    + unfold n. rewrite filter_some. apply and_iff_compat_l.
      rewrite <- (filter_short (λ set : AuthSet, id ∈ set)).
      pose proof (filter_le (λ set : AuthSet, id ∈ set) auth_sets). lia.
Qed.

Lemma AuthSet_from_iter_spec ids :
  NoDup (AuthSet_from_iter ids) ∧ ∀ id, id ∈ AuthSet_from_iter ids ↔ id ∈ ids.
Proof.
  split; [apply NoDup_dedup_sort|]. intros id. unfold AuthSet_from_iter. by rewrite elem_of_dedup, elem_of_str_sort.
Qed.

(** The auth difference of the full auth chains is their union less their
    intersection, each event once, whatever order the chains come in and
    whatever the hash order; a chain collected into an [AuthSet] keeps its
    members and loses its repetitions. *)
Theorem auth_difference_exact `{Usize} (order : HashOrder) (chains : list (list string))
    (Hlen : zlen chains ≤ usize_max) :
  NoDup (auth_difference (AuthSet_from_iter <$> chains)) ∧
  ∀ id, id ∈ auth_difference (AuthSet_from_iter <$> chains) ↔
    (∃ chain, chain ∈ chains ∧ id ∈ chain) ∧ ∃ chain, chain ∈ chains ∧ id ∉ chain.
Proof.
  destruct (auth_difference_spec (AuthSet_from_iter <$> chains)) as [Hnd Hin].
  - apply Forall_fmap, Forall_forall. intros chain _. apply AuthSet_from_iter_spec.
  - unfold zlen in *. by rewrite length_fmap.
  - split; [done|]. intros id. rewrite Hin. setoid_rewrite list_elem_of_fmap.
    pose proof (λ c, proj2 (AuthSet_from_iter_spec c) id) as Hmem. split.
    + intros [(? & (c & -> & Hc) & Hi) (? & (c' & -> & Hc') & Hi')]. rewrite Hmem in Hi, Hi'.
      split; [by exists c|by exists c'].
    + intros [(c & Hc & Hi) (c' & Hc' & Hi')]. rewrite <- Hmem in Hi, Hi'.
      split; eexists; (split; [|done]); eexists; done.
Qed.

Lemma auth_difference_exact_witness :
  let difference := @auth_difference usize_32 reversed
    (AuthSet_from_iter <$> [["$a"; "$b"; "$a"]; ["$b"; "$c"]])%string in
  NoDup difference ∧ length difference = 2%nat.
Proof.
  destruct (@auth_difference_exact usize_32 reversed [["$a"; "$b"; "$a"]; ["$b"; "$c"]]%string) as [Hnd _].
  - by vm_compute.
  - split; [done|]. by vm_compute.
Defined.
