(* ===== verification/PowerSort.v ===== *)
(** * PowerSort: the power events of the full conflicted set, in order
      (src/service/rooms/state_res/resolve/power_sort.rs)

    The walk over the auth chains keeps a set of fetches in flight and takes
    them in completion order: [next_ready] picks one by [hash_order], at a site
    that names the step, so a theorem for every [HashOrder] covers every
    completion order.  The walk has fuel, which also numbers its steps; running
    out of it aborts.  The fetch results of one sort are those of one snapshot
    of the store. *)

From stdpp Require Import pretty.
From S2P Require Import Prelude Json Order CoreError RoomEvents SampleRoom AuthTypes RoomMember.
From S2P Require Import EventAuth TopologicalSort.

Section Defs.
Context `{Ruma, HashOrder}.

(** [Event::is_type_and_state_key] *)
Definition is_type_and_state_key (self : Pdu) (kind key : string) : bool :=
  bool_decide (event_type self = kind) && bool_decide (state_key self = Some key).

(** [fetch_optional_event] *)
Definition fetch_optional_event (event_id : string) (fetch : FetchEvent) : Res (option Pdu) :=
  match fetch event_id with
  | Ok event => Ok (Some event)
  | Err error => if is_not_found error then Ok None else Err error
  | Panic => Panic
  end.

(** [is_power_event_id] *)
Definition is_power_event_id (event_id : string) (fetch : FetchEvent) : Res bool :=
  event ← fetch_optional_event event_id fetch;
  Ok (match event with Some event => is_power_event event | None => false end).

(** The scan over the auth events of [power_level_for_sender]. *)
Fixpoint scan_auth_events (hydra_room_id : bool) (fetch : FetchEvent) (auth_events : list string)
    (create power : option Pdu) : Res (option Pdu * option Pdu) :=
  match auth_events with
  | [] => Ok (create, power)
  | auth_event_id :: rest =>
      auth_event ← fetch_optional_event auth_event_id fetch;
      match auth_event with
      | None => scan_auth_events hydra_room_id fetch rest create power
      | Some auth_event =>
          let '(create, power) :=
            if negb hydra_room_id && is_type_and_state_key auth_event ROOM_CREATE ""%string then
              (Some (default auth_event create), power)
            else if is_type_and_state_key auth_event ROOM_POWER_LEVELS ""%string then
              (create, Some (default auth_event power))
            else (create, power) in
          if bool_decide (is_Some power) && bool_decide (is_Some create) then Ok (create, power)
          else scan_auth_events hydra_room_id fetch rest create power
      end
  end.

(** [power_level_for_sender] *)
Definition power_level_for_sender (event_id : string) (rules : AuthorizationRules)
    (fetch : FetchEvent) : Res UserPowerLevel :=
  event ← fetch_optional_event event_id fetch;
  let hydra_room_id := room_create_event_id_as_room_id rules in
  create_event ←
    (match hydra_room_id, event with
     | true, Some event =>
         create_id ← ok_or (room_as_event_id (room_id event)) Mxid;
         fetched ← fetch create_id;
         Ok (Some fetched)
     | _, _ => Ok None
     end);
  found ← scan_auth_events hydra_room_id fetch
            (match event with Some event => auth_events event | None => [] end) create_event None;
  let '(create_event, power_levels_event) := found in
  creators ←
    (match create_event with
     | Some create => l ← creators create rules; Ok (Some l)
     | None => Ok None
     end);
  match event, creators with
  | Some event, Some creators =>
      user_power_level power_levels_event (sender event) creators rules
  | _, _ =>
      level ← int_or_default power_levels_event UsersDefault rules;
      Ok (IntLevel level)
  end.

(** [todo.next()]: some fetch in flight completes. *)
Definition next_ready (site : list string) (todo : list string) : option (string * list string) :=
  match hash_order site todo with
  | [] => None
  | event_id :: rest => Some (event_id, rest)
  end.

(** One auth event of the walk: queued unless the graph has it, and referenced. *)
Definition visit_auth (event_id : string) (auth_event_id : string) (graph : Graph)
    (todo : list string) : Res (Graph * list string) :=
  let todo := if bool_decide (is_Some (graph !! auth_event_id)) then todo
              else todo ++ [auth_event_id] in
  references ← expect (graph !! event_id);
  Ok (if bool_decide (auth_event_id ∈ references) then graph
      else <[event_id := references ++ [auth_event_id]]> graph, todo).

Fixpoint visit_auths (event_id : string) (auth_event_ids : list string) (graph : Graph)
    (todo : list string) : Res (Graph * list string) :=
  match auth_event_ids with
  | [] => Ok (graph, todo)
  | auth_event_id :: rest =>
      state ← visit_auth event_id auth_event_id graph todo;
      let '(graph, todo) := state in
      visit_auths event_id rest graph todo
  end.

(** The loop of [add_event_auth_chain]. *)
Fixpoint walk_auth_chain (fuel : nat) (site : list string) (full_conflicted_set : gset string)
    (fetch : FetchEvent) (graph : Graph) (todo : list string) : Res Graph :=
  match next_ready (pretty fuel :: site) todo with
  | None => Ok graph
  | Some (event_id, todo) =>
      match fuel with
      | O => Panic
      | S fuel =>
          event ← fetch_optional_event event_id fetch;
          match event with
          | None => walk_auth_chain fuel site full_conflicted_set fetch graph todo
          | Some event =>
              let event_id := RoomEvents.event_id event in
              let graph := <[event_id := default [] (graph !! event_id)]> graph in
              state ← visit_auths event_id
                        (filter (λ id, id ∈ full_conflicted_set) (auth_events event)) graph todo;
              let '(graph, todo) := state in
              walk_auth_chain fuel site full_conflicted_set fetch graph todo
          end
      end
  end.

(** [add_event_auth_chain] *)
Definition add_event_auth_chain (fuel : nat) (full_conflicted_set : gset string) (graph : Graph)
    (event_id : string) (fetch : FetchEvent) : Res Graph :=
  walk_auth_chain fuel ["auth_chain"; event_id]%string full_conflicted_set fetch graph [event_id].

(** The stream of power events folded into the graph. *)
Fixpoint fill_graph (fuel : nat) (full_conflicted_set : gset string) (fetch : FetchEvent)
    (ids : list string) (graph : Graph) : Res Graph :=
  match ids with
  | [] => Ok graph
  | id :: rest =>
      is_power ← is_power_event_id id fetch;
      graph ← (if is_power : bool
               then add_event_auth_chain fuel full_conflicted_set graph id fetch
               else Ok graph);
      fill_graph fuel full_conflicted_set fetch rest graph
  end.

(** The sender's power level of each event of the graph. *)
Fixpoint sender_levels (rules : AuthorizationRules) (fetch : FetchEvent) (ids : list string)
  : Res (list (string * UserPowerLevel)) :=
  match ids with
  | [] => Ok []
  | event_id :: rest =>
      sender_power ← power_level_for_sender event_id rules fetch;
      levels ← sender_levels rules fetch rest;
      Ok ((event_id, sender_power) :: levels)
  end.

(** The [query] closure. *)
Definition level_query (event_to_power_level : gmap string UserPowerLevel) (fetch : FetchEvent)
  : Query := λ event_id,
  power_level ← ok_or (event_to_power_level !! event_id) (Request NotFound "Missing PL event" 400);
  event ← fetch event_id;
  Ok (power_level, origin_server_ts event).

(** [power_sort] *)
Definition power_sort (fuel : nat) (rules : AuthorizationRules) (full_conflicted_set : gset string)
    (fetch : FetchEvent) : Res (list string) :=
  graph ← fill_graph fuel full_conflicted_set fetch
            (hash_order ["power_sort"; "set"]%string (elements full_conflicted_set)) ∅;
  levels ← sender_levels rules fetch
             (hash_order ["power_sort"; "keys"]%string (map_to_list graph).*1);
  topological_sort (hash_order ["power_sort"; "graph"]%string (map_to_list graph))
    (level_query (list_to_map levels) fetch).

End Defs.

(** ** What the store holds *)

Section Chain.
Context `{Ruma, HashOrder}.
Context (fetch : FetchEvent) (set : gset string).

(** A store that does not fail: it returns the event asked for, or reports that
    it has none. *)
Definition store_ok : Prop := ∀ id,
  (∃ ev, fetch id = Ok ev ∧ event_id ev = id) ∨ ∃ e, fetch id = Err e ∧ is_not_found e = true.

Definition found (id : string) : option Pdu :=
  match fetch id with Ok ev => Some ev | _ => None end.

Lemma found_fetch id ev : found id = Some ev → fetch id = Ok ev.
Proof. unfold found. by destruct (fetch id); intros [= ->]. Qed.

(** The conflicted events [id] refers to, each once, in order. *)
Definition add_reference (references : list string) (id : string) : list string :=
  if bool_decide (id ∈ references) then references else references ++ [id].

Definition conflicted_auth (id : string) : list string :=
  match found id with
  | Some ev => filter (λ a, a ∈ set) (auth_events ev)
  | None => []
  end.

Definition references (id : string) : list string := foldl add_reference [] (conflicted_auth id).

Lemma elem_of_add_references acc l a : a ∈ foldl add_reference acc l ↔ a ∈ acc ∨ a ∈ l.
Proof.
  revert acc. induction l as [|b l IH]; intros acc; simpl; [set_solver|].
  rewrite IH. unfold add_reference. case_bool_decide; set_solver.
Qed.

Lemma elem_of_references id a : a ∈ references id ↔ a ∈ conflicted_auth id.
Proof. unfold references. rewrite elem_of_add_references. set_solver. Qed.

Lemma conflicted_auth_set id a : a ∈ conflicted_auth id → a ∈ set.
Proof. unfold conflicted_auth. destruct (found id); [|set_solver]. rewrite list_elem_of_filter. by intros []. Qed.

Lemma add_references_again l : foldl add_reference (foldl add_reference [] l) l = foldl add_reference [] l.
Proof.
  assert (Hall : ∀ k acc, (∀ a, a ∈ k → a ∈ acc) → foldl add_reference acc k = acc).
  { induction k as [|b k IH]; intros acc Hk; simpl; [done|]. unfold add_reference at 2.
    rewrite bool_decide_eq_true_2 by (apply Hk; left). apply IH. set_solver. }
  apply Hall. intros a Ha. apply elem_of_add_references. by right.
Qed.

Context (Hstore : store_ok).

Lemma fetch_optional_found id : fetch_optional_event id fetch = Ok (found id).
Proof.
  unfold fetch_optional_event, found. destruct (Hstore id) as [(ev & -> & _)|(e & -> & Hnf)]; [done|].
  by rewrite Hnf.
Qed.

Lemma found_id id ev : found id = Some ev → event_id ev = id.
Proof.
  unfold found. destruct (Hstore id) as [(ev' & -> & <-)|(e & -> & _)]; [|done]. by intros [= ->].
Qed.

(** ** One event of the walk *)

Lemma visit_auths_spec id auths graph rs todo :
  graph !! id = Some rs →
  visit_auths id auths graph todo =
    Ok (<[id := foldl add_reference rs auths]> graph, todo ++ filter (λ a, graph !! a = None) auths).
Proof.
  revert graph rs todo. induction auths as [|a auths IH]; intros graph rs todo Hid; cbn [visit_auths].
  { rewrite app_nil_r. simpl. by rewrite insert_id. }
  unfold visit_auth. rewrite Hid. cbn [expect]. rewrite !bind_Ok. cbn beta iota.
  assert (Hid' : (if bool_decide (a ∈ rs) then graph else <[id := rs ++ [a]]> graph) =
                 <[id := add_reference rs a]> graph).
  { unfold add_reference. case_bool_decide; [by rewrite insert_id|done]. }
  rewrite Hid', (IH _ (add_reference rs a)) by apply lookup_insert_eq.
  rewrite insert_insert_eq. do 2 f_equal. rewrite filter_cons.
  rewrite (filter_ext_in (λ x, <[id := add_reference rs a]> graph !! x = None) (λ x, graph !! x = None)).
  2: { intros x _. destruct (decide (id = x)) as [<-|]; [rewrite lookup_insert_eq|by rewrite lookup_insert_ne].
       by rewrite Hid. }
  destruct (graph !! a) eqn:Ha; [rewrite bool_decide_eq_true_2 by done|rewrite bool_decide_eq_false_2 by (by intros [])].
  - by rewrite decide_False.
  - rewrite decide_True by done. by rewrite <- app_assoc.
Qed.

(** ** The walk

    [left_out graph] counts the conflicted events the store has and the graph
    does not.  A queued event costs more the more of them there are, and once
    more if the graph has it already: handling it queues no event that costs as
    much. *)

Context (K : nat) (HK : ∀ id, id ∈ set → (length (conflicted_auth id) ≤ K)%nat).

Fixpoint chain_cost (n : nat) : nat :=
  match n with O => 1 | S n => 1 + K * chain_cost n end.

Lemma chain_cost_pos n : (1 ≤ chain_cost n)%nat.
Proof. destruct n; simpl; lia. Qed.

Lemma chain_cost_mono n m : (n ≤ m)%nat → (chain_cost n ≤ chain_cost m)%nat.
Proof.
  intros Hle. induction Hle as [|m _ IH]; [done|]. etrans; [exact IH|].
  clear. induction m as [|m IH]; simpl; [lia|]. simpl in IH. nia.
Qed.

Definition left_out (graph : Graph) : nat :=
  size (filter (λ x, is_Some (found x) ∧ graph !! x = None) set).

Definition cost (graph : Graph) (id : string) : nat :=
  chain_cost (if bool_decide (is_Some (graph !! id)) then S (left_out graph) else left_out graph).

Definition costs (graph : Graph) (todo : list string) : nat := sum_list (cost graph <$> todo).

Lemma costs_cons graph id todo : costs graph (id :: todo) = (cost graph id + costs graph todo)%nat.
Proof. done. Qed.

Lemma costs_app graph l k : costs graph (l ++ k) = (costs graph l + costs graph k)%nat.
Proof. induction l as [|x l IH]; [done|]. cbn [app]. rewrite !costs_cons, IH. lia. Qed.

Lemma costs_perm graph l k : l ≡ₚ k → costs graph l = costs graph k.
Proof. unfold costs. intros Hp. by rewrite Hp. Qed.

Lemma costs_fresh graph l :
  (∀ x, x ∈ l → graph !! x = None) → costs graph l = (length l * chain_cost (left_out graph))%nat.
Proof.
  induction l as [|x l IH]; intros Hl; [done|]. rewrite costs_cons, IH by set_solver. simpl. f_equal.
  unfold cost. by rewrite (Hl x) by left.
Qed.

Lemma costs_mono graph graph' l :
  (∀ x, x ∈ l → (cost graph' x ≤ cost graph x)%nat) → (costs graph' l ≤ costs graph l)%nat.
Proof.
  induction l as [|x l IH]; intros Hl; [done|]. rewrite !costs_cons.
  specialize (Hl x ltac:(left)) as Hx. specialize (IH ltac:(set_solver)). lia.
Qed.

Lemma left_out_insert graph id rs :
  id ∈ set → is_Some (found id) → graph !! id = None →
  left_out graph = S (left_out (<[id := rs]> graph)).
Proof.
  intros Hset Hf Hg. unfold left_out.
  replace (filter (λ x, is_Some (found x) ∧ graph !! x = None) set)
    with ({[id]} ∪ filter (λ x, is_Some (found x) ∧ <[id := rs]> graph !! x = None) set).
  - rewrite size_union, size_singleton; [done|]. apply disjoint_singleton_l.
    rewrite elem_of_filter, lookup_insert_eq. naive_solver.
  - apply set_eq. intros x. rewrite elem_of_union, elem_of_singleton, !elem_of_filter.
    destruct (decide (id = x)) as [<-|Hx]; [rewrite lookup_insert_eq|rewrite lookup_insert_ne by done]; naive_solver.
Qed.

Lemma left_out_again graph id rs rs' :
  graph !! id = Some rs' → left_out (<[id := rs]> graph) = left_out graph.
Proof.
  intros Hg. unfold left_out. f_equal. apply set_eq. intros x. rewrite !elem_of_filter.
  destruct (decide (id = x)) as [<-|Hx]; [rewrite lookup_insert_eq, Hg|rewrite lookup_insert_ne by done]; naive_solver.
Qed.

(** What handling an event of the store does to the graph and the queue. *)
Definition visited (graph : Graph) (id : string) : Graph := <[id := references id]> graph.

Definition queued (graph : Graph) (id : string) : list string :=
  filter (λ a, visited graph id !! a = None) (conflicted_auth id).

Lemma visit_cost graph id todo :
  id ∈ set → is_Some (found id) →
  (S (costs (visited graph id) (todo ++ queued graph id)) ≤ costs graph (id :: todo))%nat.
Proof.
  intros Hset Hf. rewrite costs_app, costs_cons.
  assert (Hq : (length (queued graph id) ≤ K)%nat).
  { unfold queued. etrans; [apply length_filter|by apply HK]. }
  rewrite (costs_fresh _ (queued graph id)) by (intros x; unfold queued; rewrite list_elem_of_filter; by intros []).
  assert (Hmono : (costs (visited graph id) todo ≤ costs graph todo)%nat ∧
                  (S (K * chain_cost (left_out (visited graph id))) ≤ cost graph id)%nat); [|nia].
  unfold visited in *. destruct (graph !! id) as [rs'|] eqn:Hg.
  - pose proof (left_out_again graph id (references id) rs' Hg) as Hl. split.
    + apply costs_mono. intros x _. unfold cost. rewrite Hl.
      destruct (decide (id = x)) as [<-|Hx]; [by rewrite lookup_insert_eq, Hg|by rewrite lookup_insert_ne].
    + unfold cost. rewrite Hg, Hl. done.
  - pose proof (left_out_insert graph id (references id) Hset Hf Hg) as Hl. split.
    + apply costs_mono. intros x _. unfold cost. destruct (decide (id = x)) as [<-|Hx].
      * by rewrite lookup_insert_eq, Hg, Hl.
      * rewrite lookup_insert_ne, Hl by done. apply chain_cost_mono. case_bool_decide; lia.
    + unfold cost. rewrite Hg, Hl. done.
Qed.

(** The graph holds what the store says, and what it refers to is there, queued
    or absent from the store; everything in sight is in [P]. *)
Record walking (P : string → Prop) (graph : Graph) (todo : list string) : Prop := {
  walk_graph : ∀ id rs, graph !! id = Some rs → is_Some (found id) ∧ rs = references id ∧ P id;
  walk_edges : ∀ id a, is_Some (graph !! id) → a ∈ conflicted_auth id →
    is_Some (graph !! a) ∨ a ∈ todo ∨ found a = None;
  walk_todo : ∀ id, id ∈ todo → id ∈ set ∧ P id
}.

(** [P] is closed under the references of the events the store has. *)
Definition chain_closed (P : string → Prop) : Prop :=
  ∀ id a, P id → a ∈ conflicted_auth id → P a.

Lemma walking_visit P graph id todo :
  chain_closed P → is_Some (found id) → walking P graph (id :: todo) →
  walking P (visited graph id) (todo ++ queued graph id).
Proof.
  intros Hclosed Hf [Hg He Ht]. destruct (Ht id ltac:(left)) as [Hset HP].
  assert (Hin : ∀ a, is_Some (graph !! a) → is_Some (visited graph id !! a)).
  { intros a Ha. unfold visited. destruct (decide (id = a)) as [<-|]; [by rewrite lookup_insert_eq|].
    by rewrite lookup_insert_ne. }
  split.
  - intros x rs. unfold visited. destruct (decide (id = x)) as [<-|Hx].
    + rewrite lookup_insert_eq. by intros [= <-].
    + rewrite lookup_insert_ne by done. apply Hg.
  - intros x a Hx Ha. destruct (visited graph id !! a) eqn:Hva; [by left|]. right.
    destruct (decide (id = x)) as [<-|Hne].
    + left. apply elem_of_app. right. by apply list_elem_of_filter.
    + unfold visited in Hx. rewrite lookup_insert_ne in Hx by done.
      destruct (He x a Hx Ha) as [Hga|[Hta|Hfa]]; [|left|by right].
      * apply Hin in Hga. rewrite Hva in Hga. by destruct Hga.
      * apply elem_of_cons in Hta as [->|Hta]; [|apply elem_of_app; by left].
        unfold visited in Hva. by rewrite lookup_insert_eq in Hva.
  - intros x [Hx|Hx]%elem_of_app; [apply Ht; by right|].
    apply list_elem_of_filter in Hx as [_ Hx]. split; [by eapply conflicted_auth_set|by eapply Hclosed].
Qed.

Lemma walking_skip P graph id todo :
  found id = None → walking P graph (id :: todo) → walking P graph todo.
Proof.
  intros Hf [Hg He Ht]. split; [done| |intros x Hx; apply Ht; by right].
  intros x a Hx Ha. destruct (He x a Hx Ha) as [|[[->|]%elem_of_cons|]]; auto.
Qed.

Lemma walking_perm P graph todo todo' : todo ≡ₚ todo' → walking P graph todo → walking P graph todo'.
Proof. intros Hp [Hg He Ht]. split; [done|..]; setoid_rewrite <- Hp; done. Qed.

Lemma walk_spec P fuel site graph todo :
  chain_closed P → walking P graph todo → (costs graph todo ≤ fuel)%nat →
  ∃ graph', walk_auth_chain fuel site set fetch graph todo = Ok graph' ∧ walking P graph' [] ∧
    ∀ id, is_Some (graph !! id) ∨ id ∈ todo ∧ is_Some (found id) → is_Some (graph' !! id).
Proof.
  intros Hclosed. revert graph todo. induction fuel as [|fuel IH]; intros graph todo Hw Hfuel;
    cbn [walk_auth_chain]; unfold next_ready;
    match goal with |- context [hash_order ?s todo] =>
      pose proof (hash_order_perm s _ todo) as Hp; destruct (hash_order s todo) as [|id rest] eqn:Ho end.
  1,3: apply Permutation_nil_l in Hp; subst todo; exists graph; split_and!;
    [done|done|intros id [|[?%elem_of_nil]]; done].
  all: rewrite <- (costs_perm graph _ _ Hp) in Hfuel; apply (walking_perm _ _ _ _ (symmetry Hp)) in Hw.
  { rewrite costs_cons in Hfuel. unfold cost in Hfuel.
    match goal with _ : (chain_cost ?n + _ ≤ _)%nat |- _ => pose proof (chain_cost_pos n) end. lia. }
  rewrite fetch_optional_found, bind_Ok. destruct (found id) as [ev|] eqn:Hf.
  - rewrite (found_id id ev Hf). destruct (walk_todo _ _ _ Hw id ltac:(left)) as [Hset _].
    rewrite (visit_auths_spec id _ _ (default [] (graph !! id))) by apply lookup_insert_eq.
    rewrite bind_Ok. cbn beta iota. rewrite insert_insert_eq.
    assert (Hvis : <[id := foldl add_reference (default [] (graph !! id))
                      (filter (λ a, a ∈ set) (auth_events ev))]> graph = visited graph id).
    { unfold visited, references. f_equal. destruct (graph !! id) as [rs|] eqn:Hg; simpl.
      - destruct (walk_graph _ _ _ Hw id rs Hg) as (_ & -> & _). unfold references, conflicted_auth. rewrite Hf.
        apply add_references_again.
      - unfold conflicted_auth. by rewrite Hf. }
    assert (Hque : filter (λ a, <[id := default [] (graph !! id)]> graph !! a = None)
                     (filter (λ a, a ∈ set) (auth_events ev)) = queued graph id).
    { unfold queued, conflicted_auth, visited. rewrite Hf. apply filter_ext_in. intros a _.
      destruct (decide (id = a)) as [<-|]; [by rewrite !lookup_insert_eq|by rewrite !lookup_insert_ne]. }
    rewrite Hvis, Hque.
    destruct (IH (visited graph id) (rest ++ queued graph id)) as (graph' & -> & Hw' & Hin).
    + by apply walking_visit; [|rewrite Hf|].
    + pose proof (visit_cost graph id rest Hset ltac:(by rewrite Hf)). lia.
    + exists graph'. split_and!; [done|done|]. intros x Hx. apply Hin.
      unfold visited. destruct (decide (id = x)) as [<-|Hne]; [rewrite lookup_insert_eq; by left|].
      rewrite lookup_insert_ne by done. destruct Hx as [|[Hx Hfx]]; [by left|right]. split; [|done].
      rewrite <- Hp in Hx. apply elem_of_cons in Hx as [|Hx]; [done|]. apply elem_of_app. by left.
  - destruct (IH graph rest) as (graph' & -> & Hw' & Hin).
    + by apply (walking_skip P graph id).
    + rewrite costs_cons in Hfuel. pose proof (chain_cost_pos (if bool_decide (is_Some (graph !! id)) then
        S (left_out graph) else left_out graph)). unfold cost in Hfuel. lia.
    + exists graph'. split_and!; [done|done|]. intros x Hx. apply Hin.
      destruct Hx as [|[Hx Hfx]]; [by left|right]. split; [|done].
      rewrite <- Hp in Hx. apply elem_of_cons in Hx as [->|]; [|done]. rewrite Hf in Hfx. by destruct Hfx.
Qed.

(** The power events among the conflicted events, and their auth chains within
    the conflicted set. *)
Definition power_root (id : string) : Prop :=
  id ∈ set ∧ match found id with Some ev => is_power_event ev = true | None => False end.

Definition in_power_chain (id : string) : Prop :=
  ∃ root, power_root root ∧ rtc (λ x a, a ∈ conflicted_auth x) root id.

Definition power_set (id : string) : Prop := in_power_chain id ∧ is_Some (found id).

Lemma in_power_chain_closed : chain_closed in_power_chain.
Proof. intros id a (root & Hroot & Hr) Ha. exists root. split; [done|]. by eapply rtc_r. Qed.

Definition chain_fuel : nat := chain_cost (S (size set)).

Lemma fill_graph_spec fuel ids graph :
  (chain_fuel ≤ fuel)%nat → (∀ id, id ∈ ids → id ∈ set) → walking in_power_chain graph [] →
  ∃ graph', fill_graph fuel set fetch ids graph = Ok graph' ∧ walking in_power_chain graph' [] ∧
    ∀ id, is_Some (graph !! id) ∨ id ∈ ids ∧ power_root id → is_Some (graph' !! id).
Proof.
  intros Hfuel. revert graph. induction ids as [|id ids IH]; intros graph Hids Hw; cbn [fill_graph].
  { exists graph. split_and!; [done|done|]. intros id [|[?%elem_of_nil]]; done. }
  unfold is_power_event_id. rewrite fetch_optional_found, !bind_Ok.
  assert (Hstep : ∃ graph1, (if match found id with Some ev => is_power_event ev | None => false end
      then add_event_auth_chain fuel set graph id fetch else Ok graph) = Ok graph1 ∧
      walking in_power_chain graph1 [] ∧ ∀ x, is_Some (graph !! x) ∨ x = id ∧ power_root x → is_Some (graph1 !! x)).
  { destruct (found id) as [ev|] eqn:Hf; [destruct (is_power_event ev) eqn:Hpow|].
    2,3: exists graph; split_and!; [done|done|]; intros x [Hx|[-> [_ Hr]]]; [done|]; rewrite Hf in Hr; (done || congruence).
    assert (Hroot : power_root id) by (split; [apply Hids; left|by rewrite Hf]).
    destruct (walk_spec in_power_chain fuel ["auth_chain"; id]%string graph [id]) as (graph1 & Hg1 & Hw1 & Hin).
    - apply in_power_chain_closed.
    - destruct Hw as [Hwg Hwe Hwt]. split; [done| |].
      + intros x a Hx Ha. destruct (Hwe x a Hx Ha) as [|[?%elem_of_nil|]]; tauto.
      + intros x ->%list_elem_of_singleton. split; [apply Hids; left|]. by exists id.
    - etrans; [|exact Hfuel]. rewrite costs_cons, Nat.add_0_r. unfold cost, chain_fuel.
      assert (left_out graph ≤ size set)%nat.
      { unfold left_out. apply subseteq_size. intros x. by rewrite elem_of_filter; intros []. }
      apply chain_cost_mono. case_bool_decide; lia.
    - exists graph1. split_and!; [done|done|]. intros x [Hx|[-> _]]; apply Hin; [by left|right].
      split; [left|by rewrite Hf]. }
  destruct Hstep as (graph1 & -> & Hw1 & Hin1). rewrite bind_Ok.
  destruct (IH graph1) as (graph' & -> & Hw' & Hin'); [set_solver|done|].
  exists graph'. split_and!; [done|done|]. intros x Hx. apply Hin'.
  destruct Hx as [Hx|[[->|Hx]%elem_of_cons Hr]]; [left; apply Hin1; by left|left; apply Hin1; by right|by right].
Qed.

(** The graph the walks build is the power set with its references, in whatever
    order they run. *)
Lemma filled_graph fuel ids :
  (chain_fuel ≤ fuel)%nat → ids ≡ₚ elements set →
  ∃ graph, fill_graph fuel set fetch ids ∅ = Ok graph ∧
    ∀ id rs, graph !! id = Some rs ↔ power_set id ∧ rs = references id.
Proof.
  intros Hfuel Hids. destruct (fill_graph_spec fuel ids ∅ Hfuel) as (graph & Hg & [Hwg Hwe _] & Hin).
  - intros id. by rewrite Hids, elem_of_elements.
  - split; intros id; [intros rs; by rewrite lookup_empty|intros a; rewrite lookup_empty; by intros []|].
    by intros ?%elem_of_nil.
  - exists graph. split; [done|]. intros id rs. split.
    + intros Hid. destruct (Hwg id rs Hid) as (Hf & -> & HP). done.
    + intros [[(root & Hroot & Hr) Hf] ->].
      assert (Hid : is_Some (graph !! id)).
      { assert (Hr0 : is_Some (graph !! root)).
        { apply Hin. right. split; [|done]. rewrite Hids, elem_of_elements. apply Hroot. }
        clear Hroot. revert Hf. induction Hr as [x|x y z Hxy Hyz IH]; intros Hf; [done|].
        apply IH; [|done]. destruct (Hwe x y Hr0 Hxy) as [|[?%elem_of_nil|Hfy]]; [done..|].
        destruct Hyz as [|y z' z Hyz' _]; [by rewrite Hfy in Hf; destruct Hf|].
        unfold conflicted_auth in Hyz'. rewrite Hfy in Hyz'. by apply elem_of_nil in Hyz'. }
      destruct Hid as [rs Hid]. rewrite Hid. by destruct (Hwg id rs Hid) as (_ & -> & _).
Qed.

End Chain.

(** ** The sort *)

Section Sort.
Context `{Ruma}.
Context (rules : AuthorizationRules) (fetch : FetchEvent) (set : gset string).
Context (levels : string → UserPowerLevel).

(** Events are older than the events that cite them. *)
Definition auth_acyclic : Prop :=
  ∃ rank : string → nat, ∀ id ev a, fetch id = Ok ev → a ∈ auth_events ev → (rank a < rank id)%nat.

#[local] Notation power_set := (power_set fetch set).
#[local] Notation conflicted_auth := (conflicted_auth fetch set).

(** What the tie-breaker looks at. *)
Definition power_info (id : string) : UserPowerLevel * Z :=
  (levels id, match found fetch id with Some ev => origin_server_ts ev | None => 0 end).

(** The power set in an order in which auth events come first. *)
Definition power_ordered (order : list string) : Prop :=
  NoDup order ∧ (∀ id, id ∈ order ↔ power_set id) ∧
  ∀ i id a, order !! i = Some id → a ∈ conflicted_auth id → is_Some (found fetch a) →
    a ∈ take i order.

Context (Hstore : store_ok fetch) (Hacyclic : auth_acyclic).
Context (Hlevels : ∀ id, power_set id → power_level_for_sender id rules fetch = Ok (levels id)).

Lemma sender_levels_spec ids :
  (∀ id, id ∈ ids → power_set id) →
  sender_levels rules fetch ids = Ok ((λ id, (id, levels id)) <$> ids).
Proof.
  induction ids as [|id ids IH]; intros Hids; [done|]. cbn [sender_levels].
  rewrite Hlevels by (apply Hids; left). rewrite bind_Ok, IH by set_solver. by rewrite bind_Ok.
Qed.

Lemma level_query_spec ids id :
  NoDup ids → id ∈ ids → power_set id →
  level_query (list_to_map ((λ id, (id, levels id)) <$> ids)) fetch id = Ok (power_info id).
Proof.
  intros Hnd Hid [_ [ev Hf]]. unfold level_query, power_info. rewrite Hf.
  assert (Hl : (list_to_map ((λ id, (id, levels id)) <$> ids) : gmap string UserPowerLevel) !! id
               = Some (levels id)).
  { apply elem_of_list_to_map_1.
    - rewrite <- list_fmap_compose. rewrite (list_fmap_ext _ (λ x, x)) by done. by rewrite list_fmap_id.
    - apply list_elem_of_fmap. by exists id. }
  rewrite Hl. cbn [ok_or]. rewrite bind_Ok, (found_fetch fetch id ev Hf), bind_Ok. done.
Qed.

(** The graph's entries are the power set with its references. *)
Definition power_entries (entries : list (string * list string)) : Prop :=
  NoDup entries.*1 ∧ ∀ id rs, (id, rs) ∈ entries ↔ power_set id ∧ rs = references fetch set id.

Lemma power_entries_depends entries id a :
  power_entries entries →
  (∃ rs, (id, rs) ∈ entries) →
  depends entries id a ↔ a ∈ conflicted_auth id ∧ is_Some (found fetch a).
Proof.
  intros [Hnd He] [rs Hid]. pose proof (proj1 (He id rs) Hid) as [Hpow Hrs].
  unfold depends, refs. rewrite (proj2 (graph0_lookup entries Hnd id rs) Hid). subst rs. simpl.
  rewrite elem_of_references. split.
  - intros [Ha [rs' Hrs']]. split; [done|]. apply (graph0_lookup entries Hnd) in Hrs'. by apply He in Hrs' as [[_ Hf] _].
  - intros [Ha Hf]. split; [done|]. exists (references fetch set a). apply (graph0_lookup entries Hnd).
    apply He. split; [|done]. split; [|done]. by eapply in_power_chain_closed; [apply Hpow|].
Qed.

Lemma power_entries_acyclic entries : power_entries entries → acyclic entries.
Proof.
  intros Hpe. destruct Hacyclic as [rank Hrank]. exists rank. intros id a Hd.
  assert (Hid : ∃ rs, (id, rs) ∈ entries).
  { destruct Hpe as [Hnd _], Hd as [Ha _]. unfold refs in Ha.
    destruct (graph0 entries !! id) as [rs|] eqn:Hg; [|by apply elem_of_nil in Ha].
    exists rs. by apply (graph0_lookup entries Hnd). }
  apply (power_entries_depends entries id a Hpe Hid) in Hd as [Ha _].
  unfold PowerSort.conflicted_auth in Ha. destruct (found fetch id) as [ev|] eqn:Hf; [|by apply elem_of_nil in Ha].
  apply list_elem_of_filter in Ha as [_ Ha]. by apply (Hrank id ev); [apply found_fetch|].
Qed.

Lemma power_entries_keys entries id : power_entries entries → id ∈ entries.*1 ↔ power_set id.
Proof.
  intros [_ He]. rewrite list_elem_of_fmap. split.
  - intros ([id' rs] & -> & Hin). by apply He in Hin as [? _].
  - intros Hp. exists (id, references fetch set id). split; [done|]. by apply He.
Qed.

Lemma power_ordered_iff entries order :
  power_entries entries → topological_order entries order ↔ power_ordered order.
Proof.
  intros Hpe. pose proof (power_entries_keys entries) as Hkeys.
  assert (Hdep : ∀ id a, power_set id → depends entries id a ↔ a ∈ conflicted_auth id ∧ is_Some (found fetch a)).
  { intros id a Hp. apply power_entries_depends; [done|]. exists (references fetch set id). by apply Hpe. }
  assert (Hset : ∀ order, NoDup order → (order ≡ₚ entries.*1 ↔ ∀ id, id ∈ order ↔ power_set id)).
  { intros o Hnd. split.
    - intros Hp id. by rewrite Hp, Hkeys.
    - intros Ho. apply NoDup_Permutation; [done|apply Hpe|]. intros id. by rewrite Ho, Hkeys. }
  unfold topological_order, power_ordered. split.
  - intros [Hp Hd]. assert (Hnd : NoDup order) by (rewrite Hp; apply Hpe).
    pose proof (proj1 (Hset order Hnd) Hp) as Hin. split_and!; [done|done|].
    intros i id a Hi Ha Hf. apply (Hd i id Hi), Hdep; [|done]. apply Hin. by eapply list_elem_of_lookup_2.
  - intros (Hnd & Hin & Hd). split; [by apply Hset|]. intros i id Hi a Ha.
    apply Hdep in Ha as [Ha Hf]; [by apply (Hd i id)|]. apply Hin. by eapply list_elem_of_lookup_2.
Qed.

(** The most references any conflicted event has. *)
Definition max_references : nat := max_list ((λ id, length (conflicted_auth id)) <$> elements set).

Lemma max_references_le id : id ∈ set → (length (conflicted_auth id) ≤ max_references)%nat.
Proof.
  intros Hid. apply max_list_elem_of_le, list_elem_of_fmap. exists id. by rewrite elem_of_elements.
Qed.

Definition power_fuel : nat := chain_fuel set max_references.

Lemma power_sort_spec :
  ∃ order, power_ordered order ∧
    (∀ (o : HashOrder) fuel, (power_fuel ≤ fuel)%nat → power_sort fuel rules set fetch = Ok order) ∧
    ∀ order', power_ordered order' → lex_before power_info order order'.
Proof.
  destruct (filled_graph (H0 := in_order) fetch set Hstore max_references max_references_le power_fuel
              (elements set)) as (graph & _ & Hg); [done|done|].
  assert (Hpe : power_entries (map_to_list graph)).
  { split; [apply NoDup_fst_map_to_list|]. intros id rs. by rewrite elem_of_map_to_list. }
  destruct (topological_sort_spec (map_to_list graph) power_info) as (order & Hsort & Hto & Hleast);
    [apply Hpe|by apply power_entries_acyclic|].
  exists order. split_and!; [by apply (power_ordered_iff _ _ Hpe)| |].
  - intros o fuel Hfuel. unfold power_sort.
    destruct (filled_graph fetch set Hstore max_references max_references_le fuel
      (hash_order ["power_sort"; "set"]%string (elements set))) as (graph' & -> & Hg'); [done|apply hash_order_perm|].
    assert (graph' = graph) as ->.
    { apply map_eq. intros id. apply option_eq. intros rs. by rewrite Hg, Hg'. }
    rewrite bind_Ok. set (ids := hash_order _ (map_to_list graph).*1).
    assert (Hids : ids ≡ₚ (map_to_list graph).*1) by apply hash_order_perm.
    assert (Hmem : ∀ id, id ∈ ids → power_set id).
    { intros id. rewrite Hids. by apply power_entries_keys. }
    rewrite sender_levels_spec, bind_Ok by done. apply Hsort; [apply hash_order_perm|].
    intros id Hid. rewrite <- Hids in Hid. apply level_query_spec; [|done|by apply Hmem].
    rewrite Hids. apply Hpe.
  - intros order' Ho. apply Hleast. by apply power_ordered_iff.
Qed.

End Sort.

(** C4: sorting the power events terminates and gives, for every hash order
    and every completion order of the fetches, one and the same list: the power
    events of the conflicted set with the part of their auth chains that is in
    the set and in the store, each once, every event after its auth events, and
    the smallest such list under the tie-breaking order of the senders' power
    levels, the timestamps and the identifiers. *)
Theorem power_sort_correct `{Ruma} (rules : AuthorizationRules) (fetch : FetchEvent)
    (set : gset string) (levels : string → UserPowerLevel)
    (Hstore : store_ok fetch) (Hacyclic : auth_acyclic fetch)
    (Hlevels : ∀ id, power_set fetch set id → power_level_for_sender id rules fetch = Ok (levels id)) :
  ∃ order enough,
    (∀ (o : HashOrder) fuel, (enough ≤ fuel)%nat → power_sort fuel rules set fetch = Ok order) ∧
    power_ordered fetch set order ∧
    ∀ order', power_ordered fetch set order' →
      lex_before (power_info fetch levels) order order'.
Proof.
  destruct (power_sort_spec rules fetch set levels) as (order & Ho & Hsort & Hleast); [done..|].
  by exists order, (power_fuel fetch set).
Qed.

(** ** The forked room *)

Lemma fetch_id_store l : store_ok (fetch_id l).
Proof. intros id. destruct (fetch_id_cases l id) as [(ev & ? & ? & _)|]; eauto. Qed.

Lemma fetch_id_acyclic l (rank : string → nat) :
  Forall (λ ev, Forall (λ a, (rank a < rank (event_id ev))%nat) (auth_events ev)) l →
  auth_acyclic (fetch_id l).
Proof.
  intros Hl. exists rank. intros id ev a Hf Ha.
  destruct (fetch_id_cases l id) as [(ev' & Hf' & <- & Hin)|(e & Hf' & _)]; rewrite Hf in Hf'; [|done].
  injection Hf' as ->. rewrite Forall_forall in Hl. specialize (Hl ev' Hin).
  rewrite Forall_forall in Hl. by apply Hl.
Qed.

Lemma fork_acyclic : auth_acyclic fork_fetch.
Proof. apply (fetch_id_acyclic fork_events fork_rank). apply (bool_decide_unpack _). by vm_compute. Qed.

Definition fork_conflicted : gset string := list_to_set ["$p2"; "$p1"; "$b"; "$ban"; "$t1"; "$t2"]%string.

Definition fork_level (id : string) : UserPowerLevel :=
  match power_level_for_sender id rules_v10 fork_fetch with Ok l => l | _ => IntLevel 0 end.

Lemma fork_levels id : is_Some (found fork_fetch id) →
  power_level_for_sender id rules_v10 fork_fetch = Ok (fork_level id).
Proof.
  intros [ev Hf]. assert (Hin : id ∈ fork_ids).
  { apply found_fetch in Hf. destruct (fetch_id_cases fork_events id) as [(ev' & Hf' & <- & Hin)|(e & Hf' & _)];
      unfold fork_fetch in Hf; rewrite Hf in Hf'; [|done].
    by apply list_elem_of_fmap_2. }
  assert (Hall : Forall (λ id, is_ok (power_level_for_sender id rules_v10 fork_fetch) = true) fork_ids).
  { apply (bool_decide_unpack _). by vm_compute. }
  rewrite Forall_forall in Hall. specialize (Hall id Hin). unfold fork_level.
  by destruct (power_level_for_sender id rules_v10 fork_fetch).
Qed.

Lemma power_sort_correct_witness :
  (∃ order enough,
    (∀ (o : HashOrder) fuel, (enough ≤ fuel)%nat →
       power_sort fuel rules_v10 fork_conflicted fork_fetch = Ok order) ∧
    power_ordered fork_fetch fork_conflicted order) ∧
  @power_sort _ reversed 40 rules_v10 fork_conflicted fork_fetch
    = Ok ["$p1"; "$p2"; "$b"; "$ban"]%string.
Proof.
  split; [|by vm_compute].
  destruct (power_sort_correct rules_v10 fork_fetch fork_conflicted fork_level)
    as (order & enough & Hsort & Hord & _).
  - apply fetch_id_store.
  - apply fork_acyclic.
  - intros id [_ Hf]. by apply fork_levels.
  - by exists order, enough.
Defined.
