(* ===== verification/MainlineSort.v ===== *)
(** * MainlineSort: ordering by the mainline of power levels events
      (src/service/rooms/state_res/resolve/mainline_sort.rs)

    The mainline is the chain of power levels events reached from the current
    one through auth events; an event is placed by the first mainline event on
    its own such chain.  Both walks have fuel and abort without it. *)

From stdpp Require Import sorting.
From S2P Require Import Prelude Json Order CoreError RoomEvents SampleRoom AuthTypes RoomMember.
From S2P Require Import EventAuth TopologicalSort PowerSort.

(** An event to sort: its identifier, mainline position and timestamp. *)
Notation Placed := (string * (Z * Z))%type.

(** The closure of [sort_by]. *)
Definition placed_cmp : Placed → Placed → comparison :=
  cmp_then (cmp_on (λ a : Placed, a.2.1) Z.compare)
    (cmp_then (cmp_on (λ a : Placed, a.2.2) Z.compare)
       (cmp_then (cmp_on (λ a : Placed, a.1) String.compare)
          (cmp_then (cmp_on (λ a : Placed, a.2.1) Z.compare)
             (cmp_on (λ a : Placed, a.2.2) Z.compare)))).

Section Defs.
Context `{Ruma, Usize, HashOrder}.

(** [get_power_levels_auth_event] over the event's auth events. *)
Fixpoint get_power_levels_auth_event (auth_events : list string) (fetch : FetchEvent)
  : Res (option Pdu) :=
  match auth_events with
  | [] => Ok None
  | auth_event_id :: rest =>
      auth_event ← fetch auth_event_id;
      if is_type_and_state_key auth_event ROOM_POWER_LEVELS ""%string then Ok (Some auth_event)
      else get_power_levels_auth_event rest fetch
  end.

(** The [try_unfold] that collects the mainline, newest first. *)
Fixpoint mainline (fuel : nat) (power_level_event_id : option string) (fetch : FetchEvent)
  : Res (list string) :=
  match power_level_event_id with
  | None => Ok []
  | Some power_level_event_id =>
      match fuel with
      | O => Panic
      | S fuel =>
          power_level_event ← fetch power_level_event_id;
          next ← get_power_levels_auth_event (auth_events power_level_event) fetch;
          rest ← mainline fuel (option_map event_id next) fetch;
          Ok (event_id power_level_event :: rest)
      end
  end.

(** [positions]: oldest first; collecting into a map keeps the last of two
    entries with one key. *)
Definition positions (line : list string) : gmap string Z :=
  list_to_map (reverse (imap (λ i event_id, (event_id, Z.of_nat i)) (reverse line))).

(** [mainline_position] of an event. *)
Fixpoint mainline_position (fuel : nat) (current_event : Pdu) (positions : gmap string Z)
    (fetch : FetchEvent) : Res Z :=
  match positions !! event_id current_event with
  | Some position => Ok (sat_add position 1)
  | None =>
      match fuel with
      | O => Panic
      | S fuel =>
          next ← get_power_levels_auth_event (auth_events current_event) fetch;
          match next with
          | Some event => mainline_position fuel event positions fetch
          | None => Ok 0
          end
      end
  end.

(** The closure of [broad_then]. *)
Definition place_event (fuel : nat) (positions : gmap string Z) (fetch : FetchEvent)
    (event_id : string) : Res (option Placed) :=
  match fetch event_id with
  | Err error => if is_not_found error then Ok None else Err error
  | Panic => Panic
  | Ok event =>
      match mainline_position fuel event positions fetch with
      | Err error => if is_not_found error then Ok None else Err error
      | Panic => Panic
      | Ok position => Ok (Some (event_id, (position, origin_server_ts event)))
      end
  end.

Fixpoint place_events (fuel : nat) (positions : gmap string Z) (fetch : FetchEvent)
    (events : list string) : Res (list Placed) :=
  match events with
  | [] => Ok []
  | event_id :: rest =>
      event ← place_event fuel positions fetch event_id;
      events ← place_events fuel positions fetch rest;
      Ok (option_list event ++ events)
  end.

(** [mainline_sort] *)
Definition mainline_sort (fuel : nat) (power_level_event_id : option string) (events : list string)
    (fetch : FetchEvent) : Res (list string) :=
  line ← mainline fuel power_level_event_id fetch;
  placed ← place_events fuel (positions line) fetch (hash_order ["mainline"]%string events);
  Ok (merge_sort (cmp_le placed_cmp) placed).*1.

End Defs.

(** ** The specification's mainline *)

Section Spec.
Context `{Ruma} (fetch : FetchEvent).

(** [line] is the mainline that starts at the given power levels event. *)
Inductive mainline_of : option string → list string → Prop :=
| line_end : mainline_of None []
| line_step id ev next line :
    fetch id = Ok ev → get_power_levels_auth_event (auth_events ev) fetch = Ok next →
    mainline_of (option_map event_id next) line →
    mainline_of (Some id) (event_id ev :: line).

(** The first mainline event on the chain of power levels events from [ev]. *)
Inductive rooted_at (line : list string) : Pdu → option string → Prop :=
| root_here ev : event_id ev ∈ line → rooted_at line ev (Some (event_id ev))
| root_next ev next r :
    event_id ev ∉ line → get_power_levels_auth_event (auth_events ev) fetch = Ok (Some next) →
    rooted_at line next r → rooted_at line ev r
| root_none ev :
    event_id ev ∉ line → get_power_levels_auth_event (auth_events ev) fetch = Ok None →
    rooted_at line ev None.

(** How recent a root is: the oldest mainline event counts one, none counts
    nothing. *)
Definition recency (line : list string) (root : option string) : Z :=
  match root with
  | None => 0
  | Some id => match list_find (λ x, x = id) line with
               | Some (i, _) => zlen line - Z.of_nat i
               | None => 0
               end
  end.

Lemma rooted_at_unique line ev r r' : rooted_at line ev r → rooted_at line ev r' → r = r'.
Proof.
  intros Hr. revert r'. induction Hr as [ev Hin|ev next r Hn Hnext _ IH|ev Hn Hnone]; intros r' Hr';
    destruct Hr' as [ev' Hin'|ev' next' r' Hn' Hnext' Hr'|ev' Hn' Hnone']; try done; try congruence.
  apply IH. by replace next with next' by congruence.
Qed.

Context (Hstore : store_ok fetch).

(** The three ways the search for a power levels event among the auth events
    ends. *)
Lemma power_auth_cases l :
  get_power_levels_auth_event l fetch = Ok None ∨
  (∃ next, get_power_levels_auth_event l fetch = Ok (Some next) ∧ event_id next ∈ l ∧
     fetch (event_id next) = Ok next) ∨
  ∃ e, get_power_levels_auth_event l fetch = Err e ∧ is_not_found e = true.
Proof.
  induction l as [|id l IH]; cbn [get_power_levels_auth_event]; [by left|].
  destruct (Hstore id) as [(ev & Hf & Hid)|(e & Hf & Hnf)]; rewrite Hf; [rewrite bind_Ok|eauto].
  destruct (is_type_and_state_key _ _ _).
  - right; left. exists ev. rewrite Hid. split_and!; [done|left|done].
  - destruct IH as [|[(next & ? & ? & ?)|]]; [by left|right; left|by right; right].
    exists next. split_and!; [done|by right|done].
Qed.

Lemma list_find_index (line : list string) i x :
  NoDup line → line !! i = Some x → list_find (λ y, y = x) line = Some (i, x).
Proof.
  intros Hnd Hi. apply list_find_Some. split_and!; [done|done|]. intros j y Hj Hlt ->.
  assert (j = i) as -> by by apply (NoDup_lookup line j i x). lia.
Qed.

Lemma positions_spec line x p :
  NoDup line →
  positions line !! x = Some p ↔ ∃ i, line !! i = Some x ∧ p = zlen line - 1 - Z.of_nat i.
Proof.
  intros Hnd. unfold positions. rewrite <- elem_of_list_to_map.
  - rewrite elem_of_reverse, elem_of_lookup_imap. split.
    + intros (i & y & [= -> ->] & Hi). pose proof (lookup_lt_Some _ _ _ Hi) as Hlt.
      rewrite length_reverse in Hlt. rewrite reverse_lookup in Hi by done.
      exists (length line - S i)%nat. split; [done|]. unfold zlen. lia.
    + intros (i & Hi & ->). pose proof (lookup_lt_Some _ _ _ Hi) as Hlt.
      exists (length line - S i)%nat, x. rewrite reverse_lookup by lia.
      replace (length line - S (length line - S i))%nat with i by lia. split; [|done].
      f_equal. unfold zlen. lia.
  - rewrite fmap_reverse, fmap_imap, reverse_Permutation.
    rewrite (imap_ext _ (const (λ x, x))) by done. by rewrite imap_const, list_fmap_id, reverse_Permutation.
Qed.

Lemma positions_recency `{Usize} line x :
  NoDup line → zlen line ≤ usize_max →
  match positions line !! x with
  | Some p => x ∈ line ∧ sat_add p 1 = recency line (Some x)
  | None => x ∉ line
  end.
Proof.
  intros Hnd Hle. destruct (positions line !! x) as [p|] eqn:Hp.
  - apply positions_spec in Hp as (i & Hi & ->); [|done]. split; [by eapply list_elem_of_lookup_2|].
    unfold recency. rewrite (list_find_index line i x) by done. pose proof (lookup_lt_Some _ _ _ Hi).
    unfold sat_add, zlen in *. lia.
  - intros Hin. apply list_elem_of_lookup_1 in Hin as [i Hi].
    assert (Hs : positions line !! x = Some (zlen line - 1 - Z.of_nat i)); [|congruence].
    apply positions_spec; [done|]. by exists i.
Qed.

Context (rank : string → nat).
Context (Hrank : ∀ id ev a, fetch id = Ok ev → a ∈ auth_events ev → (rank a < rank id)%nat).

Lemma mainline_of_ranks p line :
  mainline_of p line → NoDup line ∧ ∀ x, x ∈ line → ∃ id, p = Some id ∧ (rank x ≤ rank id)%nat.
Proof.
  induction 1 as [|id ev next line Hf Hnext _ [Hnd Hle]]; [split; [constructor|set_solver]|].
  assert (Hid : event_id ev = id).
  { destruct (Hstore id) as [(ev' & Hf' & <-)|(e & Hf' & _)]; rewrite Hf in Hf'; congruence. }
  assert (Hlt : ∀ x, x ∈ line → (rank x < rank id)%nat).
  { intros x Hx. destruct (Hle x Hx) as (y & Hy & Hxy). destruct next as [nx|]; [|done]. injection Hy as <-.
    destruct (power_auth_cases (auth_events ev)) as [|[(nx' & Hnx & Hin & _)|(e & He & _)]]; [congruence| |congruence].
    assert (nx' = nx) as -> by congruence. specialize (Hrank id ev (event_id nx) Hf Hin). lia. }
  rewrite Hid. split.
  - apply NoDup_cons. split; [|done]. intros Hin. specialize (Hlt id Hin). lia.
  - intros x [->|Hx]%elem_of_cons; exists id; split; try done. specialize (Hlt x Hx). lia.
Qed.

Lemma mainline_run p line fuel :
  mainline_of p line → (∀ id, p = Some id → (rank id < fuel)%nat) → mainline fuel p fetch = Ok line.
Proof.
  intros Hl. revert fuel. induction Hl as [|id ev next line Hf Hnext _ IH]; intros fuel Hfuel; [by destruct fuel|].
  specialize (Hfuel id eq_refl). destruct fuel as [|fuel]; [lia|]. cbn [mainline].
  rewrite Hf, bind_Ok, Hnext, bind_Ok, IH; [by rewrite bind_Ok|].
  intros x Hx. destruct next as [nx|]; [|done]. injection Hx as <-.
  destruct (power_auth_cases (auth_events ev)) as [|[(nx' & Hnx & Hin & _)|(e & He & _)]]; [congruence| |congruence].
  assert (nx' = nx) as -> by congruence. specialize (Hrank id ev (event_id nx) Hf Hin). lia.
Qed.

(** The search for the root ends, at the root or at a missing event. *)
Lemma mainline_position_run `{Usize} line ev :
  NoDup line → zlen line ≤ usize_max → fetch (event_id ev) = Ok ev →
  (∃ r, rooted_at line ev r ∧ ∀ fuel, (rank (event_id ev) < fuel)%nat →
     mainline_position fuel ev (positions line) fetch = Ok (recency line r)) ∨
  (¬ (∃ r, rooted_at line ev r) ∧ ∃ e, is_not_found e = true ∧
     ∀ fuel, (rank (event_id ev) < fuel)%nat → mainline_position fuel ev (positions line) fetch = Err e).
Proof.
  intros Hnd Hle. remember (rank (event_id ev)) as n eqn:Hn. revert ev Hn.
  induction (lt_wf n) as [n _ IH]. intros ev -> Hf.
  pose proof (positions_recency line (event_id ev) Hnd Hle) as Hpos.
  destruct (positions line !! event_id ev) as [p|] eqn:Hp.
  { left. exists (Some (event_id ev)). destruct Hpos as [Hin Hrec]. split; [by constructor|].
    intros fuel _. destruct fuel; cbn [mainline_position]; by rewrite Hp, Hrec. }
  destruct (power_auth_cases (auth_events ev)) as [Hpl|[(next & Hpl & Hin & Hfn)|(e & Hpl & Hnf)]].
  - left. exists None. split; [by apply root_none|]. intros [|fuel] Hfuel; [lia|].
    cbn [mainline_position]. by rewrite Hp, Hpl, bind_Ok.
  - pose proof (Hrank _ _ _ Hf Hin) as Hlt.
    destruct (IH (rank (event_id next)) Hlt next eq_refl Hfn) as [(r & Hr & Hrun)|(Hno & e & Hnf & Hrun)].
    + left. exists r. split; [by eapply root_next|]. intros [|fuel] Hfuel; [lia|].
      cbn [mainline_position]. rewrite Hp, Hpl, bind_Ok. apply Hrun. lia.
    + right. split.
      * intros [r Hr]. apply Hno. destruct Hr as [|? next' r ? Hpl' ?|]; [done| |congruence].
        exists r. by replace next with next' by congruence.
      * exists e. split; [done|]. intros [|fuel] Hfuel; [lia|].
        cbn [mainline_position]. rewrite Hp, Hpl, bind_Ok. apply Hrun. lia.
  - right. split; [intros [r Hr]; destruct Hr; congruence || done|].
    exists e. split; [done|]. intros [|fuel] Hfuel; [lia|]. cbn [mainline_position]. by rewrite Hp, Hpl.
Qed.

(** What [place_event] finds out about an event, given enough fuel. *)
Definition located `{Usize} (line : list string) (id : string) : option Placed :=
  match place_event (S (rank id)) (positions line) fetch id with Ok o => o | _ => None end.

Lemma located_spec `{Usize} line id :
  NoDup line → zlen line ≤ usize_max →
  (∀ fuel, (rank id < fuel)%nat → place_event fuel (positions line) fetch id = Ok (located line id)) ∧
  (∀ pl, located line id = Some pl ↔
     ∃ ev r, fetch id = Ok ev ∧ rooted_at line ev r ∧ pl = (id, (recency line r, origin_server_ts ev))).
Proof.
  intros Hnd Hle. unfold located, place_event.
  destruct (Hstore id) as [(ev & Hf & Hid)|(e & Hf & Hnf)]; rewrite Hf; [|rewrite Hnf; naive_solver].
  destruct (mainline_position_run line ev Hnd Hle) as [(r & Hr & Hrun)|(Hno & e & Hnf & Hrun)];
    rewrite ?Hid in *; [done| |].
  - rewrite (Hrun (S (rank id))) by lia. split; [intros fuel Hfuel; by rewrite Hrun|]. intros pl. split.
    + intros [= <-]. eauto.
    + intros (ev' & r' & [= <-] & Hr' & ->). by rewrite (rooted_at_unique _ _ _ _ Hr' Hr).
  - rewrite (Hrun (S (rank id))), Hnf by lia. split; [intros fuel Hfuel; by rewrite Hrun, Hnf|].
    intros pl. split; [done|]. intros (ev' & r' & [= <-] & Hr' & _). destruct Hno. by exists r'.
Qed.

Lemma place_events_run `{Usize} line events fuel :
  NoDup line → zlen line ≤ usize_max → (∀ id, id ∈ events → (rank id < fuel)%nat) →
  place_events fuel (positions line) fetch events = Ok (omap (located line) events).
Proof.
  intros Hnd Hle. induction events as [|id events IH]; intros Hfuel; [done|]. cbn [place_events].
  rewrite (proj1 (located_spec line id Hnd Hle)) by (apply Hfuel; left).
  rewrite bind_Ok, IH by set_solver. rewrite bind_Ok. simpl. by destruct (located line id).
Qed.

End Spec.

(** ** The order *)

#[global] Instance placed_cmp_lawful : LawfulCmp placed_cmp.
Proof. unfold placed_cmp. apply _. Qed.

Lemma placed_cmp_eq a b : placed_cmp a b = Eq → a = b.
Proof.
  destruct a as [x [p t]], b as [y [q u]]. unfold placed_cmp, cmp_then, cmp_on. simpl.
  destruct (Z.compare_spec p q) as [->| |]; [|done..].
  destruct (Z.compare_spec t u) as [->| |]; [|done..].
  destruct (String.compare x y) eqn:Hxy; [|done..]. by apply string_cmp_eq in Hxy as ->.
Qed.

#[global] Instance placed_le_antisym : AntiSymm eq (cmp_le placed_cmp).
Proof. intros a b Hab Hba. apply placed_cmp_eq. by apply cmp_le_antisym; [apply _|..]. Qed.

Lemma placed_cmp_lt (a b : Placed) x y p q t u :
  cmp_le placed_cmp a b → placed_cmp a b ≠ Eq → a = (x, (p, t)) → b = (y, (q, u)) →
  p < q ∨ p = q ∧ (t < u ∨ t = u ∧ String.compare a.1 b.1 = Lt).
Proof.
  intros Hle Hne -> ->. unfold cmp_le, placed_cmp, cmp_then, cmp_on in *. simpl in *.
  destruct (Z.compare_spec p q) as [->|Hpq|Hpq]; [|lia|done].
  destruct (Z.compare_spec t u) as [->|Htu|Htu]; [|lia|done].
  destruct (String.compare x y); [done|auto|done].
Qed.

(** [a] is to be placed before [b]. *)
Definition mainline_before `{Ruma} (fetch : FetchEvent) (line : list string) (a b : string) : Prop :=
  ∀ ev ev' r r', fetch a = Ok ev → fetch b = Ok ev' →
    rooted_at fetch line ev r → rooted_at fetch line ev' r' →
    recency line r < recency line r' ∨
    recency line r = recency line r' ∧
      (origin_server_ts ev < origin_server_ts ev' ∨
       origin_server_ts ev = origin_server_ts ev' ∧ String.compare a b = Lt).

Lemma mainline_sort_spec `{Ruma, Usize} (fetch : FetchEvent) p line events :
  store_ok fetch → auth_acyclic fetch → mainline_of fetch p line → zlen line ≤ usize_max →
  NoDup events →
  ∃ order enough,
    (∀ (o : HashOrder) fuel events', (enough ≤ fuel)%nat → events' ≡ₚ events →
       mainline_sort fuel p events' fetch = Ok order) ∧
    NoDup order ∧
    (∀ id, id ∈ order ↔ id ∈ events ∧ ∃ ev r, fetch id = Ok ev ∧ rooted_at fetch line ev r) ∧
    (∀ i j a b, (i < j)%nat → order !! i = Some a → order !! j = Some b →
       mainline_before fetch line a b).
Proof.
  intros Hstore [rank Hrank] Hline Hlen Hnd.
  destruct (mainline_of_ranks fetch Hstore rank Hrank p line Hline) as [Hndl _].
  pose proof (located_spec fetch Hstore rank Hrank line) as Hloc.
  set (sorted l := merge_sort (cmp_le placed_cmp) (omap (located fetch rank line) l)).
  assert (Hsub : ∀ pl, pl ∈ sorted events ↔ pl.1 ∈ events ∧ located fetch rank line pl.1 = Some pl).
  { intros pl. unfold sorted. rewrite merge_sort_Permutation, list_elem_of_omap. split.
    - intros (id & Hid & Hl). pose proof (proj1 (proj2 (Hloc id Hndl Hlen) pl) Hl) as (ev & r & _ & _ & Heq).
      rewrite Heq. simpl. by rewrite <- Heq.
    - intros [? ?]. by exists pl.1. }
  assert (Hndp : NoDup (sorted events).*1).
  { unfold sorted. rewrite merge_sort_Permutation. clear -Hnd Hloc Hndl Hlen.
    induction events as [|id l IH]; [constructor|]. apply NoDup_cons in Hnd as [Hid Hnd]. simpl.
    destruct (located fetch rank line id) as [pl|] eqn:Hl; [|by apply IH]. rewrite fmap_cons.
    apply NoDup_cons. split; [|by apply IH].
    intros (pl' & Heq & Hin)%list_elem_of_fmap. apply list_elem_of_omap in Hin as (id' & Hid' & Hl').
    apply (Hloc _ Hndl Hlen) in Hl as (? & ? & _ & _ & ->). apply (Hloc _ Hndl Hlen) in Hl' as (? & ? & _ & _ & ->).
    simpl in Heq. by subst id'. }
  exists (sorted events).*1, (S (max_list (rank <$> (option_list p ++ events)))). split_and!; [|done|..].
  - intros o fuel events' Hfuel Hperm. unfold mainline_sort.
    assert (Hmax : ∀ id, id ∈ option_list p ++ events → (rank id < fuel)%nat).
    { intros id Hid. apply (list_elem_of_fmap_2 rank), max_list_elem_of_le in Hid. lia. }
    rewrite (mainline_run fetch Hstore rank Hrank p line), bind_Ok by
      (try done; intros id ->; apply Hmax; by left).
    rewrite (place_events_run fetch Hstore rank Hrank), bind_Ok; [|done|done|].
    2: { intros id. rewrite hash_order_perm, Hperm. intros Hid. apply Hmax, elem_of_app. by right. }
    do 2 f_equal. unfold sorted. apply (StronglySorted_unique (cmp_le placed_cmp)).
    1,2: apply (StronglySorted_merge_sort (cmp_le placed_cmp)).
    by rewrite !merge_sort_Permutation, hash_order_perm, Hperm.
  - intros id. rewrite list_elem_of_fmap. setoid_rewrite Hsub. split.
    + intros (pl & -> & Hin & Hl). split; [done|]. apply (Hloc _ Hndl Hlen) in Hl as (ev & r & ? & ? & _). eauto.
    + intros (Hin & ev & r & Hf & Hr). exists (id, (recency line r, origin_server_ts ev)).
      split_and!; [done|done|]. apply (Hloc _ Hndl Hlen). simpl. eauto.
  - intros i j a b Hij Ha Hb ev ev' r r' Hfa Hfb Hra Hrb.
    apply list_lookup_fmap_Some in Ha as (pa & -> & Hpa). apply list_lookup_fmap_Some in Hb as (pb & -> & Hpb).
    assert (Hne : placed_cmp pa pb ≠ Eq).
    { intros ->%placed_cmp_eq. assert (i = j); [|lia].
      apply (NoDup_lookup (sorted events).*1 i j pb.1 Hndp); apply list_lookup_fmap_Some; by exists pb. }
    assert (Hle : cmp_le placed_cmp pa pb).
    { apply (strongly_sorted_lookup (cmp_le placed_cmp) (sorted events) i j); try done.
      apply (StronglySorted_merge_sort (cmp_le placed_cmp)). }
    apply list_elem_of_lookup_2, Hsub in Hpa as [_ Hpa]. apply list_elem_of_lookup_2, Hsub in Hpb as [_ Hpb].
    apply (Hloc _ Hndl Hlen) in Hpa as (eva & ra & Hfa' & Hra' & Hpa).
    apply (Hloc _ Hndl Hlen) in Hpb as (evb & rb & Hfb' & Hrb' & Hpb).
    assert (eva = ev) as -> by congruence. assert (evb = ev') as -> by congruence.
    rewrite (rooted_at_unique _ _ _ _ _ Hra' Hra) in Hpa. rewrite (rooted_at_unique _ _ _ _ _ Hrb' Hrb) in Hpb.
    by eapply (placed_cmp_lt pa pb).
Qed.

(** C5: sorting by the mainline terminates and gives, for every order the
    events come and complete in, one and the same list: the events the store
    has whose chain of power levels events is in the store, each once, those
    rooted at older mainline events first, those without a root before all, and
    among equals by timestamp and identifier. *)
Theorem mainline_sort_correct `{Ruma, Usize} (fetch : FetchEvent) (power : option string)
    (line events : list string)
    (Hstore : store_ok fetch) (Hacyclic : auth_acyclic fetch)
    (Hline : mainline_of fetch power line) (Hlen : zlen line ≤ usize_max) (Hnd : NoDup events) :
  ∃ order enough,
    (∀ (o : HashOrder) fuel events', (enough ≤ fuel)%nat → events' ≡ₚ events →
       mainline_sort fuel power events' fetch = Ok order) ∧
    NoDup order ∧
    (∀ id, id ∈ order ↔ id ∈ events ∧ ∃ ev r, fetch id = Ok ev ∧ rooted_at fetch line ev r) ∧
    (∀ i j a b, (i < j)%nat → order !! i = Some a → order !! j = Some b →
       mainline_before fetch line a b).
Proof. by apply mainline_sort_spec. Qed.

Lemma fork_mainline : mainline_of fork_fetch (Some "$p2"%string) ["$p2"; "$p1"]%string.
Proof.
  eapply (line_step _ "$p2" (default create_event (found fork_fetch "$p2"))); [reflexivity..|].
  eapply (line_step _ "$p1" (default create_event (found fork_fetch "$p1"))); [reflexivity..|].
  apply line_end.
Qed.

Lemma mainline_sort_correct_witness :
  (∃ order enough,
    (∀ (o : HashOrder) fuel events', (enough ≤ fuel)%nat → events' ≡ₚ ["$t1"; "$t2"; "$a"]%string →
       @mainline_sort _ usize_64 o fuel (Some "$p2"%string) events' fork_fetch = Ok order) ∧
    NoDup order) ∧
  @mainline_sort _ usize_64 in_order 20 (Some "$p2"%string) ["$t2"; "$t1"; "$a"]%string fork_fetch
    = Ok ["$a"; "$t1"; "$t2"]%string.
Proof.
  split; [|by vm_compute].
  destruct (@mainline_sort_correct _ usize_64 fork_fetch (Some "$p2"%string) ["$p2"; "$p1"]%string
              ["$t1"; "$t2"; "$a"]%string) as (order & enough & Hsort & Hnd & _).
  - apply fetch_id_store.
  - apply fork_acyclic.
  - apply fork_mainline.
  - by vm_compute.
  - apply (bool_decide_unpack _). by vm_compute.
  - by exists order, enough.
Defined.
