(* ===== verification/IterativeAuth.v ===== *)
(** * IterativeAuth: the iterative auth checks
      (src/service/rooms/state_res/resolve/iterative_auth_check.rs)

    Events are applied one by one to a state map if the rules allow them against
    that state, completed by the event's own auth events.  The code selects the
    auth events, sorts, reverses and deduplicates them, and looks them up by
    binary search; the order of the event types is ruma's, of which only the
    laws of [Ord] are used. *)

From S2P Require Import Prelude Json Order CoreError RoomEvents SampleRoom AuthTypes RoomMember.
From S2P Require Import EventAuth AuthFacts TopologicalSort SplitConflicted PowerSort.

(** [Ord for StateEventType] *)
Class TypeOrder := {
  type_cmp : string → string → comparison;
  type_cmp_lawful :: LawfulCmp type_cmp;
  type_cmp_eq : ∀ a b, type_cmp a b = Eq → a = b
}.

#[global] Instance sample_type_order : TypeOrder := {|
  type_cmp := String.compare;
  type_cmp_lawful := string_cmp_lawful;
  type_cmp_eq := string_cmp_eq
|}.

(** [Ord for TypeStateKey] *)
Definition key_cmp `{TypeOrder} : string * string → string * string → comparison :=
  cmp_then (cmp_on fst type_cmp) (cmp_on snd String.compare).

Section Defs.
Context `{Ruma, TypeOrder}.

(** [fetch_auth_event] *)
Definition fetch_auth_event (id : string) (fetch : FetchEvent) : option (Res Pdu) :=
  match fetch id with
  | Ok event => Some (Ok event)
  | Err error => if is_not_found error then None else Some (Err error)
  | Panic => Some Panic
  end.

(** [auth_types_events]: the state's events under the selected keys. *)
Fixpoint auth_types_events (auth_types : list TypeStateKey) (state : StateMap) (fetch : FetchEvent)
  : Res (list (TypeStateKey * Pdu)) :=
  match auth_types with
  | [] => Ok []
  | key :: rest =>
      match state !! key with
      | None => auth_types_events rest state fetch
      | Some id =>
          match fetch_auth_event id fetch with
          | None => auth_types_events rest state fetch
          | Some result =>
              auth_event ← result;
              events ← auth_types_events rest state fetch;
              Ok (if rejected auth_event then events else (key, auth_event) :: events)
          end
      end
  end.

(** [auth_events]: the event's own auth events under their keys. *)
Fixpoint own_auth_events (ids : list string) (fetch : FetchEvent)
  : Res (list (TypeStateKey * Pdu)) :=
  match ids with
  | [] => Ok []
  | id :: rest =>
      match fetch_auth_event id fetch with
      | None => own_auth_events rest fetch
      | Some result =>
          auth_event ← result;
          key ← ok_or (state_key auth_event) (Request InvalidParam "Missing state_key" 400);
          events ← own_auth_events rest fetch;
          Ok (if rejected auth_event then events
              else ((event_type auth_event, key), auth_event) :: events)
      end
  end.

(** [also_create_id] *)
Definition also_create_id (rules : AuthorizationRules) (event : Pdu) : option string :=
  if bool_decide (event_type event ≠ ROOM_CREATE) && room_create_event_id_as_room_id rules
  then room_as_event_id (room_id event) else None.

(** The [fetch_state] closure over the collected auth events. *)
Definition fetch_state (auth_events : list (TypeStateKey * Pdu)) : FetchState := λ ty key,
  ok_or (table_get key_cmp auth_events (ty, key)) (Request NotFound "Missing auth_event" 400).

(** [auth_check] of this file. *)
Definition check_and_apply (rules : AuthorizationRules) (state : StateMap) (event_id : string)
    (state_key : string) (event : Pdu) (fetch : FetchEvent) : Res StateMap :=
  match auth_types_for_event (event_type event) (sender event) (Some state_key) (content event)
          rules true with
  | Err _ => Ok state
  | Panic => Panic
  | Ok auth_types =>
      own ← own_auth_events (auth_events event ++ option_list (also_create_id rules event)) fetch;
      selected ← auth_types_events auth_types state fetch;
      let auth_events := key_table key_cmp (own ++ selected) in
      outcome ← (match check_state_dependent_auth_rules rules event (fetch_state auth_events) with
                 | Ok _ => Ok Allow
                 | Err error => classify_auth_error error
                 | Panic => Panic
                 end);
      Ok (match outcome with
          | Allow => <[(event_type event, state_key) := event_id]> state
          | Deny _ => state
          end)
  end.

(** [iterative_auth_check] *)
Fixpoint iterative_auth_check (rules : AuthorizationRules) (events : list string)
    (state : StateMap) (fetch : FetchEvent) : Res StateMap :=
  match events with
  | [] => Ok state
  | event_id :: rest =>
      event ← fetch event_id;
      match RoomEvents.state_key event with
      | None => iterative_auth_check rules rest state fetch
      | Some state_key =>
          state ← check_and_apply rules state event_id state_key event fetch;
          iterative_auth_check rules rest state fetch
      end
  end.

End Defs.

#[global] Instance key_cmp_lawful `{TypeOrder} : LawfulCmp key_cmp.
Proof. unfold key_cmp. apply _. Qed.

Lemma key_cmp_eq `{TypeOrder} a b : key_cmp a b = Eq → a = b.
Proof.
  destruct a as [ty k], b as [ty' k']. unfold key_cmp, cmp_then, cmp_on. simpl.
  destruct (type_cmp ty ty') eqn:Ht; [|done..]. intros Hk.
  apply type_cmp_eq in Ht. apply string_cmp_eq in Hk. by subst.
Qed.

(** ** The reference

    The state an event is checked against is the state so far, and where that
    has nothing the last of the event's auth events with the key. *)

Section Reference.
Context `{Ruma} (rules : AuthorizationRules) (fetch : FetchEvent).

(** An event of the store that was not rejected. *)
Definition usable (id : string) : option Pdu :=
  ev ← found fetch id; if rejected ev then None else Some ev.

Definition auth_ids (ev : Pdu) : list string := auth_events ev ++ option_list (also_create_id rules ev).

Definition keyed (id : string) : option (TypeStateKey * Pdu) :=
  ev ← usable id; key ← state_key ev; Some ((event_type ev, key), ev).

Definition reference_state (state : StateMap) (ev : Pdu) : FetchState := λ ty key,
  match state !! (ty, key) ≫= usable with
  | Some e => Ok e
  | None => ok_or (option_map snd (last (with_key (ty, key) (omap keyed (auth_ids ev)))))
              (Request NotFound "Missing auth_event" 400)
  end.

(** Apply an event if it is allowed; a content that does not parse is skipped. *)
Definition reference_step (state : StateMap) (id key : string) (ev : Pdu) : Res StateMap :=
  match auth_types_for_event (event_type ev) (sender ev) (Some key) (content ev) rules true,
        check_state_dependent_auth_rules rules ev (reference_state state ev) with
  | Ok _, Ok _ => Ok (<[(event_type ev, key) := id]> state)
  | Ok _, Err e => outcome ← classify_auth_error e; Ok state
  | Ok _, Panic | Panic, _ => Panic
  | Err _, _ => Ok state
  end.

Fixpoint reference_run (ids : list string) (state : StateMap) : Res StateMap :=
  match ids with
  | [] => Ok state
  | id :: rest =>
      ev ← fetch id;
      match state_key ev with
      | None => reference_run rest state
      | Some key => state ← reference_step state id key ev; reference_run rest state
      end
  end.

(** Every auth event the store has is a state event. *)
Definition auth_events_are_state : Prop := ∀ id ev a ae,
  fetch id = Ok ev → a ∈ auth_ids ev → fetch a = Ok ae → is_Some (state_key ae).

Context (Hstore : store_ok fetch).

Lemma fetch_auth_event_found id : fetch_auth_event id fetch = option_map Ok (found fetch id).
Proof.
  unfold fetch_auth_event, found. destruct (Hstore id) as [(ev & -> & _)|(e & -> & Hnf)]; [done|]. by rewrite Hnf.
Qed.

Lemma own_auth_events_run ids :
  (∀ a ae, a ∈ ids → fetch a = Ok ae → is_Some (state_key ae)) →
  own_auth_events ids fetch = Ok (omap keyed ids).
Proof.
  induction ids as [|id ids IH]; intros Hids; [done|]. cbn [own_auth_events].
  assert (Hrest : own_auth_events ids fetch = Ok (omap keyed ids)) by (apply IH; set_solver).
  rewrite fetch_auth_event_found. simpl. unfold keyed at 1, usable.
  destruct (found fetch id) as [ev|] eqn:Hf; simpl; [|done].
  destruct (Hids id ev) as [key Hkey]; [left|by apply found_fetch|]. rewrite Hkey. simpl. rewrite Hrest. simpl.
  destruct (rejected ev); simpl; [done|]. by rewrite Hkey.
Qed.

Lemma auth_types_events_run auth_types state :
  auth_types_events auth_types state fetch =
  Ok (omap (λ key, option_map (pair key) (state !! key ≫= usable)) auth_types).
Proof.
  induction auth_types as [|key rest IH]; [done|]. cbn [auth_types_events]. simpl.
  destruct (state !! key) as [id|]; simpl; [|done]. rewrite fetch_auth_event_found. unfold usable.
  destruct (found fetch id) as [ev|]; simpl; [|done]. rewrite IH. simpl. by destruct (rejected ev).
Qed.

(** Looking a selected key up in the table is looking it up in the reference. *)
Lemma fetch_state_reference `{TypeOrder} state ev auth_types ty key :
  (ty, key) ∈ auth_types →
  fetch_state (key_table key_cmp
    (omap keyed (auth_ids ev) ++
     omap (λ key, option_map (pair key) (state !! key ≫= usable)) auth_types)) ty key
  = reference_state state ev ty key.
Proof.
  intros Hin. unfold fetch_state, reference_state. rewrite (key_table_get key_cmp key_cmp_eq).
  unfold with_key at 1. rewrite filter_app.
  set (selected := filter _ (omap (λ key, _) auth_types)).
  assert (Hsel : ∀ x, x ∈ selected ↔ state !! (ty, key) ≫= usable = Some x.2 ∧ x.1 = (ty, key)).
  { intros [k e]. unfold selected. rewrite list_elem_of_filter, list_elem_of_omap. split.
    - intros [Hk (k' & _ & Hk')]. simpl in Hk. subst k. destruct (state !! k' ≫= usable) as [e'|] eqn:Hs; [|done].
      by simplify_eq/=.
    - intros [Hs Hk]. simpl in *. subst k. split; [done|]. exists (ty, key). split; [done|]. by rewrite Hs. }
  destruct (state !! (ty, key) ≫= usable) as [e|] eqn:Hs.
  - rewrite last_app. destruct (last selected) as [x|] eqn:Hl.
    + assert (Hx : x ∈ selected) by by apply last_Some_elem_of.
      apply Hsel in Hx as [[= ->] _]. done.
    + apply last_None in Hl. assert (Hx : ((ty, key), e) ∈ selected) by by apply Hsel.
      rewrite Hl in Hx. by apply elem_of_nil in Hx.
  - assert (selected = []) as ->; [|by rewrite app_nil_r].
    destruct selected as [|x l]; [done|]. destruct (proj1 (Hsel x) ltac:(left)) as [[=] _].
Qed.

Lemma check_and_apply_reference `{TypeOrder} state id key ev :
  (knock_restricted_join_rule rules = true → restricted_join_rule rules = true) →
  auth_events_are_state → fetch id = Ok ev → state_key ev = Some key →
  check_and_apply rules state id key ev fetch = reference_step state id key ev.
Proof.
  intros Hrules Hauth Hf Hkey. unfold check_and_apply, reference_step.
  destruct (auth_types_for_event _ _ _ _ _ _) as [auth_types|e|] eqn:Hat; [|done..].
  rewrite own_auth_events_run, bind_Ok by (intros a ae; by apply (Hauth id ev)).
  rewrite auth_types_events_run, bind_Ok. cbv zeta.
  rewrite (dependent_rules_local rules _ (reference_state state ev) ev auth_types); [|done|by rewrite Hkey|].
  2: { intros ty k Hin. by apply fetch_state_reference. }
  destruct (check_state_dependent_auth_rules _ _ _) as [|e|]; [done| |done].
  destruct e; try done. by destruct kind.
Qed.

Lemma iterative_reference `{TypeOrder} ids state :
  (knock_restricted_join_rule rules = true → restricted_join_rule rules = true) →
  auth_events_are_state →
  iterative_auth_check rules ids state fetch = reference_run ids state.
Proof.
  intros Hrules Hauth. revert state. induction ids as [|id ids IH]; intros state; [done|].
  cbn [iterative_auth_check reference_run]. apply bind_ext. intros ev Hf.
  destruct (state_key ev) as [key|] eqn:Hkey; [|apply IH].
  rewrite check_and_apply_reference by done. apply bind_ext. intros state' _. apply IH.
Qed.

(** [ev], under its identifier and key, was allowed in some state. *)
Definition applied (k : string * string) (id : string) : Prop :=
  ∃ ev key state, fetch id = Ok ev ∧ state_key ev = Some key ∧ k = (event_type ev, key) ∧
    check_state_dependent_auth_rules rules ev (reference_state state ev) = Ok ().

Lemma reference_run_entries ids state result :
  reference_run ids state = Ok result →
  ∀ k id, result !! k = Some id → state !! k = Some id ∨ id ∈ ids ∧ applied k id.
Proof.
  revert state. induction ids as [|id0 ids IH]; intros state; cbn [reference_run]; [by intros [= ->]; left|].
  destruct (fetch id0) as [ev| |] eqn:Hf; [rewrite bind_Ok|done..].
  assert (Hskip : ∀ st, (∀ k id, st !! k = Some id → state !! k = Some id ∨ id = id0 ∧ applied k id) →
    reference_run ids st = Ok result →
    ∀ k id, result !! k = Some id → state !! k = Some id ∨ id ∈ id0 :: ids ∧ applied k id).
  { intros st Hst Hrun k id Hk. destruct (IH st Hrun k id Hk) as [Hin|[Hin Ha]].
    - destruct (Hst k id Hin) as [|[-> Ha]]; [by left|right]. split; [left|done].
    - right. split; [by right|done]. }
  destruct (state_key ev) as [key|] eqn:Hkey; [|apply Hskip; auto].
  unfold reference_step. destruct (auth_types_for_event _ _ _ _ _ _); [|rewrite bind_Ok; apply Hskip; auto|done].
  destruct (check_state_dependent_auth_rules _ _ _) as [[]|e|] eqn:Hc; [| |done].
  - rewrite bind_Ok. apply Hskip. intros k id. destruct (decide (k = (event_type ev, key))) as [->|Hk].
    + rewrite lookup_insert_eq. intros [= <-]. right. split; [done|]. by exists ev, key, state.
    + rewrite lookup_insert_ne by done. auto.
  - destruct (classify_auth_error e); [rewrite !bind_Ok|done..]. apply Hskip; auto.
Qed.

End Reference.

(** C6: the iterative auth checks do what the specification says: they equal
    the plain fold that checks each event against the state so far, completed by
    the event's auth events, and applies it if it is allowed; so every entry of
    the result is an entry of the initial state or an event of the list, under
    its own key, that was allowed when it was applied. *)
Theorem iterative_auth_exact `{Ruma, TypeOrder} (rules : AuthorizationRules) (fetch : FetchEvent)
    (ids : list string) (state : StateMap)
    (Hrules : knock_restricted_join_rule rules = true → restricted_join_rule rules = true)
    (Hstore : store_ok fetch) (Hauth : auth_events_are_state rules fetch) :
  iterative_auth_check rules ids state fetch = reference_run rules fetch ids state ∧
  ∀ result, iterative_auth_check rules ids state fetch = Ok result →
    ∀ k id, result !! k = Some id → state !! k = Some id ∨ id ∈ ids ∧ applied rules fetch k id.
Proof. rewrite iterative_reference by done. split; [done|]. apply reference_run_entries. Qed.

Lemma fork_auth_state : auth_events_are_state rules_v10 fork_fetch.
Proof.
  intros id ev a ae _ _ Ha.
  destruct (fetch_id_cases fork_events a) as [(ae' & Ha' & _ & Hin)|(e & Ha' & _)];
    unfold fork_fetch in Ha; rewrite Ha in Ha'; [|done]. injection Ha' as ->.
  assert (Hall : Forall (λ e, is_Some (state_key e)) fork_events).
  { unfold fork_events. repeat (apply Forall_cons; split; [by eexists|]). apply Forall_nil. done. }
  rewrite Forall_forall in Hall. by apply Hall.
Qed.

(** Alice's ban of Bob holds: Bob's join and topic come before and after it. *)
Lemma iterative_auth_exact_witness :
  let state : StateMap :=
    list_to_map [((ROOM_CREATE, ""), "$create"); ((ROOM_MEMBER, alice), "$a"); ((ROOM_JOIN_RULES, ""), "$j")]%string in
  let ids := ["$p1"; "$p2"; "$b"; "$ban"; "$t1"]%string in
  iterative_auth_check rules_v10 ids state fork_fetch = reference_run rules_v10 fork_fetch ids state ∧
  match iterative_auth_check rules_v10 ids state fork_fetch with
  | Ok result => result !! (ROOM_MEMBER, bob) = Some "$ban" ∧ result !! ("m.room.topic", "") = None
  | _ => False
  end%string.
Proof.
  split; [|by vm_compute]. apply iterative_auth_exact.
  - done.
  - apply fetch_id_store.
  - apply fork_auth_state.
Defined.
