(* ===== verification/ConflictedSubgraph.v ===== *)
(** * ConflictedSubgraph: the conflicted state subgraph
      (src/service/rooms/state_res/resolve/conflicted_subgraph.rs)

    One walker per conflicted event descends the auth chains depth first.  The
    walkers run interleaved: each waits for a fetch in flight or for a node
    another walker owns.  Vectors used as stacks ([path], [stack], the frames)
    are lists with the top first.  The fetch that completes next is picked by
    [hash_order] at a site that names the step, and [width] is the live stream
    width at a step, which may change.  [debug] is the build's
    [debug_assertions]; a failed assertion, an index out of range and a lack of
    fuel abort. *)

From stdpp Require Import pretty.
From S2P Require Import Prelude Json Order CoreError RoomEvents SampleRoom AuthTypes RoomMember.
From S2P Require Import EventAuth TopologicalSort PowerSort.

(** [enum Substate] *)
Inductive Substate := Conflicted | Pending (owner : nat) | Dead | Subgraph.

(** [enum Resolution] *)
Inductive Resolution := ResDead | ResSubgraph.

(** [struct Local] *)
Record Local := mkLocal { path : list string; stack : list (list string); marked : nat }.

Definition Local_default : Local := mkLocal [] [] 0.

(** [struct Wake] *)
Record Wake := mkWake { wake_event_id : string; wake_locals : list nat; wake_result : Resolution }.

(** [enum Evaluation] *)
Inductive Evaluation := Continue | Fetch (event_id : string) | Park.

(** [struct Context]: what the walkers share, and the output of the step. *)
Record Context := mkContext {
  subgraph : gmap string Substate;
  waiters : gmap string (list nat);
  ready : list Wake;
  parked : Z;
  outputs : list string
}.

(** [struct Global], with the seeds not started yet. *)
Record Global := mkGlobal {
  context : Context;
  locals : list Local;
  todo : list (nat * string);
  deferred : list (nat * string)
}.

#[global] Instance Substate_eq_dec : EqDecision Substate.
Proof. solve_decision. Defined.

Section Defs.
Context `{Ruma, HashOrder} (debug : bool).

(** [debug_assert!] *)
Local Notation debug_assert := (Prelude.debug_assert debug).

(** [expect_into::<u32>] of a walker's index. *)
Definition local_id (id : nat) : Res nat :=
  if bool_decide (Z.of_nat id ≤ u32_max) then Ok id else Panic.

(** Move the walkers that wait for [event_id] to [ready]. *)
Definition wake_waiters (context : Context) (event_id : string) (result : Resolution)
  : Res Context :=
  match waiters context !! event_id with
  | None => Ok context
  | Some locals =>
      _ ← debug_assert (zlen locals <=? parked context);
      Ok (mkContext (subgraph context) (delete event_id (waiters context))
            (mkWake event_id locals result :: ready context)
            (Z.max 0 (parked context - zlen locals)) (outputs context))
  end.

Definition set_substate (context : Context) (event_id : string) (state : Substate) : Context :=
  mkContext (<[event_id := state]> (subgraph context)) (waiters context) (ready context)
    (parked context) (outputs context).

(** [complete_pending] *)
Definition complete_pending (context : Context) (event_id : string) (result : Resolution)
  : Res Context :=
  match subgraph context !! event_id with
  | Some (Pending _) =>
      wake_waiters (set_substate context event_id
        (match result with ResDead => Dead | ResSubgraph => Subgraph end)) event_id result
  | _ => Ok context
  end.

(** [insert_path_filter] *)
Definition insert_path_filter (context : Context) (event_id : string) : Res (bool * Context) :=
  match subgraph context !! event_id with
  | None => Ok (true, set_substate context event_id Subgraph)
  | Some Subgraph => Ok (false, context)
  | Some state =>
      _ ← debug_assert (bool_decide (state ≠ Dead));
      let context := set_substate context event_id Subgraph in
      context ← (match state with
                 | Pending _ => wake_waiters context event_id ResSubgraph
                 | _ => Ok context
                 end);
      Ok (true, context)
  end.

Definition push_output (context : Context) (event_id : string) : Context :=
  mkContext (subgraph context) (waiters context) (ready context) (parked context)
    (outputs context ++ [event_id]).

Fixpoint insert_all (context : Context) (event_ids : list string) : Res Context :=
  match event_ids with
  | [] => Ok context
  | event_id :: rest =>
      kept ← insert_path_filter context event_id;
      let '(inserted, context) := kept in
      insert_all (if inserted : bool then push_output context event_id else context) rest
  end.

(** [Local::insert_path]: [path[marked..]], oldest first, then the event. *)
Definition insert_path (self : Local) (context : Context) (event_id : string)
  : Res (Local * Context) :=
  let unmarked := take (length (path self) - marked self) (path self) in
  context ← insert_all context (reverse unmarked ++ [event_id]);
  Ok (mkLocal (path self) (stack self) (length (path self)), context).

(** The loop of [Local::pop]: leave the nodes whose frame is used up. *)
Fixpoint leave (path : list string) (stack : list (list string)) (context : Context)
  : Res (list string * list (list string) * Context) :=
  match stack with
  | [] :: stack =>
      match path with
      | event_id :: path =>
          context ← complete_pending context event_id ResDead;
          leave path stack context
      | [] => leave [] stack context
      end
  | _ => Ok (path, stack, context)
  end.

(** [Local::pop] *)
Definition pop (self : Local) (context : Context) : Res (option string * Local * Context) :=
  left ← leave (path self) (stack self) context;
  let '(path, stack, context) := left in
  let marked := Nat.min (marked self) (length path) in
  Ok (match stack with
      | (event_id :: frame) :: rest => (Some event_id, mkLocal path (frame :: rest) marked, context)
      | _ => (None, mkLocal path stack marked, context)
      end).

(** [Local::eval] *)
Definition eval (self : Local) (id : nat) (context : Context) (event_id : string)
  : Res (Evaluation * Local * Context) :=
  match subgraph context !! event_id with
  | Some Subgraph =>
      inserted ← insert_path self context event_id;
      let '(self, context) := inserted in
      Ok (Continue, self, context)
  | Some Dead => Ok (Continue, self, context)
  | Some (Pending owner) =>
      if bool_decide (owner = id) then Ok (Continue, self, context)
      else
        let waiting := default [] (waiters context !! event_id) ++ [id] in
        Ok (Park, self, mkContext (subgraph context) (<[event_id := waiting]> (waiters context))
                          (ready context) (parked context + 1) (outputs context))
  | Some Conflicted =>
      inserted ← insert_path self context event_id;
      let '(self, context) := inserted in
      Ok (if bool_decide (last (path self) = Some event_id) then Continue else Fetch event_id,
          self, context)
  | None =>
      owner ← local_id id;
      Ok (Fetch event_id, self, set_substate context event_id (Pending owner))
  end.

(** The loop of [advance], with one turn per queued auth event. *)
Fixpoint descend (fuel : nat) (self : Local) (id : nat) (context : Context)
  : Res (option string * Local * Context) :=
  match fuel with
  | O => Panic
  | S fuel =>
      popped ← pop self context;
      let '(event_id, self, context) := popped in
      match event_id with
      | None =>
          Ok (None, match stack self with [] => Local_default | _ => self end, context)
      | Some event_id =>
          evaluated ← eval self id context event_id;
          let '(evaluation, self, context) := evaluated in
          match evaluation with
          | Continue => descend fuel self id context
          | Fetch event_id => Ok (Some event_id, self, context)
          | Park => Ok (None, self, context)
          end
      end
  end.

(** [advance] *)
Definition advance (locals : list Local) (id : nat) (context : Context)
  : Res (option string * list Local * Context) :=
  local ← expect (locals !! id);
  result ← descend (S (sum_list (length <$> stack local))) local id context;
  let '(next_id, local, context) := result in
  Ok (next_id, <[id := local]> locals, context).

(** [process_fetch] *)
Definition process_fetch (locals : list Local) (id : nat) (event_id : string) (event : Res Pdu)
    (context : Context) : Res (option string * list Local * Context) :=
  match event with
  | Ok event =>
      local ← expect (locals !! id);
      let local := mkLocal (event_id :: path local) (reverse (auth_events event) :: stack local)
                     (marked local) in
      advance (<[id := local]> locals) id context
  | Err _ =>
      context ← complete_pending context event_id ResDead;
      advance locals id context
  | Panic => Panic
  end.

(** [resume] *)
Definition resume (locals : list Local) (id : nat) (event_id : string) (result : Resolution)
    (context : Context) : Res (option string * list Local * Context) :=
  match result with
  | ResSubgraph =>
      local ← expect (locals !! id);
      inserted ← insert_path local context event_id;
      let '(local, context) := inserted in
      advance (<[id := local]> locals) id context
  | ResDead => advance locals id context
  end.

(** Start the walker's next fetch, or put it off when the stream is full. *)
Definition schedule (width : nat) (state : Global) (id : nat) (next_id : option string) : Global :=
  match next_id with
  | None => state
  | Some next_id =>
      if bool_decide (length (todo state) < width)%nat
      then mkGlobal (context state) (locals state) (todo state ++ [(id, next_id)]) (deferred state)
      else mkGlobal (context state) (locals state) (todo state) (deferred state ++ [(id, next_id)])
  end.

Fixpoint resume_all (width : nat) (ids : list nat) (event_id : string) (result : Resolution)
    (state : Global) : Res Global :=
  match ids with
  | [] => Ok state
  | id :: rest =>
      resumed ← resume (locals state) id event_id result (context state);
      let '(next_id, locals, context) := resumed in
      resume_all width rest event_id result
        (schedule width (mkGlobal context locals (todo state) (deferred state)) id next_id)
  end.

(** The loop over [ready]. *)
Fixpoint drain_ready (fuel width : nat) (state : Global) : Res Global :=
  match ready (context state) with
  | [] => Ok state
  | mkWake event_id ids result :: rest =>
      match fuel with
      | O => Panic
      | S fuel =>
          let c := context state in
          let c := mkContext (subgraph c) (waiters c) rest (parked c) (outputs c) in
          state ← resume_all width ids event_id result
                    (mkGlobal c (locals state) (todo state) (deferred state));
          drain_ready fuel width state
      end
  end.

(** Start what was put off, and then the next seeds, while the stream has room. *)
Fixpoint refill (room : nat) (inputs : list string) (state : Global) : list string * Global :=
  match room with
  | O => (inputs, state)
  | S room =>
      match deferred state, inputs with
      | next :: deferred, _ =>
          refill room inputs (mkGlobal (context state) (locals state) (todo state ++ [next]) deferred)
      | [], seed :: inputs =>
          refill room inputs
            (mkGlobal (context state) (locals state ++ [Local_default])
               (todo state ++ [(length (locals state), seed)]) [])
      | [], [] => (inputs, state)
      end
  end.

(** The second refill, from [deferred] only. *)
Fixpoint refill_deferred (room : nat) (state : Global) : Global :=
  match room, deferred state with
  | S room, next :: deferred =>
      refill_deferred room (mkGlobal (context state) (locals state) (todo state ++ [next]) deferred)
  | _, _ => state
  end.

Definition take_outputs (state : Global) : list string * Global :=
  let c := context state in
  (outputs c, mkGlobal (mkContext (subgraph c) (waiters c) (ready c) (parked c) [])
                (locals state) (todo state) (deferred state)).

(** The [unfold], one turn per fetch. *)
Fixpoint run (fuel : nat) (width : nat → nat) (fetch : FetchEvent) (inputs : list string)
    (state : Global) : Res (list string) :=
  let width_now := width fuel in
  _ ← debug_assert (bool_decide (length (todo state) ≤ width_now)%nat);
  let '(inputs, state) := refill (width_now - length (todo state)) inputs state in
  match hash_order ["subgraph"; pretty fuel]%string (todo state) with
  | [] =>
      let c := context state in
      _ ← debug_assert (bool_decide (waiters c = ∅));
      _ ← debug_assert (match ready c with [] => true | _ => false end);
      _ ← debug_assert (match deferred state with [] => true | _ => false end);
      _ ← debug_assert (parked c =? 0);
      Ok []
  | (id, event_id) :: rest =>
      match fuel with
      | O => Panic
      | S fuel =>
          let state := mkGlobal (context state) (locals state) rest (deferred state) in
          let state := refill_deferred (width_now - length (todo state)) state in
          processed ← process_fetch (locals state) id event_id (fetch event_id) (context state);
          let '(next_id, locals, context) := processed in
          state ← drain_ready fuel width_now
                    (schedule width_now (mkGlobal context locals (todo state) (deferred state))
                       id next_id);
          let '(outputs, state) := take_outputs state in
          rest ← run fuel width fetch inputs state;
          Ok (outputs ++ rest)
      end
  end.

(** [conflicted_subgraph_dfs] *)
Definition conflicted_subgraph_dfs (fuel : nat) (width : nat → nat) (conflicted_set : list string)
    (fetch : FetchEvent) : Res (list string) :=
  let subgraph := list_to_map ((λ event_id, (event_id, Conflicted)) <$> conflicted_set) in
  run fuel width fetch conflicted_set (mkGlobal (mkContext subgraph ∅ [] 0 []) [] [] []).

End Defs.
