(* ===== verification/SubgraphFacts.v ===== *)
(** * SubgraphFacts: the walkers find the conflicted state subgraph

    The invariant of the interleaved walkers of [ConflictedSubgraph], that every
    step keeps it and makes progress, and what it says at the end. *)

From stdpp Require Import pretty.
From S2P Require Import Prelude Json Order CoreError RoomEvents SampleRoom AuthTypes RoomMember.
From S2P Require Import EventAuth TopologicalSort PowerSort ConflictedSubgraph.

Notation Sub := (gmap string Substate).

(** ** What is to be found *)

Section Spec.
Context `{Ruma} (fetch : FetchEvent) (C : list string).

(** The auth events of an event the store has. *)
Definition kids (x : string) : list string :=
  match found fetch x with Some ev => auth_events ev | None => [] end.

Definition edge (x y : string) : Prop := y ∈ kids x.

(** On a path of auth events from one conflicted event to another. *)
Definition reached (x : string) : Prop := ∃ c, c ∈ C ∧ tc edge c x.
Definition reaches (x : string) : Prop := ∃ c, c ∈ C ∧ tc edge x c.

Definition in_subgraph (x : string) : Prop :=
  (x ∈ C ∨ reached x) ∧ (x ∈ C ∨ reaches x) ∧ (reached x ∨ reaches x).

Lemma kids_found x y : y ∈ kids x → is_Some (found fetch x).
Proof. unfold kids. destruct (found fetch x); [done|by intros ?%elem_of_nil]. Qed.

Lemma reached_step x y : x ∈ C ∨ reached x → edge x y → reached y.
Proof.
  intros [Hx|(c & Hc & Hcx)] Hxy; [exists x|exists c]; (split; [done|]); [by apply tc_once|].
  by eapply tc_r.
Qed.

Lemma reaches_step x y : edge x y → y ∈ C ∨ reaches y → reaches x.
Proof.
  intros Hxy [Hy|(c & Hc & Hyc)]; [exists y|exists c]; (split; [done|]); [by apply tc_once|].
  by eapply tc_l.
Qed.

End Spec.

(** ** The queues of walkers *)

Definition woken_of (wake : Wake) : list (nat * string) :=
  (λ w, (w, wake_event_id wake)) <$> wake_locals wake.

Definition waiting (ws : gmap string (list nat)) : list (nat * string) :=
  map_to_list ws ≫= λ p, (λ w, (w, p.1)) <$> p.2.

Lemma waiting_delete ws e l :
  ws !! e = Some l → waiting ws ≡ₚ ((λ w, (w, e)) <$> l) ++ waiting (delete e ws).
Proof.
  intros He. unfold waiting. by rewrite <- (map_to_list_delete ws e l He), bind_cons.
Qed.

Lemma waiting_push ws e w :
  waiting (<[e := default [] (ws !! e) ++ [w]]> ws) ≡ₚ (w, e) :: waiting ws.
Proof.
  rewrite (waiting_delete (<[e := _]> ws) e (default [] (ws !! e) ++ [w])) by apply lookup_insert_eq.
  rewrite delete_insert_eq, fmap_app. destruct (ws !! e) as [l|] eqn:He; simpl.
  - rewrite (waiting_delete ws e l He). rewrite <- app_assoc. symmetry. apply Permutation_middle.
  - by rewrite delete_id.
Qed.

Lemma elem_of_waiting ws w e : (w, e) ∈ waiting ws ↔ ∃ l, ws !! e = Some l ∧ w ∈ l.
Proof.
  unfold waiting. rewrite list_elem_of_bind. split.
  - intros ([e' l] & (w' & [= <- ->] & Hw)%list_elem_of_fmap & Hin%elem_of_map_to_list). eauto.
  - intros (l & He & Hw). exists (e, l). split; [|by apply elem_of_map_to_list].
    apply list_elem_of_fmap. eauto.
Qed.

(** ** The invariant *)

Section Inv.
Context `{Ruma} (fetch : FetchEvent) (C : list string).

#[local] Notation kids := (kids fetch).
#[local] Notation in_subgraph := (in_subgraph fetch C).

(** The nodes a walker is at, from the deepest to its seed, with the auth events
    it has not looked at yet, and the one it is looking at: the others are dead,
    or in the subgraph together with the node. *)
Inductive spine (sub : Sub) (w : nat) : list string → list (list string) → option string → Prop :=
| spine_nil c : (∀ e, c = Some e → e ∈ C) → spine sub w [] [] c
| spine_cons p path frame stack c :
    spine sub w path stack (Some p) →
    is_Some (found fetch p) →
    sub !! p = Some (Pending w) ∨ sub !! p = Some Subgraph ∨ sub !! p = Some Conflicted ∧ path = [] →
    (∀ q, head path = Some q → sub !! p = Some Subgraph → sub !! q = Some Subgraph) →
    (∀ y, y ∈ frame → y ∈ kids p) →
    (∀ y, c = Some y → y ∈ kids p) →
    (∀ y, y ∈ kids p → y ∈ frame ∨ c = Some y ∨ sub !! y = Some Dead ∨
       sub !! y = Some Subgraph ∧ sub !! p = Some Subgraph) →
    spine sub w (p :: path) (frame :: stack) c.

(** The nodes below the mark are in the subgraph. *)
Definition marks_ok (sub : Sub) (L : Local) : Prop :=
  (marked L ≤ length (path L))%nat ∧
  Forall (λ p, sub !! p = Some Subgraph) (drop (length (path L) - marked L) (path L)).

(** A node that is done with: its auth events are dead or in the subgraph with it. *)
Definition settled (sub : Sub) (x : string) : Prop :=
  ∀ y, y ∈ kids x → sub !! y = Some Dead ∨ sub !! y = Some Subgraph ∧ sub !! x = Some Subgraph.

(** What walker [w] may do to the states of nodes. *)
Definition evolves (w : nat) (sub sub' : Sub) : Prop := ∀ x,
  match sub !! x with
  | None => True
  | Some Conflicted => sub' !! x = Some Conflicted ∨ sub' !! x = Some Subgraph
  | Some (Pending o) => sub' !! x = Some (Pending o) ∨
      o = w ∧ (sub' !! x = Some Dead ∨ sub' !! x = Some Subgraph)
  | Some Dead => sub' !! x = Some Dead
  | Some Subgraph => sub' !! x = Some Subgraph
  end.

Definition resolution_state (r : Resolution) : Substate :=
  match r with ResDead => Dead | ResSubgraph => Subgraph end.

Definition out (c : Context) (flight : list (nat * string)) (extra : list Wake)
    (runl : list (nat * string)) : list (nat * string) :=
  flight ++ waiting (waiters c) ++ ((extra ++ ready c) ≫= woken_of) ++ runl.

Definition child (l : list (nat * string)) (w : nat) : option string :=
  (list_to_map l : gmap nat string) !! w.

Record Inv (c : Context) (locals : list Local) (flight : list (nat * string)) (extra : list Wake)
    (runl : list (nat * string)) (run : option nat) (unstarted emitted : list string) : Prop := {
  inv_conflicted : ∀ x, x ∈ C → subgraph c !! x = Some Conflicted ∨ subgraph c !! x = Some Subgraph;
  inv_conflicted_only : ∀ x, subgraph c !! x = Some Conflicted → x ∈ C;
  inv_sound : ∀ x, subgraph c !! x = Some Subgraph → in_subgraph x;
  inv_outputs : NoDup (emitted ++ outputs c) ∧
    ∀ x, x ∈ emitted ++ outputs c ↔ subgraph c !! x = Some Subgraph;
  inv_out : NoDup (out c flight extra runl).*1;
  inv_locals : ∀ w, w ∈ (out c flight extra runl).*1 ∨ run = Some w → (w < length locals)%nat;
  inv_spine : ∀ w L, locals !! w = Some L →
    spine (subgraph c) w (path L) (stack L) (child (out c flight extra runl) w) ∧
    marks_ok (subgraph c) L;
  inv_idle : ∀ w L, locals !! w = Some L → w ∉ (out c flight extra runl).*1 → run ≠ Some w →
    path L = [];
  inv_pending : ∀ x w, subgraph c !! x = Some (Pending w) →
    (∃ L, locals !! w = Some L ∧ x ∈ path L) ∨ (w, x) ∈ flight;
  inv_cover : ∀ x, is_Some (subgraph c !! x) →
    settled (subgraph c) x ∨ (∃ w L, locals !! w = Some L ∧ x ∈ path L) ∨
    x ∈ flight.*2 ∨ x ∈ unstarted;
  inv_flight : ∀ w x, (w, x) ∈ flight →
    subgraph c !! x = Some (Pending w) ∨
    ∃ L, locals !! w = Some L ∧
      (path L = [] ∧ x ∈ C ∨
       subgraph c !! x = Some Subgraph ∧
         ∃ q, head (path L) = Some q ∧ subgraph c !! q = Some Subgraph);
  inv_wait : ∀ e l, waiters c !! e = Some l →
    l ≠ [] ∧ ∃ o, subgraph c !! e = Some (Pending o) ∧ o ∉ l;
  inv_wakes : ∀ wake, wake ∈ extra ++ ready c →
    subgraph c !! wake_event_id wake = Some (resolution_state (wake_result wake)) ∧
    wake_locals wake ≠ [] ;
  inv_parked : parked c = zlen (waiting (waiters c));
  inv_unstarted : ∀ x, x ∈ unstarted → x ∈ C
}.

Arguments inv_conflicted {_ _ _ _ _ _ _ _} _.
Arguments inv_conflicted_only {_ _ _ _ _ _ _ _} _.
Arguments inv_sound {_ _ _ _ _ _ _ _} _.
Arguments inv_outputs {_ _ _ _ _ _ _ _} _.
Arguments inv_out {_ _ _ _ _ _ _ _} _.
Arguments inv_locals {_ _ _ _ _ _ _ _} _.
Arguments inv_spine {_ _ _ _ _ _ _ _} _.
Arguments inv_idle {_ _ _ _ _ _ _ _} _.
Arguments inv_pending {_ _ _ _ _ _ _ _} _.
Arguments inv_cover {_ _ _ _ _ _ _ _} _.
Arguments inv_flight {_ _ _ _ _ _ _ _} _.
Arguments inv_wait {_ _ _ _ _ _ _ _} _.
Arguments inv_wakes {_ _ _ _ _ _ _ _} _.
Arguments inv_parked {_ _ _ _ _ _ _ _} _.
Arguments inv_unstarted {_ _ _ _ _ _ _ _} _.

(** ** The states of nodes *)

Lemma evolves_refl w sub : evolves w sub sub.
Proof. intros x. destruct (sub !! x) as [[]|]; auto. Qed.

Lemma evolves_trans w sub1 sub2 sub3 : evolves w sub1 sub2 → evolves w sub2 sub3 → evolves w sub1 sub3.
Proof.
  intros H1 H2 x. specialize (H1 x). specialize (H2 x).
  destruct (sub1 !! x) as [[|o| |]|]; [| | | |done].
  - destruct H1 as [E|E]; rewrite E in H2; auto.
  - destruct H1 as [E|[-> [E|E]]]; rewrite E in H2; auto.
  - by rewrite H1 in H2.
  - by rewrite H1 in H2.
Qed.

Lemma evolves_insert w sub x st :
  match sub !! x with
  | None => True
  | Some Conflicted => st = Subgraph
  | Some (Pending o) => o = w ∧ (st = Dead ∨ st = Subgraph)
  | Some Dead => st = Dead
  | Some Subgraph => st = Subgraph
  end → evolves w sub (<[x := st]> sub).
Proof.
  intros Hx y. destruct (decide (x = y)) as [<-|Hne].
  - rewrite lookup_insert_eq. destruct (sub !! x) as [[]|]; naive_solver.
  - rewrite lookup_insert_ne by done. destruct (sub !! y) as [[]|]; auto.
Qed.

Lemma evolves_dead w sub sub' x : evolves w sub sub' → sub !! x = Some Dead → sub' !! x = Some Dead.
Proof. intros H0 Hx. specialize (H0 x). by rewrite Hx in H0. Qed.

Lemma evolves_subgraph w sub sub' x :
  evolves w sub sub' → sub !! x = Some Subgraph → sub' !! x = Some Subgraph.
Proof. intros H0 Hx. specialize (H0 x). by rewrite Hx in H0. Qed.

Lemma evolves_pending w o sub sub' x :
  evolves w sub sub' → o ≠ w → sub !! x = Some (Pending o) → sub' !! x = Some (Pending o).
Proof. intros H0 Ho Hx. specialize (H0 x). rewrite Hx in H0. naive_solver. Qed.

Lemma settled_evolves w sub sub' x : evolves w sub sub' → settled sub x → settled sub' x.
Proof.
  intros Hev Hs y Hy. destruct (Hs y Hy) as [Hd|[Hd Hx]]; [left|right]; eauto using evolves_dead, evolves_subgraph.
Qed.

(** Another walker's nodes are not disturbed. *)
Lemma spine_other w o sub sub' path stack c :
  evolves w sub sub' → o ≠ w → spine sub o path stack c → spine sub' o path stack c.
Proof.
  intros Hev Ho. induction 1 as [|p path frame stack c Hsp IH Hf Hst Hhd Hfr Hc Hk]; [by constructor|].
  constructor; try done.
  - destruct Hst as [Hp|[Hp|[Hp Hnil]]].
    + left. by eapply evolves_pending.
    + right; left. by eapply evolves_subgraph.
    + right. specialize (Hev p). rewrite Hp in Hev. naive_solver.
  - intros q Hq Hp. destruct Hst as [Hp'|[Hp'|[Hp' ->]]]; [|by eapply evolves_subgraph; [|apply Hhd]|done].
    apply (evolves_pending w o sub sub' p Hev Ho) in Hp'. congruence.
  - intros y Hy. destruct (Hk y Hy) as [|[|[Hd|[Hd Hp]]]]; [by left|by right; left| |];
      right; right; [left|right]; eauto using evolves_dead, evolves_subgraph.
Qed.

(** Marking a node of the spine whose predecessor is marked. *)
Lemma spine_mark w sub x path stack c :
  (sub !! x = Some Conflicted ∨ sub !! x = Some (Pending w)) →
  (∀ above q below, path = above ++ x :: q :: below → sub !! q = Some Subgraph) →
  spine sub w path stack c → spine (<[x := Subgraph]> sub) w path stack c.
Proof.
  intros Hx Habove Hsp. assert (Hev : evolves w sub (<[x := Subgraph]> sub)).
  { apply evolves_insert. destruct Hx as [-> | ->]; auto. }
  induction Hsp as [|p path frame stack c Hsp IH Hf Hst Hhd Hfr Hc Hk]; [by constructor|].
  constructor; try done.
  - apply IH. intros above q below ->. apply (Habove (p :: above) q below). done.
  - destruct (decide (x = p)) as [<-|Hne]; [rewrite lookup_insert_eq; auto|]. by rewrite lookup_insert_ne.
  - intros q Hq Hp. destruct (decide (x = p)) as [<-|Hne].
    + eapply evolves_subgraph; [done|]. destruct path as [|q' path]; [done|]. injection Hq as ->.
      by apply (Habove [] q path).
    + rewrite lookup_insert_ne in Hp by done. eapply evolves_subgraph; [done|]. by apply Hhd.
  - intros y Hy. destruct (Hk y Hy) as [|[|[Hd|[Hd Hp]]]]; [by left|by right; left| |];
      right; right; [left|right]; eauto using evolves_dead, evolves_subgraph.
Qed.

Lemma marks_evolves w sub sub' L : evolves w sub sub' → marks_ok sub L → marks_ok sub' L.
Proof.
  intros Hev [Hle Hm]. split; [done|]. eapply Forall_impl; [exact Hm|]. intros p Hp. by eapply evolves_subgraph.
Qed.

(** ** Where a walker is *)

Lemma child_Some l w e : NoDup l.*1 → child l w = Some e ↔ (w, e) ∈ l.
Proof. intros Hnd. unfold child. symmetry. by apply elem_of_list_to_map. Qed.

Lemma child_None l w : child l w = None ↔ w ∉ l.*1.
Proof. unfold child. symmetry. apply not_elem_of_list_to_map. Qed.

Lemma child_perm l k w : l ≡ₚ k → NoDup l.*1 → child l w = child k w.
Proof. intros Hp Hnd. unfold child. f_equal. by apply list_to_map_proper. Qed.

Lemma child_cons l w e o : child ((w, e) :: l) o = if bool_decide (w = o) then Some e else child l o.
Proof.
  unfold child. simpl. case_bool_decide as Hw; [subst; apply lookup_insert_eq|by apply lookup_insert_ne].
Qed.

(** What [w]'s flight entry must satisfy, given where [w] is. *)
Definition flight_ok (sub : Sub) (w : nat) (L : Local) (x : string) : Prop :=
  sub !! x = Some (Pending w) ∨
  path L = [] ∧ x ∈ C ∨
  sub !! x = Some Subgraph ∧ ∃ q, head (path L) = Some q ∧ sub !! q = Some Subgraph.

(** A step of the running walker [w], from local state [L] to [L']: what has to
    be shown about it for the invariant to hold again. *)
Record Step (w : nat) (c c' : Context) (L L' : Local) (flight flight' : list (nat * string))
    (out out' : list (nat * string)) (emitted : list string) (wakes' : list Wake) : Prop := {
  step_evolves : evolves w (subgraph c) (subgraph c');
  step_conflicted : ∀ x, subgraph c' !! x = Some Conflicted → subgraph c !! x = Some Conflicted;
  step_pending : ∀ x o, subgraph c' !! x = Some (Pending o) →
    subgraph c !! x = Some (Pending o) ∨ o = w;
  step_pending_own : ∀ x, subgraph c' !! x = Some (Pending w) → x ∈ path L' ∨ (w, x) ∈ flight';
  step_new : ∀ x, is_Some (subgraph c' !! x) → is_Some (subgraph c !! x) ∨ x ∈ flight'.*2;
  step_sound : ∀ x, subgraph c' !! x = Some Subgraph →
    subgraph c !! x = Some Subgraph ∨ in_subgraph x;
  step_outputs : NoDup (emitted ++ outputs c') ∧
    ∀ x, x ∈ emitted ++ outputs c' ↔ subgraph c' !! x = Some Subgraph;
  step_out : NoDup out'.*1;
  step_out_other : ∀ o, o ≠ w → child out' o = child out o;
  step_spine : spine (subgraph c') w (path L') (stack L') (child out' w);
  step_marks : marks_ok (subgraph c') L';
  step_cover : ∀ x, x ∈ path L ∨ (w, x) ∈ flight →
    settled (subgraph c') x ∨ x ∈ path L' ∨ x ∈ flight'.*2;
  step_flight_other : ∀ o x, o ≠ w → (o, x) ∈ flight' ↔ (o, x) ∈ flight;
  step_flight : ∀ x, (w, x) ∈ flight' → flight_ok (subgraph c') w L' x;
  step_wait : ∀ e l, waiters c' !! e = Some l →
    l ≠ [] ∧ ∃ o, subgraph c' !! e = Some (Pending o) ∧ o ∉ l;
  step_wakes : ∀ wake, wake ∈ wakes' →
    subgraph c' !! wake_event_id wake = Some (resolution_state (wake_result wake)) ∧
    wake_locals wake ≠ [];
  step_parked : parked c' = zlen (waiting (waiters c'))
}.

Arguments step_evolves {_ _ _ _ _ _ _ _ _ _ _} _.
Arguments step_conflicted {_ _ _ _ _ _ _ _ _ _ _} _.
Arguments step_pending {_ _ _ _ _ _ _ _ _ _ _} _.
Arguments step_pending_own {_ _ _ _ _ _ _ _ _ _ _} _.
Arguments step_new {_ _ _ _ _ _ _ _ _ _ _} _.
Arguments step_sound {_ _ _ _ _ _ _ _ _ _ _} _.
Arguments step_outputs {_ _ _ _ _ _ _ _ _ _ _} _.
Arguments step_out {_ _ _ _ _ _ _ _ _ _ _} _.
Arguments step_out_other {_ _ _ _ _ _ _ _ _ _ _} _.
Arguments step_spine {_ _ _ _ _ _ _ _ _ _ _} _.
Arguments step_marks {_ _ _ _ _ _ _ _ _ _ _} _.
Arguments step_cover {_ _ _ _ _ _ _ _ _ _ _} _.
Arguments step_flight_other {_ _ _ _ _ _ _ _ _ _ _} _.
Arguments step_flight {_ _ _ _ _ _ _ _ _ _ _} _.
Arguments step_wait {_ _ _ _ _ _ _ _ _ _ _} _.
Arguments step_wakes {_ _ _ _ _ _ _ _ _ _ _} _.
Arguments step_parked {_ _ _ _ _ _ _ _ _ _ _} _.

Lemma step_inv w c c' locals L L' flight flight' extra extra' runl runl' unstarted emitted :
  Inv c locals flight extra runl (Some w) unstarted emitted → locals !! w = Some L →
  Step w c c' L L' flight flight' (out c flight extra runl) (out c' flight' extra' runl') emitted
    (extra' ++ ready c') →
  Inv c' (<[w := L']> locals) flight' extra' runl' (Some w) unstarted emitted.
Proof.
  intros I HL S. pose proof (step_evolves S) as Hev.
  assert (Hlt : (w < length locals)%nat) by by eapply lookup_lt_Some.
  assert (Hlook : ∀ o Lo, <[w := L']> locals !! o = Some Lo →
            o = w ∧ Lo = L' ∨ o ≠ w ∧ locals !! o = Some Lo).
  { intros o Lo. destruct (decide (o = w)) as [->|Ho].
    - rewrite list_lookup_insert_eq by done. intros [= <-]. by left.
    - rewrite list_lookup_insert_ne by done. by right. }
  split.
  - intros x [Hx|Hx]%(inv_conflicted I); specialize (Hev x); rewrite Hx in Hev; auto.
  - intros x Hx. apply (inv_conflicted_only I), (step_conflicted S x Hx).
  - intros x Hx. destruct (step_sound S x Hx); [|done]. by apply (inv_sound I).
  - apply S.
  - apply S.
  - intros o Ho. rewrite length_insert. destruct (decide (o = w)) as [->|Hne]; [done|].
    apply (inv_locals I). destruct Ho as [Ho|[= ->]]; [left|done].
    destruct (child (out c flight extra runl) o) eqn:Hc.
    + apply (child_Some _ _ _ (inv_out I)) in Hc. by apply (list_elem_of_fmap_2 fst) in Hc.
    + rewrite <- (step_out_other S) in Hc by done. by apply child_None in Hc.
  - intros o Lo [[-> ->]|[Ho Hl]]%Hlook; [split; apply S|].
    destruct (inv_spine I o Lo Hl) as [Hsp Hm].
    rewrite (step_out_other S) by done. split; [by eapply spine_other|by eapply marks_evolves].
  - intros o Lo [[-> ->]|[Ho Hl]]%Hlook Hno Hrun; [done|]. apply (inv_idle I o Lo Hl); [|naive_solver].
    apply child_None. rewrite <- (step_out_other S) by done. by apply child_None.
  - intros x o Hx. destruct (decide (o = w)) as [->|Ho].
    + destruct (step_pending_own S x Hx); [left|by right].
      exists L'. by rewrite list_lookup_insert_eq.
    + destruct (step_pending S x o Hx) as [Hx'|]; [|done].
      destruct (inv_pending I x o Hx') as [(Lo & HLo & Hin)|Hin].
      * left. exists Lo. by rewrite list_lookup_insert_ne.
      * right. by apply (step_flight_other S).
  - intros x Hx. destruct (step_new S x Hx) as [Hx'|]; [|by right; right; left].
    assert (Hmine : x ∈ path L ∨ (w, x) ∈ flight → settled (subgraph c') x ∨
       (∃ w0 L0, <[w := L']> locals !! w0 = Some L0 ∧ x ∈ path L0) ∨ x ∈ flight'.*2 ∨ x ∈ unstarted).
    { intros Hin. destruct (step_cover S x Hin) as [|[|]]; [by left| |by right; right; left].
      right; left. exists w, L'. by rewrite list_lookup_insert_eq. }
    destruct (inv_cover I x Hx') as [Hs|[(o & Lo & HLo & Hin)|[Hin|]]].
    + left. by eapply settled_evolves.
    + destruct (decide (o = w)) as [->|Ho]; [apply Hmine; left; by simplify_eq|].
      right; left. exists o, Lo. by rewrite list_lookup_insert_ne.
    + apply list_elem_of_fmap in Hin as ([o x'] & -> & Hin). destruct (decide (o = w)) as [->|Ho].
      * apply Hmine. by right.
      * right; right; left. apply list_elem_of_fmap. exists (o, x'). split; [done|].
        by apply (step_flight_other S).
    + by right; right; right.
  - intros o x Hin. destruct (decide (o = w)) as [->|Ho].
    + destruct (step_flight S x Hin) as [|Hok]; [by left|right].
      exists L'. by rewrite list_lookup_insert_eq.
    + apply (step_flight_other S) in Hin; [|done].
      destruct (inv_flight I o x Hin) as [Hp|(Lo & HLo & Hok)]; [left; by eapply evolves_pending|right].
      exists Lo. rewrite list_lookup_insert_ne by done. split; [done|].
      destruct Hok as [|(Hs & q & Hq & Hqs)]; [by left|right]. split; [by eapply evolves_subgraph|].
      exists q. split; [done|by eapply evolves_subgraph].
  - apply S.
  - apply S.
  - apply S.
  - apply (inv_unstarted I).
Qed.

(** ** The nodes of a walker *)

Lemma spine_agree w sub sub' path stack c :
  (∀ p, p ∈ path → sub' !! p = sub !! p) →
  (∀ y, sub !! y = Some Dead → sub' !! y = Some Dead) →
  (∀ y, sub !! y = Some Subgraph → sub' !! y = Some Subgraph) →
  spine sub w path stack c → spine sub' w path stack c.
Proof.
  intros Hag Hd Hs Hsp. induction Hsp as [|p path frame stack c Hsp IH Hf Hst Hhd Hfr Hc Hk]; [by constructor|].
  assert (Hp : sub' !! p = sub !! p) by (apply Hag; left).
  constructor; try done.
  - apply IH. intros q Hq. apply Hag. by right.
  - by rewrite Hp.
  - intros q Hq. rewrite Hp. intros Hps. by apply Hs, Hhd.
  - intros y Hy. rewrite Hp. destruct (Hk y Hy) as [|[|[|[]]]]; auto 6.
Qed.

(** The next auth event is done with. *)
Lemma spine_done w sub path stack e :
  sub !! e = Some Dead ∨ sub !! e = Some Subgraph ∧ (∀ q, head path = Some q → sub !! q = Some Subgraph) ∨
    path = [] →
  spine sub w path stack (Some e) → spine sub w path stack None.
Proof.
  intros He Hsp. inversion Hsp as [c Hc|p path' frame stack' c Hsp' Hf Hst Hhd Hfr Hc Hk]; subst; [by constructor|].
  constructor; try done. intros y Hy. destruct (Hk y Hy) as [|[[= ->]|]]; [by left| |by right; right].
  destruct He as [|[[? Hq]|]]; [by right; right; left| |done]. right; right; right. split; [done|]. by apply Hq.
Qed.

Lemma spine_from w sub path stack e :
  spine sub w path stack (Some e) → e ∈ C ∨ reached fetch C e.
Proof.
  remember (Some e) as c. intros Hsp. revert e Heqc.
  induction Hsp as [c Hc|p path frame stack c Hsp IH Hf Hst Hhd Hfr Hc Hk]; intros e ->; [left; auto|].
  right. eapply reached_step; [by apply (IH p)|by apply Hc].
Qed.

Lemma spine_to w sub path stack e p :
  spine sub w path stack (Some e) → p ∈ path → tc (edge fetch) p e.
Proof.
  remember (Some e) as c. intros Hsp. revert e Heqc.
  induction Hsp as [c Hc|q path frame stack c Hsp IH Hf Hst Hhd Hfr Hc Hk]; intros e ->; [by intros ?%elem_of_nil|].
  assert (Hqe : edge fetch q e) by by apply Hc.
  intros [->|Hp]%elem_of_cons; [by apply tc_once|]. eapply tc_r; [by apply (IH q)|done].
Qed.

Lemma spine_path w sub path stack c p :
  spine sub w path stack c → p ∈ path →
  (p ∈ C ∨ reached fetch C p) ∧
  (sub !! p = Some (Pending w) ∨ sub !! p = Some Subgraph ∨ sub !! p = Some Conflicted).
Proof.
  induction 1 as [c Hc|q path frame stack c Hsp IH Hf Hst Hhd Hfr Hc Hk]; [by intros ?%elem_of_nil|].
  intros [->|Hp]%elem_of_cons; [|by apply IH]. split; [by eapply spine_from|naive_solver].
Qed.

Lemma spine_in_subgraph w sub path stack e p :
  spine sub w path stack (Some e) → e ∈ C ∨ reaches fetch C e → p ∈ path → in_subgraph p.
Proof.
  intros Hsp He Hp. assert (Hr : reaches fetch C p).
  { pose proof (spine_to _ _ _ _ _ _ Hsp Hp) as Hpe. destruct He as [He|(x & Hx & Hex)]; [by exists e|].
    exists x. split; [done|]. by eapply tc_transitive. }
  split_and!; [by eapply spine_path|by right|by right].
Qed.

Lemma nodup_split {A} (l1 l2 k1 k2 : list A) x :
  NoDup (l1 ++ x :: l2) → l1 ++ x :: l2 = k1 ++ x :: k2 → l2 = k2.
Proof.
  revert k1. induction l1 as [|y l1 IH]; intros [|z k1] Hnd Heq; simplify_list_eq.
  - done.
  - apply NoDup_cons in Hnd as [Hx _]. exfalso. apply Hx. set_solver.
  - apply NoDup_cons in Hnd as [Hx _]. exfalso. apply Hx. set_solver.
  - apply NoDup_cons in Hnd as [_ Hnd]. by eapply IH.
Qed.

Context (rank : string → nat) (Hrank : ∀ x y, edge fetch x y → (rank y < rank x)%nat).

Lemma tc_rank x y : tc (edge fetch) x y → (rank y < rank x)%nat.
Proof. induction 1 as [x y Hxy|x y z Hxy Hyz IH]; [by apply Hrank|]. apply Hrank in Hxy. lia. Qed.

Lemma spine_fresh w sub path stack e : spine sub w path stack (Some e) → e ∉ path.
Proof. intros Hsp He. pose proof (tc_rank e e (spine_to _ _ _ _ _ _ Hsp He)). lia. Qed.

(** The next auth event is dead. *)
Lemma spine_kill w sub path stack x :
  sub !! x = Some (Pending w) → spine sub w path stack (Some x) →
  spine (<[x := Dead]> sub) w path stack None.
Proof.
  intros Hx Hsp. eapply spine_done; [left; apply lookup_insert_eq|]. eapply spine_agree; [| | |exact Hsp].
  - intros q Hq. apply lookup_insert_ne. intros <-. by eapply spine_fresh.
  - intros y Hy. rewrite lookup_insert_ne; [done|congruence].
  - intros y Hy. rewrite lookup_insert_ne; [done|congruence].
Qed.

Lemma spine_nodup w sub path stack c : spine sub w path stack c → NoDup path.
Proof. induction 1; constructor; [by eapply spine_fresh|done]. Qed.

(** ** Waking walkers *)

Context (debug : bool).

Lemma wake_spec c e r flight extra runl :
  parked c = zlen (waiting (waiters c)) →
  ∃ c', wake_waiters debug c e r = Ok c' ∧
    subgraph c' = subgraph c ∧ outputs c' = outputs c ∧ waiters c' = delete e (waiters c) ∧
    parked c' = zlen (waiting (waiters c')) ∧
    out c' flight extra runl ≡ₚ out c flight extra runl ∧
    ∀ wake, wake ∈ ready c' →
      wake ∈ ready c ∨ wake_event_id wake = e ∧ wake_result wake = r ∧
        waiters c !! e = Some (wake_locals wake).
Proof.
  intros Hp. unfold wake_waiters. destruct (waiters c !! e) as [l|] eqn:Hl.
  - pose proof (waiting_delete _ _ _ Hl) as Hperm.
    assert (Hz : parked c = zlen l + zlen (waiting (delete e (waiters c)))).
    { rewrite Hp. unfold zlen. rewrite Hperm, length_app, length_fmap. lia. }
    rewrite (proj2 (Z.leb_le _ _)) by (unfold zlen in *; lia). unfold debug_assert. rewrite andb_false_r.
    rewrite bind_Ok. eexists. split; [done|]. cbn. split_and!; [done..| | |].
    + unfold zlen in *. lia.
    + unfold out. cbn. rewrite Hperm, !bind_app. cbn. unfold woken_of at 2. cbn. solve_Permutation.
    + intros wake [->|]%elem_of_cons; [by right|by left].
  - exists c. rewrite delete_id by done. split_and!; auto.
Qed.

(** A node gets its final state, and the walkers that wait for it are woken. *)
Lemma settle_spec w e r c locals flight extra runl unstarted emitted :
  Inv c locals flight extra runl (Some w) unstarted emitted →
  subgraph c !! e = Some (Pending w) ∨ subgraph c !! e = Some Conflicted ∧ r = ResSubgraph →
  ∃ c', wake_waiters debug (set_substate c e (resolution_state r)) e r = Ok c' ∧
    (waiters c !! e = None → c' = set_substate c e (resolution_state r)) ∧
    subgraph c' = <[e := resolution_state r]> (subgraph c) ∧ outputs c' = outputs c ∧
    evolves w (subgraph c) (subgraph c') ∧
    out c' flight extra runl ≡ₚ out c flight extra runl ∧
    (∀ e' l, waiters c' !! e' = Some l →
       l ≠ [] ∧ ∃ o, subgraph c' !! e' = Some (Pending o) ∧ o ∉ l) ∧
    (∀ wake, wake ∈ extra ++ ready c' →
       subgraph c' !! wake_event_id wake = Some (resolution_state (wake_result wake)) ∧
       wake_locals wake ≠ []) ∧
    parked c' = zlen (waiting (waiters c')).
Proof.
  intros I He.
  destruct (wake_spec (set_substate c e (resolution_state r)) e r flight extra runl)
    as (c' & Hwk & Hsub & Hout & Hwt & Hpk & Hperm & Hrd); [apply (inv_parked I)|].
  cbn in Hsub, Hout, Hwt, Hrd. exists c'.
  assert (Hev : evolves w (subgraph c) (subgraph c')).
  { rewrite Hsub. apply evolves_insert. destruct He as [->|[-> ->]]; [split; [done|]|done]. destruct r; auto. }
  split_and!; try done.
  - intros Hnone. unfold wake_waiters in Hwk. cbn in Hwk. rewrite Hnone in Hwk. congruence.
  - intros e' l. rewrite Hwt, Hsub. intros [Hne Hl]%lookup_delete_Some. rewrite lookup_insert_ne by done.
    by apply (inv_wait I).
  - intros wake Hin. assert (Hold : wake ∈ extra ++ ready c →
      subgraph c' !! wake_event_id wake = Some (resolution_state (wake_result wake)) ∧ wake_locals wake ≠ []).
    { intros [Hs Hl]%(inv_wakes I). split; [|done].
      destruct (wake_result wake); [by eapply evolves_dead|by eapply evolves_subgraph]. }
    apply elem_of_app in Hin as [Hin|Hin]; [apply Hold; set_solver|].
    destruct (Hrd wake Hin) as [Hin'|(-> & -> & Hl)]; [apply Hold; set_solver|].
    rewrite Hsub, lookup_insert_eq. split; [done|]. by apply (inv_wait I) in Hl as [].
Qed.

(** ** The steps of one walker

    [U] holds every event of the auth chains, none of which has more than [K]
    auth events. *)

Context (U : list string) (HU : ∀ x, x ∈ C ∨ reached fetch C x → x ∈ U) (K : nat).

(** The nodes not looked at yet. *)
Definition open (sub : Sub) : nat :=
  length (filter (λ x, sub !! x = None ∨ sub !! x = Some Conflicted) U).

Definition frames (L : Local) : nat := sum_list (length <$> stack L).

Section Walker.
Context (w : nat) (all : list Local) (extra : list Wake) (unstarted emitted : list string).
Context (Hw : (w < length all)%nat).

#[local] Notation At c L flight runl :=
  (Inv c (<[w := L]> all) flight extra runl (Some w) unstarted emitted).

Lemma at_local L : <[w := L]> all !! w = Some L.
Proof. by apply list_lookup_insert_eq. Qed.

Lemma step_at c c' L L' flight flight' runl runl' :
  At c L flight runl →
  Step w c c' L L' flight flight' (out c flight extra runl) (out c' flight' extra runl') emitted
    (extra ++ ready c') →
  At c' L' flight' runl'.
Proof.
  intros I S. pose proof (step_inv w c c' _ L L' flight flight' extra extra runl runl' _ _ I (at_local L) S) as HI.
  by rewrite list_insert_insert_eq in HI.
Qed.

Lemma at_spine c L flight runl :
  At c L flight runl →
  spine (subgraph c) w (path L) (stack L) (child (out c flight extra runl) w) ∧ marks_ok (subgraph c) L.
Proof. intros I. apply (inv_spine I), at_local. Qed.

Lemma at_pending c L flight runl x :
  At c L flight runl → subgraph c !! x = Some (Pending w) → x ∈ path L ∨ (w, x) ∈ flight.
Proof.
  intros I Hx. destruct (inv_pending I x w Hx) as [(L0 & HL0 & Hin)|]; [left|by right].
  rewrite at_local in HL0. by simplify_eq.
Qed.

(** The output of a node that is resolved. *)
Definition emit (r : Resolution) (x : string) (c : Context) : Context :=
  match r with ResDead => c | ResSubgraph => push_output c x end.

Lemma resolve_at x r c L flight runl :
  At c L flight runl →
  subgraph c !! x = Some (Pending w) ∨ subgraph c !! x = Some Conflicted ∧ r = ResSubgraph →
  (r = ResSubgraph → in_subgraph x) →
  ∃ c1, wake_waiters debug (set_substate c x (resolution_state r)) x r = Ok c1 ∧
    (waiters c !! x = None → c1 = set_substate c x (resolution_state r)) ∧
    subgraph (emit r x c1) = <[x := resolution_state r]> (subgraph c) ∧
    evolves w (subgraph c) (subgraph (emit r x c1)) ∧
    (∀ fl rl, out (emit r x c1) fl extra rl ≡ₚ out c fl extra rl) ∧
    ∀ L' flight' runl',
      NoDup (out (emit r x c1) flight' extra runl').*1 →
      (∀ o, o ≠ w → child (out (emit r x c1) flight' extra runl') o = child (out c flight extra runl) o) →
      (∀ y, y ≠ x → subgraph c !! y = Some (Pending w) → y ∈ path L' ∨ (w, y) ∈ flight') →
      spine (<[x := resolution_state r]> (subgraph c)) w (path L') (stack L')
        (child (out (emit r x c1) flight' extra runl') w) →
      marks_ok (subgraph c) L' →
      (∀ y, y ∈ path L ∨ (w, y) ∈ flight →
         settled (<[x := resolution_state r]> (subgraph c)) y ∨ y ∈ path L' ∨ y ∈ flight'.*2) →
      (∀ o y, o ≠ w → (o, y) ∈ flight' ↔ (o, y) ∈ flight) →
      (∀ y, (w, y) ∉ flight') →
      At (emit r x c1) L' flight' runl'.
Proof.
  intros I Hx Hin.
  destruct (settle_spec w x r c _ flight extra runl _ _ I Hx)
    as (c1 & Hok & Hnone & Hsub & Hout & Hev & Hperm & Hwt & Hwk & Hpk).
  assert (Hsube : subgraph (emit r x c1) = subgraph c1) by by destruct r.
  assert (Hperm' : ∀ fl rl, out (emit r x c1) fl extra rl ≡ₚ out c fl extra rl).
  { intros fl rl. unfold out in *. replace (waiters (emit r x c1)) with (waiters c1) by by destruct r.
    replace (ready (emit r x c1)) with (ready c1) by by destruct r.
    apply (inj (flight ++.)) in Hperm. rewrite !(assoc (++)) in Hperm. apply (inj (.++ runl)) in Hperm.
    f_equiv. rewrite !(assoc (++)). by f_equiv. }
  exists c1. split_and!; [done|done|by rewrite Hsube|by rewrite Hsube|done|].
  intros L' flight' runl' Hnd Hoth Hown Hsp Hm Hcov Hfl Hnf. eapply step_at; [exact I|].
  assert (Hlook : ∀ y st, subgraph c1 !! y = Some st →
            y = x ∧ st = resolution_state r ∨ y ≠ x ∧ subgraph c !! y = Some st).
  { intros y st. rewrite Hsub, lookup_insert_Some. naive_solver. }
  split; rewrite ?Hsube; try done.
  - intros y [[-> Hy]|[_ Hy]]%Hlook; [by destruct r|done].
  - intros y o [[-> Hy]|[_ Hy]]%Hlook; [by destruct r|by left].
  - intros y [[-> Hy]|[Hne Hy]]%Hlook; [by destruct r|by apply Hown].
  - intros y [st [[-> Hy]|[_ Hy]]%Hlook]; left; [|done]. by destruct Hx as [->|[-> _]].
  - intros y [[-> Hy]|[_ Hy]]%Hlook; [right; apply Hin; by destruct r|by left].
  - destruct (inv_outputs I) as [Hn Ho]. destruct r; cbn; rewrite Hout, Hsub.
    + split; [done|]. intros y. rewrite Ho, lookup_insert_Some. destruct (decide (x = y)) as [->|]; [|naive_solver].
      split; [destruct Hx as [->|[-> _]]; done|naive_solver].
    + rewrite (assoc (++)). assert (Hxn : x ∉ emitted ++ outputs c).
      { rewrite Ho. by destruct Hx as [->|[-> _]]. }
      split.
      * apply NoDup_app. split_and!; [done|set_solver|apply NoDup_singleton].
      * intros y. rewrite (assoc (++)), elem_of_app, Ho, list_elem_of_singleton, lookup_insert_Some.
        destruct (decide (x = y)) as [->|]; naive_solver.
  - by rewrite Hsub.
  - by eapply marks_evolves.
  - by rewrite Hsub.
  - intros y Hy. by apply Hnf in Hy.
  - by destruct r.
  - by destruct r.
  - by destruct r.
Qed.

(** A step that changes no node. *)
Lemma quiet_at c L L' flight runl runl' :
  At c L flight runl → (∀ y, (w, y) ∉ flight) → path L' = path L →
  NoDup (out c flight extra runl').*1 →
  (∀ o, o ≠ w → child (out c flight extra runl') o = child (out c flight extra runl) o) →
  spine (subgraph c) w (path L') (stack L') (child (out c flight extra runl') w) →
  marks_ok (subgraph c) L' → At c L' flight runl'.
Proof.
  intros I Hnf Hpath Hnd Hoth Hsp Hm. eapply step_at; [exact I|]. split; try done; try by (intros; left).
  - apply evolves_refl.
  - rewrite Hpath. intros x. by eapply at_pending.
  - apply (inv_outputs I).
  - intros x [Hx|Hx]; [right; left; by rewrite Hpath|by apply Hnf in Hx].
  - intros x Hx. by apply Hnf in Hx.
  - apply (inv_wait I).
  - apply (inv_wakes I).
  - apply (inv_parked I).
Qed.

Lemma mark_one x c L flight runl :
  At c L flight runl → (∀ y, (w, y) ∉ flight) →
  subgraph c !! x = Some (Pending w) ∨ subgraph c !! x = Some Subgraph ∨ subgraph c !! x = Some Conflicted →
  in_subgraph x →
  (∀ above q below, path L = above ++ x :: q :: below → subgraph c !! q = Some Subgraph) →
  ∃ b c1, insert_path_filter debug c x = Ok (b, c1) ∧
    let c' := if b : bool then push_output c1 x else c1 in
    At c' L flight runl ∧ subgraph c' = <[x := Subgraph]> (subgraph c) ∧
    out c' flight extra runl ≡ₚ out c flight extra runl.
Proof.
  intros I Hnf Hx Hin Habove. unfold insert_path_filter.
  destruct (decide (subgraph c !! x = Some Subgraph)) as [Hs|Hs].
  { rewrite Hs. exists false, c. by rewrite insert_id. }
  assert (Hx' : subgraph c !! x = Some (Pending w) ∨ subgraph c !! x = Some Conflicted) by naive_solver.
  destruct (at_spine _ _ _ _ I) as [Hsp Hm].
  destruct (resolve_at x ResSubgraph c L flight runl I) as (c1 & Hok & Hnone & Hsub & Hev & Hperm & Hat);
    [naive_solver|done|].
  exists true, c1. cbn [emit resolution_state] in *.
  pose proof (inv_out I) as Hnd.
  assert (At (push_output c1 x) L flight runl).
  { apply Hat; try done.
    - by rewrite Hperm.
    - intros o _. apply child_perm; [apply Hperm|by rewrite Hperm].
    - intros y _. by eapply at_pending.
    - rewrite (child_perm _ _ w (Hperm flight runl)) by by rewrite Hperm. apply spine_mark; naive_solver.
    - intros y [|Hy]; [by right; left|by apply Hnf in Hy]. }
  destruct Hx' as [E|E]; rewrite E.
  - rewrite bool_decide_eq_true_2 by done. unfold debug_assert. rewrite andb_false_r, bind_Ok, Hok, bind_Ok. done.
  - rewrite bool_decide_eq_true_2 by done. unfold debug_assert. rewrite andb_false_r, !bind_Ok.
    rewrite Hnone in * by (destruct (waiters c !! x) eqn:Ew; [apply (inv_wait I) in Ew as (_ & o & ? & _); congruence|done]).
    done.
Qed.

Lemma mark_all l c L flight runl :
  At c L flight runl → (∀ y, (w, y) ∉ flight) →
  (∀ x, x ∈ l → in_subgraph x ∧ (subgraph c !! x = Some (Pending w) ∨ subgraph c !! x = Some Subgraph ∨
                                   subgraph c !! x = Some Conflicted)) →
  (∀ pre x post above q below, l = pre ++ x :: post → path L = above ++ x :: q :: below →
     subgraph c !! q = Some Subgraph ∨ q ∈ pre) →
  ∃ c', insert_all debug c l = Ok c' ∧ At c' L flight runl ∧
    (∀ x, x ∈ l → subgraph c' !! x = Some Subgraph) ∧
    (∀ x, x ∉ l → subgraph c' !! x = subgraph c !! x) ∧
    out c' flight extra runl ≡ₚ out c flight extra runl.
Proof.
  revert c. induction l as [|x l IH]; intros c I Hnf Hl Habove; simpl.
  { exists c. split_and!; [done..|by intros ? ?%elem_of_nil|done|done]. }
  destruct (Hl x) as [Hin Hx]; [left|].
  destruct (mark_one x c L flight runl I Hnf Hx Hin) as (b & c1 & -> & I' & Hsub & Hperm).
  { intros above q below Hp. destruct (Habove [] x l above q below eq_refl Hp) as [|Hq%elem_of_nil]; done. }
  rewrite bind_Ok. set (c' := if b then push_output c1 x else c1) in *.
  destruct (IH c' I' Hnf) as (c2 & Hok & I2 & Hs & Ho & Hperm2).
  - intros y Hy. rewrite Hsub. destruct (Hl y) as [Hiny Hyst]; [by right|]. split; [done|].
    destruct (decide (x = y)) as [<-|]; [rewrite lookup_insert_eq; auto|by rewrite lookup_insert_ne].
  - intros pre y post above q below -> Hp. rewrite Hsub.
    destruct (decide (x = q)) as [<-|Hne]; [left; apply lookup_insert_eq|]. rewrite lookup_insert_ne by done.
    destruct (Habove (x :: pre) y post above q below eq_refl Hp) as [|[->|]%elem_of_cons]; [by left|done|by right].
  - exists c2. split_and!; [done|done| | |by rewrite Hperm2].
    + intros y [->|Hy]%elem_of_cons; [|by apply Hs]. destruct (decide (x ∈ l)) as [Hy|Hy]; [by apply Hs|].
      by rewrite Ho, Hsub, lookup_insert_eq.
    + intros y [Hne Hy]%not_elem_of_cons. rewrite Ho, Hsub by done. by rewrite lookup_insert_ne.
Qed.

Lemma at_child c L flight e : At c L flight [(w, e)] → child (out c flight extra [(w, e)]) w = Some e.
Proof. intros I. apply child_Some; [apply (inv_out I)|]. unfold out. set_solver. Qed.

Lemma at_looking c L flight e : At c L flight [(w, e)] → ∀ y, (w, y) ∉ flight.
Proof.
  intros I y Hy. pose proof (inv_out I) as Hnd. unfold out in Hnd. rewrite !fmap_app in Hnd.
  apply NoDup_app in Hnd as (_ & Hnd & _). apply (Hnd w); [by apply (list_elem_of_fmap_2 fst) in Hy|set_solver].
Qed.

Lemma at_free c flight L : At c L flight [] → w ∉ (out c flight extra []).*1 → ∀ y, (w, y) ∉ flight.
Proof. intros I Hn y Hy. apply Hn. unfold out. rewrite fmap_app. apply (list_elem_of_fmap_2 fst) in Hy. set_solver. Qed.

Lemma out_runl c flight p : out c flight extra [p] ≡ₚ p :: out c flight extra [].
Proof. unfold out. rewrite app_nil_r, !(assoc (++)). by rewrite <- Permutation_cons_append. Qed.

Lemma insert_path_at e c L flight :
  At c L flight [(w, e)] →
  subgraph c !! e = Some Subgraph ∨ subgraph c !! e = Some Conflicted ∧ path L ≠ [] →
  ∃ c', insert_path debug L c e = Ok (mkLocal (path L) (stack L) (length (path L)), c') ∧
    At c' (mkLocal (path L) (stack L) (length (path L))) flight [(w, e)] ∧
    subgraph c' !! e = Some Subgraph ∧ (∀ p, p ∈ path L → subgraph c' !! p = Some Subgraph) ∧
    evolves w (subgraph c) (subgraph c') ∧
    out c' flight extra [(w, e)] ≡ₚ out c flight extra [(w, e)].
Proof.
  intros I He. pose proof (at_looking _ _ _ _ I) as Hnf. destruct (at_spine _ _ _ _ I) as [Hsp [Hm Hmk]].
  rewrite (at_child _ _ _ _ I) in Hsp. set (k := (length (path L) - marked L)%nat) in *.
  assert (Hine : in_subgraph e).
  { destruct He as [He|[He Hne]]; [by apply (inv_sound I)|].
    pose proof (inv_conflicted_only I _ He) as HeC. split_and!; [by left|by left|left].
    inversion Hsp as [|p P fr S' c0 Hsp' Hf Hst Hhd Hfr Hc Hk Hpath]; [congruence|].
    eapply reached_step; [by eapply spine_from|by apply Hc]. }
  destruct (mark_all (reverse (take k (path L)) ++ [e]) c L flight [(w, e)] I Hnf)
    as (c' & Hok & I' & Hs & Ho & Hperm).
  - intros x [Hx|Hx%list_elem_of_singleton]%elem_of_app; [|subst x; split; [done|naive_solver]].
    rewrite elem_of_reverse in Hx. apply elem_of_take in Hx as (i & Hx%list_elem_of_lookup_2 & _).
    split; [eapply spine_in_subgraph; [done|apply Hine|done]|by eapply spine_path].
  - intros pre x post above q below Hl Hp.
    destruct (decide (x = e)) as [->|Hne].
    { exfalso. apply (spine_fresh _ _ _ _ _ Hsp). rewrite Hp. set_solver. }
    destruct post as [|z post _] using rev_ind; [apply app_inj_tail in Hl as [_ ->]; done|].
    rewrite app_comm_cons, (assoc (++)) in Hl. apply app_inj_tail in Hl as [Hl _].
    apply (f_equal reverse) in Hl. rewrite reverse_involutive, reverse_app, reverse_cons, <- (assoc (++)) in Hl.
    pose proof (take_drop k (path L)) as Htd. rewrite Hl, <- (assoc (++)) in Htd. simpl in Htd.
    pose proof (spine_nodup _ _ _ _ _ Hsp) as Hnd. rewrite <- Htd in Hnd, Hp.
    apply nodup_split in Hp; [|done].
    assert (Hq : q ∈ reverse pre ++ drop k (path L)) by (rewrite Hp; left).
    apply elem_of_app in Hq as [Hq|Hq]; [right; by apply elem_of_reverse|left].
    rewrite Forall_forall in Hmk. by apply Hmk.
  - assert (Hall : ∀ p, p ∈ path L → subgraph c' !! p = Some Subgraph).
    { intros p Hp. destruct (decide (p ∈ reverse (take k (path L)) ++ [e])) as [Hin|Hin]; [by apply Hs|].
      rewrite Ho by done. rewrite Forall_forall in Hmk. apply Hmk. rewrite <- (take_drop k (path L)) in Hp.
      apply elem_of_app in Hp as [Hp|]; [|done]. exfalso. apply Hin. apply elem_of_app. left. by apply elem_of_reverse. }
    destruct (at_spine _ _ _ _ I') as [Hsp' _].
    exists c'. unfold insert_path. fold k. rewrite Hok, bind_Ok. split_and!; try done.
    + eapply quiet_at; [exact I'|done..|apply (inv_out I')|done|done|].
      split; [done|]. cbn. apply Forall_forall. intros p Hp. apply Hall. rewrite Nat.sub_diag in Hp. done.
    + apply Hs. set_solver.
    + intros x. destruct (decide (x ∈ reverse (take k (path L)) ++ [e])) as [Hin|Hin].
      * rewrite (Hs x Hin). destruct (subgraph c !! x) as [st|] eqn:Est; [|done].
        apply elem_of_app in Hin as [Hin|Hin%list_elem_of_singleton]; [|subst x; destruct He as [|[]]; simplify_eq; auto].
        rewrite elem_of_reverse in Hin. apply elem_of_take in Hin as (i & Hin%list_elem_of_lookup_2 & _).
        destruct (spine_path _ _ _ _ _ _ Hsp Hin) as [_ [|[|]]]; simplify_eq; auto.
      * rewrite Ho by done. apply (evolves_refl w (subgraph c) x).
Qed.

(** The auth event is done with, or put in the frame's place. *)
Lemma drop_at e c L flight :
  At c L flight [(w, e)] →
  subgraph c !! e = Some Dead ∨
    subgraph c !! e = Some Subgraph ∧ (∀ q, head (path L) = Some q → subgraph c !! q = Some Subgraph) →
  At c L flight [].
Proof.
  intros I He. destruct (at_spine _ _ _ _ I) as [Hsp Hm]. rewrite (at_child _ _ _ _ I) in Hsp.
  pose proof (inv_out I) as Hnd. rewrite out_runl in Hnd. apply NoDup_cons in Hnd as [Hn Hnd].
  eapply quiet_at; [exact I|by eapply at_looking|done|done| | |done].
  - intros o Ho. rewrite (child_perm _ _ o (out_runl c flight (w, e)) (inv_out I)).
    rewrite child_cons. by rewrite bool_decide_eq_false_2.
  - rewrite (proj2 (child_None _ _)) by done. eapply spine_done; [|exact Hsp]. naive_solver.
Qed.

Lemma pop_at e c L fr S flight :
  At c L flight [] → w ∉ (out c flight extra []).*1 → stack L = (e :: fr) :: S →
  At c (mkLocal (path L) (fr :: S) (marked L)) flight [(w, e)].
Proof.
  intros I Hn HS. destruct (at_spine _ _ _ _ I) as [Hsp Hm]. rewrite (proj2 (child_None _ _)), HS in Hsp by done.
  assert (Hnd : NoDup (out c flight extra [(w, e)]).*1).
  { rewrite out_runl. apply NoDup_cons. split; [done|apply (inv_out I)]. }
  eapply quiet_at; [exact I|by eapply at_free|done|done| | |done].
  - intros o Ho. rewrite (child_perm _ _ o (out_runl c flight (w, e)) Hnd), child_cons. by rewrite bool_decide_eq_false_2.
  - rewrite (proj2 (child_Some _ w e Hnd)) by (rewrite out_runl; left). cbn.
    inversion Hsp as [|p P fr' S' c0 Hsp' Hf Hst Hhd Hfr Hc Hk Hpath]; subst. constructor; try done; [set_solver..|].
    intros y Hy. destruct (Hk y Hy) as [[->|]%elem_of_cons|[|]]; naive_solver.
Qed.

(** A node whose auth events are all done with is left. *)
Lemma leave_at p P Q m c flight :
  At c (mkLocal (p :: P) ([] :: Q) m) flight [] → w ∉ (out c flight extra []).*1 →
  ∃ c', complete_pending debug c p ResDead = Ok c' ∧
    At c' (mkLocal P Q (Nat.min m (length P))) flight [] ∧
    evolves w (subgraph c) (subgraph c') ∧ out c' flight extra [] ≡ₚ out c flight extra [].
Proof.
  intros I Hn. pose proof (at_free _ _ _ I Hn) as Hnf. pose proof (inv_out I) as Hnd.
  destruct (at_spine _ _ _ _ I) as [Hsp [Hm Hmk]]. rewrite (proj2 (child_None _ _)) in Hsp by done. cbn in Hsp, Hm, Hmk.
  inversion Hsp as [|p' P' fr' S' c0 Hsp' Hf Hst Hhd Hfr Hc Hk Hpath]; subst.
  assert (Hset : settled (subgraph c) p).
  { intros y Hy. destruct (Hk y Hy) as [?%elem_of_nil|[|]]; done. }
  assert (Hm' : marks_ok (subgraph c) (mkLocal P Q (Nat.min m (length P)))).
  { split; cbn; [lia|]. destruct (decide (m = S (length P))) as [->|].
    - rewrite Nat.sub_diag in Hmk. apply Forall_cons in Hmk as [_ Hmk].
      by replace (length P - _)%nat with 0%nat by lia.
    - replace (Nat.min m (length P)) with m by lia.
      by replace (S (length P) - m)%nat with (S (length P - m)) in Hmk by lia. }
  unfold complete_pending. destruct Hst as [Hp|Hst].
  - rewrite Hp. destruct (resolve_at p ResDead c _ flight [] I) as (c1 & Hok & _ & Hsub & Hev & Hperm & Hat);
      [by left|done|]. exists c1. cbn [emit resolution_state] in *. split_and!; [done| |done|done].
    apply Hat; try done; cbn.
    + by rewrite Hperm.
    + intros o _. apply child_perm; [apply Hperm|by rewrite Hperm].
    + intros y Hne Hy. destruct (at_pending _ _ _ _ _ I Hy) as [[->|]%elem_of_cons|]; [done|by left|by right].
    + rewrite (proj2 (child_None _ _)) by by rewrite Hperm. by apply spine_kill.
    + intros y [[->|]%elem_of_cons|Hy]; [|by right; left|by apply Hnf in Hy].
      left. rewrite <- Hsub. by eapply settled_evolves.
  - replace (match subgraph c !! p with Some (Pending _) => _ | _ => Ok c end) with (Ok c : Res Context)
      by by destruct Hst as [->|[-> _]].
    exists c. split_and!; [done| |apply evolves_refl|done]. eapply step_at; [exact I|].
    split; try done; try by (intros; left).
    + apply evolves_refl.
    + intros x Hx. destruct (at_pending _ _ _ _ _ I Hx) as [[->|]%elem_of_cons|]; [|by left|by right].
      destruct Hst as [|[]]; congruence.
    + apply (inv_outputs I).
    + rewrite (proj2 (child_None _ _)) by done. eapply spine_done; [|exact Hsp'].
      destruct Hst as [Hp|[_ ->]]; [right; left|by right; right]. split; [done|]. intros q Hq. by apply Hhd.
    + cbn. intros y [[->|]%elem_of_cons|Hy]; [by left|by right; left|by apply Hnf in Hy].
    + intros x Hx. by apply Hnf in Hx.
    + apply (inv_wait I).
    + apply (inv_wakes I).
    + apply (inv_parked I).
Qed.

(** A new node is fetched by the walker, which owns it. *)
Lemma own_at e c L flight :
  At c L flight [(w, e)] → subgraph c !! e = None →
  At (set_substate c e (Pending w)) L ((w, e) :: flight) [].
Proof.
  intros I He. destruct (at_spine _ _ _ _ I) as [Hsp Hm]. rewrite (at_child _ _ _ _ I) in Hsp.
  assert (Hperm : out (set_substate c e (Pending w)) ((w, e) :: flight) extra [] ≡ₚ out c flight extra [(w, e)]).
  { rewrite out_runl. unfold out. by cbn. }
  assert (Hagree : ∀ y st, subgraph c !! y = Some st → <[e := Pending w]> (subgraph c) !! y = Some st).
  { intros y st Hy. rewrite lookup_insert_ne; [done|congruence]. }
  assert (Hev : evolves w (subgraph c) (<[e := Pending w]> (subgraph c))).
  { apply evolves_insert. by rewrite He. }
  assert (Hlook : ∀ y st, <[e := Pending w]> (subgraph c) !! y = Some st →
            y = e ∧ st = Pending w ∨ y ≠ e ∧ subgraph c !! y = Some st).
  { intros y st. rewrite lookup_insert_Some. naive_solver. }
  pose proof (inv_out I) as Hnd. rewrite <- Hperm in Hnd.
  eapply step_at; [exact I|]. split; cbn [set_substate subgraph outputs waiters ready parked]; try done.
  - by intros y [[]|[]]%Hlook.
  - intros y o [[-> [= ->]]|[]]%Hlook; auto.
  - intros y [[-> _]|[_ Hy]]%Hlook; [right; left|].
    destruct (at_pending _ _ _ _ _ I Hy); [by left|by right; right].
  - intros y [st [[-> _]|[_ Hy]]%Hlook]; [right; left|by left].
  - by intros y [[]|[]]%Hlook; left.
  - destruct (inv_outputs I) as [Hn Ho]. split; [done|]. intros y. rewrite Ho. split; [apply Hagree|].
    by intros [[]|[]]%Hlook.
  - intros o Ho. apply child_perm; [done|done].
  - rewrite (child_perm _ _ w Hperm Hnd), (at_child _ _ _ _ I).
    eapply spine_agree; [| | |exact Hsp]; [|by intros; apply Hagree..].
    intros p Hp. destruct (spine_path _ _ _ _ _ _ Hsp Hp) as [_ [E|[E|E]]]; rewrite (Hagree _ _ E); done.
  - by eapply marks_evolves.
  - intros x [|Hx]; [by right; left|right; right; right]. by apply (list_elem_of_fmap_2 snd) in Hx.
  - intros o x Ho. rewrite elem_of_cons. naive_solver.
  - intros x Hx. apply elem_of_cons in Hx as [[= ->]|Hx]; [left; apply lookup_insert_eq|].
    by apply (at_looking _ _ _ _ I) in Hx.
  - intros e' l Hl. destruct (inv_wait I e' l Hl) as (? & o & Ho & ?). split; [done|]. exists o. auto.
  - intros wake Hin. destruct (inv_wakes I wake Hin) as [? ?]. auto.
  - apply (inv_parked I).
Qed.

(** A conflicted node is fetched once the path to it is marked. *)
Lemma fetch_at e c L flight q :
  At c L flight [(w, e)] → subgraph c !! e = Some Subgraph → head (path L) = Some q →
  subgraph c !! q = Some Subgraph → At c L ((w, e) :: flight) [].
Proof.
  intros I He Hq Hqs. destruct (at_spine _ _ _ _ I) as [Hsp Hm].
  assert (Hperm : out c ((w, e) :: flight) extra [] ≡ₚ out c flight extra [(w, e)]).
  { rewrite out_runl. unfold out. by cbn. }
  pose proof (inv_out I) as Hnd. rewrite <- Hperm in Hnd.
  eapply step_at; [exact I|]. split; try done; try by (intros; left).
  - apply evolves_refl.
  - intros x Hx. destruct (at_pending _ _ _ _ _ I Hx); [by left|by right; right].
  - apply (inv_outputs I).
  - intros o Ho. by apply child_perm.
  - by rewrite (child_perm _ _ w Hperm Hnd).
  - intros x [|Hx]; [by right; left|right; right; right]. by apply (list_elem_of_fmap_2 snd) in Hx.
  - intros o x Ho. rewrite elem_of_cons. naive_solver.
  - intros x Hx. apply elem_of_cons in Hx as [[= ->]|Hx]; [|by apply (at_looking _ _ _ _ I) in Hx].
    right; right. eauto.
  - apply (inv_wait I).
  - apply (inv_wakes I).
  - apply (inv_parked I).
Qed.

(** The walker waits for a node another one owns. *)
Definition parked_at (c : Context) (e : string) : Context :=
  mkContext (subgraph c) (<[e := default [] (waiters c !! e) ++ [w]]> (waiters c)) (ready c)
    (parked c + 1) (outputs c).

Lemma out_parked c flight e : out (parked_at c e) flight extra [] ≡ₚ out c flight extra [(w, e)].
Proof. rewrite out_runl. unfold out. cbn. rewrite waiting_push. symmetry. apply Permutation_middle. Qed.

Lemma park_at e o c L flight :
  At c L flight [(w, e)] → subgraph c !! e = Some (Pending o) → o ≠ w → At (parked_at c e) L flight [].
Proof.
  intros I He Ho. destruct (at_spine _ _ _ _ I) as [Hsp Hm].
  pose proof (out_parked c flight e) as Hperm. pose proof (inv_out I) as Hnd. rewrite <- Hperm in Hnd.
  eapply step_at; [exact I|]. split; cbn [parked_at subgraph outputs waiters ready parked]; try done; try by (intros; left).
  - apply evolves_refl.
  - intros x. by eapply at_pending.
  - apply (inv_outputs I).
  - intros o' _. by apply child_perm.
  - by rewrite (child_perm _ _ w Hperm Hnd).
  - intros x [|Hx]; [by right; left|]. by apply (at_looking _ _ _ _ I) in Hx.
  - intros x Hx. by apply (at_looking _ _ _ _ I) in Hx.
  - intros e' l. rewrite lookup_insert_Some. intros [[<- <-]|[Hne Hl]]; [|by apply (inv_wait I)].
    split; [by destruct (default _ _)|]. exists o. split; [done|]. rewrite elem_of_app, list_elem_of_singleton.
    destruct (waiters c !! e) as [l|] eqn:El; cbn; [|set_solver].
    destruct (inv_wait I e l El) as (_ & o' & Ho' & Hn). naive_solver.
  - apply (inv_wakes I).
  - rewrite (inv_parked I). unfold zlen. rewrite waiting_push. cbn. lia.
Qed.

(** ** Progress *)

Definition todo_weight (c : Context) (L : Local) (flight runl : list (nat * string)) : nat :=
  frames L + (K + 2) * open (subgraph c) + (K + 1) * length flight + length (out c flight extra runl).

Lemma evolves_open sub sub' x :
  evolves w sub sub' → sub' !! x = None ∨ sub' !! x = Some Conflicted → sub !! x = None ∨ sub !! x = Some Conflicted.
Proof. intros Hev Hx. specialize (Hev x). destruct (sub !! x) as [[]|]; naive_solver. Qed.

Lemma open_evolves sub sub' : evolves w sub sub' → (open sub' ≤ open sub)%nat.
Proof. intros Hev. apply filter_implies. intros x. by apply evolves_open. Qed.

Lemma open_less sub sub' e :
  evolves w sub sub' → e ∈ U → sub !! e = None ∨ sub !! e = Some Conflicted →
  sub' !! e ≠ None → sub' !! e ≠ Some Conflicted → (S (open sub') ≤ open sub)%nat.
Proof.
  intros Hev He Ho Hn Hc. apply (filter_less _ _ U e); [|done|done|by intros []].
  intros x. by apply evolves_open.
Qed.

Lemma at_known c L flight e : At c L flight [(w, e)] → e ∈ U.
Proof.
  intros I. destruct (at_spine _ _ _ _ I) as [Hsp _]. rewrite (at_child _ _ _ _ I) in Hsp.
  by eapply HU, spine_from.
Qed.

Lemma out_runl_length c flight p : length (out c flight extra [p]) = S (length (out c flight extra [])).
Proof. by rewrite out_runl. Qed.

Lemma leave_all Q P m c flight :
  At c (mkLocal P Q m) flight [] → w ∉ (out c flight extra []).*1 →
  ∃ P' Q' c', leave debug P Q c = Ok (P', Q', c') ∧
    At c' (mkLocal P' Q' (Nat.min m (length P'))) flight [] ∧
    evolves w (subgraph c) (subgraph c') ∧ out c' flight extra [] ≡ₚ out c flight extra [] ∧
    sum_list (length <$> Q') = sum_list (length <$> Q) ∧
    (Q' = [] ∧ P' = [] ∨ P' ≠ [] ∧ ∃ e fr R, Q' = (e :: fr) :: R).
Proof.
  revert P m c. induction Q as [|fr Q IH]; intros P m c I Hn;
    destruct (at_spine _ _ _ _ I) as [Hsp [Hm _]]; cbn in Hsp, Hm.
  { inversion Hsp; subst. exists [], [], c. cbn. cbn in Hm. replace m with 0%nat in * by lia.
    split_and!; auto using evolves_refl. }
  destruct fr as [|e fr].
  - inversion Hsp as [|p P' fr' S' c0 Hsp' Hf Hst Hhd Hfr Hc Hk Hpath]; subst.
    destruct (leave_at p P' Q m c flight I Hn) as (c1 & Hok & I1 & Hev & Hperm).
    destruct (IH P' (Nat.min m (length P')) c1 I1) as (P2 & Q2 & c2 & Hok2 & I2 & Hev2 & Hperm2 & Hsum & Hcase);
      [by rewrite Hperm|].
    exists P2, Q2, c2. cbn [leave]. rewrite Hok, bind_Ok. split_and!; [done| |by eapply evolves_trans|by rewrite Hperm2|done|done].
    assert (Hle : (length P2 ≤ length P')%nat).
    { clear -Hok2. revert P' c1 Hok2. induction Q as [|[|] Q IH]; intros P' c1; cbn.
      - by intros [= <- _ _].
      - destruct P' as [|p P']; [|intros (c & ? & ?)%bind_Ok_inv]; [intros ?%IH; done|].
        apply IH in H0. cbn. lia.
      - by intros [= <- _ _]. }
    by replace (Nat.min (Nat.min m (length P')) (length P2)) with (Nat.min m (length P2)) in I2 by lia.
  - inversion Hsp as [|p P' fr' S' c0 Hsp' Hf Hst Hhd Hfr Hc Hk Hpath]; subst.
    exists (p :: P'), ((e :: fr) :: Q), c. rewrite Nat.min_l by done.
    split_and!; [done|done|apply evolves_refl|done|done|right; eauto].
Qed.

Lemma eval_at e c L flight :
  At c L flight [(w, e)] → path L ≠ [] → Z.of_nat w ≤ u32_max →
  ∃ ev L' c', eval debug L w c e = Ok (ev, L', c') ∧
    match ev with
    | Continue => At c' L' flight [] ∧ w ∉ (out c' flight extra []).*1 ∧ frames L' = frames L ∧
        (S (todo_weight c' L' flight []) ≤ todo_weight c L flight [(w, e)])%nat
    | Fetch e' => At c' L' ((w, e') :: flight) [] ∧
        (todo_weight c' L' ((w, e') :: flight) [] ≤ todo_weight c L flight [(w, e)])%nat
    | Park => At c' L' flight [] ∧ w ∈ (out c' flight extra []).*1 ∧
        (todo_weight c' L' flight [] ≤ todo_weight c L flight [(w, e)])%nat
    end.
Proof.
  intros I HP Hu32. pose proof (inv_out I) as Hnd. rewrite out_runl in Hnd.
  apply NoDup_cons in Hnd as [Hn Hnd].
  destruct (at_spine _ _ _ _ I) as [Hsp _]. rewrite (at_child _ _ _ _ I) in Hsp.
  unfold eval. destruct (subgraph c !! e) as [[|o| |]|] eqn:He.
  - destruct (insert_path_at e c L flight I) as (c' & -> & I' & He' & Hall & Hev & Hperm); [by right|].
    rewrite bind_Ok. cbn [path]. rewrite bool_decide_eq_false_2.
    2: { intros Hl%last_Some_elem_of. by eapply spine_fresh. }
    eexists _, _, _. split; [done|]. destruct (path L) as [|q P] eqn:EP; [done|].
    pose proof (open_less _ _ e Hev (at_known _ _ _ _ I)) as Hopen.
    split; [eapply (fetch_at e _ _ _ q); [exact I'|done|done|apply Hall; left]|].
    apply Permutation_length in Hperm. rewrite !out_runl_length in Hperm.
    unfold todo_weight, frames. rewrite out_runl_length. cbn. unfold out in *. cbn in *.
    rewrite He, He' in Hopen. specialize (Hopen (or_intror eq_refl) ltac:(done) ltac:(done)). nia.
  - assert (Ho : o ≠ w).
    { intros ->. destruct (at_pending _ _ _ _ _ I He) as [Hin|Hin]; [by eapply spine_fresh|].
      by apply (at_looking _ _ _ _ I) in Hin. }
    rewrite bool_decide_eq_false_2 by done. eexists _, _, _. split; [done|]. fold (parked_at c e).
    pose proof (out_parked c flight e) as Hperm. split_and!.
    + by eapply park_at.
    + rewrite Hperm, out_runl. left.
    + unfold todo_weight. rewrite Hperm. cbn. lia.
  - eexists _, _, _. split; [done|]. split_and!; [eapply drop_at; [exact I|by left]|done|done|].
    unfold todo_weight. rewrite out_runl_length. lia.
  - destruct (insert_path_at e c L flight I) as (c' & -> & I' & He' & Hall & Hev & Hperm); [by left|].
    rewrite bind_Ok. eexists _, _, _. split; [done|]. pose proof (open_evolves _ _ Hev) as Hopen.
    rewrite !out_runl in Hperm. apply Permutation_cons_inv in Hperm.
    split_and!; [|by rewrite Hperm|done|].
    + eapply drop_at; [exact I'|]. right. split; [done|]. cbn. intros q Hq. apply Hall.
      destruct (path L); [done|]. injection Hq as ->. left.
    + apply Permutation_length in Hperm. unfold todo_weight, frames. rewrite out_runl_length. cbn. nia.
  - unfold local_id. rewrite bool_decide_eq_true_2 by done. rewrite bind_Ok.
    eexists _, _, _. split; [done|]. split; [by apply own_at|].
    pose proof (own_at _ _ _ _ I He) as I'.
    assert (Hopen : (S (open (<[e := Pending w]> (subgraph c))) ≤ open (subgraph c))%nat).
    { apply (open_less _ _ e); [|by eapply at_known|by left|by rewrite lookup_insert_eq..].
      apply evolves_insert. by rewrite He. }
    unfold todo_weight. rewrite out_runl_length. unfold out. cbn. nia.
Qed.

Context (Hu32 : Z.of_nat w ≤ u32_max).

(** What a turn of the walker ends in: it fetches, or it waits or has nothing
    left to do. *)
Definition turned (flight : list (nat * string)) (limit : nat) (next : option string) (c : Context)
    (L : Local) : Prop :=
  match next with
  | Some e => At c L ((w, e) :: flight) [] ∧ (todo_weight c L ((w, e) :: flight) [] ≤ limit)%nat
  | None => At c L flight [] ∧ (w ∈ (out c flight extra []).*1 ∨ path L = []) ∧
      (todo_weight c L flight [] ≤ limit)%nat
  end.

Lemma descend_at fuel c L flight limit :
  At c L flight [] → w ∉ (out c flight extra []).*1 → (frames L < fuel)%nat →
  (todo_weight c L flight [] ≤ limit)%nat →
  ∃ next L' c', descend debug fuel L w c = Ok (next, L', c') ∧ turned flight limit next c' L'.
Proof.
  revert c L. induction fuel as [|fuel IH]; intros c [P Q m] I Hn Hfuel Hlim; [lia|].
  destruct (leave_all Q P m c flight I Hn) as (P' & Q' & c' & Hok & I' & Hev & Hperm & Hsum & Hcase).
  cbn [descend]. unfold pop. cbn [path stack marked]. rewrite Hok, bind_Ok. cbn beta iota zeta. rewrite bind_Ok.
  assert (Hw' : (todo_weight c' (mkLocal P' Q' (Nat.min m (length P'))) flight [] ≤ limit)%nat).
  { etrans; [|exact Hlim]. pose proof (open_evolves _ _ Hev). unfold todo_weight, frames. cbn. rewrite Hperm, Hsum. nia. }
  assert (Hn' : w ∉ (out c' flight extra []).*1) by by rewrite Hperm.
  destruct Hcase as [[-> ->]|(HP & e & fr & R & ->)]; cbn [stack].
  { eexists _, _, _. split; [done|]. cbn in I'. rewrite Nat.min_0_r in *. split_and!; [done|by right|done]. }
  pose proof (pop_at e c' _ fr R flight I' Hn' eq_refl) as I2. cbn [path marked] in I2.
  set (L2 := mkLocal P' (fr :: R) (Nat.min m (length P'))) in *.
  assert (Hw2 : (todo_weight c' L2 flight [(w, e)] ≤ limit)%nat).
  { etrans; [|exact Hw']. unfold todo_weight. rewrite out_runl_length. unfold frames. cbn. lia. }
  destruct (eval_at e c' L2 flight I2 HP Hu32) as (ev & L3 & c3 & -> & Hev3). rewrite bind_Ok.
  destruct ev as [|e'|].
  - destruct Hev3 as (I3 & Hn3 & Hf3 & Hw3). apply IH; [done|done| |lia].
    rewrite Hf3. unfold frames in *. cbn in *. rewrite <- Hsum in Hfuel. cbn in Hfuel. lia.
  - destruct Hev3 as [I3 Hw3]. eexists _, _, _. split; [done|]. split; [done|]. lia.
  - destruct Hev3 as (I3 & Hin3 & Hw3). eexists _, _, _. split; [done|]. split_and!; [done|by left|lia].
Qed.

Lemma advance_at locals c L flight limit :
  locals = <[w := L]> all →
  At c L flight [] → w ∉ (out c flight extra []).*1 → (todo_weight c L flight [] ≤ limit)%nat →
  ∃ next L' c', advance debug locals w c = Ok (next, <[w := L']> all, c') ∧ turned flight limit next c' L'.
Proof.
  intros -> I Hn Hlim. unfold advance. rewrite at_local. cbn [expect]. rewrite bind_Ok.
  destruct (descend_at (S (frames L)) c L flight limit I Hn) as (next & L' & c' & Hok & Ht); [lia|done|].
  unfold frames in Hok. rewrite Hok, bind_Ok. eexists _, _, _. by rewrite list_insert_insert_eq.
Qed.

(** *** A fetch ends *)

Lemma at_fetching c L e flight :
  At c L ((w, e) :: flight) [] →
  spine (subgraph c) w (path L) (stack L) (Some e) ∧ marks_ok (subgraph c) L ∧
  w ∉ (out c flight extra []).*1 ∧ (∀ y, (w, y) ∉ flight) ∧ NoDup (out c flight extra []).*1 ∧
  (∀ o, o ≠ w → child (out c flight extra []) o = child (out c ((w, e) :: flight) extra []) o) ∧
  flight_ok (subgraph c) w L e.
Proof.
  intros I. destruct (at_spine _ _ _ _ I) as [Hsp Hm]. pose proof (inv_out I) as Hnd.
  assert (Hch : child (out c ((w, e) :: flight) extra []) w = Some e) by (apply child_Some; [done|left]).
  rewrite Hch in Hsp. pose proof Hnd as Hnd'. apply NoDup_cons in Hnd' as [Hn Hnd'].
  split_and!; try done.
  - intros y Hy. apply Hn. apply list_elem_of_fmap. exists (w, y). split; [done|]. apply elem_of_app. by left.
  - intros o Ho. change (out c ((w, e) :: flight) extra []) with ((w, e) :: out c flight extra []).
    rewrite child_cons. by rewrite bool_decide_eq_false_2.
  - destruct (inv_flight I w e) as [|(L0 & HL0 & Hok)]; [left|by left|right].
    rewrite at_local in HL0. by simplify_eq.
Qed.

Lemma fetched_at e ev c L flight limit :
  At c L ((w, e) :: flight) [] → fetch e = Ok ev → (length (auth_events ev) ≤ K)%nat →
  (todo_weight c L ((w, e) :: flight) [] ≤ S limit)%nat →
  let L' := mkLocal (e :: path L) (reverse (auth_events ev) :: stack L) (marked L) in
  At c L' flight [] ∧ w ∉ (out c flight extra []).*1 ∧ (todo_weight c L' flight [] ≤ limit)%nat.
Proof.
  intros I Hf HK Hlim. destruct (at_fetching _ _ _ _ I) as (Hsp & [Hm Hmk] & Hn & Hnf & Hnd & Hoth & Hok).
  assert (Hfound : found fetch e = Some ev) by (unfold found; by rewrite Hf).
  split_and!; [|done|].
  - eapply step_at; [exact I|]. split; cbn [path stack marked]; try done; try by (intros; left).
    + apply evolves_refl.
    + intros x Hx. destruct (at_pending _ _ _ _ _ I Hx) as [|[[= ->]|]%elem_of_cons];
        [left; by right|left; left|by right].
    + apply (inv_outputs I).
    + rewrite (proj2 (child_None _ _)) by done. constructor; [done|by eexists| | | |done|].
      * destruct Hok as [|[[Hnil HeC]|[]]]; [by left| |by right; left].
        rewrite Hnil. destruct (inv_conflicted I e HeC); auto.
      * intros q Hq Hs. destruct Hok as [Hp|[[Hnil HeC]|(_ & q' & Hq' & ?)]]; [congruence|by rewrite Hnil in Hq|congruence].
      * intros y. unfold kids. rewrite Hfound. by rewrite elem_of_reverse.
      * intros y. unfold kids. rewrite Hfound. left. by rewrite elem_of_reverse.
    + split; cbn; [lia|]. by rewrite Nat.sub_succ_l by done.
    + intros x [|[[= ->]|Hx]%elem_of_cons]; [right; left; by right|right; left; left|by apply Hnf in Hx].
    + intros o x Ho. rewrite elem_of_cons. naive_solver.
    + intros x Hx. by apply Hnf in Hx.
    + apply (inv_wait I).
    + apply (inv_wakes I).
    + apply (inv_parked I).
  - unfold todo_weight, frames in *. unfold out in *. cbn in *. rewrite length_reverse. lia.
Qed.

Lemma failed_at e c L flight limit :
  At c L ((w, e) :: flight) [] → found fetch e = None →
  (todo_weight c L ((w, e) :: flight) [] ≤ S limit)%nat →
  ∃ c', complete_pending debug c e ResDead = Ok c' ∧ At c' L flight [] ∧
    w ∉ (out c' flight extra []).*1 ∧ (todo_weight c' L flight [] ≤ limit)%nat.
Proof.
  intros I Hf Hlim. destruct (at_fetching _ _ _ _ I) as (Hsp & Hm & Hn & Hnf & Hnd & Hoth & Hok).
  assert (Hset : ∀ sub, settled sub e).
  { intros sub y Hy. unfold kids in Hy. rewrite Hf in Hy. by apply elem_of_nil in Hy. }
  assert (Hfl : ∀ o y, o ≠ w → (o, y) ∈ flight ↔ (o, y) ∈ (w, e) :: flight).
  { intros o x Ho. rewrite elem_of_cons. naive_solver. }
  assert (Hown : ∀ y, y ≠ e → subgraph c !! y = Some (Pending w) → y ∈ path L ∨ (w, y) ∈ flight).
  { intros y Hne Hy. destruct (at_pending _ _ _ _ _ I Hy) as [|[[= ->]|]%elem_of_cons]; [by left|done|by right]. }
  unfold complete_pending. destruct (decide (subgraph c !! e = Some (Pending w))) as [He|He].
  - rewrite He. destruct (resolve_at e ResDead c L _ [] I) as (c1 & Hok1 & _ & Hsub & Hev & Hperm & Hat);
      [by left|done|]. exists c1. cbn [emit resolution_state] in *. split_and!; [done| |by rewrite Hperm|].
    + apply Hat; try done.
      * by rewrite Hperm.
      * intros o Ho. rewrite <- Hoth by done. apply child_perm; [apply Hperm|by rewrite Hperm].
      * rewrite (proj2 (child_None _ _)) by by rewrite Hperm. by apply spine_kill.
      * intros y [|[[= ->]|Hy]%elem_of_cons]; [by right; left|by left|by apply Hnf in Hy].
    + pose proof (open_evolves _ _ Hev). unfold todo_weight in *. rewrite Hperm. unfold out in *. cbn in *. nia.
  - assert (Hst : subgraph c !! e = Some Subgraph ∨ subgraph c !! e = Some Conflicted).
    { destruct Hok as [|[[_ HeC]|[]]]; [done|destruct (inv_conflicted I e HeC); auto|by left]. }
    replace (match subgraph c !! e with Some (Pending _) => _ | _ => Ok c end) with (Ok c : Res Context)
      by by destruct Hst as [-> | ->].
    exists c. split_and!; [done| |done|unfold todo_weight, out in *; cbn in *; lia].
    eapply step_at; [exact I|]. split; try done; try by (intros; left).
    + apply evolves_refl.
    + intros y Hy. apply Hown; [|done]. congruence.
    + apply (inv_outputs I).
    + rewrite (proj2 (child_None _ _)) by done. eapply spine_done; [|exact Hsp].
      destruct Hok as [|[[]|(? & q & Hq & ?)]]; [done|by right; right|right; left]. split; [done|]. intros q'. congruence.
    + intros y [|[[= ->]|Hy]%elem_of_cons]; [by right; left|by left|by apply Hnf in Hy].
    + intros y Hy. by apply Hnf in Hy.
    + apply (inv_wait I).
    + apply (inv_wakes I).
    + apply (inv_parked I).
Qed.

End Walker.

(** ** The queues *)

Lemma inv_requeue c c' locals flight flight' extra extra' runl runl' run run' unstarted emitted :
  Inv c locals flight extra runl run unstarted emitted →
  subgraph c' = subgraph c → waiters c' = waiters c → parked c' = parked c → outputs c' = outputs c →
  flight' ≡ₚ flight → out c' flight' extra' runl' ≡ₚ out c flight extra runl →
  (∀ wake, wake ∈ extra' ++ ready c' →
     subgraph c !! wake_event_id wake = Some (resolution_state (wake_result wake)) ∧ wake_locals wake ≠ []) →
  (∀ w, run' = Some w → (w < length locals)%nat) →
  (∀ w L, locals !! w = Some L → run = Some w → w ∉ (out c flight extra runl).*1 → run' ≠ Some w → path L = []) →
  Inv c' locals flight' extra' runl' run' unstarted emitted.
Proof.
  intros I Hsub Hwt Hpk Hou Hfl Hperm Hwk Hrun Hidle.
  assert (Hnd : NoDup (out c' flight' extra' runl').*1) by (rewrite Hperm; apply (inv_out I)).
  split; rewrite ?Hsub, ?Hwt, ?Hou, ?Hpk; try apply I; try done.
  - intros w [Hw|Hw]; [apply (inv_locals I); left; by rewrite <- Hperm|by apply Hrun].
  - intros w L HL. rewrite (child_perm _ _ w Hperm Hnd). by apply (inv_spine I).
  - intros w L HL. rewrite Hperm. intros Hn Hr. destruct (decide (run = Some w)) as [|Hne]; [by eapply Hidle|].
    by apply (inv_idle I w).
  - intros x w. rewrite Hfl. apply (inv_pending I).
  - intros x. rewrite Hfl. apply (inv_cover I).
  - intros w x. rewrite Hfl. apply (inv_flight I).
Qed.

Definition total (c : Context) (locals : list Local) (flight : list (nat * string)) (extra : list Wake)
    (runl : list (nat * string)) (unstarted : list string) : nat :=
  sum_list (frames <$> locals) + (K + 2) * (open (subgraph c) + length unstarted) +
  (K + 1) * length flight + length (out c flight extra runl).

(** What the walkers other than [w] have left to do. *)
Definition others (w : nat) (locals : list Local) (unstarted : list string) : nat :=
  sum_list (frames <$> take w locals) + sum_list (frames <$> drop (S w) locals) +
  (K + 2) * length unstarted.

Lemma total_at w c L locals flight extra runl unstarted :
  (w < length locals)%nat →
  total c (<[w := L]> locals) flight extra runl unstarted =
  (todo_weight extra c L flight runl + others w locals unstarted)%nat.
Proof.
  intros Hw. unfold total, todo_weight, others. rewrite insert_take_drop by done.
  rewrite fmap_app, sum_list_with_app. cbn. lia.
Qed.

Definition started (w : nat) (next : option string) : list (nat * string) :=
  match next with Some e => [(w, e)] | None => [] end.

Lemma turned_inv w locals extra unstarted emitted flight limit next c L :
  (w < length locals)%nat →
  turned w locals extra unstarted emitted flight limit next c L →
  Inv c (<[w := L]> locals) (started w next ++ flight) extra [] None unstarted emitted ∧
  (total c (<[w := L]> locals) (started w next ++ flight) extra [] unstarted ≤
   limit + others w locals unstarted)%nat.
Proof.
  intros Hw Ht. rewrite total_at by done.
  assert (Hfree : ∀ fl, Inv c (<[w := L]> locals) fl extra [] (Some w) unstarted emitted →
    w ∈ (out c fl extra []).*1 ∨ path L = [] → Inv c (<[w := L]> locals) fl extra [] None unstarted emitted).
  { intros fl I Hend. eapply inv_requeue; [exact I|done..|apply (inv_wakes I)|done|].
    intros o Lo HLo [= ->] Hn _. rewrite list_lookup_insert_eq in HLo by done. simplify_eq. by destruct Hend. }
  destruct next as [e|]; cbn in *.
  - destruct Ht as [I Hle]. split; [|lia]. apply Hfree; [done|]. left. left.
  - destruct Ht as (I & Hend & Hle). split; [by apply Hfree|lia].
Qed.

Context (Hstore : store_ok fetch) (HK : ∀ x ev, x ∈ U → fetch x = Ok ev → (length (auth_events ev) ≤ K)%nat).

Lemma enter w c locals flight extra runl unstarted emitted :
  Inv c locals flight extra runl None unstarted emitted → w ∈ (out c flight extra runl).*1 →
  ∃ L, locals !! w = Some L ∧ (w < length locals)%nat ∧ <[w := L]> locals = locals.
Proof.
  intros I Hw. assert (Hlt : (w < length locals)%nat) by (apply (inv_locals I); by left).
  destruct (lookup_lt_is_Some_2 _ _ Hlt) as [L HL]. exists L. split_and!; [done|done|by apply list_insert_id].
Qed.

(** A walker with nothing outstanding has a turn. *)
Lemma advance_inv w locals extra unstarted emitted c L flight limit :
  (w < length locals)%nat → Z.of_nat (length locals) ≤ u32_max + 1 →
  Inv c (<[w := L]> locals) flight extra [] (Some w) unstarted emitted →
  w ∉ (out c flight extra []).*1 →
  (todo_weight extra c L flight [] + others w locals unstarted ≤ limit)%nat →
  ∃ next locals' c', advance debug (<[w := L]> locals) w c = Ok (next, locals', c') ∧
    Inv c' locals' (started w next ++ flight) extra [] None unstarted emitted ∧
    (total c' locals' (started w next ++ flight) extra [] unstarted ≤ limit)%nat ∧
    length locals' = length locals.
Proof.
  intros Hlt Hlen I Hn Hlim.
  destruct (advance_at w locals extra unstarted emitted Hlt ltac:(lia) (<[w := L]> locals) c L flight
              (todo_weight extra c L flight []) eq_refl I Hn ltac:(done)) as (next & L' & c' & Hok & Ht).
  apply turned_inv in Ht as [I' Hw']; [|done].
  eexists _, _, _. split; [exact Hok|]. split_and!; [done|lia|apply length_insert].
Qed.

(** A fetch ends, and its walker has a turn. *)
Lemma process_fetch_spec w e c locals flight unstarted emitted limit :
  Inv c locals ((w, e) :: flight) [] [] None unstarted emitted → Z.of_nat (length locals) ≤ u32_max + 1 →
  (total c locals ((w, e) :: flight) [] [] unstarted ≤ S limit)%nat →
  ∃ next locals' c', process_fetch debug locals w e (fetch e) c = Ok (next, locals', c') ∧
    Inv c' locals' (started w next ++ flight) [] [] None unstarted emitted ∧
    (total c' locals' (started w next ++ flight) [] [] unstarted ≤ limit)%nat ∧
    length locals' = length locals.
Proof.
  intros I Hlen Hlim. destruct (enter w _ _ _ _ _ _ _ I) as (L & HL & Hlt & Hid); [left|].
  assert (I' : Inv c (<[w := L]> locals) ((w, e) :: flight) [] [] (Some w) unstarted emitted).
  { rewrite Hid. eapply inv_requeue; [exact I|done..|apply (inv_wakes I)|congruence|done]. }
  rewrite <- Hid, total_at in Hlim by done.
  set (rest := others w locals unstarted) in *.
  assert (HeU : e ∈ U).
  { destruct (at_fetching _ _ _ _ _ Hlt _ _ _ _ I') as (Hsp & _). by eapply HU, spine_from. }
  unfold process_fetch. destruct (Hstore e) as [(ev & Hf & _)|(er & Hf & _)]; rewrite Hf.
  - destruct (fetched_at w locals [] unstarted emitted Hlt e ev c L flight
                (pred (todo_weight [] c L ((w, e) :: flight) [])) I' Hf (HK e ev HeU Hf)) as (I1 & Hn1 & Hw1).
    { lia. }
    rewrite HL. cbn [expect]. rewrite bind_Ok. apply advance_inv; [done..|].
    unfold todo_weight in Hw1 at 2, Hlim. cbn in *. lia.
  - assert (Hnone : found fetch e = None) by (unfold found; by rewrite Hf).
    destruct (failed_at w locals [] unstarted emitted Hlt e c L flight
                (pred (todo_weight [] c L ((w, e) :: flight) [])) I' Hnone) as (c1 & Hok & I1 & Hn1 & Hw1).
    { lia. }
    rewrite Hok, bind_Ok.
    pose proof (advance_inv w locals [] unstarted emitted c1 L flight limit Hlt Hlen I1 Hn1) as Hadv.
    rewrite Hid in Hadv. apply Hadv. unfold todo_weight in Hw1 at 2, Hlim. cbn in *. lia.
Qed.

(** The walkers of a wake that have not been resumed. *)
Definition asleep (e : string) (ids : list nat) (r : Resolution) : list Wake :=
  match ids with [] => [] | _ => [mkWake e ids r] end.

(** A walker is resumed, and has a turn. *)
Lemma resume_spec w e r rest c locals flight unstarted emitted limit :
  Inv c locals flight [mkWake e (w :: rest) r] [] None unstarted emitted →
  Z.of_nat (length locals) ≤ u32_max + 1 →
  (total c locals flight [mkWake e (w :: rest) r] [] unstarted ≤ S limit)%nat →
  ∃ next locals' c', resume debug locals w e r c = Ok (next, locals', c') ∧
    Inv c' locals' (started w next ++ flight) (asleep e rest r) [] None unstarted emitted ∧
    (total c' locals' (started w next ++ flight) (asleep e rest r) [] unstarted ≤ limit)%nat ∧
    length locals' = length locals.
Proof.
  intros I Hlen Hlim.
  assert (Hperm : out c flight (asleep e rest r) [(w, e)] ≡ₚ out c flight [mkWake e (w :: rest) r] []).
  { rewrite out_runl. unfold out. rewrite !app_nil_r. cbn. unfold woken_of at 2. cbn.
    rewrite <- (Permutation_middle (waiting _)), <- (Permutation_middle flight). by destruct rest. }
  destruct (enter w _ _ _ _ _ _ _ I) as (L & HL & Hlt & Hid); [rewrite <- Hperm, out_runl; left|].
  destruct (inv_wakes I (mkWake e (w :: rest) r)) as [He _]; [left|]. cbn in He.
  assert (I' : Inv c (<[w := L]> locals) flight (asleep e rest r) [(w, e)] (Some w) unstarted emitted).
  { rewrite Hid. eapply inv_requeue; [exact I|done..| |congruence|done]. intros wake Hin.
    apply elem_of_app in Hin as [Hin|Hin]; [|apply (inv_wakes I); set_solver].
    destruct rest; [by apply elem_of_nil in Hin|]. apply list_elem_of_singleton in Hin as ->. done. }
  assert (Hlim' : (todo_weight (asleep e rest r) c L flight [] + others w locals unstarted ≤ limit)%nat).
  { rewrite <- Hid, total_at in Hlim by done. unfold todo_weight in *. rewrite <- Hperm, out_runl_length in Hlim. lia. }
  pose proof (inv_out I') as Hnd. rewrite out_runl in Hnd. apply NoDup_cons in Hnd as [Hn Hnd].
  unfold resume. destruct r; cbn [resolution_state] in He.
  - pose proof (drop_at w locals _ _ _ Hlt e c L flight I' (or_introl He)) as I1.
    pose proof (advance_inv w locals _ unstarted emitted c L flight limit Hlt Hlen I1 Hn Hlim') as Hadv.
    by rewrite Hid in Hadv.
  - destruct (insert_path_at w locals _ _ _ Hlt e c L flight I') as (c1 & Hok & I1 & He1 & Hall & Hev & Hp1); [by left|].
    rewrite HL. cbn [expect]. rewrite bind_Ok, Hok, bind_Ok.
    rewrite !out_runl in Hp1. apply Permutation_cons_inv in Hp1.
    apply advance_inv; [done|done| |by rewrite Hp1|].
    + eapply drop_at; [done|exact I1|]. right. split; [done|]. cbn. intros q Hq. apply Hall.
      destruct (path L); [done|]. injection Hq as ->. left.
    + pose proof (open_evolves w _ _ Hev). unfold todo_weight, frames in *. cbn. rewrite Hp1. nia.
Qed.

(** ** All walkers *)

Definition flying (g : Global) : list (nat * string) := todo g ++ deferred g.

(** The state between the turns of walkers, with at most [limit] left to do. *)
Record Good (n width : nat) (g : Global) (extra : list Wake) (unstarted emitted : list string)
    (limit : nat) : Prop := {
  good_inv : Inv (context g) (locals g) (flying g) extra [] None unstarted emitted;
  good_total : (total (context g) (locals g) (flying g) extra [] unstarted ≤ limit)%nat;
  good_locals : length (locals g) = n;
  good_width : (length (todo g) ≤ width)%nat
}.

Lemma good_perm n width g flight extra unstarted emitted limit :
  Inv (context g) (locals g) flight extra [] None unstarted emitted →
  (total (context g) (locals g) flight extra [] unstarted ≤ limit)%nat →
  flying g ≡ₚ flight → length (locals g) = n → (length (todo g) ≤ width)%nat →
  Good n width g extra unstarted emitted limit.
Proof.
  intros I Ht Hp Hn Hwd. assert (Ho : out (context g) (flying g) extra [] ≡ₚ out (context g) flight extra []).
  { unfold out. by rewrite Hp. }
  split; [|unfold total in *; by rewrite Ho, Hp|done|done].
  eapply inv_requeue; [exact I|done..|apply (inv_wakes I)|done|done].
Qed.

Lemma schedule_good n W width c locals todo deferred w next extra unstarted emitted limit :
  Inv c locals (started w next ++ todo ++ deferred) extra [] None unstarted emitted →
  (total c locals (started w next ++ todo ++ deferred) extra [] unstarted ≤ limit)%nat →
  length locals = n → (length todo ≤ W)%nat → (width ≤ W)%nat →
  Good n W (schedule width (mkGlobal c locals todo deferred) w next) extra unstarted emitted limit.
Proof.
  intros I Hlim Hn Hwd HW. unfold schedule. destruct next as [e|]; [|done]. cbn.
  case_bool_decide as Hroom; (eapply good_perm; [exact I|exact Hlim| |exact Hn|]); unfold flying; cbn.
  - solve_Permutation.
  - rewrite length_app. cbn. lia.
  - solve_Permutation.
  - done.
Qed.

Lemma resume_all_good n W width e r ids g unstarted emitted limit :
  Z.of_nat n ≤ u32_max + 1 → (width ≤ W)%nat →
  Good n W g (asleep e ids r) unstarted emitted (length ids + limit) →
  ∃ g', resume_all debug width ids e r g = Ok g' ∧ Good n W g' [] unstarted emitted limit.
Proof.
  intros Hn HW. revert g. induction ids as [|w ids IH]; intros g [I Ht Hl Hwd]; cbn [resume_all]; [by exists g|].
  destruct (resume_spec w e r ids (context g) (locals g) (flying g) unstarted emitted (length ids + limit))
    as (next & locals' & c' & -> & I' & Ht' & Hl'); [done|lia|done|].
  rewrite bind_Ok. apply IH. apply schedule_good; [done|done|congruence|done|done].
Qed.

Lemma drain_ready_good n W width fuel g unstarted emitted limit :
  Z.of_nat n ≤ u32_max + 1 → (width ≤ W)%nat → (limit ≤ fuel)%nat →
  Good n W g [] unstarted emitted limit →
  ∃ g', drain_ready debug fuel width g = Ok g' ∧ Good n W g' [] unstarted emitted limit ∧
    ready (context g') = [].
Proof.
  intros Hn HW. revert g limit. induction fuel as [|fuel IH]; intros g limit Hf G; cbn [drain_ready];
    destruct (ready (context g)) as [|[e ids r] rest] eqn:Hrd; try by exists g.
  - destruct G as [I Ht _ _]. destruct (inv_wakes I (mkWake e ids r)) as [_ Hne]; [rewrite Hrd; left|].
    unfold total, out in Ht. rewrite Hrd, !length_app in Ht. cbn in Hne, Ht. rewrite length_app in Ht.
    unfold woken_of in Ht at 1. rewrite length_fmap in Ht. destruct ids; [done|]. cbn in Ht. lia.
  - destruct G as [I Ht Hl Hwd]. destruct (inv_wakes I (mkWake e ids r)) as [_ Hne]; [rewrite Hrd; left|].
    cbn in Hne. set (c' := mkContext _ _ rest _ _).
    assert (Hasleep : asleep e ids r = [mkWake e ids r]) by by destruct ids.
    assert (Hout : out c' (flying g) (asleep e ids r) [] = out (context g) (flying g) [] []).
    { rewrite Hasleep. unfold out. cbn. by rewrite Hrd. }
    assert (Hlim : (S (length ids - 1) = length ids)%nat) by (destruct ids; [done|cbn; lia]).
    assert (Hids : (length ids ≤ limit)%nat).
    { rewrite <- Ht. unfold total, out. rewrite Hrd, !length_app. cbn. rewrite length_app.
      unfold woken_of at 1. rewrite length_fmap. cbn. lia. }
    destruct (resume_all_good n W width e r ids (mkGlobal c' (locals g) (todo g) (deferred g)) unstarted emitted
                (limit - length ids) Hn HW) as (g1 & -> & G1).
    { split; cbn [context locals todo]; [| |done|done].
      2: { change (flying (mkGlobal _ _ _ _)) with (flying g). unfold total in *. rewrite Hout. cbn. lia. }
      eapply inv_requeue; [exact I|done..| | |done|done]; [by rewrite <- Hout|].
      rewrite Hasleep. cbn. rewrite <- Hrd. apply (inv_wakes I). }
    rewrite bind_Ok. destruct (IH g1 (limit - length ids)%nat ltac:(lia) G1) as (g2 & Hok & [I2 Ht2 ? ?] & Hr2).
    exists g2. split_and!; [done| |done]. split; [done|lia|done|done].
Qed.

(** A walker starts at its seed. *)
Lemma seed_inv c locals flight seed unstarted emitted :
  Inv c locals flight [] [] None (seed :: unstarted) emitted →
  let flight' := flight ++ [(length locals, seed)] in
  Inv c (locals ++ [Local_default]) flight' [] [] None unstarted emitted ∧
  total c (locals ++ [Local_default]) flight' [] [] unstarted = total c locals flight [] [] (seed :: unstarted).
Proof.
  intros I. cbn. set (w := length locals).
  assert (Hperm : out c (flight ++ [(w, seed)]) [] [] ≡ₚ (w, seed) :: out c flight [] []).
  { unfold out. rewrite <- (assoc (++)). cbn. symmetry. apply Permutation_middle. }
  assert (Hn : w ∉ (out c flight [] []).*1).
  { intros Hw. apply or_introl with (B := None = Some w) in Hw. apply (inv_locals I) in Hw. unfold w in Hw. lia. }
  assert (Hnd : NoDup (out c (flight ++ [(w, seed)]) [] []).*1).
  { rewrite Hperm. apply NoDup_cons. split; [done|apply (inv_out I)]. }
  assert (HseedC : seed ∈ C) by (apply (inv_unstarted I); left).
  assert (Hlook : ∀ o Lo, (locals ++ [Local_default]) !! o = Some Lo →
            locals !! o = Some Lo ∧ o ≠ w ∨ o = w ∧ Lo = Local_default).
  { intros o Lo [Hl|[Hge Hl]]%lookup_app_Some; [left; split; [done|]|].
    - apply lookup_lt_Some in Hl. unfold w. lia.
    - apply list_lookup_singleton_Some in Hl as [? <-]. right. split; [unfold w; lia|done]. }
  split.
  - split; try apply I; try done.
    + intros o [Ho|]; [|done]. rewrite length_app. cbn. rewrite Hperm in Ho. apply elem_of_cons in Ho as [->|Ho].
      * cbn. unfold w. lia.
      * apply or_introl with (B := None = Some o), (inv_locals I) in Ho. lia.
    + intros o Lo HL. rewrite (child_perm _ _ o Hperm Hnd), child_cons.
      destruct (Hlook o Lo HL) as [[HL' Hne]|[-> ->]].
      * rewrite bool_decide_eq_false_2 by done. by apply (inv_spine I).
      * rewrite bool_decide_eq_true_2 by done. split; [constructor; by intros ? [= <-]|]. by split; cbn.
    + intros o Lo HL Hno _. destruct (Hlook o Lo HL) as [[HL' Hne]|[-> ->]]; [|done].
      apply (inv_idle I o Lo HL'); [|done]. intros Hin. apply Hno. rewrite Hperm. by right.
    + intros x o Hx. destruct (inv_pending I x o Hx) as [(Lo & HLo & Hin)|]; [left|right; apply elem_of_app; by left].
      exists Lo. split; [by apply lookup_app_l_Some|done].
    + intros x Hx. rewrite fmap_app. destruct (inv_cover I x Hx) as [|[(o & Lo & HLo & Hin)|[|[->|]%elem_of_cons]]].
      * by left.
      * right; left. exists o, Lo. split; [by apply lookup_app_l_Some|done].
      * right; right; left. apply elem_of_app. by left.
      * right; right; left. apply elem_of_app. right. left.
      * by right; right; right.
    + intros o x [Hin|Hin]%elem_of_app.
      * destruct (inv_flight I o x Hin) as [|(Lo & HLo & Hok)]; [by left|right]. exists Lo.
        split; [by apply lookup_app_l_Some|done].
      * apply list_elem_of_singleton in Hin as [= -> ->]. right. exists Local_default.
        split; [unfold w; rewrite lookup_app_r, Nat.sub_diag by lia; done|by left].
    + intros x Hx. apply (inv_unstarted I). by right.
  - unfold total. rewrite Hperm, fmap_app, sum_list_with_app, length_app. cbn. lia.
Qed.

Lemma refill_good n width room inputs g emitted limit :
  Good n width g [] inputs emitted limit → (length (todo g) + room ≤ width)%nat →
  ∃ inputs' g' k, refill room inputs g = (inputs', g') ∧
    Good (length (locals g')) width g' [] inputs' emitted limit ∧
    (length (locals g') + length inputs' = n + length inputs)%nat ∧ context g' = context g ∧
    todo g' = todo g ++ k ∧ (room = 0%nat ∨ k ≠ [] ∨ inputs' = [] ∧ deferred g' = []).
Proof.
  revert n inputs g. induction room as [|room IH]; intros n inputs g G Hroom; cbn [refill];
    pose proof G as [I Ht Hl Hwd].
  { exists inputs, g, []. rewrite Hl, app_nil_r. by split_and!; auto. }
  destruct (deferred g) as [|next deferred'] eqn:Hd; [destruct inputs as [|seed inputs]|].
  - exists [], g, []. rewrite Hl, app_nil_r. by split_and!; auto.
  - destruct (seed_inv _ _ _ _ _ _ I) as [I' Ht']. rewrite <- Ht' in Ht.
    destruct (IH (S n) inputs (mkGlobal (context g) (locals g ++ [Local_default])
                (todo g ++ [(length (locals g), seed)]) [])) as (inputs' & g' & k & -> & G' & Hn & Hc & Hk & _).
    + eapply good_perm; [exact I'|exact Ht| |cbn; rewrite length_app; cbn; lia|cbn; rewrite length_app; cbn; lia].
      unfold flying. cbn. by rewrite Hd, !app_nil_r.
    + cbn. rewrite length_app. cbn. lia.
    + cbn in Hk. rewrite <- (assoc (++)) in Hk. exists inputs', g', ((length (locals g), seed) :: k).
      split_and!; [done|done|cbn in *; lia|done|done|by right; left].
  - destruct (IH n inputs (mkGlobal (context g) (locals g) (todo g ++ [next]) deferred'))
      as (inputs' & g' & k & -> & G' & Hn & Hc & Hk & _).
    + eapply good_perm; [exact I|exact Ht| |done|cbn; rewrite length_app; cbn; lia].
      unfold flying. cbn. rewrite Hd. by rewrite <- (assoc (++)).
    + cbn. rewrite length_app. cbn. lia.
    + cbn in Hk. rewrite <- (assoc (++)) in Hk. exists inputs', g', (next :: k).
      split_and!; [done|done|done|done|done|by right; left].
Qed.

Lemma refill_deferred_spec room g :
  let g' := refill_deferred room g in
  context g' = context g ∧ locals g' = locals g ∧ flying g' = flying g ∧
  (length (todo g') ≤ length (todo g) + room)%nat.
Proof.
  revert g. induction room as [|room IH]; intros g; cbn; [auto with lia|].
  destruct (deferred g) as [|next deferred'] eqn:Hd; [auto with lia|].
  destruct (IH (mkGlobal (context g) (locals g) (todo g ++ [next]) deferred')) as (-> & -> & Hf & Ht).
  cbn in Ht. rewrite length_app in Ht. cbn in Ht. split_and!; [done|done| |lia].
  unfold flying in *. rewrite Hf. cbn. rewrite Hd. by rewrite <- (assoc (++)).
Qed.

(** At the end no walker waits, and every node is done with. *)
Lemma end_spec c locals emitted :
  Inv c locals [] [] [] None [] emitted → ready c = [] → outputs c = [] →
  waiters c = ∅ ∧ parked c = 0 ∧ NoDup emitted ∧ ∀ x, x ∈ emitted ↔ in_subgraph x.
Proof.
  intros I Hrd Hou.
  assert (Hout : out c [] [] [] = waiting (waiters c)) by (unfold out; by rewrite Hrd, !app_nil_r).
  assert (Hnone : ∀ e l, waiters c !! e ≠ Some l).
  { assert (Hall : ∀ n e l, (rank e < n)%nat → waiters c !! e ≠ Some l).
    { induction n as [|n IH]; intros e l Hlt Hl; [lia|].
      destruct (inv_wait I e l Hl) as (_ & o & Ho & _).
      destruct (inv_pending I e o Ho) as [(L & HL & Hin)|?%elem_of_nil]; [|done].
      destruct (inv_spine I o L HL) as [Hsp _].
      destruct (child (out c [] [] []) o) as [e'|] eqn:Hch.
      - pose proof (tc_rank _ _ (spine_to _ _ _ _ _ _ Hsp Hin)).
        apply child_Some in Hch; [|apply (inv_out I)]. rewrite Hout, elem_of_waiting in Hch.
        destruct Hch as (l' & Hl' & _). apply (IH e' l'); [lia|done].
      - apply child_None in Hch. rewrite (inv_idle I o L HL Hch) in Hin by done. by apply elem_of_nil in Hin. }
    intros e l. apply (Hall (S (rank e))). lia. }
  assert (Hw : waiters c = ∅).
  { apply map_eq. intros e. rewrite lookup_empty. destruct (waiters c !! e) eqn:He; [by apply Hnone in He|done]. }
  destruct (inv_outputs I) as [Hnd Hmem]. rewrite Hou, app_nil_r in Hnd, Hmem.
  assert (Hset : ∀ x, is_Some (subgraph c !! x) → settled (subgraph c) x).
  { intros x Hx. destruct (inv_cover I x Hx) as [|[(o & L & HL & Hin)|[?%elem_of_nil|?%elem_of_nil]]]; [done| |done|done].
    rewrite (inv_idle I o L HL) in Hin; [by apply elem_of_nil in Hin| |done]. rewrite Hout, Hw. apply not_elem_of_nil. }
  assert (HC : ∀ x, x ∈ C → is_Some (subgraph c !! x) ∧ subgraph c !! x ≠ Some Dead).
  { intros x Hx. by destruct (inv_conflicted I x Hx) as [-> | ->]. }
  assert (Hdown : ∀ x y, edge fetch x y → is_Some (subgraph c !! x) →
            subgraph c !! y = Some Dead ∨ subgraph c !! y = Some Subgraph ∧ subgraph c !! x = Some Subgraph).
  { intros x y Hxy Hx. by apply (Hset x Hx). }
  assert (Hreached : ∀ x, reached fetch C x → subgraph c !! x = Some Dead ∨ subgraph c !! x = Some Subgraph).
  { intros x (a & Ha & Hax). assert (Hs : is_Some (subgraph c !! a)) by by apply HC. clear Ha.
    induction Hax as [a x Hax|a b x Hab _ IH].
    - destruct (Hdown a x Hax Hs) as [|[]]; auto.
    - apply IH. destruct (Hdown a b Hab Hs) as [-> |[-> _]]; eauto. }
  assert (Hreaches : ∀ x a, tc (edge fetch) x a → a ∈ C → is_Some (subgraph c !! x) → subgraph c !! x = Some Subgraph).
  { intros x a Hxa Ha. induction Hxa as [x a Hxa|x y a Hxy _ IH]; intros Hs.
    - destruct (Hdown x a Hxa Hs) as [Hd|[]]; [|done]. by apply HC in Ha as [].
    - destruct (Hdown x y Hxy Hs) as [Hd|[]]; [|done]. rewrite IH in Hd; [done|done|by rewrite Hd]. }
  split_and!; [done|by rewrite (inv_parked I), Hw|done|].
  intros x. rewrite Hmem. split; [apply (inv_sound I)|]. intros (H1 & H2 & H3).
  assert (Hx : is_Some (subgraph c !! x)).
  { destruct H1 as [|Hr]; [by apply HC|]. destruct (Hreached x Hr) as [-> | ->]; eauto. }
  destruct H2 as [HxC|(a & Ha & Hxa)]; [|by eapply Hreaches].
  destruct H3 as [Hr|(a & Ha & Hxa)]; [|by eapply Hreaches].
  destruct (Hreached x Hr); [|done]. by apply HC in HxC as [].
Qed.

Context `{HashOrder} (width : nat → nat) (Hwidth : ∀ i, (1 ≤ width i)%nat).
Context (Hsteady : debug = true → ∀ i j, width i = width j).

Lemma debug_assert_debug b : (debug = true → b = true) → debug_assert (E := Error) debug b = Ok ().
Proof. unfold debug_assert. destruct debug; [|done]. intros ->; done. Qed.

Lemma take_outputs_inv c locals flight unstarted emitted :
  Inv c locals flight [] [] None unstarted emitted →
  Inv (mkContext (subgraph c) (waiters c) (ready c) (parked c) []) locals flight [] [] None unstarted
    (emitted ++ outputs c).
Proof. intros I. split; cbn; try apply I. rewrite app_nil_r. apply (inv_outputs I). Qed.

Lemma run_eq fuel inputs g :
  run debug fuel width fetch inputs g =
  _ ← debug_assert debug (bool_decide (length (todo g) ≤ width fuel)%nat);
  let '(inputs, state) := refill (width fuel - length (todo g)) inputs g in
  match hash_order ["subgraph"; pretty fuel]%string (todo state) with
  | [] =>
      _ ← debug_assert debug (bool_decide (waiters (context state) = ∅));
      _ ← debug_assert debug (match ready (context state) with [] => true | _ => false end);
      _ ← debug_assert debug (match deferred state with [] => true | _ => false end);
      _ ← debug_assert debug (parked (context state) =? 0);
      Ok []
  | (id, event_id) :: rest =>
      match fuel with
      | O => Panic
      | S fuel' =>
          let state := mkGlobal (context state) (locals state) rest (deferred state) in
          let state := refill_deferred (width fuel - length (todo state)) state in
          processed ← process_fetch debug (locals state) id event_id (fetch event_id) (context state);
          let '(next_id, locals, context) := processed in
          state ← drain_ready debug fuel' (width fuel)
                    (schedule (width fuel) (mkGlobal context locals (todo state) (deferred state))
                       id next_id);
          let '(outputs, state) := take_outputs state in
          rest ← run debug fuel' width fetch inputs state;
          Ok (outputs ++ rest)
      end
  end.
Proof. by destruct fuel. Qed.

(** One fetch: the turn of its walker, and of those woken. *)
Lemma turn_spec fuel W width_now w e g inputs emitted :
  Inv (context g) (locals g) ((w, e) :: flying g) [] [] None inputs emitted →
  (total (context g) (locals g) ((w, e) :: flying g) [] [] inputs ≤ S fuel)%nat →
  Z.of_nat (length (locals g)) ≤ u32_max + 1 → (length (todo g) ≤ W)%nat → (width_now ≤ W)%nat →
  ∃ next locals' c' g', process_fetch debug (locals g) w e (fetch e) (context g) = Ok (next, locals', c') ∧
    drain_ready debug fuel width_now
      (schedule width_now (mkGlobal c' locals' (todo g) (deferred g)) w next) = Ok g' ∧
    Good (length (locals g)) W g' [] inputs emitted fuel ∧ ready (context g') = [].
Proof.
  intros I Ht Hlen Hwd HW.
  destruct (process_fetch_spec w e _ _ _ _ _ fuel I Hlen Ht) as (next & locals' & c' & Hok & I1 & Ht1 & Hl1).
  destruct (drain_ready_good (length (locals g)) W width_now fuel
              (schedule width_now (mkGlobal c' locals' (todo g) (deferred g)) w next) inputs emitted fuel)
    as (g' & Hok' & G' & Hr'); [done|done|done| |by exists next, locals', c', g'].
  by apply schedule_good.
Qed.

Lemma run_spec fuel inputs g emitted :
  Inv (context g) (locals g) (flying g) [] [] None inputs emitted →
  (total (context g) (locals g) (flying g) [] [] inputs ≤ fuel)%nat →
  Z.of_nat (length (locals g) + length inputs) ≤ u32_max + 1 →
  (debug = true → (length (todo g) ≤ width fuel)%nat) →
  ready (context g) = [] → outputs (context g) = [] →
  ∃ l, run debug fuel width fetch inputs g = Ok l ∧
    NoDup (emitted ++ l) ∧ ∀ x, x ∈ emitted ++ l ↔ in_subgraph x.
Proof.
  revert inputs g emitted. induction fuel as [fuel IH] using lt_wf_ind.
  intros inputs g emitted I Ht Hlen Hdebug Hrd Hou. rewrite run_eq.
  set (W := Nat.max (length (todo g)) (width fuel)).
  rewrite debug_assert_debug by (intros Hd; apply bool_decide_eq_true_2; auto). rewrite bind_Ok.
  destruct (refill_good (length (locals g)) W (width fuel - length (todo g)) inputs g emitted fuel)
    as (inputs' & g1 & k & -> & [I1 Ht1 _ Hw1] & Hn1 & Hc1 & Hk1 & Hend); [by split; [| |done|lia]|lia|].
  pose proof (hash_order_perm ["subgraph"; pretty fuel]%string _ (todo g1)) as Hperm.
  destruct (hash_order _ (todo g1)) as [|[w e] rest].
  - apply Permutation_nil in Hperm. rewrite Hperm in Hk1. symmetry in Hk1. apply app_nil in Hk1 as [Htd ->].
    rewrite Htd in Hend. cbn in Hend. specialize (Hwidth fuel).
    destruct Hend as [|[|[-> Hdef]]]; [lia|done|].
    unfold flying in I1. rewrite Hperm, Hdef in I1. rewrite <- Hc1 in Hrd, Hou.
    destruct (end_spec _ _ _ I1 Hrd Hou) as (Hwt & Hpk & Hnd & Hmem).
    rewrite Hrd, Hdef, Hpk, !debug_assert_debug by (intros; done || by apply bool_decide_eq_true_2).
    rewrite !bind_Ok. exists []. by rewrite app_nil_r.
  - assert (Hfl : (w, e) :: rest ++ deferred g1 ≡ₚ flying g1) by (unfold flying; by rewrite <- Hperm).
    destruct fuel as [|fuel].
    { exfalso. apply Permutation_length in Hfl. unfold total in Ht1. cbn in Hfl. nia. }
    cbn [todo]. set (g2 := mkGlobal (context g1) (locals g1) rest (deferred g1)).
    destruct (refill_deferred_spec (width (S fuel) - length rest) g2) as (Hc3 & Hl3 & Hf3 & Ht3).
    set (g3 := refill_deferred _ g2) in *.
    destruct (good_perm _ (S (length rest)) (mkGlobal (context g1) (locals g1) ((w, e) :: rest) (deferred g1)) (flying g1)
                [] inputs' emitted (S fuel) I1 Ht1 Hfl eq_refl (le_n _)) as [I2 Ht2 _ _].
    cbn [context locals] in I2, Ht2. change (flying _) with ((w, e) :: flying g2) in I2, Ht2.
    rewrite <- Hf3 in I2, Ht2. change (context g1) with (context g2) in I2, Ht2. rewrite <- Hc3 in I2, Ht2.
    change (locals g1) with (locals g2) in I2, Ht2. rewrite <- Hl3 in I2, Ht2.
    apply Permutation_length in Hperm. cbn in Hperm, Ht3.
    assert (Hl31 : length (locals g3) = length (locals g1)) by by rewrite Hl3.
    destruct (turn_spec fuel W (width (S fuel)) w e g3 inputs' emitted)
      as (next & locals' & c' & g4 & -> & Hok & [I4 Ht4 Hl4 Hw4] & Hr4); [done|done|lia|lia|lia|].
    rewrite bind_Ok, Hok, bind_Ok. cbn.
    destruct (IH fuel ltac:(lia) inputs' (snd (take_outputs g4)) (emitted ++ outputs (context g4)))
      as (l & Hrun & Hnd & Hmem).
    + by apply take_outputs_inv.
    + done.
    + cbn. lia.
    + intros Hd. cbn. rewrite (Hsteady Hd fuel (S fuel)). specialize (Hdebug Hd). lia.
    + done.
    + done.
    + cbn in Hrun. rewrite Hrun, bind_Ok. eexists. split; [done|]. rewrite (assoc (++)). split; [done|].
      intros x. rewrite (assoc (++)). apply Hmem.
Qed.

End Inv.

(** ** The conflicted state subgraph *)

(** The auth chains are finite. *)
Lemma chains_finite `{Ruma} fetch (rank : string → nat) (C : list string) :
  (∀ x y, edge fetch x y → (rank y < rank x)%nat) →
  ∃ U : list string, ∀ x, x ∈ C ∨ reached fetch C x → x ∈ U.
Proof.
  intros Hrank.
  assert (Hone : ∀ n x, (rank x < n)%nat → ∃ U : list string, ∀ y, tc (edge fetch) x y → y ∈ U).
  { induction n as [|n IH]; intros x Hx; [lia|].
    assert (Hkids : ∀ l : list string, (∀ y, y ∈ l → edge fetch x y) →
              ∃ U : list string, ∀ y z, y ∈ l → z = y ∨ tc (edge fetch) y z → z ∈ U).
    { induction l as [|a l IHl]; intros Hl; [exists []; by intros y z ?%elem_of_nil|].
      destruct (IH a) as [Ua HUa]; [specialize (Hrank x a (Hl a ltac:(left))); lia|].
      destruct IHl as [U HU]; [intros y Hy; apply Hl; by right|]. exists (a :: Ua ++ U).
      intros y z [->|Hy]%elem_of_cons Hz.
      - destruct Hz as [->|Hz]; [left|right]. apply elem_of_app. left. by apply HUa.
      - right. apply elem_of_app. right. by apply (HU y). }
    destruct (Hkids (kids fetch x)) as [U HU]; [done|]. exists U. intros y Hy.
    inversion Hy as [? ? Hxy|? b ? Hxb Hby]; subst; [apply (HU y); auto|apply (HU b); auto]. }
  induction C as [|c C [U HU]]; [exists []; by intros x [?%elem_of_nil|(? & ?%elem_of_nil & _)]|].
  destruct (Hone (S (rank c)) c) as [Uc HUc]; [lia|]. exists (c :: Uc ++ U).
  intros x [[->|Hx]%elem_of_cons|(a & [->|Ha]%elem_of_cons & Hax)]; [left|right..]; apply elem_of_app.
  - right. apply HU. by left.
  - left. by apply HUc.
  - right. apply HU. right. by exists a.
Qed.

Lemma initial_inv `{Ruma} fetch C :
  Inv fetch C (mkContext (list_to_map ((λ event_id, (event_id, Conflicted)) <$> C)) ∅ [] 0 []) [] [] [] []
    None C [].
Proof.
  assert (Hl : ∀ x st, (list_to_map ((λ event_id, (event_id, Conflicted)) <$> C) : Sub) !! x = Some st →
            x ∈ C ∧ st = Conflicted).
  { intros x st (y & [= -> ->] & Hy)%elem_of_list_to_map_2%list_elem_of_fmap. done. }
  assert (Hs : ∀ x, x ∈ C → is_Some ((list_to_map ((λ event_id, (event_id, Conflicted)) <$> C) : Sub) !! x)).
  { intros x Hx. destruct (_ !! x) eqn:E; [done|]. exfalso. apply not_elem_of_list_to_map in E. apply E.
    rewrite <- list_fmap_compose. apply list_elem_of_fmap. by exists x. }
  assert (Hout : out (mkContext (list_to_map ((λ event_id, (event_id, Conflicted)) <$> C)) ∅ [] 0 []) [] [] [] = []).
  { done. }
  split; cbn [subgraph waiters ready parked outputs]; rewrite ?Hout; try done; try (intros; set_solver).
  - intros x Hx. left. destruct (Hs x Hx) as [st Hst]. by destruct (Hl x st Hst) as [_ ->].
  - split; [constructor|]. intros x. split; [by intros ?%elem_of_nil|by intros [_ ?]%Hl].
  - constructor.
  - intros x [st [Hx _]%Hl]. by right; right; right.
Qed.

Lemma conflicted_subgraph_spec `{Ruma} debug fetch C :
  store_ok fetch → auth_acyclic fetch → Z.of_nat (length C) ≤ u32_max + 1 →
  ∃ enough, ∀ `{HashOrder} width fuel,
    (∀ i, (1 ≤ width i)%nat) → (debug = true → ∀ i j, width i = width j) → (enough ≤ fuel)%nat →
    ∃ l, conflicted_subgraph_dfs debug fuel width C fetch = Ok l ∧ NoDup l ∧
      ∀ x, x ∈ l ↔ in_subgraph fetch C x.
Proof.
  intros Hstore [rank Hrank] HC.
  assert (Hedge : ∀ x y, edge fetch x y → (rank y < rank x)%nat).
  { intros x y Hxy. destruct (kids_found _ _ _ Hxy) as [ev Hev]. unfold edge, kids in Hxy. rewrite Hev in Hxy.
    eapply Hrank; [by apply found_fetch|done]. }
  destruct (chains_finite fetch rank C Hedge) as [U HU].
  set (K := max_list (length ∘ kids fetch <$> U)).
  assert (HK : ∀ x ev, x ∈ U → fetch x = Ok ev → (length (auth_events ev) ≤ K)%nat).
  { intros x ev Hx Hf. apply max_list_elem_of_le, list_elem_of_fmap. exists x. split; [|done].
    unfold kids, found. cbn. by rewrite Hf. }
  pose proof (initial_inv fetch C) as I.
  set (c0 := mkContext _ _ _ _ _) in I.
  exists (total U K c0 [] [] [] [] C). intros HO width fuel Hwidth Hsteady Hfuel.
  destruct (run_spec fetch C rank Hedge debug U HU K Hstore HK width Hwidth Hsteady fuel C (mkGlobal c0 [] [] []) [])
    as (l & Hrun & Hnd & Hmem); [done|done|done|cbn; lia|done|done|by exists l].
Qed.

(** C3: the walkers end, whatever order fetches complete in and however wide
    the stream is, without a failed assertion and without a walker left waiting,
    and they emit each event of the conflicted subgraph exactly once: the events
    on a path of auth events from one conflicted event to another. *)
Theorem conflicted_subgraph_correct `{Ruma} debug fetch C :
  store_ok fetch → auth_acyclic fetch → Z.of_nat (length C) ≤ u32_max + 1 →
  ∃ enough, ∀ `{HashOrder} width fuel,
    (∀ i, (1 ≤ width i)%nat) → (debug = true → ∀ i j, width i = width j) → (enough ≤ fuel)%nat →
    ∃ l, conflicted_subgraph_dfs debug fuel width C fetch = Ok l ∧ NoDup l ∧
      ∀ x, x ∈ l ↔ in_subgraph fetch C x.
Proof. apply conflicted_subgraph_spec. Qed.

Lemma conflicted_subgraph_correct_witness :
  ∃ enough l, conflicted_subgraph_dfs (H0 := reversed) true enough (λ _, 2%nat) ["$t1"; "$ban"; "$t2"; "$p1"]%string
    fork_fetch = Ok l ∧ NoDup l ∧
    ∀ x, x ∈ l ↔ in_subgraph fork_fetch ["$t1"; "$ban"; "$t2"; "$p1"]%string x.
Proof.
  destruct (conflicted_subgraph_correct true fork_fetch ["$t1"; "$ban"; "$t2"; "$p1"]%string) as [enough Hrun].
  - apply fetch_id_store.
  - apply fork_acyclic.
  - by vm_compute.
  - exists enough. apply (Hrun reversed); [lia|done|done].
Defined.
