(* ===== verification/Resolve.v ===== *)
(** * Resolve: state resolution (src/service/rooms/state_res/resolve.rs)

    The components of the earlier files put together, and the theorem that the
    result is the one the specification of state resolution version 2 describes,
    in whatever order the hash tables iterate and the fetches complete. *)

From stdpp Require Import sorting.
From S2P Require Import Prelude Json Order CoreError RoomEvents SampleRoom AuthTypes RoomMember.
From S2P Require Import EventAuth AuthFacts AuthErrors TopologicalSort SplitConflicted PowerSort.
From S2P Require Import MainlineSort IterativeAuth ConflictedSubgraph SubgraphFacts.

(** [StateResolutionV2Rules] and [RoomVersionRules], the fields the code reads. *)
Record V2Rules := mkV2Rules {
  begin_iterative_auth_checks_with_empty_state_map : bool;
  consider_conflicted_state_subgraph : bool
}.

Record RoomVersionRules := mkRoomVersionRules {
  authorization : AuthorizationRules;
  v2_rules : option V2Rules
}.

Section Defs.
Context `{Ruma, Usize, TypeOrder, HashOrder} (debug : bool).

(** [is_some_and] *)
Definition is_some_and {A} (o : option A) (f : A → bool) : bool :=
  match o with Some a => f a | None => false end.

(** [full_conflicted_set] *)
Definition full_conflicted_set (fuel : nat) (width : nat → nat) (rules : RoomVersionRules)
    (conflicted_states : ConflictMap) (auth_sets : list AuthSet) (fetch : FetchEvent)
    (exists_ : string → bool) (hydra_backports : bool) : Res (gset string) :=
  let consider_conflicted_subgraph :=
    is_some_and (v2_rules rules) consider_conflicted_state_subgraph || hydra_backports in
  let conflicted_state_set :=
    dedup (str_sort (mjoin (map_to_list conflicted_states).*2)) in
  conflicted_subgraph ← (if consider_conflicted_subgraph
                         then conflicted_subgraph_dfs debug fuel width conflicted_state_set fetch
                         else Ok []);
  Ok (list_to_set
        (filter (λ id, exists_ id = true) (auth_difference auth_sets ++ conflicted_state_set)
         ++ conflicted_subgraph)).

(** [resolve] *)
Definition resolve (fuel : nat) (width : nat → nat) (rules : RoomVersionRules)
    (state_maps : list StateMap) (auth_sets : list AuthSet) (fetch : FetchEvent)
    (exists_ : string → bool) (hydra_backports : bool) : Res StateMap :=
  split ← split_conflicted_state debug state_maps;
  let '(unconflicted_state, conflicted_states) := split in
  if bool_decide (conflicted_states = ∅) then Ok unconflicted_state
  else
  full_conflicted_set ← full_conflicted_set fuel width rules conflicted_states auth_sets fetch
                          exists_ hydra_backports;
  sorted_power_set ← power_sort fuel (authorization rules) full_conflicted_set fetch;
  let power_set_event_ids := str_sort sorted_power_set in
  let begin_with_empty_state_map :=
    is_some_and (v2_rules rules) begin_iterative_auth_checks_with_empty_state_map
    || hydra_backports in
  let initial_state := if begin_with_empty_state_map then ∅ else unconflicted_state in
  partially_resolved_state ←
    iterative_auth_check (authorization rules) sorted_power_set initial_state fetch;
  let power_event := partially_resolved_state !! (ROOM_POWER_LEVELS, ""%string) in
  let remaining_events :=
    filter (λ id, binary_search_by (λ x, String.compare x id) power_set_event_ids = None)
      (hash_order ["resolve"; "remaining"]%string (elements full_conflicted_set)) in
  sorted_remaining_events ← (match remaining_events with
                             | [] => Ok []
                             | _ => mainline_sort fuel power_event remaining_events fetch
                             end);
  resolved_state ←
    iterative_auth_check (authorization rules) sorted_remaining_events partially_resolved_state fetch;
  Ok (unconflicted_state ∪ resolved_state).

End Defs.

(** ** The specification *)

Section Spec.
Context `{Ruma} (rules : RoomVersionRules) (fetch : FetchEvent) (exists_ : string → bool)
  (hydra_backports : bool).
Context (state_maps : list StateMap) (auth_sets : list AuthSet).

#[local] Notation auth_rules := (authorization rules).

(** Some state map has the event at a key, and another has not. *)
Definition contested (id : string) : Prop :=
  ∃ k, (∃ m, m ∈ state_maps ∧ m !! k = Some id) ∧ ∃ m, m ∈ state_maps ∧ m !! k ≠ Some id.

(** In some of the auth chains, but not in all. *)
Definition differing (id : string) : Prop :=
  (∃ set, set ∈ auth_sets ∧ id ∈ set) ∧ ∃ set, set ∈ auth_sets ∧ id ∉ set.

(** Every state map has the event at the key. *)
Definition agreed (k : string * string) (id : string) : Prop :=
  state_maps ≠ [] ∧ ∀ m, m ∈ state_maps → m !! k = Some id.

Definition with_subgraph : bool :=
  is_some_and (v2_rules rules) consider_conflicted_state_subgraph || hydra_backports.
Definition from_empty : bool :=
  is_some_and (v2_rules rules) begin_iterative_auth_checks_with_empty_state_map || hydra_backports.

(** The full conflicted set; [contest] lists the contested events. *)
Definition in_full_set (contest : list string) (id : string) : Prop :=
  exists_ id = true ∧ (differing id ∨ contested id) ∨
  with_subgraph = true ∧ in_subgraph fetch contest id.

Definition sender_level (id : string) : UserPowerLevel :=
  match power_level_for_sender id auth_rules fetch with Ok level => level | _ => IntLevel 0 end.

(** [order] is the mainline ordering of the conflicted events left. *)
Definition mainline_ordered (set : gset string) (power line order : list string) : Prop :=
  NoDup order ∧
  (∀ id, id ∈ order ↔ (id ∈ set ∧ id ∉ power) ∧ ∃ ev r, fetch id = Ok ev ∧ rooted_at fetch line ev r) ∧
  ∀ i j a b, (i < j)%nat → order !! i = Some a → order !! j = Some b → mainline_before fetch line a b.

(** The state that state resolution gives. *)
Inductive resolution : StateMap → Prop :=
| resolution_agreed unconflicted :
    (∀ id, ¬ contested id) → (∀ k id, unconflicted !! k = Some id ↔ agreed k id) →
    resolution unconflicted
| resolution_conflict unconflicted contest set power partial line rest resolved :
    (∃ id, contested id) →
    (∀ k id, unconflicted !! k = Some id ↔ agreed k id) →
    (∀ id, id ∈ contest ↔ contested id) →
    (∀ id, id ∈ set ↔ in_full_set contest id) →
    power_ordered fetch set power →
    (∀ order, power_ordered fetch set order → lex_before (power_info fetch sender_level) power order) →
    reference_run auth_rules fetch power (if from_empty then ∅ else unconflicted) = Ok partial →
    mainline_of fetch (partial !! (ROOM_POWER_LEVELS, ""%string)) line →
    mainline_ordered set power line rest →
    reference_run auth_rules fetch rest partial = Ok resolved →
    resolution (unconflicted ∪ resolved).

(** A store that holds the room: it answers, its events cite older ones, all of
    which it has and which are state events; it is finite, the senders' power
    levels can be read, and it has the events to be resolved. *)
Record resolvable : Prop := {
  res_store : store_ok fetch;
  res_acyclic : auth_acyclic fetch;
  res_closed : ∀ id ev a, fetch id = Ok ev → a ∈ auth_events ev → is_Some (found fetch a);
  res_state : auth_events_are_state auth_rules fetch;
  res_levels : ∀ id, is_Some (found fetch id) →
    is_ok (power_level_for_sender id auth_rules fetch) = true;
  res_finite : ∃ ids, zlen ids ≤ u32_max ∧ ∀ id, is_Some (found fetch id) → id ∈ ids;
  res_entries : ∀ m k id, m ∈ state_maps → m !! k = Some id → is_Some (found fetch id);
  res_maps : zlen state_maps ≤ u32_max;
  res_sets : zlen auth_sets ≤ u32_max;
  res_distinct : Forall (λ set, NoDup set) auth_sets;
  res_rules : knock_restricted_join_rule auth_rules = true → restricted_join_rule auth_rules = true
}.

End Spec.

(** ** Searching and sorting *)

Lemma str_le_cmp x y : str_le x y ↔ cmp_le String.compare x y.
Proof. unfold str_le, cmp_le, String.leb. by destruct (String.compare x y). Qed.

Lemma binary_search_member l id :
  NoDup l → binary_search_by (λ x, String.compare x id) (str_sort l) = None ↔ id ∉ l.
Proof.
  intros Hnd. assert (Hs : searchable (λ x, String.compare x id) (str_sort l)).
  { intros i j x y Hij Hx Hy Hne.
    assert (Hle : cmp_le String.compare x y).
    { apply str_le_cmp. eapply (strongly_sorted_lookup str_le); [apply str_sort_sorted|exact Hij|exact Hx|exact Hy]. }
    destruct (String.compare y id) eqn:Hyi; [| |done]; exfalso.
    1, 2: assert (Hyle : cmp_le String.compare y id) by (unfold cmp_le; by rewrite Hyi).
    1, 2: assert (Hxi : String.compare x id = Eq) by
      (pose proof (cmp_trans (cmp := String.compare) x y id Hle Hyle) as Hxle; unfold cmp_le in Hxle; destruct (String.compare x id); done).
    1, 2: destruct (cmp_eq_mid String.compare x y id Hle Hyle Hxi) as [->%string_cmp_eq _].
    1, 2: assert (i = j) as ->; [|lia].
    1, 2: apply (NoDup_lookup (str_sort l) i j y); [|done|done].
    1, 2: unfold str_sort; by rewrite merge_sort_Permutation. }
  destruct (binary_search_by _ _) as [i|] eqn:Hb.
  - split; [done|]. intros Hn. apply binary_search_spec in Hb as (x & Hx & Heq); [|done]. apply string_cmp_eq in Heq as ->.
    apply list_elem_of_lookup_2 in Hx. by rewrite elem_of_str_sort in Hx.
  - split; [|done]. intros _ Hin. rewrite <- elem_of_str_sort in Hin. apply list_elem_of_lookup_1 in Hin as [i Hi].
    assert (binary_search_by (λ x, String.compare x id) (str_sort l) = Some i); [|congruence].
    apply binary_search_spec; [done|]. exists id. split; [done|]. apply (cmp_refl String.compare).
Qed.

Lemma u32_le_usize `{Usize} : u32_max ≤ usize_max.
Proof. usize_lia. Qed.

(** ** No step of a resolution fails *)

Section Total.
Context `{Ruma} (rules : AuthorizationRules) (fetch : FetchEvent) (Hstore : store_ok fetch).

Lemma reference_answers state ev : answers (reference_state rules fetch state ev).
Proof.
  intros ty key. unfold reference_state. destruct (_ ≫= _); [done|].
  by destruct (option_map _ _).
Qed.

(** The iterative auth checks apply or skip each event. *)
Lemma reference_run_total ids state :
  (∀ id, id ∈ ids → is_Some (found fetch id)) →
  ∃ result, reference_run rules fetch ids state = Ok result.
Proof.
  revert state. induction ids as [|id ids IH]; intros state Hids; [by exists state|]. cbn [reference_run].
  destruct (Hids id) as [ev Hev]; [left|]. rewrite (found_fetch fetch id ev Hev), bind_Ok.
  assert (Hrest : ∀ st, ∃ result, reference_run rules fetch ids st = Ok result).
  { intros st. apply IH. intros x Hx. apply Hids. by right. }
  destruct (state_key ev) as [key|]; [|apply Hrest]. unfold reference_step.
  destruct (auth_types_spec (event_type ev) (sender ev) (Some key) (content ev) rules true) as [Hnp _].
  destruct (auth_types_for_event _ _ _ _ _ _) as [l|e|]; [|apply Hrest|done].
  pose proof (soft_dependent_rules _ (reference_answers state ev) rules ev) as Hsoft.
  destruct (check_state_dependent_auth_rules _ _ _) as [[]|e|]; [apply Hrest| |done]. cbn in Hsoft.
  destruct (classify_auth_error e); [|done..]. rewrite !bind_Ok. apply Hrest.
Qed.

Context (Hacyclic : auth_acyclic fetch).
Context (Hclosed : ∀ id ev a, fetch id = Ok ev → a ∈ auth_events ev → is_Some (found fetch a)).

Lemma power_auth_found id ev :
  fetch id = Ok ev → ∃ next, get_power_levels_auth_event (auth_events ev) fetch = Ok next ∧
    ∀ nx, next = Some nx → event_id nx ∈ auth_events ev ∧ fetch (event_id nx) = Ok nx.
Proof.
  intros Hf. assert (Hl : ∀ a, a ∈ auth_events ev → is_Some (found fetch a)) by (intros a; by apply (Hclosed id)).
  revert Hl. generalize (auth_events ev). induction l as [|a l IH]; intros Hl; cbn [get_power_levels_auth_event];
    [exists None; by split|].
  destruct (Hl a) as [ae Hae]; [left|]. apply found_fetch in Hae. rewrite Hae, bind_Ok.
  destruct (Hstore a) as [(ae' & Hae' & Hid)|(e & He & _)]; [|congruence].
  assert (ae' = ae) as -> by congruence. destruct (is_type_and_state_key _ _ _).
  - exists (Some ae). split; [done|]. intros nx [= <-]. rewrite Hid. split; [left|done].
  - destruct IH as (next & Hn & Hin); [intros x Hx; apply Hl; by right|]. exists next. split; [done|].
    intros nx Hnx. destruct (Hin nx Hnx). split; [by right|done].
Qed.

(** Every power levels event has a mainline, of events of the store. *)
Lemma mainline_exists p :
  (∀ id, p = Some id → is_Some (found fetch id)) →
  ∃ line, mainline_of fetch p line ∧ ∀ x, x ∈ line → is_Some (found fetch x).
Proof.
  destruct Hacyclic as [rank Hrank].
  assert (Hall : ∀ n id, (rank id < n)%nat → is_Some (found fetch id) →
    ∃ line, mainline_of fetch (Some id) line ∧ ∀ x, x ∈ line → is_Some (found fetch x)).
  { induction n as [|n IH]; intros id Hlt [ev Hev]; [lia|]. apply found_fetch in Hev.
    destruct (Hstore id) as [(ev' & Hev' & Hid)|(e & He & _)]; [|congruence]. assert (ev' = ev) as -> by congruence.
    destruct (power_auth_found id ev Hev) as (next & Hnext & Hin).
    assert (Hline : ∃ line, mainline_of fetch (option_map event_id next) line ∧ ∀ x, x ∈ line → is_Some (found fetch x)).
    { destruct next as [nx|]; [|exists []; split; [constructor|by intros x ?%elem_of_nil]].
      destruct (Hin nx eq_refl) as [Hnx Hf]. apply IH; [specialize (Hrank id ev _ Hev Hnx); lia|exact (Hclosed id ev _ Hev Hnx)]. }
    destruct Hline as (line & Hline & Hf). exists (event_id ev :: line). split; [by econstructor|].
    intros x [->|Hx]%elem_of_cons; [rewrite Hid; unfold found; by rewrite Hev|by apply Hf]. }
  intros Hp. destruct p as [id|]; [|exists []; split; [constructor|by intros x ?%elem_of_nil]].
  apply (Hall (S (rank id))); [lia|by apply Hp].
Qed.

End Total.

(** ** The result is the specified one *)

Section Correct.
Context `{Ruma, Usize, TypeOrder} (debug : bool).
Context (rules : RoomVersionRules) (fetch : FetchEvent) (exists_ : string → bool)
  (hydra_backports : bool).
Context (state_maps : list StateMap) (auth_sets : list AuthSet).
Context (Hroom : resolvable rules fetch state_maps auth_sets).

#[local] Notation auth_rules := (authorization rules).
#[local] Notation contested := (contested state_maps).
#[local] Notation agreed := (agreed state_maps).
#[local] Notation in_full_set :=
  (in_full_set rules fetch exists_ hydra_backports state_maps auth_sets).

Lemma split_any :
  ∃ unconflicted, (∀ k id, unconflicted !! k = Some id ↔ agreed k id) ∧
    ∀ (o : HashOrder) maps, maps ≡ₚ state_maps →
      ∃ conflicted, split_conflicted_state debug maps = Ok (unconflicted, conflicted) ∧
        (conflicted = ∅ ↔ ∀ id, ¬ contested id) ∧
        ∀ id, id ∈ mjoin (map_to_list conflicted).*2 ↔ contested id.
Proof.
  pose proof (res_maps _ _ _ _ Hroom) as Hlen. pose proof u32_le_usize as Hmax.
  destruct (split_conflicted_spec (H0 := in_order) debug state_maps) as (u & _ & _ & Hu & _);
    [lia|].
  exists u. split; [exact Hu|]. intros o maps Hperm.
  destruct (split_conflicted_spec debug maps) as (u' & c & Hs & Hu' & Hc & Hne).
  { unfold zlen in *. rewrite Hperm. lia. }
  assert (Hnil : maps ≠ [] ↔ state_maps ≠ []).
  { split; intros Hn ->; apply Hn; [by apply Permutation_nil_r|by symmetry in Hperm; apply Permutation_nil_r in Hperm]. }
  assert (u' = u) as ->.
  { apply map_eq. intros k. apply option_eq. intros v. rewrite Hu, Hu', Hnil. by setoid_rewrite Hperm. }
  assert (Hmem : ∀ id, id ∈ mjoin (map_to_list c).*2 ↔ contested id).
  { intros id. unfold contested. setoid_rewrite <- Hperm. setoid_rewrite <- Hc. rewrite list_elem_of_join. split.
    - intros (ids & Hid & Hin). apply list_elem_of_fmap in Hin as ([k ids'] & -> & Hin%elem_of_map_to_list).
      exists k. by rewrite Hin.
    - intros (k & Hk). destruct (c !! k) as [ids|] eqn:E; [|by apply elem_of_nil in Hk]. exists ids. split; [done|].
      apply list_elem_of_fmap. exists (k, ids). split; [done|]. by apply elem_of_map_to_list. }
  exists c. split_and!; [done| |done]. split.
  - intros -> id Hid. apply Hmem in Hid. rewrite map_to_list_empty in Hid. by apply elem_of_nil in Hid.
  - intros Hno. apply map_eq. intros k. rewrite lookup_empty. destruct (c !! k) as [ids|] eqn:E; [|done]. exfalso.
    destruct (Hne k ids E) as [Hids _]. destruct ids as [|id ids]; [done|]. apply (Hno id), Hmem, list_elem_of_join.
    exists (id :: ids). split; [left|]. apply list_elem_of_fmap. exists (k, id :: ids). split; [done|].
    by apply elem_of_map_to_list.
Qed.

(** The contested events are in the store, so there are not too many. *)
Lemma contest_bound l :
  NoDup l → (∀ id, id ∈ l → is_Some (found fetch id)) → Z.of_nat (length l) ≤ u32_max.
Proof.
  intros Hnd Hl. destruct (res_finite _ _ _ _ Hroom) as (ids & Hlen & Hids).
  assert (Hsub : l ⊆+ ids) by (apply NoDup_submseteq; [done|]; intros id Hid; apply Hids, Hl, Hid).
  apply submseteq_length in Hsub. unfold zlen in Hlen. lia.
Qed.

Lemma contested_found id : contested id → is_Some (found fetch id).
Proof. intros (k & (m & Hm & Hk) & _). by eapply (res_entries _ _ _ _ Hroom). Qed.

Lemma full_set_any contest :
  (∀ id, id ∈ contest ↔ contested id) →
  ∃ set enough, (∀ id, id ∈ set ↔ in_full_set (dedup (str_sort contest)) id) ∧
    ∀ (o : HashOrder) width fuel conflicted sets,
      (∀ i, (1 ≤ width i)%nat) → (debug = true → ∀ i j, width i = width j) → (enough ≤ fuel)%nat →
      (∀ id, id ∈ mjoin (map_to_list conflicted).*2 ↔ contested id) → sets ≡ₚ auth_sets →
      full_conflicted_set debug fuel width rules conflicted sets fetch exists_ hydra_backports = Ok set.
Proof.
  intros Hcontest. set (C := dedup (str_sort contest)).
  assert (HC : ∀ id, id ∈ C ↔ contested id).
  { intros id. unfold C. by rewrite elem_of_dedup, elem_of_str_sort, Hcontest. }
  destruct (conflicted_subgraph_spec debug fetch C) as [enough Hsub].
  - apply (res_store _ _ _ _ Hroom).
  - apply (res_acyclic _ _ _ _ Hroom).
  - pose proof (contest_bound C (NoDup_dedup_sort _)) as Hb.
    assert (Z.of_nat (length C) ≤ u32_max); [|lia]. apply Hb. intros id Hid%HC. by apply contested_found.
  - destruct (Hsub in_order (λ _, 1%nat) enough) as (l0 & _ & _ & Hl0); [done|done|done|].
    pose proof u32_le_usize as Hmax.
    assert (Hdiff : ∀ (o : HashOrder) sets, sets ≡ₚ auth_sets →
              ∀ id, id ∈ auth_difference sets ↔ differing auth_sets id).
    { intros o sets Hperm id. destruct (auth_difference_spec sets) as [_ Hin].
      - rewrite Hperm. apply (res_distinct _ _ _ _ Hroom).
      - pose proof (res_sets _ _ _ _ Hroom) as Hlen. unfold zlen in *. rewrite Hperm. lia.
      - rewrite Hin. unfold differing. by setoid_rewrite Hperm. }
    exists (list_to_set (filter (λ id, exists_ id = true) (auth_difference (H0 := in_order) auth_sets ++ C) ++
              if with_subgraph rules hydra_backports then l0 else [])), enough.
    assert (Hmem : ∀ (o : HashOrder) sets l, sets ≡ₚ auth_sets →
      (∀ id, id ∈ l ↔ with_subgraph rules hydra_backports = true ∧ in_subgraph fetch C id) →
      ∀ id, id ∈ (list_to_set (filter (λ id, exists_ id = true) (auth_difference sets ++ C) ++ l) : gset string)
        ↔ in_full_set C id).
    { intros o sets l Hperm Hl id.
      rewrite elem_of_list_to_set, elem_of_app, list_elem_of_filter, elem_of_app, (Hdiff o sets Hperm), HC, Hl. done. }
    assert (Hwith : ∀ l, (∀ id, id ∈ l ↔ in_subgraph fetch C id) → ∀ id,
       id ∈ (if with_subgraph rules hydra_backports then l else []) ↔
       with_subgraph rules hydra_backports = true ∧ in_subgraph fetch C id).
    { intros l Hl id. destruct (with_subgraph _ _); [rewrite Hl; naive_solver|]. rewrite elem_of_nil. naive_solver. }
    split; [apply Hmem; [done|by apply Hwith]|].
    intros o width fuel conflicted sets Hwd Hst Hf Hcon Hperm. unfold full_conflicted_set.
    rewrite (dedup_sort_unique _ contest) by (intros id; by rewrite Hcon, Hcontest).
    fold C. fold (with_subgraph rules hydra_backports).
    destruct (Hsub o width fuel Hwd Hst Hf) as (l & Hrun & _ & Hl).
    assert (Hpick : (if with_subgraph rules hydra_backports then conflicted_subgraph_dfs debug fuel width C fetch else Ok [])
                    = Ok (if with_subgraph rules hydra_backports then l else [])).
    { destruct (with_subgraph _ _); [exact Hrun|done]. }
    rewrite Hpick, bind_Ok. f_equal. apply set_eq. intros id.
    rewrite (Hmem o sets) by (done || by apply Hwith). by rewrite (Hmem in_order auth_sets) by (done || by apply Hwith).
Qed.

#[local] Notation power_key := (ROOM_POWER_LEVELS, ""%string).
#[local] Notation sender_level := (sender_level rules fetch).

Lemma levels_found set id :
  power_set fetch set id → power_level_for_sender id auth_rules fetch = Ok (sender_level id).
Proof.
  intros [_ Hf]. pose proof (res_levels _ _ _ _ Hroom id Hf) as Hok. unfold Resolve.sender_level.
  by destruct (power_level_for_sender _ _ _).
Qed.

(** Every entry of the partially resolved state is in the store. *)
Lemma partial_found (unconflicted : StateMap) power partial k id :
  (∀ k id, unconflicted !! k = Some id ↔ agreed k id) →
  reference_run auth_rules fetch power (if from_empty rules hydra_backports then ∅ else unconflicted) = Ok partial →
  partial !! k = Some id → is_Some (found fetch id).
Proof.
  intros Hu Hrun Hk. destruct (reference_run_entries _ _ _ _ _ Hrun k id Hk) as [Hin|[_ (ev & _ & _ & Hf & _)]].
  - destruct (from_empty _ _); [by rewrite lookup_empty in Hin|]. apply Hu in Hin as [Hne Hall].
    destruct state_maps as [|m maps]; [done|]. eapply (res_entries _ _ _ _ Hroom m); [left|apply Hall; left].
  - unfold found. by rewrite Hf.
Qed.

(** Sorting what is left by the mainline. *)
Lemma remaining_any (set : gset string) (power : list string) (partial : StateMap) :
  NoDup power → (∀ id, partial !! power_key = Some id → is_Some (found fetch id)) →
  ∃ line rest enough, mainline_of fetch (partial !! power_key) line ∧
    mainline_ordered fetch set power line rest ∧
    ∀ (o : HashOrder) fuel, (enough ≤ fuel)%nat →
      let remaining := filter (λ id, binary_search_by (λ x, String.compare x id) (str_sort power) = None)
              (hash_order ["resolve"; "remaining"]%string (elements set)) in
      match remaining with
      | [] => Ok []
      | _ => mainline_sort fuel (partial !! power_key) remaining fetch
      end = Ok rest.
Proof.
  intros Hnd Hpl.
  destruct (mainline_exists fetch (res_store _ _ _ _ Hroom) (res_acyclic _ _ _ _ Hroom) (res_closed _ _ _ _ Hroom)
              (partial !! power_key) Hpl) as (line & Hline & Hin).
  destruct (res_acyclic _ _ _ _ Hroom) as [rank Hrank] eqn:Hac.
  destruct (mainline_of_ranks fetch (res_store _ _ _ _ Hroom) rank Hrank _ _ Hline) as [Hndl _].
  set (events := filter (λ id, binary_search_by (λ x, String.compare x id) (str_sort power) = None) (elements set)).
  destruct (mainline_sort_spec fetch (partial !! power_key) line events) as (rest & enough & Hsort & Hndr & Hmem & Hord).
  - apply (res_store _ _ _ _ Hroom).
  - by exists rank.
  - done.
  - pose proof (contest_bound line Hndl Hin). pose proof u32_le_usize. unfold zlen. lia.
  - apply NoDup_filter, NoDup_elements.
  - exists line, rest, enough. split_and!; [done| |].
    + split_and!; [done| |done]. intros id. rewrite Hmem. unfold events.
      rewrite list_elem_of_filter, elem_of_elements, binary_search_member by done. naive_solver.
    + intros o fuel Hf remaining.
      assert (Hperm : remaining ≡ₚ events) by (unfold remaining, events; by rewrite hash_order_perm).
      rewrite <- (Hsort o fuel remaining Hf Hperm). destruct remaining as [|id remaining]; [|done].
      assert (Hrest : rest = []).
      { destruct rest as [|x rest]; [done|]. assert (Hx : x ∈ x :: rest) by left.
        apply Hmem in Hx as [Hx _]. rewrite <- Hperm in Hx. by apply elem_of_nil in Hx. }
      rewrite (Hsort o fuel [] Hf Hperm). by rewrite Hrest.
Qed.

(** What the code computes, however it is scheduled. *)
Definition computes (result : StateMap) : Prop :=
  ∃ enough, ∀ (o : HashOrder) width fuel maps sets,
    (∀ i, (1 ≤ width i)%nat) → (debug = true → ∀ i j, width i = width j) → (enough ≤ fuel)%nat →
    maps ≡ₚ state_maps → sets ≡ₚ auth_sets →
    resolve debug fuel width rules maps sets fetch exists_ hydra_backports = Ok result.

Lemma resolve_spec :
  ∃ result, resolution rules fetch exists_ hydra_backports state_maps auth_sets result ∧ computes result.
Proof.
  pose proof (res_store _ _ _ _ Hroom) as Hstore.
  destruct split_any as (u & Hu & Hsplit).
  destruct (Hsplit in_order state_maps) as (c0 & _ & Hempty & Hc0); [done|].
  destruct (decide (c0 = ∅)) as [Hno|Hsome].
  { pose proof (proj1 Hempty Hno) as Hnone. exists u. split; [by apply resolution_agreed|].
    exists 0%nat. intros o width fuel maps sets _ _ _ Hm _. unfold resolve.
    destruct (Hsplit o maps Hm) as (c & -> & Hc & _). rewrite bind_Ok.
    by rewrite bool_decide_eq_true_2 by by apply Hc. }
  destruct (full_set_any (mjoin (map_to_list c0).*2) Hc0) as (set & e1 & Hset & Hfull).
  destruct (power_sort_spec auth_rules fetch set sender_level Hstore (res_acyclic _ _ _ _ Hroom) (levels_found set))
    as (power & Hpower & Hsort & Hleast).
  assert (Hpf : ∀ id, id ∈ power → is_Some (found fetch id)).
  { intros id Hid. by apply Hpower in Hid as [_ ?]. }
  destruct (reference_run_total auth_rules fetch power
              (if from_empty rules hydra_backports then ∅ else u) Hpf) as [partial Hpartial].
  destruct (remaining_any set power partial) as (line & rest & e3 & Hline & Hrest & Hremaining).
  { apply Hpower. }
  { intros id Hid. by eapply partial_found. }
  destruct (reference_run_total auth_rules fetch rest partial) as [resolved Hresolved].
  { intros id Hid. apply Hrest in Hid as (_ & ev & r & Hf & _). unfold found. by rewrite Hf. }
  exists (u ∪ resolved). split.
  - apply (resolution_conflict _ _ _ _ _ _ u (dedup (str_sort (mjoin (map_to_list c0).*2))) set power partial line rest); try done.
    + destruct (mjoin (map_to_list c0).*2) as [|id l] eqn:E; [|exists id; apply Hc0; left].
      exfalso. apply Hsome, Hempty. intros id Hid%Hc0. by apply elem_of_nil in Hid.
    + intros id. by rewrite elem_of_dedup, elem_of_str_sort, Hc0.
  - exists (Nat.max e1 (Nat.max (power_fuel fetch set) e3)). intros o width fuel maps sets Hwd Hst Hf Hm Hs.
    unfold resolve. destruct (Hsplit o maps Hm) as (c & -> & Hc & Hmem). rewrite bind_Ok.
    rewrite bool_decide_eq_false_2 by (intros E; apply Hsome, Hempty, Hc, E).
    rewrite (Hfull o width fuel c sets) by (done || lia). rewrite bind_Ok.
    rewrite (Hsort o fuel) by lia. rewrite bind_Ok. fold (from_empty rules hydra_backports).
    rewrite (iterative_reference auth_rules fetch Hstore power _ (res_rules _ _ _ _ Hroom) (res_state _ _ _ _ Hroom)).
    rewrite Hpartial, bind_Ok. cbv zeta in Hremaining. rewrite (Hremaining o fuel) by lia. rewrite bind_Ok.
    rewrite (iterative_reference auth_rules fetch Hstore rest _ (res_rules _ _ _ _ Hroom) (res_state _ _ _ _ Hroom)).
    by rewrite Hresolved, bind_Ok.
Qed.

End Correct.

(** C1: state resolution gives the state the specification describes: what the
    forks agree on; and for what they contest, the power events of the full
    conflicted set in the smallest reverse topological power ordering and then
    the other events in mainline ordering, applied one by one where the rules
    allow them.  It terminates without an error, with one and the same result
    for every order of the forks and their auth chains, every hash order, every
    completion order of the fetches and every stream width. *)
Theorem resolve_correct `{Ruma, Usize, TypeOrder} (debug : bool) (rules : RoomVersionRules)
    (fetch : FetchEvent) (exists_ : string → bool) (hydra_backports : bool)
    (state_maps : list StateMap) (auth_sets : list AuthSet)
    (Hroom : resolvable rules fetch state_maps auth_sets) :
  ∃ result, resolution rules fetch exists_ hydra_backports state_maps auth_sets result ∧
    ∃ enough, ∀ (o : HashOrder) width fuel maps sets,
      (∀ i, (1 ≤ width i)%nat) → (debug = true → ∀ i j, width i = width j) → (enough ≤ fuel)%nat →
      maps ≡ₚ state_maps → sets ≡ₚ auth_sets →
      resolve debug fuel width rules maps sets fetch exists_ hydra_backports = Ok result.
Proof. by apply resolve_spec. Qed.

Lemma power_chain_in_set `{Ruma} fetch set id : in_power_chain fetch set id → id ∈ set.
Proof.
  intros (root & Hroot & Hchain). apply rtc_inv_r in Hchain as [<-|(y & _ & Hy)]; [apply Hroot|].
  by eapply conflicted_auth_set.
Qed.

Lemma resolution_entries `{Ruma} rules fetch exists_ hydra_backports state_maps auth_sets result :
  resolution rules fetch exists_ hydra_backports state_maps auth_sets result →
  (∀ k id, agreed state_maps k id → result !! k = Some id) ∧
  ∀ k id, result !! k = Some id →
    agreed state_maps k id ∨
    (∃ id, contested state_maps id) ∧ applied (authorization rules) fetch k id ∧
    ∃ contest, (∀ id, id ∈ contest ↔ contested state_maps id) ∧
      in_full_set rules fetch exists_ hydra_backports state_maps auth_sets contest id.
Proof.
  destruct 1 as [u Hno Hu|u contest set power partial line rest resolved Hsome Hu Hcon Hset Hpow _ Hrun1 _ Hrest Hrun2].
  { split; intros k id; [by intros ?%Hu|by intros ?%Hu; left]. }
  split; intros k id.
  - intros Hk%Hu. by apply lookup_union_Some_l.
  - intros [Hk|[Hn Hk]]%lookup_union_Some_raw; [left; by apply Hu|].
    assert (Hin : ∀ l : list string, (∀ x, x ∈ l → x ∈ set) → id ∈ l ∧ applied (authorization rules) fetch k id →
      agreed state_maps k id ∨ (∃ id, contested state_maps id) ∧ applied (authorization rules) fetch k id ∧
      ∃ contest, (∀ id, id ∈ contest ↔ contested state_maps id) ∧
        in_full_set rules fetch exists_ hydra_backports state_maps auth_sets contest id).
    { intros l Hl [Hid Ha]. right. split_and!; [done|done|]. exists contest. split; [done|]. by apply Hset, Hl. }
    destruct (reference_run_entries _ _ _ _ _ Hrun2 k id Hk) as [Hk'|Hk'].
    + destruct (reference_run_entries _ _ _ _ _ Hrun1 k id Hk') as [Hk2|Hk2].
      * destruct (from_empty _ _); [by rewrite lookup_empty in Hk2|]. left. by apply Hu.
      * apply (Hin power); [|done]. intros x Hx. apply Hpow in Hx as [Hc _]. by apply power_chain_in_set in Hc.
    + apply (Hin rest); [|done]. intros x Hx. by apply Hrest in Hx as [[? _] _].
Qed.


(** ** The forked room *)

Definition fork_rules : RoomVersionRules := mkRoomVersionRules rules_v10 (Some (mkV2Rules false false)).

Definition fork_maps : list StateMap :=
  let common := [((ROOM_CREATE, ""), "$create"); ((ROOM_MEMBER, alice), "$a"); ((ROOM_JOIN_RULES, ""), "$j")] in
  [list_to_map (((ROOM_POWER_LEVELS, ""), "$p2") :: ((ROOM_MEMBER, bob), "$b") :: (("m.room.topic", ""), "$t2") :: common);
   list_to_map (((ROOM_POWER_LEVELS, ""), "$p1") :: ((ROOM_MEMBER, bob), "$ban") :: (("m.room.topic", ""), "$t1") :: common)]%string.

Definition fork_sets : list AuthSet :=
  [["$create"; "$a"; "$p1"; "$j"; "$p2"]; ["$create"; "$a"; "$p1"; "$j"; "$b"]]%string.

Definition fork_exists (id : string) : bool := bool_decide (id ∈ fork_ids).

Lemma fork_found id : is_Some (found fork_fetch id) ↔ id ∈ fork_ids.
Proof.
  split.
  - intros [ev Hf]. apply found_fetch in Hf.
    destruct (fetch_id_cases fork_events id) as [(ev' & Hf' & <- & Hin)|(e & Hf' & _)];
      unfold fork_fetch in Hf; rewrite Hf in Hf'; [|done]. by apply list_elem_of_fmap_2.
  - intros Hin. assert (Hall : Forall (λ id, is_Some (found fork_fetch id)) fork_ids).
    { apply (bool_decide_unpack _). by vm_compute. }
    rewrite Forall_forall in Hall. by apply Hall.
Qed.

Lemma fork_resolvable : resolvable fork_rules fork_fetch fork_maps fork_sets.
Proof.
  split.
  - apply fetch_id_store.
  - apply fork_acyclic.
  - intros id ev a Hf Ha. apply fork_found.
    assert (Hall : Forall (λ e, Forall (λ a, a ∈ fork_ids) (auth_events e)) fork_events).
    { apply (bool_decide_unpack _). by vm_compute. }
    destruct (fetch_id_cases fork_events id) as [(ev' & Hf' & _ & Hin)|(e & Hf' & _)];
      unfold fork_fetch in Hf; rewrite Hf in Hf'; [|done]. injection Hf' as ->.
    rewrite Forall_forall in Hall. specialize (Hall ev' Hin). rewrite Forall_forall in Hall. by apply Hall.
  - apply fork_auth_state.
  - intros id Hf. cbn [authorization fork_rules]. by rewrite (fork_levels id Hf).
  - exists fork_ids. split; [by vm_compute|]. intros id. apply fork_found.
  - intros m k id Hm Hk. apply fork_found.
    assert (Hall : Forall (λ m : StateMap, Forall (λ e, e.2 ∈ fork_ids) (map_to_list m)) fork_maps).
    { apply (bool_decide_unpack _). by vm_compute. }
    rewrite Forall_forall in Hall. specialize (Hall m Hm). rewrite Forall_forall in Hall.
    by apply (Hall (k, id)), elem_of_map_to_list.
  - by vm_compute.
  - by vm_compute.
  - apply (bool_decide_unpack _). by vm_compute.
  - done.
Qed.

(** The ban and the lower power levels prevail, and of the topics Alice's. *)
Lemma resolve_correct_witness :
  (∃ result enough, ∀ (o : HashOrder) fuel, (enough ≤ fuel)%nat →
     @resolve _ usize_64 _ o true fuel (λ _, 3%nat) fork_rules fork_maps fork_sets fork_fetch fork_exists true = Ok result) ∧
  match @resolve _ usize_64 _ reversed true 200 (λ _, 3%nat) fork_rules fork_maps fork_sets fork_fetch fork_exists false with
  | Ok result => result !! (ROOM_MEMBER, bob) = Some "$ban" ∧ result !! (ROOM_POWER_LEVELS, "") = Some "$p2" ∧
                 result !! ("m.room.topic", "") = Some "$t2"
  | _ => False
  end%string.
Proof.
  split; [|by vm_compute].
  destruct (@resolve_correct _ usize_64 _ true fork_rules fork_fetch fork_exists true fork_maps fork_sets)
    as (result & _ & enough & Hrun).
  - apply fork_resolvable.
  - exists result, enough. intros o fuel Hf. by apply Hrun; [lia|..].
Defined.

