(* ===== verification/Pack.v ===== *)
(** * Pack: the binary pack of the wbf wire protocol (src/core/wbf/pack.rs)

    One pack is a fixed 16-byte header, a variable meta section and a variable
    data section, each followed by a CRC-32C.  The file models the message
    kinds, the flag bits, the builder that assembles a pack and the decoder
    that reads one back, with every slice, index and [usize] addition of the
    source written out so that a run that would abort is the value [Panic].

    The checksum is the third-party crate crc32c and JSON is serde_json: both
    are arguments.  What the theorems use of the checksum is that it is a
    function into [u32]. *)

From S2P Require Import Prelude.

Definition VERSION : Z := 1.
Definition HEADER_LEN : Z := 16.
Definition OVERHEAD : Z := HEADER_LEN + 4 + 4 + 4 + 4.
Definition TRAILER_LEN : Z := OVERHEAD - HEADER_LEN.

Inductive Kind :=
| Control | Stream | Upload | Download | Invite
| Session | Account | Sync | Room | Event | Receipt | Device | Keys | Push
| Media | Search_ | Voip | Misc | Report | Admin.

#[global] Instance Kind_eq_dec : EqDecision Kind.
Proof. solve_decision. Defined.

(** [kind as u8] *)
Definition kind_byte (k : Kind) : Z :=
  match k with
  | Control => 0x01 | Stream => 0x02 | Upload => 0x03 | Download => 0x04
  | Invite => 0x05 | Session => 0x10 | Account => 0x11 | Sync => 0x12
  | Room => 0x13 | Event => 0x14 | Receipt => 0x15 | Device => 0x16
  | Keys => 0x17 | Push => 0x18 | Media => 0x19 | Search_ => 0x1A
  | Voip => 0x1B | Misc => 0x1C | Report => 0x1D | Admin => 0x20
  end.

Inductive PackError :=
| TooShort (len : Z)
| UnsupportedVersion (version : Z)
| UnknownKind (byte : Z)
| ReservedFlags (bits : Z)
| Truncated (needed len : Z)
| TrailingBytes (expected len : Z)
| MetaCrc (expected actual : Z)
| DataCrc (expected actual : Z)
| MetaNotJson
| SectionTooLarge (len : Z)
| DataAlreadyReserved.

#[global] Instance PackError_eq_dec : EqDecision PackError.
Proof. solve_decision. Defined.

(** [impl TryFrom<u8> for Kind] *)
Definition Kind_try_from (byte : Z) : Result PackError Kind :=
  match byte with
  | 0x01 => Ok Control | 0x02 => Ok Stream | 0x03 => Ok Upload
  | 0x04 => Ok Download | 0x05 => Ok Invite | 0x10 => Ok Session
  | 0x11 => Ok Account | 0x12 => Ok Sync | 0x13 => Ok Room
  | 0x14 => Ok Event | 0x15 => Ok Receipt | 0x16 => Ok Device
  | 0x17 => Ok Keys | 0x18 => Ok Push | 0x19 => Ok Media
  | 0x1A => Ok Search_ | 0x1B => Ok Voip | 0x1C => Ok Misc
  | 0x1D => Ok Report | 0x20 => Ok Admin
  | unknown => Err (UnknownKind unknown)
  end.

(** The flags byte, [struct Flags(u8)]. *)
Record Flags := mkFlags { flag_bits : Z }.

Definition META_ENCRYPTED : Flags := mkFlags 0x01.
Definition WANT_ACK : Flags := mkFlags 0x02.
Definition IS_RESPONSE : Flags := mkFlags 0x04.
Definition IS_LAST : Flags := mkFlags 0x08.
Definition IS_BRIDGED : Flags := mkFlags 0x10.
Definition KNOWN : Z := 0x1F.

Definition contains (self other : Flags) : bool :=
  Z.land (flag_bits self) (flag_bits other) =? flag_bits other.
Definition union (self other : Flags) : Flags :=
  mkFlags (Z.lor (flag_bits self) (flag_bits other)).
Definition is_meta_encrypted (self : Flags) : bool := contains self META_ENCRYPTED.
Definition wants_ack (self : Flags) : bool := contains self WANT_ACK.
Definition is_response (self : Flags) : bool := contains self IS_RESPONSE.
Definition is_last (self : Flags) : bool := contains self IS_LAST.
Definition is_bridged (self : Flags) : bool := contains self IS_BRIDGED.

(** [self.0 & !Self::KNOWN != 0], the complement taken on [u8]. *)
Definition has_reserved_bits (self : Flags) : bool :=
  negb (Z.land (flag_bits self) (Z.lxor u8_max KNOWN) =? 0).

Record PackHeader := mkHeader {
  h_version : Z;
  h_kind : Kind;
  h_subtype : Z;
  h_flags : Flags;
  h_id : Z;
  h_seq : Z
}.

Record PackView := mkView {
  v_header : PackHeader;
  v_meta : list Z;
  v_data : list Z
}.

(** [PackView::meta_json], the JSON reader of serde_json an argument. *)
Definition meta_json {J} (from_slice : list Z → option J) (v : PackView)
  : Result PackError J := ok_or (from_slice (v_meta v)) MetaNotJson.

Record PackBuilder := mkBuilder {
  buf : list Z;
  meta_end : Z;
  data_start : option Z
}.

(** [PackBuilder::new] *)
Definition new (kind : Kind) (subtype : Z) (flags : Flags) (id seq : Z) : PackBuilder :=
  mkBuilder
    ([VERSION] ++ [kind_byte kind] ++ [subtype] ++ [flag_bits flags]
       ++ be_bytes 8 id ++ be_bytes 4 seq ++ be_bytes 4 0)
    (HEADER_LEN + 4) None.

(** [PackBuilder::meta] *)
Definition meta (self : PackBuilder) (m : list Z) : Result PackError PackBuilder :=
  _ ← reject_if (bool_decide (is_Some (data_start self))) DataAlreadyReserved;
  len ← u32_try_from (zlen m) (SectionTooLarge (zlen m));
  let b := take (Z.to_nat HEADER_LEN) (buf self) in
  let b := b ++ be_bytes 4 len in
  let b := b ++ m in
  Ok (mkBuilder b (zlen b) (data_start self)).

(** [PackBuilder::json_meta], the JSON writer an argument. *)
Definition json_meta {J} (to_vec : J → option (list Z)) (self : PackBuilder) (j : J)
  : Result PackError PackBuilder :=
  bytes ← ok_or (to_vec j) MetaNotJson;
  meta self bytes.

(** [PackBuilder::data_slot]: reserves [len] zero bytes.  The capacity asked
    of [Vec::reserve] is a [usize] sum, and a [Vec] longer than [isize::MAX]
    aborts. *)
Definition data_slot `{Usize} (self : PackBuilder) (len : Z) : Result PackError PackBuilder :=
  _ ← reject_if (bool_decide (is_Some (data_start self))) DataAlreadyReserved;
  len_field ← u32_try_from len (SectionTooLarge len);
  cap ← add_usize (4 + 4) len;
  cap ← add_usize cap 4;
  let b := buf self ++ replicate 4 0 in
  let b := b ++ be_bytes 4 len_field in
  let start := zlen b in
  stop ← add_usize start len;
  if stop <=? isize_max
  then Ok (mkBuilder (b ++ replicate (Z.to_nat len) 0) (meta_end self) (Some start))
  else Panic.

(** What a caller does with the slice [data_slot] hands out: [copy_from_slice]
    panics when the lengths differ. *)
Definition fill_slot (self : PackBuilder) (bytes : list Z) : Result PackError PackBuilder :=
  match data_start self with
  | Some start =>
      if zlen (buf self) - start =? zlen bytes
      then Ok (mkBuilder (patch (buf self) start bytes) (meta_end self) (data_start self))
      else Panic
  | None => Panic
  end.

(** [PackBuilder::data] *)
Definition data `{Usize} (self : PackBuilder) (d : list Z) : Result PackError PackBuilder :=
  b ← data_slot self (zlen d);
  fill_slot b d.

Section WithCrc.
Context `{!Usize} (crc32c : list Z → Z).

(** [PackBuilder::finish] *)
Definition finish (self : PackBuilder) : Result PackError (list Z) :=
  let '(b, data_start) :=
    match data_start self with
    | Some start => (buf self, start)
    | None =>
        let b := buf self ++ replicate 4 0 in
        let b := b ++ be_bytes 4 0 in
        (b, zlen b)
    end in
  head ← slice b 0 (meta_end self);
  let meta_crc := crc32c head in
  crc_end ← add_usize (meta_end self) 4;
  _ ← slice b (meta_end self) crc_end;
  let b := patch b (meta_end self) (be_bytes 4 meta_crc) in
  body ← slice b data_start (zlen b);
  let data_crc := crc32c body in
  Ok (b ++ be_bytes 4 data_crc).

Definition read_u32 (bytes : list Z) (at_ : Z) : Result PackError Z :=
  at_4 ← add_usize at_ 4;
  s ← slice bytes at_ at_4;
  Ok (from_be s).

(** The second half of [decode], from the first length field on: the two
    variable sections of a pack whose fixed header has been read. *)
Definition decode_sections (bytes : list Z) (version : Z) (kind : Kind) (subtype : Z)
    (flags : Flags) (id seq : Z) : Result PackError PackView :=
  let len := zlen bytes in
  meta_len ← read_u32 bytes HEADER_LEN;
  _ ← reject_if (len <? meta_len) (Truncated (sat_add meta_len OVERHEAD) len);
  let meta_start := HEADER_LEN + 4 in
  meta_end ← add_usize meta_start meta_len;
  data_len_at ← add_usize meta_end 4;
  data_len_end ← add_usize data_len_at 4;
  _ ← reject_if (len <? data_len_end) (Truncated data_len_end len);
  meta_crc_expected ← read_u32 bytes meta_end;
  head ← slice bytes 0 meta_end;
  let meta_crc_actual := crc32c head in
  _ ← reject_if (negb (meta_crc_expected =? meta_crc_actual))
        (MetaCrc meta_crc_expected meta_crc_actual);
  data_len ← read_u32 bytes data_len_at;
  _ ← reject_if (len <? data_len) (Truncated (sat_add data_len OVERHEAD) len);
  data_start ← add_usize data_len_at 4;
  data_end ← add_usize data_start data_len;
  total ← add_usize data_end 4;
  _ ← reject_if (len <? total) (Truncated total len);
  _ ← reject_if (total <? len) (TrailingBytes total len);
  data_crc_expected ← read_u32 bytes data_end;
  body ← slice bytes data_start data_end;
  let data_crc_actual := crc32c body in
  _ ← reject_if (negb (data_crc_expected =? data_crc_actual))
        (DataCrc data_crc_expected data_crc_actual);
  before_data ← slice bytes 0 data_start;
  from_data ← slice bytes data_start len;
  m ← slice before_data meta_start meta_end;
  d ← slice from_data 0 data_len;
  Ok (mkView (mkHeader version kind subtype flags id seq) m d).

(** [decode] *)
Definition decode (bytes : list Z) : Result PackError PackView :=
  let len := zlen bytes in
  _ ← reject_if (len <? OVERHEAD) (TooShort len);
  version ← index bytes 0;
  _ ← reject_if (negb (version =? VERSION)) (UnsupportedVersion version);
  kind_b ← index bytes 1;
  kind ← Kind_try_from kind_b;
  subtype ← index bytes 2;
  flags_b ← index bytes 3;
  let flags := mkFlags flags_b in
  _ ← reject_if (has_reserved_bits flags) (ReservedFlags (flag_bits flags));
  id_b ← slice bytes 4 12;
  let id := from_be id_b in
  seq_b ← slice bytes 12 16;
  let seq := from_be seq_b in
  decode_sections bytes version kind subtype flags id seq.

End WithCrc.

(** ** The layout the module comment draws *)

Record Pack := mkPack {
  p_kind : Kind;
  p_subtype : Z;
  p_flags : Flags;
  p_id : Z;
  p_seq : Z;
  p_meta : list Z;
  p_data : list Z
}.

Definition pack_ok (p : Pack) : Prop :=
  u8 (p_subtype p) ∧ u8 (flag_bits (p_flags p)) ∧ has_reserved_bits (p_flags p) = false ∧
  u64 (p_id p) ∧ u32 (p_seq p) ∧ bytes_ok (p_meta p) ∧ bytes_ok (p_data p) ∧
  zlen (p_meta p) ≤ u32_max ∧ zlen (p_data p) ≤ u32_max.

Definition header_bytes (p : Pack) : list Z :=
  [VERSION; kind_byte (p_kind p); p_subtype p; flag_bits (p_flags p)]
    ++ be_bytes 8 (p_id p) ++ be_bytes 4 (p_seq p).

Definition meta_part (p : Pack) : list Z :=
  header_bytes p ++ be_bytes 4 (zlen (p_meta p)) ++ p_meta p.

Definition layout (crc32c : list Z → Z) (p : Pack) : list Z :=
  meta_part p ++ be_bytes 4 (crc32c (meta_part p))
    ++ be_bytes 4 (zlen (p_data p)) ++ p_data p ++ be_bytes 4 (crc32c (p_data p)).

Definition view_of (p : Pack) : PackView :=
  mkView (mkHeader VERSION (p_kind p) (p_subtype p) (p_flags p) (p_id p) (p_seq p))
    (p_meta p) (p_data p).

(** What [PackBuilder::new(..).meta(..)?.data(..)?.finish()] returns. *)
Definition build `{Usize} (crc32c : list Z → Z) (p : Pack) : Result PackError (list Z) :=
  b ← meta (new (p_kind p) (p_subtype p) (p_flags p) (p_id p) (p_seq p)) (p_meta p);
  b ← data b (p_data p);
  finish crc32c b.

Definition pack_len (p : Pack) : Z := OVERHEAD + zlen (p_meta p) + zlen (p_data p).

(** ** How the decoder reads a buffer already cut at its field boundaries *)

Ltac list_eq := rewrite <-?app_assoc; simpl; rewrite <-?app_assoc; reflexivity.

Lemma read_u32_mid `{Usize} l l1 m l2 a :
  l = l1 ++ m ++ l2 → a = zlen l1 → zlen m = 4 → zlen l ≤ isize_max →
  read_u32 l a = Ok (from_be m).
Proof.
  intros -> -> Hm Hl. unfold read_u32.
  rewrite add_usize_Ok by
    (autorewrite with zlen in Hl; pose proof (zlen_nonneg l2); usize_lia).
  rewrite bind_Ok.
  by erewrite slice_mid by (reflexivity || lia).
Qed.

Lemma add_usize_len `{Usize} {E A} (l : list A) a b :
  zlen l ≤ isize_max → a + b ≤ zlen l → add_usize (E := E) a b = Ok (a + b).
Proof.
  intros. apply add_usize_Ok. usize_lia.
Qed.

Section Reading.
Context `{!Usize} (crc32c : list Z → Z).

(** The fixed header of a buffer of at least [OVERHEAD] bytes. *)
Lemma decode_fixed v k s f idb sqb rest (l := [v; k; s; f] ++ idb ++ sqb ++ rest) :
  zlen idb = 8 → zlen sqb = 4 → OVERHEAD ≤ zlen l →
  decode crc32c l =
    (_ ← reject_if (negb (v =? VERSION)) (UnsupportedVersion v);
     kind ← Kind_try_from k;
     _ ← reject_if (has_reserved_bits (mkFlags f)) (ReservedFlags f);
     decode_sections crc32c l v kind s (mkFlags f) (from_be idb) (from_be sqb)).
Proof.
  intros Hid Hsq Hlen. unfold decode.
  rewrite reject_if_bind, (proj2 (Z.ltb_ge _ _)) by lia.
  change (index l 0) with (Ok (E := PackError) v).
  change (index l 1) with (Ok (E := PackError) k).
  change (index l 2) with (Ok (E := PackError) s).
  change (index l 3) with (Ok (E := PackError) f). rewrite !bind_Ok.
  rewrite (slice_mid l [v; k; s; f] idb (sqb ++ rest) 4 12) by (list_eq || zl).
  rewrite (slice_mid l ([v; k; s; f] ++ idb) sqb rest 12 16) by (list_eq || zl).
  done.
Qed.

Variables (hd mlb : list Z).
Hypotheses (Hhd : zlen hd = 16) (Hmlb : zlen mlb = 4) (Hmlb_ok : bytes_ok mlb).

(** Too few bytes for the meta section the length field announces. *)
Lemma sections_meta_truncated rest v kind s f id sq (l := hd ++ mlb ++ rest) :
  zlen l ≤ isize_max → zlen rest < from_be mlb + 8 →
  ∃ needed, decode_sections crc32c l v kind s f id sq = Err (Truncated needed (zlen l)).
Proof.
  intros Hmax Hrest. unfold decode_sections.
  rewrite (read_u32_mid l hd mlb rest) by (list_eq || (unfold HEADER_LEN; zl)).
  rewrite bind_Ok, reject_if_bind. pose proof (from_be_bound _ Hmlb_ok) as Hb.
  destruct (Z.ltb_spec (zlen l) (from_be mlb)); [by eexists|].
  rewrite (add_usize_Ok (HEADER_LEN + 4)) by (unfold HEADER_LEN; usize_lia).
  rewrite bind_Ok, add_usize_Ok by (unfold HEADER_LEN; usize_lia).
  rewrite bind_Ok, add_usize_Ok by (unfold HEADER_LEN; usize_lia).
  rewrite bind_Ok, reject_if_bind, (proj2 (Z.ltb_lt _ _)); [by eexists|].
  subst l. unfold HEADER_LEN. zl.
Qed.
(** A meta section that is all there: its checksum decides, then the data
    length field is compared with what is left of the buffer. *)
Variables (m mcb dlb rest : list Z).
Hypotheses (Hm : zlen m = from_be mlb) (Hmcb : zlen mcb = 4) (Hdlb : zlen dlb = 4)
  (Hdlb_ok : bytes_ok dlb).
Let head := hd ++ mlb ++ m.
Let l := head ++ mcb ++ dlb ++ rest.

Lemma sections_after_meta v kind s f id sq :
  2 * zlen l + 4 ≤ usize_max → zlen l ≤ isize_max →
  let at_ := 28 + zlen m in
  decode_sections crc32c l v kind s f id sq =
    (_ ← reject_if (negb (from_be mcb =? crc32c head)) (MetaCrc (from_be mcb) (crc32c head));
     _ ← reject_if (zlen l <? from_be dlb) (Truncated (sat_add (from_be dlb) OVERHEAD) (zlen l));
     _ ← reject_if (zlen rest <? from_be dlb + 4) (Truncated (at_ + from_be dlb + 4) (zlen l));
     _ ← reject_if (from_be dlb + 4 <? zlen rest) (TrailingBytes (at_ + from_be dlb + 4) (zlen l));
     data_crc_expected ← read_u32 l (at_ + from_be dlb);
     body ← slice l at_ (at_ + from_be dlb);
     _ ← reject_if (negb (data_crc_expected =? crc32c body))
           (DataCrc data_crc_expected (crc32c body));
     from_data ← slice l at_ (zlen l);
     d ← slice from_data 0 (from_be dlb);
     Ok (mkView (mkHeader v kind s f id sq) m d)).
Proof.
  intros Hsum Hmax at_. pose proof (from_be_bound _ Hmlb_ok). pose proof (from_be_bound _ Hdlb_ok).
  assert (Hl : zlen l = 28 + zlen m + zlen rest) by (unfold l, head; zl).
  pose proof (zlen_nonneg m). pose proof (zlen_nonneg rest).
  assert (Hadd : ∀ a b, a + b ≤ zlen l → add_usize (E := PackError) a b = Ok (a + b)).
  { intros. apply (add_usize_len l); lia. }
  assert (Hl1 : l = hd ++ mlb ++ m ++ mcb ++ dlb ++ rest) by (unfold l, head; list_eq).
  assert (Hl2 : l = (head ++ mcb) ++ dlb ++ rest) by (unfold l; list_eq).
  assert (Hhead : zlen head = 20 + zlen m) by (unfold head; zl).
  unfold decode_sections, HEADER_LEN.
  rewrite (read_u32_mid l hd mlb (m ++ mcb ++ dlb ++ rest) 16) by (done || lia).
  rewrite bind_Ok, reject_if_bind, (proj2 (Z.ltb_ge _ _)) by lia.
  rewrite <- Hm. do 3 (rewrite Hadd, bind_Ok by lia).
  rewrite reject_if_bind, (proj2 (Z.ltb_ge _ _)) by lia.
  rewrite (read_u32_mid l head mcb (dlb ++ rest) (16 + 4 + zlen m)) by (done || lia).
  rewrite bind_Ok, (slice_mid l [] head (mcb ++ dlb ++ rest) 0) by (done || lia).
  rewrite bind_Ok. destruct (negb _); [done|]. simpl reject_if. rewrite !bind_Ok.
  rewrite (read_u32_mid l (head ++ mcb) dlb rest) by (done || zl).
  rewrite !bind_Ok. replace (16 + 4 + zlen m + 4 + 4) with at_ by lia.
  rewrite !reject_if_bind. destruct (Z.ltb_spec (zlen l) (from_be dlb)); [done|].
  rewrite add_usize_Ok, bind_Ok, add_usize_Ok, bind_Ok by lia. rewrite !reject_if_bind.
  replace (zlen l <? at_ + from_be dlb + 4) with (zlen rest <? from_be dlb + 4)
    by (destruct (Z.ltb_spec (zlen rest) (from_be dlb + 4)); symmetry;
        [apply Z.ltb_lt | apply Z.ltb_ge]; lia).
  replace (at_ + from_be dlb + 4 <? zlen l) with (from_be dlb + 4 <? zlen rest)
    by (destruct (Z.ltb_spec (from_be dlb + 4) (zlen rest)); symmetry;
        [apply Z.ltb_lt | apply Z.ltb_ge]; lia).
  destruct (Z.ltb_spec (zlen rest) (from_be dlb + 4)); [done|].
  destruct (from_be dlb + 4 <? zlen rest); [done|].
  destruct (read_u32 l _); [|done..]. rewrite !bind_Ok.
  destruct (slice l at_ (at_ + from_be dlb)) as [body| |]; [|done..]. rewrite !bind_Ok, !reject_if_bind.
  destruct (negb _); [done|].
  rewrite (slice_mid l [] (head ++ mcb ++ dlb) rest 0 at_) by (try zl; unfold l; list_eq).
  rewrite bind_Ok. destruct (slice l at_ (zlen l)); [|done..]. rewrite !bind_Ok.
  rewrite (slice_mid (head ++ mcb ++ dlb) (hd ++ mlb) m (mcb ++ dlb) (16 + 4))
    by (try zl; unfold head; list_eq).
  done.
Qed.

(** The whole pack is there: the data checksum decides. *)
Lemma sections_after_data v kind s f id sq d dcb :
  2 * zlen l + 4 ≤ usize_max → zlen l ≤ isize_max →
  rest = d ++ dcb → zlen d = from_be dlb → zlen dcb = 4 →
  decode_sections crc32c l v kind s f id sq =
    (_ ← reject_if (negb (from_be mcb =? crc32c head)) (MetaCrc (from_be mcb) (crc32c head));
     _ ← reject_if (negb (from_be dcb =? crc32c d)) (DataCrc (from_be dcb) (crc32c d));
     Ok (mkView (mkHeader v kind s f id sq) m d)).
Proof.
  intros Hsum Hmax Hrest Hd Hdcb. rewrite sections_after_meta by done.
  assert (Hl : l = (head ++ mcb ++ dlb) ++ d ++ dcb) by (unfold l; rewrite Hrest; list_eq).
  assert (Hpre : zlen (head ++ mcb ++ dlb) = 28 + zlen m) by (unfold head; zl).
  assert (Hll : zlen l = 28 + zlen m + zlen d + 4) by (rewrite Hl; zl).
  pose proof (zlen_nonneg m).
  assert (zlen rest = zlen d + 4) as -> by (rewrite Hrest; zl). rewrite <- Hd.
  rewrite (proj2 (Z.ltb_ge (zlen l) (zlen d))) by lia. rewrite !Z.ltb_irrefl. simpl reject_if.
  rewrite !bind_Ok. destruct (negb _); [done|]. simpl reject_if. rewrite !bind_Ok.
  rewrite (read_u32_mid l ((head ++ mcb ++ dlb) ++ d) dcb []) by
    (try zl; rewrite Hl, app_nil_r; list_eq).
  rewrite bind_Ok, (slice_mid l (head ++ mcb ++ dlb) d dcb (28 + zlen m) (28 + zlen m + zlen d)) by (done || lia).
  rewrite bind_Ok. destruct (negb (from_be dcb =? _)); [done|]. simpl reject_if.
  rewrite bind_Ok, (slice_mid l (head ++ mcb ++ dlb) (d ++ dcb) [] (28 + zlen m) (zlen l)) by
    (try zl; by rewrite app_nil_r).
  rewrite bind_Ok, (slice_mid (d ++ dcb) [] d dcb 0 (zlen d)) by (done || lia). done.
Qed.
End Reading.

(** ** Every buffer is either refused or the layout of one pack *)

(** Buffers for which no sum of two lengths overflows [usize]: on a 64-bit
    target every slice there can be, on a 32-bit one every slice up to two
    bytes short of the largest. *)
Definition buffer_fits `{Usize} (n : Z) : Prop := 2 * n + 4 ≤ usize_max.

Lemma buffer_fits_isize `{Usize} n : buffer_fits n → n ≤ isize_max.
Proof. unfold buffer_fits. intros. usize_lia. Qed.

Lemma kind_byte_try_from b k : Kind_try_from b = Ok k → b = kind_byte k.
Proof.
  unfold Kind_try_from. intros H.
  repeat (case_match; try discriminate H; try (injection H as <-; reflexivity)).
Qed.

Lemma Kind_try_from_kind_byte k : Kind_try_from (kind_byte k) = Ok k.
Proof. by destruct k. Qed.

Lemma Kind_try_from_total b : Kind_try_from b = Err (UnknownKind b) ∨ ∃ k, Kind_try_from b = Ok k.
Proof. unfold Kind_try_from. repeat case_match; eauto. Qed.

Lemma cut_header (bytes : list Z) :
  OVERHEAD ≤ zlen bytes →
  ∃ v k s f idb sqb mlb rest,
    bytes = [v; k; s; f] ++ idb ++ sqb ++ mlb ++ rest ∧
    zlen idb = 8 ∧ zlen sqb = 4 ∧ zlen mlb = 4.
Proof.
  unfold OVERHEAD, HEADER_LEN. intros Hlen.
  destruct bytes as [|v [|k [|s [|f r]]]]; autorewrite with zlen in Hlen; try lia.
  destruct (split_at r 8) as (idb & r1 & -> & ?); [lia|]. autorewrite with zlen in Hlen.
  destruct (split_at r1 4) as (sqb & r2 & -> & ?); [lia|]. autorewrite with zlen in Hlen.
  destruct (split_at r2 4) as (mlb & rest & -> & ?); [lia|].
  by exists v, k, s, f, idb, sqb, mlb, rest.
Qed.

Lemma cut_sections (rest : list Z) n :
  0 ≤ n → n + 8 ≤ zlen rest →
  ∃ m mcb dlb rest', rest = m ++ mcb ++ dlb ++ rest' ∧ zlen m = n ∧ zlen mcb = 4 ∧ zlen dlb = 4.
Proof.
  intros Hn Hlen.
  destruct (split_at rest n) as (m & r1 & -> & ?); [lia|]. autorewrite with zlen in Hlen.
  destruct (split_at r1 4) as (mcb & r2 & -> & ?); [lia|]. autorewrite with zlen in Hlen.
  destruct (split_at r2 4) as (dlb & rest' & -> & ?); [lia|].
  by exists m, mcb, dlb, rest'.
Qed.

Lemma be_bytes_4 bs x : bytes_ok bs → zlen bs = 4 → from_be bs = x → bs = be_bytes 4 x.
Proof.
  intros Hok Hlen <-. symmetry. apply be_bytes_from_be; [done|]. unfold zlen in Hlen. lia.
Qed.

Lemma from_be_u bs n : bytes_ok bs → zlen bs = Z.of_nat n → 0 ≤ from_be bs < 2 ^ (8 * Z.of_nat n).
Proof. intros Hok <-. by apply from_be_bound. Qed.

Section Cases.
Context `{!Usize} (crc32c : list Z → Z).

Lemma sections_cases hd mlb rest v kind s f id sq (l := hd ++ mlb ++ rest) :
  bytes_ok l → buffer_fits (zlen l) → zlen hd = 16 → zlen mlb = 4 →
  (∃ e, decode_sections crc32c l v kind s f id sq = Err e) ∨
  ∃ m d, l = (hd ++ be_bytes 4 (zlen m) ++ m) ++ be_bytes 4 (crc32c (hd ++ be_bytes 4 (zlen m) ++ m))
              ++ be_bytes 4 (zlen d) ++ d ++ be_bytes 4 (crc32c d) ∧
    zlen m ≤ u32_max ∧ zlen d ≤ u32_max ∧
    decode_sections crc32c l v kind s f id sq = Ok (mkView (mkHeader v kind s f id sq) m d).
Proof.
  intros Hok Hfit Hhd Hmlb. pose proof (buffer_fits_isize _ Hfit).
  subst l. apply Forall_app in Hok as [Hhd_ok [Hmlb_ok Hrest_ok]%Forall_app].
  pose proof (from_be_u mlb 4 Hmlb_ok Hmlb) as Hmb.
  destruct (Z.lt_ge_cases (zlen rest) (from_be mlb + 8)) as [Hs|Hs].
  { left. edestruct (sections_meta_truncated crc32c hd mlb Hhd Hmlb Hmlb_ok rest) as [n Hn];
      [done..|]. by exists (Truncated n (zlen (hd ++ mlb ++ rest))). }
  destruct (cut_sections rest (from_be mlb)) as (m & mcb & dlb & rest' & -> & Hm & Hmcb & Hdlb);
    [lia..|]. clear Hs.
  apply Forall_app in Hrest_ok as [Hm_ok [Hmcb_ok [Hdlb_ok Hr_ok]%Forall_app]%Forall_app].
  pose proof (from_be_u dlb 4 Hdlb_ok Hdlb) as Hdb.
  assert (hd ++ mlb ++ m ++ mcb ++ dlb ++ rest' = (hd ++ mlb ++ m) ++ mcb ++ dlb ++ rest')
    as Heq by list_eq. rewrite Heq in *.
  destruct (Z.eq_dec (zlen rest') (from_be dlb + 4)) as [Hr|Hr].
  - destruct (split_at rest' (from_be dlb)) as (d & dcb & -> & Hd); [lia|].
    rewrite (sections_after_data crc32c hd mlb Hhd Hmlb Hmlb_ok m mcb dlb (d ++ dcb) Hm Hmcb
      Hdlb Hdlb_ok v kind s f id sq d dcb) by (done || zl).
    rewrite !reject_if_bind.
    destruct (Z.eqb_spec (from_be mcb) (crc32c (hd ++ mlb ++ m))) as [Hc1|]; [|by left; eexists].
    destruct (Z.eqb_spec (from_be dcb) (crc32c d)) as [Hc2|]; [|by left; eexists].
    right. exists m, d. apply Forall_app in Hr_ok as [_ Hdcb_ok].
    rewrite <- (be_bytes_4 mlb (zlen m)), <- (be_bytes_4 dlb (zlen d)),
      <- (be_bytes_4 mcb _ Hmcb_ok Hmcb Hc1), <- (be_bytes_4 dcb _ Hdcb_ok) by (done || zl).
    change (2 ^ (8 * Z.of_nat 4)) with 4294967296 in *.
    split_and!; [done|unfold u32_max; lia|unfold u32_max; lia|done].
  - left. rewrite (sections_after_meta crc32c hd mlb Hhd Hmlb Hmlb_ok m mcb dlb rest' Hm Hmcb
      Hdlb Hdlb_ok) by done.
    rewrite !reject_if_bind. do 2 (case_match; [by eexists|]).
    destruct (Z.ltb_spec (zlen rest') (from_be dlb + 4)); [by eexists|].
    destruct (Z.ltb_spec (from_be dlb + 4) (zlen rest')); [by eexists|lia].
Qed.

Lemma decode_cases bytes :
  bytes_ok bytes → buffer_fits (zlen bytes) →
  (∃ e, decode crc32c bytes = Err e) ∨
  ∃ p, pack_ok p ∧ bytes = layout crc32c p ∧ decode crc32c bytes = Ok (view_of p).
Proof.
  intros Hok Hfit.
  destruct (Z.lt_ge_cases (zlen bytes) OVERHEAD) as [Hs|Hs].
  { left. exists (TooShort (zlen bytes)). unfold decode.
    by rewrite reject_if_bind, (proj2 (Z.ltb_lt _ _)). }
  destruct (cut_header bytes Hs) as (v & k & s & f & idb & sqb & mlb & rest & -> & Hid & Hsq & Hml).
  rewrite (decode_fixed crc32c v k s f idb sqb (mlb ++ rest)) by done. rewrite reject_if_bind.
  destruct (Z.eqb_spec v VERSION) as [->|]; [|by left; eexists].
  destruct (Kind_try_from_total k) as [->|[kind Hk]]; [by left; eexists|].
  apply kind_byte_try_from in Hk as ->. rewrite Kind_try_from_kind_byte, bind_Ok, reject_if_bind.
  destruct (has_reserved_bits (mkFlags f)) eqn:Hf; [by left; eexists|].
  assert (zlen ([VERSION; kind_byte kind; s; f] ++ idb ++ sqb) = 16) as Hhd by zl.
  assert ([VERSION; kind_byte kind; s; f] ++ idb ++ sqb ++ mlb ++ rest =
    ([VERSION; kind_byte kind; s; f] ++ idb ++ sqb) ++ mlb ++ rest) as Heq by list_eq.
  rewrite Heq in *.
  destruct (sections_cases _ mlb rest VERSION kind s (mkFlags f) (from_be idb) (from_be sqb)
    Hok Hfit Hhd Hml) as [He|(m & d & Hl & Hm & Hd & ->)]; [by left|].
  right. exists (mkPack kind s (mkFlags f) (from_be idb) (from_be sqb) m d).
  rewrite Hl in Hok. apply Forall_app in Hok as [Hh [_ [_ [Hd_ok _]%Forall_app]%Forall_app]%Forall_app].
  apply Forall_app in Hh as [Hh [_ Hm_ok]%Forall_app].
  apply Forall_app in Hh as [Hh4 [Hid_ok Hsq_ok]%Forall_app].
  pose proof (from_be_u idb 8 Hid_ok Hid) as Hidb. pose proof (from_be_u sqb 4 Hsq_ok Hsq) as Hsqb.
  change (2 ^ (8 * Z.of_nat 4)) with 4294967296 in *.
  change (2 ^ (8 * Z.of_nat 8)) with 18446744073709551616 in *.
  repeat apply Forall_cons in Hh4 as [? Hh4].
  assert (idb = be_bytes 8 (from_be idb)) as Hidb' by
    (symmetry; apply be_bytes_from_be; [done|unfold zlen in Hid; lia]).
  split_and!; [|rewrite Hl; unfold layout, meta_part, header_bytes;
    cbn [p_kind p_subtype p_flags p_id p_seq p_meta p_data flag_bits]|done].
  - split_and!; simpl; try done; unfold u64, u32, u64_max, u32_max; lia.
  - rewrite <- Hidb', <- (be_bytes_4 sqb _ Hsq_ok Hsq eq_refl). list_eq.
Qed.
End Cases.

(** ** The builder writes the layout *)

Section Building.
Context `{!Usize} (crc32c : list Z → Z).

Lemma zlen_layout p : zlen (layout crc32c p) = pack_len p.
Proof. unfold layout, meta_part, header_bytes, pack_len, OVERHEAD, HEADER_LEN. zl. Qed.

Lemma zlen_meta_part p : zlen (meta_part p) = 20 + zlen (p_meta p).
Proof. unfold meta_part, header_bytes. zl. Qed.

Lemma meta_new p :
  zlen (p_meta p) ≤ u32_max →
  meta (new (p_kind p) (p_subtype p) (p_flags p) (p_id p) (p_seq p)) (p_meta p) =
    Ok (mkBuilder (meta_part p) (20 + zlen (p_meta p)) None).
Proof.
  intros Hm. unfold meta, u32_try_from. rewrite (proj2 (Z.leb_le _ _)) by done.
  rewrite <- (zlen_meta_part p).
  change (reject_if _ _) with (Ok (E := PackError) tt). rewrite !bind_Ok.
  unfold meta_part, header_bytes. cbn [buf new data_start]. do 2 f_equal.
Qed.

Lemma build_layout p :
  pack_ok p → buffer_fits (pack_len p) → build crc32c p = Ok (layout crc32c p).
Proof.
  intros (_ & _ & _ & _ & _ & _ & _ & Hm & Hd) Hfit.
  pose proof (buffer_fits_isize _ Hfit) as Hi. pose proof (zlen_layout p) as Hll.
  pose proof (zlen_meta_part p) as Hmp.
  pose proof (zlen_nonneg (p_meta p)). pose proof (zlen_nonneg (p_data p)).
  assert (Hadd : ∀ a b, a + b ≤ pack_len p → add_usize (E := PackError) a b = Ok (a + b)).
  { intros. apply (add_usize_len (layout crc32c p)); lia. }
  unfold pack_len, OVERHEAD, HEADER_LEN in *.
  unfold build. rewrite meta_new, bind_Ok by done. unfold data, data_slot.
  cbn [data_start buf meta_end]. unfold u32_try_from. rewrite (proj2 (Z.leb_le _ _)) by done.
  change (reject_if _ _) with (Ok (E := PackError) tt). rewrite !bind_Ok.
  rewrite (Hadd (4 + 4)), bind_Ok, Hadd, bind_Ok, Hadd, bind_Ok by zl.
  rewrite (proj2 (Z.leb_le _ _)) by zl. rewrite bind_Ok.
  set (pre := (meta_part p ++ replicate 4 0) ++ be_bytes 4 (zlen (p_data p))).
  unfold fill_slot. cbn [data_start buf meta_end].
  rewrite (proj2 (Z.eqb_eq _ _)) by (unfold pre; autorewrite with zlen; lia). rewrite bind_Ok.
  replace (pre ++ replicate (Z.to_nat (zlen (p_data p))) 0)
    with (pre ++ replicate (Z.to_nat (zlen (p_data p))) 0 ++ []) by (by rewrite app_nil_r).
  rewrite (patch_mid pre _ [] (p_data p)) by
    (rewrite ?length_replicate; unfold zlen; lia || done).
  rewrite app_nil_r. unfold finish. cbn [data_start buf meta_end].
  assert (Hpre : zlen pre = 28 + zlen (p_meta p)) by (unfold pre; autorewrite with zlen; lia).
  assert (Hcut : pre ++ p_data p =
    meta_part p ++ replicate 4 0 ++ be_bytes 4 (zlen (p_data p)) ++ p_data p)
    by (unfold pre; list_eq).
  rewrite (slice_mid _ [] (meta_part p) (replicate 4 0 ++ be_bytes 4 (zlen (p_data p)) ++ p_data p))
    by (done || lia). rewrite bind_Ok, Hadd, bind_Ok by lia.
  rewrite Hcut, (slice_mid _ (meta_part p) (replicate 4 0) (be_bytes 4 (zlen (p_data p)) ++ p_data p) (20 + zlen (p_meta p)))
    by (done || zl). rewrite bind_Ok.
  rewrite (patch_mid (meta_part p) (replicate 4 0)) by (try lia; by rewrite length_be_bytes).
  rewrite (slice_mid _ (meta_part p ++ be_bytes 4 (crc32c (meta_part p)) ++ be_bytes 4 (zlen (p_data p)))
    (p_data p) []) by (try (autorewrite with zlen; lia); rewrite app_nil_r; list_eq).
  rewrite bind_Ok. unfold layout. f_equal. list_eq.
Qed.

End Building.

(** ** Reading what the builder wrote, whole or damaged *)

(** The bytes of [p] with the sections replaced: the two checksums and the data
    length stay [p]'s own. *)
Definition damaged (crc32c : list Z → Z) (p : Pack) (m' d' : list Z) : list Z :=
  (header_bytes p ++ be_bytes 4 (zlen (p_meta p)) ++ m') ++ be_bytes 4 (crc32c (meta_part p))
    ++ be_bytes 4 (zlen (p_data p)) ++ d' ++ be_bytes 4 (crc32c (p_data p)).

Section Decoding.
Context `{!Usize} (crc32c : list Z → Z) (p : Pack).
Hypothesis Hp : pack_ok p.

Lemma from_be_u32 x : u32 x → from_be (be_bytes 4 x) = x.
Proof.
  unfold u32, u32_max. intros. apply from_be_be_bytes_small.
  change (2 ^ (8 * Z.of_nat 4)) with 4294967296. lia.
Qed.

Lemma zlen_be4 x : zlen (be_bytes 4 x) = 4.
Proof. apply zlen_be_bytes. Qed.

Lemma zlen_header : zlen (header_bytes p) = 16.
Proof. unfold header_bytes. zl. Qed.

Lemma u32_meta_len : u32 (zlen (p_meta p)).
Proof. destruct Hp as (_&_&_&_&_&_&_&?&_). split; [apply zlen_nonneg|done]. Qed.

Lemma u32_data_len : u32 (zlen (p_data p)).
Proof. destruct Hp as (_&_&_&_&_&_&_&_&?). split; [apply zlen_nonneg|done]. Qed.

Lemma decode_header_bytes rest (l := header_bytes p ++ rest) :
  OVERHEAD ≤ zlen l →
  decode crc32c l =
    decode_sections crc32c l VERSION (p_kind p) (p_subtype p) (p_flags p) (p_id p) (p_seq p).
Proof.
  intros Hlen. destruct Hp as (_ & _ & Hf & Hid & Hsq & _).
  assert (Hl : l = [VERSION; kind_byte (p_kind p); p_subtype p; flag_bits (p_flags p)]
    ++ be_bytes 8 (p_id p) ++ be_bytes 4 (p_seq p) ++ rest)
    by (unfold l, header_bytes; list_eq).
  rewrite Hl in *. rewrite decode_fixed by (done || apply zlen_be_bytes).
  assert (mkFlags (flag_bits (p_flags p)) = p_flags p) as -> by (by destruct (p_flags p)).
  rewrite Z.eqb_refl, Kind_try_from_kind_byte, Hf. cbn [negb reject_if]. rewrite !bind_Ok.
  rewrite from_be_u32 by done. rewrite from_be_be_bytes_small; [done|].
  unfold u64, u64_max in Hid. change (2 ^ (8 * Z.of_nat 8)) with 18446744073709551616. lia.
Qed.

Hypothesis Hcrc : ∀ bs, u32 (crc32c bs).

Lemma decode_damaged m' d' (l := damaged crc32c p m' d') :
  zlen m' = zlen (p_meta p) → zlen d' = zlen (p_data p) → buffer_fits (zlen l) →
  let head := header_bytes p ++ be_bytes 4 (zlen (p_meta p)) ++ m' in
  decode crc32c l =
    (_ ← reject_if (negb (crc32c (meta_part p) =? crc32c head))
           (MetaCrc (crc32c (meta_part p)) (crc32c head));
     _ ← reject_if (negb (crc32c (p_data p) =? crc32c d'))
           (DataCrc (crc32c (p_data p)) (crc32c d'));
     Ok (mkView (v_header (view_of p)) m' d')).
Proof.
  intros Hm Hd Hfit head. pose proof (buffer_fits_isize _ Hfit).
  pose proof zlen_header. pose proof u32_meta_len. pose proof u32_data_len.
  pose proof (zlen_nonneg m'). pose proof (zlen_nonneg d').
  assert (Hl : l = header_bytes p ++ be_bytes 4 (zlen (p_meta p)) ++ m' ++
    be_bytes 4 (crc32c (meta_part p)) ++ be_bytes 4 (zlen (p_data p)) ++ d' ++
    be_bytes 4 (crc32c (p_data p))) by (unfold l, damaged; list_eq).
  rewrite Hl, decode_header_bytes by (unfold OVERHEAD, HEADER_LEN; zl). rewrite <- Hl.
  unfold l, damaged. rewrite (sections_after_data crc32c _ _ zlen_header (zlen_be4 _)
    (be_bytes_ok _ _) m') with (d := d') (dcb := be_bytes 4 (crc32c (p_data p))) by
    (rewrite ?zlen_be_bytes, ?from_be_u32 by done; done || apply be_bytes_ok).
  by rewrite !from_be_u32.
Qed.

Lemma layout_damaged : layout crc32c p = damaged crc32c p (p_meta p) (p_data p).
Proof. reflexivity. Qed.

Lemma decode_layout :
  buffer_fits (pack_len p) → decode crc32c (layout crc32c p) = Ok (view_of p).
Proof.
  intros Hfit. rewrite layout_damaged, decode_damaged.
  - by rewrite !Z.eqb_refl.
  - done.
  - done.
  - by rewrite <- layout_damaged, zlen_layout.
Qed.

(** A buffer that starts with the whole meta section but is not as long as the
    data length field says. *)
Lemma decode_wrong_length rest
    (l := meta_part p ++ be_bytes 4 (crc32c (meta_part p)) ++ be_bytes 4 (zlen (p_data p)) ++ rest) :
  buffer_fits (zlen l) → OVERHEAD ≤ zlen l → zlen rest ≠ zlen (p_data p) + 4 →
  if zlen rest <? zlen (p_data p) + 4
  then ∃ needed, decode crc32c l = Err (Truncated needed (zlen l))
  else decode crc32c l = Err (TrailingBytes (pack_len p) (zlen l)).
Proof.
  intros Hfit Hlen Hne. pose proof (buffer_fits_isize _ Hfit).
  pose proof u32_meta_len. pose proof u32_data_len.
  assert (Hl : l = header_bytes p ++ be_bytes 4 (zlen (p_meta p)) ++ p_meta p ++
    be_bytes 4 (crc32c (meta_part p)) ++ be_bytes 4 (zlen (p_data p)) ++ rest)
    by (unfold l, meta_part; list_eq).
  rewrite Hl, decode_header_bytes by (by rewrite <- Hl). rewrite <- Hl. unfold l, meta_part.
  rewrite (sections_after_meta crc32c _ _ zlen_header (zlen_be4 _)
    (be_bytes_ok _ _) (p_meta p) _ _ rest) by
    (rewrite ?zlen_be_bytes, ?from_be_u32 by done; done || apply be_bytes_ok).
  rewrite !from_be_u32, Z.eqb_refl by done. rewrite !reject_if_bind. simpl negb. cbv iota.
  destruct (Z.ltb_spec (zlen rest) (zlen (p_data p) + 4)).
  - case_match; by eexists.
  - pose proof (zlen_nonneg (p_meta p)).
    rewrite (proj2 (Z.ltb_ge _ _)), (proj2 (Z.ltb_lt _ _)) by zl.
    do 2 f_equal. unfold pack_len, OVERHEAD, HEADER_LEN. lia.
Qed.

Lemma decode_prefix bytes tail :
  layout crc32c p = bytes ++ tail → tail ≠ [] → buffer_fits (pack_len p) →
  decode crc32c bytes = Err (TooShort (zlen bytes)) ∨
  ∃ needed, decode crc32c bytes = Err (Truncated needed (zlen bytes)).
Proof.
  intros Heq Htail Hfit. pose proof (zlen_layout crc32c p) as Hlen. rewrite Heq in Hlen.
  assert (0 < zlen tail) by (destruct tail; [done|rewrite zlen_cons; pose proof (zlen_nonneg tail); lia]).
  rewrite zlen_app in Hlen. pose proof (zlen_nonneg bytes).
  assert (Hfit' : buffer_fits (zlen bytes)) by (unfold buffer_fits in *; lia).
  pose proof (buffer_fits_isize _ Hfit').
  destruct (Z.lt_ge_cases (zlen bytes) OVERHEAD) as [Hs|Hs].
  { left. unfold decode. by rewrite reject_if_bind, (proj2 (Z.ltb_lt _ _)). }
  right. pose proof zlen_header. pose proof u32_meta_len.
  unfold OVERHEAD, HEADER_LEN in Hs.
  destruct (split_at bytes 16) as (hd & r1 & -> & Hhd); [lia|].
  destruct (split_at r1 4) as (mlb & rest & -> & Hml); [zl|].
  unfold layout, meta_part in Heq. rewrite <- !app_assoc in Heq.
  apply app_inj_1 in Heq as [<- Heq]; [|unfold zlen in *; lia].
  apply app_inj_1 in Heq as [<- Heq]; [|rewrite length_be_bytes; unfold zlen in *; lia].
  rewrite decode_header_bytes by (unfold OVERHEAD, HEADER_LEN; zl).
  destruct (Z.lt_ge_cases (zlen rest) (zlen (p_meta p) + 8)) as [Hr|Hr].
  { eapply (sections_meta_truncated crc32c _ _ zlen_header (zlen_be4 _) (be_bytes_ok _ _));
      [done|by rewrite from_be_u32]. }
  destruct (cut_sections rest (zlen (p_meta p))) as (m & mcb & dlb & rest' & -> & Hm & Hmc & Hdl);
    [apply zlen_nonneg|lia|]. rewrite <- !app_assoc in Heq.
  apply app_inj_1 in Heq as [<- Heq]; [|unfold zlen in *; lia].
  apply app_inj_1 in Heq as [<- Heq]; [|rewrite length_be_bytes; unfold zlen in *; lia].
  apply app_inj_1 in Heq as [<- Heq]; [|rewrite length_be_bytes; unfold zlen in *; lia].
  rewrite <- decode_header_bytes by (unfold OVERHEAD, HEADER_LEN; zl).
  assert (zlen rest' < zlen (p_data p) + 4) as Hlt.
  { apply (f_equal zlen) in Heq. autorewrite with zlen in Heq. lia. }
  pose proof (decode_wrong_length rest') as Hwl. rewrite (proj2 (Z.ltb_lt _ _)) in Hwl by done.
  unfold meta_part in Hwl. rewrite <- !app_assoc in Hwl. apply Hwl;
    unfold buffer_fits, OVERHEAD, HEADER_LEN in *; zl.
Qed.

End Decoding.

(** ** The properties *)

(** The bit-by-bit CRC-32C (reflected polynomial 0x82F63B78), the function the
    crate computes; it instantiates the checksum argument in the witnesses and
    in the golden vectors. *)
Fixpoint crc_bits (n : nat) (c : Z) : Z :=
  match n with
  | O => c
  | S n' => crc_bits n' (if Z.odd c then Z.lxor (Z.shiftr c 1) 0x82F63B78 else Z.shiftr c 1)
  end.

Definition crc32c_ref (bs : list Z) : Z :=
  Z.land (Z.lxor (fold_left (λ c b, crc_bits 8 (Z.lxor c b)) bs u32_max) u32_max) u32_max.

Lemma crc32c_ref_u32 bs : u32 (crc32c_ref bs).
Proof.
  unfold crc32c_ref, u32, u32_max. change 4294967295 with (Z.ones 32).
  rewrite Z.land_ones by lia.
  pose proof (Z.mod_pos_bound (Z.lxor (fold_left (λ c b, crc_bits 8 (Z.lxor c b)) bs (Z.ones 32))
    (Z.ones 32)) (2 ^ 32)). change (Z.ones 32) with 4294967295 in *. change (2 ^ 32) with 4294967296 in *. lia.
Qed.

Definition sample_pack : Pack :=
  mkPack Upload 2 WANT_ACK 0xDEADBEEF00000001 7 [123; 34; 97; 34; 58; 49; 125] [99; 104; 117; 110; 107].

(** C38: what the builder produces for a well-formed header and two sections
    decodes to exactly that header and those sections, and is as long as the
    fixed overhead plus the sections. *)
Theorem decode_build `{Usize} (crc32c : list Z → Z) (p : Pack)
    (Hcrc : ∀ bs, u32 (crc32c bs)) (Hp : pack_ok p) (Hfit : buffer_fits (pack_len p)) :
  ∃ bytes, build crc32c p = Ok bytes ∧ zlen bytes = pack_len p ∧
    decode crc32c bytes = Ok (view_of p).
Proof.
  exists (layout crc32c p).
  by rewrite build_layout, zlen_layout, decode_layout by done.
Qed.

Lemma decode_build_witness :
  ∃ bytes, build (H := usize_64) crc32c_ref sample_pack = Ok bytes ∧
    zlen bytes = pack_len sample_pack ∧
    decode (H := usize_64) crc32c_ref bytes = Ok (view_of sample_pack).
Proof.
  apply (decode_build (H := usize_64) crc32c_ref sample_pack).
  - exact crc32c_ref_u32.
  - by repeat (split; try (by vm_compute); repeat constructor).
  - by vm_compute.
Defined.

(** a buffer that decodes is the builder's own output for what was decoded:
    the format has one encoding per pack, and decoding accepts nothing else. *)
Theorem decode_canonical `{Usize} (crc32c : list Z → Z) (bytes : list Z) (v : PackView)
    (Hok : bytes_ok bytes) (Hfit : buffer_fits (zlen bytes))
    (Hdec : decode crc32c bytes = Ok v) :
  ∃ p, pack_ok p ∧ v = view_of p ∧ build crc32c p = Ok bytes.
Proof.
  destruct (decode_cases crc32c bytes Hok Hfit) as [[e He]|(p & Hp & -> & Hd)]; [congruence|].
  exists p. rewrite zlen_layout in Hfit.
  rewrite build_layout by done. by split_and!; [| congruence |].
Qed.

Lemma decode_canonical_witness :
  ∃ p, pack_ok p ∧ view_of sample_pack = view_of p ∧
    build (H := usize_64) crc32c_ref p = Ok (layout crc32c_ref sample_pack).
Proof.
  apply (decode_canonical (H := usize_64) crc32c_ref (layout crc32c_ref sample_pack)).
  - apply (bool_decide_unpack _). by vm_compute.
  - by vm_compute.
  - by vm_compute.
Defined.

(** C39: decoding never aborts: whatever bytes arrive, every index, slice and
    [usize] sum is in range, so the result is a view or an error value. *)
Theorem decode_never_panics `{Usize} (crc32c : list Z → Z) (bytes : list Z)
    (Hok : bytes_ok bytes) (Hfit : buffer_fits (zlen bytes)) :
  decode crc32c bytes ≠ Panic.
Proof.
  destruct (decode_cases crc32c bytes Hok Hfit) as [[e ->]|(p & _ & _ & ->)]; done.
Qed.

Lemma decode_never_panics_witness :
  decode (H := usize_32) crc32c_ref (replicate 40 255) ≠ Panic.
Proof.
  apply (decode_never_panics (H := usize_32)).
  - apply (bool_decide_unpack _). by vm_compute.
  - by vm_compute.
Defined.

(** A pack cut short anywhere is refused as too short or truncated, and one
    with bytes after it as trailing bytes: never read as another pack and never
    blamed on a checksum. *)
Theorem decode_wrong_extent `{Usize} (crc32c : list Z → Z) (p : Pack)
    (Hcrc : ∀ bs, u32 (crc32c bs)) (Hp : pack_ok p) :
  (∀ bytes tail, layout crc32c p = bytes ++ tail → tail ≠ [] → buffer_fits (pack_len p) →
     decode crc32c bytes = Err (TooShort (zlen bytes)) ∨
     ∃ needed, decode crc32c bytes = Err (Truncated needed (zlen bytes))) ∧
  (∀ extra, extra ≠ [] → buffer_fits (pack_len p + zlen extra) →
     decode crc32c (layout crc32c p ++ extra) =
       Err (TrailingBytes (pack_len p) (pack_len p + zlen extra))).
Proof.
  split; [intros; by eapply decode_prefix|]. intros extra Hne Hfit.
  assert (0 < zlen extra) by (destruct extra; [done|zl]).
  pose proof (decode_wrong_length crc32c p Hp Hcrc
    (p_data p ++ be_bytes 4 (crc32c (p_data p)) ++ extra)) as Hw.
  pose proof (zlen_layout crc32c p) as Hlen.
  rewrite (proj2 (Z.ltb_ge _ _)) in Hw by zl.
  assert (Heq : layout crc32c p ++ extra = meta_part p ++ be_bytes 4 (crc32c (meta_part p)) ++
    be_bytes 4 (zlen (p_data p)) ++ p_data p ++ be_bytes 4 (crc32c (p_data p)) ++ extra)
    by (unfold layout; list_eq).
  assert (Hlen' : zlen (layout crc32c p ++ extra) = pack_len p + zlen extra)
    by (by rewrite zlen_app, Hlen).
  cbv zeta in Hw. rewrite <- Heq, Hlen' in Hw. apply Hw; [done|unfold pack_len|]; zl.
Qed.

Lemma decode_wrong_extent_witness :
  decode (H := usize_64) crc32c_ref (layout crc32c_ref sample_pack ++ [0]) =
    Err (TrailingBytes (pack_len sample_pack) (pack_len sample_pack + 1)).
Proof.
  apply (proj2 (decode_wrong_extent (H := usize_64) crc32c_ref sample_pack crc32c_ref_u32
    ltac:(by repeat (split; try (by vm_compute); repeat constructor))) [0]).
  - done.
  - by vm_compute.
Defined.


