(* ===== verification/WireCodes.v ===== *)
(** * WireCodes: the Control/Error vocabulary (src/core/wbf/error_code.rs)

    The table of reject codes with both of their wire fields, the code a decode
    error is reported under, and which codes count against a connection's
    health. *)

From S2P Require Import Prelude Pack.

Definition CONTROL_ERROR_SUBTYPE : Z := 0x03.

Module RejectCode.

Inductive t :=
| UnsupportedVersion | Corrupt | UnknownKind | Unsupported | TooLarge
| InvalidRequest | Unauthorized | Forbidden | RateLimited | TooManyConnections
| TooManyConnectionsFromAddress | NotFound | Conflict | OutOfOrder | Truncated
| Superseded | RoomDevicesChanged | Internal.

#[global] Instance t_eq_dec : EqDecision t.
Proof. solve_decision. Defined.

Definition ALL : list t :=
  [UnsupportedVersion; Corrupt; UnknownKind; Unsupported; TooLarge; InvalidRequest;
   Unauthorized; Forbidden; RateLimited; TooManyConnections;
   TooManyConnectionsFromAddress; NotFound; Conflict; OutOfOrder; Truncated;
   Superseded; RoomDevicesChanged; Internal].

(** [RejectCode::id] *)
Definition id (self : t) : Z :=
  match self with
  | UnsupportedVersion => 1001
  | Corrupt => 1002
  | UnknownKind => 1101
  | Unsupported => 1102
  | TooLarge => 1103
  | InvalidRequest => 1201
  | Unauthorized => 1301
  | Forbidden => 1302
  | RateLimited => 1401
  | TooManyConnections => 1402
  | TooManyConnectionsFromAddress => 1403
  | NotFound => 1501
  | Conflict => 1502
  | OutOfOrder => 1503
  | Truncated => 1504
  | Superseded => 1505
  | RoomDevicesChanged => 1506
  | Internal => 1901
  end.

(** [RejectCode::name] *)
Definition name (self : t) : string :=
  match self with
  | UnsupportedVersion => "UnsupportedVersion"
  | Corrupt => "Corrupt"
  | UnknownKind => "UnknownKind"
  | Unsupported => "Unsupported"
  | TooLarge => "TooLarge"
  | InvalidRequest => "InvalidRequest"
  | Unauthorized => "Unauthorized"
  | Forbidden => "Forbidden"
  | RateLimited => "RateLimited"
  | TooManyConnections => "TooManyConnections"
  | TooManyConnectionsFromAddress => "TooManyConnectionsFromAddress"
  | NotFound => "NotFound"
  | Conflict => "Conflict"
  | OutOfOrder => "OutOfOrder"
  | Truncated => "Truncated"
  | Superseded => "Superseded"
  | RoomDevicesChanged => "RoomDevicesChanged"
  | Internal => "Internal"
  end.

(** [RejectCode::for_pack_error] *)
Definition for_pack_error (error : PackError) : t :=
  match error with
  | Pack.UnsupportedVersion _ => UnsupportedVersion
  | Pack.UnknownKind _ => UnknownKind
  | Pack.SectionTooLarge _ => TooLarge
  | _ => Corrupt
  end.

(** [RejectCode::is_undecodable_frame] *)
Definition is_undecodable_frame (self : t) : bool :=
  match self with Corrupt | UnsupportedVersion => true | _ => false end.

Lemma ALL_complete c : c ∈ ALL.
Proof. destruct c; set_solver. Qed.

End RejectCode.

(** Both wire fields name the code: the number and the name each determine it,
    every code is in the table, and no number can be a defaulted field. *)
Lemma reject_codes_distinct :
  (∀ c, c ∈ RejectCode.ALL ∧ 1000 ≤ RejectCode.id c ≤ 65535) ∧
  Inj (=) (=) RejectCode.id ∧ Inj (=) (=) RejectCode.name.
Proof.
  split_and!.
  - intros c. split; [apply RejectCode.ALL_complete|destruct c; simpl; lia].
  - by intros [] [].
  - by intros [] [].
Qed.

(** The errors the two halves of [decode] raise. *)
Lemma decode_sections_error `{Usize} crc32c bytes v k s f id sq e :
  decode_sections crc32c bytes v k s f id sq = Err e →
  match e with Truncated _ _ | TrailingBytes _ _ | MetaCrc _ _ | DataCrc _ _ => True | _ => False end.
Proof.
  unfold decode_sections, read_u32. intros Hdec. inv_err; done.
Qed.

Lemma decode_error `{Usize} crc32c bytes e :
  decode crc32c bytes = Err e →
  match e with
  | UnknownKind b => bytes !! 1%nat = Some b ∧ ∀ k, b ≠ kind_byte k
  | MetaNotJson | SectionTooLarge _ | DataAlreadyReserved => False
  | _ => True
  end.
Proof.
  unfold decode. intros Hdec. inv_err; try done.
  - match goal with H : index bytes 1 = Ok ?b |- _ => rename b into b1; rename H into Hb end.
    assert (bytes !! 1%nat = Some b1) as Hb1.
    { revert Hb. unfold index, expect. simpl. by case_match; intros [= ->]. }
    destruct (Kind_try_from_total b1) as [Hk|[k Hk]]; rewrite Hk in Hdec; simplify_eq.
    split; [done|]. intros k ->. by rewrite Kind_try_from_kind_byte in Hk.
  - apply decode_sections_error in Hdec. by destruct e.
Qed.

(** A pack is counted against its connection exactly when the frame itself
    could not be read: a decode failure maps to an undecodable-frame code for
    every error but an unassigned kind byte, so a peer that speaks the protocol
    with a kind this server does not know is never disconnected for it. *)
Theorem undecodable_frame_iff `{Usize} (crc32c : list Z → Z) (bytes : list Z) (e : PackError)
    (Hdec : decode crc32c bytes = Err e) :
  RejectCode.is_undecodable_frame (RejectCode.for_pack_error e) = false ↔
  ∃ b, e = UnknownKind b ∧ bytes !! 1%nat = Some b ∧ ∀ k, b ≠ kind_byte k.
Proof.
  apply decode_error in Hdec. split.
  - destruct e; simpl; try done. eauto.
  - by intros (b & -> & _).
Qed.

Lemma undecodable_frame_iff_witness :
  let bytes := 1 :: 0x7F :: replicate 30 0 in
  RejectCode.is_undecodable_frame (RejectCode.for_pack_error (UnknownKind 0x7F)) = false ↔
  ∃ b, UnknownKind 0x7F = UnknownKind b ∧ bytes !! 1%nat = Some b ∧ ∀ k, b ≠ kind_byte k.
Proof.
  apply (undecodable_frame_iff (H := usize_64) crc32c_ref). by vm_compute.
Defined.
