(* ===== verification/WireIds.v ===== *)
(** * WireIds: what a pack's [id] is (src/core/wbf/id_type.rs) and the fixed
    record an encrypted upload starts with (src/core/wbf/file_info.rs) *)

From S2P Require Import Prelude.

Module IdType.

Inductive t := None_ | ClientConversation | EventPosition | Upload.

#[global] Instance t_eq_dec : EqDecision t.
Proof. solve_decision. Defined.

Definition ID_VALUE_BITS : Z := 56.
Definition ID_VALUE_MAX : Z := Z.shiftl 1 ID_VALUE_BITS - 1.

Inductive IdValueRefused :=
| TooLargeForSevenBytes (value : Z)
| NoneTakesNoValue (value : Z).

Definition ALL : list t := [None_; ClientConversation; EventPosition; Upload].

(** [IdType::byte] *)
Definition byte (self : t) : Z :=
  match self with
  | None_ => 0x00
  | ClientConversation => 0x01
  | EventPosition => 0x02
  | Upload => 0x03
  end.

(** [IdType::of]: the cast [as u8] keeps the low byte. *)
Definition id_of (id : Z) : option t :=
  match Z.land (Z.shiftr id ID_VALUE_BITS) 255 with
  | 0x00 => Some None_
  | 0x01 => Some ClientConversation
  | 0x02 => Some EventPosition
  | 0x03 => Some Upload
  | _ => None
  end.

(** [IdType::compose] *)
Definition compose (self : t) (value : Z) : Result IdValueRefused Z :=
  _ ← reject_if (ID_VALUE_MAX <? value) (TooLargeForSevenBytes value);
  _ ← reject_if (bool_decide (self = None_) && negb (value =? 0)) (NoneTakesNoValue value);
  Ok (Z.lor (Z.shiftl (byte self) ID_VALUE_BITS) value).

Definition id_value (id : Z) : Z := Z.land id ID_VALUE_MAX.

Lemma ID_VALUE_MAX_ones : ID_VALUE_MAX = Z.ones 56.
Proof. reflexivity. Qed.

Lemma compose_value self value :
  0 ≤ value ≤ ID_VALUE_MAX →
  Z.lor (Z.shiftl (byte self) ID_VALUE_BITS) value = byte self * 2 ^ 56 + value.
Proof.
  intros Hv. apply lor_shiftl_add; [done|].
  unfold ID_VALUE_MAX, ID_VALUE_BITS in *. change (Z.shiftl 1 56) with (2 ^ 56) in *. lia.
Qed.

Lemma shiftr_56 id : u64 id → Z.land (Z.shiftr id ID_VALUE_BITS) 255 = id / 2 ^ 56.
Proof.
  unfold u64, u64_max. intros. rewrite land_255_mod, Z.shiftr_div_pow2 by done.
  apply Z.mod_small. change (2 ^ ID_VALUE_BITS) with 72057594037927936.
  split; [apply Z.div_pos; lia|apply Z.div_lt_upper_bound; lia].
Qed.

Lemma of_byte id self : u64 id → id_of id = Some self ↔ id / 2 ^ 56 = byte self.
Proof.
  intros Hid. unfold id_of. rewrite (shiftr_56 id Hid).
  split.
  - intros H. repeat (case_match; try discriminate H); by injection H as <-.
  - intros ->. by destruct self.
Qed.

Lemma id_value_mod id : id_value id = id mod 2 ^ 56.
Proof. unfold id_value. rewrite ID_VALUE_MAX_ones. by apply Z.land_ones. Qed.

End IdType.

Import IdType.

(** The ids the wire specification allows: a known type byte, and under [None_]
    nothing but zero. *)
Definition id_wf (id : Z) : Prop :=
  u64 id ∧ ∃ self, IdType.id_of id = Some self ∧ (self = None_ → id = 0).

(** Composing and taking apart an id are inverse: a composed id is a u64
    that reads back as the type and value that went in; every well-formed id is
    the composition of its own parts; and composition fails exactly on a value
    over 56 bits or a non-zero value under the type that takes none. *)
Theorem id_compose_parts (self : IdType.t) (value : Z) (Hv : u64 value) :
  (∀ id, compose self value = Ok id →
     u64 id ∧ IdType.id_of id = Some self ∧ id_value id = value ∧ id_wf id) ∧
  (∀ id, id_wf id → ∃ s, IdType.id_of id = Some s ∧ compose s (id_value id) = Ok id) ∧
  ((∃ e, compose self value = Err e) ↔ 2 ^ 56 ≤ value ∨ (self = None_ ∧ value ≠ 0)).
Proof.
  assert (Hmax : ID_VALUE_MAX = 2 ^ 56 - 1) by reflexivity.
  assert (Hparts : ∀ s v id, 0 ≤ v → compose s v = Ok id →
    id = byte s * 2 ^ 56 + v ∧ v < 2 ^ 56 ∧ (s = None_ → v = 0)).
  { intros s v id Hv0 Hc. unfold compose in Hc. inv_ok.
    apply Z.ltb_ge in Hr. rewrite compose_value by lia. split_and!; [done|lia|].
    intros ->. rewrite bool_decide_true in Hr0 by done. simpl in Hr0.
    by apply negb_false_iff, Z.eqb_eq in Hr0. }
  assert (Hbyte : ∀ s, 0 ≤ byte s ≤ 3) by (intros []; simpl; lia).
  unfold u64, u64_max in Hv. split_and!.
  - intros id Hc. destruct (Hparts _ _ _ (proj1 Hv) Hc) as (-> & Hlt & Hn).
    specialize (Hbyte self).
    assert (Hu : u64 (byte self * 2 ^ 56 + value)) by (unfold u64, u64_max; lia).
    assert (Hof : IdType.id_of (byte self * 2 ^ 56 + value) = Some self).
    { apply of_byte; [done|]. rewrite Z.div_add_l by lia. rewrite Z.div_small; lia. }
    split_and!; [done|done| |].
    + rewrite id_value_mod, Z.add_comm, Z.mod_add by lia. apply Z.mod_small. lia.
    + split; [done|]. exists self. split; [done|]. intros Hs. rewrite (Hn Hs). by subst self.
  - intros id [Hu (s & Hs & Hnone)]. exists s. split; [done|].
    pose proof Hs as Hd. apply of_byte in Hd; [|done].
    unfold compose. rewrite id_value_mod.
    pose proof (Z.mod_pos_bound id (2 ^ 56)) as Hb.
    rewrite (proj2 (Z.ltb_ge _ _)) by lia. simpl.
    assert (bool_decide (s = None_) && negb (id mod 2 ^ 56 =? 0) = false) as ->.
    { case_bool_decide as Hsn; [|done]. by rewrite (Hnone Hsn). }
    simpl. rewrite compose_value by lia. f_equal.
    rewrite <- Hd. rewrite (Z.div_mod id (2 ^ 56)) at 3 by lia. lia.
  - unfold compose. destruct (Z.ltb_spec ID_VALUE_MAX value); simpl.
    + split; [lia|]. intros _. by eexists.
    + case_bool_decide; simpl; [destruct (Z.eqb_spec value 0)|]; simpl;
        (split; [intros [? [=]]; naive_solver|]); try naive_solver lia.
Qed.

Lemma id_compose_parts_witness :
  ∃ s, IdType.id_of 0x020000000000007B = Some s ∧
    compose s (id_value 0x020000000000007B) = Ok 0x020000000000007B.
Proof.
  apply (id_compose_parts IdType.Upload 0); [by vm_compute|].
  split; [by vm_compute|]. by exists EventPosition.
Defined.

(** ** EncryptedFileInfo *)

Module FileInfo.

Record t := mk { file_size : Z; chunk_size : Z; chunk_count : Z }.

Definition ENCRYPTED_FILE_INFO_LEN : Z := 16.

Inductive FileInfoError := WrongLength (len : Z).

(** [EncryptedFileInfo::encode]: three ranges of a 16-byte array overwritten. *)
Definition encode (self : t) : list Z :=
  let bytes := replicate (Z.to_nat ENCRYPTED_FILE_INFO_LEN) 0 in
  let bytes := patch bytes 0 (be_bytes 8 (file_size self)) in
  let bytes := patch bytes 8 (be_bytes 4 (chunk_size self)) in
  patch bytes 12 (be_bytes 4 (chunk_count self)).

(** [EncryptedFileInfo::decode] *)
Definition decode (bytes : list Z) : Result FileInfoError t :=
  _ ← reject_if (negb (zlen bytes =? ENCRYPTED_FILE_INFO_LEN)) (WrongLength (zlen bytes));
  a ← slice bytes 0 8;
  b ← slice bytes 8 12;
  c ← slice bytes 12 16;
  Ok (mk (from_be a) (from_be b) (from_be c)).

Definition wf (self : t) : Prop :=
  u64 (file_size self) ∧ u32 (chunk_size self) ∧ u32 (chunk_count self).

Lemma encode_fields self :
  encode self = be_bytes 8 (file_size self) ++ be_bytes 4 (chunk_size self) ++
    be_bytes 4 (chunk_count self).
Proof. reflexivity. Qed.

End FileInfo.

(** The 16-byte upload declaration and its record are in bijection: encoding
    a record whose fields are in range gives 16 bytes that decode to it, any 16
    bytes are the encoding of the record they decode to, and every other length
    is refused with that length. *)
Theorem file_info_roundtrip :
  (∀ i, FileInfo.wf i → bytes_ok (FileInfo.encode i) ∧ zlen (FileInfo.encode i) = 16 ∧
     FileInfo.decode (FileInfo.encode i) = Ok i) ∧
  (∀ bytes, bytes_ok bytes → zlen bytes = 16 →
     ∃ i, FileInfo.decode bytes = Ok i ∧ FileInfo.wf i ∧ FileInfo.encode i = bytes) ∧
  (∀ bytes, zlen bytes ≠ 16 → FileInfo.decode bytes = Err (FileInfo.WrongLength (zlen bytes))).
Proof.
  assert (Hdec : ∀ a b c, zlen a = 8 → zlen b = 4 → zlen c = 4 →
    FileInfo.decode (a ++ b ++ c) = Ok (FileInfo.mk (from_be a) (from_be b) (from_be c))).
  { intros a b c Ha Hb Hc. unfold FileInfo.decode, FileInfo.ENCRYPTED_FILE_INFO_LEN.
    rewrite (proj2 (Z.eqb_eq _ _)) by zl. simpl reject_if. rewrite bind_Ok.
    rewrite (slice_mid _ [] a (b ++ c) 0 8), (slice_mid _ a b c 8 12),
      (slice_mid _ (a ++ b) c [] 12 16) by (done || zl || (rewrite app_nil_r; by rewrite app_assoc)).
    done. }
  split_and!.
  - intros i (H1 & H2 & H3). rewrite FileInfo.encode_fields.
    unfold u64, u32, u64_max, u32_max in *. split_and!; [|zl|].
    + repeat apply Forall_app_2; apply be_bytes_ok.
    + rewrite Hdec by apply zlen_be_bytes.
      rewrite !from_be_be_bytes_small by (simpl; lia). by destruct i.
  - intros bytes Hok Hlen.
    destruct (split_at bytes 8) as (a & r & -> & Ha); [lia|].
    destruct (split_at r 4) as (b & c & -> & Hb); [zl|].
    assert (Hc : zlen c = 4) by zl.
    apply Forall_app in Hok as [Hoka [Hokb Hokc]%Forall_app].
    rewrite Hdec by done. eexists. split; [done|].
    pose proof (from_be_bound _ Hoka). pose proof (from_be_bound _ Hokb).
    pose proof (from_be_bound _ Hokc). rewrite Ha, Hb, Hc in *.
    change (2 ^ (8 * 8)) with 18446744073709551616 in *. change (2 ^ (8 * 4)) with 4294967296 in *.
    split.
    + unfold FileInfo.wf, u64, u32, u64_max, u32_max. simpl. lia.
    + rewrite FileInfo.encode_fields. simpl FileInfo.file_size. unfold zlen in *.
      cbn [FileInfo.file_size FileInfo.chunk_size FileInfo.chunk_count].
      rewrite (be_bytes_from_be a), (be_bytes_from_be b), (be_bytes_from_be c) by (done || lia). done.
  - intros bytes Hlen. unfold FileInfo.decode, FileInfo.ENCRYPTED_FILE_INFO_LEN.
    by rewrite (proj2 (Z.eqb_neq _ _)).
Qed.
