(* ===== verification/WireEvents.v ===== *)
(** * WireEvents: the event-carrying data section (src/core/wbf/events.rs)

    The length-prefixed layout, the cut of a run of events into packs, and the
    budget a window is gathered under.  Byte totals saturate at [usize::MAX] as
    in the source; positions and counts are [nat], being bounded by the number
    of events held in memory. *)

From S2P Require Import Prelude Pack.

Definition EVENT_LEN_PREFIX : Z := 4.

(** [length_prefixed] *)
Definition length_prefixed (events : list (list Z)) : Result PackError (list Z) :=
  foldl (λ acc event,
    data ← acc;
    len ← u32_try_from (zlen event) (SectionTooLarge (zlen event));
    Ok ((data ++ be_bytes 4 len) ++ event)) (Ok []) events.

Section WithUsize.
Context `{!Usize}.

(** [framed_len] *)
Definition framed_len (event_len : Z) : Z := sat_add EVENT_LEN_PREFIX event_len.

(** The loop state of [list_pack_ranges]. *)
Record Cut := mkCut {
  c_ranges : list (nat * nat);
  c_start : nat;
  c_count : nat;
  c_data_len : Z
}.

Definition cut_step (count_max : nat) (data_max : Z) (c : Cut) (item : nat * Z) : Cut :=
  let '(position, event_len) := item in
  let framed := framed_len event_len in
  let is_count_full := bool_decide (count_max ≤ c_count c)%nat in
  let is_over_budget :=
    bool_decide (0 < c_count c)%nat && (data_max <? sat_add (c_data_len c) framed) in
  let c :=
    if is_count_full || is_over_budget
    then mkCut (c_ranges c ++ [(c_start c, position)]) position 0 0
    else c in
  mkCut (c_ranges c) (c_start c) (c_count c + 1) (sat_add (c_data_len c) framed).

(** [event_lens.into_iter().enumerate()] *)
Definition enumerate {A} (l : list A) : list (nat * A) := imap pair l.

(** [list_pack_ranges] *)
Definition list_pack_ranges (event_lens : list Z) (count_max : nat) (data_max : Z)
  : list (nat * nat) :=
  let count_max := Nat.max count_max 1 in
  let c := foldl (cut_step count_max data_max) (mkCut [] 0 0 0) (enumerate event_lens) in
  if bool_decide (0 < c_count c)%nat
  then c_ranges c ++ [(c_start c, c_start c + c_count c)%nat]
  else c_ranges c.

(** [struct WindowBudget] *)
Record WindowBudget := mkBudget {
  w_count_max : nat;
  w_bytes_max : Z;
  w_count : nat;
  w_bytes : Z;
  w_is_closed : bool
}.

Definition window_new (count_max : nat) (bytes_max : Z) : WindowBudget :=
  mkBudget count_max bytes_max 0 0 false.

Definition is_count_full (self : WindowBudget) : bool :=
  bool_decide (w_count_max self ≤ w_count self)%nat.

(** [WindowBudget::try_admit] *)
Definition try_admit (self : WindowBudget) (event_len : Z) : bool * WindowBudget :=
  let framed := framed_len event_len in
  let is_over_bytes :=
    bool_decide (0 < w_count self)%nat && (w_bytes_max self <? sat_add (w_bytes self) framed) in
  if w_is_closed self || is_over_bytes || is_count_full self
  then (false, mkBudget (w_count_max self) (w_bytes_max self) (w_count self) (w_bytes self) true)
  else (true, mkBudget (w_count_max self) (w_bytes_max self) (S (w_count self))
                (sat_add (w_bytes self) framed) (w_is_closed self)).

(** [WindowBudget::is_cut_short] *)
Definition is_cut_short (self : WindowBudget) : bool :=
  if bool_decide (w_count_max self = 0%nat) then false
  else w_is_closed self || is_count_full self.

(** Offering a run of events to a window, one [try_admit] each. *)
Fixpoint admit_all (self : WindowBudget) (event_lens : list Z) : list bool * WindowBudget :=
  match event_lens with
  | [] => ([], self)
  | l :: rest =>
      let '(b, self) := try_admit self l in
      let '(bs, self) := admit_all self rest in
      (b :: bs, self)
  end.

(** [data.get(a..b)]: [None] out of range. *)
Definition get_range (data : list Z) (a b : Z) : option (list Z) :=
  match slice (E := ()) data a b with Ok s => Some s | _ => None end.

(** The loop of [split_length_prefixed]; every turn moves [at_] forward by at
    least the prefix, so a fuel of the section's length is never used up. *)
Fixpoint split_loop (fuel : nat) (data : list Z) (at_ : Z) (events : list (list Z))
  : Result PackError (list (list Z)) :=
  if at_ <? zlen data then
    match fuel with
    | O => Panic
    | S fuel =>
        at4 ← add_usize at_ EVENT_LEN_PREFIX;
        prefix ← ok_or (get_range data at_ at4) (Truncated at4 (zlen data));
        let len := from_be prefix in
        let at_ := at4 in
        stop ← add_usize at_ len;
        event ← ok_or (get_range data at_ stop) (Truncated stop (zlen data));
        split_loop fuel data stop (events ++ [event])
    end
  else Ok events.

(** [split_length_prefixed] *)
Definition split_length_prefixed (data : list Z) : Result PackError (list (list Z)) :=
  split_loop (length data) data 0 [].

End WithUsize.

(** ** The layout *)

(** The bytes [length_prefixed] writes when every event fits its prefix. *)
Fixpoint frames (events : list (list Z)) : list Z :=
  match events with
  | [] => []
  | e :: rest => be_bytes 4 (zlen e) ++ e ++ frames rest
  end.

Lemma length_prefixed_frames events :
  Forall (λ e, zlen e ≤ u32_max) events → length_prefixed events = Ok (frames events).
Proof.
  unfold length_prefixed. change (Ok (frames events)) with (Ok (E := PackError) ([] ++ frames events)).
  generalize (@nil Z) as pre. intros pre Hfit. revert pre.
  induction Hfit as [|e events He _ IH]; intros pre; simpl; [by rewrite app_nil_r|].
  unfold u32_try_from at 2. rewrite (proj2 (Z.leb_le _ _)) by done. simpl.
  rewrite IH. f_equal. by rewrite <- !app_assoc.
Qed.

Lemma length_prefixed_Ok events data :
  length_prefixed events = Ok data →
  Forall (λ e, zlen e ≤ u32_max) events ∧ data = frames events.
Proof.
  intros H. assert (Hfit : Forall (λ e, zlen e ≤ u32_max) events).
  { revert H. unfold length_prefixed. generalize (@nil Z) as pre.
    induction events as [|e events IH]; intros pre H; [constructor|].
    simpl in H. unfold u32_try_from in H at 2.
    destruct (Z.leb_spec (zlen e) u32_max) as [He|He]; simpl in H.
    - constructor; [done|]. eapply IH, H.
    - exfalso. clear -H. induction events; simpl in H; [done|]. apply IHevents, H. }
  split; [done|]. rewrite length_prefixed_frames in H by done. congruence.
Qed.

(** ** Splitting is the inverse of prefixing *)

Section Split.
Context `{!Usize}.

Lemma get_range_mid (l l1 m l2 : list Z) a b :
  l = l1 ++ m ++ l2 → a = zlen l1 → b = a + zlen m → get_range l a b = Some m.
Proof. intros -> -> ->. unfold get_range. by rewrite (slice_app l1 m l2). Qed.

Lemma get_range_inv data a b m :
  get_range data a b = Some m →
  ∃ l1 l2, data = l1 ++ m ++ l2 ∧ zlen l1 = a ∧ zlen m = b - a.
Proof.
  unfold get_range. destruct (slice data a b) as [m'| |] eqn:Hs; intros [= <-].
  by apply slice_inv in Hs.
Qed.

Lemma split_loop_frames events :
  Forall (λ e, zlen e ≤ u32_max) events →
  ∀ fuel pre acc,
    zlen (pre ++ frames events) ≤ isize_max → (length (frames events) ≤ fuel)%nat →
    split_loop fuel (pre ++ frames events) (zlen pre) acc = Ok (acc ++ events).
Proof.
  induction 1 as [|e events He _ IH]; intros fuel pre acc Hmax Hfuel; cbn [frames] in *.
  { rewrite !app_nil_r. destruct fuel; simpl; by rewrite Z.ltb_irrefl. }
  rewrite !length_app, length_be_bytes in Hfuel.
  destruct fuel as [|fuel]; [lia|]. cbn [split_loop]. set (data := pre ++ _) in *.
  assert (Hlen : zlen data = zlen pre + 4 + zlen e + zlen (frames events)) by (unfold data; zl).
  zlen_nonneg_all. rewrite (proj2 (Z.ltb_lt _ _)) by lia.
  unfold EVENT_LEN_PREFIX. rewrite add_usize_Ok, bind_Ok by usize_lia.
  rewrite (get_range_mid data pre (be_bytes 4 (zlen e)) (e ++ frames events) (zlen pre))
    by (done || rewrite zlen_be_bytes; lia).
  cbn [ok_or]. rewrite bind_Ok, from_be_be_bytes_small by (simpl; unfold u32_max in He; lia).
  rewrite add_usize_Ok, bind_Ok by usize_lia.
  assert (Hdata : data = (pre ++ be_bytes 4 (zlen e)) ++ e ++ frames events)
    by (unfold data; by rewrite <- app_assoc).
  rewrite (get_range_mid data (pre ++ be_bytes 4 (zlen e)) e (frames events)) by (done || zl).
  cbn [ok_or]. rewrite bind_Ok.
  specialize (IH fuel ((pre ++ be_bytes 4 (zlen e)) ++ e) (acc ++ [e])).
  rewrite <- !app_assoc in IH.
  replace (zlen pre + 4 + zlen e) with (zlen (pre ++ be_bytes 4 (zlen e) ++ e)) by zl.
  apply IH; [by fold data|lia].
Qed.

Lemma split_loop_inv fuel data :
  bytes_ok data → ∀ pre rest acc events,
    data = pre ++ rest → split_loop fuel data (zlen pre) acc = Ok events →
    ∃ es, events = acc ++ es ∧ rest = frames es ∧ Forall (λ e, zlen e ≤ u32_max) es.
Proof.
  intros Hok. induction fuel as [|fuel IH]; intros pre rest acc events -> Hs; simpl in Hs.
  - destruct (Z.ltb_spec (zlen pre) (zlen (pre ++ rest))) as [|Hle]; [done|].
    assert (rest = []) as -> by (destruct rest; [done|zl]).
    exists []. rewrite app_nil_r. simplify_eq. done.
  - destruct (Z.ltb_spec (zlen pre) (zlen (pre ++ rest))) as [Hlt|Hle].
    2:{ assert (rest = []) as -> by (destruct rest; [done|zl]).
        exists []. rewrite app_nil_r. simplify_eq. done. }
    apply bind_Ok_inv in Hs as (at4 & [-> _]%add_usize_inv & Hs).
    apply bind_Ok_inv in Hs as (pfx & Hp & Hs).
    destruct (get_range _ _ _) as [pfx'|] eqn:Hg; [|done]. injection Hp as ->.
    apply get_range_inv in Hg as (l1 & l2 & Hd & Hl1 & Hlp).
    apply app_inj_1 in Hd as [-> ->]; [|unfold zlen in *; lia].
    apply bind_Ok_inv in Hs as (stop & [-> _]%add_usize_inv & Hs).
    apply bind_Ok_inv in Hs as (e & Hp & Hs).
    destruct (get_range _ _ _) as [e'|] eqn:Hg; [|done]. injection Hp as ->.
    apply get_range_inv in Hg as (l3 & l4 & Hd & Hl3 & Hle).
    unfold EVENT_LEN_PREFIX in *. rewrite app_assoc in Hd.
    apply app_inj_1 in Hd as [<- ->]; [|rewrite length_app; unfold zlen in *; lia].
    apply Forall_app in Hok as [_ [Hpo _]%Forall_app].
    pose proof (from_be_bound _ Hpo) as Hb. replace (zlen pfx) with 4 in Hb by lia.
    assert (He : zlen e = from_be pfx) by lia.
    replace (zlen l1 + 4 + from_be pfx) with (zlen (l1 ++ pfx ++ e)) in Hs by zl.
    destruct (IH (l1 ++ pfx ++ e) l4 (acc ++ [e]) events) as (es & -> & -> & Hes);
      [by rewrite <- !app_assoc|exact Hs|].
    exists (e :: es). rewrite <- app_assoc. split_and!; [done| |].
    + cbn [frames]. f_equal. rewrite He. symmetry. apply be_bytes_from_be; [done|unfold zlen in *; lia].
    + constructor; [|done]. change (2 ^ (8 * 4)) with 4294967296 in Hb. unfold u32_max. lia.
Qed.

Lemma split_loop_not_Panic fuel data :
  bytes_ok data → zlen data + u32_max ≤ usize_max → ∀ pre rest acc,
    data = pre ++ rest → (length rest ≤ fuel)%nat → split_loop fuel data (zlen pre) acc ≠ Panic.
Proof.
  intros Hok Hmax. induction fuel as [|fuel IH]; intros pre rest acc Heq Hfuel; simpl.
  - destruct rest; [|simpl in Hfuel; lia]. rewrite app_nil_r in Heq. subst. by rewrite Z.ltb_irrefl.
  - destruct (Z.ltb_spec (zlen pre) (zlen data)) as [Hlt|Hle]; [|done].
    unfold EVENT_LEN_PREFIX. unfold u32_max in Hmax. rewrite add_usize_Ok, bind_Ok by lia.
    destruct (get_range data _ _) as [pfx|] eqn:Hg; [|done]. cbn [ok_or]. rewrite bind_Ok.
    apply get_range_inv in Hg as (l1 & l2 & Hd & Hl1 & Hlp).
    pose proof Hok as Hok'. rewrite Hd in Hok'.
    apply Forall_app in Hok' as [_ [Hpo _]%Forall_app].
    pose proof (from_be_bound _ Hpo) as Hb. replace (zlen pfx) with 4 in Hb by lia.
    change (2 ^ (8 * 4)) with 4294967296 in Hb.
    assert (zlen pre + 4 ≤ zlen data) by (rewrite Hd, !zlen_app; zlen_nonneg_all; lia).
    rewrite add_usize_Ok, bind_Ok by lia.
    destruct (get_range data _ _) as [e|] eqn:Hg; [|done]. cbn [ok_or]. rewrite bind_Ok.
    apply get_range_inv in Hg as (l3 & l4 & Hd2 & Hl3 & Hle).
    replace (zlen pre + 4 + from_be pfx) with (zlen (l3 ++ e)) by zl.
    apply (IH (l3 ++ e) l4); [by rewrite <- app_assoc|].
    apply (f_equal length) in Hd2. rewrite Heq, !length_app in Hd2. unfold zlen in *. lia.
Qed.

End Split.

(** a run of events and its data section determine each other: what
    [length_prefixed] writes splits back into the same events in the same order,
    every section that splits is what [length_prefixed] writes for the pieces,
    and on a 64-bit target splitting hostile bytes ends in a value. *)
Theorem event_frames_roundtrip `{Usize} (events : list (list Z)) (data : list Z)
    (Hok : bytes_ok data) (Hmax : zlen data ≤ isize_max) :
  (length_prefixed events = Ok data ↔ split_length_prefixed data = Ok events) ∧
  (usize_bits = 64 → split_length_prefixed data ≠ Panic).
Proof.
  unfold split_length_prefixed. split; [split|].
  - intros [Hfit ->]%length_prefixed_Ok. by apply (split_loop_frames events Hfit _ [] []).
  - intros Hs. destruct (split_loop_inv _ data Hok [] data [] events eq_refl Hs)
      as (es & -> & -> & Hfit). by apply length_prefixed_frames.
  - intros H64. apply (split_loop_not_Panic _ data Hok) with (pre := []) (rest := data); [|done..].
    unfold usize_max, isize_max, u32_max in *. rewrite H64 in *. simpl in *. lia.
Qed.

Lemma event_frames_roundtrip_witness :
  split_length_prefixed (H := usize_64) [0; 0; 0; 2; 123; 125; 0; 0; 0; 0] = Ok [[123; 125]; []].
Proof.
  apply (event_frames_roundtrip (H := usize_64) [[123; 125]; []]).
  - apply (bool_decide_unpack _). by vm_compute.
  - by vm_compute.
  - by vm_compute.
Defined.

(** ** Cutting a run of events into packs *)

(** What a run of events costs in a data section, with no machine bound. *)
Fixpoint framed_total (lens : list Z) : Z :=
  match lens with [] => 0 | l :: rest => (4 + l) + framed_total rest end.

(** The cost of the events at positions [s .. e-1]. *)
Definition seg_total (lens : list Z) (s e : nat) : Z :=
  framed_total (take (e - s) (drop s lens)).

(** The ranges are nonempty, follow each other without a gap and lead from
    [a] to [b]. *)
Fixpoint chain (a : nat) (rs : list (nat * nat)) (b : nat) : Prop :=
  match rs with
  | [] => a = b
  | (s, e) :: rest => s = a ∧ (s < e)%nat ∧ chain e rest b
  end.

(** A pack within both caps, but for an event that alone is over the second. *)
Definition pack_within (lens : list Z) (cm : nat) (dm : Z) (r : nat * nat) : Prop :=
  (r.2 - r.1 ≤ cm)%nat ∧ (seg_total lens r.1 r.2 ≤ dm ∨ r.2 = S r.1).

(** A pack that the next event would take past one of the caps. *)
Definition pack_full (lens : list Z) (cm : nat) (dm : Z) (r : nat * nat) : Prop :=
  (r.2 - r.1)%nat = cm ∨ dm < seg_total lens r.1 (S r.2).

Lemma framed_total_snoc lens l : framed_total (lens ++ [l]) = framed_total lens + (4 + l).
Proof. induction lens as [|x lens IH]; simpl; [lia|]. rewrite IH. lia. Qed.

Lemma seg_total_S lens s p l :
  (s ≤ p)%nat → lens !! p = Some l → seg_total lens s (S p) = seg_total lens s p + (4 + l).
Proof.
  intros Hs Hl. unfold seg_total. replace (S p - s)%nat with (S (p - s)) by lia.
  erewrite take_S_r; [apply framed_total_snoc|].
  rewrite lookup_drop. by replace (s + (p - s))%nat with p by lia.
Qed.

Lemma seg_total_empty lens s : seg_total lens s s = 0.
Proof. unfold seg_total. by rewrite Nat.sub_diag. Qed.

Lemma seg_total_nonneg lens s e : Forall (Z.le 0) lens → 0 ≤ seg_total lens s e.
Proof.
  intros Hl. apply (Forall_drop _ s), (Forall_take _ (e - s)) in Hl. unfold seg_total.
  induction Hl; simpl; lia.
Qed.

Lemma chain_snoc a rs b c : chain a rs b → (b < c)%nat → chain a (rs ++ [(b, c)]) c.
Proof. revert a. induction rs as [|[s e] rs IH]; intros a; simpl; naive_solver. Qed.

Section Cutting.
Context `{!Usize} (lens : list Z) (cm : nat) (dm : Z).
Context (Hcm : (0 < cm)%nat) (Hlens : Forall (Z.le 0) lens) (Hdm : dm < usize_max).

(** What the loop of [list_pack_ranges] keeps before position [p]. *)
Record cut_inv (c : Cut) (p : nat) : Prop := {
  ci_chain : chain 0 (c_ranges c) (c_start c);
  ci_within : Forall (pack_within lens cm dm) (c_ranges c);
  ci_full : Forall (pack_full lens cm dm) (c_ranges c);
  ci_pos : (c_start c + c_count c = p)%nat;
  ci_len : c_data_len c = Z.min (seg_total lens (c_start c) p) usize_max;
  ci_open : pack_within lens cm dm (c_start c, p);
  ci_empty : c_count c = 0%nat → p = 0%nat
}.

Lemma cut_step_inv c p l :
  lens !! p = Some l → cut_inv c p → cut_inv (cut_step cm dm c (p, l)) (S p).
Proof.
  intros Hl [Hch Hw Hf Hp Hd Ho He].
  pose proof (Forall_lookup_1 _ _ _ _ Hlens Hl) as Hl0.
  pose proof (seg_total_nonneg lens (c_start c) p Hlens) as Ht0.
  pose proof (seg_total_S lens (c_start c) p l ltac:(lia) Hl) as HS.
  pose proof usize_max_cases as Hmax. unfold u32_max, u64_max in Hmax.
  assert (Hone : seg_total lens p (S p) = 4 + l)
    by (rewrite (seg_total_S lens p p l), seg_total_empty by done; lia).
  unfold cut_step, framed_len, sat_add, EVENT_LEN_PREFIX. rewrite Hd.
  case_bool_decide as Hfull; simpl.
  { split; simpl; try done; try lia.
    - apply chain_snoc; [done|]. lia.
    - apply Forall_app; split; [done|]. by constructor.
    - apply Forall_app; split; [done|]. constructor; [|done]. left. simpl.
      destruct Ho as [Ho _]. simpl in Ho. lia.
    - split; simpl; [lia|by right]. }
  case_bool_decide as Hpos; simpl; [destruct (Z.ltb_spec dm (Z.min (Z.min (seg_total lens (c_start c) p) usize_max + Z.min (4 + l) usize_max) usize_max)) as [Hov|Hov]|].
  - split; simpl; try done; try lia.
    + apply chain_snoc; [done|]. lia.
    + apply Forall_app; split; [done|]. by constructor.
    + apply Forall_app; split; [done|]. constructor; [|done]. right. simpl. lia.
    + split; simpl; [lia|by right].
  - split; simpl; try done; try lia. split; simpl; [lia|]. left. lia.
  - split; simpl; try done; try lia. split; simpl; [lia|]. right. lia.
Qed.

Lemma cut_fold_inv rest p c :
  drop p lens = rest → cut_inv c p →
  cut_inv (foldl (cut_step cm dm) c (imap (λ i l, ((p + i)%nat, l)) rest)) (p + length rest).
Proof.
  revert p c. induction rest as [|l rest IH]; intros p c Hdrop Hinv; simpl.
  { by rewrite Nat.add_0_r. }
  assert (Hl : lens !! p = Some l) by (rewrite <- (Nat.add_0_r p), <- lookup_drop; by rewrite Hdrop).
  rewrite Nat.add_0_r. replace (p + S (length rest))%nat with (S p + length rest)%nat by lia.
  erewrite imap_ext; [apply (IH (S p))|].
  - rewrite <- Nat.add_1_r, <- drop_drop, Hdrop. done.
  - by apply cut_step_inv.
  - intros i x _. simpl. f_equal. lia.
Qed.

End Cutting.

(** [list_pack_ranges] covers every event exactly once, in order, by
    nonempty ranges; no pack holds more than [count_max] events (0 read as 1),
    none costs more than [data_max] unless it is a single event, and a pack is
    only closed when the event after it would have passed one of the caps. *)
Theorem pack_ranges_correct `{!Usize} (lens : list Z) (count_max : nat) (data_max : Z)
    (Hlens : Forall (Z.le 0) lens) (Hdm : 0 ≤ data_max < usize_max) :
  let cm := Nat.max count_max 1 in
  let rs := list_pack_ranges lens count_max data_max in
  chain 0 rs (length lens) ∧
  Forall (pack_within lens cm data_max) rs ∧
  Forall (pack_full lens cm data_max) (removelast rs).
Proof.
  unfold list_pack_ranges, enumerate. set (cm := Nat.max count_max 1). cbv zeta.
  assert (Hinit : cut_inv lens cm data_max (mkCut [] 0 0 0) 0).
  { pose proof usize_max_cases as Hmax. unfold u32_max, u64_max in Hmax.
    split; simpl; try done; [rewrite seg_total_empty; lia|].
    split; simpl; [lia|]. left. rewrite seg_total_empty. lia. }
  pose proof (cut_fold_inv lens cm data_max ltac:(lia) Hlens ltac:(lia) lens 0 _
    (drop_0 _) Hinit) as [Hch Hw Hf Hp _ Ho He]. simpl in *.
  change (λ (i : nat) (l : Z), (i, l)) with (@pair nat Z) in *.
  case_bool_decide as Hc.
  - rewrite removelast_last, Hp. split_and!; [|apply Forall_app; split; [done|]|done].
    + apply chain_snoc; [done|lia].
    + by constructor.
  - specialize (He ltac:(lia)). rewrite He in *.
    destruct (length lens) eqn:Hn; [|done]. destruct lens; [|done]. done.
Qed.

Lemma pack_ranges_correct_witness :
  let rs := list_pack_ranges (H := usize_64) [10; 10; 10; 50; 1; 2; 3] 2 40 in
  chain 0 rs 7 ∧ Forall (pack_within [10; 10; 10; 50; 1; 2; 3] 2 40) rs ∧
  Forall (pack_full [10; 10; 10; 50; 1; 2; 3] 2 40) (removelast rs) ∧
  rs = [(0, 2); (2, 3); (3, 4); (4, 6); (6, 7)]%nat.
Proof.
  pose proof (pack_ranges_correct (H := usize_64) [10; 10; 10; 50; 1; 2; 3] 2 40) as Hp.
  cbv zeta in Hp. destruct Hp as (H1 & H2 & H3).
  - repeat constructor; lia.
  - by vm_compute.
  - split_and!; [exact H1|exact H2|exact H3|by vm_compute].
Defined.

(** ** The budget of a window *)

Section Window.
Context `{!Usize} (cm : nat) (bm : Z) (Hbm : bm < usize_max).

(** An open window that has admitted the events of lengths [pre]. *)
Definition open_window (pre : list Z) : WindowBudget :=
  mkBudget cm bm (length pre) (Z.min (framed_total pre) usize_max) false.

Lemma admit_all_closed (w : WindowBudget) lens :
  w_is_closed w = true → admit_all w lens = (replicate (length lens) false, w).
Proof.
  intros Hc. induction lens as [|l lens IH]; [done|]. simpl. unfold try_admit. rewrite Hc. simpl.
  destruct w; simpl in *; subst. by rewrite IH.
Qed.

(** The events admitted so far are within both caps, the first one apart. *)
Definition window_within (pre : list Z) : Prop :=
  (length pre ≤ cm)%nat ∧ (framed_total pre ≤ bm ∨ (length pre ≤ 1)%nat).

(** The event [l] would take the window past one of the caps. *)
Definition window_refuses (pre : list Z) (l : Z) : Prop :=
  length pre = cm ∨ pre ≠ [] ∧ bm < framed_total (pre ++ [l]).

Lemma framed_total_nonneg lens : Forall (Z.le 0) lens → 0 ≤ framed_total lens.
Proof. induction 1; simpl; lia. Qed.

(** One [try_admit] on an open window: the event joins, or the window closes. *)
Lemma try_admit_open pre l :
  0 ≤ l → Forall (Z.le 0) pre → window_within pre →
  (window_within (pre ++ [l]) ∧ try_admit (open_window pre) l = (true, open_window (pre ++ [l]))) ∨
  (window_refuses pre l ∧
   ∃ w, try_admit (open_window pre) l = (false, w) ∧ w_is_closed w = true ∧
        w_count w = length pre ∧ w_count_max w = cm).
Proof.
  intros Hl Hp [Hc Hb]. pose proof (framed_total_nonneg pre Hp) as H0.
  pose proof usize_max_cases as Hmax. unfold u32_max, u64_max in Hmax.
  pose proof (framed_total_snoc pre l) as Hs.
  unfold try_admit, open_window, is_count_full, framed_len, sat_add, EVENT_LEN_PREFIX.
  cbn [w_count w_bytes w_is_closed w_bytes_max w_count_max orb].
  set (over := bool_decide _ && _). assert (Hover : over = true ↔ pre ≠ [] ∧ bm < framed_total (pre ++ [l])).
  { unfold over. rewrite andb_true_iff, bool_decide_eq_true, Z.ltb_lt.
    destruct pre; simpl length; split; intros [? ?]; split; try done; lia. }
  destruct over.
  { right. apply proj1 in Hover. specialize (Hover eq_refl).
    split; [by right|]. eexists. done. }
  case_bool_decide as Hfull; simpl.
  { right. split; [left; lia|]. eexists. done. }
  left. split.
  - split; rewrite length_app; simpl; [lia|].
    destruct pre as [|x pre]; [right; simpl; lia|left].
    apply Z.le_ngt. intros Hlt. destruct Hover as [_ Hover]. discriminate Hover. done.
  - do 2 f_equal; [rewrite length_app; simpl; lia|lia].
Qed.

Lemma admit_all_open lens pre :
  Forall (Z.le 0) lens → Forall (Z.le 0) pre → window_within pre →
  ∃ taken refused w,
    lens = taken ++ refused ∧
    admit_all (open_window pre) lens =
      (replicate (length taken) true ++ replicate (length refused) false, w) ∧
    window_within (pre ++ taken) ∧
    (∀ l, head refused = Some l → window_refuses (pre ++ taken) l) ∧
    w_count w = length (pre ++ taken) ∧ w_count_max w = cm ∧
    w_is_closed w = bool_decide (refused ≠ []).
Proof.
  revert pre. induction lens as [|l lens IH]; intros pre Hl Hp Hw.
  { exists [], [], (open_window pre). rewrite !app_nil_r. split_and!; try done; by rewrite app_nil_r. }
  inversion Hl as [|? ? Hl0 Hl']; subst. cbn [admit_all].
  destruct (try_admit_open pre l Hl0 Hp Hw) as [[Hw' ->]|(Hr & w & -> & Hcl & Hn & Hm)].
  - destruct (IH (pre ++ [l])) as (tk & rf & w & -> & -> & H1 & H2 & H3 & H4 & H5); [done| |done|].
    { apply Forall_app; split; [done|by constructor]. }
    exists (l :: tk), rf, w. rewrite <- app_assoc in *. split_and!; done.
  - rewrite (admit_all_closed w lens Hcl). exists [], (l :: lens), w. rewrite !app_nil_r.
    split_and!; try done. by intros ? [= <-].
Qed.

End Window.

(** A window admits a prefix of the events it is offered and, once it has
    refused one, nothing after it; what it holds is within [count_max], and
    within [bytes_max] unless it is the one first event; the first event it
    refuses would have passed a cap; and [is_cut_short] is true exactly when
    something was asked for and an event was refused or the count is full. *)
Theorem window_admits_prefix `{!Usize} (count_max : nat) (bytes_max : Z) (lens : list Z)
    (Hlens : Forall (Z.le 0) lens) (Hbm : bytes_max < usize_max) :
  ∃ taken refused w,
    lens = taken ++ refused ∧
    admit_all (window_new count_max bytes_max) lens =
      (replicate (length taken) true ++ replicate (length refused) false, w) ∧
    window_within count_max bytes_max taken ∧
    (∀ l, head refused = Some l → window_refuses count_max bytes_max taken l) ∧
    (is_cut_short w = true ↔
      count_max ≠ 0%nat ∧ (refused ≠ [] ∨ length taken = count_max)).
Proof.
  destruct (admit_all_open count_max bytes_max Hbm lens []) as (tk & rf & w & -> & Ha & H1 & H2 & H3 & H4 & H5);
    [done|done|split; simpl; lia|].
  pose proof usize_max_cases as Hmax. unfold u32_max, u64_max in Hmax.
  unfold open_window in Ha. simpl in Ha. rewrite Z.min_l in Ha by lia.
  exists tk, rf, w. split_and!; [done|exact Ha|done|done|].
  destruct H1 as [H1 _]. simpl in *.
  unfold is_cut_short, is_count_full. rewrite H4, H5, H3. clear H3 H4 H5.
  case_bool_decide as Hz; [split; [done|by intros []]|]. rewrite orb_true_iff, !bool_decide_eq_true.
  assert (count_max ≤ length tk ↔ length tk = count_max)%nat as -> by lia. naive_solver.
Qed.

Lemma window_admits_prefix_witness :
  ∃ taken refused w,
    [10; 20; 100; 1] = taken ++ refused ∧
    admit_all (H := usize_64) (window_new 8 50) [10; 20; 100; 1] =
      (replicate (length taken) true ++ replicate (length refused) false, w) ∧
    window_within 8 50 taken ∧
    (∀ l, head refused = Some l → window_refuses 8 50 taken l) ∧
    (is_cut_short w = true ↔ 8%nat ≠ 0%nat ∧ (refused ≠ [] ∨ length taken = 8%nat)).
Proof.
  apply (window_admits_prefix (H := usize_64) 8 50 [10; 20; 100; 1]).
  - repeat constructor; lia.
  - by vm_compute.
Defined.
