(* ===== verification/WireInvites.v ===== *)
(** * WireInvites: a pending invite's stripped state

    src/core/wbf/invites.rs (the fields read back out of a stored stripped
    state, and which events are worth storing) and the pure part of
    src/service/membership/stripped_state.rs (what an invite keeps of the
    state its sender supplied).  A [Raw] event is its JSON text as bytes;
    [serde_json::from_slice] is a parameter, the map type's [get] is a lookup
    by key. *)

From S2P Require Import Prelude Json.

Definition STRIPPED_EVENT_LEN_MAX : Z := 65536.
Definition STRIPPED_EVENT_COUNT_MAX : nat := 16.
Definition STRIPPED_TYPES_KEPT : list string :=
  ["m.room.create"; "m.room.join_rules"; "m.room.canonical_alias"; "m.room.name";
   "m.room.avatar"; "m.room.encryption"; "m.room.topic"; "m.room.member"]%string.

Record InviteFields := mkInviteFields {
  inviter : option string;
  is_direct : bool;
  reason : option string
}.

Definition InviteFields_default : InviteFields := mkInviteFields None false None.

Section WithJson.
Variable from_slice : list Z → option Value.

(** [find_own_member_event]: the last match. *)
Definition find_own_member_event (state : list (list Z)) (user : string)
  : option (list (string * Value)) :=
  last (List.filter (λ event,
          bool_decide ((map_get event "type" ≫= as_str) = Some "m.room.member"%string) &&
          bool_decide ((map_get event "state_key" ≫= as_str) = Some user))
        (omap as_object (omap from_slice state))).

(** The struct expression that closes [get_invite_fields]. *)
Definition fields_of_member (member : list (string * Value)) : InviteFields :=
  let content := map_get member "content" ≫= as_object in
  mkInviteFields
    (map_get member "sender" ≫= as_str)
    (default false (c ← content; v ← map_get c "is_direct"; as_bool v))
    (c ← content; v ← map_get c "reason"; as_str v).

(** [get_invite_fields] *)
Definition get_invite_fields (state : list (list Z)) (user : string) : InviteFields :=
  match find_own_member_event state user with
  | None => InviteFields_default
  | Some member => fields_of_member member
  end.

(** [is_stripped_event_kept] *)
Definition is_stripped_event_kept (event : list Z) : bool :=
  if STRIPPED_EVENT_LEN_MAX <? zlen event then false
  else match from_slice event with
       | Some (Object event) =>
           match map_get event "state_key" ≫= as_str with
           | None => false
           | Some _ =>
               match map_get event "type" ≫= as_str with
               | None => false
               | Some event_type => bool_decide (event_type ∈ STRIPPED_TYPES_KEPT)
               end
           end
       | _ => false
       end.

(** ** src/service/membership/stripped_state.rs *)

(** [list_stripped_state_kept] *)
Definition list_stripped_state_kept (state : list (list Z)) : list (list Z) :=
  take STRIPPED_EVENT_COUNT_MAX (List.filter is_stripped_event_kept state).

(** [is_member_event_of] *)
Definition is_member_event_of (event : list Z) (subject : string) : bool :=
  match from_slice event with
  | None => false
  | Some event =>
      bool_decide ((value_get event "type" ≫= as_str) = Some "m.room.member"%string) &&
      bool_decide ((value_get event "state_key" ≫= as_str) = Some subject)
  end.

(** [list_stripped_state_without_member_of] *)
Definition list_stripped_state_without_member_of (state : list (list Z)) (subject : string)
  : list (list Z) :=
  List.filter (λ event, negb (is_member_event_of event subject)) state.

(** [list_invite_stripped_state] *)
Definition list_invite_stripped_state (state : list (list Z)) (invited_user : string)
  : list (list Z) :=
  list_stripped_state_without_member_of (list_stripped_state_kept state) invited_user.

End WithJson.

(** [StrippedCreateVerdict] *)
Inductive StrippedCreateVerdict := Valid | Missing | NotPdu | WrongRoom | BadSignature.

(** [enforce_stripped_create] *)
Definition enforce_stripped_create (verdict : StrippedCreateVerdict) (v12_room_ids enforce : bool)
  : bool :=
  match verdict with
  | Valid => false
  | WrongRoom => v12_room_ids || enforce
  | Missing | NotPdu | BadSignature => enforce
  end.

Section Lemmas.
Variable from_slice : list Z → option Value.

Lemma filter_nil_forall {A} (f : A → bool) l :
  List.filter f l = [] ↔ Forall (λ x, f x = false) l.
Proof.
  induction l as [|x l IH]; simpl; [done|]. rewrite Forall_cons.
  destruct (f x) eqn:Hx; [split; [done|by intros [? _]; congruence]|naive_solver].
Qed.

(** One event, looked at alone: it is found exactly when [is_member_event_of]. *)
Lemma own_member_single event user :
  find_own_member_event from_slice [event] user =
  if is_member_event_of from_slice event user
  then from_slice event ≫= as_object else None.
Proof.
  unfold find_own_member_event, is_member_event_of, value_get.
  simpl. destruct (from_slice event) as [[]|]; simpl; try done.
  repeat case_bool_decide; done.
Qed.

Lemma find_own_app s1 s2 user :
  find_own_member_event from_slice (s1 ++ s2) user =
  match find_own_member_event from_slice s2 user with
  | Some m => Some m
  | None => find_own_member_event from_slice s1 user
  end.
Proof.
  unfold find_own_member_event. rewrite !omap_app, List.filter_app, last_app. done.
Qed.

Lemma find_own_none state user :
  Forall (λ e, is_member_event_of from_slice e user = false) state →
  find_own_member_event from_slice state user = None.
Proof.
  induction 1 as [|e state He _ IH]; [done|].
  change (e :: state) with ([e] ++ state).
  by rewrite find_own_app, IH, own_member_single, He.
Qed.

Lemma invite_state_no_member state user :
  Forall (λ e, is_member_event_of from_slice e user = false)
    (list_invite_stripped_state from_slice state user).
Proof.
  unfold list_invite_stripped_state, list_stripped_state_without_member_of.
  apply List.Forall_forall. intros e [_ He]%List.filter_In. by apply negb_true_iff.
Qed.

Lemma filter_sublist {A} (f : A → bool) l : List.filter f l `sublist_of` l.
Proof. induction l as [|x l IH]; simpl; [done|]. destruct (f x); by constructor. Qed.

Lemma zlen_concat_le {A} (l : list (list A)) M :
  Forall (λ x, zlen x ≤ M) l → zlen (concat l) ≤ zlen l * M.
Proof.
  induction 1 as [|x l Hx _ IH]; simpl; [done|]. rewrite zlen_app, zlen_cons. nia.
Qed.

End Lemmas.

(** Nobody but this server decides what an invite says about itself: put
    the server's own copy of the invited user's member event anywhere among
    what [list_invite_stripped_state] keeps of a sender's state, and
    [get_invite_fields] reads that copy, whatever the sender supplied. *)
Theorem invite_fields_unforgeable (from_slice : list Z → option Value)
    (state before after : list (list Z)) (own : list Z) (user : string)
    (member : list (string * Value))
    (Hown : from_slice own = Some (Object member))
    (Hmember : is_member_event_of from_slice own user = true)
    (Hkept : before ++ after = list_invite_stripped_state from_slice state user) :
  get_invite_fields from_slice (before ++ [own] ++ after) user = fields_of_member member.
Proof.
  pose proof (invite_state_no_member from_slice state user) as Hno.
  rewrite <- Hkept in Hno. apply Forall_app in Hno as [_ Hafter].
  unfold get_invite_fields. rewrite !find_own_app, (find_own_none _ after) by done.
  by rewrite own_member_single, Hmember, Hown.
Qed.

(** What an invite stores of a sender's state is bounded: at most 16 of the
    sender's events, in the sender's order, each at most 65536 bytes of JSON
    that parses to an object with a string [state_key] and a recommended type. *)
Theorem invite_state_bounded (from_slice : list Z → option Value)
    (state : list (list Z)) (user : string) :
  let kept := list_invite_stripped_state from_slice state user in
  (length kept ≤ 16)%nat ∧ kept `sublist_of` state ∧
  zlen (concat kept) ≤ 16 * 65536 ∧
  Forall (λ event, zlen event ≤ 65536 ∧ ∃ m k t,
    from_slice event = Some (Object m) ∧
    map_get m "state_key" = Some (Str k) ∧
    map_get m "type" = Some (Str t) ∧ t ∈ STRIPPED_TYPES_KEPT) kept.
Proof.
  cbv zeta. set (kept := list_invite_stripped_state _ _ _).
  assert (Hsub : kept `sublist_of` list_stripped_state_kept from_slice state) by apply filter_sublist.
  assert (Hlen : (length kept ≤ 16)%nat).
  { apply sublist_length in Hsub. unfold list_stripped_state_kept in Hsub.
    rewrite length_take in Hsub. unfold STRIPPED_EVENT_COUNT_MAX in Hsub. lia. }
  assert (Hall : Forall (λ event, is_stripped_event_kept from_slice event = true) kept).
  { apply List.Forall_forall. intros e [He _]%List.filter_In.
    apply list_elem_of_In in He. eapply elem_of_sublist in He; [|apply sublist_take].
    by apply list_elem_of_In, List.filter_In in He as [_ He]. }
  assert (Hev : Forall (λ event, zlen event ≤ 65536 ∧ ∃ m k t,
    from_slice event = Some (Object m) ∧ map_get m "state_key" = Some (Str k) ∧
    map_get m "type" = Some (Str t) ∧ t ∈ STRIPPED_TYPES_KEPT) kept).
  { apply (Forall_impl _ _ _ Hall). intros event. unfold is_stripped_event_kept, STRIPPED_EVENT_LEN_MAX.
    destruct (Z.ltb_spec 65536 (zlen event)) as [|Hle]; [done|].
    destruct (from_slice event) as [[]|] eqn:Hp; try done.
    destruct (map_get m "state_key") as [[]|] eqn:Hk; try done.
    destruct (map_get m "type") as [[]|] eqn:Ht; try done. simpl.
    intros ?%bool_decide_eq_true. naive_solver. }
  split_and!; [done| | |done].
  - etrans; [exact Hsub|]. etrans; [apply sublist_take|apply filter_sublist].
  - assert (zlen (concat kept) ≤ zlen kept * 65536); [|unfold zlen in *; lia].
    apply zlen_concat_le, (Forall_impl _ _ _ Hev). naive_solver.
Qed.

(** The member events of a witness: the sender's forgery and this server's. *)
Definition sample_member (sender : string) : list (string * Value) :=
  [("type", Str "m.room.member"); ("state_key", Str "@bob:h"); ("sender", Str sender);
   ("content", Object [("is_direct", Bool_ true)])]%string.

Definition sample_from_slice (bytes : list Z) : option Value :=
  match bytes with
  | [1] => Some (Object (sample_member "@mallory:h"))
  | [2] => Some (Object (sample_member "@alice:h"))
  | [3] => Some (Object [("type", Str "m.room.name"); ("state_key", Str "")])%string
  | _ => None
  end.

Lemma invite_fields_unforgeable_witness :
  get_invite_fields sample_from_slice ([] ++ [[2]] ++ [[3]]) "@bob:h" =
  mkInviteFields (Some "@alice:h"%string) true None.
Proof.
  exact (invite_fields_unforgeable sample_from_slice [[1]; [3]; [4]] [] [[3]] [2] "@bob:h"
    (sample_member "@alice:h") eq_refl eq_refl eq_refl).
Defined.
