(* ===== verification/PduId.v ===== *)
(** * PduId: the key of a stored event

    src/core/matrix/pdu/count.rs, raw_id.rs and id.rs: the signed sequence
    number of an event and the packed key it is stored under.  A debug build
    checks [debug_assert!]; [debug_assertions] selects the build. *)

From S2P Require Import Prelude.

Section WithBuild.
Variable debug_assertions : bool.

Inductive Direction := Forward | Backward.

(** [enum Count] *)
Inductive Count :=
| Normal (i : Z)
| Backfilled (i : Z).

Inductive CountError := Arithmetic (msg : string).

Definition debug_assert_valid {E} (self : Count) : Result E () :=
  match self with
  | Backfilled i => if debug_assertions && (0 <? i) then Panic else Ok ()
  | Normal _ => Ok ()
  end.

Definition from_signed (signed : Z) : Count :=
  if signed <=? 0 then Backfilled signed else Normal (as_u64 signed).

Definition from_unsigned (unsigned : Z) : Count := from_signed (as_i64 unsigned).

Definition into_unsigned {E} (self : Count) : Result E Z :=
  _ ← debug_assert_valid self;
  Ok (match self with Normal i => i | Backfilled i => as_u64 i end).

Definition into_signed {E} (self : Count) : Result E Z :=
  _ ← debug_assert_valid self;
  Ok (match self with Normal i => as_i64 i | Backfilled i => i end).

Definition into_normal {E} (self : Count) : Result E Count :=
  _ ← debug_assert_valid self;
  Ok (match self with Normal i => Normal i | Backfilled _ => Normal 0 end).

Definition to_be_bytes {E} (self : Count) : Result E (list Z) :=
  u ← into_unsigned self; Ok (be_bytes 8 u).

(** [uN::checked_add] and friends: [None] out of the type's range. *)
Definition in_range (lo hi x : Z) : option Z := if (lo <=? x) && (x <=? hi) then Some x else None.
Definition clamp (lo hi x : Z) : Z := Z.max lo (Z.min hi x).

Definition checked_add (self : Count) (add : Z) : Result CountError Count :=
  match self with
  | Normal i =>
      v ← ok_or (in_range 0 u64_max (i + add)) (Arithmetic "Count::Normal overflow");
      Ok (Normal v)
  | Backfilled i =>
      v ← ok_or (in_range i64_min i64_max (i + as_i64 add))
            (Arithmetic "Count::Backfilled overflow");
      Ok (Backfilled v)
  end.

Definition checked_sub (self : Count) (sub : Z) : Result CountError Count :=
  match self with
  | Normal i =>
      v ← ok_or (in_range 0 u64_max (i - sub)) (Arithmetic "Count::Normal underflow");
      Ok (Normal v)
  | Backfilled i =>
      v ← ok_or (in_range i64_min i64_max (i - as_i64 sub))
            (Arithmetic "Count::Backfilled underflow");
      Ok (Backfilled v)
  end.

Definition checked_inc (self : Count) (dir : Direction) : Result CountError Count :=
  match dir with Forward => checked_add self 1 | Backward => checked_sub self 1 end.

Definition saturating_add (self : Count) (add : Z) : Count :=
  match self with
  | Normal i => Normal (clamp 0 u64_max (i + add))
  | Backfilled i => Backfilled (clamp i64_min i64_max (i + as_i64 add))
  end.

Definition saturating_sub (self : Count) (sub : Z) : Count :=
  match self with
  | Normal i => Normal (clamp 0 u64_max (i - sub))
  | Backfilled i => Backfilled (clamp i64_min i64_max (i - as_i64 sub))
  end.

Definition saturating_inc (self : Count) (dir : Direction) : Count :=
  match dir with Forward => saturating_add self 1 | Backward => saturating_sub self 1 end.

Definition count_min : Count := Backfilled i64_min.
Definition count_max : Count := Normal i64_max.
Definition count_default : Count := Normal 0.

(** [Ord for Count] *)
Definition count_cmp {E} (self other : Count) : Result E comparison :=
  a ← into_signed self; b ← into_signed other; Ok (a ?= b).

(** ** Keys *)

Record Id := mkId { shortroomid : Z; id_count : Count }.

(** The arrays of a [RawId] hold [NORMAL_LEN] and [BACKFILLED_LEN] bytes. *)
Inductive RawId :=
| RawNormal (raw : list Z)
| RawBackfilled (raw : list Z).

Definition INT_LEN : Z := 8.
Definition NORMAL_LEN : Z := 16.
Definition BACKFILLED_LEN : Z := 24.
Definition MAX_LEN : Z := BACKFILLED_LEN.

(** [slice.try_into::<[u8; n]>().expect(..)] *)
Definition into_array {E} (n : Z) (bs : list Z) : Result E (list Z) :=
  if zlen bs =? n then Ok bs else Panic.

(** [ArrayVec::extend] aborts past the capacity. *)
Definition array_extend {E} (vec bs : list Z) : Result E (list Z) :=
  if zlen (vec ++ bs) <=? MAX_LEN then Ok (vec ++ bs) else Panic.

Definition as_bytes (self : RawId) : list Z :=
  match self with RawNormal raw => raw | RawBackfilled raw => raw end.

Definition raw_shortroomid {E} (self : RawId) : Result E (list Z) :=
  match self with
  | RawNormal raw => s ← slice raw 0 INT_LEN; into_array INT_LEN s
  | RawBackfilled raw => s ← slice raw 0 INT_LEN; into_array INT_LEN s
  end.

Definition raw_count {E} (self : RawId) : Result E (list Z) :=
  match self with
  | RawNormal raw => s ← slice raw INT_LEN (INT_LEN * 2); into_array INT_LEN s
  | RawBackfilled raw => s ← slice raw (INT_LEN * 2) (INT_LEN * 3); into_array INT_LEN s
  end.

(** [From<Id> for RawId] *)
Definition RawId_from_Id {E} (id : Id) : Result E RawId :=
  vec ← array_extend [] (be_bytes 8 (shortroomid id));
  _ ← debug_assert_valid (id_count id);
  match id_count id with
  | Normal count =>
      vec ← array_extend vec (be_bytes 8 count);
      raw ← into_array NORMAL_LEN vec;
      Ok (RawNormal raw)
  | Backfilled count =>
      vec ← array_extend vec (be_bytes 8 0);
      vec ← array_extend vec (be_bytes 8 (as_u64 count));
      raw ← into_array BACKFILLED_LEN vec;
      Ok (RawBackfilled raw)
  end.

(** [From<&[u8]> for RawId] *)
Definition RawId_from_bytes {E} (id : list Z) : Result E RawId :=
  if zlen id =? NORMAL_LEN then
    s ← slice id 0 NORMAL_LEN; raw ← into_array NORMAL_LEN s; Ok (RawNormal raw)
  else if zlen id =? BACKFILLED_LEN then
    s ← slice id 0 BACKFILLED_LEN; raw ← into_array BACKFILLED_LEN s; Ok (RawBackfilled raw)
  else Panic.

(** [From<RawId> for Id] *)
Definition Id_from_RawId {E} (raw : RawId) : Result E Id :=
  room ← raw_shortroomid raw;
  count ← raw_count raw;
  Ok (mkId (from_be room) (from_unsigned (from_be count))).

Definition pdu_count {E} (self : RawId) : Result E Count :=
  id ← Id_from_RawId self; Ok (id_count id).

Definition is_room_eq {E} (self other : RawId) : Result E bool :=
  a ← raw_shortroomid self; b ← raw_shortroomid other; Ok (bool_decide (a = b)).

End WithBuild.

#[global] Instance Count_eq_dec : EqDecision Count.
Proof. solve_decision. Defined.

(** The documented ranges of the two variants. *)
Definition count_valid (c : Count) : Prop :=
  match c with
  | Normal i => 0 ≤ i ≤ i64_max
  | Backfilled i => i64_min ≤ i ≤ 0
  end.

(** A count's place in a timeline. *)
Definition position (c : Count) : Z := match c with Normal i => i | Backfilled i => i end.

(** The bytes of a key. *)
Definition key_bytes (id : Id) : list Z :=
  be_bytes 8 (shortroomid id) ++
  match id_count id with
  | Normal i => be_bytes 8 i
  | Backfilled i => be_bytes 8 0 ++ be_bytes 8 (as_u64 i)
  end.

Definition raw_of (id : Id) : RawId :=
  match id_count id with
  | Normal _ => RawNormal (key_bytes id)
  | Backfilled _ => RawBackfilled (key_bytes id)
  end.

Section Keys.
Variable debug : bool.

Lemma debug_assert_valid_Ok {E} c : count_valid c → debug_assert_valid (E := E) debug c = Ok ().
Proof.
  destruct c as [|i]; [done|]. simpl. intros [_ Hi].
  by rewrite (proj2 (Z.ltb_ge 0 i)), andb_false_r by lia.
Qed.

Lemma zlen_key_bytes id :
  zlen (key_bytes id) = match id_count id with Normal _ => 16 | Backfilled _ => 24 end.
Proof. unfold key_bytes. destruct (id_count id); zl. Qed.

Lemma RawId_from_Id_Ok {E} id :
  count_valid (id_count id) → RawId_from_Id (E := E) debug id = Ok (raw_of id).
Proof.
  intros Hc. unfold RawId_from_Id, raw_of, array_extend, into_array.
  unfold MAX_LEN, BACKFILLED_LEN, NORMAL_LEN.
  rewrite (proj2 (Z.leb_le _ _)), bind_Ok by zl.
  rewrite debug_assert_valid_Ok, bind_Ok by done.
  pose proof (zlen_key_bytes id) as Hlen. unfold key_bytes in *.
  destruct (id_count id) as [i|i].
  - rewrite (proj2 (Z.leb_le _ _)), bind_Ok by zl.
    by rewrite (proj2 (Z.eqb_eq _ _)), bind_Ok by zl.
  - rewrite (proj2 (Z.leb_le _ _)), bind_Ok by zl.
    rewrite (proj2 (Z.leb_le _ _)), bind_Ok by zl.
    rewrite (proj2 (Z.eqb_eq _ _)), bind_Ok by zl.
    by rewrite app_nil_l, <- app_assoc.
Qed.

Lemma RawId_from_bytes_key {E} id : RawId_from_bytes (E := E) (key_bytes id) = Ok (raw_of id).
Proof.
  unfold RawId_from_bytes, raw_of, NORMAL_LEN, BACKFILLED_LEN, into_array.
  pose proof (zlen_key_bytes id) as Hlen. set (k := key_bytes id) in *.
  assert (Hall : ∀ n, zlen k = n → slice (E := E) k 0 n = Ok k).
  { intros n <-. rewrite <- (app_nil_r k) at 1. rewrite <- (app_nil_l (k ++ [])).
    by apply slice_app. }
  destruct (id_count id); rewrite Hlen; simpl.
  - rewrite Hall, bind_Ok by done. by rewrite Hlen.
  - rewrite Hall, bind_Ok by done. by rewrite Hlen.
Qed.

Lemma from_be_u64 x : u64 x → from_be (be_bytes 8 x) = x.
Proof. unfold u64, u64_max. intros. apply from_be_be_bytes_small. simpl. lia. Qed.

Lemma Id_from_raw_of {E} id :
  u64 (shortroomid id) → count_valid (id_count id) →
  Id_from_RawId (E := E) (raw_of id) =
  Ok (mkId (shortroomid id) (from_signed (position (id_count id)))).
Proof.
  intros Hr Hc. unfold Id_from_RawId, raw_shortroomid, raw_count, raw_of, key_bytes, into_array, INT_LEN.
  destruct (id_count id) as [i|i]; simpl in Hc.
  - rewrite (slice_mid _ [] (be_bytes 8 (shortroomid id)) (be_bytes 8 i) 0 8), bind_Ok by (done || zl).
    rewrite (proj2 (Z.eqb_eq _ _)), bind_Ok by zl.
    rewrite (slice_mid _ (be_bytes 8 (shortroomid id)) (be_bytes 8 i) [] 8 (8 * 2)), bind_Ok
      by (rewrite ?app_nil_r; done || zl).
    rewrite (proj2 (Z.eqb_eq _ _)), bind_Ok by zl.
    unfold i64_max in Hc. rewrite !from_be_u64 by (done || unfold u64, u64_max; lia).
    unfold from_unsigned, as_i64, i64_max. by rewrite (proj2 (Z.leb_le _ _)) by lia.
  - rewrite (slice_mid _ [] (be_bytes 8 (shortroomid id)) (be_bytes 8 0 ++ be_bytes 8 (as_u64 i)) 0 8),
      bind_Ok by (done || zl).
    rewrite (proj2 (Z.eqb_eq _ _)), bind_Ok by zl.
    rewrite (slice_mid _ (be_bytes 8 (shortroomid id) ++ be_bytes 8 0) (be_bytes 8 (as_u64 i)) []
      (8 * 2) (8 * 3)), bind_Ok by (rewrite ?app_nil_r, <- ?app_assoc; done || zl).
    rewrite (proj2 (Z.eqb_eq _ _)), bind_Ok by zl.
    rewrite !from_be_u64 by (done || apply as_u64_range).
    unfold from_unsigned. by rewrite as_i64_u64 by (unfold i64, i64_min, i64_max in *; lia).
Qed.

Lemma from_signed_position c :
  count_valid c → c ≠ Normal 0 → from_signed (position c) = c.
Proof.
  unfold from_signed, as_u64. destruct c as [i|i]; simpl; intros Hc Hn.
  - destruct (Z.leb_spec i 0) as [Hi|Hi]; [exfalso; apply Hn; f_equal; lia|].
    unfold i64_max in Hc. by rewrite Z.mod_small by lia.
  - by rewrite (proj2 (Z.leb_le _ _)) by lia.
Qed.

End Keys.

Lemma raw_shortroomid_of {E} id :
  raw_shortroomid (E := E) (raw_of id) = Ok (be_bytes 8 (shortroomid id)).
Proof.
  unfold raw_shortroomid, raw_of, key_bytes, into_array, INT_LEN.
  destruct (id_count id) as [c|c].
  - rewrite (slice_mid _ [] (be_bytes 8 (shortroomid id)) (be_bytes 8 c) 0 8), bind_Ok
      by (done || zl).
    by rewrite (proj2 (Z.eqb_eq _ _)) by zl.
  - rewrite (slice_mid _ [] (be_bytes 8 (shortroomid id)) (be_bytes 8 0 ++ be_bytes 8 (as_u64 c)) 0 8),
      bind_Ok by (done || zl).
    by rewrite (proj2 (Z.eqb_eq _ _)) by zl.
Qed.

(** Packing an event's key and reading it back gives the same room and
    count, in either build, for every count of the documented ranges but
    [Normal 0], whose key reads back as [Backfilled 0]; the stored bytes read
    back to the packed key, and two keys agree on their room exactly when
    [is_room_eq] says so. *)
Theorem pdu_id_roundtrip (debug : bool) (id id' : Id)
    (Hroom : u64 (shortroomid id)) (Hroom' : u64 (shortroomid id'))
    (Hcount : count_valid (id_count id)) (Hcount' : count_valid (id_count id')) :
  ∃ raw raw', RawId_from_Id (E := ()) debug id = Ok raw ∧
    RawId_from_Id (E := ()) debug id' = Ok raw' ∧
    RawId_from_bytes (E := ()) (as_bytes raw) = Ok raw ∧
    Id_from_RawId (E := ()) raw =
      Ok (mkId (shortroomid id)
            (if bool_decide (id_count id = Normal 0) then Backfilled 0 else id_count id)) ∧
    is_room_eq (E := ()) raw raw' = Ok (bool_decide (shortroomid id = shortroomid id')).
Proof.
  exists (raw_of id), (raw_of id'). rewrite !RawId_from_Id_Ok by done. split_and!; [done..| | |].
  - replace (as_bytes (raw_of id)) with (key_bytes id) by (unfold raw_of; by destruct (id_count id)).
    apply RawId_from_bytes_key.
  - rewrite Id_from_raw_of by done. do 2 f_equal.
    case_bool_decide as Hz; [by rewrite Hz|]. by apply from_signed_position.
  - unfold is_room_eq.
    rewrite !raw_shortroomid_of, !bind_Ok. f_equal. apply bool_decide_ext. split; [|by intros ->].
    unfold u64, u64_max in *. apply be_bytes_inj; simpl; lia.
Qed.

Lemma pdu_id_roundtrip_witness :
  ∃ raw raw', RawId_from_Id (E := ()) true (mkId 7 (Backfilled (-3))) = Ok raw ∧
    RawId_from_Id (E := ()) true (mkId 7 (Normal 0)) = Ok raw' ∧
    RawId_from_bytes (E := ()) (as_bytes raw) = Ok raw ∧
    Id_from_RawId (E := ()) raw = Ok (mkId 7 (Backfilled (-3))) ∧
    is_room_eq (E := ()) raw raw' = Ok true.
Proof.
  apply (pdu_id_roundtrip true (mkId 7 (Backfilled (-3))) (mkId 7 (Normal 0)));
    by vm_compute.
Defined.

(** ** Keys sort as timelines do *)

(** The counts events are stored under: zero is neither. *)
Definition count_stored (c : Count) : Prop := count_valid c ∧ position c ≠ 0.

Lemma as_u64_neg i : i64_min ≤ i < 0 → as_u64 i = i + 18446744073709551616.
Proof.
  unfold as_u64, i64_min. intros. symmetry. apply (Z.mod_unique_pos _ _ (-1)); lia.
Qed.

Lemma lex_cmp_u64 x y : u64 x → u64 y → lex_cmp (be_bytes 8 x) (be_bytes 8 y) = (x ?= y).
Proof. unfold u64, u64_max. intros. apply lex_cmp_be_bytes; simpl; lia. Qed.

(** Against the same room prefix, the tail of a key sorts as its position. *)
Lemma key_tail_order (c c' : Count) :
  count_stored c → count_stored c' →
  lex_cmp (drop 8 (key_bytes (mkId 0 c))) (drop 8 (key_bytes (mkId 0 c'))) = (position c ?= position c').
Proof.
  intros [Hv Hn] [Hv' Hn']. unfold key_bytes. cbn [shortroomid id_count].
  rewrite !drop_app_length' by (by rewrite length_be_bytes).
  destruct c as [i|i], c' as [j|j]; cbn [position count_valid] in *; unfold i64_max, i64_min in *.
  - apply lex_cmp_u64; unfold u64, u64_max; lia.
  - rewrite <- (app_nil_r (be_bytes 8 i)), lex_cmp_app by done.
    rewrite lex_cmp_u64 by (unfold u64, u64_max; lia).
    assert (i ?= 0 = Gt) as -> by (apply Z.compare_gt_iff; lia). symmetry. apply Z.compare_gt_iff. lia.
  - rewrite <- (app_nil_r (be_bytes 8 j)), lex_cmp_app by done.
    rewrite lex_cmp_u64 by (unfold u64, u64_max; lia).
    assert (0 ?= j = Lt) as -> by (apply Z.compare_lt_iff; lia). symmetry. apply Z.compare_lt_iff. lia.
  - rewrite lex_cmp_app, lex_cmp_refl, lex_cmp_u64 by (done || apply as_u64_range).
    rewrite !as_u64_neg by (unfold i64_min; lia).
    rewrite !(Z.add_comm _ 18446744073709551616). apply Z.add_compare_mono_l.
Qed.

(** A forward scan of the store reads one room at a time, each room in
    timeline order: the bytes of two keys compare as their rooms do and, within
    a room, as [Ord for Count] does, for every pair of counts events are stored
    under (zero is used by neither timeline). *)
Theorem pdu_key_order (debug : bool) (id id' : Id)
    (Hroom : u64 (shortroomid id)) (Hroom' : u64 (shortroomid id'))
    (Hcount : count_stored (id_count id)) (Hcount' : count_stored (id_count id')) :
  ∃ raw raw' c, RawId_from_Id (E := ()) debug id = Ok raw ∧
    RawId_from_Id (E := ()) debug id' = Ok raw' ∧
    count_cmp (E := ()) debug (id_count id) (id_count id') = Ok c ∧
    lex_cmp (as_bytes raw) (as_bytes raw') =
      match shortroomid id ?= shortroomid id' with Eq => c | other => other end.
Proof.
  exists (raw_of id), (raw_of id'), (position (id_count id) ?= position (id_count id')).
  pose proof Hcount as [Hv _]. pose proof Hcount' as [Hv' _].
  rewrite !RawId_from_Id_Ok by done. split_and!; [done..| |].
  - unfold count_cmp, into_signed. rewrite !debug_assert_valid_Ok, !bind_Ok by done.
    assert (Hp : ∀ c, count_valid c →
      match c with Normal i => as_i64 i | Backfilled i => i end = position c).
    { intros [i|i] Hc; [|done]. simpl in *. unfold as_i64. by rewrite (proj2 (Z.leb_le _ _)) by lia. }
    by rewrite !Hp.
  - assert (Hb : ∀ i, as_bytes (raw_of i) = be_bytes 8 (shortroomid i) ++
      drop 8 (key_bytes (mkId 0 (id_count i)))).
    { intros i. unfold raw_of, key_bytes. cbn [shortroomid id_count].
      rewrite drop_app_length' by (by rewrite length_be_bytes). by destruct (id_count i). }
    rewrite !Hb, lex_cmp_app by done. by rewrite lex_cmp_u64, key_tail_order.
Qed.

Lemma pdu_key_order_witness :
  ∃ raw raw' c, RawId_from_Id (E := ()) false (mkId 7 (Backfilled (-3))) = Ok raw ∧
    RawId_from_Id (E := ()) false (mkId 7 (Normal 2)) = Ok raw' ∧
    count_cmp (E := ()) false (Backfilled (-3)) (Normal 2) = Ok c ∧
    lex_cmp (as_bytes raw) (as_bytes raw') = c.
Proof.
  apply (pdu_key_order false (mkId 7 (Backfilled (-3))) (mkId 7 (Normal 2))); by vm_compute.
Defined.
