(* ===== verification/PduSeq.v ===== *)
(** * PduSeq: the sequence numbers of stored events (src/core/matrix/pdu/seq.rs)

    A room's counters, their stored form, and the two positions kept in a
    stored event's [unsigned].  ruma's [Int::new_saturating] is a parameter;
    [CanonicalJsonObject] is an ordered map, used only by key. *)

From S2P Require Import Prelude Json.

(** [struct SeqBounds] *)
Record SeqBounds := mkBounds { last_forward : Z; next_backfilled : Z }.

Inductive SeqError := Database (expected got : Z).

Definition ENCODED_LEN : Z := 16.

(** [i64::saturating_add] and [saturating_sub] *)
Definition i64_saturate (x : Z) : Z := Z.max i64_min (Z.min i64_max x).

Definition bounds_default : SeqBounds := mkBounds 0 0.

Definition take_forward (self : SeqBounds) : Z * SeqBounds :=
  let last := i64_saturate (last_forward self + 1) in
  (last, mkBounds last (next_backfilled self)).

Definition take_backfilled (self : SeqBounds) : Z * SeqBounds :=
  let seq := next_backfilled self in
  (seq, mkBounds (last_forward self) (i64_saturate (seq - 1))).

(** [i64::to_be_bytes] writes the bits of the value. *)
Definition encode (self : SeqBounds) : list Z :=
  patch (patch (replicate 16 0) 0 (be_bytes 8 (as_u64 (last_forward self)))) 8
    (be_bytes 8 (as_u64 (next_backfilled self))).

Definition decode (bytes : list Z) : Result SeqError SeqBounds :=
  _ ← reject_if (negb (zlen bytes =? ENCODED_LEN)) (Database ENCODED_LEN (zlen bytes));
  a ← slice bytes 0 8;
  b ← slice bytes 8 ENCODED_LEN;
  Ok (mkBounds (as_i64 (from_be a)) (as_i64 (from_be b))).

Definition bounds_wf (self : SeqBounds) : Prop :=
  i64 (last_forward self) ∧ i64 (next_backfilled self).

Lemma encode_parts self :
  encode self = be_bytes 8 (as_u64 (last_forward self)) ++ be_bytes 8 (as_u64 (next_backfilled self)).
Proof. reflexivity. Qed.

Lemma from_be_as_u64 x : i64 x → as_i64 (from_be (be_bytes 8 (as_u64 x))) = x.
Proof.
  intros Hx. pose proof (as_u64_range x) as Hr. unfold u64, u64_max in Hr.
  rewrite from_be_be_bytes_small by (simpl; lia). by apply as_i64_u64.
Qed.

Lemma from_be_8 bs : bytes_ok bs → zlen bs = 8 → be_bytes 8 (as_u64 (as_i64 (from_be bs))) = bs.
Proof.
  intros Hok Hlen. pose proof (from_be_bound bs Hok) as Hb. rewrite Hlen in Hb.
  rewrite as_u64_i64 by (unfold u64, u64_max; change (2 ^ (8 * 8)) with 18446744073709551616 in Hb; lia).
  apply be_bytes_from_be; [done|unfold zlen in Hlen; lia].
Qed.

(** The stored counters of a room read back as they were written, sixteen
    bytes that decode are what [encode] writes for the result, and any other
    length is refused with the length it had. *)
Theorem seq_bounds_roundtrip :
  (∀ b, bounds_wf b → decode (encode b) = Ok b) ∧
  (∀ bytes b, bytes_ok bytes → decode bytes = Ok b → encode b = bytes) ∧
  (∀ bytes, zlen bytes ≠ 16 → decode bytes = Err (Database 16 (zlen bytes))) ∧
  (∀ bytes, decode bytes ≠ Panic).
Proof.
  split_and!.
  - intros b [H1 H2]. unfold decode, ENCODED_LEN. rewrite encode_parts.
    set (l := be_bytes 8 _). set (r := be_bytes 8 _).
    assert (Hl : zlen l = 8) by apply zlen_be_bytes. assert (Hr : zlen r = 8) by apply zlen_be_bytes.
    rewrite zlen_app, Hl, Hr. change (reject_if _ _) with (Ok (E := SeqError) ()). rewrite bind_Ok.
    rewrite (slice_mid _ [] l r 0 8), bind_Ok by (done || zl).
    rewrite (slice_mid _ l r [] 8 16), bind_Ok by (rewrite ?app_nil_r; done || zl).
    unfold l, r. rewrite !from_be_as_u64 by done. by destruct b.
  - intros bytes b Hok H. unfold decode, ENCODED_LEN in H. inv_ok.
    apply negb_false_iff, Z.eqb_eq in Hr.
    apply slice_inv in Hr0 as (l1 & l2 & Hd & Hl1 & Hl).
    apply slice_inv in Hr1 as (l3 & l4 & Hd' & Hl3 & Hl').
    destruct l1; [|unfold zlen in Hl1; simpl in Hl1; lia]. simpl in Hd.
    assert (l4 = []) as -> by (apply (f_equal zlen) in Hd'; destruct l4; [done|zl]).
    rewrite app_nil_r in Hd'. rewrite Hd in Hd'.
    apply app_inj_1 in Hd' as [<- ->]; [|unfold zlen in *; lia].
    rewrite Hd in Hok. apply Forall_app in Hok as [Hok1 Hok2].
    rewrite encode_parts, Hd. cbn [last_forward next_backfilled].
    by rewrite !from_be_8 by (done || lia).
  - intros bytes Hn. unfold decode, ENCODED_LEN. by rewrite (proj2 (Z.eqb_neq _ _) Hn).
  - intros bytes. unfold decode, ENCODED_LEN. destruct (Z.eqb_spec (zlen bytes) 16); [|done].
    cbn [negb reject_if]. rewrite bind_Ok, !slice_Ok by lia. done.
Qed.

(** ** Numbering a room *)

Inductive Take := TakeForward | TakeBackfilled.

(** A room's life as the timeline sees it: one counter taken per stored event. *)
Fixpoint number_events (ops : list Take) (b : SeqBounds) : list Z * SeqBounds :=
  match ops with
  | [] => ([], b)
  | op :: rest =>
      let '(seq, b) := match op with
                       | TakeForward => take_forward b
                       | TakeBackfilled => take_backfilled b
                       end in
      let '(seqs, b) := number_events rest b in
      (seq :: seqs, b)
  end.

Lemma number_events_spec ops b :
  next_backfilled b ≤ 0 ≤ last_forward b →
  last_forward b + zlen ops ≤ i64_max → i64_min ≤ next_backfilled b - zlen ops →
  let '(seqs, b') := number_events ops b in
  NoDup seqs ∧ next_backfilled b' ≤ next_backfilled b ∧ last_forward b ≤ last_forward b' ∧
  (∀ x, x ∈ seqs ↔ next_backfilled b' < x ≤ next_backfilled b ∨
                   last_forward b < x ≤ last_forward b') ∧
  zlen ops = (last_forward b' - next_backfilled b') - (last_forward b - next_backfilled b).
Proof.
  revert b. induction ops as [|op ops IH]; intros b Hb Hmax Hmin; cbn [number_events].
  { split_and!; [constructor|done|done| |rewrite zlen_nil; lia].
    intros x. rewrite elem_of_nil. lia. }
  rewrite zlen_cons in *. pose proof (zlen_nonneg ops).
  destruct op; unfold take_forward, take_backfilled, i64_saturate, i64_min, i64_max in *; cbv zeta beta.
  - rewrite Z.min_r, Z.max_r by lia. specialize (IH (mkBounds (last_forward b + 1) (next_backfilled b))).
    destruct (number_events _ _) as [seqs b']. cbn [last_forward next_backfilled] in IH.
    destruct IH as (Hnd & Hn & Hl & Hin & Hc); [lia..|].
    split_and!; [|lia|lia| |lia].
    + constructor; [|done]. rewrite Hin. lia.
    + intros x. rewrite elem_of_cons, Hin. lia.
  - rewrite Z.min_r, Z.max_r by lia. specialize (IH (mkBounds (last_forward b) (next_backfilled b - 1))).
    destruct (number_events _ _) as [seqs b']. cbn [last_forward next_backfilled] in IH.
    destruct IH as (Hnd & Hn & Hl & Hin & Hc); [lia..|].
    split_and!; [|lia|lia| |lia].
    + constructor; [|done]. rewrite Hin. lia.
    + intros x. rewrite elem_of_cons, Hin. lia.
Qed.

(** A room's numbering has no duplicate and no hole: however forward and
    backfilled events interleave, the numbers handed out from a fresh room are
    distinct and are exactly the interval between the two counters, and the
    counters stay storable, as long as fewer than 2^63 - 1 events are stored. *)
Theorem seq_numbers_contiguous (ops : list Take) (Hlen : zlen ops < i64_max) :
  let '(seqs, b) := number_events ops bounds_default in
  NoDup seqs ∧ (∀ x, x ∈ seqs ↔ next_backfilled b < x ≤ last_forward b) ∧
  bounds_wf b ∧ zlen ops = last_forward b - next_backfilled b.
Proof.
  pose proof (number_events_spec ops bounds_default) as H.
  pose proof (zlen_nonneg ops) as H0. unfold i64_max, i64_min in *.
  destruct (number_events _ _) as [seqs b]. cbn [bounds_default last_forward next_backfilled] in *.
  destruct H as (Hnd & Hn & Hl & Hin & Hc); [lia..|].
  split_and!; [done| |split; unfold i64, i64_min, i64_max; lia|lia].
  intros x. rewrite Hin. lia.
Qed.

Lemma seq_numbers_contiguous_witness :
  let '(seqs, b) := number_events [TakeForward; TakeBackfilled; TakeForward; TakeBackfilled] bounds_default in
  seqs = [1; 0; 2; -1] ∧ NoDup seqs ∧ (∀ x, x ∈ seqs ↔ next_backfilled b < x ≤ last_forward b) ∧
  bounds_wf b ∧ 4 = last_forward b - next_backfilled b.
Proof.
  split; [reflexivity|].
  apply (seq_numbers_contiguous [TakeForward; TakeBackfilled; TakeForward; TakeBackfilled]).
  by vm_compute.
Defined.

(** ** The positions kept in a stored event *)

Definition R_SEQ_KEY : string := "org.wbftw.wbfuwunel.r_seq".
Definition G_SEQ_KEY : string := "org.wbftw.wbfuwunel.g_seq".

Record Positions := mkPositions { r_seq : Z; g_seq : Z }.

Section Positions.
Variable int_new_saturating : Z → Z.

Definition get_unsigned_integer (json : CanonicalJsonObject) (key : string) : option Z :=
  unsigned ← json !! "unsigned"%string;
  match unsigned with
  | CObject unsigned =>
      v ← unsigned !! key;
      match v with CInteger value => Some value | _ => None end
  | _ => None
  end.

Definition get_json_positions (json : CanonicalJsonObject) : option Positions :=
  r ← get_unsigned_integer json R_SEQ_KEY;
  g ← get_unsigned_integer json G_SEQ_KEY;
  Some (mkPositions r g).

(** The object [set_json_positions] writes into: what was there, or a fresh one. *)
Definition unsigned_object (json : CanonicalJsonObject) : CanonicalJsonObject :=
  match json !! "unsigned"%string with Some (CObject u) => u | _ => ∅ end.

Definition set_json_positions (json : CanonicalJsonObject) (positions : Positions)
  : CanonicalJsonObject :=
  let unsigned := unsigned_object json in
  let unsigned := <[R_SEQ_KEY := CInteger (int_new_saturating (r_seq positions))]> unsigned in
  let unsigned := <[G_SEQ_KEY := CInteger (int_new_saturating (g_seq positions))]> unsigned in
  <["unsigned"%string := CObject unsigned]> json.

Definition remove_json_positions (json : CanonicalJsonObject) : CanonicalJsonObject :=
  match json !! "unsigned"%string with
  | Some (CObject unsigned) =>
      <["unsigned"%string := CObject (delete G_SEQ_KEY (delete R_SEQ_KEY unsigned))]> json
  | _ => json
  end.

End Positions.

(** Positions written to a stored event are read back, replace older ones,
    and leave every other member of the event and of its [unsigned] object
    alone; removing them leaves none behind and undoes a write to an event that
    had an [unsigned] object without positions. *)
Theorem positions_set_get_remove (int_new_saturating : Z → Z) (json : CanonicalJsonObject)
    (p q : Positions)
    (Hr : int_new_saturating (r_seq p) = r_seq p) (Hg : int_new_saturating (g_seq p) = g_seq p) :
  let set := set_json_positions int_new_saturating in
  get_json_positions (set json p) = Some p ∧
  set (set json q) p = set json p ∧
  (∀ k, k ≠ "unsigned"%string → set json p !! k = json !! k ∧
                                 remove_json_positions json !! k = json !! k) ∧
  (∀ u k, json !! "unsigned"%string = Some (CObject u) → k ≠ R_SEQ_KEY → k ≠ G_SEQ_KEY →
     unsigned_object (set json p) !! k = u !! k ∧
     unsigned_object (remove_json_positions json) !! k = u !! k) ∧
  get_json_positions (remove_json_positions json) = None ∧
  (∀ u, json !! "unsigned"%string = Some (CObject u) → u !! R_SEQ_KEY = None → u !! G_SEQ_KEY = None →
     remove_json_positions (set json p) = json).
Proof.
  cbv zeta.
  assert (Hne : R_SEQ_KEY ≠ G_SEQ_KEY) by done.
  assert (Hne' : G_SEQ_KEY ≠ R_SEQ_KEY) by done.
  assert (Hset : ∀ p, set_json_positions int_new_saturating json p !! "unsigned"%string =
    Some (CObject (<[G_SEQ_KEY := CInteger (int_new_saturating (g_seq p))]>
      (<[R_SEQ_KEY := CInteger (int_new_saturating (r_seq p))]> (unsigned_object json))))).
  { intros p'. unfold set_json_positions. apply lookup_insert_eq. }
  split_and!.
  - unfold get_json_positions, get_unsigned_integer. rewrite Hset. simpl.
    rewrite (lookup_insert_ne _ G_SEQ_KEY R_SEQ_KEY) by done. rewrite lookup_insert_eq. simpl.
    rewrite lookup_insert_eq. simpl. rewrite Hr, Hg. by destruct p.
  - unfold set_json_positions at 1. unfold unsigned_object at 1. rewrite Hset.
    rewrite (insert_insert_ne _ R_SEQ_KEY G_SEQ_KEY), !insert_insert_eq by done.
    unfold set_json_positions. by rewrite insert_insert_eq.
  - intros k Hk. unfold set_json_positions, remove_json_positions.
    rewrite lookup_insert_ne by done. split; [done|].
    destruct (json !! "unsigned"%string) as [[]|]; try done. by rewrite lookup_insert_ne.
  - intros u k Hu Hk1 Hk2. unfold unsigned_object at 1. rewrite Hset.
    rewrite !lookup_insert_ne by done. unfold unsigned_object. rewrite Hu.
    unfold remove_json_positions. rewrite Hu, lookup_insert_eq. split; [done|].
    by rewrite !lookup_delete_ne.
  - unfold get_json_positions, get_unsigned_integer, remove_json_positions.
    destruct (json !! "unsigned"%string) as [[| | | | |u]|] eqn:Hu; rewrite ?Hu; try done.
    rewrite lookup_insert_eq. simpl. rewrite (lookup_delete_ne _ G_SEQ_KEY R_SEQ_KEY) by done. by rewrite (lookup_delete_eq _ R_SEQ_KEY).
  - intros u Hu H1 H2. unfold remove_json_positions. rewrite Hset. unfold unsigned_object. rewrite Hu.
    rewrite (delete_insert_ne _ R_SEQ_KEY G_SEQ_KEY) by done.
    rewrite (delete_insert_id u R_SEQ_KEY), (delete_insert_id u G_SEQ_KEY) by done.
    unfold set_json_positions. rewrite insert_insert_eq. by apply insert_id.
Qed.

Lemma positions_set_get_remove_witness :
  get_json_positions (set_json_positions (λ x, x) ∅ (mkPositions 42 9001)) = Some (mkPositions 42 9001).
Proof.
  destruct (positions_set_get_remove (λ x, x) ∅ (mkPositions 42 9001) (mkPositions 1 1)) as [Hget _];
    [reflexivity..|]. exact Hget.
Defined.
