(* ===== verification/TwoPhaseCounter.v ===== *)
(** * TwoPhaseCounter: sequence numbers and their retirement

    src/core/utils/two_phase_counter.rs.  A number is dispatched, held by a
    permit while its write runs, and retired when the permit is dropped;
    readers may only go up to the retirement frontier.  The callbacks [commit]
    and [release] act on a world [W] the counter does not know, and may fail or
    unwind.  Every operation takes the lock, so a history of the counter is a
    sequence of operations; an unwinding operation leaves the lock poisoned,
    which the code ignores, so the history goes on from the state it left. *)

From stdpp Require Import sorting.
From S2P Require Import Prelude CoreError Order Bytes.

Section TwoPhase.
Context {W : Type} (debug_assertions : bool).

Definition Callback : Type := Z → W → Res () * W.

(** [struct State] *)
Record State := mkState {
  dispatched : Z;
  commit : Callback;
  pending : list Z;
  release : Callback
}.

(** [struct Permit], without its link to the counter. *)
Record Permit := mkPermit { permit_retired : Z; permit_id : Z }.

Local Notation debug_assert := (Prelude.debug_assert debug_assertions).

(** [State::new] *)
Definition new (init : Z) (commit release : Callback) : State := mkState init commit [] release.

(** [pending.iter().is_sorted()] *)
Definition is_sorted (l : list Z) : bool := bool_decide (Sorted Z.le l).

Definition check_pending (self : State) (id : Z) : bool := existsb (Z.eqb id) (pending self).

Definition pending_index {E} (self : State) (id : Z) : Result E (option nat) :=
  _ ← debug_assert (is_sorted (pending self));
  Ok (binary_search_by (λ e, e ?= id) (pending self)).

Definition retired {E} (self : State) : Result E Z :=
  _ ← debug_assert (is_sorted (pending self));
  Ok (match pending self with val :: _ => Z.max 0 (val - 1) | [] => dispatched self end).

(** What [dispatch] computes before it calls [commit]. *)
Definition next_number (self : State) : Res (Z * Z) :=
  retired ← retired self;
  number ← checked u64_max (dispatched self + 1);
  _ ← debug_assert (negb (check_pending self number));
  Ok (retired, number).

Definition dispatch (self : State) (w : W) : Res (Z * Z) * (State * W) :=
  match next_number self with
  | Ok (retired, number) =>
      match commit self number w with
      | (Ok _, w) =>
          (Ok (retired, number),
           (mkState number (commit self) (pending self ++ [number]) (release self), w))
      | (Err e, w) => (Err e, (self, w))
      | (Panic, w) => (Panic, (self, w))
      end
  | Err e => (Err e, (self, w))
  | Panic => (Panic, (self, w))
  end.

(** The end of [retire]: the oldest number [id] has left the list. *)
Definition release_oldest (self : State) (id : Z) (w : W) : Res () * (State * W) :=
  let number := match pending self with [] => dispatched self | _ :: _ => id end in
  match (debug_assert (id <=? number) : Res ()) with
  | Ok _ =>
      match release self number w with
      | (Panic, w) => (Panic, (self, w))
      | (_, w) => (Ok (), (self, w))
      end
  | _ => (Panic, (self, w))
  end.

Definition retire (self : State) (id : Z) (w : W) : Res () * (State * W) :=
  match _ ← debug_assert (check_pending self id); pending_index (E := Error) self id with
  | Ok None => (Ok (), (self, w))
  | Ok (Some index) =>
      let removed := pending self !! index in
      let self := mkState (dispatched self) (commit self) (delete index (pending self)) (release self) in
      match (debug_assert (bool_decide (removed = Some id)) : Res ()) with
      | Ok _ => if (index =? 0)%nat then release_oldest self id w else (Ok (), (self, w))
      | _ => (Panic, (self, w))
      end
  | _ => (Panic, (self, w))
  end.

(** [Counter::range], [Counter::current] *)
Definition range {E} (self : State) : Result E (Z * Z) :=
  start ← retired self; Ok (start, dispatched self).
Definition current {E} (self : State) : Result E Z := retired self.

(** ** Histories

    The counter, the world, the permits alive and, as a record of the past, the
    numbers handed out. *)

Record System := mkSystem {
  counter : State;
  world : W;
  permits : list Permit;
  issued : list Z
}.

(** [Next] is a call of [Counter::next]; [Drop i] drops the [i]-th permit alive. *)
Inductive Op := Next | Drop (i : nat).

(** [Counter::next] and [Drop for Permit], with the outcome the caller sees. *)
Definition act (op : Op) (sys : System) : Res () * System :=
  match op with
  | Next =>
      match dispatch (counter sys) (world sys) with
      | (Ok (r, id), (s, w)) => (Ok (), mkSystem s w (mkPermit r id :: permits sys) (issued sys ++ [id]))
      | (Err e, (s, w)) => (Err e, mkSystem s w (permits sys) (issued sys))
      | (Panic, (s, w)) => (Panic, mkSystem s w (permits sys) (issued sys))
      end
  | Drop i =>
      match permits sys !! i with
      | Some p =>
          match retire (counter sys) (permit_id p) (world sys) with
          | (o, (s, w)) => (o, mkSystem s w (delete i (permits sys)) (issued sys))
          end
      | None => (Ok (), sys)
      end
  end.

Definition history (ops : list Op) (sys : System) : System :=
  foldl (λ sys op, (act op sys).2) sys ops.

(** [Counter::new] *)
Definition start (init : Z) (commit release : Callback) (w : W) : System :=
  mkSystem (new init commit release) w [] [].

Definition held (sys : System) : list Z := permit_id <$> permits sys.

(** ** Invariant *)

Record counter_ok (init : Z) (sys : System) : Prop := {
  ok_range : 0 ≤ init ≤ dispatched (counter sys) ∧ dispatched (counter sys) ≤ u64_max;
  ok_sorted : StronglySorted Z.lt (pending (counter sys));
  ok_bounds : Forall (λ x, init < x ≤ dispatched (counter sys)) (pending (counter sys));
  ok_held : pending (counter sys) ≡ₚ held sys;
  ok_issued : issued sys = seqZ (init + 1) (dispatched (counter sys) - init)
}.

(** Neither callback unwinds. *)
Definition calm (cb : Callback) : Prop := ∀ n w, (cb n w).1 ≠ Panic.

Lemma strictly_sorted l : StronglySorted Z.lt l → is_sorted l = true.
Proof.
  intros Hl. apply bool_decide_eq_true, StronglySorted_Sorted.
  induction Hl as [|x l Hl IH Hx]; constructor; [done|]. eapply Forall_impl; [done|]. cbn. lia.
Qed.

Lemma sorted_lookup l i j (x y : Z) :
  StronglySorted Z.lt l → (i < j)%nat → l !! i = Some x → l !! j = Some y → x < y.
Proof.
  intros Hl Hij Hx Hy. rewrite <-(take_drop j l) in Hl.
  eapply StronglySorted_app_1_elem_of; [exact Hl|..].
  - apply list_elem_of_lookup. exists i. by rewrite lookup_take_lt.
  - apply list_elem_of_lookup. exists O. by rewrite lookup_drop, Nat.add_0_r.
Qed.

(** On a strictly sorted list the search finds the index of the number. *)
Lemma sorted_search l id i :
  StronglySorted Z.lt l → binary_search_by (λ e, e ?= id) l = Some i ↔ l !! i = Some id.
Proof.
  intros Hl. rewrite binary_search_spec.
  - setoid_rewrite Z.compare_eq_iff. naive_solver.
  - intros a b x y Hab Hx Hy Hlt. pose proof (sorted_lookup l a b x y Hl Hab Hx Hy) as ?.
    apply Z.compare_gt_iff. rewrite Z.compare_lt_iff in Hlt. lia.
Qed.

Lemma sorted_delete l i : StronglySorted Z.lt l → StronglySorted Z.lt (delete i l).
Proof.
  intros Hl. revert i. induction Hl as [|x l Hl IH Hx]; intros [|i]; [constructor..|done|].
  cbn. constructor; [apply IH|]. rewrite Forall_forall in *. intros y Hy. apply Hx.
  eapply sublist_subseteq; [apply sublist_delete|done].
Qed.

(** The retirement value: one below the oldest pending number. *)
Definition frontier (s : State) : Z :=
  match pending s with val :: _ => val - 1 | [] => dispatched s end.

Section Ok.
Context (init : Z) (sys : System) (Hok : counter_ok init sys).

Lemma retired_spec {E} : retired (E := E) (counter sys) = Ok (frontier (counter sys)).
Proof.
  destruct Hok. unfold retired. rewrite debug_assert_true by by apply strictly_sorted.
  cbn. f_equal. unfold frontier. destruct (pending _); [done|].
  apply Forall_cons_1 in ok_bounds0 as [? _]. lia.
Qed.

Lemma frontier_range : init ≤ frontier (counter sys) ≤ dispatched (counter sys).
Proof.
  destruct Hok. unfold frontier. destruct (pending _); [lia|].
  apply Forall_cons_1 in ok_bounds0 as [? _]. lia.
Qed.

Lemma held_range n : n ∈ held sys → init < n ≤ dispatched (counter sys).
Proof. destruct Hok. rewrite <-ok_held0. rewrite Forall_forall in ok_bounds0. auto. Qed.

Lemma held_above n : n ∈ held sys → frontier (counter sys) < n.
Proof.
  destruct Hok. rewrite <-ok_held0. unfold frontier. intros Hn.
  destruct (pending _) as [|v l]; [by apply elem_of_nil in Hn|].
  apply StronglySorted_cons in ok_sorted0 as [Hv _]. rewrite Forall_forall in Hv.
  apply elem_of_cons in Hn as [->|Hn]; [lia|]. specialize (Hv _ Hn). lia.
Qed.

(** The frontier is as far as it can be. *)
Lemma frontier_tight :
  frontier (counter sys) = dispatched (counter sys) ∨ frontier (counter sys) + 1 ∈ held sys.
Proof.
  destruct Hok. rewrite <-ok_held0. unfold frontier. destruct (pending _); [by left|right].
  rewrite Z.sub_add. left.
Qed.

Lemma held_unique : NoDup (held sys).
Proof.
  destruct Hok. rewrite <-ok_held0. clear -ok_sorted0.
  induction ok_sorted0 as [|x l Hl IH Hx]; constructor; [|done]. intros Hin.
  rewrite Forall_forall in Hx. specialize (Hx _ Hin). lia.
Qed.

Lemma next_number_spec :
  next_number (counter sys) =
    n ← checked u64_max (dispatched (counter sys) + 1); Ok (frontier (counter sys), n).
Proof.
  unfold next_number. rewrite retired_spec, bind_Ok.
  destruct (checked u64_max _) as [n| |] eqn:Hn; [|done..]. apply checked_Ok in Hn as [_ ->].
  rewrite !bind_Ok, debug_assert_true; [done|]. apply negb_true_iff, not_true_iff_false. intros Hex.
  apply existsb_exists in Hex as (x & Hx & Heq%Z.eqb_eq). apply list_elem_of_In in Hx.
  destruct Hok. rewrite Forall_forall in ok_bounds0. apply ok_bounds0 in Hx. lia.
Qed.

Lemma retire_spec i id :
  pending (counter sys) !! i = Some id →
  retire (counter sys) id (world sys) =
    let s := mkState (dispatched (counter sys)) (commit (counter sys))
               (delete i (pending (counter sys))) (release (counter sys)) in
    if (i =? 0)%nat then
      match release s (match pending s with [] => dispatched s | _ :: _ => id end) (world sys) with
      | (Panic, w) => (Panic, (s, w))
      | (_, w) => (Ok (), (s, w))
      end
    else (Ok (), (s, world sys)).
Proof.
  intros Hi. destruct Hok. unfold retire, pending_index.
  assert (Hin : id ∈ pending (counter sys)) by by eapply list_elem_of_lookup_2.
  rewrite debug_assert_true, bind_Ok, debug_assert_true, bind_Ok.
  - rewrite (proj2 (sorted_search _ _ i ok_sorted0)), debug_assert_true by (done || by apply bool_decide_eq_true).
    cbn zeta. case_match; [|done]. unfold release_oldest. rewrite debug_assert_true; [done|].
    cbn. rewrite Forall_forall in ok_bounds0. apply ok_bounds0 in Hin. case_match; lia.
  - apply existsb_exists. exists id. split; [by apply list_elem_of_In|apply Z.eqb_refl].
  - by apply strictly_sorted.
Qed.

End Ok.

Lemma start_ok init cm rl w : 0 ≤ init ≤ u64_max → counter_ok init (start init cm rl w).
Proof.
  intros. split; cbn; [lia|constructor|constructor|done|]. by rewrite Z.sub_diag, seqZ_nil.
Qed.

Lemma next_ok init sys w p :
  counter_ok init sys → dispatched (counter sys) + 1 ≤ u64_max →
  counter_ok init (mkSystem
    (mkState (dispatched (counter sys) + 1) (commit (counter sys))
       (pending (counter sys) ++ [dispatched (counter sys) + 1]) (release (counter sys)))
    w (mkPermit p (dispatched (counter sys) + 1) :: permits sys)
    (issued sys ++ [dispatched (counter sys) + 1])).
Proof.
  intros [Hr Hs Hb Hh Hi] Hmax. split; cbn; [lia|..].
  - apply StronglySorted_app. split_and!; [|done|repeat constructor]. rewrite Forall_forall in Hb.
    intros x y Hx ->%list_elem_of_singleton. apply Hb in Hx. lia.
  - apply Forall_app. split; [|constructor; [lia|constructor]].
    eapply Forall_impl; [exact Hb|]. cbn. lia.
  - rewrite Hh. symmetry. apply Permutation_cons_append.
  - rewrite Hi. replace (dispatched (counter sys) + 1 - init) with (dispatched (counter sys) - init + 1) by lia.
    rewrite seqZ_app by lia. f_equal. rewrite seqZ_cons, seqZ_nil by lia. f_equal. lia.
Qed.

Lemma drop_ok init sys w i j p :
  counter_ok init sys → permits sys !! i = Some p → pending (counter sys) !! j = Some (permit_id p) →
  counter_ok init (mkSystem
    (mkState (dispatched (counter sys)) (commit (counter sys)) (delete j (pending (counter sys)))
       (release (counter sys)))
    w (delete i (permits sys)) (issued sys)).
Proof.
  intros [Hr Hs Hb Hh Hi] Hp Hj. split; cbn; [lia|by apply sorted_delete|by apply Forall_delete| |done].
  apply (Permutation_cons_inv (a := permit_id p)). rewrite <-(delete_Permutation _ _ _ Hj), Hh.
  unfold held. pose proof (delete_Permutation _ _ _ Hp) as Hperm.
  by apply (fmap_Permutation permit_id) in Hperm.
Qed.

Lemma held_pending init sys i p :
  counter_ok init sys → permits sys !! i = Some p → ∃ j, pending (counter sys) !! j = Some (permit_id p).
Proof.
  intros Hok Hp. apply list_elem_of_lookup. rewrite (ok_held _ _ Hok). apply list_elem_of_fmap_2.
  by eapply list_elem_of_lookup_2.
Qed.

(** Every operation keeps the invariant, whatever its callbacks do. *)
Lemma act_ok init op sys : counter_ok init sys → counter_ok init (act op sys).2.
Proof.
  intros Hok. destruct op as [|i]; cbn [act].
  - unfold dispatch. rewrite (next_number_spec _ _ Hok). destruct (checked _ _) as [n| |] eqn:Hn.
    + apply checked_Ok in Hn as [Hmax ->]. cbn. destruct (commit _ _ _) as [[| |] w']; cbn.
      * by apply next_ok.
      * destruct Hok; by split.
      * destruct Hok; by split.
    + cbn. destruct Hok; by split.
    + cbn. destruct Hok; by split.
  - destruct (permits sys !! i) as [p|] eqn:Hp; [|done].
    destruct (held_pending _ _ _ _ Hok Hp) as [j Hj]. rewrite (retire_spec _ _ Hok j) by done.
    pose proof (λ w, drop_ok init sys w i j p Hok Hp Hj) as Hdrop. cbn zeta. repeat case_match; cbn; simplify_eq; apply Hdrop.
Qed.

Lemma history_ok init ops sys : counter_ok init sys → counter_ok init (history ops sys).
Proof. revert sys. induction ops as [|op ops IH]; intros sys Hok; [done|]. cbn. by apply IH, act_ok. Qed.

(** The frontier never moves back. *)
Lemma act_frontier init op sys :
  counter_ok init sys → frontier (counter sys) ≤ frontier (counter (act op sys).2).
Proof.
  intros Hok. pose proof (act_ok init op sys Hok) as Hok'. pose proof (frontier_tight _ _ Hok') as Ht.
  assert (Hd : dispatched (counter sys) ≤ dispatched (counter (act op sys).2)
    ∧ ∀ n, n ∈ held (act op sys).2 → n ∈ held sys ∨ dispatched (counter sys) < n).
  { clear Hok' Ht. destruct op as [|i]; cbn [act].
    - unfold dispatch. rewrite (next_number_spec _ _ Hok). destruct (checked _ _) as [n| |] eqn:Hn; cbn; [|auto with lia..].
      apply checked_Ok in Hn as [Hmax ->]. destruct (commit _ _ _) as [[| |] w']; cbn; [|auto with lia..].
      split; [lia|]. intros n [->|]%elem_of_cons; [right; lia|by left].
    - destruct (permits sys !! i) as [p|] eqn:Hp; [|cbn; auto with lia].
      destruct (held_pending _ _ _ _ Hok Hp) as [j Hj]. rewrite (retire_spec _ _ Hok j) by done.
      assert (∀ n, n ∈ permit_id <$> delete i (permits sys) → n ∈ held sys).
      { intros n (q & -> & Hq)%list_elem_of_fmap. apply list_elem_of_fmap_2.
        eapply sublist_subseteq; [apply sublist_delete|done]. }
      cbn zeta. repeat case_match; simplify_eq; cbn; (split; [lia|by left; auto]). }
  destruct Hd as [Hd Hheld]. pose proof (frontier_range _ _ Hok). destruct Ht as [->|Ht]; [lia|].
  apply Hheld in Ht as [Ht|]; [|lia]. apply (held_above _ _ Hok) in Ht. lia.
Qed.

Lemma history_frontier init ops sys :
  counter_ok init sys → frontier (counter sys) ≤ frontier (counter (history ops sys)).
Proof.
  revert sys. induction ops as [|op ops IH]; intros sys Hok; [done|]. cbn.
  etrans; [by apply (act_frontier init)|]. by apply IH, act_ok.
Qed.

(** No assertion fires: only a callback that unwinds makes an operation unwind. *)
Lemma act_no_panic init op sys :
  counter_ok init sys → calm (commit (counter sys)) → calm (release (counter sys)) → (act op sys).1 ≠ Panic.
Proof.
  intros Hok Hc Hr. destruct op as [|i]; cbn [act].
  - unfold dispatch. rewrite (next_number_spec _ _ Hok). unfold checked. destruct (_ <=? _); cbn; [|done].
    specialize (Hc (dispatched (counter sys) + 1) (world sys)). by destruct (commit _ _ _) as [[] ?].
  - destruct (permits sys !! i) as [p|] eqn:Hp; [|done].
    destruct (held_pending _ _ _ _ Hok Hp) as [j Hj]. rewrite (retire_spec _ _ Hok j) by done.
    cbn zeta. destruct (j =? 0)%nat; [|done]. cbn [pending dispatched release].
    match goal with |- context [release (counter sys) ?n ?w] => specialize (Hr n w); destruct (release (counter sys) n w) as [[] ?] end; done.
Qed.

Lemma act_callbacks op sys :
  commit (counter (act op sys).2) = commit (counter sys) ∧ release (counter (act op sys).2) = release (counter sys).
Proof.
  destruct op; cbn [act]; unfold dispatch, retire, release_oldest; repeat case_match; by simplify_eq/=.
Qed.

Lemma history_callbacks ops sys :
  commit (counter (history ops sys)) = commit (counter sys) ∧
  release (counter (history ops sys)) = release (counter sys).
Proof.
  revert sys. induction ops as [|op ops IH]; intros sys; [done|].
  change (history (op :: ops) sys) with (history ops (act op sys).2). destruct (IH (act op sys).2) as [-> ->]. apply act_callbacks.
Qed.

Lemma history_dispatched ops sys : dispatched (counter sys) ≤ dispatched (counter (history ops sys)).
Proof.
  revert sys. induction ops as [|op ops IH]; intros sys; [done|].
  change (history (op :: ops) sys) with (history ops (act op sys).2). etrans; [|apply IH].
  destruct op; cbn [act]; unfold dispatch, retire, release_oldest, next_number; repeat case_match; simplify_eq/=; try lia.
  inv_ok. apply checked_Ok in Hr0 as [_ ->]. lia.
Qed.

(** C31: whatever calls and drops happen in whatever order, and whatever the
    callbacks answer, the numbers handed out are the successors of [init] in
    order, without gap or repetition; the readers' value [current] is exactly
    the greatest one below which every number has been dropped; it never moves
    back; and no debug assertion fires. *)
Theorem two_phase_counter_correct init cm rl w ops more :
  0 ≤ init ≤ u64_max →
  let sys := history ops (start init cm rl w) in
  issued sys = seqZ (init + 1) (dispatched (counter sys) - init)
  ∧ NoDup (held sys) ∧ held sys ⊆ issued sys
  ∧ (∃ r, current (E := Error) (counter sys) = Ok r
      ∧ init ≤ r ≤ dispatched (counter sys)
      ∧ (∀ n, n ∈ held sys → r < n)
      ∧ (r = dispatched (counter sys) ∨ r + 1 ∈ held sys)
      ∧ ∃ r', current (E := Error) (counter (history more sys)) = Ok r' ∧ r ≤ r')
  ∧ (calm cm → calm rl → ∀ op, (act op sys).1 ≠ Panic).
Proof.
  intros Hinit sys. assert (Hok : counter_ok init sys) by by apply history_ok, start_ok.
  pose proof (history_ok init more sys Hok) as Hok'. split_and!.
  - apply Hok.
  - by eapply held_unique.
  - intros n Hn%(held_range _ _ Hok). rewrite (ok_issued _ _ Hok). apply elem_of_seqZ. lia.
  - exists (frontier (counter sys)). pose proof (frontier_range _ _ Hok).
    split_and!; [by eapply retired_spec|lia..| | |].
    + intros n. by eapply held_above.
    + by eapply frontier_tight.
    + exists (frontier (counter (history more sys))).
      split; [by eapply retired_spec|by apply (history_frontier init)].
  - intros Hc Hr op. destruct (history_callbacks ops (start init cm rl w)) as [Hcm Hrl].
    by apply (act_no_panic init); [|unfold sys; rewrite Hcm|unfold sys; rewrite Hrl].
Qed.

End TwoPhase.

(** Three numbers are taken; the second is dropped, then a fourth is taken. *)
Lemma two_phase_counter_correct_witness :
  let quiet : Callback := λ _ w, (Ok (), w) in
  let sys := history true [Next; Next; Next; Drop 1] (start 7 quiet quiet ()) in
  0 ≤ 7 ≤ u64_max ∧ held sys = [10; 8] ∧ NoDup (held sys).
Proof.
  intros quiet sys. split; [done|split; [reflexivity|]].
  destruct (two_phase_counter_correct true 7 quiet quiet () [Next; Next; Next; Drop 1] [Next])
    as (_ & H & _); [done|exact H].
Defined.
