(* ===== verification/Store.v ===== *)
(** * Store: the interfaces of the key-value store and of a watch channel

    A column family is used through [get] and [insert]; a [tokio] watch
    channel holds the last value sent.  Both are code outside the sources, so
    they are classes, with the laws the callers rely on, and an instance that
    shows the laws can hold. *)

From S2P Require Import Prelude.

Notation bytes := (list Z).

Class KeyValue (S : Type) := {
  kv_get : S → bytes → option bytes;
  kv_put : S → bytes → bytes → S;
  kv_get_put_eq : ∀ s k v, kv_get (kv_put s k v) k = Some v;
  kv_get_put_ne : ∀ s k k' v, k ≠ k' → kv_get (kv_put s k v) k' = kv_get s k'
}.

#[global, refine] Instance gmap_kv : KeyValue (gmap bytes bytes) := {|
  kv_get s k := s !! k;
  kv_put s k v := <[k := v]> s;
  kv_get_put_eq := _;
  kv_get_put_ne := _
|}.
Proof.
  - intros. apply lookup_insert_eq.
  - intros. by apply lookup_insert_ne.
Defined.

(** [tokio::sync::watch::Sender<u64>] *)
Class Watch (C : Type) := {
  watch_new : Z → C;
  send_replace : Z → C → C;
  borrow : C → Z;
  borrow_new : ∀ n, borrow (watch_new n) = n;
  borrow_send : ∀ n c, borrow (send_replace n c) = n
}.

#[global, refine] Instance cell_watch : Watch Z := {|
  watch_new n := n;
  send_replace n _ := n;
  borrow c := c;
  borrow_new := _;
  borrow_send := _
|}.
Proof. all: done. Defined.
