(* ===== verification/ByteOrder.v ===== *)
(** * ByteOrder: ordered sets and maps keyed by byte strings

    [BTreeSet<[u8; n]>] and [BTreeMap<KeyBuf, _>] are finite sets and maps
    whose iteration goes through the keys in the order of the bytes. *)

From stdpp Require Import sorting.
From S2P Require Import Prelude Store.

Definition byte_le (a b : bytes) : Prop := lex_cmp a b ≠ Gt.

#[global] Instance byte_le_dec a b : Decision (byte_le a b).
Proof. unfold byte_le. destruct (lex_cmp a b); [left|left|right]; naive_solver. Defined.

Lemma lex_cmp_opp a b : lex_cmp a b = CompOpp (lex_cmp b a).
Proof.
  revert b. induction a as [|x a IH]; intros [|y b]; try done. cbn. rewrite (Z.compare_antisym y x).
  destruct (y ?= x); [apply IH|done..].
Qed.

Lemma lex_cmp_eq a b : lex_cmp a b = Eq ↔ a = b.
Proof.
  split; [|intros ->; apply lex_cmp_refl]. revert b. induction a as [|x a IH]; intros [|y b]; try done. cbn.
  destruct (Z.compare_spec x y) as [->|?|?]; [|done..]. intros H. f_equal. by apply IH.
Qed.

#[global] Instance byte_le_total : Total byte_le.
Proof. intros a b. unfold byte_le. rewrite (lex_cmp_opp a b). destruct (lex_cmp b a); naive_solver. Qed.

#[global] Instance byte_le_trans : Transitive byte_le.
Proof.
  unfold byte_le. intros a. induction a as [|x a IH]; intros [|y b] [|z c]; try done. cbn.
  destruct (Z.compare_spec x y) as [Hxy|Hxy|Hxy], (Z.compare_spec y z) as [Hyz|Hyz|Hyz],
    (Z.compare_spec x z) as [Hxz|Hxz|Hxz]; try lia; try done. apply IH.
Qed.

#[global] Instance byte_le_antisym : AntiSymm (=) byte_le.
Proof.
  intros a b. unfold byte_le. rewrite (lex_cmp_opp a b). intros H1 H2. apply eq_sym, lex_cmp_eq.
  by destruct (lex_cmp b a).
Qed.

(** What lies between a prefix of a key and the key has that prefix too. *)
Lemma prefix_between p q k : p `prefix_of` k → byte_le p q → byte_le q k → p `prefix_of` q.
Proof.
  revert q k. induction p as [|x p IH]; intros q k Hp Hpq Hqk; [apply prefix_nil|].
  destruct k as [|z k]; [by apply prefix_nil_not in Hp|]. pose proof (prefix_cons_inv_1 _ _ _ _ Hp) as <-.
  apply prefix_cons_inv_2 in Hp. destruct q as [|y q]; [by destruct Hpq|].
  unfold byte_le in *. cbn in *. destruct (Z.compare_spec x y) as [->|?|?]; [|..].
  - rewrite Z.compare_refl in Hqk. apply prefix_cons. by apply (IH q k).
  - destruct (Z.compare_spec y x); [lia..|done].
  - done.
Qed.

Lemma prefix_le p k : p `prefix_of` k → byte_le p k.
Proof.
  intros [r ->]. unfold byte_le. induction p as [|x p IH]; cbn; [by destruct r|]. by rewrite Z.compare_refl.
Qed.

(** ** Iteration *)

Definition byte_sort (l : list bytes) : list bytes := merge_sort byte_le l.

Lemma byte_sort_perm l : byte_sort l ≡ₚ l.
Proof. apply merge_sort_Permutation. Qed.

Lemma byte_sort_sorted l : StronglySorted byte_le (byte_sort l).
Proof. apply StronglySorted_merge_sort; apply _. Qed.

(** [BTreeSet::iter] *)
Definition set_iter (s : gset bytes) : list bytes := byte_sort (elements s).

Lemma elem_of_set_iter s x : x ∈ set_iter s ↔ x ∈ s.
Proof. unfold set_iter. rewrite byte_sort_perm. apply elem_of_elements. Qed.

Lemma set_iter_nodup s : NoDup (set_iter s).
Proof. unfold set_iter. rewrite byte_sort_perm. apply NoDup_elements. Qed.

Lemma length_set_iter s : length (set_iter s) = size s.
Proof. unfold set_iter. by rewrite byte_sort_perm. Qed.

Lemma list_to_set_iter s : list_to_set (set_iter s) = s.
Proof. apply set_eq. intros x. rewrite elem_of_list_to_set. apply elem_of_set_iter. Qed.

Lemma set_iter_empty s : set_iter s = [] ↔ s = ∅.
Proof.
  split; [intros Hs|intros ->; done]. apply set_eq. intros x. rewrite <-elem_of_set_iter, Hs. set_solver.
Qed.

(** [BTreeMap::keys] *)
Definition map_keys {A} (m : gmap bytes A) : list bytes := byte_sort (map_to_list m).*1.

Lemma elem_of_map_keys {A} (m : gmap bytes A) k : k ∈ map_keys m ↔ is_Some (m !! k).
Proof.
  unfold map_keys. rewrite byte_sort_perm, list_elem_of_fmap. split.
  - intros ([k' v] & -> & Hin%elem_of_map_to_list). by exists v.
  - intros [v Hv]. exists (k, v). split; [done|]. by apply elem_of_map_to_list.
Qed.
