(* ===== verification/RecordCodec.v ===== *)
(** * RecordCodec: the record format of keys and values

    src/database/ser.rs and src/database/de.rs.  A value handed to the codec
    is a tree of the calls its [Serialize] makes, [Datum]; a type asked of the
    codec is the tree of calls its [Deserialize] makes, [Shape].  Calls the
    codec answers with [unhandled!] are one constructor each.  JSON and CBOR
    payloads go to serde_json and minicbor_serde, which are parameters.  Left
    out: the [RawValue] protocol of serde_json and [deserialize_any]. *)

From S2P Require Import Prelude CoreError Bytes Store.

(** A self-describing format: its writer and its reader. *)
Record Format (J : Type) := mkFormat {
  fmt_ser : J → Res bytes;
  fmt_de : bytes → Res J
}.
Arguments mkFormat {J}.
Arguments fmt_ser {J}.
Arguments fmt_de {J}.

Section Codec.
Context `{!Usize} {J : Type} (json cbor : Format J) (display : Error → string) (debug_assertions : bool).

Definition SEP : Z := 255.

Inductive Datum :=
| DStr (s : bytes)
| DBytes (b : bytes)
| DU64 (v : Z) | DI64 (v : Z) | DU32 (v : Z) | DI32 (v : Z) | DU8 (v : Z)
| DNone | DSome (d : Datum)
| DJson (j : J) | DCbor (j : J)
| DInterfix | DSeparator
| DIgnored
| DTuple (l : list Datum)
| DSeq (l : list Datum)
| DUnhandled.

Local Notation debug_assert := (Prelude.debug_assert debug_assertions).

(** ** Serializer *)

(** [struct Serializer]; [cap] is the room of the writer, if it is bounded. *)
Record Ser := mkSer { out : bytes; cap : option Z; depth : Z; sep : bool; fin : bool }.

Definition set_out (o : bytes) (s : Ser) : Ser := mkSer o (cap s) (depth s) (sep s) (fin s).
Definition set_sep (b : bool) (s : Ser) : Ser := mkSer (out s) (cap s) (depth s) b (fin s).
Definition set_depth (d : Z) (s : Ser) : Ser := mkSer (out s) (cap s) d (sep s) (fin s).

(** [Write::write_all]: a bounded buffer that is full is an error. *)
Definition write (buf : bytes) (s : Ser) : Res Ser :=
  let o := out s ++ buf in
  match cap s with
  | Some c => if zlen o <=? c then Ok (set_out o s) else Err (Io OtherIo)
  | None => Ok (set_out o s)
  end.

Definition is_finalized (s : Ser) : bool := fin s.

Definition set_finalized (s : Ser) : Res Ser :=
  _ ← debug_assert (negb (is_finalized s));
  Ok (if debug_assertions then mkSer (out s) (cap s) (depth s) (sep s) true else s).

Definition separator (s : Ser) : Res Ser :=
  _ ← debug_assert (negb (is_finalized s)); write [SEP] s.

Definition record_start (s : Ser) : Res Ser :=
  _ ← debug_assert (negb (is_finalized s));
  if sep s then separator (set_sep true s) else Ok (set_sep true s).

Definition sequence_start (s : Ser) : Res Ser :=
  _ ← debug_assert (negb (is_finalized s));
  Ok (set_sep false (if debug_assertions then set_depth (Z.min (depth s + 1) u32_max) s else s)).

Definition sequence_end (s : Ser) : Ser :=
  set_sep false (if debug_assertions then set_depth (Z.max 0 (depth s - 1)) s else s).

Definition tuple_start (s : Ser) : Res Ser :=
  _ ← debug_assert (negb (sep s)); sequence_start s.

Definition tuple_end (s : Ser) : Ser := sequence_end s.

(** [serialize_bytes], and [serialize_str] through it. *)
Definition serialize_bytes (v : bytes) (s : Ser) : Res Ser := s ← write v s; Ok (set_sep true s).

(** [serialize_u64] and the other integers. *)
Definition serialize_int (width : nat) (v : Z) (s : Ser) : Res Ser :=
  s ← write (be_bytes width v) s; Ok (set_sep false s).

Definition serialize_payload (format : Format J) (j : J) (s : Ser) : Res Ser :=
  b ← fmt_ser format j; write b s.

Fixpoint serialize_datum (d : Datum) (s : Ser) {struct d} : Res Ser :=
  match d with
  | DStr v | DBytes v => serialize_bytes v s
  | DU64 v | DI64 v => serialize_int 8 v s
  | DU32 v | DI32 v => serialize_int 4 v s
  | DU8 v => serialize_int 1 v s
  | DNone => Ok s
  | DSome d => serialize_datum d s
  | DJson j => serialize_payload json j s
  | DCbor j => serialize_payload cbor j s
  | DInterfix => set_finalized s
  | DSeparator => separator s
  | DTuple l =>
      s ← tuple_start s;
      s ← (fix elements (l : list Datum) (s : Ser) : Res Ser :=
             match l with
             | [] => Ok s
             | d :: l => s ← record_start s; s ← serialize_datum d s; elements l (set_sep true s)
             end) l s;
      Ok (tuple_end s)
  | DSeq l =>
      s ← sequence_start s;
      s ← (fix elements (l : list Datum) (s : Ser) : Res Ser :=
             match l with
             | [] => Ok s
             | d :: l => s ← record_start s; s ← serialize_datum d s; elements l s
             end) l s;
      Ok (sequence_end s)
  | DIgnored | DUnhandled => Panic
  end.

(** [serialize], into a buffer that holds [o]. *)
Definition serialize (o : bytes) (c : option Z) (val : Datum) : Res bytes :=
  s ← map_err (λ e, SerdeSer (display e)) (serialize_datum val (mkSer o c 0 false false));
  _ ← debug_assert (depth s =? 0);
  Ok (out s).

Definition serialize_to_vec (val : Datum) : Res bytes := serialize [] None val.

(** [serialize_key] and [serialize_val], where the caller expects them to succeed *)
Definition encode_or_panic (d : Datum) : Res bytes :=
  match serialize_to_vec d with Ok b => Ok b | _ => Panic end.

(** ** Deserializer *)

Record De := mkDe { buf : bytes; pos : Z; rec : Z; seq : Z }.

Inductive Shape :=
| SStr | SString | SBytes | SU64 | SI64
| SOption (s : Shape)
| SJson | SCbor | SStruct
| SIgnore | SIgnoreAll
| STuple (l : list Shape)
| SSeq (s : Shape)
| SUnhandled.

Definition de_inc_pos (n : Z) (st : De) : Res De :=
  let p := sat_add (pos st) n in
  _ ← debug_assert (p <=? zlen (buf st));
  Ok (mkDe (buf st) p (rec st) (seq st)).

(** [buf[pos..]] *)
Definition remainder (st : De) : Res bytes := slice (buf st) (pos st) (zlen (buf st)).

(** The bytes before the first separator. *)
Fixpoint until_sep (b : bytes) : bytes :=
  match b with
  | [] => []
  | x :: b => if x =? SEP then [] else x :: until_sep b
  end.

Definition record_next (st : De) : Res (bytes * De) :=
  r ← remainder st;
  let record := until_sep r in
  st ← de_inc_pos (zlen record) st; Ok (record, st).

Definition record_trail (st : De) : Res (bytes * De) :=
  record ← remainder st;
  st ← de_inc_pos (zlen record) st; Ok (record, st).

Definition record_ignore_all (st : De) : Res De := r ← record_trail st; Ok r.2.

Definition record_ignore (st : De) : Res De :=
  if 0 <? seq st then r ← record_next st; Ok r.2 else record_ignore_all st.

(** [Deserializer::record_start] *)
Definition de_record_start (st : De) : Res De :=
  let started := negb (pos st =? 0) || (0 <? rec st) in
  let input_done := zlen (buf st) <=? pos st in
  let output_done := seq st <=? rec st in
  let incomplete := input_done && negb output_done in
  _ ← debug_assert (negb started || incomplete
        || bool_decide (buf st !! Z.to_nat (pos st) = Some SEP));
  st ← de_inc_pos (if started && negb incomplete then 1 else 0) st;
  Ok (mkDe (buf st) (pos st) (sat_add (rec st) 1) (seq st)).

(** [Deserializer::sequence_start] *)
Definition de_sequence_start (len : Z) (st : De) : Res De :=
  _ ← debug_assert (seq st =? 0); Ok (mkDe (buf st) (pos st) (rec st) len).

(** [Deserializer::remaining], [Deserializer::finished] *)
Definition remaining (st : De) : Res Z :=
  if pos st <=? zlen (buf st) then Ok (zlen (buf st) - pos st)
  else Err (Arithmetic "operation overflowed or result invalid").

Definition finished (st : De) : Res () :=
  _ ← slice (buf st) 0 (pos st);
  unparsed ← slice (buf st) (pos st) (zlen (buf st));
  remain ← remaining st;
  if (remain =? 0) || ((remain =? 1) && bool_decide (head unparsed = Some SEP))
  then Ok () else Err (SerdeDe "trailing bytes not deserialized").

(** [deserialize_u64] and [deserialize_i64] up to the sign. *)
Definition de_int (what : string) (st : De) : Res (Z * De) :=
  let stop := Z.min (sat_add (pos st) 8) (zlen (buf st)) in
  bs ← slice (buf st) (pos st) stop;
  bs ← (if zlen bs =? 8 then Ok bs else Err (SerdeDe what));
  st ← de_inc_pos 8 st; Ok (from_be bs, st).

(** [SeqAccess::next_element_seed], the seed being [element]. *)
Definition next_element (element : De → Res (Datum * De)) (st : De) : Res (option Datum * De) :=
  let finished := zlen (buf st) <=? pos st in
  let complete := seq st <=? rec st in
  if finished && complete then Ok (None, st)
  else st ← de_record_start st; r ← element st; Ok (Some r.1, r.2).

(** serde's visitor of [Vec<T>]: elements until there are none. *)
Fixpoint visit_vec (fuel : nat) (element : De → Res (Datum * De)) (st : De) : Res (list Datum * De) :=
  match fuel with
  | O => Panic
  | S fuel =>
      r ← next_element element st;
      match r with
      | (None, st) => Ok ([], st)
      | (Some d, st) => r ← visit_vec fuel element st; Ok (d :: r.1, r.2)
      end
  end.

Definition is_none_or_sep (b : option Z) : bool :=
  match b with None => true | Some b => b =? SEP end.

Fixpoint deserialize (fuel : nat) (sh : Shape) (st : De) {struct sh} : Res (Datum * De) :=
  match sh with
  | SStr | SString => r ← record_next st; s ← str_from_bytes r.1; Ok (DStr s, r.2)
  | SBytes => r ← record_trail st; Ok (DBytes r.1, r.2)
  | SU64 => r ← de_int "u64 buffer underflow" st; Ok (DU64 r.1, r.2)
  | SI64 => r ← de_int "i64 buffer underflow" st; Ok (DI64 (as_i64 r.1), r.2)
  | SOption sh =>
      if is_none_or_sep (buf st !! Z.to_nat (pos st)) then Ok (DNone, st)
      else r ← deserialize fuel sh st; Ok (DSome r.1, r.2)
  | SJson =>
      r ← record_trail st;
      j ← map_err (λ e, SerdeDe ("Json: " +:+ display e)) (fmt_de json r.1); Ok (DJson j, r.2)
  | SCbor =>
      r ← record_trail st;
      j ← map_err (λ e, SerdeDe ("Cbor: " +:+ display e)) (fmt_de cbor r.1); Ok (DCbor j, r.2)
  | SStruct => r ← record_next st; j ← fmt_de json r.1; Ok (DJson j, r.2)
  | SIgnore => st ← record_ignore st; Ok (DIgnored, st)
  | SIgnoreAll => st ← record_ignore_all st; Ok (DIgnored, st)
  | STuple l =>
      st ← de_sequence_start (zlen l) st;
      r ← (fix visit_tuple (l : list Shape) (st : De) : Res (list Datum * De) :=
             match l with
             | [] => Ok ([], st)
             | sh :: l =>
                 r ← next_element (deserialize fuel sh) st;
                 match r with
                 | (None, _) => Err (SerdeDe "invalid length")
                 | (Some d, st) => r ← visit_tuple l st; Ok (d :: r.1, r.2)
                 end
             end) l st;
      Ok (DTuple r.1, r.2)
  | SSeq sh =>
      st ← de_sequence_start 1 st;
      r ← visit_vec fuel (deserialize fuel sh) st; Ok (DSeq r.1, r.2)
  | SUnhandled => Panic
  end.

(** [from_slice]; a sequence has at most one element more than the input has
    bytes. *)
Definition from_slice (sh : Shape) (b : bytes) : Res Datum :=
  r ← deserialize (length b + 2) sh (mkDe b 0 0 0);
  _ ← (if debug_assertions then match finished r.2 with Ok _ => Ok () | _ => Panic end else Ok ());
  Ok r.1.

(** ** What a flat value is written as *)

Fixpoint flat (d : Datum) : option bytes :=
  match d with
  | DStr v | DBytes v => Some v
  | DU64 v | DI64 v => Some (be_bytes 8 v)
  | DU32 v | DI32 v => Some (be_bytes 4 v)
  | DU8 v => Some (be_bytes 1 v)
  | DNone => Some []
  | DSome d => flat d
  | _ => None
  end.

(** Records with a separator between every two. *)
Fixpoint joined (l : list bytes) : bytes :=
  match l with
  | [] => []
  | e :: l => e ++ match l with [] => [] | _ :: _ => SEP :: joined l end
  end.

(** A flat value in an element's position only appends its bytes. *)
Lemma serialize_flat d e o dp sp f :
  flat d = Some e →
  ∃ sp', serialize_datum d (mkSer o None dp sp f) = Ok (mkSer (o ++ e) None dp sp' f).
Proof.
  revert e sp. induction d; intros e sp [= Hf]; subst; cbn; eauto.
  exists sp. by rewrite app_nil_r.
Qed.

(** The elements of a tuple, as [serialize_datum] runs them. *)
Fixpoint ser_elements (l : list Datum) (s : Ser) : Res Ser :=
  match l with
  | [] => Ok s
  | d :: l => s ← record_start s; s ← serialize_datum d s; ser_elements l (set_sep true s)
  end.

Lemma serialize_tuple l s :
  serialize_datum (DTuple l) s = s ← tuple_start s; s ← ser_elements l s; Ok (tuple_end s).
Proof. reflexivity. Qed.

Lemma record_start_spec o dp sp :
  record_start (mkSer o None dp sp false) =
    Ok (mkSer (o ++ if sp then [SEP] else []) None dp true false).
Proof.
  unfold record_start, separator. cbn. rewrite !debug_assert_true by done.
  destruct sp; cbn; [done|]. by rewrite app_nil_r.
Qed.

Lemma elements_later l es o dp :
  Forall2 (λ d e, flat d = Some e) l es →
  ser_elements l (mkSer o None dp true false) =
    Ok (mkSer (o ++ match es with [] => [] | _ :: _ => SEP :: joined es end) None dp true false).
Proof.
  intros Hl. revert o. induction Hl as [|d e l es Hd Hl IH]; intros o; [cbn; by rewrite app_nil_r|].
  cbn [ser_elements]. rewrite record_start_spec, bind_Ok.
  destruct (serialize_flat d e (o ++ [SEP]) dp true false Hd) as [sp ->]. rewrite bind_Ok. unfold set_sep. cbn [out cap depth fin].
  rewrite IH. do 2 f_equal. rewrite <-!(assoc_L (++)). by destruct es.
Qed.

Lemma elements_first l es dp :
  Forall2 (λ d e, flat d = Some e) l es →
  ∃ sp, ser_elements l (mkSer [] None dp false false) = Ok (mkSer (joined es) None dp sp false)
    ∧ (l ≠ [] → sp = true).
Proof.
  intros Hl. destruct Hl as [|d e l es Hd Hl]; [by exists false|]. exists true. split; [|done].
  cbn [ser_elements]. rewrite record_start_spec, bind_Ok.
  cbn [app]. destruct (serialize_flat d e [] dp true false Hd) as [sp ->]. rewrite bind_Ok. unfold set_sep. cbn [out cap depth fin].
  by rewrite (elements_later l es).
Qed.

Lemma ser_elements_app l k s : ser_elements (l ++ k) s = s ← ser_elements l s; ser_elements k s.
Proof.
  revert s. induction l as [|d l IH]; intros s; [done|]. cbn. destruct (record_start s); [|done..]. cbn.
  destruct (serialize_datum d _); [|done..]. apply IH.
Qed.

Definition depth_in : Z := if debug_assertions then 1 else 0.

Lemma tuple_start_spec : tuple_start (mkSer [] None 0 false false) = Ok (mkSer [] None depth_in false false).
Proof.
  unfold tuple_start, sequence_start, depth_in. cbn. rewrite !debug_assert_true by done. cbn.
  by destruct debug_assertions.
Qed.

Lemma tuple_end_depth s : depth s = depth_in → depth (tuple_end s) = 0 ∧ out (tuple_end s) = out s.
Proof. unfold tuple_end, sequence_end, depth_in. intros Hd. destruct debug_assertions; cbn; rewrite Hd; done. Qed.

Lemma serialize_tuple_flat l es :
  Forall2 (λ d e, flat d = Some e) l es → serialize_to_vec (DTuple l) = Ok (joined es).
Proof.
  intros Hl. unfold serialize_to_vec, serialize. rewrite serialize_tuple, tuple_start_spec, bind_Ok.
  destruct (elements_first l es depth_in Hl) as (sp & -> & _). rewrite !bind_Ok. cbn [map_err]. rewrite bind_Ok.
  match goal with |- context [tuple_end ?s] => destruct (tuple_end_depth s eq_refl) as [-> ->] end.
  by rewrite debug_assert_true.
Qed.

(** A prefix ends in its separator. *)
Lemma serialize_prefix l es :
  l ≠ [] → Forall2 (λ d e, flat d = Some e) l es →
  serialize_to_vec (DTuple (l ++ [DInterfix])) = Ok (joined es ++ [SEP]).
Proof.
  intros Hne Hl. unfold serialize_to_vec, serialize. rewrite serialize_tuple, tuple_start_spec, bind_Ok, ser_elements_app.
  destruct (elements_first l es depth_in Hl) as (sp & -> & Hsp). rewrite (Hsp Hne), bind_Ok.
  cbn [ser_elements]. rewrite record_start_spec, bind_Ok.
  cbn [serialize_datum]. unfold set_finalized. cbn [sep fin is_finalized out cap depth].
  rewrite debug_assert_true, !bind_Ok by done. cbn [map_err]. rewrite bind_Ok.
  match goal with |- context [tuple_end ?s] => destruct (tuple_end_depth s) as [-> ->] end.
  { by destruct debug_assertions. }
  rewrite debug_assert_true by done. by destruct debug_assertions.
Qed.

(** ** Reading back *)

(** The reader behind [pre], with [rest] still to come. *)
Definition cursor (pre rest : bytes) (r n : Z) : De := mkDe (pre ++ rest) (zlen pre) r n.

Definition sep_or_end (rest : bytes) : Prop := rest = [] ∨ head rest = Some SEP.

Lemma remainder_cursor pre rest r n : remainder (cursor pre rest r n) = Ok rest.
Proof.
  unfold remainder, slice. cbn. rewrite zlen_app. pose proof (zlen_nonneg pre). pose proof (zlen_nonneg rest).
  rewrite !(proj2 (Z.leb_le _ _)) by lia. cbn. f_equal. unfold zlen.
  rewrite Nat2Z.id, drop_app_length. apply take_ge. lia.
Qed.

Lemma inc_pos_cursor pre e rest r n :
  zlen (pre ++ e ++ rest) ≤ isize_max →
  de_inc_pos (zlen e) (cursor pre (e ++ rest) r n) = Ok (cursor (pre ++ e) rest r n).
Proof.
  intros Hfit. unfold de_inc_pos, cursor, sat_add. cbn [pos buf rec seq].
  rewrite !zlen_app in *. pose proof (zlen_nonneg rest). assert (isize_max ≤ usize_max) by usize_lia.
  rewrite debug_assert_true by (apply Z.leb_le; lia). cbn. f_equal.
  rewrite Z.min_l, (assoc_L (++)) by lia. done.
Qed.

Lemma until_sep_app e rest : SEP ∉ e → sep_or_end rest → until_sep (e ++ rest) = e.
Proof.
  intros He Hr. induction e as [|x e IH]; cbn.
  - destruct rest as [|y rest]; [done|]. destruct Hr as [|[= ->]]; [done|]. done.
  - apply not_elem_of_cons in He as [Hx He]. rewrite (proj2 (Z.eqb_neq x SEP)) by done. by rewrite IH.
Qed.

Lemma record_next_cursor pre e rest r n :
  SEP ∉ e → sep_or_end rest → zlen (pre ++ e ++ rest) ≤ isize_max →
  record_next (cursor pre (e ++ rest) r n) = Ok (e, cursor (pre ++ e) rest r n).
Proof.
  intros. unfold record_next. rewrite remainder_cursor, bind_Ok. cbn zeta.
  rewrite until_sep_app by done. by rewrite inc_pos_cursor.
Qed.

Lemma record_trail_cursor pre e r n :
  zlen (pre ++ e) ≤ isize_max → record_trail (cursor pre e r n) = Ok (e, cursor (pre ++ e) [] r n).
Proof.
  intros. unfold record_trail. rewrite remainder_cursor, bind_Ok.
  rewrite <-(app_nil_r e) at 2. by rewrite inc_pos_cursor by by rewrite app_nil_r.
Qed.

Lemma de_int_cursor what pre v rest r n :
  zlen (pre ++ be_bytes 8 v ++ rest) ≤ isize_max →
  de_int what (cursor pre (be_bytes 8 v ++ rest) r n) = Ok (as_u64 v, cursor (pre ++ be_bytes 8 v) rest r n).
Proof.
  intros Hfit. pose proof (inc_pos_cursor pre (be_bytes 8 v) rest r n Hfit) as Hinc.
  rewrite zlen_be_bytes in Hinc. unfold de_int, sat_add. cbn [pos buf cursor].
  rewrite !zlen_app, zlen_be_bytes in *. pose proof (zlen_nonneg rest). pose proof (zlen_nonneg pre).
  assert (isize_max ≤ usize_max) by usize_lia. rewrite (Z.min_l _ usize_max), Z.min_l by lia.
  unfold slice. rewrite !zlen_app, zlen_be_bytes, !(proj2 (Z.leb_le _ _)) by lia. cbn [andb]. rewrite bind_Ok.
  replace (zlen pre + 8 - zlen pre) with 8 by lia.
  assert (take (Z.to_nat 8) (drop (Z.to_nat (zlen pre)) (pre ++ be_bytes 8 v ++ rest)) = be_bytes 8 v) as ->.
  { unfold zlen. rewrite Nat2Z.id, drop_app_length, take_app_le by (rewrite length_be_bytes; lia).
    apply take_ge. rewrite length_be_bytes. lia. }
  rewrite zlen_be_bytes. change (Z.of_nat 8) with 8 in *. rewrite Z.eqb_refl, bind_Ok, Hinc, bind_Ok.
  by rewrite from_be_be_bytes.
Qed.

(** [reads last sh d]: a value [d] that type [sh] reads back from its own
    record; one that takes the rest of the input must be [last].  The
    representation cannot tell [Some] of a value that starts like a separator,
    or of nothing, from [None]. *)
Inductive reads (last : bool) : Shape → Datum → Prop :=
| reads_str s : utf8_valid s = true → reads last SStr (DStr s)
| reads_string s : utf8_valid s = true → reads last SString (DStr s)
| reads_u64 v : u64 v → reads last SU64 (DU64 v)
| reads_i64 v : i64 v → reads last SI64 (DI64 v)
| reads_none sh : reads last (SOption sh) DNone
| reads_some sh d x e :
    reads last sh d → flat d = Some (x :: e) → x ≠ SEP → reads last (SOption sh) (DSome d)
| reads_bytes b : last = true → reads last SBytes (DBytes b).

Lemma utf8_no_sep s : utf8_valid s = true → SEP ∉ s.
Proof. intros Hs%utf8_bytes Hin. rewrite Forall_forall in Hs. apply Hs in Hin. unfold SEP in Hin. lia. Qed.

Lemma cursor_peek pre rest r n : buf (cursor pre rest r n) !! Z.to_nat (pos (cursor pre rest r n)) = head rest.
Proof.
  cbn. unfold zlen. rewrite Nat2Z.id, lookup_app_r, Nat.sub_diag by lia. by destruct rest.
Qed.

Lemma read_one fuel last sh d e pre rest r n :
  reads last sh d → flat d = Some e → (last = true → rest = []) → sep_or_end rest →
  zlen (pre ++ e ++ rest) ≤ isize_max →
  deserialize fuel sh (cursor pre (e ++ rest) r n) = Ok (d, cursor (pre ++ e) rest r n).
Proof.
  intros Hr. revert e. induction Hr as [s Hs|s Hs|v Hv|v Hv|sh|sh d x e' Hr IH Hx Hne|b Hb];
    intros e He Hlast Hrest Hfit; cbn [deserialize]; cbn [flat] in He; try (apply (inj Some) in He as <-).
  - rewrite record_next_cursor by auto using utf8_no_sep. cbn. unfold str_from_bytes. by rewrite Hs.
  - rewrite record_next_cursor by auto using utf8_no_sep. cbn. unfold str_from_bytes. by rewrite Hs.
  - rewrite de_int_cursor by done. cbn. unfold as_u64. unfold u64, u64_max in Hv. by rewrite Z.mod_small by lia.
  - rewrite de_int_cursor by done. cbn. by rewrite as_i64_u64.
  - rewrite cursor_peek. cbn [app]. rewrite app_nil_r.
    destruct Hrest as [Hnil|Hh]; [by rewrite Hnil|by rewrite Hh].
  - rewrite cursor_peek. rewrite Hx in He. injection He as <-. cbn [app head is_none_or_sep].
    rewrite (proj2 (Z.eqb_neq x SEP)) by done. change (x :: e' ++ rest) with ((x :: e') ++ rest). by rewrite (IH (x :: e')).
  - rewrite (Hlast Hb) in *. rewrite app_nil_r in *. by rewrite record_trail_cursor.
Qed.

Lemma read_last fuel sh d e pre r n :
  reads true sh d → flat d = Some e → zlen (pre ++ e) ≤ isize_max →
  deserialize fuel sh (cursor pre e r n) = Ok (d, cursor (pre ++ e) [] r n).
Proof.
  intros Hr He Hfit. pose proof (read_one fuel true sh d e pre [] r n) as Hone.
  rewrite app_nil_r in Hone. apply Hone; [done..|by left|done].
Qed.

(** [field last sh d e]: type [sh] reads [d] from the record [e]; what is ignored
    is any record. *)
Inductive field (last : bool) : Shape → Datum → bytes → Prop :=
| field_reads sh d e : reads last sh d → flat d = Some e → field last sh d e
| field_ignore e : SEP ∉ e → field last SIgnore DIgnored e.

Lemma read_field fuel last sh d e pre rest r n :
  field last sh d e → (last = true → rest = []) → sep_or_end rest → 0 < n →
  zlen (pre ++ e ++ rest) ≤ isize_max →
  deserialize fuel sh (cursor pre (e ++ rest) r n) = Ok (d, cursor (pre ++ e) rest r n).
Proof.
  intros [sh' d' e' Hr He|e' He] Hlast Hrest Hn Hfit; [by eapply read_one|].
  cbn [deserialize]. unfold record_ignore. cbn [seq cursor]. rewrite (proj2 (Z.ltb_lt 0 n)) by done.
  fold (cursor pre (e' ++ rest) r n). by rewrite record_next_cursor.
Qed.

Lemma read_field_last fuel sh d e pre r n :
  field true sh d e → 0 < n → zlen (pre ++ e) ≤ isize_max →
  deserialize fuel sh (cursor pre e r n) = Ok (d, cursor (pre ++ e) [] r n).
Proof.
  intros Hr Hn Hfit. pose proof (read_field fuel true sh d e pre [] r n) as Hone.
  rewrite app_nil_r in Hone. apply Hone; [done..|by left|done|done].
Qed.

(** ** Tuples *)

(** The elements of a tuple, as [deserialize] visits them. *)
Fixpoint de_elements (fuel : nat) (l : list Shape) (st : De) : Res (list Datum * De) :=
  match l with
  | [] => Ok ([], st)
  | sh :: l =>
      r ← next_element (deserialize fuel sh) st;
      match r with
      | (None, _) => Err (SerdeDe "invalid length")
      | (Some d, st) => r ← de_elements fuel l st; Ok (d :: r.1, r.2)
      end
  end.

Lemma deserialize_tuple fuel l st :
  deserialize fuel (STuple l) st =
    st ← de_sequence_start (zlen l) st; r ← de_elements fuel l st; Ok (DTuple r.1, r.2).
Proof.
  cbn [deserialize]. destruct (de_sequence_start _ st) as [st'| |]; [|done..]. rewrite !bind_Ok. f_equal.
  clear st. revert st'. induction l as [|sh l IH]; intros st; [done|]. cbn [de_elements].
  destruct (next_element _ st) as [[[d|] st']| |]; [|done..]. rewrite !bind_Ok. by rewrite IH.
Qed.

(** A row of records [es] that the types [shs] read back as [l]. *)
Inductive row : list Shape → list Datum → list bytes → Prop :=
| row_nil : row [] [] []
| row_last sh d e : reads true sh d → flat d = Some e → row [sh] [d] [e]
| row_cons sh d e shs l es :
    reads false sh d → flat d = Some e → row shs l es → row (sh :: shs) (d :: l) (e :: es).

(** The same, of what is read. *)
Inductive fields : list Shape → list Datum → list bytes → Prop :=
| fields_nil : fields [] [] []
| fields_last sh d e : field true sh d e → fields [sh] [d] [e]
| fields_cons sh d e shs l es : field false sh d e → fields shs l es → fields (sh :: shs) (d :: l) (e :: es).

Lemma row_fields shs l es : row shs l es → fields shs l es.
Proof. induction 1; [constructor|apply fields_last; by constructor|apply fields_cons; [by constructor|done]]. Qed.

Lemma row_flat shs l es : row shs l es → Forall2 (λ d e, flat d = Some e) l es.
Proof. induction 1; auto. Qed.

(** The types that read something from no input, and what. *)
Definition tail_default (sh : Shape) : option Datum :=
  match sh with
  | SStr | SString => Some (DStr [])
  | SBytes => Some (DBytes [])
  | SOption _ => Some DNone
  | SIgnore | SIgnoreAll => Some DIgnored
  | _ => None
  end.

Lemma inc_pos_zero pre rest r n :
  zlen (pre ++ rest) ≤ isize_max → de_inc_pos 0 (cursor pre rest r n) = Ok (cursor pre rest r n).
Proof. intros Hfit. pose proof (inc_pos_cursor pre [] rest r n Hfit) as H0. by rewrite app_nil_r in H0. Qed.

Lemma rec_inc r n : 0 ≤ r < n → n ≤ isize_max → sat_add r 1 = r + 1.
Proof. intros. unfold sat_add. assert (isize_max ≤ usize_max) by usize_lia. lia. Qed.

(** Nothing is skipped before the first record, nor past the end. *)
Lemma record_start_stay pre rest r n :
  pre = [] ∧ r = 0 ∨ rest = [] → 0 ≤ r < n → n ≤ isize_max → zlen (pre ++ rest) ≤ isize_max →
  de_record_start (cursor pre rest r n) = Ok (cursor pre rest (r + 1) n).
Proof.
  intros Hcase Hr Hn Hfit. unfold de_record_start. cbn [pos rec seq buf cursor].
  rewrite (proj2 (Z.leb_gt n r)) by lia. cbn [negb]. rewrite andb_true_r.
  destruct (negb (zlen pre =? 0) || (0 <? r)) eqn:Hstart.
  - assert (Hnil : rest = []).
    { destruct Hcase as [[-> ->]|]; [|done]. done. }
    rewrite (proj2 (Z.leb_le (zlen (pre ++ rest)) (zlen pre))) by (rewrite Hnil, app_nil_r; lia).
    rewrite debug_assert_true, bind_Ok by done. cbn [negb andb].
    rewrite inc_pos_zero, bind_Ok by done. cbn [buf pos rec seq cursor]. by rewrite (rec_inc r n).
  - rewrite debug_assert_true, bind_Ok by done. cbn [negb andb].
    rewrite inc_pos_zero, bind_Ok by done. cbn [buf pos rec seq cursor]. by rewrite (rec_inc r n).
Qed.

(** After the first record its separator is skipped. *)
Lemma record_start_skip pre rest r n :
  0 < r < n → n ≤ isize_max → zlen (pre ++ SEP :: rest) ≤ isize_max →
  de_record_start (cursor pre (SEP :: rest) r n) = Ok (cursor (pre ++ [SEP]) rest (r + 1) n).
Proof.
  intros Hr Hn Hfit. unfold de_record_start. pose proof (cursor_peek pre (SEP :: rest) r n) as Hpeek.
  pose proof (inc_pos_cursor pre [SEP] rest r n Hfit) as Hinc. cbn [pos rec seq buf cursor] in *. rewrite Hpeek.
  rewrite (proj2 (Z.ltb_lt 0 r)), orb_true_r, bool_decide_true, orb_true_r by (lia || done).
  rewrite (proj2 (Z.leb_gt _ (zlen pre))) by (rewrite zlen_app, zlen_cons; pose proof (zlen_nonneg rest); lia).
  rewrite debug_assert_true, bind_Ok by done. cbn [negb andb].
  change (zlen [SEP]) with 1 in Hinc. change ([SEP] ++ rest) with (SEP :: rest) in Hinc.
  rewrite Hinc, bind_Ok. cbn [buf pos rec seq cursor]. by rewrite (rec_inc r n) by lia.
Qed.

Lemma next_element_open element st :
  rec st < seq st → next_element element st = st ← de_record_start st; r ← element st; Ok (Some r.1, r.2).
Proof. intros. unfold next_element. by rewrite (proj2 (Z.leb_gt (seq st) (rec st))), andb_false_r by done. Qed.

(** Past the end of the input the tolerant types read their defaults. *)
Lemma read_default fuel sh d pre r n :
  tail_default sh = Some d → 0 < n → zlen pre ≤ isize_max →
  deserialize fuel sh (cursor pre [] r n) = Ok (d, cursor pre [] r n).
Proof.
  intros Hd Hn Hfit. assert (Hnext : record_next (cursor pre [] r n) = Ok ([], cursor pre [] r n)).
  { pose proof (record_next_cursor pre [] [] r n) as Hc. cbn [app] in Hc. rewrite app_nil_r in Hc.
    apply Hc; [apply not_elem_of_nil|by left|done]. }
  assert (Htrail : record_trail (cursor pre [] r n) = Ok ([], cursor pre [] r n)).
  { pose proof (record_trail_cursor pre [] r n) as Hc. rewrite app_nil_r in Hc. by apply Hc. }
  destruct sh; try done; cbn [tail_default] in Hd; apply (inj Some) in Hd as <-; cbn [deserialize].
  - by rewrite Hnext.
  - by rewrite Hnext.
  - by rewrite Htrail.
  - by rewrite cursor_peek.
  - unfold record_ignore. cbn [seq cursor]. rewrite (proj2 (Z.ltb_lt 0 n)) by done. fold (cursor pre [] r n). by rewrite Hnext.
  - unfold record_ignore_all. by rewrite Htrail.
Qed.

Lemma read_defaults fuel tails ds pre r n :
  Forall2 (λ sh d, tail_default sh = Some d) tails ds →
  0 ≤ r → r + zlen tails ≤ n → n ≤ isize_max → zlen pre ≤ isize_max →
  de_elements fuel tails (cursor pre [] r n) = Ok (ds, cursor pre [] (r + zlen tails) n).
Proof.
  intros Ht. revert r. induction Ht as [|sh d tails ds Hd Ht IH]; intros r Hr Hle Hn Hfit.
  { cbn. by rewrite Z.add_0_r. }
  rewrite zlen_cons in *. pose proof (zlen_nonneg tails). cbn [de_elements].
  rewrite next_element_open by (cbn; lia). rewrite record_start_stay by (auto with lia || by rewrite app_nil_r).
  rewrite bind_Ok, (read_default _ _ d) by (done || lia). rewrite !bind_Ok. cbn [fst snd].
  rewrite IH by lia. rewrite bind_Ok. cbn [fst snd]. do 3 f_equal. lia.
Qed.

(** What is left of a row after its first record. *)
Definition rest_of (es : list bytes) : bytes := match es with [] => [] | _ :: _ => SEP :: joined es end.

Lemma rest_of_sep es : sep_or_end (rest_of es).
Proof. destruct es; [by left|by right]. Qed.

Lemma read_records fuel shs l es tails ds pre r n :
  fields shs l es → Forall2 (λ sh d, tail_default sh = Some d) tails ds →
  0 < r → r + zlen (shs ++ tails) ≤ n → n ≤ isize_max → zlen (pre ++ rest_of es) ≤ isize_max →
  ∃ r', de_elements fuel (shs ++ tails) (cursor pre (rest_of es) r n)
    = Ok (l ++ ds, cursor (pre ++ rest_of es) [] r' n).
Proof.
  intros Hrow Ht. revert pre r. induction Hrow as [|sh d e Hd|sh d e shs l es Hd Hrow IH];
    intros pre r Hr Hle Hn Hfit.
  - cbn [rest_of app] in *. rewrite app_nil_r in *. eexists. by apply read_defaults; auto with lia.
  - cbn [app] in *. rewrite zlen_cons in Hle. pose proof (zlen_nonneg tails). cbn [rest_of joined] in *.
    rewrite app_nil_r in *. cbn [de_elements]. rewrite next_element_open by (cbn; lia).
    rewrite record_start_skip by auto with lia. rewrite bind_Ok.
    rewrite (read_field_last fuel sh d e) by (done || lia || by rewrite <-(assoc_L (++))).
    rewrite !bind_Ok. cbn [fst snd]. rewrite <-(assoc_L (++)). cbn [app]. eexists.
    rewrite (read_defaults fuel tails ds) by (done || lia). done.
  - cbn [app] in *. rewrite zlen_cons in Hle. pose proof (zlen_nonneg (shs ++ tails)).
    change (rest_of (e :: es)) with (SEP :: e ++ rest_of es) in *. cbn [de_elements].
    rewrite next_element_open by (cbn; lia). rewrite record_start_skip by auto with lia. rewrite bind_Ok.
    rewrite (read_field fuel false sh d e) by (done || lia || apply rest_of_sep || by rewrite <-(assoc_L (++))).
    rewrite !bind_Ok. cbn [fst snd].
    destruct (IH ((pre ++ [SEP]) ++ e) (r + 1)) as [r' ->]; [lia..|by rewrite <-!(assoc_L (++))|].
    eexists. rewrite bind_Ok. cbn [fst snd]. by rewrite <-!(assoc_L (++)).
Qed.

Lemma read_row fuel shs l es tails ds :
  fields shs l es → Forall2 (λ sh d, tail_default sh = Some d) tails ds →
  zlen (shs ++ tails) ≤ isize_max → zlen (joined es) ≤ isize_max →
  ∃ r', de_elements fuel (shs ++ tails) (cursor [] (joined es) 0 (zlen (shs ++ tails)))
    = Ok (l ++ ds, cursor (joined es) [] r' (zlen (shs ++ tails))).
Proof.
  intros Hrow Ht Hn Hfit. destruct Hrow as [|sh d e Hd|sh d e shs l es Hd Hrow].
  - eexists. cbn [joined app]. by apply read_defaults; auto with lia.
  - cbn [app joined] in *. rewrite app_nil_r in *. rewrite zlen_cons in *. pose proof (zlen_nonneg tails).
    cbn [de_elements]. rewrite next_element_open by (cbn; lia).
    rewrite record_start_stay by auto with lia. rewrite bind_Ok.
    rewrite (read_field_last fuel sh d e) by (done || lia).
    rewrite !bind_Ok. cbn [fst snd app]. eexists. rewrite (read_defaults fuel tails ds) by (done || lia). done.
  - cbn [app] in *. rewrite zlen_cons in *. pose proof (zlen_nonneg (shs ++ tails)).
    change (joined (e :: es)) with (e ++ rest_of es) in *. cbn [de_elements].
    rewrite next_element_open by (cbn; lia). rewrite record_start_stay by auto with lia. rewrite bind_Ok.
    rewrite (read_field fuel false sh d e) by (done || lia || apply rest_of_sep).
    rewrite !bind_Ok. cbn [fst snd app].
    destruct (read_records fuel shs l es tails ds e 1 (1 + zlen (shs ++ tails))) as [r' Hr']; [done|done|lia..|done|].
    change (0 + 1) with 1. rewrite Hr'. eexists. by rewrite bind_Ok.
Qed.

Lemma finished_end b r n : finished (cursor b [] r n) = Ok ().
Proof.
  unfold finished, cursor. cbn [buf pos]. rewrite app_nil_r. pose proof (zlen_nonneg b).
  unfold slice, remaining. cbn [buf pos]. rewrite !(proj2 (Z.leb_le _ _)) by lia. cbn. by rewrite Z.sub_diag.
Qed.

Lemma read_tuple shs l es tails ds :
  fields shs l es → Forall2 (λ sh d, tail_default sh = Some d) tails ds →
  zlen (shs ++ tails) ≤ isize_max → zlen (joined es) ≤ isize_max →
  from_slice (STuple (shs ++ tails)) (joined es) = Ok (DTuple (l ++ ds)).
Proof.
  intros Hrow Ht Hn Hfit. unfold from_slice. rewrite deserialize_tuple. unfold de_sequence_start. cbn [seq buf pos rec].
  rewrite debug_assert_true, !bind_Ok by done.
  destruct (read_row (length (joined es) + 2) shs l es tails ds) as [r' Hr']; [done..|].
  unfold cursor at 1 in Hr'. cbn [app] in Hr'. change (zlen (A := Z) []) with 0 in Hr'. rewrite Hr', !bind_Ok. cbn [fst snd].
  rewrite finished_end. by destruct debug_assertions.
Qed.

(** A value that is a single record. *)
Lemma read_single sh d e : reads true sh d → flat d = Some e → zlen e ≤ isize_max → from_slice sh e = Ok d.
Proof.
  intros Hr He Hfit. unfold from_slice. pose proof (read_last (length e + 2) sh d e [] 0 0 Hr He Hfit) as Hread.
  unfold cursor in Hread at 1. cbn [app] in Hread. change (zlen (A := Z) []) with 0 in Hread.
  rewrite Hread, !bind_Ok. cbn [fst snd]. rewrite finished_end. by destruct debug_assertions.
Qed.

Lemma encode_json j b : fmt_ser json j = Ok b → encode_or_panic (DJson j) = Ok b.
Proof.
  intros Hj. unfold encode_or_panic, serialize_to_vec, serialize. cbn [serialize_datum]. unfold serialize_payload.
  rewrite Hj, bind_Ok. unfold write. cbn [cap out map_err]. rewrite bind_Ok. cbn [depth set_out]. by rewrite debug_assert_true.
Qed.

Lemma encode_tuple l es : Forall2 (λ d e, flat d = Some e) l es → encode_or_panic (DTuple l) = Ok (joined es).
Proof. intros Hl. unfold encode_or_panic. by rewrite (serialize_tuple_flat l es). Qed.

Lemma encode_prefix l es :
  l ≠ [] → Forall2 (λ d e, flat d = Some e) l es → encode_or_panic (DTuple (l ++ [DInterfix])) = Ok (joined es ++ [SEP]).
Proof. intros Hne Hl. unfold encode_or_panic. by rewrite (serialize_prefix l es). Qed.


(** ** Prefixes *)

(** Two fields of the same type whose records end where the type says. *)
Inductive same_kind : Datum → Datum → Prop :=
| same_str s t : utf8_valid s = true → utf8_valid t = true → same_kind (DStr s) (DStr t)
| same_u64 v w : u64 v → u64 w → same_kind (DU64 v) (DU64 w)
| same_u32 v w : u32 v → u32 w → same_kind (DU32 v) (DU32 w)
| same_u8 v w : u8 v → u8 w → same_kind (DU8 v) (DU8 w).

Lemma sep_split (s t x y : bytes) :
  SEP ∉ s → SEP ∉ t → s ++ SEP :: x `prefix_of` t ++ SEP :: y → s = t ∧ x `prefix_of` y.
Proof.
  revert t. induction s as [|a s IH]; intros [|b t] Hs Ht Hp; cbn in *.
  - split; [done|]. by eapply prefix_cons_inv_2.
  - apply prefix_cons_inv_1 in Hp. subst. set_solver.
  - apply prefix_cons_inv_1 in Hp. subst. set_solver.
  - pose proof (prefix_cons_inv_1 _ _ _ _ Hp) as ->. apply prefix_cons_inv_2 in Hp.
    destruct (IH t) as [-> ?]; [set_solver..|done].
Qed.

Lemma width_split (s t x y : bytes) :
  length s = length t → s ++ SEP :: x `prefix_of` t ++ SEP :: y → s = t ∧ x `prefix_of` y.
Proof.
  intros Hlen [z Hz]. rewrite <-(assoc_L (++)) in Hz. apply app_inj_1 in Hz as [-> Hz]; [|done].
  split; [done|]. exists z. by injection Hz.
Qed.

Lemma kind_split d d' e e' x y :
  same_kind d d' → flat d = Some e → flat d' = Some e' →
  e ++ SEP :: x `prefix_of` e' ++ SEP :: y → d = d' ∧ e = e' ∧ x `prefix_of` y.
Proof.
  intros Hk He He' Hp. destruct Hk as [s t Hs Ht|v w Hv Hw|v w Hv Hw|v w Hv Hw]; cbn [flat] in *;
    apply (inj Some) in He as <-; apply (inj Some) in He' as <-.
  - apply sep_split in Hp as [-> ?]; auto using utf8_no_sep.
  - apply width_split in Hp as [Heq ?]; [|by rewrite !length_be_bytes]. split_and!; [|done..].
    f_equal. apply be_bytes_inj in Heq; [done|unfold u64, u64_max in *; cbn; lia..].
  - apply width_split in Hp as [Heq ?]; [|by rewrite !length_be_bytes]. split_and!; [|done..].
    f_equal. apply be_bytes_inj in Heq; [done|unfold u32, u32_max in *; cbn; lia..].
  - apply width_split in Hp as [Heq ?]; [|by rewrite !length_be_bytes]. split_and!; [|done..].
    f_equal. apply be_bytes_inj in Heq; [done|unfold u8, u8_max in *; cbn; lia..].
Qed.

Lemma joined_cons e es : es ≠ [] → joined (e :: es) = e ++ SEP :: joined es.
Proof. by destruct es. Qed.

Lemma joined_app es ms : es ≠ [] → ms ≠ [] → joined (es ++ ms) = joined es ++ SEP :: joined ms.
Proof.
  intros Hes Hms. induction es as [|e es IH]; [done|]. destruct es as [|e' es].
  - cbn [app joined]. rewrite app_nil_r. by destruct ms.
  - cbn [app]. rewrite joined_cons by done. change (e' :: es ++ ms) with ((e' :: es) ++ ms).
    rewrite IH by done. rewrite (joined_cons e (e' :: es)) by done. by rewrite <-(assoc_L (++)).
Qed.

Lemma prefix_exact l l' es es' ms :
  Forall2 same_kind l l' → Forall2 (λ d e, flat d = Some e) l es → Forall2 (λ d e, flat d = Some e) l' es' →
  l ≠ [] → ms ≠ [] → joined es ++ [SEP] `prefix_of` joined (es' ++ ms) → l = l'.
Proof.
  intros Hk. revert es es'. induction Hk as [|d d' l l' Hd Hk IH]; intros es es' Hes Hes' Hne Hms Hp; [done|].
  apply Forall2_cons_inv_l in Hes as (e & es0 & He & Hes & ->).
  apply Forall2_cons_inv_l in Hes' as (e' & es0' & He' & Hes' & ->).
  destruct Hk as [|d2 d2' l l' Hd2 Hk].
  - apply Forall2_nil_inv_l in Hes as ->. apply Forall2_nil_inv_l in Hes' as ->.
    cbn [app] in Hp. rewrite (joined_cons e' ms) in Hp by done. cbn [joined] in Hp. rewrite app_nil_r in Hp.
    by destruct (kind_split _ _ _ _ _ _ Hd He He' Hp) as [-> _].
  - assert (es0 ≠ []) by (inversion Hes; by subst). assert (es0' ++ ms ≠ []) by by destruct es0', ms.
    cbn [app] in Hp. rewrite !joined_cons, <-(assoc_L (++)) in Hp by done. cbn [app] in Hp.
    destruct (kind_split _ _ _ _ _ _ Hd He He' Hp) as (-> & _ & Hp'). f_equal.
    eapply IH; [exact Hes|exact Hes'|done..].
Qed.

(** The key prefix a scan is given, the fields [l] and an [Interfix],
    selects exactly the stored keys whose leading fields are [l]: no longer
    field that starts with the same bytes is picked up. *)
Theorem prefix_scan_exact l l' more es es' ms :
  Forall2 same_kind l l' → l ≠ [] → more ≠ [] →
  Forall2 (λ d e, flat d = Some e) l es → Forall2 (λ d e, flat d = Some e) l' es' →
  Forall2 (λ d e, flat d = Some e) more ms →
  ∃ p k, serialize_to_vec (DTuple (l ++ [DInterfix])) = Ok p
    ∧ serialize_to_vec (DTuple (l' ++ more)) = Ok k
    ∧ (p `prefix_of` k ↔ l = l').
Proof.
  intros Hk Hl Hmore Hes Hes' Hms. assert (ms ≠ []) by (inversion Hms; by subst).
  exists (joined es ++ [SEP]), (joined (es' ++ ms)). split_and!.
  - by apply serialize_prefix.
  - by apply serialize_tuple_flat, Forall2_app.
  - split; [by apply (prefix_exact l l')|]. intros <-.
    assert (es' = es) as ->.
    { clear -Hes Hes'. revert es' Hes'. induction Hes; intros es' Hes'; inversion Hes'; subst; [done|]. f_equal; [congruence|auto]. }
    assert (es ≠ []) by (inversion Hes; by subst). rewrite joined_app by done.
    exists (joined ms). by rewrite <-(assoc_L (++)).
Qed.

End Codec.

Arguments DStr {J}.
Arguments DU64 {J}.
Arguments DNone {J}.
Arguments DTuple {J}.
Arguments DInterfix {J}.

(** A format without payloads. *)
Definition no_format : Format Empty_set := mkFormat (λ j : Empty_set, match j with end) (λ _, Err JsonError).

(** [Deserialized] to a [u64] *)
Definition deserialized `{!Usize} (debug_assertions : bool) (v : bytes) : Res Z :=
  d ← from_slice no_format no_format (λ _, EmptyString) debug_assertions SU64 v;
  match d with DU64 n => Ok n | _ => Err (SerdeDe "invalid type") end.

Lemma deserialized_be `{!Usize} debug_assertions n : u64 n → deserialized debug_assertions (be_bytes 8 n) = Ok n.
Proof.
  intros Hn. unfold deserialized. rewrite (read_single _ _ _ _ SU64 (DU64 n)); [done|by constructor|done|].
  rewrite zlen_be_bytes. usize_lia.
Qed.


Lemma prefix_scan_exact_witness :
  ∃ p k, serialize_to_vec no_format no_format (λ _, EmptyString) true (DTuple [DStr [36; 97]; DInterfix]) = Ok p
    ∧ serialize_to_vec no_format no_format (λ _, EmptyString) true (DTuple [DStr [36; 97; 98]; DU64 1]) = Ok k
    ∧ (p `prefix_of` k ↔ [DStr (J := Empty_set) [36; 97]] = [DStr [36; 97; 98]]).
Proof.
  apply (prefix_scan_exact no_format no_format (λ _, EmptyString) true
    [DStr [36; 97]] [DStr [36; 97; 98]] [DU64 1] [[36; 97]] [[36; 97; 98]] [be_bytes 8 1]).
  - by repeat constructor.
  - done.
  - done.
  - by repeat constructor.
  - by repeat constructor.
  - by repeat constructor.
Defined.

(** An optional number whose first byte is the separator's is read as absent. *)
Lemma option_u64_ambiguous :
  ∃ b, serialize_to_vec no_format no_format (λ _, EmptyString) false (DTuple [DU64 1; DSome (DU64 u64_max)]) = Ok b
  ∧ from_slice (H := usize_64) no_format no_format (λ _, EmptyString) false (STuple [SU64; SOption SU64]) b
    = Ok (DTuple [DU64 1; DNone]).
Proof. exists (joined [be_bytes 8 1; be_bytes 8 u64_max]). split; reflexivity. Qed.
