(* ===== verification/WriteBatch.v ===== *)
(** * WriteBatch: transactions and the keys they wrote

    src/database/txn.rs: the queueing operations, [execute], and the parser
    that reads the written keys back out of RocksDB's batch for the watchers.
    RocksDB is outside the sources: the layout of its batch, as the comments of
    the file document it, is [batch_data] below, and whether a write or a flush
    succeeds is given.  A map is its engine and its column family. *)

From S2P Require Import Prelude CoreError Bytes Store RecordCodec.

Record Map := mkMap { map_engine : Z; map_cf : Z }.

(** What a batch holds. *)
Inductive BatchOp :=
| Put (cf : Z) (key val : bytes)
| Delete (cf : Z) (key : bytes)
| Merge (cf : Z) (key operand : bytes).

Definition op_cf (op : BatchOp) : Z :=
  match op with Put cf _ _ | Delete cf _ | Merge cf _ _ => cf end.
Definition op_key (op : BatchOp) : bytes :=
  match op with Put _ key _ | Delete _ key | Merge _ key _ => key end.

(** ** Reading a batch *)

Inductive Tag := Deletion | Value | MergeTag | CfDeletion | CfValue | CfMerge.

(** [TryFrom<u8> for Tag] *)
Definition Tag_try_from (byte : Z) : option Tag :=
  if byte =? 0 then Some Deletion
  else if byte =? 1 then Some Value
  else if byte =? 2 then Some MergeTag
  else if byte =? 4 then Some CfDeletion
  else if byte =? 5 then Some CfValue
  else if byte =? 6 then Some CfMerge
  else None.

(** The body of the loop over the shifts. *)
Fixpoint varint_from (shifts : list Z) (result : Z) (data : bytes) : option (Z * bytes) :=
  match shifts with
  | [] => None
  | shift :: shifts =>
      match data with
      | [] => None
      | byte :: rest =>
          let result := Z.lor result (Z.shiftl (Z.land byte 127) shift mod 4294967296) in
          if Z.land byte 128 =? 0 then Some (result, rest) else varint_from shifts result rest
      end
  end.

Definition take_varint32 (data : bytes) : option (Z * bytes) := varint_from [0; 7; 14; 21; 28] 0 data.

Definition take_varstring (data : bytes) : option (bytes * bytes) :=
  r ← take_varint32 data;
  if r.1 <=? zlen r.2 then Some (take (Z.to_nat r.1) r.2, drop (Z.to_nat r.1) r.2) else None.

Definition is_cf (tag : Tag) : bool :=
  match tag with CfValue | CfDeletion | CfMerge => true | _ => false end.
Definition has_value (tag : Tag) : bool :=
  match tag with Value | CfValue | MergeTag | CfMerge => true | _ => false end.

Definition next_record (data : bytes) : option (Z * bytes * bytes) :=
  match data with
  | [] => None
  | byte :: rest =>
      tag ← Tag_try_from byte;
      cf ← (if is_cf tag then take_varint32 rest else Some (0, rest));
      key ← take_varstring cf.2;
      rest ← (if has_value tag then v ← take_varstring key.2; Some v.2 else Some key.2);
      Some (cf.1, key.1, rest)
  end.

Section Engine.
Context {J : Type} (json cbor : Format J) (display : Error → string) (debug_assertions : bool).

(** [Engine::map_by_cf_id] *)
Context (map_by_cf_id : Z → option Map).

(** [Keys::next] until it is exhausted; every record takes a byte. *)
Fixpoint keys_from (fuel : nat) (data : bytes) : Res (list (Map * bytes)) :=
  match fuel with
  | O => Panic
  | S fuel =>
      match data with
      | [] => Ok []
      | _ :: _ =>
          match next_record data with
          | None => Panic
          | Some (cf_id, key, rest) =>
              l ← keys_from fuel rest;
              Ok (match map_by_cf_id cf_id with Some map => (map, key) :: l | None => l end)
          end
      end
  end.

Definition HEADER : nat := 12.
Definition PER_OP : Z := 16.

Definition keys (data : bytes) : Res (list (Map * bytes)) :=
  let data := drop HEADER data in keys_from (S (length data)) data.

(** ** Transactions *)

(** [struct Txn]; a follow-up is known by its number. *)
Record Txn := mkTxn { batch : list BatchOp; engine : Z; after_execute : list nat }.

Definition Txn_new (engine : Z) : Txn := mkTxn [] engine [].
Definition on_execute (follow_up : nat) (txn : Txn) : Txn :=
  mkTxn (batch txn) (engine txn) (after_execute txn ++ [follow_up]).

Definition assert_map (map : Map) (txn : Txn) : Res () :=
  if engine txn =? map_engine map then Ok () else Panic.

Definition queue (op : BatchOp) (txn : Txn) : Txn :=
  mkTxn (batch txn ++ [op]) (engine txn) (after_execute txn).

Notation encode := (encode_or_panic json cbor display debug_assertions).

Definition insert_raw (map : Map) (key val : bytes) (txn : Txn) : Res Txn :=
  _ ← assert_map map txn; Ok (queue (Put (map_cf map) key val) txn).
Definition del_raw (map : Map) (key : bytes) (txn : Txn) : Res Txn :=
  _ ← assert_map map txn; Ok (queue (Delete (map_cf map) key) txn).
Definition put (map : Map) (key val : Datum) (txn : Txn) : Res Txn :=
  _ ← assert_map map txn; key ← encode key; val ← encode val;
  Ok (queue (Put (map_cf map) key val) txn).
Definition put_raw (map : Map) (key : Datum) (val : bytes) (txn : Txn) : Res Txn :=
  _ ← assert_map map txn; key ← encode key; Ok (queue (Put (map_cf map) key val) txn).
Definition raw_put (map : Map) (key : bytes) (val : Datum) (txn : Txn) : Res Txn :=
  _ ← assert_map map txn; val ← encode val; Ok (queue (Put (map_cf map) key val) txn).
Definition merge (map : Map) (key : Datum) (operand : bytes) (txn : Txn) : Res Txn :=
  _ ← assert_map map txn; key ← encode key; Ok (queue (Merge (map_cf map) key operand) txn).
Definition del (map : Map) (key : Datum) (txn : Txn) : Res Txn :=
  _ ← assert_map map txn; key ← encode key; Ok (queue (Delete (map_cf map) key) txn).

Definition len (txn : Txn) : Z := zlen (batch txn).
Definition is_empty (txn : Txn) : bool := match batch txn with [] => true | _ :: _ => false end.
Definition clear (txn : Txn) : Txn := mkTxn [] (engine txn) (after_execute txn).

(** [Extend<(&Map, K, V)>] and [Extend<(&Map, K)>] *)
Fixpoint extend_puts (items : list (Map * bytes * bytes)) (txn : Txn) : Res Txn :=
  match items with
  | [] => Ok txn
  | (map, key, val) :: items => txn ← insert_raw map key val txn; extend_puts items txn
  end.
Fixpoint extend_dels (items : list (Map * bytes)) (txn : Txn) : Res Txn :=
  match items with
  | [] => Ok txn
  | (map, key) :: items => txn ← del_raw map key txn; extend_dels items txn
  end.

(** [Txn::insert], and [Txn::insert_slice], which only reserves room as well. *)
Definition insert (map : Map) (items : list (bytes * bytes)) : Res Txn :=
  foldl (λ txn item, t ← txn; insert_raw map item.1 item.2 t) (Ok (Txn_new (map_engine map))) items.

(** [Txn::insert_each] and [Txn::insert_each_slice] *)
Definition insert_each (items : list (Map * bytes * bytes)) : Res Txn :=
  match items with
  | [] => Panic
  | (map, key, val) :: items =>
      txn ← insert_raw map key val (Txn_new (map_engine map)); extend_puts items txn
  end.

Fixpoint put_all (items : list (Map * Datum * Datum)) (txn : Txn) : Res Txn :=
  match items with
  | [] => Ok txn
  | (map, key, val) :: items => txn ← put map key val txn; put_all items txn
  end.

Definition put_each (items : list (Map * Datum * Datum)) : Res Txn :=
  match items with
  | [] => Panic
  | (map, _, _) :: _ => put_all items (Txn_new (map_engine map))
  end.

Definition size_hint `{Usize} (items : list (bytes * bytes)) : Z :=
  foldl (λ capacity item, sat_add (sat_add (sat_add capacity PER_OP) (zlen item.1)) (zlen item.2))
    (Z.of_nat HEADER) items.

(** What [execute] does, in order. *)
Inductive Effect :=
| Written (ops : list BatchOp)
| Flushed
| Notified (map : Map) (key : bytes)
| FollowedUp (follow_up : nat).

(** [batch.data()] is [data]; RocksDB's answers and the cork are given.  The
    keys are collected before the first is notified, where the code takes them
    one by one. *)
Definition execute (data : list BatchOp → bytes) (write_ok flush_ok corked : bool) (txn : Txn)
  : Res () * list Effect :=
  if is_empty txn then (Ok (), [])
  else if negb write_ok then (Panic, [])
  else if negb corked && negb flush_ok then (Panic, [Written (batch txn)])
  else
    let flush := if corked then [] else [Flushed] in
    match keys (data (batch txn)) with
    | Ok l => (Ok (), [Written (batch txn)] ++ flush ++ ((λ mk, Notified mk.1 mk.2) <$> l)
                      ++ (FollowedUp <$> after_execute txn))
    | _ => (Panic, [Written (batch txn)] ++ flush)
    end.

End Engine.

(** ** The layout of a batch *)

(** A varint32 takes seven bits to the byte, low bits first. *)
Fixpoint varint_enc (n : nat) (v : Z) : bytes :=
  match n with
  | O => []
  | S n => if v <? 128 then [v] else (v mod 128 + 128) :: varint_enc n (v / 128)
  end.

Definition varint32 (v : Z) : bytes := varint_enc 5 v.
Definition varstring (s : bytes) : bytes := varint32 (zlen s) ++ s.

Definition record_data (op : BatchOp) : bytes :=
  let cf := op_cf op in
  let family := if cf =? 0 then [] else varint32 cf in
  match op with
  | Put _ key val => (if cf =? 0 then 1 else 5) :: family ++ varstring key ++ varstring val
  | Delete _ key => (if cf =? 0 then 0 else 4) :: family ++ varstring key
  | Merge _ key operand => (if cf =? 0 then 2 else 6) :: family ++ varstring key ++ varstring operand
  end.

(** A sequence number and a count, then the records. *)
Definition batch_data (sequence : Z) (ops : list BatchOp) : bytes :=
  be_bytes 8 sequence ++ be_bytes 4 (zlen ops) ++ mjoin (record_data <$> ops).

(** ** The parser reads the layout *)

Fixpoint steps (n : nat) (s : Z) : list Z :=
  match n with O => [] | S n => s :: steps n (s + 7) end.

Lemma byte_bits b : 0 ≤ b < 256 → Z.land b 127 = b mod 128 ∧ (Z.land b 128 =? 0) = (b <? 128).
Proof.
  intros Hb. split; [change 127 with (Z.ones 7); by rewrite Z.land_ones by lia|].
  assert (Hall : Forall (λ b, (Z.land b 128 =? 0) = (b <? 128)) (seqZ 0 256)) by (repeat constructor).
  rewrite Forall_forall in Hall. apply Hall, elem_of_seqZ. lia.
Qed.

Lemma varint_read n s v result rest :
  0 ≤ s → 0 ≤ v < 2 ^ (7 * Z.of_nat (S n)) → v * 2 ^ s < 4294967296 → 0 ≤ result < 2 ^ s →
  varint_from (steps (S n) s) result (varint_enc (S n) v ++ rest) = Some (result + v * 2 ^ s, rest).
Proof.
  revert s v result. induction n as [|n IH]; intros s v result Hs Hv Hfit Hr.
  - cbn [steps varint_enc varint_from]. change (2 ^ (7 * Z.of_nat 1)) with 128 in Hv.
    rewrite (proj2 (Z.ltb_lt v 128)) by lia. cbn [app].
    destruct (byte_bits v) as [-> ->]; [lia|]. rewrite (proj2 (Z.ltb_lt v 128)), (Z.mod_small v) by lia.
    rewrite Z.mod_small, Z.lor_comm, lor_shiftl_add by (rewrite ?Z.shiftl_mul_pow2; nia). do 2 f_equal. lia.
  - change (steps (S (S n)) s) with (s :: steps (S n) (s + 7)).
    change (varint_enc (S (S n)) v)
      with (if v <? 128 then [v] else (v mod 128 + 128) :: varint_enc (S n) (v / 128)).
    cbn [varint_from]. destruct (Z.ltb_spec v 128) as [Hlt|Hge].
    + cbn [app]. destruct (byte_bits v) as [-> ->]; [lia|]. rewrite (proj2 (Z.ltb_lt v 128)), (Z.mod_small v) by lia.
      rewrite Z.mod_small, Z.lor_comm, lor_shiftl_add by (rewrite ?Z.shiftl_mul_pow2; nia). do 2 f_equal. lia.
    + cbn [app]. pose proof (Z.mod_pos_bound v 128 ltac:(lia)) as Hm.
      pose proof (Z.div_mod v 128 ltac:(lia)) as Hdm.
      destruct (byte_bits (v mod 128 + 128)) as [-> ->]; [lia|].
      rewrite (proj2 (Z.ltb_ge _ 128)) by lia.
      replace ((v mod 128 + 128) mod 128) with (v mod 128)
        by (apply (Z.mod_unique_pos _ _ 1); lia).
      assert (0 < 2 ^ s) by lia. assert (0 ≤ v mod 128 * 2 ^ s) by (apply Z.mul_nonneg_nonneg; lia).
      assert (v mod 128 * 2 ^ s < 4294967296).
      { eapply Z.le_lt_trans; [|exact Hfit]. apply Z.mul_le_mono_nonneg_r; [lia|]. apply Z.mod_le; lia. }
      rewrite (Z.mod_small (_ ≪ _)) by (rewrite Z.shiftl_mul_pow2 by lia; done).
      rewrite Z.lor_comm, lor_shiftl_add by lia.
      assert (2 ^ (s + 7) = 2 ^ s * 128) as Hpow by (rewrite Z.pow_add_r by lia; done).
      rewrite IH.
      * do 2 f_equal. rewrite Hpow. nia.
      * lia.
      * split; [apply Z.div_pos; lia|]. apply Z.div_lt_upper_bound; [lia|].
        replace (7 * Z.of_nat (S (S n))) with (7 + 7 * Z.of_nat (S n)) in Hv by lia.
        rewrite Z.pow_add_r in Hv by lia. lia.
      * rewrite Hpow. nia.
      * rewrite Hpow. nia.
Qed.

Lemma take_varint_spec v rest : u32 v → take_varint32 (varint32 v ++ rest) = Some (v, rest).
Proof.
  unfold u32, u32_max. intros Hv. unfold take_varint32. change [0; 7; 14; 21; 28] with (steps 5 0).
  unfold varint32. rewrite varint_read; [|lia|cbn; lia|change (2 ^ 0) with 1; lia|cbn; lia].
  change (2 ^ 0) with 1. do 2 f_equal. lia.
Qed.

Lemma take_varstring_spec s rest : zlen s ≤ u32_max → take_varstring (varstring s ++ rest) = Some (s, rest).
Proof.
  intros Hs. unfold take_varstring, varstring. rewrite <-(assoc_L (++)).
  rewrite take_varint_spec by (unfold u32; pose proof (zlen_nonneg s); lia). cbn.
  rewrite (proj2 (Z.leb_le _ _)) by (rewrite zlen_app; pose proof (zlen_nonneg rest); lia).
  unfold zlen. by rewrite Nat2Z.id, take_app_length, drop_app_length.
Qed.

(** What fits a batch. *)
Definition op_ok (op : BatchOp) : Prop :=
  u32 (op_cf op) ∧ zlen (op_key op) ≤ u32_max
  ∧ match op with Put _ _ v | Merge _ _ v => zlen v ≤ u32_max | Delete _ _ => True end.

Lemma next_record_spec op rest :
  op_ok op → next_record (record_data op ++ rest) = Some (op_cf op, op_key op, rest).
Proof.
  intros (Hcf & Hkey & Hval). unfold record_data.
  destruct op as [cf key val|cf key|cf key val]; cbn [op_cf op_key] in *; destruct (Z.eqb_spec cf 0) as [->|Hne];
    cbn [app next_record Tag_try_from Z.eqb Pos.eqb is_cf has_value mbind option_bind fst snd].
  all: rewrite <-?(assoc_L (++)); rewrite ?take_varint_spec by done; cbn [mbind option_bind fst snd].
  all: rewrite take_varstring_spec by done; cbn [mbind option_bind fst snd]; try done.
  all: by rewrite take_varstring_spec.
Qed.

Lemma record_data_cons op : ∃ b l, record_data op = b :: l.
Proof. destruct op; cbn; eauto. Qed.

Lemma keys_from_spec maps ops fuel :
  Forall op_ok ops → (length ops < fuel)%nat →
  keys_from maps fuel (mjoin (record_data <$> ops)) =
    Ok (omap (λ op, m ← maps (op_cf op); Some (m, op_key op)) ops).
Proof.
  intros Hok. revert fuel. induction Hok as [|op ops Hop Hok IH]; intros [|fuel] Hf; [cbn in Hf; lia|done|cbn in Hf; lia|].
  cbn [fmap list_fmap mjoin list_join keys_from]. destruct (record_data_cons op) as (b & l & Hd).
  rewrite Hd at 1. cbn [app]. rewrite next_record_spec by done. rewrite IH by (cbn in Hf; lia). cbn.
  by destruct (maps (op_cf op)).
Qed.

Lemma length_records ops : (length ops ≤ length (mjoin (record_data <$> ops)))%nat.
Proof.
  induction ops as [|op ops IH]; [done|]. destruct (record_data_cons op) as (b & l & Hd).
  cbn [fmap list_fmap mjoin list_join length]. rewrite length_app, Hd. cbn [length].
  apply le_n_S. etrans; [exact IH|]. apply Nat.le_add_l.
Qed.

Lemma keys_spec maps sequence ops :
  Forall op_ok ops →
  keys maps (batch_data sequence ops) = Ok (omap (λ op, m ← maps (op_cf op); Some (m, op_key op)) ops).
Proof.
  intros Hok. unfold keys, batch_data. rewrite (assoc_L (++)), drop_app_ge by (rewrite length_app, !length_be_bytes; done).
  rewrite length_app, !length_be_bytes. cbn [Nat.add Nat.sub HEADER]. rewrite drop_0.
  apply keys_from_spec; [done|]. pose proof (length_records ops). lia.
Qed.

(** C36: executing a transaction writes its operations as one batch, then
    notifies the watchers of every written key of a known map, deleted and
    merged keys included, in the order they were queued, then runs the
    follow-ups in theirs; an empty transaction does nothing at all, and a
    rejected write or flush aborts before anyone is told. *)
Theorem execute_correct maps sequence write_ok flush_ok corked txn :
  Forall op_ok (batch txn) →
  execute maps (batch_data sequence) write_ok flush_ok corked txn =
    if is_empty txn then (Ok (), [])
    else if negb write_ok then (Panic, [])
    else if negb corked && negb flush_ok then (Panic, [Written (batch txn)])
    else (Ok (), [Written (batch txn)] ++ (if corked then [] else [Flushed])
           ++ omap (λ op, m ← maps (op_cf op); Some (Notified m (op_key op))) (batch txn)
           ++ (FollowedUp <$> after_execute txn)).
Proof.
  intros Hok. unfold execute. rewrite keys_spec by done. repeat case_match; try done.
  all: do 4 f_equal; clear; induction (batch txn) as [|op ops IH]; [done|]; cbn.
  all: destruct (maps (op_cf op)); cbn; by rewrite IH.
Qed.

(** One insertion into a known map and one deletion from an unknown one. *)
Definition sample_txn : Txn := mkTxn [Put 300 [107] [118]; Delete 7 [107; 107]] 1 [4%nat].
Definition sample_catalog (cf : Z) : option Map := if cf =? 300 then Some (mkMap 1 300) else None.

Lemma sample_txn_queued :
  (t ← insert_raw (mkMap 1 300) [107] [118] (Txn_new 1); t ← del_raw (mkMap 1 7) [107; 107] t;
   Ok (on_execute 4 t)) = Ok sample_txn.
Proof. reflexivity. Qed.

Lemma execute_correct_witness :
  Forall op_ok (batch sample_txn) ∧
  execute sample_catalog (batch_data 9) true true false sample_txn =
    (Ok (), [Written (batch sample_txn); Flushed; Notified (mkMap 1 300) [107]; FollowedUp 4]).
Proof.
  assert (Hok : Forall op_ok (batch sample_txn)).
  { unfold op_ok, u32. repeat constructor; cbn; done. }
  split; [exact Hok|]. rewrite (execute_correct sample_catalog 9 true true false sample_txn Hok). reflexivity.
Defined.
