(* ===== verification/Watch.v ===== *)
(** * Watch: waiting for a write under a key prefix

    src/database/map/watch.rs: the table of prefix subscriptions of a map and
    the notification of a written key.  The channel of a subscription is
    tokio's, an interface with the laws the code relies on. *)

From stdpp Require Import sorting.
From S2P Require Import Prelude Store ByteOrder.

(** [tokio::sync::watch::Sender<()>]; a receiver wakes when [version] moves. *)
Class Channel (Tx : Type) := {
  tx_channel : Tx;
  tx_subscribe : Tx → Tx;
  tx_drop : Tx → Tx;
  tx_send : Tx → option Tx;
  receiver_count : Tx → nat;
  version : Tx → nat;
  count_channel : receiver_count tx_channel = 1%nat;
  count_subscribe : ∀ tx, receiver_count (tx_subscribe tx) = S (receiver_count tx);
  count_drop : ∀ tx, receiver_count (tx_drop tx) = pred (receiver_count tx);
  send_closed : ∀ tx, receiver_count tx = 0%nat → tx_send tx = None;
  send_open : ∀ tx, receiver_count tx ≠ 0%nat →
    ∃ tx', tx_send tx = Some tx' ∧ receiver_count tx' = receiver_count tx ∧ version tx' = S (version tx);
  version_subscribe : ∀ tx, version (tx_subscribe tx) = version tx;
  version_drop : ∀ tx, version (tx_drop tx) = version tx
}.

#[global, refine] Instance pair_channel : Channel (nat * nat) := {|
  tx_channel := (1%nat, 0%nat);
  tx_subscribe tx := (S tx.1, tx.2);
  tx_drop tx := (pred tx.1, tx.2);
  tx_send tx := match tx.1 with O => None | S _ => Some (tx.1, S tx.2) end;
  receiver_count tx := tx.1;
  version tx := tx.2;
  count_channel := _; count_subscribe := _; count_drop := _; send_closed := _; send_open := _;
  version_subscribe := _; version_drop := _
|}.
Proof. all: try done; intros [[|n] v]; naive_solver. Defined.

Section Watch.
Context {Tx : Type} `{!Channel Tx}.

Notation Watchers := (gmap bytes Tx).

Definition subscribe (key : bytes) (watchers : Watchers) : Watchers :=
  match watchers !! key with
  | Some tx => <[key := tx_subscribe tx]> watchers
  | None => <[key := tx_channel]> watchers
  end.

(** The guard of [watch_raw_prefix_once], then the end of its receiver. *)
Definition finish_once (key : bytes) (watchers : Watchers) : Watchers :=
  match watchers !! key with
  | Some tx => if (receiver_count tx =? 1)%nat then delete key watchers else <[key := tx_drop tx]> watchers
  | None => watchers
  end.

(** The end of the receiver of [watch_raw_prefix]: the entry stays. *)
Definition finish (key : bytes) (watchers : Watchers) : Watchers :=
  match watchers !! key with Some tx => <[key := tx_drop tx]> watchers | None => watchers end.

Fixpoint take_while {A} (P : A → bool) (l : list A) : list A :=
  match l with [] => [] | x :: l => if P x then x :: take_while P l else [] end.

(** [watchers.range(..=key).rev()] *)
Definition range_rev (key : bytes) (watchers : Watchers) : list bytes :=
  reverse (filter (λ k, byte_le k key) (map_keys watchers)).

(** [tx.send(())] on each; the closed ones are collected. *)
Fixpoint send_all (ks : list bytes) (watchers : Watchers) : Watchers * list bytes :=
  match ks with
  | [] => (watchers, [])
  | k :: ks =>
      match watchers !! k ≫= tx_send with
      | Some tx => send_all ks (<[k := tx]> watchers)
      | None => let r := send_all ks watchers in (r.1, k :: r.2)
      end
  end.

Definition notify (key : bytes) (watchers : Watchers) : Watchers :=
  let matching := take_while (λ k, bool_decide (k `prefix_of` key)) (range_rev key watchers) in
  let r := send_all matching watchers in
  foldl (λ watchers k, delete k watchers) r.1 r.2.

(** ** Exactness *)

(** What a write of [key] should do to a subscription of prefix [k]. *)
Definition sent (key k : bytes) (tx : Tx) : option Tx :=
  if bool_decide (k `prefix_of` key) then tx_send tx else Some tx.

(** No registered prefix starts with another. *)
Definition prefix_free (watchers : Watchers) : Prop :=
  ∀ k k', is_Some (watchers !! k) → is_Some (watchers !! k') → k `prefix_of` k' → k = k'.

Lemma elem_of_range_rev key watchers k :
  k ∈ range_rev key watchers ↔ is_Some (watchers !! k) ∧ byte_le k key.
Proof. unfold range_rev. rewrite elem_of_reverse, list_elem_of_filter, elem_of_map_keys. naive_solver. Qed.

Lemma range_rev_sorted key watchers : StronglySorted (flip byte_le) (range_rev key watchers).
Proof.
  unfold range_rev. pose proof (byte_sort_sorted (map_to_list watchers).*1 : StronglySorted byte_le (map_keys watchers)) as Hs.
  revert Hs. generalize (map_keys watchers). intros l Hs. induction Hs as [|x k Hs IH Hx]; [constructor|].
  rewrite filter_cons. case_decide; [|done]. rewrite reverse_cons. apply StronglySorted_app_2; [|done|repeat constructor].
  intros a b Ha ->%list_elem_of_singleton. rewrite Forall_forall in Hx. apply Hx.
  rewrite elem_of_reverse, list_elem_of_filter in Ha. naive_solver.
Qed.

(** With prefix-free registrations the walk visits the one prefix that matches,
    if any does. *)
Lemma walk_exact key watchers :
  prefix_free watchers →
  let walk := take_while (λ k, bool_decide (k `prefix_of` key)) (range_rev key watchers) in
  NoDup walk ∧ ∀ k, k ∈ walk ↔ is_Some (watchers !! k) ∧ k `prefix_of` key.
Proof.
  intros Hfree. assert (Hone : ∀ k k', is_Some (watchers !! k) → is_Some (watchers !! k') →
    k `prefix_of` key → k' `prefix_of` key → k = k').
  { intros k k' Hk Hk' Hp Hp'. destruct (prefix_weak_total k k' key Hp Hp'); [|symmetry]; by apply Hfree. }
  pose proof (elem_of_range_rev key watchers) as Hin. pose proof (range_rev_sorted key watchers) as Hs.
  assert (Hnd : NoDup (range_rev key watchers)).
  { unfold range_rev. rewrite reverse_Permutation. apply NoDup_filter. unfold map_keys. rewrite byte_sort_perm.
    apply NoDup_fst_map_to_list. }
  destruct (range_rev key watchers) as [|q rest] eqn:Hr; cbn.
  { split; [constructor|]. intros k. split; [by intros ?%elem_of_nil|]. intros [Hk Hp].
    apply Hin. auto using prefix_le. }
  case_bool_decide as Hq.
  - assert (Hrest : take_while (λ k, bool_decide (k `prefix_of` key)) rest = []).
    { destruct rest as [|q' rest]; [done|]. cbn. case_bool_decide as Hq'; [|done]. exfalso.
      apply NoDup_cons in Hnd as [Hnd _]. apply Hnd. rewrite (Hone q q'); [left|apply Hin; set_solver..|done|done]. }
    rewrite Hrest. split; [apply NoDup_singleton|]. intros k. rewrite list_elem_of_singleton. split.
    + intros ->. split; [apply Hin; left|done].
    + intros [Hk Hp]. apply Hone; [done|apply Hin; left|done|done].
  - split; [constructor|]. intros k. split; [by intros ?%elem_of_nil|]. intros [Hk Hp]. exfalso.
    assert (Hkin : k ∈ q :: rest) by (apply Hin; auto using prefix_le).
    apply elem_of_cons in Hkin as [->|Hkin]; [done|].
    apply StronglySorted_cons in Hs as [Hq' _]. rewrite Forall_forall in Hq'. specialize (Hq' k Hkin). cbn in Hq'.
    destruct (proj1 (Hin q)) as [Hqs Hqle]; [left|].
    assert (k `prefix_of` q) by by apply (prefix_between k q key). apply Hq. by rewrite <-(Hfree k q).
Qed.

Lemma send_all_spec ks watchers k :
  NoDup ks →
  (send_all ks watchers).1 !! k =
    (if decide (k ∈ ks) then match watchers !! k ≫= tx_send with Some tx => Some tx | None => watchers !! k end
     else watchers !! k)
  ∧ (k ∈ (send_all ks watchers).2 ↔ k ∈ ks ∧ watchers !! k ≫= tx_send = None).
Proof.
  intros Hnd. revert watchers. induction Hnd as [|x ks Hx Hnd IH]; intros watchers.
  { cbn. split; [done|]. set_solver. }
  cbn. destruct (watchers !! x ≫= tx_send) as [tx|] eqn:Hs.
  - destruct (IH (<[x := tx]> watchers)) as [-> ->]. destruct (decide (k = x)) as [->|Hne].
    + rewrite lookup_insert_eq, Hs. rewrite (decide_False (P := x ∈ ks)), decide_True by (done || left).
      split; [done|]. set_solver.
    + rewrite !lookup_insert_ne by done. split; [|set_solver].
      repeat case_decide; try done; set_solver.
  - cbn. destruct (IH watchers) as [-> Hr]. destruct (decide (k = x)) as [->|Hne].
    + rewrite Hs, (decide_True (P := x ∈ x :: ks)) by left. split; [by case_decide|]. set_solver.
    + split; [|set_solver].
      repeat case_decide; try done; set_solver.
Qed.

Lemma delete_all (ks : list bytes) (watchers : Watchers) k :
  foldl (λ watchers k, delete k watchers) watchers ks !! k =
    if decide (k ∈ ks) then None else watchers !! k.
Proof.
  revert watchers. induction ks as [|x ks IH]; intros watchers; [done|]. cbn. rewrite IH.
  destruct (decide (k = x)) as [->|Hne].
  - rewrite (decide_True (P := x ∈ x :: ks)) by left. case_decide; [done|]. apply lookup_delete_eq.
  - rewrite lookup_delete_ne by done.
    repeat case_decide; try done; set_solver.
Qed.

(** C35: with registered prefixes none of which starts with another, a write of
    [key] sends on every subscription whose prefix [key] has and on no other,
    and takes out exactly those of them nobody listens to. *)
Theorem notify_exact key watchers k :
  prefix_free watchers →
  notify key watchers !! k = watchers !! k ≫= sent key k.
Proof.
  intros Hfree. destruct (walk_exact key watchers Hfree) as [Hnd Hwalk]. unfold notify. cbn zeta.
  set (walk := take_while _ _) in *. rewrite delete_all.
  destruct (send_all_spec walk watchers k Hnd) as [-> Hstale].
  destruct (watchers !! k) as [tx|] eqn:Hk; cbn [mbind option_bind] in *.
  - unfold sent. case_bool_decide as Hp.
    + assert (Hin : k ∈ walk) by by apply Hwalk. rewrite (decide_True (P := k ∈ walk)) by done.
      destruct (tx_send tx); [rewrite decide_False by naive_solver|rewrite decide_True by naive_solver]; done.
    + assert (Hin : k ∉ walk) by naive_solver. rewrite !decide_False by naive_solver. done.
  - repeat case_decide; done.
Qed.

End Watch.

(** Two live subscriptions, for "ab" and "cd". *)
Definition sample_watchers : gmap bytes (nat * nat) :=
  <[[97; 98] := tx_channel]> (<[[99; 100] := tx_channel]> ∅).

Lemma sample_watchers_subscribed : sample_watchers = subscribe [97; 98] (subscribe [99; 100] ∅).
Proof. reflexivity. Qed.

Lemma notify_exact_witness :
  prefix_free sample_watchers ∧ notify [97; 98; 255; 1] sample_watchers !! [97; 98] = Some (1%nat, 1%nat).
Proof.
  assert (Hkeys : ∀ k, is_Some (sample_watchers !! k) → k = [97; 98] ∨ k = [99; 100]).
  { intros k Hk. destruct (decide (k = [97; 98])), (decide (k = [99; 100])); [auto..|].
    unfold sample_watchers in Hk. rewrite !lookup_insert_ne in Hk by done. by destruct Hk. }
  assert (Hfree : prefix_free sample_watchers).
  { intros k k' Hk%Hkeys Hk'%Hkeys Hp. destruct Hk as [->| ->], Hk' as [->| ->]; try done;
      apply prefix_cons_inv_1 in Hp; done. }
  split; [exact Hfree|]. rewrite (notify_exact [97; 98; 255; 1] sample_watchers [97; 98] Hfree). reflexivity.
Defined.

(** Where one prefix starts with another the shorter one can be missed: "a" is
    a prefix of the written key "ac", but the walk meets "ab" first and ends. *)
Lemma nested_prefix_missed :
  let watchers : gmap bytes (nat * nat) := subscribe [97; 98] (subscribe [97] ∅) in
  [97] `prefix_of` [97; 99] ∧ notify [97; 99] watchers = watchers.
Proof. split; [by exists [99]|]. reflexivity. Qed.
