(* ===== verification/CounterMerge.v ===== *)
(** * CounterMerge: counters folded from merge operands

    src/database/engine/merge.rs: the nine bytes of an operand and the fold of
    the operands into the stored count. *)

From S2P Require Import Prelude Store.

Definition COUNTER_SENTINEL : Z := i64_min.

Inductive CounterOperand := Init | Add (delta : Z) | Set_ (value : Z).

Definition TAG_INIT : Z := 0x01.
Definition TAG_ADD : Z := 0x02.
Definition TAG_SET : Z := 0x03.

Definition to_bytes (self : CounterOperand) : bytes :=
  match self with
  | Init => TAG_INIT :: be_bytes 8 0
  | Add delta => TAG_ADD :: be_bytes 8 delta
  | Set_ value => TAG_SET :: be_bytes 8 value
  end.

(** [bytes.try_into().ok().map(i64::from_be_bytes)] *)
Definition decode_counter (b : bytes) : option Z :=
  if zlen b =? 8 then Some (as_i64 (from_be b)) else None.

Definition from_bytes (b : bytes) : option CounterOperand :=
  match b with
  | [] => None
  | tag :: value =>
      value ← decode_counter value;
      if tag =? TAG_INIT then Some Init
      else if tag =? TAG_ADD then Some (Add value)
      else if tag =? TAG_SET then Some (Set_ value)
      else None
  end.

(** [i64::saturating_add] *)
Definition i64_sat_add (a b : Z) : Z := Z.max i64_min (Z.min i64_max (a + b)).

Definition apply_operand (state : option Z) (operand : CounterOperand) : option Z :=
  match state, operand with
  | None, Init => Some 0
  | Some count, Init => Some count
  | None, Add _ => Some COUNTER_SENTINEL
  | Some count, Add delta =>
      if count =? COUNTER_SENTINEL then Some COUNTER_SENTINEL else Some (i64_sat_add count delta)
  | _, Set_ value => Some value
  end.

Definition fold_counter (state : option Z) (operands : list CounterOperand) : option Z :=
  foldl apply_operand state operands.

Definition counter_full_merge (existing : option bytes) (operands : list bytes) : option bytes :=
  let state := existing ≫= decode_counter in
  be_bytes 8 <$> fold_counter state (omap from_bytes operands).

(** Always declines. *)
Definition counter_partial_merge (existing : option bytes) (operands : list bytes) : option bytes := None.

(** ** Facts *)

Definition operand_ok (o : CounterOperand) : Prop :=
  match o with Init => True | Add v | Set_ v => i64 v end.

Lemma decode_encode v : i64 v → decode_counter (be_bytes 8 v) = Some v.
Proof.
  intros Hv. unfold decode_counter. rewrite zlen_be_bytes. cbn [Z.eqb Z.of_nat Pos.of_succ_nat Pos.succ Pos.eqb].
  f_equal. rewrite from_be_be_bytes. change (2 ^ (8 * Z.of_nat 8)) with 18446744073709551616.
  by apply as_i64_u64.
Qed.

Lemma operand_roundtrip o : operand_ok o → from_bytes (to_bytes o) = Some o.
Proof. intros Ho. destruct o as [|v|v]; cbn [to_bytes from_bytes]; by rewrite decode_encode. Qed.

Lemma decode_range b v : bytes_ok b → decode_counter b = Some v → i64 v.
Proof.
  unfold decode_counter. intros Hb Hd. destruct (Z.eqb_spec (zlen b) 8) as [Hl|]; [|done]. injection Hd as <-.
  pose proof (from_be_bound b Hb) as Hf. rewrite Hl in Hf. change (2 ^ (8 * 8)) with 18446744073709551616 in Hf.
  unfold as_i64, i64, i64_min, i64_max. case_match; lia.
Qed.

Lemma operand_range b o : bytes_ok b → from_bytes b = Some o → operand_ok o.
Proof.
  destruct b as [|tag b]; [done|]. intros [_ Hb]%Forall_cons_1. cbn. destruct (decode_counter b) as [v|] eqn:Hd; [|done].
  cbn. apply decode_range in Hd; [|done]. repeat case_match; intros [= <-]; done.
Qed.

Lemma apply_range st o v :
  (∀ c, st = Some c → i64 c) → operand_ok o → apply_operand st o = Some v → i64 v.
Proof.
  unfold apply_operand, i64_sat_add, COUNTER_SENTINEL, i64, i64_min, i64_max. intros Hst Ho Hv.
  destruct st as [c|], o as [|d|d]; cbn in *; try (case_match); simplify_eq; try lia; naive_solver lia.
Qed.

Lemma fold_range st os v :
  (∀ c, st = Some c → i64 c) → Forall operand_ok os → fold_counter st os = Some v → i64 v.
Proof.
  intros Hst Hos. revert st Hst. induction Hos as [|o os Ho Hos IH]; intros st Hst; [apply Hst|].
  cbn. apply IH. intros c Hc. by apply (apply_range st o).
Qed.

Lemma operands_range bs : Forall bytes_ok bs → Forall operand_ok (omap from_bytes bs).
Proof.
  induction 1 as [|b bs Hb Hbs IH]; [constructor|]. cbn. destruct (from_bytes b) as [o|] eqn:Ho; [|done].
  constructor; [by apply (operand_range b)|done].
Qed.

Lemma merge_in_stages_spec existing os os' value :
  (∀ b, existing = Some b → bytes_ok b) → Forall bytes_ok os →
  counter_full_merge existing os = Some value →
  counter_full_merge (Some value) os' = counter_full_merge existing (os ++ os').
Proof.
  intros He Hos. unfold counter_full_merge. rewrite omap_app. unfold fold_counter. rewrite foldl_app.
  destruct (foldl apply_operand _ (omap from_bytes os)) as [v|] eqn:Hv; [|done]. intros Hval.
  change (Some (be_bytes 8 v) = Some value) in Hval. apply (inj Some) in Hval as <-. cbn [mbind option_bind].
  rewrite decode_encode; [done|]. eapply fold_range; [|by apply operands_range|exact Hv].
  intros c Hc. destruct existing as [b|]; [|done]. by apply (decode_range b), Hc; apply He.
Qed.

(** The number of references a history of additions leaves, on the integers. *)
Fixpoint total (ds : list Z) : Z := match ds with [] => 0 | d :: ds => d + total ds end.

(** Every running sum stays strictly inside the range of the counter. *)
Fixpoint in_bounds (c : Z) (ds : list Z) : Prop :=
  match ds with [] => True | d :: ds => i64_min < c + d ≤ i64_max ∧ in_bounds (c + d) ds end.

Lemma fold_adds c ds :
  c ≠ COUNTER_SENTINEL → in_bounds c ds → fold_counter (Some c) (Add <$> ds) = Some (c + total ds).
Proof.
  revert c. induction ds as [|d ds IH]; intros c Hc Hb; cbn [fmap list_fmap fold_counter foldl total].
  { f_equal. lia. }
  destruct Hb as [Hd Hb]. cbn [apply_operand]. rewrite (proj2 (Z.eqb_neq _ _)) by done.
  unfold i64_sat_add. replace (Z.max _ _) with (c + d) by lia.
  change (foldl apply_operand (Some (c + d)) (Add <$> ds)) with (fold_counter (Some (c + d)) (Add <$> ds)).
  rewrite IH; [f_equal; lia| |done]. unfold COUNTER_SENTINEL. lia.
Qed.

Lemma fold_sentinel ds : fold_counter (Some COUNTER_SENTINEL) (Add <$> ds) = Some COUNTER_SENTINEL.
Proof. induction ds as [|d ds IH]; [done|]. cbn. exact IH. Qed.

(** a counter opened by [Init] holds the sum of what was added to it, read
    through its stored bytes and however RocksDB splits the operands into
    merges; a counter that was never opened is marked once by the first
    addition and no later addition turns the mark into a count. *)
Theorem counter_merge_correct ds ds' d value :
  in_bounds 0 (ds ++ ds') → Forall i64 (ds ++ ds') → i64 d →
  counter_full_merge None (to_bytes <$> Init :: (Add <$> ds)) = Some value →
  (counter_full_merge (Some value) (to_bytes <$> (Add <$> ds')) ≫= decode_counter) = Some (total (ds ++ ds'))
  ∧ (counter_full_merge None (to_bytes <$> (Add <$> d :: ds)) ≫= decode_counter) = Some COUNTER_SENTINEL.
Proof.
  intros Hb Hr Hd Hv.
  assert (Hparse : ∀ os, Forall operand_ok os → omap from_bytes (to_bytes <$> os) = os).
  { induction 1 as [|o os Ho Hos IH]; [done|]. cbn. rewrite operand_roundtrip by done. by rewrite IH. }
  assert (Hadds : ∀ l, Forall i64 l → Forall operand_ok (Add <$> l)).
  { induction 1; constructor; done. }
  apply Forall_app in Hr as [Hr Hr'].
  assert (Hbytes : ∀ os, Forall bytes_ok (to_bytes <$> os)).
  { induction os as [|o os IH]; constructor; [|done]. destruct o; constructor; try apply be_bytes_ok; done. }
  split.
  - rewrite (merge_in_stages_spec None (to_bytes <$> Init :: (Add <$> ds))); [|done|apply Hbytes|done].
    rewrite <-fmap_app. cbn [app]. rewrite <-fmap_app. unfold counter_full_merge. cbn [mbind option_bind].
    rewrite Hparse by (constructor; [done|]; apply Hadds, Forall_app; done). cbn [fold_counter foldl apply_operand].
    change (foldl apply_operand (Some 0) (Add <$> ds ++ ds')) with (fold_counter (Some 0) (Add <$> ds ++ ds')).
    rewrite fold_adds by done. cbn [fmap option_fmap option_map mbind option_bind]. rewrite Z.add_0_l. apply decode_encode.
    eapply (fold_range (Some 0) (Add <$> ds ++ ds')); [by intros c [= <-]|apply Hadds, Forall_app; done|].
    rewrite fold_adds by done. by rewrite Z.add_0_l.
  - unfold counter_full_merge. cbn [mbind option_bind]. rewrite Hparse by (apply Hadds; by constructor).
    cbn [fmap list_fmap fold_counter foldl apply_operand].
    change (foldl apply_operand (Some COUNTER_SENTINEL) (list_fmap _ _ Add ds)) with (fold_counter (Some COUNTER_SENTINEL) (Add <$> ds)).
    rewrite fold_sentinel. by apply decode_encode.
Qed.

Lemma counter_merge_correct_witness :
  ∃ value, counter_full_merge None (to_bytes <$> Init :: (Add <$> [1; 1])) = Some value ∧
  (counter_full_merge (Some value) (to_bytes <$> (Add <$> [-1])) ≫= decode_counter) = Some 1.
Proof.
  exists (be_bytes 8 2). split; [reflexivity|].
  apply (counter_merge_correct [1; 1] [-1] 1 (be_bytes 8 2)); [|repeat constructor; done|done|reflexivity].
  cbn. unfold i64_min, i64_max. lia.
Defined.
