(* ===== verification/Globals.v ===== *)
(** * Globals: the server's sequence numbers

    src/service/globals/data.rs: the two-phase counter with its two callbacks,
    one storing each number before it is used, one telling the waiters how far
    the numbers are retired.  The world of the counter is the [global] column
    family and the [retires] channel. *)

From stdpp Require Import sorting.
From S2P Require Import Prelude CoreError Bytes Store TwoPhaseCounter.

Section Globals.
Context {S C : Type} `{!KeyValue S, !Watch C} (debug_assertions : bool).

Notation World := (S * C)%type.
Notation System := (System (W := S * C)).

(** [b"c"] *)
Definition COUNTER : bytes := [99].

Definition store_count (count : Z) (w : World) : Res () * World :=
  (Ok (), (kv_put w.1 COUNTER (be_bytes 8 count), w.2)).

Definition handle_retire (count : Z) (w : World) : Res () * World :=
  (Ok (), (w.1, send_replace count w.2)).

Definition stored_count (global : S) : Res Z :=
  match kv_get global COUNTER with Some value => u64_from_bytes value | None => Ok 0 end.

(** [Data::new] *)
Definition Data_new (global : S) : Res System :=
  match stored_count global with
  | Ok count => Ok (start count store_count handle_retire (global, watch_new count))
  | _ => Panic
  end.

Definition next_count (sys : System) : Res () * System :=
  match act debug_assertions Next sys with (Err _, sys) => (Panic, sys) | r => r end.

Definition current_count (sys : System) : Res Z := current debug_assertions (counter sys).
Definition pending_count (sys : System) : Res (Z * Z) := range debug_assertions (counter sys).

(** What a waiter for [count] sees: the channel's value once it reaches
    [count], nothing before. *)
Definition wait_count (sys : System) (count : Z) : option Z :=
  if count <=? borrow (world sys).2 then Some (borrow (world sys).2) else None.

(** The number [wait_pending] waits for, taken when it is called. *)
Definition wait_pending (sys later : System) : option Z := wait_count later (dispatched (counter sys)).

(** ** Invariant *)

Record globals_ok (init : Z) (sys : System) : Prop := {
  gok_counter : counter_ok init sys;
  gok_commit : commit (counter sys) = store_count;
  gok_release : release (counter sys) = handle_retire;
  gok_stored : stored_count (world sys).1 = Ok (dispatched (counter sys));
  gok_channel : borrow (world sys).2 ≤ frontier (counter sys);
  gok_quiet : pending (counter sys) = [] → borrow (world sys).2 = dispatched (counter sys)
}.

Lemma stored_put s n : u64 n → stored_count (kv_put s COUNTER (be_bytes 8 n)) = Ok n.
Proof. intros. unfold stored_count. rewrite kv_get_put_eq. by apply u64_from_bytes_be. Qed.

Lemma next_step init sys :
  globals_ok init sys → dispatched (counter sys) + 1 ≤ u64_max →
  act debug_assertions Next sys =
    (Ok (), mkSystem
      (mkState (dispatched (counter sys) + 1) store_count
        (pending (counter sys) ++ [dispatched (counter sys) + 1]) handle_retire)
      (kv_put (world sys).1 COUNTER (be_bytes 8 (dispatched (counter sys) + 1)), (world sys).2)
      (mkPermit (frontier (counter sys)) (dispatched (counter sys) + 1) :: permits sys)
      (issued sys ++ [dispatched (counter sys) + 1])).
Proof.
  intros [Hok Hc Hr _ _ _] Hmax. cbn [act]. unfold dispatch.
  rewrite (next_number_spec _ _ _ Hok), checked_fits by done. cbn. by rewrite Hc, Hr.
Qed.

Lemma next_exhausted init sys :
  globals_ok init sys → u64_max < dispatched (counter sys) + 1 →
  ∃ e, act debug_assertions Next sys = (Err e, sys).
Proof.
  intros [Hok _ _ _ _ _] Hmax. cbn [act]. unfold dispatch. rewrite (next_number_spec _ _ _ Hok).
  unfold checked. destruct (Z.leb_spec (dispatched (counter sys) + 1) u64_max); [lia|]. cbn.
  eexists. by destruct sys.
Qed.

Lemma drop_step init sys i p j :
  globals_ok init sys → permits sys !! i = Some p → pending (counter sys) !! j = Some (permit_id p) →
  act debug_assertions (Drop i) sys =
    let s := mkState (dispatched (counter sys)) store_count (delete j (pending (counter sys))) handle_retire in
    let number := match pending s with [] => dispatched s | _ :: _ => permit_id p end in
    (Ok (), mkSystem s
      (if (j =? 0)%nat then ((world sys).1, send_replace number (world sys).2) else world sys)
      (delete i (permits sys)) (issued sys)).
Proof.
  intros [Hok Hc Hr _ _ _] Hp Hj. cbn [act]. rewrite Hp, (retire_spec _ _ _ Hok j) by done.
  cbn zeta. cbn [pending dispatched release]. rewrite Hc, Hr. by destruct (j =? 0)%nat.
Qed.

(** An operation moves the frontier over what was pending before it. *)
Lemma act_globals init op sys : globals_ok init sys → globals_ok init (act debug_assertions op sys).2.
Proof.
  intros Hg. pose proof (act_ok debug_assertions init op sys (gok_counter _ _ Hg)) as Hok'.
  pose proof Hg as [Hok Hc Hr Hs Hch Hq]. pose proof (ok_range _ _ Hok) as Hrange. destruct op as [|i].
  - destruct (Z.le_gt_cases (dispatched (counter sys) + 1) u64_max) as [Hmax|Hmax].
    + rewrite (next_step init) in * by done. split; cbn in *; [done..| | |].
      * apply stored_put. unfold u64. lia.
      * unfold frontier in *. cbn in *. destruct (pending (counter sys)); cbn; [rewrite Hq by done; lia|done].
      * by destruct (pending (counter sys)).
    + by destruct (next_exhausted init sys) as [e ->].
  - destruct (permits sys !! i) as [p|] eqn:Hp; [|cbn; by rewrite Hp].
    destruct (held_pending _ _ _ _ Hok Hp) as [j Hj]. rewrite (drop_step init sys i p j) in * by done.
    pose proof (ok_sorted _ _ Hok) as Hsort. pose proof (frontier_range _ _ Hok) as Hf.
    unfold frontier in *. destruct (pending (counter sys)) as [|v l] eqn:Hpend; [done|].
    destruct j as [|j]; cbn in *; (split; cbn; [done..| | |]).
    + done.
    + simplify_eq. rewrite borrow_send. unfold frontier. cbn. apply StronglySorted_cons in Hsort as [Hv _].
      destruct l as [|v' l]; [lia|]. apply Forall_cons_1 in Hv as [? _]. lia.
    + intros ->. by rewrite borrow_send.
    + done.
    + done.
    + done.
Qed.

Lemma history_globals init ops sys :
  globals_ok init sys → globals_ok init (history debug_assertions ops sys).
Proof. revert sys. induction ops as [|op ops IH]; intros sys Hg; [done|]. by apply IH, act_globals. Qed.

(** What [Data::new] finds in the store: nothing, or a number it stored. *)
Definition count_row (global : S) (init : Z) : Prop :=
  (kv_get global COUNTER = None ∧ init = 0) ∨ (kv_get global COUNTER = Some (be_bytes 8 init) ∧ u64 init).

Lemma count_row_stored global init : count_row global init → stored_count global = Ok init ∧ u64 init.
Proof.
  unfold stored_count. intros [[-> ->]|[-> ?]]; [by split|]. by rewrite u64_from_bytes_be.
Qed.

Lemma Data_new_ok global init :
  count_row global init → ∃ sys, Data_new global = Ok sys ∧ globals_ok init sys ∧ issued sys = [].
Proof.
  intros [Hs Hu]%count_row_stored. unfold Data_new. rewrite Hs. eexists. split; [done|]. split; [|done].
  split; cbn; [by apply start_ok|done..|by rewrite borrow_new|by rewrite borrow_new].
Qed.

(** What a history leaves in the store is a row [Data::new] reads back. *)
Definition restart (sys : System) : Res System := Data_new (world sys).1.

Lemma restart_ok init sys :
  globals_ok init sys →
  ∃ sys', restart sys = Ok sys' ∧ globals_ok (dispatched (counter sys)) sys' ∧ issued sys' = [].
Proof.
  intros [Hok _ _ Hs _ _]. unfold restart, Data_new. rewrite Hs. pose proof (ok_range _ _ Hok).
  eexists. split; [done|]. split; [|done].
  split; cbn; [apply start_ok; lia|done..|by rewrite borrow_new|by rewrite borrow_new].
Qed.

(** C32: after any history of the server's counter and a restart from what it
    stored, no number of the first run is handed out again by the second;
    nothing the counter does unwinds before the numbers run out. *)
Theorem restart_never_reuses global init ops more :
  count_row global init →
  ∃ sys, Data_new global = Ok sys ∧
    let before := history debug_assertions ops sys in
    ∃ sys', restart before = Ok sys' ∧
      let after := history debug_assertions more sys' in
      (∀ m n, m ∈ issued before → n ∈ issued after → m < n)
      ∧ (∀ i, (act debug_assertions (Drop i) after).1 = Ok ())
      ∧ (dispatched (counter after) < u64_max → (next_count after).1 = Ok ()).
Proof.
  intros Hrow. destruct (Data_new_ok _ _ Hrow) as (sys & Hnew & Hg & _). exists sys. split; [done|].
  intros before. pose proof (history_globals init ops sys Hg : globals_ok init before) as Hb.
  destruct (restart_ok _ _ Hb) as (sys' & Hre & Hg' & _). exists sys'. split; [done|].
  intros after. pose proof (history_globals _ more sys' Hg' : globals_ok _ after) as Ha. split_and!.
  - intros m n. rewrite (ok_issued _ _ (gok_counter _ _ Hb)), (ok_issued _ _ (gok_counter _ _ Ha)).
    rewrite !elem_of_seqZ. lia.
  - intros i. destruct (permits after !! i) as [p|] eqn:Hp; [|cbn; by rewrite Hp].
    destruct (held_pending _ _ _ _ (gok_counter _ _ Ha) Hp) as [j Hj]. by rewrite (drop_step _ after i p j Ha).
  - intros Hlt. unfold next_count. by rewrite (next_step _ after Ha) by lia.
Qed.

(** C33: a reader that waits for the writes pending when it asked is let through
    only when each of them has been dropped, with a value [current_count]
    confirms; and it is let through once no permit is alive. *)
Theorem wait_pending_correct global init ops more :
  count_row global init →
  ∃ sys, Data_new global = Ok sys ∧
    let asked := history debug_assertions ops sys in
    let later := history debug_assertions more asked in
    (∀ r, wait_pending asked later = Some r →
      (∀ n, n ∈ held asked → n ∉ held later) ∧
      ∃ c, current_count later = Ok c ∧ dispatched (counter asked) ≤ r ≤ c)
    ∧ (permits later = [] → wait_pending asked later = Some (dispatched (counter later))).
Proof.
  intros Hrow. destruct (Data_new_ok _ _ Hrow) as (sys & Hnew & Hg & _). exists sys. split; [done|].
  intros asked later. pose proof (history_globals init ops sys Hg : globals_ok init asked) as Ha.
  pose proof (history_globals init more asked Ha : globals_ok init later) as Hl.
  pose proof (gok_counter _ _ Ha) as Hca. pose proof (gok_counter _ _ Hl) as Hcl.
  unfold wait_pending, wait_count. split.
  - intros r Hr. case_match eqn:Hle; [|done]. injection Hr as <-. apply Z.leb_le in Hle.
    pose proof (gok_channel _ _ Hl) as Hch. split.
    + intros n Hn Hin. apply (held_range _ _ Hca) in Hn. apply (held_above _ _ Hcl) in Hin. lia.
    + exists (frontier (counter later)). split; [by eapply retired_spec|lia].
  - intros Hnone. assert (Hp : pending (counter later) = []).
    { apply Permutation_nil_r. rewrite (ok_held _ _ Hcl). unfold held. by rewrite Hnone. }
    rewrite (gok_quiet _ _ Hl Hp). rewrite (proj2 (Z.leb_le _ _)); [done|].
    pose proof (history_dispatched debug_assertions more asked). done.
Qed.

End Globals.

(** A store whose counter stands at 7. *)
Definition sample_global : gmap bytes bytes := {[ COUNTER := be_bytes 8 7 ]}.

Lemma sample_row : count_row sample_global 7.
Proof. right. split; [reflexivity|done]. Qed.

(** The oldest permit is dropped after a younger one: the channel is sent the
    oldest number, which is behind the retirement value. *)
Lemma release_lags :
  ∃ sys, Data_new (C := Z) sample_global = Ok sys ∧
    let later := history true [Next; Next; Next; Drop 1; Drop 1] sys in
    current_count true later = Ok 9 ∧ borrow (world later).2 = 8
    ∧ held later = [10] ∧ wait_count later 9 = None.
Proof. eexists. split; [reflexivity|]. by vm_compute. Qed.

Lemma restart_never_reuses_witness :
  count_row sample_global 7 ∧
  ∃ sys, Data_new (C := Z) sample_global = Ok sys ∧
    ∃ sys', restart (history true [Next; Next; Drop 0] sys) = Ok sys' ∧
      ∀ m n, m ∈ issued (history true [Next; Next; Drop 0] sys) → n ∈ issued (history true [Next] sys') → m < n.
Proof.
  split; [exact sample_row|].
  destruct (restart_never_reuses (C := Z) true sample_global 7 [Next; Next; Drop 0] [Next] sample_row)
    as (sys & Hnew & sys' & Hre & H & _).
  exists sys. split; [exact Hnew|]. exists sys'. split; [exact Hre|exact H].
Defined.

Lemma wait_pending_correct_witness :
  count_row sample_global 7 ∧
  ∃ sys, Data_new (C := Z) sample_global = Ok sys ∧
    let asked := history true [Next; Next] sys in
    let later := history true [Next; Drop 2; Drop 1; Drop 0] asked in
    permits later = [] → wait_pending asked later = Some (dispatched (counter later)).
Proof.
  split; [exact sample_row|].
  destruct (wait_pending_correct (C := Z) true sample_global 7 [Next; Next] [Next; Drop 2; Drop 1; Drop 0] sample_row)
    as (sys & Hnew & _ & H).
  exists sys. split; [exact Hnew|exact H].
Defined.
