(* ===== verification/StateDiffs.v ===== *)
(** * StateDiffs: room states stored as layered differences

    src/service/rooms/state_compressor/mod.rs, up to the allocation of a state's
    number: the sixteen bytes of a state entry, the stored form of a difference,
    the layers a new state is put on, and the loading of a state through its
    layers and the cache.  A [BTreeSet] is a finite set read in byte order.  The
    column family is a key-value store; the cache is the lru_cache crate's, an
    interface. *)

From S2P Require Import Prelude CoreError Bytes Store ByteOrder.

(** [LruCache]: what it holds is what was inserted last, less what it evicted. *)
Class Lru (C K V : Type) := {
  lru_peek : C → K → option V;
  lru_get_mut : C → K → option V * C;
  lru_insert : C → K → V → C;
  lru_clear : C → C;
  lru_get_peek : ∀ c k, (lru_get_mut c k).1 = lru_peek c k;
  lru_get_keeps : ∀ c k k', lru_peek (lru_get_mut c k).2 k' = lru_peek c k';
  lru_insert_peek : ∀ c k v k' v', lru_peek (lru_insert c k v) k' = Some v' →
    (k' = k ∧ v' = v) ∨ (k' ≠ k ∧ lru_peek c k' = Some v');
  lru_clear_peek : ∀ c k, lru_peek (lru_clear c) k = None
}.

#[global, refine] Instance gmap_lru {V} : Lru (gmap Z V) Z V := {|
  lru_peek c k := c !! k;
  lru_get_mut c k := (c !! k, c);
  lru_insert c k v := <[k := v]> c;
  lru_clear _ := ∅;
  lru_get_peek := _; lru_get_keeps := _; lru_insert_peek := _; lru_clear_peek := _
|}.
Proof.
  all: try done. intros c k v k' v'. destruct (decide (k = k')) as [->|].
  - rewrite lookup_insert_eq. intros [= ->]. by left.
  - rewrite lookup_insert_ne by done. by right.
Defined.

Notation CompressedState := (gset bytes).

Section StateDiffs.
Context `{!Usize} {S C : Type} `{!KeyValue S}.

Record StateDiff := mkDiff { parent : option Z; added : CompressedState; removed : CompressedState }.

Record ShortStateInfo := mkInfo {
  shortstatehash : Z;
  full_state : CompressedState;
  info_added : CompressedState;
  info_removed : CompressedState
}.

Context `{!Lru C Z (list ShortStateInfo)} (debug_assertions : bool).

Local Notation debug_assert := (Prelude.debug_assert debug_assertions).

(** ** State entries *)

(** [ArrayVec::<u8, 16>::extend] *)
Definition vec16_extend (v bs : bytes) : Res bytes := if zlen (v ++ bs) <=? 16 then Ok (v ++ bs) else Panic.

Definition compress_state_event (shortstatekey shorteventid : Z) : Res bytes :=
  v ← vec16_extend [] (be_bytes 8 shortstatekey);
  v ← vec16_extend v (be_bytes 8 shorteventid);
  if zlen v =? 16 then Ok v else Panic.

Definition parse_compressed_state_event (compressed_event : bytes) : Res (Z * Z) :=
  a ← slice compressed_event 0 8; shortstatekey ← u64_from_u8 a;
  b ← slice compressed_event 8 (zlen compressed_event); shorteventid ← u64_from_u8 b;
  Ok (shortstatekey, shorteventid).

(** ** The stored form *)

Definition STRIDE : Z := 8.

(** [slice.get(a..b)] *)
Definition get_range (l : bytes) (a b : Z) : option bytes :=
  if (a <=? b) && (b <=? zlen l) then Some (take (Z.to_nat (b - a)) (drop (Z.to_nat a) l)) else None.

Definition starts_with (v p : bytes) : bool := bool_decide (take (length p) v = p).

(** [v.try_into()?] to an entry *)
Definition try_into_entry (v : bytes) : Res bytes := if zlen v =? 16 then Ok v else Err TryFromSlice.

(** The loop of [get_statediff]. *)
Fixpoint read_entries (fuel : nat) (value : bytes) (add_mode : bool) (i : Z) (a r : CompressedState)
  : Res (CompressedState * CompressedState) :=
  match fuel with
  | O => Panic
  | Datatypes.S fuel =>
      stop ← expected usize_max (i + 2 * STRIDE);
      match get_range value i stop with
      | None => Ok (a, r)
      | Some v =>
          if add_mode && starts_with v (be_bytes 8 0) then
            i ← expected usize_max (i + STRIDE); read_entries fuel value false i a r
          else
            e ← try_into_entry v;
            i ← expected usize_max (i + 2 * STRIDE);
            if add_mode then read_entries fuel value true i ({[ e ]} ∪ a) r
            else read_entries fuel value false i a ({[ e ]} ∪ r)
      end
  end.

(** [get_statediff] on the row it found. *)
Definition decode_statediff (value : bytes) : Res StateDiff :=
  h ← slice value 0 8;
  let p := match u64_from_bytes h with Ok p => if p =? 0 then None else Some p | _ => None end in
  _ ← debug_assert (zlen value mod STRIDE =? 0);
  r ← read_entries (Datatypes.S (length value)) value true STRIDE ∅ ∅;
  Ok (mkDiff p r.1 r.2).

Definition get_statediff (db : S) (ssh : Z) : Res StateDiff :=
  match kv_get db (be_bytes 8 ssh) with
  | Some value => decode_statediff value
  | None => Err (Database "Failed to find StateDiff from short")
  end.

Definition encode_statediff (diff : StateDiff) : bytes :=
  be_bytes 8 (default 0 (parent diff))
  ++ mjoin (set_iter (added diff))
  ++ if decide (removed diff = ∅) then [] else be_bytes 8 0 ++ mjoin (set_iter (removed diff)).

(** [save_statediff]: the row it queues in the caller's transaction. *)
Definition save_statediff (ssh : Z) (diff : StateDiff) : bytes * bytes :=
  (be_bytes 8 ssh, encode_statediff diff).

(** ** Layering *)

(** One turn of the loop over the removed entries: [(parent_new, parent_removed)]. *)
Definition fold_removed (acc : CompressedState * CompressedState) (e : bytes) : CompressedState * CompressedState :=
  if decide (e ∈ acc.1) then (acc.1 ∖ {[ e ]}, acc.2) else (acc.1, {[ e ]} ∪ acc.2).

(** One turn of the loop over the new entries. *)
Definition fold_new (acc : CompressedState * CompressedState) (e : bytes) : CompressedState * CompressedState :=
  if decide (e ∈ acc.2) then (acc.1, acc.2 ∖ {[ e ]}) else ({[ e ]} ∪ acc.1, acc.2).

(** A difference moved below the layer [p] it was taken against. *)
Definition sink (p : ShortStateInfo) (new gone : CompressedState) : CompressedState * CompressedState :=
  foldl fold_new (foldl fold_removed (info_added p, info_removed p) (set_iter gone)) (set_iter new).

Definition set_len (s : CompressedState) : Z := Z.of_nat (size s).

(** [save_state_from_diff]; [parent_states] with its last element first. *)
Fixpoint save_layers (ssh : Z) (new gone : CompressedState) (diff_to_sibling : Z)
    (parent_states : list ShortStateInfo) : Res (bytes * bytes) :=
  diffsum ← checked usize_max (set_len new + set_len gone);
  match parent_states with
  | [] => Ok (save_statediff ssh (mkDiff None new gone))
  | p :: rest =>
      let below := sink p new gone in
      if (3 <? zlen parent_states) then save_layers ssh below.1 below.2 diffsum rest
      else
        parent_diff ← checked usize_max (set_len (info_added p) + set_len (info_removed p));
        square ← checked usize_max (diffsum * diffsum);
        twice ← checked usize_max (2 * diff_to_sibling);
        limit ← checked usize_max (twice * parent_diff);
        if limit <=? square then save_layers ssh below.1 below.2 diffsum rest
        else Ok (save_statediff ssh (mkDiff (Some (shortstatehash p)) new gone))
  end.

Definition save_state_from_diff (ssh : Z) (new gone : CompressedState) (diff_to_sibling : Z)
    (parent_states : list ShortStateInfo) : Res (bytes * bytes) :=
  save_layers ssh new gone diff_to_sibling (reverse parent_states).

(** ** Loading *)

Definition cache_shortstatehash_info (ssh : Z) (stack : list ShortStateInfo) (cache : C) : C :=
  lru_insert cache ssh stack.

(** [load_shortstatehash_info] with [new_shortstatehash_info] inlined. *)
Fixpoint load_shortstatehash_info (fuel : nat) (db : S) (ssh : Z) (cache : C)
  : Res (list ShortStateInfo) * C :=
  match fuel with
  | O => (Panic, cache)
  | Datatypes.S fuel =>
      match lru_get_mut cache ssh with
      | (Some stack, cache) => (Ok stack, cache)
      | (None, cache) =>
          match get_statediff db ssh with
          | Ok (mkDiff None a r) =>
              let stack := [mkInfo ssh a a r] in
              (Ok stack, cache_shortstatehash_info ssh stack cache)
          | Ok (mkDiff (Some p) a r) =>
              match load_shortstatehash_info fuel db p cache with
              | (Ok stack, cache) =>
                  match last stack with
                  | Some top =>
                      let stack := stack ++ [mkInfo ssh ((full_state top ∪ a) ∖ r) a r] in
                      (Ok stack, cache_shortstatehash_info ssh stack cache)
                  | None => (Panic, cache)
                  end
              | (Err e, cache) => (Err e, cache)
              | (Panic, cache) => (Panic, cache)
              end
          | Err e => (Err e, cache)
          | Panic => (Panic, cache)
          end
      end
  end.

(** [compressed_state_size] *)
Definition compressed_state_size (s : CompressedState) : Res Z := expected usize_max (set_len s * 16).

(** ** The stored form reads back *)

(** An entry of a state; short state keys count from one. *)
Definition entry_ok (e : bytes) : Prop := length e = 16%nat ∧ take 8 e ≠ be_bytes 8 0.
Definition state_ok (s : CompressedState) : Prop := ∀ e, e ∈ s → entry_ok e.

Definition diff_ok (d : StateDiff) : Prop :=
  match parent d with Some p => u64 p ∧ p ≠ 0 | None => True end
  ∧ state_ok (added d) ∧ state_ok (removed d) ∧ zlen (encode_statediff d) ≤ isize_max.

Lemma get_range_app pre v rest : get_range (pre ++ v ++ rest) (zlen pre) (zlen pre + zlen v) = Some v.
Proof.
  unfold get_range. rewrite !zlen_app. pose proof (zlen_nonneg rest). pose proof (zlen_nonneg v).
  rewrite !(proj2 (Z.leb_le _ _)) by lia. cbn. f_equal. unfold zlen.
  replace (Z.to_nat (Z.of_nat (length pre) + Z.of_nat (length v) - Z.of_nat (length pre))) with (length v) by lia.
  by rewrite Nat2Z.id, drop_app_length, take_app_length.
Qed.

Lemma get_range_end l : get_range l (zlen l) (zlen l + 16) = None.
Proof. unfold get_range. by rewrite (proj2 (Z.leb_gt (zlen l + 16) (zlen l))), andb_false_r by lia. Qed.

Lemma starts_with_app p rest : starts_with (p ++ rest) p = true.
Proof. unfold starts_with. rewrite take_app_length. by apply bool_decide_eq_true. Qed.

Lemma entry_no_separator e : entry_ok e → starts_with e (be_bytes 8 0) = false.
Proof. intros [_ He]. unfold starts_with. by apply bool_decide_eq_false. Qed.

Lemma isize_room : isize_max + 16 ≤ usize_max.
Proof. usize_lia. Qed.

Lemma run_cons (e : bytes) l : mjoin (e :: l) = e ++ mjoin l.
Proof. reflexivity. Qed.

(** A run of entries is read in either mode. *)
Lemma read_run fuel pre l rest (mode : bool) a r :
  Forall entry_ok l → zlen (pre ++ mjoin l ++ rest) ≤ isize_max →
  read_entries (length l + fuel) (pre ++ mjoin l ++ rest) mode (zlen pre) a r =
    read_entries fuel (pre ++ mjoin l ++ rest) mode (zlen (pre ++ mjoin l))
      (if mode then list_to_set l ∪ a else a) (if mode then r else list_to_set l ∪ r).
Proof.
  intros Hl Hfit. revert pre a r Hfit. induction Hl as [|e l He Hl IH]; intros pre a r Hfit.
  { cbn [mjoin list_join app length Nat.add list_to_set]. rewrite app_nil_r. by destruct mode; rewrite union_empty_l_L. }
  rewrite run_cons in *. cbn [length Nat.add]. pose proof isize_room. pose proof He as [Hlen _].
  assert (zlen e = 16) as Hz by (unfold zlen; lia).
  assert (Hpre : zlen pre + 16 ≤ isize_max).
  { rewrite !zlen_app in Hfit. pose proof (zlen_nonneg (mjoin l)). pose proof (zlen_nonneg rest). lia. }
  cbn [read_entries]. unfold STRIDE in *. change (2 * 8) with 16.
  rewrite !(expected_fits usize_max (zlen pre + 16)), bind_Ok by lia. rewrite <-!(assoc_L (++)) in *.
  pose proof (get_range_app pre e (mjoin l ++ rest)) as Hget. rewrite Hz in Hget.
  rewrite Hget, entry_no_separator, andb_false_r by done.
  assert (try_into_entry e = Ok e) as -> by (unfold try_into_entry; by rewrite Hz). rewrite !bind_Ok.
  specialize (IH (pre ++ e)). rewrite <-!(assoc_L (++)) in IH. rewrite (zlen_app pre e), Hz in IH.
  destruct mode; rewrite IH by done; f_equal; set_solver.
Qed.

Lemma set_entries s : state_ok s → Forall entry_ok (set_iter s).
Proof. intros Hs. apply Forall_forall. intros e He%elem_of_set_iter. by apply Hs. Qed.

Lemma length_run l : Forall entry_ok l → length (mjoin l) = (16 * length l)%nat.
Proof. induction 1 as [|e l [He _] Hl IH]; [done|]. rewrite run_cons, length_app, He, IH. cbn [length]. lia. Qed.

Definition removed_part (r : CompressedState) : bytes :=
  if decide (r = ∅) then [] else be_bytes 8 0 ++ mjoin (set_iter r).

Lemma read_end fuel value mode a r :
  zlen value ≤ isize_max → read_entries (Datatypes.S fuel) value mode (zlen value) a r = Ok (a, r).
Proof.
  intros Hfit. pose proof isize_room. cbn [read_entries]. unfold STRIDE. change (2 * 8) with 16.
  by rewrite (expected_fits usize_max (zlen value + 16)), bind_Ok, get_range_end by lia.
Qed.

(** The separator switches the mode. *)
Lemma read_separator fuel pre x y a r :
  length x = 8%nat → zlen (pre ++ be_bytes 8 0 ++ x ++ y) ≤ isize_max →
  read_entries (Datatypes.S fuel) (pre ++ be_bytes 8 0 ++ x ++ y) true (zlen pre) a r =
    read_entries fuel (pre ++ be_bytes 8 0 ++ x ++ y) false (zlen (pre ++ be_bytes 8 0)) a r.
Proof.
  intros Hx Hfit. pose proof isize_room. cbn [read_entries]. unfold STRIDE. change (2 * 8) with 16.
  rewrite !zlen_app, zlen_be_bytes in Hfit. pose proof (zlen_nonneg x). pose proof (zlen_nonneg y).
  rewrite (expected_fits usize_max (zlen pre + 16)), bind_Ok by (unfold zlen in *; lia).
  pose proof (get_range_app pre (be_bytes 8 0 ++ x) y) as Hget.
  rewrite zlen_app, zlen_be_bytes, <-(assoc_L (++)) in Hget.
  replace (Z.of_nat 8 + zlen x) with 16 in Hget by (unfold zlen; lia).
  rewrite Hget, starts_with_app. cbn [andb]. rewrite expected_fits, bind_Ok by (unfold zlen in *; lia).
  by rewrite zlen_app, zlen_be_bytes.
Qed.

Lemma read_removed fuel pre a r :
  state_ok r → zlen (pre ++ removed_part r) ≤ isize_max →
  read_entries (Datatypes.S (length (set_iter r) + Datatypes.S fuel)) (pre ++ removed_part r) true (zlen pre) a ∅
    = Ok (a, r).
Proof.
  intros Hr Hfit. unfold removed_part in *. case_decide as Hre.
  { rewrite app_nil_r in *. rewrite read_end by done. by rewrite Hre. }
  assert (Hrun : length (mjoin (set_iter r)) = (16 * length (set_iter r))%nat) by by apply length_run, set_entries.
  assert (length (set_iter r) ≠ 0%nat).
  { intros Hz. apply Hre. by apply set_iter_empty, nil_length_inv. }
  pose proof (read_separator (length (set_iter r) + Datatypes.S fuel) pre (take 8 (mjoin (set_iter r)))
    (drop 8 (mjoin (set_iter r))) a ∅) as Hsep. rewrite take_drop in Hsep.
  rewrite Hsep by (done || rewrite length_take; lia). pose proof (read_run (Datatypes.S fuel) (pre ++ be_bytes 8 0) (set_iter r) [] false a ∅) as H'.
  rewrite app_nil_r, <-!(assoc_L (++)) in H'. rewrite H' by (done || by apply set_entries).
  rewrite union_empty_r_L, list_to_set_iter. by apply read_end.
Qed.

Lemma encode_aligned d : state_ok (added d) → state_ok (removed d) → zlen (encode_statediff d) mod STRIDE = 0.
Proof.
  intros Ha Hr. unfold encode_statediff, STRIDE, zlen. apply Z.mod_divide; [done|].
  rewrite !length_app, length_be_bytes, (length_run (set_iter (added d))) by by apply set_entries.
  case_decide; [|rewrite length_app, length_be_bytes, length_run by by apply set_entries].
  - exists (1 + 2 * Z.of_nat (length (set_iter (added d)))). cbn [length]. lia.
  - exists (2 + 2 * Z.of_nat (length (set_iter (added d))) + 2 * Z.of_nat (length (set_iter (removed d)))). lia.
Qed.

Lemma encode_fuel d :
  state_ok (added d) → state_ok (removed d) →
  ∃ f, Datatypes.S (length (encode_statediff d)) =
    (length (set_iter (added d)) + Datatypes.S (length (set_iter (removed d)) + Datatypes.S f))%nat.
Proof.
  intros Ha Hr. unfold encode_statediff.
  rewrite !length_app, length_be_bytes, (length_run (set_iter (added d))) by by apply set_entries.
  case_decide as Hre.
  - exists (8 + 15 * length (set_iter (added d)) - 1)%nat. rewrite (proj2 (set_iter_empty _) Hre). cbn [length]. lia.
  - rewrite length_app, length_be_bytes, length_run by by apply set_entries.
    exists (16 + 15 * length (set_iter (added d)) + 15 * length (set_iter (removed d)) - 1)%nat. lia.
Qed.

Lemma decode_encode_spec d : diff_ok d → decode_statediff (encode_statediff d) = Ok d.
Proof.
  intros (Hp & Ha & Hr & Hfit). unfold decode_statediff.
  rewrite debug_assert_true by by apply Z.eqb_eq, encode_aligned.
  destruct (encode_fuel d Ha Hr) as [f ->]. destruct d as [p a r]. cbn [parent added removed] in *.
  unfold encode_statediff in *. cbn [parent added removed] in *. fold (removed_part r) in *.
  assert (Hu : u64 (default 0 p)) by (destruct p; [naive_solver|done]).
  pose proof (slice_app (E := Error) [] (be_bytes 8 (default 0 p)) (mjoin (set_iter a) ++ removed_part r) 0 8 eq_refl)
    as Hhead. rewrite zlen_be_bytes in Hhead. cbn [app] in Hhead. rewrite Hhead by done.
  rewrite !bind_Ok, u64_from_bytes_be by done. unfold STRIDE at 1.
  pose proof (read_run (Datatypes.S (length (set_iter r) + Datatypes.S f)) (be_bytes 8 (default 0 p)) (set_iter a)
    (removed_part r) true ∅ ∅) as Hrun. rewrite zlen_be_bytes in Hrun. change (Z.of_nat 8) with 8 in Hrun.
  rewrite Hrun by (done || by apply set_entries).
  rewrite union_empty_r_L, (list_to_set_iter a), (assoc_L (++)), read_removed, bind_Ok
    by (done || by rewrite <-(assoc_L (++))).
  cbn [fst snd]. do 2 f_equal. destruct p as [p|]; cbn [default from_option]; [|done].
  destruct Hp as [_ Hp]. unfold id. by rewrite (proj2 (Z.eqb_neq p 0)).
Qed.

(** ** Layers *)

(** The difference that takes one state to another. *)
Definition exact (from to a r : CompressedState) : Prop := a = to ∖ from ∧ r = from ∖ to.

Lemma fold_removed_spec l p r :
  NoDup l →
  foldl fold_removed (p, r) l = (p ∖ list_to_set l, r ∪ (list_to_set l ∖ p)).
Proof.
  intros Hnd. revert p r. induction Hnd as [|e l He Hnd IH]; intros p r; cbn [foldl list_to_set].
  { f_equal; set_solver. }
  unfold fold_removed at 2. cbn [fst snd]. case_decide as Hin; rewrite IH; f_equal; apply set_eq; intros x;
    destruct (decide (x = e)) as [->|]; set_solver.
Qed.

Lemma fold_new_spec l p r :
  NoDup l → foldl fold_new (p, r) l = (p ∪ (list_to_set l ∖ r), r ∖ list_to_set l).
Proof.
  intros Hnd. revert p r. induction Hnd as [|e l He Hnd IH]; intros p r; cbn [foldl list_to_set].
  { f_equal; set_solver. }
  unfold fold_new at 2. cbn [fst snd]. case_decide as Hin; rewrite IH; f_equal; apply set_eq; intros x;
    destruct (decide (x = e)) as [->|]; set_solver.
Qed.

Lemma sink_spec p new gone :
  sink p new gone =
    let below := info_removed p ∪ (gone ∖ info_added p) in
    ((info_added p ∖ gone) ∪ (new ∖ below), below ∖ new).
Proof.
  unfold sink. rewrite fold_removed_spec, fold_new_spec by apply set_iter_nodup. by rewrite !list_to_set_iter.
Qed.

(** Sinking keeps the target state: exact differences compose. *)
Lemma sink_exact (g f n : CompressedState) p new gone :
  exact g f (info_added p) (info_removed p) → exact f n new gone →
  exact g n (sink p new gone).1 (sink p new gone).2.
Proof.
  intros [Ha Hr] [-> ->]. rewrite sink_spec. cbn zeta. cbn [fst snd]. rewrite Ha, Hr. split; apply set_eq; intros x;
    destruct (decide (x ∈ g)), (decide (x ∈ f)), (decide (x ∈ n)); set_solver.
Qed.

(** The stack of layers of a state, oldest first: each holds the exact
    difference to the one before, and its row in the store says so. *)
Inductive layers (db : S) : Z → list ShortStateInfo → CompressedState → Prop :=
| layer_base ssh n :
    get_statediff db ssh = Ok (mkDiff None n ∅) → layers db ssh [mkInfo ssh n n ∅] n
| layer_step ssh p stack f n a r :
    layers db p stack f → get_statediff db ssh = Ok (mkDiff (Some p) a r) → exact f n a r →
    layers db ssh (stack ++ [mkInfo ssh n a r]) n.

Lemma layers_last db ssh stack n :
  layers db ssh stack n → ∃ a r, last stack = Some (mkInfo ssh n a r).
Proof. destruct 1; cbn; [eauto|]. rewrite last_snoc. eauto. Qed.

Lemma exact_apply (f n a r : CompressedState) : exact f n a r → (f ∪ a) ∖ r = n.
Proof. intros [-> ->]. apply set_eq. intros x. destruct (decide (x ∈ f)), (decide (x ∈ n)); set_solver. Qed.

(** The layers are determined by the store. *)
Lemma layers_unique db ssh stack n stack' n' :
  layers db ssh stack n → layers db ssh stack' n' → stack = stack' ∧ n = n'.
Proof.
  intros Hl. revert stack' n'. induction Hl as [ssh n Hg|ssh p stack f n a r Hl IH Hg Hx]; intros stack' n' Hl'.
  - inversion Hl' as [ssh' m Hg' |ssh' p' st' f' m a' r' Hl2 Hg' Hx']; subst; rewrite Hg in Hg'; by simplify_eq.
  - inversion Hl' as [ssh' m Hg' |ssh' p' st' f' m a' r' Hl2 Hg' Hx']; subst; rewrite Hg in Hg'; [by simplify_eq|].
    injection Hg' as <- <- <-. destruct (IH _ _ Hl2) as [<- <-].
    apply exact_apply in Hx. apply exact_apply in Hx'. by rewrite <-Hx, <-Hx'.
Qed.

(** A cache whose every entry is what the store says. *)
Definition coherent (db : S) (cache : C) : Prop :=
  ∀ ssh stack, lru_peek cache ssh = Some stack → ∃ n, layers db ssh stack n.

Lemma load_spec db ssh stack n fuel cache :
  layers db ssh stack n → coherent db cache → (length stack ≤ fuel)%nat →
  ∃ cache', load_shortstatehash_info fuel db ssh cache = (Ok stack, cache') ∧ coherent db cache'.
Proof.
  intros Hl. revert fuel cache. induction Hl as [ssh n Hg|ssh p stack f n a r Hl IH Hg Hx];
    intros [|fuel] cache Hco Hf; try (rewrite ?length_app in Hf; cbn in Hf; lia).
  all: cbn [load_shortstatehash_info]; pose proof (lru_get_peek cache ssh) as Hpeek;
    pose proof (lru_get_keeps cache ssh) as Hkeep; destruct (lru_get_mut cache ssh) as [[cached|] cache1];
    cbn [fst snd] in *.
  1,3: exists cache1; split; [|intros k st; rewrite Hkeep; apply Hco]; destruct (Hco ssh cached) as [m Hm]; [done|];
    do 2 f_equal; eapply layers_unique; [exact Hm|econstructor; eauto].
  - rewrite Hg. eexists. split; [done|]. intros k st [[-> ->]|[_ Hk]]%lru_insert_peek.
    + exists n. by constructor.
    + rewrite Hkeep in Hk. by apply Hco.
  - rewrite Hg. rewrite length_app in Hf. cbn [length] in Hf.
    destruct (IH fuel cache1) as (cache2 & -> & Hco2); [intros k st; rewrite Hkeep; apply Hco|lia|].
    destruct (layers_last db p stack f Hl) as (a' & r' & ->). cbn [full_state]. rewrite (exact_apply f n a r Hx).
    eexists. split; [done|]. intros k st [[-> ->]|[_ Hk]]%lru_insert_peek; [|by apply Hco2].
    exists n. by econstructor.
Qed.

(** ** Saving *)

(** Sizes for which no product of [save_state_from_diff] overflows: states of
    at most [b] entries and sibling sizes of at most [m]. *)
Definition sizes_fit (b m : Z) : Prop := 1 ≤ b ∧ 2 * b ≤ m ∧ 4 * m * b ≤ usize_max.

Lemma sizes_products b m x y d :
  sizes_fit b m → 0 ≤ x ≤ 2 * b → 0 ≤ y ≤ 2 * b → 0 ≤ d ≤ m →
  x ≤ usize_max ∧ y ≤ usize_max ∧ x * x ≤ usize_max ∧ 2 * d ≤ usize_max ∧ 2 * d * y ≤ usize_max.
Proof.
  intros (Hb & Hbm & Hfit) Hx Hy Hd. assert (2 * b * (2 * b) ≤ m * (2 * b)) by nia.
  assert (x * x ≤ 2 * b * (2 * b)) by (apply Z.mul_le_mono_nonneg; lia).
  assert (2 * d * y ≤ 2 * m * (2 * b)) by (apply Z.mul_le_mono_nonneg; lia).
  assert (2 * m ≤ 4 * m * b) by nia. assert (0 ≤ m * b) by nia. split_and!; lia.
Qed.

Lemma test_fits {A} x y d (t e : Res A) :
  y ≤ usize_max → x * x ≤ usize_max → 2 * d ≤ usize_max → 2 * d * y ≤ usize_max →
  (parent_diff ← checked usize_max y; square ← checked usize_max (x * x);
   twice ← checked usize_max (2 * d); limit ← checked usize_max (twice * parent_diff);
   if limit <=? square then t else e) = if 2 * d * y <=? x * x then t else e.
Proof. intros H1 H2 H3 H4. unfold checked. rewrite !(proj2 (Z.leb_le _ _)) by done. cbn. by rewrite (proj2 (Z.leb_le _ _)). Qed.

Definition stack_small (b : Z) (stack : list ShortStateInfo) : Prop :=
  Forall (λ i, set_len (full_state i) ≤ b) stack.

Lemma exact_sizes (b : Z) (f n a r : CompressedState) :
  exact f n a r → set_len f ≤ b → set_len n ≤ b → 0 ≤ set_len a ≤ b ∧ 0 ≤ set_len r ≤ b.
Proof.
  unfold set_len. intros [-> ->] Hf Hn.
  pose proof (subseteq_size (n ∖ f) n ltac:(set_solver)). pose proof (subseteq_size (f ∖ n) f ltac:(set_solver)). lia.
Qed.

(** The difference [save_state_from_diff] decides on: the full state, or one
    over at most three layers of [stack]. *)
Definition layered_over (db : S) (stack : list ShortStateInfo) (n : CompressedState) (d : StateDiff) : Prop :=
  d = mkDiff None n ∅ ∨
  ∃ p below f a r, layers db p below f ∧ below `prefix_of` stack ∧ (length below ≤ 3)%nat
    ∧ exact f n a r ∧ d = mkDiff (Some p) a r.

Lemma layered_over_app db stack stack' n d : layered_over db stack n d → layered_over db (stack ++ stack') n d.
Proof.
  intros [->|(p & below & f & a & r & Hl & Hp & Hrest)]; [by left|right]. exists p, below, f, a, r.
  split; [done|]. split; [by apply prefix_app_r|done].
Qed.

Lemma exact_empty n a r : exact ∅ n a r → a = n ∧ r = ∅.
Proof. intros [-> ->]. split; set_solver. Qed.

Lemma save_layers_cons ssh new gone dts p rest :
  save_layers ssh new gone dts (p :: rest) =
    diffsum ← checked usize_max (set_len new + set_len gone);
    let below := sink p new gone in
    if (3 <? zlen (p :: rest)) then save_layers ssh below.1 below.2 diffsum rest
    else
      parent_diff ← checked usize_max (set_len (info_added p) + set_len (info_removed p));
      square ← checked usize_max (diffsum * diffsum);
      twice ← checked usize_max (2 * dts);
      limit ← checked usize_max (twice * parent_diff);
      if limit <=? square then save_layers ssh below.1 below.2 diffsum rest
      else Ok (save_statediff ssh (mkDiff (Some (shortstatehash p)) new gone)).
Proof. reflexivity. Qed.

Lemma save_base db ssh n new gone dts b m :
  exact ∅ n new gone → sizes_fit b m → set_len n ≤ b →
  ∃ d, save_layers ssh new gone dts [] = Ok (save_statediff ssh d) ∧ layered_over db [] n d.
Proof.
  intros Hx Hs Hn. destruct (exact_sizes b ∅ n new gone Hx) as [H1 H2]; [change (set_len ∅) with 0; destruct Hs; lia|done|].
  cbn [save_layers]. destruct (sizes_products b m (set_len new + set_len gone) 0 0 Hs) as (? & _); [destruct Hs; lia..|].
  rewrite checked_fits, bind_Ok by done.
  destruct (exact_empty n new gone Hx) as [-> ->]. exists (mkDiff None n ∅). split; [done|by left].
Qed.

Lemma save_layers_spec db ssh p stack f n new gone dts b m :
  layers db p stack f → exact f n new gone → sizes_fit b m → stack_small b stack → set_len n ≤ b → 0 ≤ dts ≤ m →
  ∃ d, save_layers ssh new gone dts (reverse stack) = Ok (save_statediff ssh d) ∧ layered_over db stack n d.
Proof.
  intros Hl. revert n new gone dts. induction Hl as [p f Hg|p q stack g f a r Hl IH Hg Hxf];
    intros n new gone dts Hx Hs Hsm Hn Hd.
  - rewrite reverse_singleton. apply Forall_cons_1 in Hsm as [Hsm _]. cbn [full_state] in Hsm. pose proof Hs as (Hb & Hbm & Hfit).
    destruct (exact_sizes b f n new gone Hx) as [H1 H2]; [done..|].
    assert (Hbelow : exact ∅ n (sink (mkInfo p f f ∅) new gone).1 (sink (mkInfo p f f ∅) new gone).2).
    { apply (sink_exact ∅ f n); [|done]. cbn. split; set_solver. }
    assert (0 ≤ set_len f) by (unfold set_len; lia).
    destruct (sizes_products b m (set_len new + set_len gone) (set_len f + set_len ∅) dts Hs) as (? & ? & ? & ? & ?);
      [change (set_len ∅) with 0; lia..|].
    rewrite save_layers_cons, (checked_fits usize_max (set_len new + set_len gone)), bind_Ok by done. cbn zeta. change (3 <? zlen [_]) with false. cbn [info_added info_removed].
    rewrite test_fits by done. case_match.
    + destruct (save_base db ssh n _ _ (set_len new + set_len gone) b m Hbelow Hs Hn) as (d & Hd' & Hover).
      exists d. split; [done|]. by apply (layered_over_app db []).
    + eexists. split; [done|]. right. exists p, [mkInfo p f f ∅], f, new, gone. split_and!; [by constructor|done|cbn; lia|done|done].
  - rewrite reverse_snoc. apply Forall_app in Hsm as [Hsm Hf].
    apply Forall_cons_1 in Hf as [Hf _]. cbn [full_state] in Hf.
    pose proof Hs as (Hb & Hbm & Hfit). destruct (exact_sizes b f n new gone Hx) as [H1 H2]; [done..|].
    assert (Hg' : set_len g ≤ b).
    { destruct (layers_last db q stack g Hl) as (a' & r' & Hlast). apply last_Some_elem_of in Hlast.
      unfold stack_small in Hsm. rewrite Forall_forall in Hsm. by apply Hsm in Hlast. }
    destruct (exact_sizes b g f a r Hxf) as [H3 H4]; [done..|].
    pose proof (sink_exact g f n (mkInfo p f a r) new gone Hxf Hx) as Hbelow.
    destruct (sizes_products b m (set_len new + set_len gone) (set_len a + set_len r) dts Hs) as (? & ? & ? & ? & ?); [lia..|].
    rewrite save_layers_cons, (checked_fits usize_max (set_len new + set_len gone)), bind_Ok by done. cbn zeta. cbn [info_added info_removed shortstatehash].
    case_match.
    { edestruct IH as (d & Hd' & Hover); [exact Hbelow|done..| |exists d; split; [exact Hd'|by apply layered_over_app]]. lia. }
    rewrite test_fits by done. case_match.
    { edestruct IH as (d & Hd' & Hover); [exact Hbelow|done..| |exists d; split; [exact Hd'|by apply layered_over_app]]. lia. }
    eexists. split; [done|]. right. exists p, (stack ++ [mkInfo p f a r]), f, new, gone.
    split_and!; [by econstructor|done| |done|done].
    match goal with H : (3 <? _) = false |- _ => apply Z.ltb_ge in H; unfold zlen in H; cbn [length] in H;
      rewrite length_reverse in H end. rewrite length_app. cbn [length]. lia.
Qed.

(** A new row leaves the layers of the others alone. *)
Lemma layers_put db ssh value k stack f :
  kv_get db (be_bytes 8 ssh) = None → layers db k stack f → layers (kv_put db (be_bytes 8 ssh) value) k stack f.
Proof.
  intros Hfresh. assert (Hget : ∀ k d, get_statediff db k = Ok d → get_statediff (kv_put db (be_bytes 8 ssh) value) k = Ok d).
  { intros k' d Hk. unfold get_statediff in *. rewrite kv_get_put_ne; [done|]. intros Heq. by rewrite <-Heq, Hfresh in Hk. }
  induction 1 as [k f Hg|k q stack g f a r Hl IH Hg Hx]; [constructor|econstructor]; eauto.
Qed.

Lemma stored_layers db ssh stack n d :
  kv_get db (be_bytes 8 ssh) = None → layered_over db stack n d → diff_ok d →
  let row := save_statediff ssh d in
  ∃ below a r, layers (kv_put db row.1 row.2) ssh (below ++ [mkInfo ssh n a r]) n
    ∧ below `prefix_of` stack ∧ (length below ≤ 3)%nat.
Proof.
  intros Hfresh Hd Hok row. assert (Hget : get_statediff (kv_put db row.1 row.2) ssh = Ok d).
  { unfold get_statediff, row. cbn [fst snd save_statediff]. rewrite kv_get_put_eq. by apply decode_encode_spec. }
  destruct Hd as [->|(p & below & f & a & r & Hl & Hp & Hlen & Hx & ->)].
  - exists [], n, ∅. split_and!; [by constructor|apply prefix_nil|cbn; lia].
  - exists below, a, r. split_and!; [|done|done]. econstructor; [|exact Hget|exact Hx]. by apply layers_put.
Qed.

Lemma encode_len d :
  state_ok (added d) → state_ok (removed d) →
  zlen (encode_statediff d) ≤ 16 + 16 * (set_len (added d) + set_len (removed d)).
Proof.
  intros Ha Hr. unfold encode_statediff, zlen, set_len.
  rewrite !length_app, length_be_bytes, (length_run (set_iter (added d))), length_set_iter by by apply set_entries.
  case_decide; [|rewrite length_app, length_be_bytes, length_run, length_set_iter by by apply set_entries]; cbn [length]; lia.
Qed.

Lemma sizes_encode b m : sizes_fit b m → 16 + 32 * b ≤ isize_max.
Proof.
  intros (Hb & Hbm & Hfit). destruct usize_max_cases as [[Hu Hi]|[Hu Hi]]; rewrite Hi; rewrite Hu in Hfit;
    unfold u32_max, u64_max in Hfit; nia.
Qed.

(** Every layer of a stack belongs to a live number and a well-formed state. *)
Definition stack_ok (stack : list ShortStateInfo) : Prop :=
  Forall (λ i, u64 (shortstatehash i) ∧ shortstatehash i ≠ 0 ∧ state_ok (full_state i)) stack.

Lemma layered_ok db stack n d b m :
  layered_over db stack n d → sizes_fit b m → stack_small b stack → stack_ok stack → state_ok n → set_len n ≤ b → diff_ok d.
Proof.
  intros Hd Hs Hsm Hok Hn Hlen. pose proof (sizes_encode b m Hs) as Henc. pose proof Hs as (Hb & _).
  destruct Hd as [->|(p & below & f & a & r & Hl & Hp & _ & Hx & ->)]; unfold diff_ok; cbn [parent added removed].
  - split_and!; [done|done|set_solver|]. etrans; [apply encode_len; [done|set_solver]|]. cbn [added removed].
    change (set_len ∅) with 0. lia.
  - destruct (layers_last db p below f Hl) as (a' & r' & Hlast). apply last_Some_elem_of in Hlast.
    assert (Hin : mkInfo p f a' r' ∈ stack).
    { destruct Hp as [rest ->]. apply elem_of_app. by left. }
    unfold stack_ok, stack_small in *. rewrite Forall_forall in Hok, Hsm.
    destruct (Hok _ Hin) as (Hu & H0 & Hf). specialize (Hsm _ Hin). cbn [shortstatehash full_state] in *.
    destruct (exact_sizes b f n a r Hx) as [H1 H2]; [done..|]. destruct Hx as [-> ->].
    assert (state_ok (n ∖ f)) by (intros e He; apply Hn; set_solver).
    assert (state_ok (f ∖ n)) by (intros e He; apply Hf; set_solver).
    split_and!; [done..|]. etrans; [by apply encode_len|]. cbn [added removed]. lia.
Qed.

(** The stack [save_state] starts from: none, or that of the room's state. *)
Definition based (db : S) (stack : list ShortStateInfo) (f : CompressedState) : Prop :=
  (stack = [] ∧ f = ∅) ∨ ∃ p, layers db p stack f.

Lemma save_spec db stack f n ssh dts b m :
  based db stack f → kv_get db (be_bytes 8 ssh) = None → u64 ssh → ssh ≠ 0 → state_ok n → stack_ok stack →
  sizes_fit b m → stack_small b stack → set_len n ≤ b → 0 ≤ dts ≤ m →
  ∃ key value stack',
    save_state_from_diff ssh (n ∖ f) (f ∖ n) dts stack = Ok (key, value) ∧ key = be_bytes 8 ssh ∧
    let db' := kv_put db key value in
    layers db' ssh stack' n ∧ (length stack' ≤ 4)%nat ∧ stack_ok stack' ∧ stack_small b stack'
    ∧ (∀ k st g, layers db k st g → layers db' k st g).
Proof.
  intros Hbase Hfresh Hu H0 Hn Hok Hs Hsm Hlen Hd.
  assert (Hsave : ∃ d, save_state_from_diff ssh (n ∖ f) (f ∖ n) dts stack = Ok (save_statediff ssh d)
    ∧ layered_over db stack n d).
  { destruct Hbase as [[-> ->]|[p Hl]]; [by apply (save_base db ssh n _ _ dts b m)|].
    by apply (save_layers_spec db ssh p stack f n _ _ dts b m). }
  destruct Hsave as (d & Hsave & Hover). pose proof (layered_ok db stack n d b m Hover Hs Hsm Hok Hn Hlen) as Hdok.
  destruct (stored_layers db ssh stack n d Hfresh Hover Hdok) as (below & a & r & Hl & [rest ->] & H3).
  exists (be_bytes 8 ssh), (encode_statediff d), (below ++ [mkInfo ssh n a r]).
  split; [done|]. split; [done|]. cbn zeta. unfold stack_ok, stack_small in *.
  apply Forall_app in Hok as [Hok _]. apply Forall_app in Hsm as [Hsm _].
  split_and!; [done|rewrite length_app; cbn [length]; lia|apply Forall_app; split; [done|by rewrite Forall_singleton]..|].
  intros k st g. by apply layers_put.
Qed.

Lemma coherent_put db db' cache :
  (∀ k st g, layers db k st g → layers db' k st g) → coherent db cache → coherent db' cache.
Proof. intros Hput Hco k st Hk. destruct (Hco k st Hk) as [g Hg]. exists g. by apply Hput. Qed.

(** C26: a new state [n] saved as its difference to the state [f] of [stack] is
    what loading its number gives back, through whatever the cache holds and in
    at most four layers; every other stored state is untouched, no arithmetic
    of the layering overflows, and the resulting stack is again one the next
    state can be saved on. *)
Theorem saved_state_loads db stack f n ssh dts b m cache fuel :
  based db stack f → kv_get db (be_bytes 8 ssh) = None → coherent db cache →
  u64 ssh → ssh ≠ 0 → state_ok n → stack_ok stack →
  sizes_fit b m → stack_small b stack → set_len n ≤ b → 0 ≤ dts ≤ m → (4 ≤ fuel)%nat →
  ∃ key value stack' cache',
    save_state_from_diff ssh (n ∖ f) (f ∖ n) dts stack = Ok (key, value) ∧
    let db' := kv_put db key value in
    load_shortstatehash_info fuel db' ssh cache = (Ok stack', cache')
    ∧ full_state <$> last stack' = Some n ∧ (length stack' ≤ 4)%nat
    ∧ (∀ k st g, layers db k st g → layers db' k st g)
    ∧ coherent db' cache' ∧ based db' stack' n ∧ stack_ok stack' ∧ stack_small b stack'.
Proof.
  intros Hbase Hfresh Hco Hu H0 Hn Hok Hs Hsm Hlen Hd Hf.
  destruct (save_spec db stack f n ssh dts b m) as (key & value & stack' & Hsave & _ & Hl & H4 & Hok' & Hsm' & Hput); [done..|].
  destruct (load_spec _ ssh stack' n fuel cache Hl) as (cache' & Hload & Hco2); [by apply (coherent_put db)|lia|].
  exists key, value, stack', cache'. split; [done|]. cbn zeta.
  destruct (layers_last _ _ _ _ Hl) as (a & r & Hlast). rewrite Hlast. split_and!; try done. right. by exists ssh.
Qed.

(** ** Entries *)

Lemma compress_spec k e :
  compress_state_event k e = Ok (be_bytes 8 k ++ be_bytes 8 e).
Proof.
  assert (Hext : ∀ v w, zlen (v ++ w) ≤ 16 → vec16_extend v w = Ok (v ++ w)).
  { intros v w Hl. unfold vec16_extend. by rewrite (proj2 (Z.leb_le _ _)). }
  unfold compress_state_event. rewrite Hext, bind_Ok by (rewrite ?zlen_app, ?zlen_be_bytes; done). cbn [app].
  rewrite Hext, bind_Ok by (rewrite ?zlen_app, ?zlen_be_bytes; done).
  by rewrite zlen_app, !zlen_be_bytes.
Qed.

(** A state entry gives back its two numbers, and an entry of a live state
    key is one the stored form of a difference can hold: reading back a stored
    difference gives the same parent and the same two sets. *)
Theorem statediff_roundtrip k e d :
  u64 k → u64 e → k ≠ 0 → diff_ok d →
  ∃ v, compress_state_event k e = Ok v ∧ parse_compressed_state_event v = Ok (k, e) ∧ entry_ok v
    ∧ decode_statediff (encode_statediff d) = Ok d.
Proof.
  intros Hk He H0 Hd. exists (be_bytes 8 k ++ be_bytes 8 e). split_and!; [apply compress_spec| | |by apply decode_encode_spec].
  - unfold parse_compressed_state_event.
    pose proof (slice_app (E := Error) [] (be_bytes 8 k) (be_bytes 8 e) 0 8 eq_refl) as Hs0.
    rewrite zlen_be_bytes in Hs0. cbn [app] in Hs0. rewrite Hs0 by done. rewrite bind_Ok, u64_from_u8_be, bind_Ok by done.
    pose proof (slice_app (E := Error) (be_bytes 8 k) (be_bytes 8 e) [] 8 16) as Hs. rewrite app_nil_r, !zlen_be_bytes in Hs.
    rewrite zlen_app, !zlen_be_bytes. change (Z.of_nat 8 + Z.of_nat 8) with 16. rewrite Hs by done.
    by rewrite bind_Ok, u64_from_u8_be.
  - split; [by rewrite length_app, !length_be_bytes|]. rewrite take_app_le, take_ge by by rewrite length_be_bytes.
    intros Heq. apply H0. apply (be_bytes_inj 8); [unfold u64, u64_max in Hk; cbn; lia|cbn; lia|done].
Qed.

End StateDiffs.

(** One room state of two entries, stored whole as number 1. *)
Definition sample_entry (k e : Z) : bytes := be_bytes 8 k ++ be_bytes 8 e.
Definition sample_state : CompressedState := {[ sample_entry 1 10; sample_entry 2 11 ]}.
Definition sample_db : gmap bytes bytes := {[ be_bytes 8 1 := encode_statediff (mkDiff None sample_state ∅) ]}.

Lemma sample_entry_ok k e : u64 k → k ≠ 0 → entry_ok (sample_entry k e).
Proof.
  intros Hk H0. split; [reflexivity|]. unfold sample_entry. rewrite take_app_le, take_ge by by rewrite length_be_bytes.
  intros Heq. apply H0. apply (be_bytes_inj 8); [unfold u64, u64_max in Hk; cbn; lia|cbn; lia|done].
Qed.

Lemma sample_state_ok : state_ok sample_state.
Proof.
  intros e. unfold sample_state. rewrite elem_of_union, !elem_of_singleton.
  intros [->| ->]; by apply sample_entry_ok.
Qed.

Lemma sample_layers `{!Usize} : layers true sample_db 1 [mkInfo 1 sample_state sample_state ∅] sample_state.
Proof.
  constructor. unfold get_statediff. cbn [kv_get gmap_kv]. unfold sample_db. rewrite lookup_singleton_eq.
  apply decode_encode_spec. unfold diff_ok. cbn [parent added removed]. split_and!; [done|apply sample_state_ok|set_solver|].
  change (zlen (encode_statediff (mkDiff None sample_state ∅))) with 40. usize_lia.
Qed.

Lemma statediff_roundtrip_witness :
  ∃ v, compress_state_event 1 10 = Ok v ∧ parse_compressed_state_event v = Ok (1, 10) ∧ entry_ok v
    ∧ decode_statediff (H := usize_64) true (encode_statediff (mkDiff (Some 7) ∅ sample_state))
      = Ok (mkDiff (Some 7) ∅ sample_state).
Proof.
  apply (statediff_roundtrip (H := usize_64) true 1 10); [done..|]. unfold diff_ok. cbn [parent added removed].
  split_and!; [done|done|set_solver|apply sample_state_ok|]. by vm_compute.
Defined.

Lemma saved_state_loads_witness :
  ∃ key value stack' cache',
    save_state_from_diff (H := usize_64) 2 ({[ sample_entry 1 12 ]} ∖ sample_state) (sample_state ∖ {[ sample_entry 1 12 ]}) 2
      [mkInfo 1 sample_state sample_state ∅] = Ok (key, value) ∧
    load_shortstatehash_info (H := usize_64) (C := gmap Z _) true 4 (kv_put sample_db key value) 2 ∅ = (Ok stack', cache')
    ∧ full_state <$> last stack' = Some {[ sample_entry 1 12 ]}.
Proof.
  destruct (saved_state_loads (H := usize_64) (C := gmap Z _) true sample_db [mkInfo 1 sample_state sample_state ∅]
    sample_state {[ sample_entry 1 12 ]} 2 2 2 4 ∅ 4) as (key & value & stack' & cache' & Hsave & Hload & Hfull & _).
  - right. exists 1. apply sample_layers.
  - reflexivity.
  - intros k st Hk. cbn in Hk. by rewrite lookup_empty in Hk.
  - done.
  - done.
  - intros e ->%elem_of_singleton. by apply sample_entry_ok.
  - apply Forall_singleton. split_and!; [done|done|apply sample_state_ok].
  - by vm_compute.
  - apply Forall_singleton. by vm_compute.
  - by vm_compute.
  - lia.
  - lia.
  - exists key, value, stack', cache'. split_and!; [exact Hsave|exact Hload|exact Hfull].
Defined.

(** An entry of state key zero, which no short id is, would be read as the
    separator. *)
Lemma zero_key_unreadable :
  decode_statediff (H := usize_64) true (encode_statediff (mkDiff None {[ sample_entry 0 10 ]} ∅)) = Ok (mkDiff None ∅ ∅).
Proof. by vm_compute. Qed.
