(* ===== verification/StateSave.v ===== *)
(** * StateSave: numbering and saving room states

    The state numbers of src/service/rooms/short/mod.rs
    ([get_shortstatehash], [create_shortstatehash]), [sha256::delimited] of
    src/core/utils/hash/sha256.rs and [save_state] of
    src/service/rooms/state_compressor/mod.rs, over the counter of [Globals]
    and the layers of [StateDiffs].  SHA-256 is a parameter.  The allocation of
    one state hash is serialized by its lock, so the operations run one at a
    time; the room's current state number is the state service's and is given. *)

From stdpp Require Import sorting.
From S2P Require Import Prelude CoreError Bytes Store ByteOrder TwoPhaseCounter Globals RecordCodec StateDiffs.

Section StateSave.
Context `{!Usize} {S Ch Ca : Type} `{!KeyValue S, !Watch Ch, !Lru Ca Z (list ShortStateInfo)}.
Context (debug_assertions : bool) (digest : bytes → bytes).

(** [sha256::delimited] *)
Definition calculate_hash (inputs : list bytes) : bytes := digest (joined inputs).

Record World := mkWorld {
  globals : System (W := S * Ch);
  statehash_shortstatehash : S;
  shortstatehash_statediff : S;
  stateinfo_cache : Ca
}.

Definition get_shortstatehash (w : World) (state_hash : bytes) : Res Z :=
  match kv_get (statehash_shortstatehash w) state_hash with
  | Some v => deserialized debug_assertions v
  | None => err_request NotFound "Not found in database"
  end.

(** [Result::ok] *)
Definition ok {E A} (r : Result E A) : option A := match r with Ok a => Some a | _ => None end.

(** The counter draws a number, held until the operation ends. *)
Definition draw (w : World) : Res Z * World :=
  match next_count debug_assertions (globals w) with
  | (Ok _, g) =>
      let w := mkWorld g (statehash_shortstatehash w) (shortstatehash_statediff w) (stateinfo_cache w) in
      match permits g with p :: _ => (Ok (permit_id p), w) | [] => (Panic, w) end
  | (Err e, g) => (Err e, mkWorld g (statehash_shortstatehash w) (shortstatehash_statediff w) (stateinfo_cache w))
  | (Panic, g) => (Panic, mkWorld g (statehash_shortstatehash w) (shortstatehash_statediff w) (stateinfo_cache w))
  end.

Definition drop_permit (w : World) : World :=
  mkWorld (act debug_assertions (Drop 0) (globals w)).2
    (statehash_shortstatehash w) (shortstatehash_statediff w) (stateinfo_cache w).

(** [create_shortstatehash]; [write_statediff] queues the difference's row. *)
Definition create_shortstatehash (state_hash : bytes) (write_statediff : Z → Res (bytes * bytes)) (w : World)
  : Res (Z * bool) * World :=
  match get_shortstatehash w state_hash with
  | Ok ssh => (Ok (ssh, true), w)
  | _ =>
      match draw w with
      | (Ok ssh, w) =>
          match write_statediff ssh with
          | Ok (key, value) =>
              let w := mkWorld (globals w)
                (kv_put (statehash_shortstatehash w) state_hash (be_bytes 8 ssh))
                (kv_put (shortstatehash_statediff w) key value) (stateinfo_cache w) in
              (Ok (ssh, false), drop_permit w)
          | Err e => (Err e, drop_permit w)
          | Panic => (Panic, drop_permit w)
          end
      | (Err e, w) => (Err e, w)
      | (Panic, w) => (Panic, w)
      end
  end.

Definition get_or_create_shortstatehash (state_hash : bytes) (write_statediff : Z → Res (bytes * bytes)) (w : World)
  : Res (Z * bool) * World :=
  match get_shortstatehash w state_hash with
  | Ok ssh => (Ok (ssh, true), w)
  | _ => create_shortstatehash state_hash write_statediff w
  end.

Record HashSetCompressStateEvent := mkHashSet {
  hs_shortstatehash : Z;
  hs_added : CompressedState;
  hs_removed : CompressedState
}.

(** [load_shortstatehash_info(p).await.unwrap_or_default()] of the previous
    state, if there is one. *)
Definition parents (fuel : nat) (previous : option Z) (w : World) : Res (list ShortStateInfo) * World :=
  match previous with
  | Some p =>
      let r := load_shortstatehash_info debug_assertions fuel (shortstatehash_statediff w) p (stateinfo_cache w) in
      let w := mkWorld (globals w) (statehash_shortstatehash w) (shortstatehash_statediff w) r.2 in
      match r.1 with Ok stack => (Ok stack, w) | Err _ => (Ok [], w) | Panic => (Panic, w) end
  | None => (Ok [], w)
  end.

(** [save_state]; [previous] is the room's current state number. *)
Definition save_state (fuel : nat) (previous : option Z) (new : CompressedState) (w : World)
  : Res HashSetCompressStateEvent * World :=
  let state_hash := calculate_hash (set_iter new) in
  let existing := ok (get_shortstatehash w state_hash) in
  match n ← existing; if decide (previous = Some n) then Some n else None with
  | Some n => (Ok (mkHashSet n ∅ ∅), w)
  | None =>
      match parents fuel previous w with
      | (Ok states_parents, w) =>
          let diff := match last states_parents with
                      | Some parent => (new ∖ full_state parent, full_state parent ∖ new)
                      | None => (new, ∅)
                      end in
          match existing with
          | Some n => (Ok (mkHashSet n diff.1 diff.2), w)
          | None =>
              match get_or_create_shortstatehash state_hash
                      (λ ssh, save_state_from_diff ssh diff.1 diff.2 2 states_parents) w with
              | (Ok (n, _), w) => (Ok (mkHashSet n diff.1 diff.2), w)
              | (Err e, w) => (Err e, w)
              | (Panic, w) => (Panic, w)
              end
          end
      | (Err e, w) => (Err e, w)
      | (Panic, w) => (Panic, w)
      end
  end.

(** ** The hash tells states apart *)

Lemma joined_width_inj l k :
  Forall (λ e : bytes, length e = 16%nat) l → Forall (λ e, length e = 16%nat) k → joined l = joined k → l = k.
Proof.
  intros Hl. revert k. induction Hl as [|e l He Hl IH]; intros k Hk Hj.
  - destruct Hk as [|e' k He' Hk]; [done|]. apply (f_equal length) in Hj. cbn in Hj. rewrite length_app, He' in Hj. lia.
  - destruct Hk as [|e' k He' Hk].
    { apply (f_equal length) in Hj. cbn in Hj. rewrite length_app, He in Hj. lia. }
    cbn [joined] in Hj. apply app_inj_1 in Hj as [-> Hj]; [|by rewrite He, He']. f_equal.
    destruct l as [|x l], k as [|y k]; [done|done|done|]. injection Hj as Hj. by apply IH.
Qed.

Lemma state_entries s : state_ok s → Forall (λ e : bytes, length e = 16%nat) (set_iter s).
Proof. intros Hs. eapply Forall_impl; [by apply set_entries|]. by intros e [? _]. Qed.

Lemma hash_inj s t :
  (∀ x y, digest x = digest y → x = y) → state_ok s → state_ok t →
  calculate_hash (set_iter s) = calculate_hash (set_iter t) → s = t.
Proof.
  intros Hd Hs Ht Hh. apply Hd, joined_width_inj in Hh; [|by apply state_entries..].
  by rewrite <-(list_to_set_iter s), <-(list_to_set_iter t), Hh.
Qed.

(** ** Invariant *)

Section Bounded.
Context (b : Z).

(** State [n] is stored under the number [ssh]. *)
Definition saved (w : World) (ssh : Z) (n : CompressedState) : Prop :=
  ∃ stack, layers debug_assertions (shortstatehash_statediff w) ssh stack n
    ∧ stack_ok stack ∧ stack_small b stack ∧ (length stack ≤ 4)%nat.

Record world_ok (init : Z) (w : World) : Prop := {
  wok_globals : globals_ok init (globals w);
  wok_hashes : ∀ h v, kv_get (statehash_shortstatehash w) h = Some v →
    ∃ ssh f, v = be_bytes 8 ssh ∧ u64 ssh ∧ h = calculate_hash (set_iter f) ∧ state_ok f ∧ saved w ssh f;
  wok_rows : ∀ k, u64 k → kv_get (shortstatehash_statediff w) (be_bytes 8 k) ≠ None →
    k ≤ dispatched (counter (globals w));
  wok_cache : coherent debug_assertions (shortstatehash_statediff w) (stateinfo_cache w)
}.

Lemma saved_unique w ssh f n : saved w ssh f → saved w ssh n → f = n.
Proof.
  intros (s1 & H1 & _) (s2 & H2 & _). by destruct (layers_unique _ _ _ _ _ _ _ H1 H2).
Qed.

Lemma get_existing init w n :
  (∀ x y, digest x = digest y → x = y) → world_ok init w → state_ok n →
  match ok (get_shortstatehash w (calculate_hash (set_iter n))) with
  | Some ssh => saved w ssh n
  | None => kv_get (statehash_shortstatehash w) (calculate_hash (set_iter n)) = None
  end.
Proof.
  intros Hd Hw Hn. unfold get_shortstatehash.
  destruct (kv_get _ (calculate_hash (set_iter n))) as [v|] eqn:Hv; [|done].
  destruct (wok_hashes _ _ Hw _ _ Hv) as (ssh & f & -> & Hu & Hh & Hf & Hs).
  rewrite deserialized_be by done. cbn. by apply hash_inj in Hh as ->.
Qed.

(** ** Allocation *)

Lemma draw_spec init w :
  globals_ok init (globals w) → dispatched (counter (globals w)) < u64_max →
  ∃ g, draw w = (Ok (dispatched (counter (globals w)) + 1),
                 mkWorld g (statehash_shortstatehash w) (shortstatehash_statediff w) (stateinfo_cache w))
    ∧ globals_ok init g ∧ dispatched (counter g) = dispatched (counter (globals w)) + 1.
Proof.
  intros Hg Hmax. pose proof (act_globals debug_assertions init Next _ Hg) as Hg'.
  unfold draw, next_count. rewrite (next_step debug_assertions init (globals w) Hg) in * by lia.
  cbn [permits permit_id snd] in *. eexists. split; [done|]. split; [exact Hg'|done].
Qed.

Lemma drop_permit_spec init w :
  globals_ok init (globals w) →
  globals_ok init (globals (drop_permit w))
  ∧ dispatched (counter (globals w)) ≤ dispatched (counter (globals (drop_permit w))).
Proof.
  intros Hg. split; [by apply act_globals|].
  apply (history_dispatched debug_assertions [Drop 0] (globals w)).
Qed.

(** A new number is stored with its difference or not at all. *)
Lemma create_spec init w n stack f m :
  world_ok init w → dispatched (counter (globals w)) < u64_max →
  kv_get (statehash_shortstatehash w) (calculate_hash (set_iter n)) = None →
  based debug_assertions (shortstatehash_statediff w) stack f → stack_ok stack → stack_small b stack →
  sizes_fit b m → state_ok n → set_len n ≤ b →
  ∃ ssh w', get_or_create_shortstatehash (calculate_hash (set_iter n))
      (λ ssh, save_state_from_diff ssh (n ∖ f) (f ∖ n) 2 stack) w = (Ok (ssh, false), w')
    ∧ world_ok init w' ∧ saved w' ssh n ∧ ∀ k g, saved w k g → saved w' k g.
Proof.
  intros Hw Hmax Hnone Hbase Hsok Hssm Hfit Hn Hlen. pose proof Hw as [Hg Hh Hr Hc].
  assert (Hget : get_shortstatehash w (calculate_hash (set_iter n)) = err_request NotFound "Not found in database").
  { unfold get_shortstatehash. by rewrite Hnone. }
  unfold get_or_create_shortstatehash, create_shortstatehash. rewrite Hget. cbn [err_request].
  destruct (draw_spec init w Hg Hmax) as (g & -> & Hg' & Hdisp). set (ssh := dispatched (counter (globals w)) + 1) in *.
  pose proof (ok_range _ _ (gok_counter _ _ Hg)) as Hrange.
  assert (Hu : u64 ssh) by (unfold u64; lia).
  assert (Hfresh : kv_get (shortstatehash_statediff w) (be_bytes 8 ssh) = None).
  { destruct (kv_get _ (be_bytes 8 ssh)) eqn:Hk; [|done]. assert (ssh ≤ dispatched (counter (globals w))); [|lia].
    apply Hr; [done|by rewrite Hk]. }
  destruct (save_spec debug_assertions (shortstatehash_statediff w) stack f n ssh 2 b m)
    as (key & value & stack' & Hsave & Hkey & Hl & H4 & Hok' & Hsm' & Hput); try done; [lia|destruct Hfit; lia|].
  rewrite Hsave. cbn [shortstatehash_statediff statehash_shortstatehash stateinfo_cache globals].
  set (w2 := mkWorld g _ _ _). exists ssh, (drop_permit w2). split; [done|].
  destruct (drop_permit_spec init w2 Hg') as [Hg2 Hd2].
  assert (Hkeep : ∀ k g', saved w k g' → saved (drop_permit w2) k g').
  { intros k g' (st & Hst & H'). exists st. split; [by apply Hput|done]. }
  assert (Hnew : saved (drop_permit w2) ssh n) by by exists stack'.
  split_and!; [|done|done]. split; [done| | |].
  - intros h v. cbn [drop_permit statehash_shortstatehash w2].
    destruct (decide (h = calculate_hash (set_iter n))) as [->|Hne].
    + rewrite kv_get_put_eq. intros Hv. apply (inj Some) in Hv as <-. exists ssh, n. by split_and!.
    + rewrite kv_get_put_ne by done. intros Hv. destruct (Hh h v Hv) as (s & f' & -> & Hus & -> & Hf' & Hs).
      exists s, f'. split_and!; auto.
  - intros k Hk. cbn [drop_permit shortstatehash_statediff w2]. cbn [w2 globals] in Hd2. rewrite Hdisp in Hd2.
    destruct (decide (k = ssh)) as [->|Hne]; [by intros _|]. rewrite Hkey, kv_get_put_ne.
    + intros Hrow. apply Hr in Hrow; [|done]. lia.
    + intros Heq. apply Hne. symmetry. apply (be_bytes_inj 8); [unfold u64, u64_max in *; cbn; lia..|done].
  - cbn [drop_permit shortstatehash_statediff stateinfo_cache w2]. by apply (coherent_put _ (shortstatehash_statediff w)).
Qed.

(** Loading the previous state only touches the cache. *)
Lemma save_parents_spec init fuel previous f w :
  world_ok init w → (4 ≤ fuel)%nat →
  (previous = None ∧ f = ∅ ∨ ∃ p, previous = Some p ∧ saved w p f) →
  ∃ stack cache, parents fuel previous w =
      (Ok stack, mkWorld (globals w) (statehash_shortstatehash w) (shortstatehash_statediff w) cache)
    ∧ based debug_assertions (shortstatehash_statediff w) stack f ∧ stack_ok stack ∧ stack_small b stack
    ∧ world_ok init (mkWorld (globals w) (statehash_shortstatehash w) (shortstatehash_statediff w) cache)
    ∧ match last stack with Some p => full_state p = f | None => f = ∅ end.
Proof.
  intros Hw Hf Hprev. destruct Hprev as [[-> ->]|(p & -> & stack & Hl & Hok & Hsm & H4)].
  - exists [], (stateinfo_cache w). split_and!; [by destruct w|by left|constructor|constructor|by destruct w|done].
  - cbn [parents]. destruct (load_spec debug_assertions _ p stack f fuel _ Hl (wok_cache _ _ Hw)) as (cache & -> & Hc); [lia|].
    exists stack, cache. split_and!; [done|right; by exists p|done|done|by destruct Hw|].
    destruct (layers_last _ _ _ _ _ Hl) as (a & r & ->). done.
Qed.

Lemma diff_spec (stack : list ShortStateInfo) (f n : CompressedState) :
  match last stack with Some p => full_state p = f | None => f = ∅ end →
  match last stack with Some p => (n ∖ full_state p, full_state p ∖ n) | None => (n, ∅) end = (n ∖ f, f ∖ n).
Proof. destruct (last stack); [by intros ->|]. intros ->. f_equal; set_solver. Qed.


End Bounded.
End StateSave.

(** The first state of an empty server. *)
Definition empty_world : World (S := gmap bytes bytes) (Ch := Z) (Ca := gmap Z (list ShortStateInfo)) :=
  mkWorld (start 0 store_count handle_retire (∅, watch_new 0)) ∅ ∅ ∅.

Lemma empty_world_ok `{!Usize} b : world_ok true (λ x, x) b 0 empty_world.
Proof.
  split.
  - split; [by apply start_ok|done..].
  - intros h v Hv. cbn in Hv. by rewrite lookup_empty in Hv.
  - intros k _ Hk. cbn in Hk. by rewrite lookup_empty in Hk.
  - intros k st Hk. cbn in Hk. by rewrite lookup_empty in Hk.
Qed.

