(* ===== verification/ShortIds.v ===== *)
(** * ShortIds: one number per event, under concurrent allocation

    src/service/rooms/short/mod.rs: [get_or_create_shorteventid] and
    [create_shorteventid].  Any number of callers run at once; each proceeds in
    steps between which the others may run: a lookup, the wait for the lock of
    its event id, the lookup repeated under the lock with the draw of a number,
    and the transaction that publishes it.  The two columns are key-value
    stores, the counter is [dispatched] of the two-phase counter. *)

From S2P Require Import Prelude CoreError Bytes Store RecordCodec.

Section ShortIds.
Context `{!Usize} {S : Type} `{!KeyValue S} (debug_assertions : bool).

(** Where a caller stands, with its event id. *)
Inductive Task :=
| Looking (event_id : bytes)
| Waiting (event_id : bytes)
| Locked (event_id : bytes)
| Publishing (event_id : bytes) (short : Z)
| Done (event_id : bytes) (short : Z)
| Aborted (event_id : bytes).

Record Config := mkConfig {
  eventid_shorteventid : S;
  shorteventid_eventid : S;
  dispatched : Z;
  tasks : list Task
}.

Definition get_shorteventid (c : Config) (event_id : bytes) : Res Z :=
  match kv_get (eventid_shorteventid c) event_id with
  | Some v => deserialized debug_assertions v
  | None => err_request NotFound "Not found in database"
  end.

(** [None] is its database error; the text is not parsed as an id of the caller's
    type. *)
Definition get_eventid_from_short (c : Config) (short : Z) : option bytes :=
  kv_get (shorteventid_eventid c) (be_bytes 8 short).

Definition holds_lock (event_id : bytes) (t : Task) : bool :=
  match t with
  | Locked e | Publishing e _ => bool_decide (e = event_id)
  | _ => false
  end.

Definition with_task (i : nat) (t : Task) (c : Config) : Config :=
  mkConfig (eventid_shorteventid c) (shorteventid_eventid c) (dispatched c) (<[i := t]> (tasks c)).

(** The first lookup, which decides whether to go on to [create_shorteventid]. *)
Definition get_or_create_shorteventid (c : Config) (e : bytes) : Task :=
  match get_shorteventid c e with Ok short => Done e short | _ => Waiting e end.

(** One step of the [i]-th caller; [None] when it cannot move.  Looking it up
    again under the lock and drawing the number is one step, publishing it the
    next. *)
Definition step (i : nat) (c : Config) : option Config :=
  t ← tasks c !! i;
  match t with
  | Looking e => Some (with_task i (get_or_create_shorteventid c e) c)
  | Waiting e => if existsb (holds_lock e) (tasks c) then None else Some (with_task i (Locked e) c)
  | Locked e =>
      match get_shorteventid c e with
      | Ok short => Some (with_task i (Done e short) c)
      | _ =>
          if dispatched c + 1 <=? u64_max then
            Some (with_task i (Publishing e (dispatched c + 1))
              (mkConfig (eventid_shorteventid c) (shorteventid_eventid c) (dispatched c + 1) (tasks c)))
          else Some (with_task i (Aborted e) c)
      end
  | Publishing e short =>
      Some (with_task i (Done e short)
        (mkConfig (kv_put (eventid_shorteventid c) e (be_bytes 8 short))
           (kv_put (shorteventid_eventid c) (be_bytes 8 short) e) (dispatched c) (tasks c)))
  | Done _ _ | Aborted _ => None
  end.

(** A schedule names the caller that moves next; one that cannot is passed over. *)
Definition run (schedule : list nat) (c : Config) : Config :=
  foldl (λ c i, default c (step i c)) c schedule.

Definition start (fwd bwd : S) (count : Z) (event_ids : list bytes) : Config :=
  mkConfig fwd bwd count (Looking <$> event_ids).

(** ** Invariant *)

Definition task_event (t : Task) : bytes :=
  match t with Looking e | Waiting e | Locked e | Publishing e _ | Done e _ | Aborted e => e end.

(** What the two columns say, and say of each other. *)
Record columns_ok (c : Config) : Prop := {
  col_count : 0 ≤ dispatched c ≤ u64_max;
  col_fwd : ∀ e v, kv_get (eventid_shorteventid c) e = Some v →
    ∃ n, v = be_bytes 8 n ∧ 0 < n ≤ dispatched c ∧ get_eventid_from_short c n = Some e;
  col_bwd : ∀ n e, u64 n → get_eventid_from_short c n = Some e →
    n ≤ dispatched c ∧ kv_get (eventid_shorteventid c) e = Some (be_bytes 8 n)
}.

Definition task_ok (c : Config) (t : Task) : Prop :=
  match t with
  | Publishing e n => 0 < n ≤ dispatched c ∧ kv_get (eventid_shorteventid c) e = None ∧ get_eventid_from_short c n = None
  | Done e n => 0 < n ≤ dispatched c ∧ kv_get (eventid_shorteventid c) e = Some (be_bytes 8 n)
  | _ => True
  end.

Record config_ok (c : Config) : Prop := {
  ok_columns : columns_ok c;
  ok_tasks : ∀ i t, tasks c !! i = Some t → task_ok c t;
  ok_locks : ∀ i j t u e, tasks c !! i = Some t → tasks c !! j = Some u →
    holds_lock e t = true → holds_lock e u = true → i = j;
  ok_numbers : ∀ i j e e' n, tasks c !! i = Some (Publishing e n) → tasks c !! j = Some (Publishing e' n) → i = j
}.

Lemma get_cases c e :
  columns_ok c →
  (∃ n, get_shorteventid c e = Ok n ∧ 0 < n ≤ dispatched c ∧ kv_get (eventid_shorteventid c) e = Some (be_bytes 8 n))
  ∨ (get_shorteventid c e = err_request NotFound "Not found in database" ∧ kv_get (eventid_shorteventid c) e = None).
Proof.
  intros [Hc Hf _]. unfold get_shorteventid. destruct (kv_get _ e) as [v|] eqn:Hv; [left|by right].
  destruct (Hf e v Hv) as (n & -> & Hn & _). exists n. rewrite deserialized_be by (unfold u64; lia). done.
Qed.

(** Moving one caller to a state that is allowed keeps the invariant. *)
Lemma move_ok c i t u :
  config_ok c → tasks c !! i = Some t → task_ok c u →
  (∀ e, holds_lock e u = true → holds_lock e t = true ∨ existsb (holds_lock e) (tasks c) = false) →
  (∀ e n, u = Publishing e n → ∀ j e', tasks c !! j ≠ Some (Publishing e' n)) →
  config_ok (with_task i u c).
Proof.
  intros [Hcol Htasks Hlocks Hnum] Ht Hu Hlock Hpub. pose proof (lookup_lt_Some _ _ _ Ht) as Hi.
  assert (Hfree : ∀ e j t', existsb (holds_lock e) (tasks c) = false → tasks c !! j = Some t' → holds_lock e t' = false).
  { intros e j t' Hex Hj. destruct (holds_lock e t') eqn:Hl; [|done].
    assert (existsb (holds_lock e) (tasks c) = true); [|congruence]. apply existsb_exists. exists t'.
    split; [apply list_elem_of_In; by eapply list_elem_of_lookup_2|done]. }
  assert (Hsplit : ∀ j t', <[i := u]> (tasks c) !! j = Some t' → (j = i ∧ t' = u) ∨ (j ≠ i ∧ tasks c !! j = Some t')).
  { intros j t'. destruct (decide (j = i)) as [->|]; [rewrite list_lookup_insert_eq by done; naive_solver|].
    rewrite list_lookup_insert_ne by done. naive_solver. }
  split; cbn [tasks with_task]; [by destruct Hcol| | |].
  - intros j t' [[-> ->]|[_ Hj]]%Hsplit; [done|]. by apply (Htasks j).
  - intros j k t1 t2 e [[-> ->]|[Hj Ht1]]%Hsplit [[-> ->]|[Hk Ht2]]%Hsplit H1 H2; [done| | |by apply (Hlocks _ _ t1 t2 e)].
    + exfalso. destruct (Hlock e H1) as [H3|H3]; [|by rewrite (Hfree e k t2 H3 Ht2) in H2].
      apply Hk. by apply (Hlocks k i t2 t e).
    + exfalso. destruct (Hlock e H2) as [H3|H3]; [|by rewrite (Hfree e j t1 H3 Ht1) in H1].
      apply Hj. by apply (Hlocks j i t1 t e).
  - intros j k e e' n [[-> <-]|[Hj Ht1]]%Hsplit [[-> Hu2]|[Hk Ht2]]%Hsplit; [done| | |by apply (Hnum _ _ e e' n)].
    + exfalso. by apply (Hpub e n eq_refl k e').
    + exfalso. subst u. by apply (Hpub e' n eq_refl j e).
Qed.

(** Drawing a number keeps every number in use below the counter. *)
Lemma draw_ok c :
  config_ok c → dispatched c + 1 ≤ u64_max →
  let c' := mkConfig (eventid_shorteventid c) (shorteventid_eventid c) (dispatched c + 1) (tasks c) in
  config_ok c' ∧ get_eventid_from_short c' (dispatched c + 1) = None
  ∧ ∀ j e, tasks c !! j ≠ Some (Publishing e (dispatched c + 1)).
Proof.
  intros [[Hc Hf Hb] Htasks Hlocks Hnum] Hmax c'. split_and!.
  - split; cbn; [split; cbn; [lia| |]| |done|done].
    + intros e v Hv. destruct (Hf e v Hv) as (n & -> & Hn & He). exists n. split; [done|]. split; [lia|done].
    + intros n e Hn Hg. destruct (Hb n e Hn Hg). split; [lia|done].
    + intros i t Hi. specialize (Htasks i t Hi). destruct t; cbn in *; [done..|naive_solver lia|naive_solver lia|done].
  - unfold c', get_eventid_from_short. cbn [shorteventid_eventid].
    destruct (kv_get _ (be_bytes 8 (dispatched c + 1))) as [e|] eqn:He; [|done].
    destruct (Hb (dispatched c + 1) e); [unfold u64; lia|done|lia].
  - intros j e Hj. destruct (Htasks j _ Hj). lia.
Qed.

Lemma be_8_ne n m : u64 n → u64 m → n ≠ m → be_bytes 8 n ≠ be_bytes 8 m.
Proof.
  intros Hn Hm Hne Heq. apply Hne, (be_bytes_inj 8); [unfold u64, u64_max in *; cbn; lia..|done].
Qed.

(** Publishing writes both directions at once. *)
Lemma publish_ok c i e n :
  config_ok c → tasks c !! i = Some (Publishing e n) →
  config_ok (with_task i (Done e n)
    (mkConfig (kv_put (eventid_shorteventid c) e (be_bytes 8 n))
       (kv_put (shorteventid_eventid c) (be_bytes 8 n) e) (dispatched c) (tasks c))).
Proof.
  intros [[Hc Hf Hb] Htasks Hlocks Hnum] Hi. pose proof (Htasks i _ Hi) as (Hn & Hfe & Hbn).
  assert (Hu : u64 n) by (unfold u64; lia).
  assert (Hsplit : ∀ j t', <[i := Done e n]> (tasks c) !! j = Some t' → (j = i ∧ t' = Done e n) ∨ (j ≠ i ∧ tasks c !! j = Some t')).
  { intros j t'. pose proof (lookup_lt_Some _ _ _ Hi). destruct (decide (j = i)) as [->|]; [rewrite list_lookup_insert_eq by done; naive_solver|].
    rewrite list_lookup_insert_ne by done. naive_solver. }
  unfold get_eventid_from_short in *. split; cbn [tasks with_task].
  - split; cbn [dispatched eventid_shorteventid with_task]; [lia| |]; unfold get_eventid_from_short; cbn [shorteventid_eventid with_task].
    + intros e' v. destruct (decide (e = e')) as [<-|Hne].
      * rewrite kv_get_put_eq. intros Hv. apply (inj Some) in Hv as <-. exists n. rewrite kv_get_put_eq. done.
      * rewrite kv_get_put_ne by done. intros Hv. destruct (Hf e' v Hv) as (n' & -> & Hn' & He'). exists n'.
        split; [done|]. split; [done|]. rewrite kv_get_put_ne; [done|]. apply be_8_ne; [done|unfold u64; lia|].
        intros <-. congruence.
    + intros n' e' Hn'. destruct (decide (n = n')) as [<-|Hne].
      * rewrite kv_get_put_eq. intros [= <-]. rewrite kv_get_put_eq. split; [lia|done].
      * rewrite kv_get_put_ne by by apply be_8_ne. intros Hg. destruct (Hb n' e' Hn' Hg) as [? Hfe'].
        split; [done|]. rewrite kv_get_put_ne; [done|]. intros <-. congruence.
  - intros j t' [[-> ->]|[Hj Ht']]%Hsplit; [cbn; by rewrite kv_get_put_eq|].
    pose proof (Htasks j t' Ht') as Hok. destruct t' as [| | |e' n'|e' n'|]; try done; cbn in *; unfold get_eventid_from_short in *; cbn.
    + destruct Hok as (Hn' & Hfe' & Hbn'). split; [done|].
      rewrite !kv_get_put_ne; [done| |].
      * apply be_8_ne; [done|unfold u64; lia|]. intros <-. apply Hj. by apply (Hnum j i e' e n).
      * intros <-. apply Hj. apply (Hlocks j i _ _ e Ht' Hi); by apply bool_decide_eq_true.
    + destruct Hok as [Hn' Hfe']. split; [done|]. rewrite kv_get_put_ne; [done|]. intros <-. congruence.
  - intros j k t1 t2 x [[-> ->]|[Hj Ht1]]%Hsplit [[-> ->]|[Hk Ht2]]%Hsplit H1 H2; try done. by apply (Hlocks _ _ t1 t2 x).
  - intros j k x y m [[-> ?]|[Hj Ht1]]%Hsplit [[-> ?]|[Hk Ht2]]%Hsplit; try done. by apply (Hnum _ _ x y m).
Qed.

Lemma step_ok i c c' : config_ok c → step i c = Some c' → config_ok c'.
Proof.
  intros Hok. unfold step. destruct (tasks c !! i) as [t|] eqn:Ht; [|done]. cbn [mbind option_bind].
  pose proof (ok_columns _ Hok) as Hcol. destruct t as [e|e|e|e n|e n|e].
  - intros [= <-]. unfold get_or_create_shorteventid. destruct (get_cases c e Hcol) as [(n & -> & Hn & Hf)|[-> _]];
      (apply (move_ok c i (Looking e)); [done|done| |done|done]); done.
  - destruct (existsb _ _) eqn:Hex; [done|]. intros [= <-]. apply (move_ok c i (Waiting e)); [done..| |done].
    intros e' He'. right. cbn in He'. apply bool_decide_eq_true in He' as <-. done.
  - destruct (get_cases c e Hcol) as [(n & -> & Hn & Hf)|[-> Hnone]]; cbn [err_request].
    + intros [= <-]. apply (move_ok c i (Locked e)); done.
    + destruct (Z.leb_spec (dispatched c + 1) u64_max) as [Hmax|Hmax]; intros [= <-].
      * destruct (draw_ok c Hok Hmax) as (Hok' & Hfree & Hnew).
        apply (move_ok _ i (Locked e)); [done|done| |by left|]; cbn [tasks dispatched].
        -- split; [cbn; destruct Hcol; lia|]. done.
        -- intros e' n' [= <- <-]. apply Hnew.
      * by apply (move_ok c i (Locked e)).
  - intros [= <-]. by apply publish_ok.
  - done.
  - done.
Qed.

Lemma run_ok schedule c : config_ok c → config_ok (run schedule c).
Proof.
  revert c. induction schedule as [|i schedule IH]; intros c Hok; [done|]. cbn. apply IH.
  destruct (step i c) eqn:Hs; [by apply (step_ok i c)|done].
Qed.

Lemma start_config_ok fwd bwd count ids :
  columns_ok (mkConfig fwd bwd count []) → config_ok (start fwd bwd count ids).
Proof.
  intros Hcol. assert (Hlook : ∀ i t, (Looking <$> ids) !! i = Some t → ∃ e, t = Looking e).
  { intros i t Ht. rewrite list_lookup_fmap in Ht. destruct (ids !! i); naive_solver. }
  split; cbn; [by destruct Hcol| | |].
  - intros i t [e ->]%Hlook. done.
  - by intros i j t u e [? ->]%Hlook.
  - by intros i j e e' n [? ?]%Hlook.
Qed.

(** ** Every caller gets its number *)

Definition finished (t : Task) : Prop := match t with Done _ _ | Aborted _ => True | _ => False end.

(** The steps a caller still has to take. *)
Definition rank (t : Task) : nat :=
  match t with Looking _ => 4 | Waiting _ => 3 | Locked _ => 2 | Publishing _ _ => 1 | Done _ _ | Aborted _ => 0 end.

(** Whether it may still draw a number. *)
Definition will_draw (t : Task) : nat :=
  match t with Looking _ | Waiting _ | Locked _ => 1 | _ => 0 end.

Definition total (f : Task → nat) (l : list Task) : nat := sum_list (f <$> l).

Lemma total_insert f l i t u :
  l !! i = Some t → (total f (<[i := u]> l) + f t = total f l + f u)%nat.
Proof.
  revert i. induction l as [|x l IH]; intros [|i] Hi; [done..| |].
  - injection Hi as ->. unfold total. cbn. lia.
  - specialize (IH i Hi). change (f x + total f (<[i := u]> l) + f t = f x + total f l + f u)%nat. lia.
Qed.

(** No caller is aborted while numbers are left for all of them. *)
Definition room (c : Config) : Prop :=
  dispatched c + Z.of_nat (total will_draw (tasks c)) ≤ u64_max
  ∧ ∀ i e, tasks c !! i ≠ Some (Aborted e).

Lemma total_lookup f l i t : l !! i = Some t → (f t ≤ total f l)%nat.
Proof.
  intros Hi. unfold total. revert i Hi. induction l as [|x l IH]; intros [|i] Hi; [done..| |]; cbn in *.
  - injection Hi as ->. lia.
  - specialize (IH i Hi). lia.
Qed.

Lemma insert_aborted i u c :
  (∀ j e, tasks c !! j ≠ Some (Aborted e)) → (∀ e, u ≠ Aborted e) →
  ∀ j e, <[i := u]> (tasks c) !! j ≠ Some (Aborted e).
Proof.
  intros Hc Hu j e Hj. destruct (decide (i = j)) as [->|]; [|rewrite list_lookup_insert_ne in Hj by done; by apply (Hc j e)].
  destruct (decide (j < length (tasks c))%nat); [rewrite list_lookup_insert_eq in Hj by done; naive_solver|].
  rewrite list_insert_ge in Hj by lia. by apply (Hc j e).
Qed.

(** A step moves its caller on and leaves room for the others. *)
Lemma step_progress i c c' :
  config_ok c → room c → step i c = Some c' →
  (total rank (tasks c') < total rank (tasks c))%nat ∧ room c'.
Proof.
  intros Hok [Hroom Hna]. unfold step. destruct (tasks c !! i) as [t|] eqn:Ht; [|done]. cbn [mbind option_bind].
  pose proof (λ u, total_insert rank (tasks c) i t u Ht) as Hrank.
  pose proof (λ u, total_insert will_draw (tasks c) i t u Ht) as Hdraw.
  assert (Hmove : ∀ u fwd bwd d, (∀ e, u ≠ Aborted e) → (rank u < rank t)%nat →
    d + Z.of_nat (will_draw u) ≤ dispatched c + Z.of_nat (will_draw t) →
    (total rank (<[i := u]> (tasks c)) < total rank (tasks c))%nat ∧ room (mkConfig fwd bwd d (<[i := u]> (tasks c)))).
  { intros u fwd bwd d Hu Hlt Hd. specialize (Hrank u). specialize (Hdraw u). split; [lia|].
    split; cbn [dispatched tasks]; [lia|by apply insert_aborted]. }
  destruct t as [e|e|e|e n|e n|e]; [..|done|done].
  - intros [= <-]. unfold with_task, get_or_create_shorteventid. destruct (get_shorteventid c e); apply Hmove; cbn; (done || lia).
  - destruct (existsb _ _); [done|]. intros [= <-]. apply Hmove; cbn; (done || lia).
  - pose proof (total_lookup will_draw _ _ _ Ht) as Hone. cbn in Hone.
    rewrite (proj2 (Z.leb_le (dispatched c + 1) u64_max)) by lia.
    destruct (get_shorteventid c e); intros [= <-]; apply Hmove; cbn; (done || lia).
  - intros [= <-]. apply Hmove; cbn; (done || lia).
Qed.

(** Some caller can always move: one that waits is waiting for one that can. *)
Lemma step_exists c :
  (∃ i t, tasks c !! i = Some t ∧ ¬ finished t) → ∃ i c', step i c = Some c'.
Proof.
  intros (i & t & Ht & Hn).
  assert (Hbusy : ∀ j u, tasks c !! j = Some u → match u with Looking _ | Locked _ | Publishing _ _ => True | _ => False end →
    ∃ c', step j c = Some c').
  { intros j u Hj Hu. unfold step. rewrite Hj. cbn. destruct u; try done; repeat case_match; eauto. }
  destruct t as [e|e|e|e n|e n|e]; try done; try (exists i; by eapply Hbusy).
  destruct (existsb (holds_lock e) (tasks c)) eqn:Hex.
  - apply existsb_exists in Hex as (u & Hu%list_elem_of_In & Hl). apply list_elem_of_lookup in Hu as [j Hj].
    exists j. apply (Hbusy j u Hj). by destruct u.
  - exists i. unfold step. rewrite Ht. cbn. rewrite Hex. eauto.
Qed.

Lemma run_room schedule c : config_ok c → room c → room (run schedule c).
Proof.
  revert c. induction schedule as [|i schedule IH]; intros c Hok Hr; [done|]. cbn.
  destruct (step i c) as [c'|] eqn:Hs; cbn; [|by apply IH]. apply IH; [by apply (step_ok i c)|].
  by apply (step_progress i c c').
Qed.

Lemma run_finishes c :
  config_ok c → room c → ∃ more, Forall finished (tasks (run more c)).
Proof.
  remember (total rank (tasks c)) as n eqn:Hn. revert c Hn.
  induction (lt_wf n) as [n _ IH]; intros c Hn Hok Hr.
  destruct (decide (Forall (λ t, rank t = 0%nat) (tasks c))) as [Hall|Hnot].
  - exists []. cbn. eapply Forall_impl; [exact Hall|]. by intros [].
  - assert (∃ i t, tasks c !! i = Some t ∧ ¬ finished t) as Hbusy.
    { apply not_Forall_Exists in Hnot; [|apply _]. apply Exists_exists in Hnot as (t & Ht & Hrank).
      apply list_elem_of_lookup in Ht as [i Hi]. exists i, t. split; [done|]. cbn in Hrank. intros Hf. by destruct t. }
    destruct (step_exists c Hbusy) as (i & c' & Hs). destruct (step_progress i c c' Hok Hr Hs) as [Hlt Hr'].
    destruct (IH (total rank (tasks c')) ltac:(lia) c' eq_refl (step_ok i c c' Hok Hs) Hr') as [more Hmore].
    exists (i :: more). cbn. by rewrite Hs.
Qed.

(** A published number stays. *)
Lemma run_keeps schedule c e v :
  config_ok c → kv_get (eventid_shorteventid c) e = Some v → kv_get (eventid_shorteventid (run schedule c)) e = Some v.
Proof.
  revert c. induction schedule as [|i schedule IH]; intros c Hok Hv; [done|]. cbn.
  destruct (step i c) as [c'|] eqn:Hs; cbn; [|by apply IH]. apply IH; [by apply (step_ok i c)|].
  unfold step in Hs. destruct (tasks c !! i) as [t|] eqn:Ht; [|done]. cbn [mbind option_bind] in Hs.
  destruct t as [x|x|x|x n|x n|x]; repeat case_match; simplify_eq; try done.
  cbn. destruct (ok_tasks _ Hok i _ Ht) as (_ & Hnone & _). rewrite kv_get_put_ne; [done|]. intros <-. congruence.
Qed.

Lemma total_start f ids k : (∀ e, f (Looking e) = k) → total f (Looking <$> ids) = (k * length ids)%nat.
Proof. intros Hf. unfold total. induction ids as [|e ids IH]; cbn; [lia|]. rewrite IH, Hf. lia. Qed.

(** C27: any number of callers asking at once for the short ids of events, in
    any interleaving of their steps, agree: one event gets one number, two
    events never share one, the number leads back to the event, and numbers
    already published stay; and from every point of every interleaving all of
    them can be driven to an answer, none aborted while numbers are left. *)
Theorem short_ids_correct fwd bwd count ids schedule :
  columns_ok (mkConfig fwd bwd count []) → count + zlen ids ≤ u64_max →
  let c := run schedule (start fwd bwd count ids) in
  (∀ i j e e' n n', tasks c !! i = Some (Done e n) → tasks c !! j = Some (Done e' n') → e = e' ↔ n = n')
  ∧ (∀ i e n, tasks c !! i = Some (Done e n) →
      get_shorteventid c e = Ok n ∧ get_eventid_from_short c n = Some e)
  ∧ (∀ e v, kv_get fwd e = Some v → kv_get (eventid_shorteventid c) e = Some v)
  ∧ (∃ more, Forall (λ t, ∃ e n, t = Done e n) (tasks (run more c))).
Proof.
  intros Hcol Hcount c. assert (Hok0 : config_ok (start fwd bwd count ids)) by by apply start_config_ok.
  assert (Hok : config_ok c) by by apply run_ok.
  assert (Hroom : room c).
  { apply run_room; [done|]. split; cbn [start dispatched tasks].
    - rewrite (total_start will_draw ids 1) by done. unfold zlen in Hcount. lia.
    - intros i e Hi. rewrite list_lookup_fmap in Hi. by destruct (ids !! i). }
  pose proof (ok_columns _ Hok) as Hc.
  assert (Hdone : ∀ i e n, tasks c !! i = Some (Done e n) →
    u64 n ∧ kv_get (eventid_shorteventid c) e = Some (be_bytes 8 n) ∧ get_eventid_from_short c n = Some e).
  { intros i e n Hi. destruct (ok_tasks _ Hok i _ Hi) as [Hn Hf]. pose proof (col_count _ Hc).
    split; [unfold u64; lia|]. split; [done|]. destruct (col_fwd _ Hc e _ Hf) as (m & Hm & Hm' & Hb).
    assert (n = m) as ->; [|done]. destruct (decide (n = m)); [done|]. exfalso. apply (be_8_ne n m); [unfold u64; lia..|done|done]. }
  split_and!.
  - intros i j e e' n n' Hi Hj. destruct (Hdone i e n Hi) as (Hu & Hf & Hb). destruct (Hdone j e' n' Hj) as (Hu' & Hf' & Hb').
    split; [intros <-|intros <-; congruence]. destruct (decide (n = n')); [done|]. exfalso.
    apply (be_8_ne n n'); [done..|congruence].
  - intros i e n Hi. destruct (Hdone i e n Hi) as (Hu & Hf & Hb). split; [|done].
    unfold get_shorteventid. rewrite Hf. by apply deserialized_be.
  - intros e v Hv. by apply run_keeps.
  - destruct (run_finishes c Hok Hroom) as [more Hmore]. exists more.
    pose proof (run_room more c Hok Hroom) as [_ Hna]. rewrite Forall_forall in *. intros t Ht.
    specialize (Hmore t Ht). apply list_elem_of_lookup in Ht as [i Hi].
    destruct t as [| | | |e n|e]; try done; [by exists e, n|]. by apply Hna in Hi.
Qed.

End ShortIds.

(** Three callers, two of them for the same event. *)
Lemma short_ids_correct_witness :
  let c := run (H := usize_64) true [0; 1; 2; 0; 1; 0; 0; 1; 1]%nat
    (start (S := gmap bytes bytes) ∅ ∅ 7 [[36; 97]; [36; 97]; [36; 98]]) in
  tasks c = [Done [36; 97] 8; Done [36; 97] 8; Waiting [36; 98]]
  ∧ get_eventid_from_short c 8 = Some [36; 97].
Proof.
  intros c. split; [reflexivity|].
  destruct (short_ids_correct (H := usize_64) (S := gmap bytes bytes) true ∅ ∅ 7 [[36; 97]; [36; 97]; [36; 98]]
    [0; 1; 2; 0; 1; 0; 0; 1; 1]%nat) as (_ & Hdone & _).
  - split; cbn; [done|..].
    + intros e v He. by rewrite lookup_empty in He.
    + intros n e _ He. unfold get_eventid_from_short in He. cbn in He. by rewrite lookup_empty in He.
  - done.
  - apply (Hdone 0%nat). reflexivity.
Defined.
