(* ===== verification/Scan.v ===== *)
(** * Scan: cursors over a column and the scans of a map

    src/database/stream.rs with stream/*.rs, src/database/map/seek.rs and the
    scans of src/database/map: forward and backward, from a bound, under a
    prefix, counted, and deleted.  RocksDB's column and its raw iterator are
    outside the sources: [Column] states what is relied on, with an instance.
    The pool that runs an uncached first seek is taken to answer. *)

From stdpp Require Import sorting.
From S2P Require Import Prelude CoreError Bytes Store ByteOrder RecordCodec.

Notation KeyVal := (bytes * bytes)%type.

(** [rocksdb::ErrorKind] *)
Inductive RocksKind :=
| RocksNotFound | Corruption | NotSupported | InvalidArgument | RocksIOError | MergeInProgress
| Incomplete | ShutdownInProgress | RocksTimedOut | RocksAborted | Busy | Expired | TryAgain
| CompactionTooLarge | ColumnFamilyDropped | RocksUnknown.

#[global] Instance RocksKind_eq_dec : EqDecision RocksKind.
Proof. solve_decision. Defined.

(** The kinds no caller tells apart are [OtherIo]. *)
Definition io_error_kind (e : RocksKind) : IoKind :=
  match e with
  | RocksNotFound => IoNotFound
  | InvalidArgument => InvalidInput
  | RocksAborted => Interrupted
  | CompactionTooLarge => FileTooLarge
  | Expired | RocksTimedOut => TimedOut
  | _ => OtherIo
  end.

(** [util::map_err]; the message is left out. *)
Definition map_rocks (e : RocksKind) : Error := Io (io_error_kind e).
Definition is_incomplete (e : RocksKind) : bool := bool_decide (e = Incomplete).

(** ** Keys of several fields *)

Lemma joined2 (a b : bytes) : joined [a; b] = a ++ SEP :: b.
Proof. cbn. by rewrite app_nil_r. Qed.
Lemma joined3 (a b c : bytes) : joined [a; b; c] = a ++ SEP :: b ++ SEP :: c.
Proof. cbn. by rewrite app_nil_r. Qed.
Lemma joined4 (a b c d : bytes) : joined [a; b; c; d] = a ++ SEP :: b ++ SEP :: c ++ SEP :: d.
Proof. cbn. by rewrite app_nil_r. Qed.

Lemma lex_cmp_same p a b : lex_cmp (p ++ a) (p ++ b) = lex_cmp a b.
Proof. by rewrite lex_cmp_app, lex_cmp_refl. Qed.

(** Equally long numbers decide, unless they are equal. *)
Lemma lex_cmp_num c c' x y :
  u64 c → u64 c' → lex_cmp (be_bytes 8 c ++ x) (be_bytes 8 c' ++ y) = match c ?= c' with Eq => lex_cmp x y | o => o end.
Proof.
  intros Hc Hc'. rewrite lex_cmp_app by by rewrite !length_be_bytes.
  by rewrite (lex_cmp_be_bytes 8 c c') by (unfold u64, u64_max in *; cbn; lia).
Qed.

Definition key_lt (a b : KeyVal) : Prop := lex_cmp a.1 b.1 = Lt.

(** A column: the store of its records, and raw iterators over it.  [it_ahead]
    and [it_behind] are the records from the current one on, either way; an
    iterator in error promises nothing. *)
Class Column (S I : Type) := {
  column_kv :: KeyValue S;
  kv_del : S → bytes → S;
  records : S → list KeyVal;
  it_open : S → I;
  it_open_cached : S → I;
  it_seek : bytes → I → I;
  it_seek_for_prev : bytes → I → I;
  it_seek_to_first : I → I;
  it_seek_to_last : I → I;
  it_next : I → I;
  it_prev : I → I;
  it_item : I → option KeyVal;
  it_status : I → option RocksKind;
  it_ahead : I → list KeyVal;
  it_behind : I → list KeyVal;
  kv_get_del_eq : ∀ s k, kv_get (kv_del s k) k = None;
  kv_get_del_ne : ∀ s k k', k ≠ k' → kv_get (kv_del s k) k' = kv_get s k';
  records_sorted : ∀ s, StronglySorted key_lt (records s);
  records_get : ∀ s k v, (k, v) ∈ records s ↔ kv_get s k = Some v;
  ahead_seek : ∀ s k, it_status (it_seek k (it_open s)) = None →
    it_ahead (it_seek k (it_open s)) = filter (λ r, byte_le k r.1) (records s);
  behind_seek : ∀ s k, it_status (it_seek_for_prev k (it_open s)) = None →
    it_behind (it_seek_for_prev k (it_open s)) = reverse (filter (λ r, byte_le r.1 k) (records s));
  ahead_first : ∀ s, it_status (it_seek_to_first (it_open s)) = None →
    it_ahead (it_seek_to_first (it_open s)) = records s;
  behind_last : ∀ s, it_status (it_seek_to_last (it_open s)) = None →
    it_behind (it_seek_to_last (it_open s)) = reverse (records s);
  ahead_next : ∀ i, it_status (it_next i) = None → it_ahead (it_next i) = tail (it_ahead i);
  behind_prev : ∀ i, it_status (it_prev i) = None → it_behind (it_prev i) = tail (it_behind i);
  item_ahead : ∀ i, it_status i = None → it_item i = head (it_ahead i);
  item_behind : ∀ i, it_status i = None → it_item i = head (it_behind i)
}.

(** ** Cursors *)

Inductive Direction := Forward | Reverse.

(** What a stream yields while it is polled, and whether it came to its end. *)
Record Stream (T : Type) := mkStream { yielded : list (Res T); ended : bool }.
Arguments mkStream {T}.
Arguments yielded {T}.
Arguments ended {T}.

Definition stream_map {A B} (f : Res A → Res B) (st : Stream A) : Stream B :=
  mkStream (f <$> yielded st) (ended st).

(** [TryStreamExt::try_take_while]: errors pass. *)
Fixpoint take_items {A} (P : A → bool) (l : list (Res A)) : list (Res A) * bool :=
  match l with
  | [] => ([], false)
  | Ok x :: l => if P x then let r := take_items P l in (Ok x :: r.1, r.2) else ([], true)
  | e :: l => let r := take_items P l in (e :: r.1, r.2)
  end.

Definition try_take_while {A} (P : A → bool) (st : Stream A) : Stream A :=
  let r := take_items P (yielded st) in mkStream r.1 (r.2 || ended st).

(** [StreamExt::count]; [None] when the stream never ends. *)
Definition stream_count {A} (st : Stream A) : option Z :=
  if ended st then Some (zlen (yielded st)) else None.

(** ** Point reads: src/database/map/get.rs *)

Definition not_found {A} : Res A := err_request NotFound "Not found in database".

Definition handle_from (result : Result RocksKind (option bytes)) : Res bytes :=
  v ← Prelude.map_err map_rocks result; match v with Some v => Ok v | None => not_found end.

Definition cached_handle_from (result : Result RocksKind (option bytes)) : Res (option bytes) :=
  match result with
  | Ok None => not_found
  | Ok (Some v) => Ok (Some v)
  | Err error => if is_incomplete error then Ok None else Err (map_rocks error)
  | Panic => Panic
  end.

(** [Map::get]: what the block cache answers, then what the column does. *)
Definition get_from (cached blocking : Result RocksKind (option bytes)) : Res bytes :=
  match cached_handle_from cached with
  | Ok (Some v) => Ok v
  | Ok None => handle_from blocking
  | Err e => Err e
  | Panic => Panic
  end.

(** Whether the block cache can answer makes no difference. *)
Definition get `{!KeyValue M} (in_cache : bool) (map : M) (key : bytes) : Res bytes :=
  get_from (if in_cache then Ok (kv_get map key) else Err Incomplete) (Ok (kv_get map key)).

Lemma get_spec `{!KeyValue M} in_cache (map : M) key :
  get in_cache map key = match kv_get map key with Some v => Ok v | None => not_found end.
Proof. unfold get, get_from. destruct in_cache, (kv_get map key); done. Qed.

Section Scan.
Context `{!Usize} {J : Type} (json cbor : Format J) (display : Error → string) (debug_assertions : bool).
Context {S I : Type} `{!Column S I}.

(** [struct State] *)
Record State := mkState { inner : I; seek : bool; init : bool }.

Definition State_new (it : I) : State := mkState it false true.

Definition init_fwd (from : option bytes) (st : State) : Res State :=
  _ ← debug_assert debug_assertions (init st);
  _ ← debug_assert debug_assertions (negb (seek st));
  Ok (mkState (match from with Some key => it_seek key (inner st) | None => it_seek_to_first (inner st) end)
        true (init st)).

Definition init_rev (from : option bytes) (st : State) : Res State :=
  _ ← debug_assert debug_assertions (init st);
  _ ← debug_assert debug_assertions (negb (seek st));
  Ok (mkState (match from with Some key => it_seek_for_prev key (inner st) | None => it_seek_to_last (inner st) end)
        true (init st)).

Definition seek_fwd (st : State) : State :=
  let it :=
    if negb (init st) then it_next (inner st)
    else if negb (seek st) then it_seek_to_first (inner st) else inner st in
  mkState it (seek st) false.

Definition seek_rev (st : State) : State :=
  let it :=
    if negb (init st) then it_prev (inner st)
    else if negb (seek st) then it_seek_to_last (inner st) else inner st in
  mkState it (seek st) false.

Definition status (st : State) : option RocksKind := it_status (inner st).
Definition state_incomplete (st : State) : bool :=
  match status st with Some e => is_incomplete e | None => false end.
Definition fetch (st : State) : option KeyVal := it_item (inner st).
Definition fetch_key (st : State) : option bytes := fst <$> it_item (inner st).

(** [Cursor::get] *)
Definition cursor_get {T} (fetch : State → option T) (st : State) : option (Res T) :=
  match fetch st with
  | Some item => Some (Ok item)
  | None => match status st with Some e => Some (Err (map_rocks e)) | None => None end
  end.

(** [Cursor::seek_and_get], which is [Stream::poll_next] *)
Definition seek_and_get {T} (dir : Direction) (fetch : State → option T) (st : State) : option (Res T) * State :=
  let st := match dir with Forward => seek_fwd st | Reverse => seek_rev st end in
  (cursor_get fetch st, st).

(** Polling until the end, or for as long as is asked. *)
Fixpoint drain {T} (polls : nat) (dir : Direction) (fetch : State → option T) (st : State) : Stream T :=
  match polls with
  | O => mkStream [] false
  | Datatypes.S polls =>
      match seek_and_get dir fetch st with
      | (None, _) => mkStream [] true
      | (Some item, st) => let r := drain polls dir fetch st in mkStream (item :: yielded r) (ended r)
      end
  end.

(** ** src/database/map/seek.rs *)

Definition seek_init (st : State) (dir : Direction) (from : option bytes) : Res State :=
  match dir with Forward => init_fwd from st | Reverse => init_rev from st end.

(** [pool::handle_iter] *)
Definition handle_iter (st : State) (dir : Direction) (key : option bytes) : Res State :=
  match dir with Forward => init_fwd key st | Reverse => init_rev key st end.

Definition is_cached (map : S) (dir : Direction) (from : option bytes) : Res bool :=
  st ← seek_init (State_new (it_open_cached map)) dir from; Ok (negb (state_incomplete st)).

(** One more poll than there are records; what is polled past them is the end,
    or an error again and again. *)
Definition seek_stream {T} (fetch : State → option T) (map : S) (dir : Direction) (from : option bytes)
  : Stream T :=
  let st := State_new (it_open map) in
  let opened := is_cached map dir from ≫= λ cached : bool, if cached then seek_init st dir from else handle_iter st dir from in
  match opened with
  | Ok st => drain (Datatypes.S (length (records map))) dir fetch st
  | Err e => mkStream [Err e] true
  | Panic => mkStream [Panic] true
  end.

(** ** The scans *)

Definition raw_stream (map : S) : Stream KeyVal := seek_stream fetch map Forward None.
Definition raw_keys (map : S) : Stream bytes := seek_stream fetch_key map Forward None.
Definition rev_raw_stream (map : S) : Stream KeyVal := seek_stream fetch map Reverse None.
Definition rev_raw_keys (map : S) : Stream bytes := seek_stream fetch_key map Reverse None.
Definition raw_stream_from (map : S) (from : bytes) : Stream KeyVal := seek_stream fetch map Forward (Some from).
Definition raw_keys_from (map : S) (from : bytes) : Stream bytes := seek_stream fetch_key map Forward (Some from).
Definition rev_raw_stream_from (map : S) (from : bytes) : Stream KeyVal := seek_stream fetch map Reverse (Some from).
Definition rev_raw_keys_from (map : S) (from : bytes) : Stream bytes := seek_stream fetch_key map Reverse (Some from).

Definition starts_with (prefix key : bytes) : bool := bool_decide (prefix `prefix_of` key).

Definition raw_stream_prefix (map : S) (prefix : bytes) : Stream KeyVal :=
  try_take_while (λ kv, starts_with prefix kv.1) (raw_stream_from map prefix).
Definition raw_keys_prefix (map : S) (prefix : bytes) : Stream bytes :=
  try_take_while (starts_with prefix) (raw_keys_from map prefix).
Definition rev_raw_stream_prefix (map : S) (prefix : bytes) : Stream KeyVal :=
  try_take_while (λ kv, starts_with prefix kv.1) (rev_raw_stream_from map prefix).
Definition rev_raw_keys_prefix (map : S) (prefix : bytes) : Stream bytes :=
  try_take_while (starts_with prefix) (rev_raw_keys_from map prefix).

Definition count (map : S) : option Z := stream_count (raw_keys map).
Definition raw_count_from (map : S) (from : bytes) : option Z := stream_count (raw_keys_from map from).
Definition raw_count_prefix (map : S) (prefix : bytes) : option Z := stream_count (raw_keys_prefix map prefix).

(** *** Typed and serialized forms *)

Definition deserialize_key (sh : Shape) (key : bytes) : Res (Datum (J := J)) :=
  from_slice json cbor display debug_assertions sh key.
Definition result_deserialize_key (sh : Shape) (key : Res bytes) : Res Datum :=
  key ← key; deserialize_key sh key.
Definition result_deserialize (k v : Shape) (kv : Res KeyVal) : Res (Datum * Datum) :=
  kv ← kv; key ← deserialize_key k kv.1; val ← deserialize_key v kv.2; Ok (key, val).

Notation encode := (encode_or_panic json cbor display debug_assertions).

Definition qry (in_cache : bool) (map : S) (key : Datum) : Res bytes := key ← encode key; get in_cache map key.

(** The forms that take a value to serialize differ from the raw ones in that
    only; [k] and [v] are the types read. *)
Definition stream_from_raw (map : S) (from : Datum) : Res (Stream KeyVal) :=
  key ← encode from; Ok (raw_stream_from map key).
Definition stream_from (k v : Shape) (map : S) (from : Datum) : Res (Stream (Datum * Datum)) :=
  st ← stream_from_raw map from; Ok (stream_map (result_deserialize k v) st).
Definition stream_raw_from (k v : Shape) (map : S) (from : bytes) : Stream (Datum * Datum) := stream_map (result_deserialize k v) (raw_stream_from map from).
Definition keys_from_raw (map : S) (from : Datum) : Res (Stream bytes) :=
  key ← encode from; Ok (raw_keys_from map key).
Definition keys_from (k : Shape) (map : S) (from : Datum) : Res (Stream Datum) :=
  st ← keys_from_raw map from; Ok (stream_map (result_deserialize_key k) st).
Definition keys_raw_from (k : Shape) (map : S) (from : bytes) : Stream Datum := stream_map (result_deserialize_key k) (raw_keys_from map from).
Definition rev_stream_from_raw (map : S) (from : Datum) : Res (Stream KeyVal) :=
  key ← encode from; Ok (rev_raw_stream_from map key).
Definition rev_stream_from (k v : Shape) (map : S) (from : Datum) : Res (Stream (Datum * Datum)) :=
  st ← rev_stream_from_raw map from; Ok (stream_map (result_deserialize k v) st).
Definition rev_stream_raw_from (k v : Shape) (map : S) (from : bytes) : Stream (Datum * Datum) := stream_map (result_deserialize k v) (rev_raw_stream_from map from).
Definition rev_keys_from_raw (map : S) (from : Datum) : Res (Stream bytes) :=
  key ← encode from; Ok (rev_raw_keys_from map key).
Definition rev_keys_from (k : Shape) (map : S) (from : Datum) : Res (Stream Datum) :=
  st ← rev_keys_from_raw map from; Ok (stream_map (result_deserialize_key k) st).
Definition rev_keys_raw_from (k : Shape) (map : S) (from : bytes) : Stream Datum := stream_map (result_deserialize_key k) (rev_raw_keys_from map from).
Definition stream_prefix_raw (map : S) (prefix : Datum) : Res (Stream KeyVal) :=
  key ← encode prefix; Ok (raw_stream_prefix map key).
Definition stream_prefix (k v : Shape) (map : S) (prefix : Datum) : Res (Stream (Datum * Datum)) :=
  st ← stream_prefix_raw map prefix; Ok (stream_map (result_deserialize k v) st).
Definition stream_raw_prefix (k v : Shape) (map : S) (prefix : bytes) : Stream (Datum * Datum) := stream_map (result_deserialize k v) (raw_stream_prefix map prefix).
Definition keys_prefix_raw (map : S) (prefix : Datum) : Res (Stream bytes) :=
  key ← encode prefix; Ok (raw_keys_prefix map key).
Definition keys_prefix (k : Shape) (map : S) (prefix : Datum) : Res (Stream Datum) :=
  st ← keys_prefix_raw map prefix; Ok (stream_map (result_deserialize_key k) st).
Definition keys_raw_prefix (k : Shape) (map : S) (prefix : bytes) : Stream Datum := stream_map (result_deserialize_key k) (raw_keys_prefix map prefix).
Definition rev_stream_prefix_raw (map : S) (prefix : Datum) : Res (Stream KeyVal) :=
  key ← encode prefix; Ok (rev_raw_stream_prefix map key).
Definition rev_stream_prefix (k v : Shape) (map : S) (prefix : Datum) : Res (Stream (Datum * Datum)) :=
  st ← rev_stream_prefix_raw map prefix; Ok (stream_map (result_deserialize k v) st).
Definition rev_stream_raw_prefix (k v : Shape) (map : S) (prefix : bytes) : Stream (Datum * Datum) := stream_map (result_deserialize k v) (rev_raw_stream_prefix map prefix).
Definition rev_keys_prefix_raw (map : S) (prefix : Datum) : Res (Stream bytes) :=
  key ← encode prefix; Ok (rev_raw_keys_prefix map key).
Definition rev_keys_prefix (k : Shape) (map : S) (prefix : Datum) : Res (Stream Datum) :=
  st ← rev_keys_prefix_raw map prefix; Ok (stream_map (result_deserialize_key k) st).
Definition rev_keys_raw_prefix (k : Shape) (map : S) (prefix : bytes) : Stream Datum := stream_map (result_deserialize_key k) (rev_raw_keys_prefix map prefix).
Definition stream (k v : Shape) (map : S) : Stream (Datum * Datum) := stream_map (result_deserialize k v) (raw_stream map).
Definition keys (k : Shape) (map : S) : Stream Datum := stream_map (result_deserialize_key k) (raw_keys map).
Definition rev_stream (k v : Shape) (map : S) : Stream (Datum * Datum) := stream_map (result_deserialize k v) (rev_raw_stream map).
Definition rev_keys (k : Shape) (map : S) : Stream Datum := stream_map (result_deserialize_key k) (rev_raw_keys map).
Definition count_from (map : S) (from : Datum) : Res (option Z) := st ← keys_from_raw map from; Ok (stream_count st).
Definition count_prefix (map : S) (prefix : Datum) : Res (option Z) := st ← keys_prefix_raw map prefix; Ok (stream_count st).

(** [Map::exists], [Map::contains] *)
Definition exists_ (in_cache : bool) (map : S) (key : bytes) : Res () := _ ← get in_cache map key; Ok ().
Definition contains (in_cache : bool) (map : S) (key : Datum) : Res bool :=
  key ← encode key; match exists_ in_cache map key with Ok _ => Ok true | Err _ => Ok false | Panic => Panic end.

(** ** Deleting what is scanned *)

(** A column and the keys its watchers were told of. *)
Record Table := mkTable { column : S; notified : list bytes }.

(** [Map::remove]; a rejected write or flush would panic. *)
Definition remove (key : bytes) (t : Table) : Table := mkTable (kv_del (column t) key) (notified t ++ [key]).

(** [ignore_err] feeding [ready_for_each]: an error panics in a debug build and
    is passed over otherwise. *)
Fixpoint each_ok {A T} (f : T → A → A) (l : list (Res T)) (a : A) : Res A :=
  match l with
  | [] => Ok a
  | Ok x :: l => each_ok f l (f x a)
  | Err _ :: l => if debug_assertions then Panic else each_ok f l a
  | Panic :: _ => Panic
  end.

(** [ignore_err] followed by [next] *)
Fixpoint next_ok {T} (l : list (Res T)) : option (Res T) :=
  match l with
  | [] => None
  | Ok x :: _ => Some (Ok x)
  | Err _ :: l => if debug_assertions then Some Panic else next_ok l
  | Panic :: _ => Some Panic
  end.

(** [None] when the stream never ends. *)
Definition for_each_ok {A T} (f : T → A → A) (st : Stream T) (a : A) : option (Res A) :=
  match each_ok f (yielded st) a with
  | Panic => Some Panic
  | r => if ended st then Some r else None
  end.

(** [ignore_err] as a stream: in a debug build an error panics. *)
Definition ignore_err {T} (st : Stream T) : Stream T :=
  mkStream (st.(yielded) ≫= λ r,
    match r with Err _ => if debug_assertions then [Panic] else [] | r => [r] end) (ended st).

(** [StreamExt::take] *)
Definition stream_take {T} (n : nat) (st : Stream T) : Stream T :=
  mkStream (take n (yielded st)) (ended st || (n <=? length (yielded st))%nat).

Definition collect {T} (st : Stream T) : option (Res (list T)) := for_each_ok (λ x l, l ++ [x]) st [].

(** What follows a scan that ends. *)
Definition and_then {A B} (scan : option (Res A)) (k : A → Res B) : option (Res B) :=
  match scan with Some r => Some (a ← r; k a) | None => None end.

(** The scan reads the column as it was when it began. *)
Definition del_prefix (prefix : Datum) (t : Table) : option (Res Table) :=
  match keys_prefix_raw (column t) prefix with
  | Ok st => for_each_ok remove st t
  | _ => Some Panic
  end.

Definition clear (t : Table) : option (Res Table) := for_each_ok remove (raw_keys (column t)) t.

(** ** Exactness *)

Definition view (dir : Direction) (it : I) : list KeyVal :=
  match dir with Forward => it_ahead it | Reverse => it_behind it end.

Section Healthy.
(** No iterator is in error. *)
Hypothesis healthy : ∀ it : I, it_status it = None.

Lemma item_view dir it : it_item it = head (view dir it).
Proof. destruct dir; [by apply item_ahead|by apply item_behind]. Qed.

(** What the next poll stands on. *)
Definition upcoming (dir : Direction) (st : State) : list KeyVal :=
  if init st then view dir (inner st) else tail (view dir (inner st)).

Lemma poll_spec {T} dir (fetch : State → option T) st :
  init st = false ∨ seek st = true →
  ∃ st', seek_and_get dir fetch st = (cursor_get fetch st', st')
    ∧ view dir (inner st') = upcoming dir st ∧ init st' = false.
Proof.
  intros Hst. unfold seek_and_get. eexists. split; [reflexivity|]. unfold upcoming.
  destruct dir; cbn; destruct (init st) eqn:Hi; cbn; (split; [|done]); rewrite ?ahead_next, ?behind_prev by done; try done.
  all: destruct Hst as [?| ->]; done.
Qed.

Lemma drain_spec {T} dir (fetch : State → option T) (project : KeyVal → T) polls st :
  (∀ st, fetch st = project <$> it_item (inner st)) →
  init st = false ∨ seek st = true → (length (upcoming dir st) < polls)%nat →
  drain polls dir fetch st = mkStream ((Ok ∘ project) <$> upcoming dir st) true.
Proof.
  intros Hf. revert st. induction polls as [|polls IH]; intros st Hst Hlen; [lia|]. cbn [drain].
  destruct (poll_spec dir fetch st Hst) as (st' & -> & Hv & Hi). unfold cursor_get, status.
  rewrite Hf, (item_view dir), Hv, healthy. destruct (upcoming dir st) as [|r l] eqn:Hu; [done|]. cbn.
  assert (Hu' : upcoming dir st' = l) by (unfold upcoming; by rewrite Hi, Hv).
  rewrite IH by (rewrite ?Hu'; auto; cbn in Hlen; lia). by rewrite Hu'.
Qed.

Lemma init_spec dir from (st : State) :
  init st = true → seek st = false →
  seek_init st dir from = Ok (mkState
    (match dir, from with
     | Forward, Some key => it_seek key (inner st) | Forward, None => it_seek_to_first (inner st)
     | Reverse, Some key => it_seek_for_prev key (inner st) | Reverse, None => it_seek_to_last (inner st)
     end) true true).
Proof. intros Hi Hs. destruct dir; cbn; unfold init_fwd, init_rev; rewrite Hi, Hs, !debug_assert_true; done. Qed.

(** The records a scan stands on, in the order it goes through them. *)
Definition scanned (map : S) (dir : Direction) (from : option bytes) : list KeyVal :=
  match dir, from with
  | Forward, None => records map
  | Forward, Some key => filter (λ r, byte_le key r.1) (records map)
  | Reverse, None => reverse (records map)
  | Reverse, Some key => reverse (filter (λ r, byte_le r.1 key) (records map))
  end.

Lemma seek_stream_spec {T} (fetch : State → option T) (project : KeyVal → T) map dir from :
  (∀ st, fetch st = project <$> it_item (inner st)) →
  seek_stream fetch map dir from = mkStream ((Ok ∘ project) <$> scanned map dir from) true.
Proof.
  intros Hf. pose proof (init_spec dir from (State_new (it_open map)) eq_refl eq_refl) as Hinit.
  assert (Hopen : (is_cached map dir from ≫= λ cached : bool,
    if cached then seek_init (State_new (it_open map)) dir from else handle_iter (State_new (it_open map)) dir from)
    = seek_init (State_new (it_open map)) dir from).
  { unfold is_cached. rewrite (init_spec dir from (State_new (it_open_cached map))) by done. rewrite !bind_Ok.
    destruct (negb _); reflexivity. }
  unfold seek_stream. cbn zeta. rewrite Hopen, Hinit.
  cbn [inner State_new].
  rewrite (drain_spec dir fetch project); [|done|by right|].
  - f_equal. f_equal. unfold upcoming. cbn [init inner]. unfold view, scanned.
    destruct dir, from; rewrite ?ahead_seek, ?ahead_first, ?behind_seek, ?behind_last by done; done.
  - unfold upcoming. cbn [init inner]. unfold view.
    destruct dir, from; rewrite ?ahead_seek, ?ahead_first, ?behind_seek, ?behind_last, ?length_reverse by done;
      try lia; apply le_n_S, length_filter.
Qed.

Lemma key_lt_le a b : key_lt a b → byte_le a.1 b.1.
Proof. unfold key_lt, byte_le. by intros ->. Qed.

Lemma sorted_filter {A} {R : A → A → Prop} (P : A → Prop) `{!∀ r, Decision (P r)} l :
  StronglySorted R l → StronglySorted R (filter P l).
Proof.
  induction 1 as [|x l Hs IH Hx]; [constructor|]. rewrite filter_cons. case_decide; [|done]. constructor; [done|].
  rewrite Forall_forall in *. intros y Hy. apply Hx. by apply list_elem_of_filter in Hy as [_ ?].
Qed.

(** Items after the first that fails fail as well. *)
Lemma take_closed {A} (P : A → bool) (l : list A) :
  StronglySorted (λ a b, P b = true → P a = true) l →
  (take_items P (Ok <$> l)).1 = Ok <$> filter (λ a, P a = true) l.
Proof.
  induction 1 as [|x l Hs IH Hx]; [done|]. rewrite fmap_cons. cbn [take_items]. rewrite filter_cons.
  destruct (P x) eqn:Hp; [rewrite decide_True by done; cbn; by rewrite IH|]. rewrite decide_False by done.
  rewrite filter_none; [done|]. rewrite Forall_forall in Hx. intros y Hy Hpy. specialize (Hx y Hy Hpy). cbn in Hx. congruence.
Qed.

Lemma sorted_weaken {A} (R R' : A → A → Prop) l :
  StronglySorted R l → (∀ a b, a ∈ l → b ∈ l → R a b → R' a b) → StronglySorted R' l.
Proof.
  induction 1 as [|x l Hs IH Hx]; intros Hw; constructor.
  - apply IH. intros a b Ha Hb. apply Hw; by right.
  - rewrite Forall_forall in *. intros y Hy. apply Hw; [left|by right|auto].
Qed.

Lemma take_prefix {A} (key : A → bytes) p (l : list A) :
  StronglySorted (λ a b, byte_le (key a) (key b)) l → Forall (λ a, byte_le p (key a)) l →
  (take_items (λ a, starts_with p (key a)) (Ok <$> l)).1 = Ok <$> filter (λ a, p `prefix_of` key a) l.
Proof.
  intros Hs Hp. rewrite take_closed.
  - f_equal. apply filter_ext_in. intros x _. unfold starts_with. apply bool_decide_eq_true.
  - eapply sorted_weaken; [exact Hs|]. intros a b Ha Hb Hab. unfold starts_with. rewrite !bool_decide_eq_true.
    intros Hb'. rewrite Forall_forall in Hp. by apply (prefix_between p (key a) (key b)); auto.
Qed.

(** Backwards from the prefix itself only the prefix has it. *)
Lemma take_prefix_rev {A} (key : A → bytes) p (l : list A) :
  StronglySorted (λ a b, lex_cmp (key b) (key a) = Lt) l → Forall (λ a, byte_le (key a) p) l →
  (take_items (λ a, starts_with p (key a)) (Ok <$> l)).1 = Ok <$> filter (λ a, key a = p) l.
Proof.
  assert (Hle : ∀ k, byte_le k p → p `prefix_of` k → k = p).
  { intros k Hk Hp%prefix_le. by apply (anti_symm byte_le). }
  induction 1 as [|x l Hs IH Hx]; intros Hp; [done|]. apply Forall_cons in Hp as [Hpx Hp].
  rewrite fmap_cons. cbn [take_items]. unfold starts_with at 1. rewrite filter_cons. destruct (decide (key x = p)) as [He|Hne].
  - rewrite bool_decide_true by by rewrite He. cbn. by rewrite IH.
  - rewrite bool_decide_false by auto. rewrite filter_none; [done|].
    rewrite !Forall_forall in *. intros y Hy Hey.
    specialize (Hx y Hy). rewrite Hey in Hx. rewrite lex_cmp_opp in Hx. apply Hpx. by destruct (lex_cmp (key x) p).
Qed.

Lemma take_ended {A} (P : A → bool) (l : list A) : try_take_while P (mkStream (Ok <$> l) true) = mkStream (take_items P (Ok <$> l)).1 true.
Proof. unfold try_take_while. cbn. by rewrite orb_true_r. Qed.

Lemma filter_key_get map k :
  filter (λ r, r.1 = k) (records map) = match kv_get map k with Some v => [(k, v)] | None => [] end.
Proof.
  pose proof (sorted_filter (λ r, r.1 = k) (records map) (records_sorted map)) as Hs.
  assert (Hin : ∀ r, r ∈ filter (λ r, r.1 = k) (records map) ↔ r.1 = k ∧ kv_get map k = Some r.2).
  { intros [k' v]. rewrite list_elem_of_filter, records_get. cbn. naive_solver. }
  destruct (filter _ (records map)) as [|r l] eqn:Hf.
  - destruct (kv_get map k) as [v|] eqn:Hg; [|done]. exfalso. eapply not_elem_of_nil, (Hin (k, v)). done.
  - destruct (proj1 (Hin r)) as [Hk Hv]; [left|]. rewrite Hv. destruct r as [k0 v]. cbn in *. subst k0. f_equal.
    destruct l as [|[k' v'] l]; [done|]. exfalso. destruct (proj1 (Hin (k', v'))) as [Hk' _]; [right; left|].
    apply StronglySorted_inv in Hs as [_ Hs]. apply Forall_cons in Hs as [Hs _]. unfold key_lt in Hs. cbn in *.
    subst k'. by rewrite lex_cmp_refl in Hs.
Qed.

Lemma fmap_comp {A B} (f : A → B) (l : list A) : (Ok ∘ f) <$> l = Ok (E := Error) <$> (f <$> l).
Proof. by rewrite <-list_fmap_compose. Qed.

Lemma sorted_keys l : StronglySorted key_lt l → StronglySorted byte_le l.*1.
Proof. induction 1 as [|x l Hs IH Hx]; cbn; constructor; [done|]. apply Forall_fmap. eapply Forall_impl; [done|]. intros y. apply key_lt_le. Qed.

Lemma sorted_le l : StronglySorted key_lt l → StronglySorted (λ a b : KeyVal, byte_le a.1 b.1) l.
Proof. induction 1 as [|x l Hs IH Hx]; constructor; [done|]. eapply Forall_impl; [done|]. intros y. apply key_lt_le. Qed.

Lemma filter_from p (l : list KeyVal) :
  filter (λ r, p `prefix_of` r.1) (filter (λ r, byte_le p r.1) l) = filter (λ r, p `prefix_of` r.1) l.
Proof.
  rewrite list_filter_filter_l; [done|]. intros r Hp. by apply prefix_le.
Qed.

(** The records of a scan, each read as the entry it stands for. *)
Lemma scan_entries {B} (R : KeyVal → B → Prop) (before : B → B → Prop) l :
  StronglySorted key_lt l → (∀ kv, kv ∈ l → ∃ e, R kv e) →
  (∀ kv kv' e e', R kv e → R kv' e' → key_lt kv kv' → before e e') →
  ∃ es, Forall2 R l es ∧ StronglySorted before es.
Proof.
  intros Hs. induction Hs as [|kv l Hs IH Hx]; intros Hex Hlt; [by exists []; repeat constructor|].
  destruct (Hex kv) as [e He]; [left|]. destruct IH as (es & Hes & Hss); [intros x Hin; apply Hex; by right|done|].
  exists (e :: es). split; [by constructor|]. constructor; [done|]. apply Forall_forall. intros e' (i & Hi)%list_elem_of_lookup.
  destruct (Forall2_lookup_r _ _ _ _ _ Hes Hi) as (kv' & Hi' & HR). eapply Hlt; [done..|].
  rewrite Forall_forall in Hx. apply Hx. by eapply list_elem_of_lookup_2.
Qed.

Definition done_stream {T} (l : list T) : Stream T := mkStream (Ok <$> l) true.

Lemma stream_map_done {A B} (f : Res A → Res B) l l' :
  Forall2 (λ x y, f (Ok x) = Ok y) l l' → stream_map f (done_stream l) = done_stream l'.
Proof.
  intros Hl. unfold stream_map, done_stream. cbn [yielded ended]. f_equal. induction Hl as [|x y l l' Hx Hl IH]; [done|].
  rewrite !fmap_cons. by rewrite Hx, IH.
Qed.

Lemma raw_stream_spec map dir from : seek_stream fetch map dir from = done_stream (scanned map dir from).
Proof. rewrite (seek_stream_spec fetch id) by (intros; unfold fetch; by destruct it_item). unfold done_stream. by rewrite fmap_comp, list_fmap_id. Qed.

Lemma raw_keys_spec map dir from : seek_stream fetch_key map dir from = done_stream (scanned map dir from).*1.
Proof. rewrite (seek_stream_spec fetch_key fst) by done. unfold done_stream. by rewrite fmap_comp. Qed.

(** The records under a prefix. *)
Definition under (p : bytes) (map : S) : list KeyVal := filter (λ r, p `prefix_of` r.1) (records map).

Lemma elem_of_under p map b : b ∈ (under p map).*1 ↔ p `prefix_of` b ∧ is_Some (kv_get map b).
Proof.
  rewrite list_elem_of_fmap. split.
  - intros ([b' v] & -> & [Hp Hin%records_get]%list_elem_of_filter). split; [done|]. by exists v.
  - intros [Hp [v Hv]]. exists (b, v). split; [done|]. apply list_elem_of_filter. split; [done|]. by apply records_get.
Qed.

(** Taking away what a prefix scan found leaves what has not the prefix. *)
Lemma under_gone p map b :
  (if decide (b ∈ (under p map).*1) then None else kv_get map b) = if starts_with p b then None else kv_get map b.
Proof.
  unfold starts_with. case_decide as Hin; rewrite elem_of_under in Hin.
  - by rewrite bool_decide_true by naive_solver.
  - case_bool_decide; [|done]. apply eq_None_not_Some. naive_solver.
Qed.

Lemma under_sorted p map : StronglySorted key_lt (under p map).
Proof. apply sorted_filter, records_sorted. Qed.

Lemma scanned_sorted map k : StronglySorted key_lt (scanned map Forward (Some k)).
Proof. apply sorted_filter, records_sorted. Qed.

Lemma scanned_from map k : Forall (λ r, byte_le k r.1) (scanned map Forward (Some k)).
Proof. apply Forall_forall. intros r Hr. by apply list_elem_of_filter in Hr as [? _]. Qed.

Lemma raw_stream_prefix_spec map p : raw_stream_prefix map p = done_stream (under p map).
Proof.
  unfold raw_stream_prefix, raw_stream_from. rewrite raw_stream_spec. unfold done_stream. rewrite take_ended.
  rewrite take_prefix by (auto using sorted_le, scanned_sorted, scanned_from). unfold scanned. by rewrite filter_from.
Qed.

Lemma filter_fmap {A B} (f : A → B) (P : B → Prop) `{!∀ b, Decision (P b)} (l : list A) :
  filter P (f <$> l) = f <$> filter (λ a, P (f a)) l.
Proof. induction l as [|r l IH]; [done|]. rewrite fmap_cons, !filter_cons, IH. by case_decide. Qed.

Lemma raw_keys_prefix_spec map p : raw_keys_prefix map p = done_stream (under p map).*1.
Proof.
  unfold raw_keys_prefix, raw_keys_from. rewrite raw_keys_spec. unfold done_stream. rewrite take_ended.
  rewrite (take_prefix id).
  - unfold id. rewrite filter_fmap. unfold scanned. by rewrite filter_from.
  - apply sorted_keys, scanned_sorted.
  - apply Forall_fmap, scanned_from.
Qed.

Lemma rev_raw_stream_prefix_spec map p :
  rev_raw_stream_prefix map p = done_stream (match kv_get map p with Some v => [(p, v)] | None => [] end).
Proof.
  unfold rev_raw_stream_prefix, rev_raw_stream_from. rewrite raw_stream_spec. unfold done_stream. rewrite take_ended.
  rewrite take_prefix_rev.
  - f_equal. f_equal. unfold scanned. rewrite <-filter_key_get. rewrite <-(reverse_involutive (filter _ (reverse _))).
    assert (Hrev : ∀ l : list KeyVal, reverse (filter (λ r, r.1 = p) (reverse l)) = filter (λ r, r.1 = p) l).
    { clear. intros l. induction l as [|r l IH]; [done|]. rewrite reverse_cons, filter_app, reverse_app, IH.
      rewrite filter_cons. cbn. by case_decide. }
    rewrite Hrev, list_filter_filter_l by (intros r ->; unfold byte_le; by rewrite lex_cmp_refl). rewrite filter_key_get. by destruct (kv_get map p).
  - unfold scanned. pose proof (sorted_filter (λ r, byte_le r.1 p) _ (records_sorted map)) as Hs. revert Hs.
    generalize (filter (λ r, byte_le r.1 p) (records map)). intros l Hs. induction Hs as [|x l Hs IH Hx]; [constructor|].
    rewrite reverse_cons. apply StronglySorted_app_2; [|done|repeat constructor].
    intros a b Ha ->%list_elem_of_singleton. rewrite Forall_forall in Hx. apply Hx. by apply elem_of_reverse.
  - unfold scanned. apply Forall_reverse, Forall_forall. intros r Hr. by apply list_elem_of_filter in Hr as [? _].
Qed.

Lemma each_ok_oks {A T} (f : T → A → A) (l : list T) a : each_ok f (Ok <$> l) a = Ok (foldl (λ a x, f x a) a l).
Proof. revert a. induction l as [|x l IH]; intros a; [done|]. cbn. apply IH. Qed.

Lemma gone_cons {A} (b k : bytes) ks (x : option A) :
  b ≠ k → (if decide (b ∈ ks) then None else x) = if decide (b ∈ k :: ks) then None else x.
Proof.
  intros Hne. destruct (decide (b ∈ ks)) as [Hin|Hin]; [rewrite decide_True by by right|rewrite decide_False]; [done..|].
  by intros [?|?]%elem_of_cons.
Qed.

Lemma del_all ks (c : S) b :
  kv_get (foldl (λ c k, kv_del c k) c ks) b = if decide (b ∈ ks) then None else kv_get c b.
Proof.
  revert c. induction ks as [|x ks IH]; intros c; cbn [foldl]; [by rewrite decide_False by apply not_elem_of_nil|]. rewrite IH.
  destruct (decide (b = x)) as [->|Hne].
  - rewrite kv_get_del_eq, (decide_True (P := x ∈ x :: ks)) by left. by case_decide.
  - rewrite kv_get_del_ne by done. by apply gone_cons.
Qed.

Lemma remove_all ks t :
  notified (foldl (λ t k, remove k t) t ks) = notified t ++ ks
  ∧ ∀ k, kv_get (column (foldl (λ t k, remove k t) t ks)) k = if decide (k ∈ ks) then None else kv_get (column t) k.
Proof.
  assert (Hc : ∀ t, column (foldl (λ t k, remove k t) t ks) = foldl (λ c k, kv_del c k) (column t) ks).
  { induction ks as [|x ks IH]; intros t'; [done|]. cbn [foldl]. by rewrite IH. }
  split; [|intros k; by rewrite Hc, del_all]. clear Hc. revert t.
  induction ks as [|x ks IH]; intros t; cbn [foldl]; [by rewrite app_nil_r|]. rewrite IH. cbn. by rewrite <-(assoc_L (++)).
Qed.

Lemma for_each_done {A T} (f : T → A → A) (l : list T) a : for_each_ok f (done_stream l) a = Some (Ok (foldl (λ a x, f x a) a l)).
Proof. unfold for_each_ok. cbn [yielded ended done_stream]. by rewrite each_ok_oks. Qed.

Lemma ignore_err_done {T} (l : list T) : ignore_err (done_stream l) = done_stream l.
Proof. unfold ignore_err, done_stream. cbn [yielded ended]. f_equal. induction l as [|x l IH]; [done|]. cbn. by f_equal. Qed.

Lemma stream_take_done {T} n (l : list T) : stream_take n (done_stream l) = done_stream (take n l).
Proof. unfold stream_take, done_stream. cbn [yielded ended]. by rewrite fmap_take. Qed.

Lemma collect_done {T} (l : list T) : collect (done_stream l) = Some (Ok l).
Proof.
  unfold collect. rewrite for_each_done. do 2 f_equal.
  assert (Hacc : ∀ a, foldl (λ (a : list T) x, a ++ [x]) a l = a ++ l); [|apply Hacc].
  induction l as [|x l IH]; intros a; [by rewrite app_nil_r|]. cbn. by rewrite IH, <-(assoc_L (++)).
Qed.

Lemma del_prefix_spec prefix p t :
  encode prefix = Ok p →
  ∃ t', del_prefix prefix t = Some (Ok t') ∧ notified t' = notified t ++ (under p (column t)).*1
    ∧ ∀ x, kv_get (column t') x = if starts_with p x then None else kv_get (column t) x.
Proof.
  intros He. unfold del_prefix, keys_prefix_raw. rewrite He, bind_Ok, raw_keys_prefix_spec, for_each_done.
  destruct (remove_all (under p (column t)).*1 t) as [Hn Hg].
  eexists. split; [reflexivity|]. split; [exact Hn|]. intros x. rewrite Hg. apply under_gone.
Qed.


End Healthy.

(** An iterator in error stays in error, and so does the stream: it never ends,
    and whoever drops its errors waits for ever. *)
Lemma failed_scan_never_ends {T} (fetch : State → option T) (project : KeyVal → T) e polls st :
  (∀ st, fetch st = project <$> it_item (inner st)) →
  let failed it := it_item it = None ∧ it_status it = Some e in
  (∀ it, failed it → failed (it_next it)) → failed (inner st) → init st = false →
  drain polls Forward fetch st = mkStream (replicate polls (Err (map_rocks e))) false.
Proof.
  intros Hf failed Hstay. revert st. induction polls as [|polls IH]; intros st Hst Hi; [done|]. cbn [drain].
  destruct (Hstay _ Hst) as [Hitem Hstatus].
  unfold seek_and_get, seek_fwd, cursor_get, status. rewrite Hi. cbn [negb inner]. rewrite Hf. cbn [inner].
  rewrite Hitem, Hstatus. cbn [fmap option_fmap option_map]. rewrite IH by (cbn; auto). done.
Qed.

End Scan.

(** ** A column that keeps its records in a finite map *)

Definition map_records (m : gmap bytes bytes) : list KeyVal := omap (λ k, pair k <$> m !! k) (map_keys m).

Lemma map_records_sorted m : StronglySorted key_lt (map_records m).
Proof.
  unfold map_records. assert (Hs : StronglySorted byte_le (map_keys m)) by apply byte_sort_sorted.
  assert (Hnd : NoDup (map_keys m)) by (unfold map_keys; rewrite byte_sort_perm; apply NoDup_fst_map_to_list).
  induction Hs as [|k ks Hs IH Hk]; [constructor|]. apply NoDup_cons in Hnd as [Hk' Hnd]. cbn.
  destruct (m !! k) as [v|]; cbn; [|by apply IH]. constructor; [by apply IH|]. apply Forall_forall. intros [k' v'] Hin.
  apply list_elem_of_omap in Hin as (x & Hx & Hv). destruct (m !! x); [|done]. cbn in Hv. injection Hv as -> ->.
  rewrite Forall_forall in Hk. specialize (Hk k' Hx). unfold key_lt, byte_le in *. cbn.
  destruct (lex_cmp k k') eqn:Hc; [|done|done]. apply lex_cmp_eq in Hc as ->. done.
Qed.

Lemma map_records_get m k v : (k, v) ∈ map_records m ↔ m !! k = Some v.
Proof.
  unfold map_records. rewrite list_elem_of_omap. split.
  - intros (x & _ & Hx). destruct (m !! x) as [w|] eqn:Hw; [|done]. cbn in Hx. injection Hx as <- <-. done.
  - intros Hv. exists k. rewrite elem_of_map_keys, Hv. split; [by exists v|done].
Qed.

(** The records, and where the iterator stands: those behind it, the one it is
    at, those ahead. *)
Definition ZipIter : Type := list KeyVal * option (list KeyVal * KeyVal * list KeyVal).

Definition zip_at (behind ahead : list KeyVal) : option (list KeyVal * KeyVal * list KeyVal) :=
  match ahead with [] => None | r :: ahead => Some (behind, r, ahead) end.

#[global, refine] Instance gmap_column : Column (gmap bytes bytes) ZipIter := {|
  column_kv := gmap_kv;
  kv_del m k := delete k m;
  records := map_records;
  it_open m := (map_records m, None);
  it_open_cached m := (map_records m, None);
  it_seek k it := (it.1, zip_at (reverse (filter (λ r, ¬ byte_le k r.1) it.1)) (filter (λ r, byte_le k r.1) it.1));
  it_seek_for_prev k it :=
    (it.1, match reverse (filter (λ r, byte_le r.1 k) it.1) with
           | [] => None | r :: behind => Some (behind, r, filter (λ r, ¬ byte_le r.1 k) it.1) end);
  it_seek_to_first it := (it.1, zip_at [] it.1);
  it_seek_to_last it := (it.1, match reverse it.1 with [] => None | r :: behind => Some (behind, r, []) end);
  it_next it := (it.1, match it.2 with Some (behind, r, ahead) => zip_at (r :: behind) ahead | None => None end);
  it_prev it := (it.1, match it.2 with Some (x :: behind, r, ahead) => Some (behind, x, r :: ahead) | _ => None end);
  it_item it := match it.2 with Some (_, r, _) => Some r | None => None end;
  it_status _ := None;
  it_ahead it := match it.2 with Some (_, r, ahead) => r :: ahead | None => [] end;
  it_behind it := match it.2 with Some (behind, r, _) => r :: behind | None => [] end;
  records_sorted := map_records_sorted;
  records_get := map_records_get
|}.
Proof.
  - intros. apply lookup_delete_eq.
  - intros. by apply lookup_delete_ne.
  - intros s k _. cbn. by destruct (filter (λ r, byte_le k r.1) (map_records s)).
  - intros s k _. cbn [fst snd]. by destruct (reverse (filter (λ r, byte_le r.1 k) (map_records s))).
  - intros s _. cbn. by destruct (map_records s).
  - intros s _. cbn [fst snd]. by destruct (reverse (map_records s)).
  - intros [? [[[b r] [|x a]]|]] _; done.
  - intros [? [[[[|x b] r] a]|]] _; done.
  - intros [? [[[b r] a]|]] _; done.
  - intros [? [[[b r] a]|]] _; done.
Defined.

(** Two records under "a" and a separator, and one past them. *)
Definition sample_column : gmap bytes bytes :=
  <[[97; 255; 2] := [1]]> (<[[97; 255; 1] := [2]]> (<[[98] := [3]]> ∅)).

