(* ===== verification/AccountData.v ===== *)
(** * AccountData: account data over two columns

    src/service/account_data/mod.rs: the whole of its database operations, over
    the record codec, the transactions and the scans.  What a caller sees is a
    map from room, user and type to the number and the content last stored. *)

From stdpp Require Import sorting.
From S2P Require Import Prelude CoreError Bytes Store ByteOrder RecordCodec WriteBatch Scan.

Arguments DSome {J}.
Arguments DJson {J}.
Arguments DIgnored {J}.
Arguments DBytes {J}.
Arguments SStr.

Section AccountData.
Context `{!Usize} {J : Type} (json cbor : Format J) (display : Error → string) (debug_assertions : bool).
Context {S I : Type} `{!Column S I} (in_cache : bool).

(** [serde_json::Value::get], and the tombstone [json!] makes. *)
Context (value_get : J → string → option J) (tombstone_value : bytes → J).

(** The two columns are of one engine. *)
Context (engine_id cf_data cf_type : Z).

(** [struct Data] *)
Record Data := mkData { roomuserdataid_accountdata : S; roomusertype_roomuserdataid : S }.

Definition data_map : Map := mkMap engine_id cf_data.
Definition type_map : Map := mkMap engine_id cf_type.

(** What RocksDB does with a batch. *)
Definition apply_op (d : Data) (op : BatchOp) : Data :=
  let on (f : S → S) :=
    if op_cf op =? cf_data then mkData (f (roomuserdataid_accountdata d)) (roomusertype_roomuserdataid d)
    else if op_cf op =? cf_type then mkData (roomuserdataid_accountdata d) (f (roomusertype_roomuserdataid d))
    else d in
  match op with
  | Put _ key val => on (λ c, kv_put c key val)
  | Delete _ key => on (λ c, kv_del c key)
  | Merge _ _ _ => d
  end.

Definition commit (txn : Txn) (d : Data) : Data := foldl apply_op d (batch txn).

Notation put := (put json cbor display debug_assertions).
Notation qry := (qry json cbor display debug_assertions).

(** An [Option<&RoomId>] as the codec is handed it. *)
Definition room_datum (room_id : option bytes) : Datum (J := J) :=
  match room_id with Some r => DSome (DStr r) | None => DNone end.

Definition update (room_id : option bytes) (user_id event_type : bytes) (data : J) (count : Z) (d : Data) : Res Data :=
  match value_get data "type", value_get data "content" with
  | Some _, Some _ =>
      let roomuserdataid := DTuple [room_datum room_id; DStr user_id; DU64 count; DStr event_type] in
      let key := DTuple [room_datum room_id; DStr user_id; DStr event_type] in
      prev ← match qry in_cache (roomusertype_roomuserdataid d) key with
             | Ok prev => Ok (Some prev) | Err _ => Ok None | Panic => Panic end;
      txn ← put data_map roomuserdataid (DJson data) (Txn_new engine_id);
      txn ← put type_map key roomuserdataid txn;
      txn ← match prev with Some prev => del_raw data_map prev txn | None => Ok txn end;
      Ok (commit txn d)
  | _, _ => err_request InvalidParam "Account data doesn't have all required fields."
  end.

(** [AccountData::delete] *)
Definition delete_data (room_id : option bytes) (user_id event_type : bytes) (count : Z) (d : Data) : Res Data :=
  update room_id user_id event_type (tombstone_value event_type) count d.

Definition get_raw (room_id : option bytes) (user_id kind : bytes) (d : Data) : Res bytes :=
  roomuserdataid ← qry in_cache (roomusertype_roomuserdataid d) (DTuple [room_datum room_id; DStr user_id; DStr kind]);
  get in_cache (roomuserdataid_accountdata d) roomuserdataid.

(** [AnyRawAccountDataEvent] *)
Inductive AnyRawAccountDataEvent := Room (raw : J) | Global (raw : J).

(** [type Key<'a> = (Option<&RoomId>, &UserId, u64, Ignore)] *)
Definition KeyShape : Shape := STuple [SOption SStr; SStr; SU64; SIgnore].

Definition same_room (room_id : option bytes) (d : Datum (J := J)) : bool :=
  match room_id, d with
  | None, DNone => true
  | Some r, DSome (DStr r') => bool_decide (r = r')
  | _, _ => false
  end.

Definition in_range (room_id : option bytes) (user_id : bytes) (to : option Z) (kv : Datum (J := J) * Datum (J := J)) : bool :=
  match kv.1 with
  | DTuple [r; DStr u; DU64 count; _] =>
      same_room room_id r && bool_decide (user_id = u) && match to with Some to => count <=? to | None => true end
  | _ => false
  end.

Definition read_event (room_id : option bytes) (kv : Datum (J := J) * Datum (J := J)) : Res AnyRawAccountDataEvent :=
  match kv.2 with
  | DBytes v =>
      Prelude.map_err (λ e, Database ("Database contains invalid account data: " +:+ display e))
        (j ← fmt_de json v; Ok (match room_id with Some _ => Room j | None => Global j end))
  | _ => Err (SerdeDe "invalid type")
  end.

Definition changes_since_fallible (room_id : option bytes) (user_id : bytes) (since : Z) (to : option Z) (d : Data)
  : Res (Stream AnyRawAccountDataEvent) :=
  let first_possible := DTuple [room_datum room_id; DStr user_id; DU64 (Z.min (since + 1) u64_max)] in
  st ← stream_from json cbor display debug_assertions KeyShape SBytes (roomuserdataid_accountdata d) first_possible;
  Ok (stream_map (λ r, kv ← r; read_event room_id kv) (try_take_while (in_range room_id user_id to) st)).

(** Collected; a failed item is logged and dropped, or panics in a debug build. *)
Definition changes_since (room_id : option bytes) (user_id : bytes) (since : Z) (to : option Z) (d : Data)
  : option (Res (list AnyRawAccountDataEvent)) :=
  match changes_since_fallible room_id user_id since to d with
  | Ok st => for_each_ok debug_assertions (λ e l, l ++ [e]) st []
  | _ => Some Panic
  end.

(** The keys a prefix scan yields, queued for deletion. *)
Definition del_scanned (map : Map) (st : Stream bytes) (txn : Txn) : option (Res Txn) :=
  match for_each_ok (A := Res Txn) debug_assertions (λ key r, txn ← r; del_raw map key txn) st (Ok txn) with
  | Some (Ok txn) => Some txn
  | Some _ => Some Panic
  | None => None
  end.

Definition erase_user (user_id : bytes) (room_id : option bytes) (d : Data) : option (Res Data) :=
  let prefix := DTuple [room_datum room_id; DStr user_id; DInterfix] in
  let scan := keys_prefix_raw json cbor display debug_assertions in
  match scan (roomuserdataid_accountdata d) prefix, scan (roomusertype_roomuserdataid d) prefix with
  | Ok datas, Ok types =>
      txn ← del_scanned data_map datas (Txn_new engine_id);
      match txn with
      | Ok txn => txn ← del_scanned type_map types txn; Some (txn ← txn; Ok (commit txn d))
      | _ => Some Panic
      end
  | _, _ => Some Panic
  end.

(** [None] when the scan never ends. *)
Definition last_count (room_id : option bytes) (user_id : bytes) (upper : option Z) (d : Data) : option (Res Z) :=
  let upper := default u64_max upper in
  let key := DTuple [room_datum room_id; DStr user_id; DU64 upper; DInterfix] in
  match rev_keys_from json cbor display debug_assertions KeyShape (roomuserdataid_accountdata d) key with
  | Ok st =>
      match next_ok debug_assertions (yielded st) with
      | Some (Ok (DTuple [_; _; DU64 count; _] as k)) =>
          Some (if in_range room_id user_id None (k, DNone) then Ok count
                else err_request NotFound "No account data found.")
      | Some _ => Some Panic
      | None => if ended st then Some (err_request NotFound "No account data found.") else None
      end
  | _ => Some Panic
  end.

(** ** Keys *)

Definition room_bytes (room_id : option bytes) : bytes := default [] room_id.

(** The key of a record, of its place in the other column, and what the keys of
    one user in one room start with. *)
Definition dkey (r : option bytes) (u : bytes) (c : Z) (t : bytes) : bytes := joined [room_bytes r; u; be_bytes 8 c; t].
Definition tkey (r : option bytes) (u t : bytes) : bytes := joined [room_bytes r; u; t].
Definition pkey (r : option bytes) (u : bytes) : bytes := joined [room_bytes r; u] ++ [SEP].

(** Ids that are text, none of them empty where there is one. *)
Record ids_ok (r : option bytes) (u t : bytes) : Prop := {
  ids_room : ∀ x, r = Some x → utf8_valid x = true ∧ x ≠ [];
  ids_user : utf8_valid u = true;
  ids_type : utf8_valid t = true;
  ids_fit : zlen (room_bytes r) + zlen u + zlen t + 11 ≤ isize_max
}.

Lemma room_no_sep r u t : ids_ok r u t → SEP ∉ room_bytes r.
Proof.
  intros [Hr _ _ _]. destruct r as [x|]; [|apply not_elem_of_nil]. apply utf8_no_sep. by apply (Hr x).
Qed.

Lemma room_bytes_inj r u t r' u' t' : ids_ok r u t → ids_ok r' u' t' → room_bytes r = room_bytes r' → r = r'.
Proof.
  intros [Hr _ _ _] [Hr' _ _ _]. destruct r as [x|], r' as [x'|]; cbn; [by intros ->| | |done].
  - intros ->. by destruct (Hr [] eq_refl).
  - intros <-. by destruct (Hr' [] eq_refl).
Qed.

Lemma pkey_eq r u : pkey r u = room_bytes r ++ SEP :: u ++ [SEP].
Proof. unfold pkey. rewrite joined2, <-(assoc_L (++)). done. Qed.

(** A key starts with the room and the user it is of, and with no others. *)
Lemma pkey_prefix r u t r' u' t' x :
  ids_ok r u t → ids_ok r' u' t' →
  pkey r u `prefix_of` room_bytes r' ++ SEP :: u' ++ SEP :: x ↔ r = r' ∧ u = u'.
Proof.
  intros Hok Hok'. rewrite pkey_eq. split.
  - intros Hp. apply sep_split in Hp as [Hr Hp]; [|by eapply room_no_sep..].
    apply sep_split in Hp as [-> _]; [|apply utf8_no_sep; by eapply ids_user..].
    split; [by eapply room_bytes_inj|done].
  - intros [-> ->]. exists x. rewrite <-!(assoc_L (++)). cbn. by rewrite <-!(assoc_L (++)).
Qed.

Lemma dkey_prefix r u t r' u' t' c :
  ids_ok r u t → ids_ok r' u' t' → pkey r u `prefix_of` dkey r' u' c t' ↔ r = r' ∧ u = u'.
Proof. intros Hok Hok'. unfold dkey. rewrite joined4. by apply (pkey_prefix r u t r' u' t'). Qed.

Lemma tkey_prefix r u t r' u' t' :
  ids_ok r u t → ids_ok r' u' t' → pkey r u `prefix_of` tkey r' u' t' ↔ r = r' ∧ u = u'.
Proof. intros Hok Hok'. unfold tkey. rewrite joined3. by apply (pkey_prefix r u t r' u' t'). Qed.

Lemma dkey_eq r u c t : dkey r u c t = pkey r u ++ be_bytes 8 c ++ SEP :: t.
Proof. unfold dkey. rewrite joined4, pkey_eq, <-!(assoc_L (++)). cbn. by rewrite <-!(assoc_L (++)). Qed.

Lemma tkey_eq r u t : tkey r u t = pkey r u ++ t.
Proof. unfold tkey. rewrite joined3, pkey_eq, <-!(assoc_L (++)). cbn. by rewrite <-!(assoc_L (++)). Qed.

Lemma dkey_inj r u t c r' u' t' c' :
  ids_ok r u t → ids_ok r' u' t' → u64 c → u64 c' → dkey r u c t = dkey r' u' c' t' →
  r = r' ∧ u = u' ∧ c = c' ∧ t = t'.
Proof.
  intros Hok Hok' Hc Hc' Heq. assert (r = r' ∧ u = u') as [<- <-].
  { apply (dkey_prefix r u t r' u' t' c'); [done..|]. rewrite <-Heq, dkey_eq. by exists (be_bytes 8 c ++ SEP :: t). }
  rewrite !dkey_eq in Heq. apply (inj (pkey r u ++.)) in Heq.
  apply app_inj_1 in Heq as [Hb Ht]; [|by rewrite !length_be_bytes]. apply be_bytes_inj in Hb; [|unfold u64, u64_max in *; cbn; lia..].
  split_and!; [done..|congruence].
Qed.

Lemma tkey_inj r u t r' u' t' :
  ids_ok r u t → ids_ok r' u' t' → tkey r u t = tkey r' u' t' → r = r' ∧ u = u' ∧ t = t'.
Proof.
  intros Hok Hok' Heq. assert (r = r' ∧ u = u') as [<- <-].
  { apply (tkey_prefix r u t r' u' t'); [done..|]. rewrite <-Heq, tkey_eq. by exists t. }
  rewrite !tkey_eq in Heq. apply (inj (pkey r u ++.)) in Heq. done.
Qed.

Lemma dkey_cmp r u c t c' t' :
  u64 c → u64 c' → lex_cmp (dkey r u c t) (dkey r u c' t') = match c ?= c' with Eq => lex_cmp t t' | o => o end.
Proof.
  intros. rewrite !dkey_eq, lex_cmp_same, lex_cmp_num by done. by destruct (c ?= c').
Qed.

(** ** What the columns hold *)

Notation Key := (option bytes * bytes * bytes)%type.
Notation Account := (gmap Key (Z * J)).

(** serde_json writes every value. *)
Hypothesis json_writes : ∀ j, ∃ b, fmt_ser json j = Ok b.
Hypothesis columns_differ : cf_data ≠ cf_type.

Definition text (j : J) : bytes := match fmt_ser json j with Ok b => b | _ => [] end.

Lemma text_spec j : fmt_ser json j = Ok (text j).
Proof. unfold text. by destruct (json_writes j) as [b ->]. Qed.

(** The two columns hold an account: every entry once, nothing else, and no
    number twice. *)
Record holds (d : Data) (A : Account) : Prop := {
  holds_data : ∀ b v, kv_get (roomuserdataid_accountdata d) b = Some v ↔
    ∃ r u t c j, A !! (r, u, t) = Some (c, j) ∧ b = dkey r u c t ∧ v = text j;
  holds_type : ∀ b v, kv_get (roomusertype_roomuserdataid d) b = Some v ↔
    ∃ r u t c j, A !! (r, u, t) = Some (c, j) ∧ b = tkey r u t ∧ v = dkey r u c t;
  holds_ids : ∀ r u t c j, A !! (r, u, t) = Some (c, j) → ids_ok r u t ∧ u64 c ∧ zlen (text j) ≤ isize_max;
  holds_numbers : ∀ k k' c j j', A !! k = Some (c, j) → A !! k' = Some (c, j') → k = k'
}.

Lemma room_flat r : flat (room_datum r) = Some (room_bytes r).
Proof. by destruct r. Qed.

Lemma encode_dkey r u c t :
  encode_or_panic json cbor display debug_assertions (DTuple [room_datum r; DStr u; DU64 c; DStr t]) = Ok (dkey r u c t).
Proof. apply encode_tuple. repeat constructor. apply room_flat. Qed.

Lemma encode_tkey r u t :
  encode_or_panic json cbor display debug_assertions (DTuple [room_datum r; DStr u; DStr t]) = Ok (tkey r u t).
Proof. apply encode_tuple. repeat constructor. apply room_flat. Qed.

Lemma type_lookup d A r u t :
  holds d A → ids_ok r u t →
  kv_get (roomusertype_roomuserdataid d) (tkey r u t) = (λ cj : Z * J, dkey r u cj.1 t) <$> A !! (r, u, t).
Proof.
  intros Hd Hok. destruct (kv_get _ _) as [v|] eqn:Hv.
  - apply (holds_type _ _ Hd) in Hv as (r' & u' & t' & c & j & HA & Hk & ->).
    destruct (holds_ids _ _ Hd _ _ _ _ _ HA) as [Hok' _].
    apply tkey_inj in Hk as (<- & <- & <-); [|done..]. by rewrite HA.
  - destruct (A !! (r, u, t)) as [[c j]|] eqn:HA; [|done]. exfalso.
    assert (kv_get (roomusertype_roomuserdataid d) (tkey r u t) = Some (dkey r u c t)); [|congruence].
    apply (holds_type _ _ Hd). by exists r, u, t, c, j.
Qed.

Lemma update_runs r u t j c d :
  is_Some (value_get j "type") → is_Some (value_get j "content") →
  update r u t j c d = Ok (
    let data := kv_put (roomuserdataid_accountdata d) (dkey r u c t) (text j) in
    mkData (match kv_get (roomusertype_roomuserdataid d) (tkey r u t) with
            | Some prev => kv_del data prev | None => data end)
      (kv_put (roomusertype_roomuserdataid d) (tkey r u t) (dkey r u c t))).
Proof.
  intros [x Hx] [y Hy]. unfold update. rewrite Hx, Hy. unfold Scan.qry, WriteBatch.put. rewrite encode_tkey, encode_dkey.
  rewrite !bind_Ok, get_spec, (encode_json json cbor display debug_assertions j (text j) (text_spec j)).
  assert (Hassert : ∀ m txn, map_engine m = engine_id → engine txn = engine_id → assert_map m txn = Ok ()).
  { intros m txn Hm Ht. unfold assert_map. by rewrite Hm, Ht, Z.eqb_refl. }
  destruct (kv_get _ (tkey r u t)) as [prev|]; cbn [not_found err_request]; rewrite bind_Ok;
    rewrite Hassert, !bind_Ok by done; rewrite Hassert, !bind_Ok by done.
  1: unfold del_raw; rewrite Hassert, !bind_Ok by done.
  all: unfold commit; cbn; rewrite !Z.eqb_refl, (proj2 (Z.eqb_neq cf_type cf_data)) by done; cbn; by rewrite ?Z.eqb_refl.
Qed.

Lemma replaced_get (col : S) k v (prev : option bytes) b :
  prev ≠ Some k →
  kv_get (match prev with Some prev => kv_del (kv_put col k v) prev | None => kv_put col k v end) b =
    if decide (b = k) then Some v else if decide (prev = Some b) then None else kv_get col b.
Proof.
  intros Hne. destruct (decide (b = k)) as [->|Hb].
  - destruct prev as [p|]; [|apply kv_get_put_eq]. rewrite kv_get_del_ne by congruence. apply kv_get_put_eq.
  - destruct prev as [p|]; [|by rewrite kv_get_put_ne]. case_decide as Hp.
    + injection Hp as ->. apply kv_get_del_eq.
    + rewrite kv_get_del_ne by congruence. by rewrite kv_get_put_ne.
Qed.

Lemma update_holds r u t j c d A :
  holds d A → ids_ok r u t → u64 c → zlen (text j) ≤ isize_max →
  (∀ k c' j', A !! k = Some (c', j') → c' < c) →
  is_Some (value_get j "type") → is_Some (value_get j "content") →
  ∃ d', update r u t j c d = Ok d' ∧ holds d' (<[(r, u, t) := (c, j)]> A).
Proof.
  intros Hd Hok Hc Hj Hfresh Ht Hx. rewrite update_runs by done. eexists. split; [reflexivity|].
  rewrite (type_lookup d A) by done. cbn zeta.
  set (prev := (λ cj : Z * J, dkey r u cj.1 t) <$> A !! (r, u, t)).
  assert (Hprev : ∀ r' u' t' c' j', A !! (r', u', t') = Some (c', j') →
    (prev = Some (dkey r' u' c' t') ↔ (r', u', t') = (r, u, t)) ∧ dkey r' u' c' t' ≠ dkey r u c t).
  { intros r' u' t' c' j' HA. destruct (holds_ids _ _ Hd _ _ _ _ _ HA) as (Hok' & Hc' & _).
    specialize (Hfresh _ _ _ HA). split.
    - subst prev. split.
      + destruct (A !! (r, u, t)) as [[c0 j0]|] eqn:HA0; [|done]. cbn. intros Heq. apply (inj Some) in Heq.
        destruct (holds_ids _ _ Hd _ _ _ _ _ HA0) as (_ & Hc0 & _).
        apply dkey_inj in Heq as (-> & -> & _ & ->); done.
      + intros [= -> -> ->]. by rewrite HA.
    - intros Heq. apply dkey_inj in Heq as (_ & _ & -> & _); [lia|done..]. }
  assert (Hnew : prev ≠ Some (dkey r u c t)).
  { subst prev. destruct (A !! (r, u, t)) as [[c0 j0]|] eqn:HA0; [|done]. cbn. intros Heq. apply (inj Some) in Heq.
    by destruct (Hprev _ _ _ _ _ HA0). }
  split; cbn [roomuserdataid_accountdata roomusertype_roomuserdataid].
  - intros b v. rewrite replaced_get by done. split.
    + case_decide as Hb; [intros [= <-]; exists r, u, t, c, j; by rewrite lookup_insert_eq|]. case_decide as Hp; [done|].
      intros (r' & u' & t' & c' & j' & HA & -> & ->)%(holds_data _ _ Hd). exists r', u', t', c', j'. split; [|done].
      rewrite lookup_insert_ne; [done|]. intros Heq. apply Hp. by apply (Hprev _ _ _ _ _ HA).
    + intros (r' & u' & t' & c' & j' & [[[= <- <- <-] [= <- <-]]|[Hne HA]]%lookup_insert_Some & -> & ->).
      * by rewrite decide_True.
      * destruct (Hprev _ _ _ _ _ HA) as [Hiff Hdk]. rewrite decide_False by done.
        rewrite decide_False by (rewrite Hiff; congruence). apply (holds_data _ _ Hd). by exists r', u', t', c', j'.
  - intros b v. split.
    + destruct (decide (tkey r u t = b)) as [<-|Hb].
      * rewrite kv_get_put_eq. intros [= <-]. exists r, u, t, c, j. by rewrite lookup_insert_eq.
      * rewrite kv_get_put_ne by done. intros (r' & u' & t' & c' & j' & HA & -> & ->)%(holds_type _ _ Hd).
        exists r', u', t', c', j'. split; [|done]. rewrite lookup_insert_ne; [done|]. congruence.
    + intros (r' & u' & t' & c' & j' & [[[= <- <- <-] [= <- <-]]|[Hne HA]]%lookup_insert_Some & -> & ->).
      * apply kv_get_put_eq.
      * rewrite kv_get_put_ne; [apply (holds_type _ _ Hd); by exists r', u', t', c', j'|].
        intros Heq. apply tkey_inj in Heq as (-> & -> & ->); [done..|]. by apply (holds_ids _ _ Hd _ _ _ _ _ HA).
  - intros r' u' t' c' j' [[[= <- <- <-] [= <- <-]]|[Hne HA]]%lookup_insert_Some; [done|]. by apply (holds_ids _ _ Hd).
  - intros k k' c' j1 j2 [[<- He]|[Hne HA]]%lookup_insert_Some [[<- He']|[Hne' HA']]%lookup_insert_Some; [done|..].
    + apply Hfresh in HA'. injection He. lia.
    + apply Hfresh in HA. injection He'. lia.
    + by eapply (holds_numbers _ _ Hd).
Qed.

Lemma get_raw_spec d A r u t :
  holds d A → ids_ok r u t →
  get_raw r u t d = match A !! (r, u, t) with Some (_, j) => Ok (text j) | None => not_found end.
Proof.
  intros Hd Hok. unfold get_raw, Scan.qry. rewrite encode_tkey, bind_Ok, get_spec, (type_lookup d A) by done.
  destruct (A !! (r, u, t)) as [[c j]|] eqn:HA; [|done]. cbn [fmap option_fmap option_map fst]. rewrite bind_Ok, get_spec.
  assert (kv_get (roomuserdataid_accountdata d) (dkey r u c t) = Some (text j)) as ->; [|done].
  apply (holds_data _ _ Hd). by exists r, u, t, c, j.
Qed.

(** ** What changed since *)

Hypothesis json_reads : ∀ j b, fmt_ser json j = Ok b → fmt_de json b = Ok j.
Hypothesis healthy : ∀ it : I, it_status it = None.

Lemma dkey_reads r u c t :
  ids_ok r u t → u64 c →
  from_slice json cbor display debug_assertions KeyShape (dkey r u c t) = Ok (DTuple [room_datum r; DStr u; DU64 c; DIgnored]).
Proof.
  intros Hok Hc. destruct Hok as [Hr Hu Ht Hfit] eqn:Hids. clear Hids.
  assert (Hlen : zlen (dkey r u c t) = zlen (room_bytes r) + zlen u + zlen t + 11).
  { unfold dkey. rewrite joined4. repeat rewrite ?zlen_app, ?zlen_cons. rewrite zlen_be_bytes. lia. }
  pose proof (read_tuple json cbor display debug_assertions [SOption SStr; SStr; SU64; SIgnore]
    [room_datum r; DStr u; DU64 c; DIgnored] [room_bytes r; u; be_bytes 8 c; t] [] []) as Hread.
  cbn [app] in Hread. apply Hread; [|apply Forall2_nil_2|rewrite !zlen_cons; change (zlen (A := Shape) []) with 0; usize_lia|unfold dkey in Hlen; lia].
  apply fields_cons; [|apply fields_cons; [|apply fields_cons; [|apply fields_last]]].
  - apply field_reads; [|apply room_flat]. destruct r as [x|]; [|constructor]. destruct (Hr x eq_refl) as [Hx Hne].
    destruct x as [|b x]; [done|]. eapply reads_some; [by constructor|done|]. intros ->. apply utf8_no_sep in Hx. apply Hx. left.
  - apply field_reads; [by constructor|done].
  - apply field_reads; [by constructor|done].
  - apply field_ignore. by apply utf8_no_sep.
Qed.

Notation read_kv := (result_deserialize json cbor display debug_assertions KeyShape SBytes).

Definition parsed (kv : KeyVal) : Datum (J := J) * Datum (J := J) := match read_kv (Ok kv) with Ok x => x | _ => (DNone, DNone) end.

(** An entry of the account as it stands in the column. *)
Definition entry (A : Account) (kv : KeyVal) (r : option bytes) (u t : bytes) (c : Z) (j : J) : Prop :=
  A !! (r, u, t) = Some (c, j) ∧ kv = (dkey r u c t, text j).

Lemma records_entries d A kv :
  holds d A → kv ∈ records (roomuserdataid_accountdata d) ↔ ∃ r u t c j, entry A kv r u t c j.
Proof.
  intros Hd. destruct kv as [b v]. rewrite records_get, (holds_data _ _ Hd). unfold entry. split.
  - intros (r & u & t & c & j & HA & -> & ->). by exists r, u, t, c, j.
  - intros (r & u & t & c & j & HA & [= -> ->]). by exists r, u, t, c, j.
Qed.

Lemma entry_parsed d A kv r u t c j :
  holds d A → entry A kv r u t c j →
  read_kv (Ok kv) = Ok (parsed kv) ∧ parsed kv = (DTuple [room_datum r; DStr u; DU64 c; DIgnored], DBytes (text j)).
Proof.
  intros Hd [HA ->]. destruct (holds_ids _ _ Hd _ _ _ _ _ HA) as (Hok & Hc & Hj).
  assert (Hread : read_kv (Ok (dkey r u c t, text j)) = Ok (DTuple [room_datum r; DStr u; DU64 c; DIgnored], DBytes (text j))).
  { unfold result_deserialize, deserialize_key. rewrite bind_Ok. cbn [fst snd]. rewrite dkey_reads by done. rewrite bind_Ok.
    rewrite (read_single json cbor display debug_assertions SBytes (DBytes (text j))); [done|by constructor|done|done]. }
  unfold parsed. by rewrite Hread.
Qed.

Lemma same_room_spec r r' : same_room r (room_datum r') = bool_decide (r = r').
Proof. destruct r as [x|], r' as [x'|]; cbn; try done. repeat case_bool_decide; congruence. Qed.

Lemma in_range_spec d A kv r u t c j room user to :
  holds d A → entry A kv r u t c j →
  in_range room user to (parsed kv) = true ↔ room = r ∧ user = u ∧ (∀ n, to = Some n → c ≤ n).
Proof.
  intros Hd He. destruct (entry_parsed d A kv r u t c j Hd He) as [_ ->]. unfold in_range. cbn [fst].
  rewrite same_room_spec, !andb_true_iff, !bool_decide_eq_true. split.
  - intros [[-> ->] Hto]. split_and!; [done..|]. intros n ->. by apply Z.leb_le.
  - intros (-> & -> & Hto). split; [done|]. destruct to as [n|]; [|done]. by apply Z.leb_le, Hto.
Qed.

Lemma bound_le r u c t n : u64 c → u64 n → byte_le (pkey r u ++ be_bytes 8 n) (dkey r u c t) ↔ n ≤ c.
Proof.
  intros Hc Hn. unfold byte_le. rewrite dkey_eq, lex_cmp_same, <-(app_nil_r (be_bytes 8 n)), lex_cmp_num by done.
  destruct (Z.compare_spec n c); split; try done; lia.
Qed.

Lemma sorted_map {A B} (R : B → B → Prop) (f : A → B) l :
  StronglySorted (λ a b, R (f a) (f b)) l → StronglySorted R (f <$> l).
Proof. induction 1 as [|x l Hs IH Hx]; cbn; constructor; [done|]. by apply Forall_fmap. Qed.

Definition tagged (room : option bytes) (j : J) : AnyRawAccountDataEvent := match room with Some _ => Room j | None => Global j end.

(** The records of a user in a room, with a number in the range asked for. *)
Definition selected (d : Data) (room : option bytes) (user : bytes) (since : Z) (to : option Z) : list KeyVal :=
  filter (λ kv, in_range room user to (parsed kv) = true)
    (filter (λ kv, byte_le (pkey room user ++ be_bytes 8 (since + 1)) kv.1) (records (roomuserdataid_accountdata d))).

Lemma range_closed d A room user since to t0 :
  holds d A → ids_ok room user t0 →
  StronglySorted (λ a b, in_range room user to (parsed b) = true → in_range room user to (parsed a) = true)
    (filter (λ kv, byte_le (pkey room user ++ be_bytes 8 (since + 1)) kv.1) (records (roomuserdataid_accountdata d))).
Proof.
  intros Hd Hids. eapply sorted_weaken; [apply sorted_filter, records_sorted|].
  intros a b [Hba Ha]%list_elem_of_filter [_ Hb]%list_elem_of_filter Hlt Hin.
  apply (records_entries d A a Hd) in Ha as (r & u & t & c & j & Hea).
  apply (records_entries d A b Hd) in Hb as (r' & u' & t' & c' & j' & Heb).
  apply (in_range_spec d A b _ _ _ _ _ _ _ _ Hd Heb) in Hin as (<- & <- & Hto).
  apply (in_range_spec d A a _ _ _ _ _ _ _ _ Hd Hea). destruct Hea as [HA ->], Heb as [HA' ->]. cbn [fst] in *.
  destruct (holds_ids _ _ Hd _ _ _ _ _ HA) as (Hok & Hc & _). destruct (holds_ids _ _ Hd _ _ _ _ _ HA') as (Hok' & Hc' & _).
  assert (Hpre : pkey room user `prefix_of` dkey r u c t).
  { apply (prefix_between _ _ (dkey room user c' t')).
    - by apply (dkey_prefix room user t0 room user t' c').
    - trans (pkey room user ++ be_bytes 8 (since + 1)); [|done]. apply prefix_le. by exists (be_bytes 8 (since + 1)).
    - by apply (key_lt_le (_, text j) (_, text j')). }
  apply (dkey_prefix room user t0 r u t c) in Hpre as [<- <-]; [|done..]. split_and!; [done..|]. intros n Hn.
  specialize (Hto n Hn). unfold key_lt in Hlt. cbn [fst] in Hlt. rewrite dkey_cmp in Hlt by done.
  destruct (Z.compare_spec c c'); [lia..|done].
Qed.

Lemma changes_stream d A room user since to t0 :
  holds d A → ids_ok room user t0 → 0 ≤ since < u64_max →
  changes_since_fallible room user since to d =
    Ok (stream_map (λ r, kv ← r; read_event room kv) (done_stream (parsed <$> selected d room user since to))).
Proof.
  intros Hd Hids Hsince. unfold changes_since_fallible, stream_from, stream_from_raw.
  rewrite Z.min_l by lia. set (bound := pkey room user ++ be_bytes 8 (since + 1)).
  assert (Hkey : encode_or_panic json cbor display debug_assertions
    (DTuple [room_datum room; DStr user; DU64 (since + 1)]) = Ok bound).
  { rewrite (encode_tuple _ _ _ _ _ [room_bytes room; user; be_bytes 8 (since + 1)]) by (repeat constructor; apply room_flat).
    rewrite joined3. unfold bound. rewrite pkey_eq, <-!(assoc_L (++)). cbn. by rewrite <-!(assoc_L (++)). }
  rewrite Hkey, !bind_Ok. unfold raw_stream_from. rewrite raw_stream_spec by done. cbn [scanned].
  rewrite (stream_map_done _ _ (parsed <$> filter (λ kv, byte_le bound kv.1) (records (roomuserdataid_accountdata d)))).
  - do 2 f_equal. unfold done_stream. rewrite take_ended. f_equal. rewrite take_closed.
    + unfold selected. by rewrite filter_fmap.
    + apply sorted_map. by apply (range_closed d A room user since to t0).
  - apply Forall2_fmap_r, Forall_Forall2_diag, Forall_forall.
    intros kv [_ Hkv]%list_elem_of_filter. apply (records_entries d A kv Hd) in Hkv as (r & u & t & c & j & He).
    by apply (entry_parsed d A kv r u t c j).
Qed.

Lemma elem_of_selected d A room user since to kv :
  holds d A → 0 ≤ since < u64_max →
  kv ∈ selected d room user since to ↔
    ∃ t c j, entry A kv room user t c j ∧ since < c ∧ (∀ n, to = Some n → c ≤ n).
Proof.
  intros Hd Hsince. unfold selected. rewrite !list_elem_of_filter, (records_entries d A) by done. split.
  - intros (Hin & Hle & r & u & t & c & j & He). apply (in_range_spec d A kv _ _ _ _ _ _ _ _ Hd He) in Hin as (<- & <- & Hto).
    exists t, c, j. split_and!; [done| |done]. destruct He as [HA ->]. destruct (holds_ids _ _ Hd _ _ _ _ _ HA) as (_ & Hc & _).
    cbn [fst] in Hle. apply bound_le in Hle; [lia|done|unfold u64; lia].
  - intros (t & c & j & He & Hc & Hto). split_and!.
    + by apply (in_range_spec d A kv room user t c j).
    + destruct He as [HA ->]. destruct (holds_ids _ _ Hd _ _ _ _ _ HA) as (_ & Hc' & _). apply bound_le; [done|unfold u64; lia|lia].
    + by exists room, user, t, c, j.
Qed.

Lemma changes_spec d A room user since to t0 :
  holds d A → ids_ok room user t0 → 0 ≤ since < u64_max →
  ∃ l : list (bytes * Z * J),
    changes_since_fallible room user since to d = Ok (done_stream (tagged room ∘ snd <$> l))
    ∧ StronglySorted (λ a b, a.1.2 < b.1.2) l
    ∧ ∀ t c j, (t, c, j) ∈ l ↔ A !! (room, user, t) = Some (c, j) ∧ since < c ∧ (∀ n, to = Some n → c ≤ n).
Proof.
  intros Hd Hids Hsince. rewrite (changes_stream d A room user since to t0) by done.
  destruct (scan_entries (λ kv e, entry A kv room user e.1.1 e.1.2 e.2 ∧ since < e.1.2 ∧ (∀ n, to = Some n → e.1.2 ≤ n))
    (λ a b, a.1.2 < b.1.2) (selected d room user since to)) as (l & Hl & Hs).
  { do 2 apply sorted_filter. apply records_sorted. }
  { intros kv (t & c & j & He)%(elem_of_selected d A); [|done..]. by exists (t, c, j). }
  { intros kv kv' [[t c] j] [[t' c'] j'] [[HA ->] _] [[HA' ->] _] Hx. cbn [fst snd] in *.
    destruct (holds_ids _ _ Hd _ _ _ _ _ HA) as (_ & Hc & _). destruct (holds_ids _ _ Hd _ _ _ _ _ HA') as (_ & Hc' & _).
    unfold key_lt in Hx. cbn [fst] in Hx. rewrite dkey_cmp in Hx by done.
    destruct (Z.compare_spec c c') as [->|?|?]; [|done|done].
    pose proof (holds_numbers _ _ Hd _ _ _ _ _ HA HA') as [= ->]. by rewrite lex_cmp_refl in Hx. }
  exists l. split_and!.
  - f_equal. apply stream_map_done, Forall2_fmap. eapply Forall2_impl; [exact Hl|]. intros kv [[t c] j] [He _].
    rewrite bind_Ok. destruct (entry_parsed d A kv room user t c j Hd He) as [_ ->]. unfold read_event. cbn [snd].
    rewrite (json_reads j) by apply text_spec. by destruct room.
  - exact Hs.
  - intros t c j. split.
    + intros (i & Hi)%list_elem_of_lookup. destruct (Forall2_lookup_r _ _ _ _ _ Hl Hi) as (kv & _ & [HA _] & Hr). done.
    + intros (HA & Hr). assert (Hin : (dkey room user c t, text j) ∈ selected d room user since to).
      { apply (elem_of_selected d A); [done..|]. by exists t, c, j. }
      apply list_elem_of_lookup in Hin as (i & Hi). destruct (Forall2_lookup_l _ _ _ _ _ Hl Hi) as ([[t' c'] j'] & Hi' & [HA' Heq] & _).
      cbn in *. injection Heq as Heq _. destruct (holds_ids _ _ Hd _ _ _ _ _ HA) as (Hok & Hc & _).
      destruct (holds_ids _ _ Hd _ _ _ _ _ HA') as (Hok' & Hc' & _).
      apply dkey_inj in Heq as (_ & _ & <- & <-); [|done..]. rewrite HA in HA'. injection HA' as <-. by eapply list_elem_of_lookup_2.
Qed.

(** ** Erasing a user *)

Lemma del_scanned_spec map ks txn :
  map_engine map = engine txn →
  del_scanned map (done_stream ks) txn =
    Some (Ok (mkTxn (batch txn ++ (Delete (map_cf map) <$> ks)) (engine txn) (after_execute txn))).
Proof.
  intros Hm. unfold del_scanned, for_each_ok. cbn [yielded ended done_stream]. rewrite each_ok_oks. cbn. do 2 f_equal.
  revert txn Hm. induction ks as [|k ks IH]; intros txn Hm; cbn [foldl].
  - rewrite app_nil_r. by destruct txn.
  - unfold del_raw at 2, assert_map. rewrite bind_Ok, Hm, Z.eqb_refl, bind_Ok. rewrite IH by done. cbn.
    by rewrite <-(assoc_L (++)).
Qed.

Lemma commit_dels d ks ks' e a :
  let d' := commit (mkTxn ((Delete cf_data <$> ks) ++ (Delete cf_type <$> ks')) e a) d in
  (∀ b, kv_get (roomuserdataid_accountdata d') b = if decide (b ∈ ks) then None else kv_get (roomuserdataid_accountdata d) b)
  ∧ (∀ b, kv_get (roomusertype_roomuserdataid d') b = if decide (b ∈ ks') then None else kv_get (roomusertype_roomuserdataid d) b).
Proof.
  unfold commit. cbn [batch]. rewrite foldl_app. revert d. induction ks as [|k ks IH]; intros d; cbn [fmap list_fmap foldl].
  - revert d. induction ks' as [|k ks' IH]; intros d; cbn [fmap list_fmap foldl].
    + split; intros b; by rewrite decide_False by apply not_elem_of_nil.
    + specialize (IH (apply_op d (Delete cf_type k))). destruct IH as [H1 H2]. split; intros b; [rewrite H1|rewrite H2];
        cbn; rewrite (proj2 (Z.eqb_neq cf_type cf_data)), Z.eqb_refl by done; cbn; [done|].
      destruct (decide (b = k)) as [->|Hne]; [rewrite kv_get_del_eq, (decide_True (P := k ∈ k :: ks')) by left; by case_decide|].
      rewrite kv_get_del_ne by done. by apply gone_cons.
  - specialize (IH (apply_op d (Delete cf_data k))). destruct IH as [H1 H2]. split; intros b; [rewrite H1|rewrite H2];
      cbn; rewrite Z.eqb_refl by done; cbn; [|done].
    destruct (decide (b = k)) as [->|Hne]; [rewrite kv_get_del_eq, (decide_True (P := k ∈ k :: ks)) by left; by case_decide|].
    rewrite kv_get_del_ne by done. by apply gone_cons.
Qed.

Lemma encode_pkey r u :
  encode_or_panic json cbor display debug_assertions (DTuple [room_datum r; DStr u; DInterfix]) = Ok (pkey r u).
Proof.
  apply (encode_prefix json cbor display debug_assertions [room_datum r; DStr u] [room_bytes r; u]); [done|].
  repeat constructor. apply room_flat.
Qed.

Lemma erase_holds d A r u t0 :
  holds d A → ids_ok r u t0 →
  ∃ d', erase_user u r d = Some (Ok d') ∧ holds d' (filter (λ kv, kv.1.1 ≠ (r, u)) A).
Proof.
  intros Hd Hids. unfold erase_user, keys_prefix_raw. rewrite encode_pkey, !bind_Ok, !raw_keys_prefix_spec by done.
  rewrite del_scanned_spec by done. cbn [mbind option_bind]. rewrite del_scanned_spec by done. cbn [mbind option_bind].
  eexists. split; [reflexivity|]. cbn [batch Txn_new app data_map type_map map_cf].
  match goal with |- holds (commit (mkTxn (?x ++ ?y) ?e ?a) d) _ =>
    destruct (commit_dels d (under (pkey r u) (roomuserdataid_accountdata d)).*1
      (under (pkey r u) (roomusertype_roomuserdataid d)).*1 e a) as [H1 H2] end.
  assert (Hkeep : ∀ r' u' t' c j, A !! (r', u', t') = Some (c, j) →
    starts_with (pkey r u) (dkey r' u' c t') = bool_decide ((r', u') = (r, u))
    ∧ starts_with (pkey r u) (tkey r' u' t') = bool_decide ((r', u') = (r, u))).
  { intros r' u' t' c j HA. destruct (holds_ids _ _ Hd _ _ _ _ _ HA) as [Hok _]. unfold starts_with.
    split; apply bool_decide_ext; [rewrite (dkey_prefix r u t0) by done|rewrite (tkey_prefix r u t0) by done];
      (split; [by intros [-> ->]|by intros [= -> ->]]). }
  split.
  - intros b v. rewrite H1, under_gone. split.
    + destruct (starts_with _ b) eqn:Hs; [done|]. intros (r' & u' & t' & c & j & HA & -> & ->)%(holds_data _ _ Hd).
      exists r', u', t', c, j. split; [|done]. apply map_lookup_filter_Some. split; [done|]. cbn.
      destruct (Hkeep _ _ _ _ _ HA) as [Hk _]. rewrite Hs in Hk. by case_bool_decide.
    + intros (r' & u' & t' & c & j & [HA Hne]%map_lookup_filter_Some & -> & ->). cbn in Hne.
      destruct (Hkeep _ _ _ _ _ HA) as [-> _]. rewrite bool_decide_false by done. apply (holds_data _ _ Hd). by exists r', u', t', c, j.
  - intros b v. rewrite H2, under_gone. split.
    + destruct (starts_with _ b) eqn:Hs; [done|]. intros (r' & u' & t' & c & j & HA & -> & ->)%(holds_type _ _ Hd).
      exists r', u', t', c, j. split; [|done]. apply map_lookup_filter_Some. split; [done|]. cbn.
      destruct (Hkeep _ _ _ _ _ HA) as [_ Hk]. rewrite Hs in Hk. by case_bool_decide.
    + intros (r' & u' & t' & c & j & [HA Hne]%map_lookup_filter_Some & -> & ->). cbn in Hne.
      destruct (Hkeep _ _ _ _ _ HA) as [_ ->]. rewrite bool_decide_false by done. apply (holds_type _ _ Hd). by exists r', u', t', c, j.
  - intros r' u' t' c j [HA _]%map_lookup_filter_Some. by apply (holds_ids _ _ Hd).
  - intros k k' c j j' [HA _]%map_lookup_filter_Some [HA' _]%map_lookup_filter_Some. by eapply (holds_numbers _ _ Hd).
Qed.

(** ** The last number below a bound *)

Lemma encode_bound r u n :
  encode_or_panic json cbor display debug_assertions (DTuple [room_datum r; DStr u; DU64 n; DInterfix])
    = Ok (pkey r u ++ be_bytes 8 n ++ [SEP]).
Proof.
  etrans; [apply (encode_prefix json cbor display debug_assertions [room_datum r; DStr u; DU64 n] [room_bytes r; u; be_bytes 8 n]);
    [done|repeat constructor; apply room_flat]|].
  rewrite joined3, pkey_eq, <-!(assoc_L (++)). cbn. by rewrite <-!(assoc_L (++)).
Qed.

(** The bound itself is only reached under the empty type. *)
Lemma below_bound r u c t n :
  u64 c → u64 n → t ≠ [] → byte_le (dkey r u c t) (pkey r u ++ be_bytes 8 n ++ [SEP]) ↔ c < n.
Proof.
  intros Hc Hn Ht. unfold byte_le. rewrite dkey_eq, lex_cmp_same, lex_cmp_num by done.
  destruct t as [|x t]; [done|]. destruct (Z.compare_spec c n); cbn; split; try done; lia.
Qed.

Lemma reverse_head_max (l : list KeyVal) k v rest :
  StronglySorted key_lt l → reverse l = (k, v) :: rest → ∀ x, x ∈ l → byte_le x.1 k.
Proof.
  intros Hs Hr x Hx. apply (f_equal reverse) in Hr. rewrite reverse_involutive, reverse_cons in Hr. subst l.
  apply elem_of_app in Hx as [Hx| ->%list_elem_of_singleton]; [|cbn; unfold byte_le; by rewrite lex_cmp_refl].
  revert Hs. induction (reverse rest) as [|y l IH]; [by apply elem_of_nil in Hx|]. intros [Hs Hy]%StronglySorted_inv.
  apply elem_of_cons in Hx as [->|Hx]; [|by apply IH]. rewrite Forall_forall in Hy.
  apply (key_lt_le y (k, v)), Hy. apply elem_of_app. right. left.
Qed.

Lemma last_count_spec d A r u t0 n :
  holds d A → ids_ok r u t0 → u64 (default u64_max n) →
  (∀ t c j, A !! (r, u, t) = Some (c, j) → t ≠ []) →
  (∃ t c j, A !! (r, u, t) = Some (c, j) ∧ c < default u64_max n
     ∧ (∀ t' c' j', A !! (r, u, t') = Some (c', j') → c' < default u64_max n → c' ≤ c)
     ∧ last_count r u n d = Some (Ok c))
  ∨ ((∀ t c j, A !! (r, u, t) = Some (c, j) → default u64_max n ≤ c)
     ∧ last_count r u n d = Some (err_request NotFound "No account data found.")).
Proof.
  intros Hd Hids Hn Htypes. set (upper := default u64_max n) in *. unfold last_count. fold upper.
  unfold rev_keys_from, rev_keys_from_raw. rewrite encode_bound, !bind_Ok. unfold rev_raw_keys_from. rewrite raw_keys_spec by done.
  set (bound := pkey r u ++ be_bytes 8 upper ++ [SEP]). cbn [scanned].
  set (below := filter (λ kv, byte_le kv.1 bound) (records (roomuserdataid_accountdata d))).
  assert (Hbelow : ∀ t c j, A !! (r, u, t) = Some (c, j) → c < upper → (dkey r u c t, text j) ∈ below).
  { intros t c j HA Hc. destruct (holds_ids _ _ Hd _ _ _ _ _ HA) as (_ & Hu & _). apply list_elem_of_filter. split.
    - apply below_bound; [done..|by eapply Htypes|done].
    - apply (records_entries d A); [done|]. by exists r, u, t, c, j. }
  assert (Hs : StronglySorted key_lt below) by apply sorted_filter, records_sorted.
  destruct (reverse below) as [|[k v] rest] eqn:Hrev; cbn [fmap list_fmap yielded done_stream stream_map ended next_ok fst].
  { right. split; [|done]. intros t c j HA. destruct (decide (c < upper)) as [Hc|]; [|lia]. exfalso.
    apply Hbelow in HA; [|done]. apply elem_of_reverse in HA. rewrite Hrev in HA. by apply elem_of_nil in HA. }
  assert (Hin : (k, v) ∈ below) by (apply elem_of_reverse; rewrite Hrev; left).
  apply list_elem_of_filter in Hin as [Hkb Hrec]. apply (records_entries d A _ Hd) in Hrec as (r' & u' & t & c & j & HA & [= -> ->]).
  destruct (holds_ids _ _ Hd _ _ _ _ _ HA) as (Hok & Hc & _). 
  assert (Hread : result_deserialize_key json cbor display debug_assertions KeyShape (Ok (dkey r' u' c t))
    = Ok (DTuple [room_datum r'; DStr u'; DU64 c; DIgnored])).
  { unfold result_deserialize_key, deserialize_key. by rewrite bind_Ok, dkey_reads. }
  rewrite !Hread. clear Hread. unfold in_range. cbn [fst].
  rewrite same_room_spec, andb_true_r. cbn [fst] in Hkb.
  pose proof (reverse_head_max below _ _ _ Hs Hrev) as Hmax.
  destruct (decide (r = r' ∧ u = u')) as [[<- <-]|Hne].
  - rewrite !bool_decide_true by done. left. exists t, c, j. split_and!; [done|apply (below_bound r u c t upper); [done..|by eapply Htypes|done]| |done].
    intros t' c' j' HA' Hc'. pose proof (Hmax _ (Hbelow _ _ _ HA' Hc')) as Hle. cbn [fst] in Hle.
    destruct (holds_ids _ _ Hd _ _ _ _ _ HA') as (_ & Hu' & _). unfold byte_le in Hle. rewrite dkey_cmp in Hle by done.
    destruct (Z.compare_spec c' c); [lia..|done].
  - right. split; [|by destruct (bool_decide_reflect (r = r')), (bool_decide_reflect (u = u')); [by destruct Hne|done..]].
    intros t' c' j' HA'. destruct (decide (c' < upper)) as [Hc'|]; [|lia]. exfalso. apply Hne.
    pose proof (Hmax _ (Hbelow _ _ _ HA' Hc')) as Hle. cbn [fst] in Hle.
    apply (dkey_prefix r u t0 r' u' t c); [done..|]. apply (prefix_between _ _ bound); [by exists (be_bytes 8 upper ++ [SEP])| |done].
    trans (dkey r u c' t'); [|done]. apply prefix_le. rewrite dkey_eq. by eexists.
Qed.

(** ** The watch of src/service/sync/watch.rs on this column *)

(** [(Separator, user_id, Interfix)] *)
Definition watch_types (user_id : bytes) : Res bytes :=
  encode_or_panic json cbor display debug_assertions (DTuple [DSeparator; DStr user_id; DInterfix]).

Lemma watch_types_spec u : watch_types u = Ok (SEP :: SEP :: u ++ [SEP]).
Proof. unfold watch_types, encode_or_panic, serialize_to_vec, serialize. by destruct debug_assertions. Qed.

(** The prefix watched has two separators where a stored key has one: no key
    that is ever written has it. *)
Lemma separator_watch_dead d A u r' u' t c j :
  holds d A → A !! (r', u', t) = Some (c, j) → u' ≠ [] →
  ∃ p, watch_types u = Ok p ∧ ¬ p `prefix_of` tkey r' u' t.
Proof.
  intros Hd HA Hu'. destruct (holds_ids _ _ Hd _ _ _ _ _ HA) as [Hok _]. eexists. split; [apply watch_types_spec|].
  unfold tkey. rewrite joined3. intros Hp. pose proof (utf8_no_sep _ (ids_user _ _ _ Hok)) as Hns.
  pose proof (room_no_sep _ _ _ Hok) as Hnr. destruct (room_bytes r') as [|x room]; cbn in Hp.
  - apply prefix_cons_inv_2 in Hp. destruct u' as [|y u']; [done|]. apply prefix_cons_inv_1 in Hp. apply Hns. rewrite Hp. left.
  - apply prefix_cons_inv_1 in Hp. apply Hnr. rewrite Hp. left.
Qed.

(** ** The component's contract *)

(** C28: the two columns implement a map from room, user and type to the last
    number and content.  Storing under a fresh number replaces the entry of
    exactly that room, user and type, and content without its two fields is
    refused; reading returns the entry or not-found; erasing takes away all
    entries of that user in that room, and no others. *)
Theorem account_data_refines d A r u t :
  holds d A → ids_ok r u t →
  (∀ j c, u64 c → zlen (text j) ≤ isize_max → (∀ k c' j', A !! k = Some (c', j') → c' < c) →
     if bool_decide (is_Some (value_get j "type") ∧ is_Some (value_get j "content")) then
       ∃ d', update r u t j c d = Ok d' ∧ holds d' (<[(r, u, t) := (c, j)]> A)
     else update r u t j c d = err_request InvalidParam "Account data doesn't have all required fields.")
  ∧ get_raw r u t d = match A !! (r, u, t) with Some (_, j) => Ok (text j) | None => not_found end
  ∧ ∃ d', erase_user u r d = Some (Ok d') ∧ holds d' (filter (λ kv, kv.1.1 ≠ (r, u)) A).
Proof.
  intros Hd Hok. split_and!.
  - intros j c Hc Hj Hfresh. case_bool_decide as Hf; [destruct Hf; by apply update_holds|].
    unfold update. destruct (value_get j "type"), (value_get j "content"); try done. exfalso. apply Hf. eauto.
  - by apply get_raw_spec.
  - by apply (erase_holds d A r u t).
Qed.

(** Asking for the changes since a number yields the contents of exactly
    the entries of that user in that room whose number is above it and not
    above the limit, in the order of their numbers, and every entry once. *)
Theorem account_changes_exact d A room user since to t0 :
  holds d A → ids_ok room user t0 → 0 ≤ since < u64_max →
  ∃ l : list (bytes * Z * J),
    changes_since room user since to d = Some (Ok (tagged room ∘ snd <$> l))
    ∧ StronglySorted (λ a b, a.1.2 < b.1.2) l
    ∧ ∀ t c j, (t, c, j) ∈ l ↔ A !! (room, user, t) = Some (c, j) ∧ since < c ∧ (∀ n, to = Some n → c ≤ n).
Proof.
  intros Hd Hids Hsince. destruct (changes_spec d A room user since to t0 Hd Hids Hsince) as (l & Hl & Hs & Hin).
  exists l. split_and!; [|done..]. unfold changes_since. rewrite Hl. unfold for_each_ok. cbn [yielded ended done_stream].
  rewrite each_ok_oks. do 2 f_equal. generalize (tagged room ∘ snd <$> l). clear. intros k.
  assert (Hacc : ∀ acc, foldl (λ a x, a ++ [x]) acc k = acc ++ k).
  { induction k as [|x k IH]; intros acc; cbn; [by rewrite app_nil_r|]. by rewrite IH, <-(assoc_L (++)). }
  apply Hacc.
Qed.

End AccountData.

(** ** A user with one global entry *)

(** A format whose values are their own text, all with both fields. *)
Definition text_format : Format bytes := mkFormat Ok Ok.
Definition both_fields (j : bytes) (field : string) : option bytes := Some j.

Notation sample_update := (update (S := gmap bytes bytes) text_format text_format (λ _, EmptyString) true true
  both_fields 1 10 11).

(** "@a" stores the content "{}" under the type "m" and the number 5. *)
Definition sample_data : Data := mkData
  (<[dkey None [64; 97] 5 [109] := [123; 125]]> ∅ : gmap bytes bytes)
  (<[tkey None [64; 97] [109] := dkey None [64; 97] 5 [109]]> ∅).

Lemma empty_holds : holds (H := usize_64) text_format (mkData (∅ : gmap bytes bytes) ∅) ∅.
Proof.
  split; cbn.
  - intros b v. rewrite lookup_empty. split; [done|]. intros (? & ? & ? & ? & ? & HA & _). by rewrite lookup_empty in HA.
  - intros b v. rewrite lookup_empty. split; [done|]. intros (? & ? & ? & ? & ? & HA & _). by rewrite lookup_empty in HA.
  - intros r u t c j HA. by rewrite lookup_empty in HA.
  - intros k k' c j j' HA. by rewrite lookup_empty in HA.
Qed.

Lemma sample_ids : ids_ok (H := usize_64) None [64; 97] [109].
Proof. by split. Qed.

Lemma sample_holds : holds (H := usize_64) text_format sample_data {[(None, [64; 97], [109]) := (5, [123; 125])]}.
Proof.
  destruct (update_holds (H := usize_64) (Column0 := gmap_column) text_format text_format (λ _, EmptyString) true true both_fields 1 10 11
    (λ j, ex_intro _ j eq_refl) ltac:(done) None [64; 97] [109] [123; 125] 5 (mkData ∅ ∅) ∅) as (d' & Hu & Hd);
    [apply empty_holds|apply sample_ids|by unfold u64|done|intros k c j HA; by rewrite lookup_empty in HA|by eexists..|].
  assert (sample_update None [64; 97] [109] [123; 125] 5 (mkData ∅ ∅) = Ok sample_data) as Hs by reflexivity.
  rewrite Hs in Hu. by injection Hu as <-.
Qed.

Lemma account_data_refines_witness :
  (∃ d', sample_update None [64; 97] [109] [91; 93] 6 sample_data = Ok d'
    ∧ holds (H := usize_64) text_format d' {[(None, [64; 97], [109]) := (6, [91; 93])]})
  ∧ get_raw text_format text_format (λ _, EmptyString) true true None [64; 97] [109] sample_data = Ok [123; 125].
Proof.
  destruct (account_data_refines (H := usize_64) (Column0 := gmap_column) text_format text_format (λ _, EmptyString) true true both_fields 1 10 11
    (λ j, ex_intro _ j eq_refl) ltac:(done) (λ _, eq_refl) sample_data
    {[(None, [64; 97], [109]) := (5, [123; 125])]} None [64; 97] [109] sample_holds sample_ids) as (Hup & Hget & _).
  split; [|rewrite Hget; reflexivity]. specialize (Hup [91; 93] 6). destruct Hup as (d' & Hu & Hd).
  - by unfold u64.
  - done.
  - intros k c j HA. apply lookup_singleton_Some in HA as [_ [= <- _]]. lia.
  - exists d'. split; [exact Hu|]. by rewrite insert_singleton_eq in Hd.
Defined.

Lemma account_changes_exact_witness :
  changes_since (H := usize_64) text_format text_format (λ _, EmptyString) true None [64; 97] 4 (Some 5) sample_data
    = Some (Ok [Global [123; 125]])
  ∧ changes_since (H := usize_64) text_format text_format (λ _, EmptyString) true None [64; 97] 5 None sample_data = Some (Ok []).
Proof.
  split; [reflexivity|].
  destruct (account_changes_exact (H := usize_64) (Column0 := gmap_column) text_format text_format (λ _, EmptyString) true
    (λ j, ex_intro _ j eq_refl) (λ j b (Hb : Ok j = Ok b), eq_sym Hb) (λ _, eq_refl) sample_data
    {[(None, [64; 97], [109]) := (5, [123; 125])]} None [64; 97] 5 None [109] sample_holds sample_ids) as (l & Hl & _ & Hin); [done|].
  rewrite Hl. destruct l as [|[[t c] j] l]; [reflexivity|].
  destruct (proj1 (Hin t c j)) as (HA & Hc & _); [left|]. apply lookup_singleton_Some in HA as [_ [= <- _]]. lia.
Defined.
