(* ===== verification/Backoff.v ===== *)
(** * Backoff: how long a failing peer is left alone

    src/core/utils/time/exponential_backoff.rs.  A [Duration] is its number of
    nanoseconds, saturating at the largest one. *)

From S2P Require Import Prelude.

Definition second : Z := 1000000000.
Definition duration_max : Z := u64_max * second + 999999999.

Definition from_secs (s : Z) : Z := s * second.
Definition as_secs (d : Z) : Z := d / second.

(** [Duration::saturating_mul], [saturating_add], [checked_sub] *)
Definition dur_mul (d n : Z) : Z := Z.min (d * n) duration_max.
Definition dur_add (d e : Z) : Z := Z.min (d + e) duration_max.
Definition dur_sub (d e : Z) : option Z := if e <=? d then Some (d - e) else None.

Definition exponential_backoff_remaining (min max elapsed tries : Z) : option Z :=
  let window := Z.min (dur_mul (dur_mul min tries) tries) max in
  match dur_sub window elapsed with
  | Some remaining => if remaining =? 0 then None else Some remaining
  | None => None
  end.

Definition exponential_backoff_remaining_secs (min max elapsed tries : Z) : option Z :=
  exponential_backoff_remaining (from_secs min) (from_secs max) elapsed tries.

Definition continue_exponential_backoff (min max elapsed tries : Z) : bool :=
  bool_decide (is_Some (exponential_backoff_remaining min max elapsed tries)).

Definition continue_exponential_backoff_secs (min max elapsed tries : Z) : bool :=
  bool_decide (is_Some (exponential_backoff_remaining_secs min max elapsed tries)).

(** [u64::isqrt] is the integer square root. *)
Definition exponential_backoff_streak_cap (min max : Z) : Z :=
  let min_secs := Z.max (as_secs min) 1 in
  let ratio := as_secs max / min_secs in
  let floor := Z.sqrt ratio in
  let ceil := if Z.min (floor * floor) u64_max <? ratio then Z.min (floor + 1) u64_max else floor in
  Z.max (if ceil <=? u32_max then ceil else u32_max) 1.

(** ** What they compute *)

(** The hold that remains is what the capped quadratic window leaves. *)
Lemma remaining_spec min max elapsed tries :
  0 ≤ min → 0 ≤ max ≤ duration_max → 0 ≤ elapsed → 0 ≤ tries →
  exponential_backoff_remaining min max elapsed tries =
    let left := Z.min (min * tries * tries) max - elapsed in if 0 <? left then Some left else None.
Proof.
  intros Hmin Hmax He Ht. unfold exponential_backoff_remaining, dur_mul, dur_sub. cbn zeta.
  assert (Hd : 0 < duration_max) by reflexivity.
  assert (Hw : Z.min (Z.min (Z.min (min * tries) duration_max * tries) duration_max) max = Z.min (min * tries * tries) max).
  { destruct (Z.le_gt_cases (min * tries) duration_max) as [Hle|Hgt]; [rewrite (Z.min_l (min * tries)) by done; lia|].
    rewrite (Z.min_r (min * tries)) by lia. destruct (decide (tries = 0)) as [->|Hne]; [lia|].
    assert (duration_max ≤ duration_max * tries) by nia. assert (duration_max ≤ min * tries * tries) by nia. lia. }
  rewrite Hw. set (w := Z.min (min * tries * tries) max). destruct (Z.leb_spec elapsed w), (Z.ltb_spec 0 (w - elapsed)); try lia.
  - by rewrite (proj2 (Z.eqb_neq _ _)) by lia.
  - by rewrite (proj2 (Z.eqb_eq _ _)) by lia.
  - done.
Qed.

(** The streak cap is the least positive [n] with [n²] windows reaching the
    whole windows of [max], if it fits its type. *)
Lemma streak_cap_spec min max :
  1 ≤ min → 0 ≤ max → max / min ≤ u32_max →
  let n := exponential_backoff_streak_cap (from_secs min) (from_secs max) in
  1 ≤ n ≤ u32_max ∧ max / min ≤ n * n ∧ (∀ m, 1 ≤ m → max / min ≤ m * m → n ≤ m).
Proof.
  intros Hmin Hmax Hr n. subst n. unfold exponential_backoff_streak_cap, as_secs, from_secs.
  rewrite !Z.div_mul by (unfold second; lia). rewrite (Z.max_l min) by lia. cbn zeta.
  set (r := max / min) in *. assert (0 ≤ r) by (apply Z.div_pos; lia).
  pose proof (Z.sqrt_spec r ltac:(lia)) as [Hlo Hhi]. unfold Z.succ in Hhi. pose proof (Z.sqrt_nonneg r) as Hs.
  assert (Z.sqrt r ≤ r) by nia.
  unfold u32_max, u64_max in *. rewrite (Z.min_l (Z.sqrt r * Z.sqrt r)) by nia. rewrite (Z.min_l (Z.sqrt r + 1)) by lia.
  set (c := if Z.sqrt r * Z.sqrt r <? r then Z.sqrt r + 1 else Z.sqrt r).
  assert (Hc : 0 ≤ c ∧ r ≤ c * c ∧ c ≤ r ∧ ∀ m, 1 ≤ m → r ≤ m * m → c ≤ m).
  { subst c. destruct (Z.ltb_spec (Z.sqrt r * Z.sqrt r) r).
    - split_and!; [lia|nia|nia|]. intros m Hm Hrm. nia.
    - split_and!; [lia|nia|lia|]. intros m Hm Hrm. nia. }
  destruct Hc as (Hc0 & Hc1 & Hc2 & Hc3). rewrite (proj2 (Z.leb_le c 4294967295)) by lia.
  split_and!; [lia|lia|nia|]. intros m Hm Hrm. specialize (Hc3 m Hm Hrm). lia.
Qed.
