(* ===== verification/PeerStatus.v ===== *)
(** * PeerStatus: which remote servers are worth trying

    src/service/federation/peer.rs, over the record codec and the scans: a row
    per server and window of time in which it failed, and the verdict whether
    to try the server again.  Times are seconds since the epoch; the clock is
    read by the caller. *)

From stdpp Require Import sorting.
From S2P Require Import Prelude CoreError Bytes Store ByteOrder RecordCodec Scan Backoff.

Arguments DBytes {J}.

(** [MAX_BACKOFF], in seconds *)
Definition MAX_BACKOFF : Z := 24 * 3600.

Inductive Classification := Transient | Permanent.

Definition from_byte (byte : Z) : Classification := if byte =? 1 then Permanent else Transient.
Definition class_byte (c : Classification) : Z := match c with Transient => 0 | Permanent => 1 end.

Inductive ShouldAttempt := Yes | No (earliest_retry : Z) | Deprioritize.

Record Backoff := mkBackoff {
  class : Classification; anchor_secs : Z; streak : Z; now : Z; backoff_window : Z; grace_secs : Z
}.

Record Streak := mkStreak {
  streak_class : Classification; streak_anchor : Z; oldest_bucket : Z; latest_bucket : Z
}.

Record PeerBackoff := mkPeerBackoff {
  peer_class : Classification; peer_anchor : Z; oldest_secs : Z; peer_delay : Z
}.

(** [u64::saturating_mul], [saturating_add] *)
Definition mul64 (a b : Z) : Z := Z.min (a * b) u64_max.
Definition add64 (a b : Z) : Z := Z.min (a + b) u64_max.

Definition classify (bytes : bytes) : Classification :=
  match bytes with byte :: _ => from_byte byte | [] => Transient end.

Definition failure_secs (bytes : bytes) : option Z :=
  if 9 <=? zlen bytes then Some (from_be (take 8 (drop 1 bytes))) else None.

Definition fold_streak (window_secs : Z) (state : option Streak) (bucket : Z) (value : bytes) : Streak :=
  mkStreak (classify value) (default (mul64 bucket window_secs) (failure_secs value))
    (match state with Some s => oldest_bucket s | None => bucket end) bucket.

Definition delay_secs (b : Backoff) : Z :=
  match class b with
  | Permanent => MAX_BACKOFF
  | Transient =>
      if (streak b <=? 1) && negb (grace_secs b =? 0) then Z.min (grace_secs b) MAX_BACKOFF
      else Z.min (mul64 (mul64 (backoff_window b) (streak b)) (streak b)) MAX_BACKOFF
  end.

(** [UNIX_EPOCH.checked_add(Duration::from_secs(n))]: a [SystemTime] counts its
    seconds in an [i64]. *)
Definition system_time (n : Z) : option Z := if n <=? i64_max then Some n else None.

(** [clock] is what [SystemTime::now] reads when the instant has no form. *)
Definition attempt_verdict (clock : Z) (b : Backoff) : ShouldAttempt :=
  let earliest_secs := add64 (anchor_secs b) (delay_secs b) in
  if earliest_secs <=? now b then Yes else No (default clock (system_time earliest_secs)).

(** [not_json] tells an answer whose body is not JSON. *)
Definition classify_error (not_json : RumaError → bool) (error : Error) : option Classification :=
  match error with
  | Federation _ response =>
      let status := ruma_status response in
      if status =? 410 then Some Permanent
      else if (500 <=? status) && (status <? 600) || (status =? 429) then Some Transient
      else if not_json response then Some Transient
      else None
  | _ => Some Transient
  end.

(** The part of [Service] the reachability store uses. *)
Record Config := mkConfig { window_secs : Z; n_max : Z; grace : Z }.

(** [Service::build] *)
Definition build (sender_timeout sender_retry_grace : Z) : Config :=
  let window := Z.max sender_timeout 1 in
  mkConfig window (exponential_backoff_streak_cap (from_secs window) (from_secs MAX_BACKOFF)) sender_retry_grace.

Definition current_bucket (self : Config) (now : Z) : Z := now / Z.max (window_secs self) 1.

Definition bucket_start (self : Config) (bucket : Z) : Z := default 0 (system_time (mul64 bucket (window_secs self))).

Definition streak_of (self : Config) (latest oldest : Z) : Z :=
  let span := add64 (Z.max (latest - oldest) 0) 1 in
  Z.min (if span <=? u32_max then span else u32_max) (n_max self).

(** [Service::backoff], [Service::peer_backoff_from] *)
Definition backoff (self : Config) (now : Z) (run : Streak) : Backoff :=
  mkBackoff (streak_class run) (streak_anchor run) (streak_of self (latest_bucket run) (oldest_bucket run))
    now (window_secs self) (grace self).

Definition peer_backoff_from (self : Config) (now : Z) (s : Streak) : PeerBackoff :=
  mkPeerBackoff (streak_class s) (streak_anchor s) (mul64 (oldest_bucket s) (window_secs self))
    (delay_secs (backoff self now s)).

Section Peers.
Context `{!Usize} {J : Type} (json cbor : Format J) (display : Error → string) (debug_assertions : bool).
Context {S I : Type} `{!Column S I} (self : Config).

Notation Table := (Scan.Table (S := S)).
Notation encode := (encode_or_panic json cbor display debug_assertions).
Notation scan := (stream json cbor display debug_assertions (STuple [SStr; SU64]) SBytes).
Notation scan_prefix := (stream_prefix json cbor display debug_assertions (STuple [SStr; SU64]) SBytes).

Definition server_prefix (server : bytes) : Datum := DTuple [DStr (J := J) server; DInterfix].

(** [put_raw] of the row, then its watchers; the clock is read for the instant
    of the failure and again for its bucket. *)
Definition record_failure (server : bytes) (c : Classification) (at_ later : Z) (t : Table) : Res Table :=
  let value := class_byte c :: be_bytes 8 at_ in
  key ← encode (DTuple [DStr server; DU64 (current_bucket self later)]);
  Ok (mkTable (kv_put (column t) key value) (notified t ++ [key])).

Definition record_success (server : bytes) (t : Table) : option (Res Table) :=
  del_prefix json cbor display debug_assertions (server_prefix server) t.

(** [None] when a scan never ends. *)
Definition peer_has_failures (server : bytes) (t : Table) : option (Res bool) :=
  match stream_prefix_raw json cbor display debug_assertions (column t) (server_prefix server) with
  | Ok st =>
      match next_ok debug_assertions (yielded st) with
      | Some (Ok _) => Some (Ok true)
      | Some _ => Some Panic
      | None => if ended st then Some (Ok false) else None
      end
  | _ => Some Panic
  end.

Definition note_peer_alive (server : bytes) (t : Table) : option (Res (bool * Table)) :=
  match peer_has_failures server t with
  | Some (Ok true) => and_then (record_success server t) (λ t, Ok (true, t))
  | Some (Ok false) => Some (Ok (false, t))
  | Some _ => Some Panic
  | None => None
  end.

(** A row as the fold is handed it; the type read is a pair of a name and a
    number, and the value's bytes. *)
Definition row_of (kv : Datum (J := J) * Datum (J := J)) : bytes * Z * bytes :=
  match kv with
  | (DTuple [DStr server; DU64 bucket], DBytes value) => (server, bucket, value)
  | _ => ([], 0, [])
  end.

Definition peer_streak (server : bytes) (t : Table) : option (Res (option Streak)) :=
  match scan_prefix (column t) (server_prefix server) with
  | Ok st =>
      for_each_ok debug_assertions
        (λ kv state, let '(_, bucket, value) := row_of kv in Some (fold_streak (window_secs self) state bucket value)) st None
  | _ => Some Panic
  end.

Definition should_attempt (server : bytes) (now clock : Z) (t : Table) : option (Res ShouldAttempt) :=
  and_then (peer_streak server t) (λ s, Ok (match s with Some run => attempt_verdict clock (backoff self now run) | None => Yes end)).

Definition peer_backoff (server : bytes) (now : Z) (t : Table) : option (Res (option PeerBackoff)) :=
  and_then (peer_streak server t) (λ s, Ok (peer_backoff_from self now <$> s)).

(** The fold of [peer_backoffs]: runs of one server, newest run first. *)
Definition fold_runs (kv : Datum * Datum) (runs : list (bytes * Streak)) : list (bytes * Streak) :=
  let '(server, bucket, value) := row_of kv in
  match runs with
  | (last, s) :: rest =>
      if bool_decide (last = server) then (last, fold_streak (window_secs self) (Some s) bucket value) :: rest
      else (server, fold_streak (window_secs self) None bucket value) :: runs
  | [] => [(server, fold_streak (window_secs self) None bucket value)]
  end.

Definition peer_backoffs (now : Z) (t : Table) : option (Res (gmap bytes PeerBackoff)) :=
  and_then (for_each_ok debug_assertions fold_runs (scan (column t)) [])
    (λ runs, Ok (list_to_map ((λ run, (run.1, peer_backoff_from self now run.2)) <$> runs))).

Definition peer_snapshot (t : Table) : option (Res (list (bytes * Z * Classification))) :=
  for_each_ok debug_assertions
    (λ kv l, let '(server, bucket, value) := row_of kv in l ++ [(server, bucket_start self bucket, classify value)])
    (scan (column t)) [].

(** ** The rows *)

Definition skey (s : bytes) (bucket : Z) : bytes := joined [s; be_bytes 8 bucket].

Definition name_ok (s : bytes) : Prop := utf8_valid s = true ∧ zlen s + 9 ≤ isize_max.

Lemma encode_skey s k : encode (DTuple [DStr s; DU64 k]) = Ok (skey s k).
Proof. apply encode_tuple. repeat constructor. Qed.

Lemma encode_server s : encode (server_prefix s) = Ok (s ++ [SEP]).
Proof.
  pose proof (encode_prefix json cbor display debug_assertions [DStr s] [s]) as He. cbn [joined app foldr fmap] in He.
  unfold server_prefix. rewrite He by (done || (repeat constructor)). cbn. by rewrite app_nil_r.
Qed.

Lemma skey_eq s k : skey s k = (s ++ [SEP]) ++ be_bytes 8 k.
Proof. unfold skey. by rewrite joined2, <-(assoc_L (++)). Qed.

(** The rows of one server are those its name and a separator begin. *)
Lemma skey_prefix s s' k : name_ok s → name_ok s' → s ++ [SEP] `prefix_of` skey s' k ↔ s = s'.
Proof.
  intros [Hs _] [Hs' _]. split.
  - unfold skey. rewrite joined2. intros Hp. apply sep_split in Hp as [-> _]; [done|by apply utf8_no_sep..].
  - intros ->. rewrite skey_eq. by exists (be_bytes 8 k).
Qed.

Lemma skey_inj s k s' k' : name_ok s → name_ok s' → u64 k → u64 k' → skey s k = skey s' k' → s = s' ∧ k = k'.
Proof.
  intros Hs Hs' Hk Hk' Heq. assert (s = s') as <-.
  { apply (skey_prefix s s' k'); [done..|]. rewrite <-Heq, skey_eq. by exists (be_bytes 8 k). }
  split; [done|]. rewrite !skey_eq in Heq. apply (inj ((s ++ [SEP]) ++.)) in Heq.
  by apply be_bytes_inj in Heq; [|unfold u64, u64_max in *; cbn; lia..].
Qed.

Lemma skey_cmp s k k' : u64 k → u64 k' → lex_cmp (skey s k) (skey s k') = (k ?= k').
Proof.
  intros Hk Hk'. rewrite !skey_eq, lex_cmp_same. rewrite <-(app_nil_r (be_bytes 8 k)), <-(app_nil_r (be_bytes 8 k')).
  rewrite lex_cmp_num by done. by destruct (k ?= k').
Qed.

Lemma skey_reads s k :
  name_ok s → u64 k →
  from_slice json cbor display debug_assertions (STuple [SStr; SU64]) (skey s k) = Ok (DTuple [DStr s; DU64 k]).
Proof.
  intros [Hs Hfit] Hk.
  pose proof (read_tuple json cbor display debug_assertions [SStr; SU64] [DStr s; DU64 k] [s; be_bytes 8 k] [] []) as Hread.
  cbn [app] in Hread. apply Hread; [|apply Forall2_nil_2|rewrite !zlen_cons; change (zlen (A := Shape) []) with 0; usize_lia|].
  - apply fields_cons; [|apply fields_last]; (apply field_reads; [by constructor|done]).
  - rewrite joined2, zlen_app, zlen_cons, zlen_be_bytes. lia.
Qed.

Notation Rows := (gmap (bytes * Z) (Classification * Z)).

Definition row_value (f : Classification * Z) : bytes := class_byte f.1 :: be_bytes 8 f.2.

Lemma classify_value f : classify (row_value f) = f.1.
Proof. by destruct f as [[] a]. Qed.

Lemma value_secs f : u64 f.2 → failure_secs (row_value f) = Some f.2.
Proof.
  intros Ha. unfold failure_secs, row_value. rewrite zlen_cons, zlen_be_bytes, (proj2 (Z.leb_le 9 _)) by lia.
  rewrite skipn_cons, drop_0, take_ge by (by rewrite length_be_bytes). cbn iota. by rewrite be_bytes_8.
Qed.

Record holds (t : Table) (R : Rows) : Prop := {
  holds_rows : ∀ b v, kv_get (column t) b = Some v ↔ ∃ s k f, R !! (s, k) = Some f ∧ b = skey s k ∧ v = row_value f;
  holds_names : ∀ s k f, R !! (s, k) = Some f → name_ok s ∧ u64 k ∧ u64 f.2
}.

Lemma bucket_u64 now : u64 now → u64 (current_bucket self now).
Proof.
  unfold current_bucket, u64. intros Hn. split; [apply Z.div_pos; lia|].
  apply Z.div_le_upper_bound; [lia|]. nia.
Qed.

Lemma record_failure_holds s c at_ later (t : Table) R :
  holds t R → name_ok s → u64 at_ → u64 later →
  ∃ t', record_failure s c at_ later t = Ok t' ∧ holds t' (<[(s, current_bucket self later) := (c, at_)]> R).
Proof.
  intros [Hr Hn] Hs Ha Hl. apply bucket_u64 in Hl. set (k := current_bucket self later) in *.
  exists (mkTable (kv_put (column t) (skey s k) (row_value (c, at_))) (notified t ++ [skey s k])). split.
  { unfold record_failure. fold k. by rewrite encode_skey. }
  split; cbn [column].
  - intros b v. destruct (decide (skey s k = b)) as [<-|Hb].
    + rewrite kv_get_put_eq. split.
      * intros [= <-]. exists s, k, (c, at_). by rewrite lookup_insert_eq.
      * intros (s' & k' & f & [[[= <- <-] <-]|[Hne HR]]%lookup_insert_Some & Hk & ->); [done|].
        destruct (Hn _ _ _ HR) as (Hs' & Hk' & _). apply skey_inj in Hk as [-> ->]; done.
    + rewrite kv_get_put_ne, Hr by done. split.
      * intros (s' & k' & f & HR & -> & ->). exists s', k', f. rewrite lookup_insert_ne by congruence. done.
      * intros (s' & k' & f & [[[= <- <-] <-]|[Hne HR]]%lookup_insert_Some & -> & ->); [done|]. by exists s', k', f.
  - intros s' k' f [[[= <- <-] <-]|[Hne HR]]%lookup_insert_Some; [done|]. by apply Hn in HR.
Qed.

(** The rows of the other servers. *)
Definition cleared (s : bytes) (R : Rows) : Rows := filter (λ r, r.1.1 ≠ s) R.

Lemma lookup_cleared s R s' k f : cleared s R !! (s', k) = Some f ↔ R !! (s', k) = Some f ∧ s' ≠ s.
Proof. unfold cleared. by rewrite map_lookup_filter_Some. Qed.

Section Scans.
(** No iterator is in error. *)
Hypothesis healthy : ∀ it : I, it_status it = None.

Lemma record_success_holds s (t : Table) R :
  holds t R → name_ok s → ∃ t', record_success s t = Some (Ok t') ∧ holds t' (cleared s R).
Proof.
  intros [Hr Hn] Hs.
  destruct (del_prefix_spec json cbor display debug_assertions healthy _ _ t (encode_server s)) as (t' & Hdel & _ & Hg).
  exists t'. split; [done|]. split.
  - intros b v. rewrite Hg. unfold starts_with. split.
    + case_bool_decide as Hp; [done|]. intros (s' & k & f & HR & -> & ->)%Hr. exists s', k, f.
      destruct (Hn _ _ _ HR) as (Hs' & _). rewrite lookup_cleared. rewrite skey_prefix in Hp by done. split_and!; congruence.
    + intros (s' & k & f & [HR Hne]%lookup_cleared & -> & ->). destruct (Hn _ _ _ HR) as (Hs' & _).
      rewrite bool_decide_false by (rewrite skey_prefix by done; congruence). apply Hr. by exists s', k, f.
  - intros s' k f [HR _]%lookup_cleared. by apply Hn in HR.
Qed.

Definition row_kv (e : bytes * Z * (Classification * Z)) : KeyVal := (skey e.1.1 e.1.2, row_value e.2).
Definition row_datum (e : bytes * Z * (Classification * Z)) : Datum (J := J) * Datum (J := J) :=
  (DTuple [DStr e.1.1; DU64 e.1.2], DBytes (row_value e.2)).
Definition row_lt (a b : bytes * Z * (Classification * Z)) : Prop := lex_cmp (skey a.1.1 a.1.2) (skey b.1.1 b.1.2) = Lt.

Lemma row_reads (t : Table) R e :
  holds t R → R !! e.1 = Some e.2 →
  result_deserialize json cbor display debug_assertions (STuple [SStr; SU64]) SBytes (Ok (row_kv e)) = Ok (row_datum e).
Proof.
  intros [_ Hn] HR. destruct e as [[s k] f]. destruct (Hn _ _ _ HR) as (Hs & Hk & _).
  unfold result_deserialize, row_kv, row_datum. rewrite bind_Ok. unfold deserialize_key. cbn [fst snd].
  rewrite skey_reads by done. rewrite bind_Ok.
  rewrite (read_single json cbor display debug_assertions SBytes (DBytes (row_value f)) (row_value f)); [done|by constructor|done|].
  unfold row_value. rewrite zlen_cons, zlen_be_bytes. usize_lia.
Qed.

(** The rows a scan goes through, in the order of their keys. *)
Lemma read_rows (t : Table) R l :
  holds t R → StronglySorted key_lt l → (∀ kv, kv ∈ l → kv_get (column t) kv.1 = Some kv.2) →
  ∃ es, stream_map (result_deserialize json cbor display debug_assertions (STuple [SStr; SU64]) SBytes) (done_stream l)
          = done_stream (row_datum <$> es)
    ∧ l = row_kv <$> es ∧ (∀ e, e ∈ es → R !! e.1 = Some e.2) ∧ StronglySorted row_lt es.
Proof.
  intros Hh Hsort Hin.
  destruct (scan_entries (λ kv e, kv = row_kv e ∧ R !! e.1 = Some e.2) row_lt l Hsort) as (es & Hes & Hlt).
  - intros [b v] Hkv. apply Hin in Hkv. cbn in Hkv. apply (holds_rows _ _ Hh) in Hkv as (s & k & f & HR & -> & ->). by exists (s, k, f).
  - intros ? ? e e' [-> _] [-> _]. done.
  - exists es. assert (Hl : l = row_kv <$> es) by (clear -Hes; induction Hes as [|x y l l' [-> _] _ IH]; [done|by rewrite fmap_cons, <-IH]).
    split_and!; [|done| |done].
    + apply stream_map_done. apply Forall2_fmap_r. eapply Forall2_impl; [exact Hes|]. intros kv e [-> HR]. by eapply row_reads.
    + intros e (i & Hi)%list_elem_of_lookup. destruct (Forall2_lookup_r _ _ _ _ _ Hes Hi) as (kv & _ & _ & HR). done.
Qed.

Lemma server_rows (t : Table) R s :
  holds t R → name_ok s →
  ∃ es, scan_prefix (column t) (server_prefix s) = Ok (done_stream (row_datum <$> es))
    ∧ stream_prefix_raw json cbor display debug_assertions (column t) (server_prefix s) = Ok (done_stream (row_kv <$> es))
    ∧ StronglySorted (λ a b, a.1.2 < b.1.2) es ∧ ∀ e, e ∈ es ↔ e.1.1 = s ∧ R !! e.1 = Some e.2.
Proof.
  intros Hh Hs. set (p := s ++ [SEP]).
  assert (Hin : ∀ kv, kv ∈ under p (column t) ↔ p `prefix_of` kv.1 ∧ kv_get (column t) kv.1 = Some kv.2).
  { intros [b v]. unfold under. by rewrite list_elem_of_filter, records_get. }
  destruct (read_rows t R (under p (column t)) Hh) as (es & Hst & Hl & HR & Hlt); [apply under_sorted|intros kv Hkv; by apply Hin|].
  assert (Hmem : ∀ e, e ∈ es ↔ e.1.1 = s ∧ R !! e.1 = Some e.2).
  { intros [[s' k] f]. split.
    - intros He. pose proof (HR _ He) as HRe. split; [|done]. apply (list_elem_of_fmap_2 row_kv) in He. rewrite <-Hl in He.
      apply Hin in He as [Hp _]. symmetry. apply (skey_prefix s s' k) in Hp; [done..|]. by eapply (holds_names _ _ Hh).
    - cbn. intros [-> HRe]. assert (Hkv : row_kv (s, k, f) ∈ under p (column t)).
      { apply Hin. split; [apply skey_prefix; [done..|reflexivity]|]. apply (holds_rows _ _ Hh). by exists s, k, f. }
      rewrite Hl in Hkv. apply list_elem_of_fmap in Hkv as ([[s' k'] f'] & [= Hkey Hcls Hat] & He).
      pose proof (HR _ He) as HRe'. destruct (holds_names _ _ Hh _ _ _ HRe) as (_ & Hk & _).
      destruct (holds_names _ _ Hh _ _ _ HRe') as (Hs' & Hk' & _). apply skey_inj in Hkey as [<- <-]; [|done..]. cbn in HRe'. congruence. }
  exists es. split_and!; [..|done].
  - unfold stream_prefix, stream_prefix_raw. rewrite encode_server, !bind_Ok, raw_stream_prefix_spec by done. fold p. by rewrite Hst.
  - unfold stream_prefix_raw. rewrite encode_server, bind_Ok, raw_stream_prefix_spec by done. fold p. by rewrite Hl.
  - eapply sorted_weaken; [exact Hlt|]. intros [[sa ka] fa] [[sb kb] fb] Ha Hb. unfold row_lt. cbn [fst snd].
    apply Hmem in Ha as [Hsa HRa]. apply Hmem in Hb as [Hsb HRb]. cbn in Hsa, Hsb. subst sa sb.
    destruct (holds_names _ _ Hh _ _ _ HRa) as (_ & Hka & _). destruct (holds_names _ _ Hh _ _ _ HRb) as (_ & Hkb & _).
    rewrite skey_cmp by done. apply Z.compare_lt_iff.
Qed.

(** The streak a list of rows folds to: the newest row's class and instant, and
    the buckets at either end. *)
Definition streak_over (es : list (bytes * Z * (Classification * Z))) : option Streak :=
  match head es, last es with
  | Some a, Some z => Some (mkStreak z.2.1 z.2.2 a.1.2 z.1.2)
  | _, _ => None
  end.

Lemma fold_rows es :
  (∀ e, e ∈ es → u64 e.2.2) →
  foldl (λ state e, Some (fold_streak (window_secs self) state e.1.2 (row_value e.2))) None es = streak_over es.
Proof.
  induction es as [|e es IH] using rev_ind; intros Hu; [done|]. rewrite foldl_app, IH; cbn [foldl].
  2: { intros x Hx. apply Hu, elem_of_app. by left. }
  unfold fold_streak. rewrite classify_value, value_secs by (apply Hu, elem_of_app; right; left). cbn [default].
  unfold streak_over. rewrite last_snoc. destruct es as [|a es]; [done|]. cbn [app head].
  destruct (last (a :: es)) as [z|] eqn:Hz; [done|]. by apply last_None in Hz.
Qed.

Lemma fold_datums {A} (f : bytes * Z * bytes → A → A) es (a : A) :
  foldl (λ a kv, f (row_of kv) a) a (row_datum <$> es) = foldl (λ a e, f (e.1.1, e.1.2, row_value e.2) a) a es.
Proof. revert a. induction es as [|e es IH]; intros a; [done|]. cbn. apply IH. Qed.

Lemma peer_streak_spec (t : Table) R s :
  holds t R → name_ok s →
  ∃ es, peer_streak s t = Some (Ok (streak_over es)) ∧ peer_has_failures s t = Some (Ok (bool_decide (es ≠ [])))
    ∧ StronglySorted (λ a b, a.1.2 < b.1.2) es ∧ ∀ e, e ∈ es ↔ e.1.1 = s ∧ R !! e.1 = Some e.2.
Proof.
  intros Hh Hs. destruct (server_rows t R s Hh Hs) as (es & Hscan & Hraw & Hsort & Hmem). exists es. split_and!; [..|done|done].
  - unfold peer_streak. rewrite Hscan, for_each_done. f_equal. f_equal.
    rewrite (fold_datums (λ r state, let '(_, bucket, value) := r in Some (fold_streak (window_secs self) state bucket value))).
    apply fold_rows. intros [[s' k] f] [_ He]%Hmem. by eapply (holds_names _ _ Hh).
  - unfold peer_has_failures. rewrite Hraw. by destruct es as [|e es].
Qed.

Lemma note_peer_alive_holds s (t : Table) R :
  holds t R → name_ok s →
  ∃ t' sad, peer_has_failures s t = Some (Ok sad) ∧ note_peer_alive s t = Some (Ok (sad, t')) ∧ holds t' (cleared s R).
Proof.
  intros Hh Hs. destruct (peer_streak_spec t R s Hh Hs) as (es & _ & Hsad & _ & Hmem). unfold note_peer_alive. rewrite Hsad.
  destruct es as [|e es].
  - exists t, false. split_and!; [done..|]. assert (cleared s R = R) as ->; [|done].
    unfold cleared. apply map_filter_id. intros [s' k] f HR Hs'. cbn in Hs'. subst s'.
    eapply not_elem_of_nil, (Hmem (s, k, f)). done.
  - destruct (record_success_holds s t R Hh Hs) as (t' & Hrun & Hh'). exists t', true. split_and!; [done| |done].
    rewrite bool_decide_true by done. by rewrite Hrun.
Qed.

(** ** What is recorded of a history *)

(** What the rest of the program tells the store, with the clock it read. *)
Inductive Event :=
| Failed (server : bytes) (c : Classification) (at_ later : Z)
| Succeeded (server : bytes)
| Alive (server : bytes).

Definition occur (ev : Event) (t : Table) : option (Res Table) :=
  match ev with
  | Failed s c at_ later => Some (record_failure s c at_ later t)
  | Succeeded s => record_success s t
  | Alive s => and_then (note_peer_alive s t) (λ r, Ok r.2)
  end.

Fixpoint replay (h : list Event) (t : Table) : option (Res Table) :=
  match h with
  | [] => Some (Ok t)
  | ev :: h => match occur ev t with Some (Ok t) => replay h t | r => r end
  end.

Definition ev_server (ev : Event) : bytes := match ev with Failed s _ _ _ | Succeeded s | Alive s => s end.
Definition readings (ev : Event) : list Z := match ev with Failed _ _ at_ later => [at_; later] | _ => [] end.

(** The failures of a server since it was last heard of. *)
Definition since (s : bytes) (h : list Event) : list (Classification * Z * Z) :=
  foldl (λ l ev,
    if bool_decide (ev_server ev = s)
    then match ev with Failed _ c at_ later => l ++ [(c, at_, later)] | _ => [] end
    else l) [] h.

Notation bucket_of f := (current_bucket self f.2).

(** The rows of a server are of its failures since, the newest in the highest
    bucket and the first in the lowest. *)
Definition tracks (s : bytes) (R : Rows) (F : list (Classification * Z * Z)) : Prop :=
  match head F, last F with
  | Some a, Some z =>
      R !! (s, bucket_of z) = Some z.1 ∧ is_Some (R !! (s, bucket_of a))
      ∧ ∀ k, is_Some (R !! (s, k)) → bucket_of a ≤ k ≤ bucket_of z
  | _, _ => ∀ k, R !! (s, k) = None
  end.

Lemma tracks_ext s R R' F : (∀ k, R' !! (s, k) = R !! (s, k)) → tracks s R F → tracks s R' F.
Proof.
  intros Hl. unfold tracks. destruct (head F), (last F); [|by intros HF k; rewrite Hl..].
  rewrite !Hl. intros (Hz & Ha & Hb). split_and!; [done..|]. intros k. rewrite Hl. apply Hb.
Qed.

Lemma tracks_other s s' R F c at_ later :
  s ≠ s' → tracks s R F → tracks s (<[(s', current_bucket self later) := (c, at_)]> R) F.
Proof.
  intros Hne. apply tracks_ext. intros k. apply lookup_insert_ne. congruence.
Qed.

Lemma bucket_mono a b : a ≤ b → current_bucket self a ≤ current_bucket self b.
Proof. intros Hab. unfold current_bucket. apply Z.div_le_mono; lia. Qed.

Lemma tracks_failed s R F c at_ later :
  (∀ f, f ∈ F → f.2 ≤ later) → tracks s R F →
  tracks s (<[(s, current_bucket self later) := (c, at_)]> R) (F ++ [(c, at_, later)]).
Proof.
  intros Hle. unfold tracks at 2. rewrite last_snoc. set (k0 := current_bucket self later).
  assert (Hcase : F = [] ∨ ∃ a z, head F = Some a ∧ last F = Some z).
  { destruct F as [|a F]; [by left|right]. destruct (last (a :: F)) as [z|] eqn:Hz; [by exists a, z|by apply last_None in Hz]. }
  destruct Hcase as [->|(a & z & Ha & Hz)].
  - cbn. intros Hnone. rewrite lookup_insert_eq. split_and!; [done|by eexists|]. intros k [f Hf]. fold k0.
    apply lookup_insert_Some in Hf as [[[= <-] _]|[_ Hf]]; [lia|]. by rewrite Hnone in Hf.
  - assert (head (F ++ [(c, at_, later)]) = Some a) as -> by (by destruct F).
    unfold tracks. rewrite Ha, Hz. intros (HRz & HRa & Hb). cbn [fst snd]. fold k0. rewrite lookup_insert_eq.
    assert (Hk0 : bucket_of z ≤ k0) by (apply bucket_mono, Hle; rewrite last_lookup in Hz; by eapply list_elem_of_lookup_2).
    pose proof (Hb _ HRa) as Haz.
    split_and!; [done| |].
    + destruct (decide (bucket_of a = k0)) as [Heq|Hne]; [rewrite Heq, lookup_insert_eq; by eexists|].
      rewrite lookup_insert_ne by congruence. done.
    + intros k [f Hf]. apply lookup_insert_Some in Hf as [[[= <-] _]|[_ Hf]]; [lia|].
      specialize (Hb k (ex_intro _ _ Hf)). lia.
Qed.

Lemma tracks_cleared s s' R F : tracks s R F → tracks s (cleared s' R) (if bool_decide (s' = s) then [] else F).
Proof.
  intros Ht. case_bool_decide as Heq.
  - subst s'. cbn. intros k. apply eq_None_not_Some. intros [f Hf]. by apply lookup_cleared in Hf as [_ ?].
  - revert Ht. apply tracks_ext. intros k. apply option_eq. intros f. rewrite lookup_cleared. split; [by intros [? _]|by split; [|congruence]].
Qed.

Lemma since_snoc s h ev :
  since s (h ++ [ev]) = if bool_decide (ev_server ev = s)
    then match ev with Failed _ c at_ later => since s h ++ [(c, at_, later)] | _ => [] end else since s h.
Proof. unfold since. by rewrite foldl_app. Qed.

Lemma since_readings s h f : f ∈ since s h → f.2 ∈ h ≫= readings.
Proof.
  induction h as [|ev h IH] using rev_ind; [by intros ?%not_elem_of_nil|]. rewrite since_snoc, bind_app, elem_of_app.
  case_bool_decide; [|by left; auto]. destruct ev; [|by intros ?%not_elem_of_nil..].
  intros [?| ->%list_elem_of_singleton]%elem_of_app; [by left; auto|right]. cbn. right. left.
Qed.

Definition ev_ok (ev : Event) : Prop := name_ok (ev_server ev) ∧ Forall u64 (readings ev).

Lemma occur_tracks h ev (t : Table) R :
  holds t R → (∀ s, tracks s R (since s h)) → ev_ok ev → StronglySorted Z.le ((h ++ [ev]) ≫= readings) →
  ∃ t' R', occur ev t = Some (Ok t') ∧ holds t' R' ∧ ∀ s, tracks s R' (since s (h ++ [ev])).
Proof.
  intros Hh Ht [Hs Hu] Hsort.
  assert (Hclear : ∀ s0, ev_server ev = s0 → (∀ l, match ev with Failed _ c at_ later => l ++ [(c, at_, later)] | _ => [] end = []) →
    ∀ s, tracks s (cleared s0 R) (since s (h ++ [ev]))).
  { intros s0 Hs0 He s. rewrite since_snoc, Hs0, He. by apply tracks_cleared. }
  destruct ev as [s0 c at_ later|s0|s0]; cbn [occur ev_server] in *.
  - apply Forall_cons in Hu as [Ha [Hl _]%Forall_cons].
    destruct (record_failure_holds s0 c at_ later t R) as (t' & Hrun & Hh'); [done..|]. rewrite Hrun. eexists _, _. split_and!; [done..|].
    intros s. rewrite since_snoc. cbn [ev_server]. case_bool_decide as Heq; [|apply tracks_other; [congruence|done]]. subst s0.
    apply tracks_failed; [|done]. intros f Hf%since_readings. rewrite bind_app in Hsort.
    eapply (StronglySorted_app_1_elem_of Z.le); [exact Hsort|done|]. cbn. right. left.
  - destruct (record_success_holds s0 t R Hh Hs) as (t' & Hrun & Hh'). rewrite Hrun. eexists _, _. split_and!; [done..|]. by apply Hclear.
  - destruct (note_peer_alive_holds s0 t R Hh Hs) as (t' & sad & _ & Hrun & Hh'). rewrite Hrun.
    eexists _, _. split_and!; [reflexivity|done|]. by apply Hclear.
Qed.

Lemma replay_tracks h0 h (t : Table) R :
  holds t R → (∀ s, tracks s R (since s h0)) → Forall ev_ok h → StronglySorted Z.le ((h0 ++ h) ≫= readings) →
  ∃ t' R', replay h t = Some (Ok t') ∧ holds t' R' ∧ ∀ s, tracks s R' (since s (h0 ++ h)).
Proof.
  revert h0 t R. induction h as [|ev h IH]; intros h0 t R Hh Ht Hok Hsort.
  - exists t, R. by rewrite app_nil_r.
  - apply Forall_cons in Hok as [Hev Hok]. rewrite cons_middle, (assoc_L (++)) in Hsort |- *.
    destruct (occur_tracks h0 ev t R) as (t1 & R1 & Hrun & Hh1 & Ht1); [done..| |].
    { rewrite bind_app in Hsort. by apply StronglySorted_app_1_l in Hsort. }
    cbn [replay]. rewrite Hrun. by apply (IH (h0 ++ [ev]) t1 R1).
Qed.

Definition streak_since (F : list (Classification * Z * Z)) : option Streak :=
  match head F, last F with
  | Some a, Some z => Some (mkStreak z.1.1 z.1.2 (bucket_of a) (bucket_of z))
  | _, _ => None
  end.

Lemma sorted_ends (es : list (bytes * Z * (Classification * Z))) a z e :
  StronglySorted (λ a b, a.1.2 < b.1.2) es → head es = Some a → last es = Some z → e ∈ es → a.1.2 ≤ e.1.2 ≤ z.1.2.
Proof.
  intros Hs Ha Hz He. split.
  - destruct es as [|a' es]; [done|]. injection Ha as ->. apply StronglySorted_inv in Hs as [_ Hs]. rewrite Forall_forall in Hs.
    apply elem_of_cons in He as [->|He]; [lia|]. specialize (Hs _ He). lia.
  - apply last_Some in Hz as [es' ->]. apply elem_of_app in He as [He|He%list_elem_of_singleton]; [|by subst].
    assert (e.1.2 < z.1.2); [|lia].
    apply (StronglySorted_app_1_elem_of (λ a b, a.1.2 < b.1.2) es' [z]); [done..|left].
Qed.

Lemma streak_tracks s R F es :
  StronglySorted (λ a b, a.1.2 < b.1.2) es → (∀ e, e ∈ es ↔ e.1.1 = s ∧ R !! e.1 = Some e.2) → tracks s R F →
  streak_over es = streak_since F ∧ (es ≠ [] ↔ F ≠ []).
Proof.
  intros Hsort Hmem Ht. unfold tracks, streak_since in *.
  destruct F as [|a F]; cbn [head] in *.
  { destruct es as [|e es]; [done|]. destruct (Hmem e) as [He _]. destruct He as [Hs HR]; [left|].
    destruct e as [[s' k] f]. cbn in *. subst s'. by rewrite Ht in HR. }
  destruct (last (a :: F)) as [z|] eqn:Hz; [|by apply last_None in Hz]. destruct Ht as (HRz & [fa HRa] & Hb).
  assert (Hze : (s, bucket_of z, z.1) ∈ es) by (by apply Hmem). assert (Hae : (s, bucket_of a, fa) ∈ es) by (by apply Hmem).
  destruct es as [|e es]; [by apply not_elem_of_nil in Hze|]. split; [|done]. unfold streak_over. cbn [head].
  destruct (last (e :: es)) as [y|] eqn:Hy; [|by apply last_None in Hy].
  pose proof (sorted_ends _ _ _ _ Hsort eq_refl Hy Hze) as Hbz. pose proof (sorted_ends _ _ _ _ Hsort eq_refl Hy Hae) as Hba.
  assert (Hin : ∀ x, x ∈ e :: es → x.1.1 = s ∧ R !! x.1 = Some x.2 ∧ bucket_of a ≤ x.1.2 ≤ bucket_of z).
  { intros [[s' k] f] [Hs HR]%Hmem. cbn in *. subst s'. split_and!; [done..| |]; eapply Hb; by eexists. }
  destruct (Hin e) as (_ & _ & He); [left|]. destruct (Hin y) as (Hys & HRy & Hyb); [rewrite last_lookup in Hy; by eapply list_elem_of_lookup_2|].
  destruct y as [[s' ky] fy]. cbn in *. subst s'. assert (ky = bucket_of z) as -> by lia. rewrite HRz in HRy. injection HRy as <-.
  assert (e.1.2 = bucket_of a) as -> by lia. done.
Qed.

(** ** The whole store *)

Lemma all_rows (t : Table) R :
  holds t R →
  ∃ es, scan (column t) = done_stream (row_datum <$> es) ∧ StronglySorted row_lt es ∧ ∀ e, e ∈ es ↔ R !! e.1 = Some e.2.
Proof.
  intros Hh. destruct (read_rows t R (records (column t)) Hh) as (es & Hst & Hl & HR & Hlt).
  { apply records_sorted. }
  { intros [b v] Hkv. by apply records_get. }
  exists es. split_and!; [|done|].
  - unfold stream, raw_stream. rewrite raw_stream_spec by done. unfold scanned. by rewrite Hst.
  - intros [[s k] f]. split; [apply HR|]. intros HRe. cbn in HRe.
    assert (Hkv : row_kv (s, k, f) ∈ records (column t)) by (apply records_get, (holds_rows _ _ Hh); by exists s, k, f).
    rewrite Hl in Hkv. apply list_elem_of_fmap in Hkv as ([[s' k'] f'] & [= Hkey _ _] & He). pose proof (HR _ He) as HRe'. cbn in HRe'.
    destruct (holds_names _ _ Hh _ _ _ HRe) as (Hs & Hk & _). destruct (holds_names _ _ Hh _ _ _ HRe') as (Hs' & Hk' & _).
    apply skey_inj in Hkey as [<- <-]; [|done..]. congruence.
Qed.

Lemma streak_over_snoc es e :
  u64 e.2.2 → streak_over (es ++ [e]) = Some (fold_streak (window_secs self) (streak_over es) e.1.2 (row_value e.2)).
Proof.
  intros Hu. unfold fold_streak. rewrite classify_value, value_secs by done. unfold streak_over. rewrite last_snoc.
  destruct es as [|a es]; [done|]. cbn [app head]. destruct (last (a :: es)) eqn:Hz; [done|by apply last_None in Hz].
Qed.

(** Rows between two of one server are of that server. *)
Lemma rows_between x y e :
  name_ok x.1.1 → name_ok y.1.1 → x.1.1 = e.1.1 → row_lt x y → row_lt y e → y.1.1 = e.1.1.
Proof.
  intros Hx Hy Hxe Hxy Hye. symmetry. apply (skey_prefix e.1.1 y.1.1 y.1.2); [by rewrite <-Hxe|done|].
  apply (prefix_between _ _ (skey e.1.1 e.1.2)); [rewrite skey_eq; by eexists| |].
  - apply (byte_le_trans _ (skey x.1.1 x.1.2)); [apply prefix_le; rewrite skey_eq, Hxe; by eexists|].
    apply (key_lt_le (skey x.1.1 x.1.2, []) (skey y.1.1 y.1.2, []) Hxy).
  - apply (key_lt_le (skey y.1.1 y.1.2, []) (skey e.1.1 e.1.2, []) Hye).
Qed.

Definition server_of (es : list (bytes * Z * (Classification * Z))) (s : bytes) := filter (λ e, e.1.1 = s) es.

Lemma server_of_snoc es e s : server_of (es ++ [e]) s = server_of es s ++ (if decide (e.1.1 = s) then [e] else []).
Proof. unfold server_of. rewrite filter_app, filter_cons. by case_decide. Qed.

Definition run_step (runs : list (bytes * Streak)) (e : bytes * Z * (Classification * Z)) := fold_runs (row_datum e) runs.

Lemma run_new es y e :
  StronglySorted row_lt (es ++ [y; e]) → (∀ x, x ∈ es ++ [y; e] → name_ok x.1.1) → y.1.1 ≠ e.1.1 → server_of (es ++ [y]) e.1.1 = [].
Proof.
  intros Hs Hn Hne. unfold server_of. apply filter_none. intros x [Hx| ->%list_elem_of_singleton]%elem_of_app Hxe; [|done].
  apply Hne, (rows_between x); [apply Hn, elem_of_app; by left|apply Hn, elem_of_app; right; left|done| |].
  - apply (StronglySorted_app_1_elem_of row_lt es [y; e]); [done..|left].
  - apply StronglySorted_app_1_r in Hs. apply StronglySorted_inv in Hs as [_ Hs]. by apply Forall_cons in Hs as [? _].
Qed.

Lemma runs_spec es :
  StronglySorted row_lt es → (∀ e, e ∈ es → name_ok e.1.1 ∧ u64 e.2.2) →
  fst <$> head (foldl run_step [] es) = (λ e, e.1.1) <$> last es
  ∧ ∀ s, (list_to_map (foldl run_step [] es) : gmap bytes Streak) !! s = streak_over (server_of es s).
Proof.
  induction es as [|e es IH] using rev_ind; intros Hsort Hok; [done|].
  destruct IH as [Hhead Hmap]; [by apply StronglySorted_app_1_l in Hsort|intros x Hx; apply Hok, elem_of_app; by left|].
  destruct (Hok e) as [_ Hu]; [apply elem_of_app; right; left|].
  rewrite foldl_app. cbn [foldl]. rewrite last_snoc. unfold run_step at 1 3, fold_runs, row_datum. cbn [row_of fst snd].
  assert (Hnew : server_of es e.1.1 = [] ∨ ∃ y es', es = es' ++ [y] ∧ y.1.1 = e.1.1).
  { destruct es as [|y es' _] using rev_ind; [by left|]. destruct (decide (y.1.1 = e.1.1)) as [|Hne]; [right; by exists y, es'|left].
    apply run_new; [by rewrite <-(assoc_L (++)) in Hsort| |done]. intros x Hx. apply Hok. by rewrite <-(assoc_L (++)). }
  assert (Hput : ∀ st rest, st = streak_over (server_of es e.1.1) →
    (∀ s, s ≠ e.1.1 → (list_to_map rest : gmap bytes Streak) !! s = streak_over (server_of es s)) →
    ∀ s, (list_to_map ((e.1.1, fold_streak (window_secs self) st e.1.2 (row_value e.2)) :: rest) : gmap bytes Streak) !! s
      = streak_over (server_of (es ++ [e]) s)).
  { intros st rest Hst Hrest s. cbn [list_to_map foldr fst snd]. rewrite server_of_snoc. case_decide as Hse.
    - subst s. rewrite streak_over_snoc, <-Hst by done. apply lookup_insert_eq.
    - rewrite app_nil_r, <-Hrest by done. by apply lookup_insert_ne. }
  destruct (foldl run_step [] es) as [|[l st] rest] eqn:Hruns.
  - split; [done|]. apply Hput; [|by intros s _; rewrite <-Hmap]. by rewrite <-Hmap.
  - case_bool_decide as Hl.
    + subst l. split; [done|]. apply Hput; [by rewrite <-Hmap; cbn; rewrite lookup_insert_eq|].
      intros s Hs. rewrite <-Hmap. cbn. by rewrite lookup_insert_ne.
    + split; [done|]. apply Hput; [|by intros; rewrite <-Hmap].
      destruct Hnew as [->|(y & es' & -> & Hy)]; [done|]. rewrite last_snoc in Hhead. cbn in Hhead. congruence.
Qed.

Lemma peer_backoffs_spec (t : Table) R now :
  holds t R →
  ∃ m es, peer_backoffs now t = Some (Ok m) ∧ StronglySorted row_lt es ∧ (∀ e, e ∈ es ↔ R !! e.1 = Some e.2)
    ∧ ∀ s, m !! s = peer_backoff_from self now <$> streak_over (server_of es s).
Proof.
  intros Hh. destruct (all_rows t R Hh) as (es & Hscan & Hsort & Hmem). eexists _, es. split_and!; [|done|done|].
  - unfold peer_backoffs. rewrite Hscan, for_each_done. reflexivity.
  - intros s. cbn. change (λ run : bytes * Streak, (run.1, peer_backoff_from self now run.2)) with (prod_map (@id bytes) (peer_backoff_from self now)).
    rewrite list_to_map_fmap, lookup_fmap. f_equal.
    assert (foldl (λ a x, fold_runs x a) [] (row_datum <$> es) = foldl run_step [] es) as ->.
    { generalize (@nil (bytes * Streak)). clear. induction es as [|e es IH]; intros l; [done|]. cbn. apply IH. }
    apply runs_spec; [done|]. intros [[s' k] f] HR%Hmem. by destruct (holds_names _ _ Hh _ _ _ HR) as (? & _ & ?).
Qed.

(** The snapshot lists every row once, in the order of the keys. *)
Lemma peer_snapshot_spec (t : Table) R :
  holds t R →
  ∃ es, peer_snapshot t = Some (Ok ((λ e, (e.1.1, bucket_start self e.1.2, e.2.1)) <$> es))
    ∧ StronglySorted row_lt es ∧ ∀ e, e ∈ es ↔ R !! e.1 = Some e.2.
Proof.
  intros Hh. destruct (all_rows t R Hh) as (es & Hscan & Hsort & Hmem). exists es. split_and!; [|done|done].
  unfold peer_snapshot. rewrite Hscan, for_each_done. f_equal. f_equal.
  rewrite (fold_datums (λ r l, let '(server, bucket, value) := r in l ++ [(server, bucket_start self bucket, classify value)])).
  clear. induction es as [|e es IH] using rev_ind; [done|]. rewrite foldl_app, fmap_app, IH. cbn [foldl].
  by rewrite classify_value.
Qed.

(** ** The verdict *)

Lemma delay_bound b : delay_secs b ≤ MAX_BACKOFF.
Proof. unfold delay_secs. destruct (class b); [|lia]. destruct (_ && _); lia. Qed.

(** What a server's failures since it was last heard of come to. *)
Definition verdict (F : list (Classification * Z * Z)) (now clock : Z) : ShouldAttempt :=
  match streak_since F with Some run => attempt_verdict clock (backoff self now run) | None => Yes end.

Lemma verdict_after F now clock c at_ later :
  last F = Some (c, at_, later) → at_ + MAX_BACKOFF ≤ now → now ≤ u64_max → verdict F now clock = Yes.
Proof.
  intros Hl Hle Hnow. unfold verdict, streak_since. rewrite Hl. destruct (head F) as [a|]; [|done]. cbn [fst snd].
  set (b := backoff self now _). pose proof (delay_bound b) as Hd. unfold attempt_verdict.
  change (anchor_secs b) with at_. change (PeerStatus.now b) with now. unfold add64.
  by rewrite (proj2 (Z.leb_le _ _)) by lia.
Qed.

(** C29: whatever failures and successes were reported, in any order and of any
    servers, while the clock did not go back, the store answers for a server as
    its failures since it was last heard of demand.  With none it may be tried.
    Otherwise the wait starts at the newest failure and is of that failure's
    class, with a streak of the windows from the first to the newest failure,
    capped.  Reports about other servers change nothing, the summary of all
    servers says of each what its own does, and 24 hours after its last failure
    every server may be tried. *)
Theorem peer_verdict_from_history h t0 s now clock :
  (∀ b, kv_get (column t0) b = None) → Forall ev_ok h → StronglySorted Z.le (h ≫= readings) → name_ok s → now ≤ u64_max →
  ∃ t, replay h t0 = Some (Ok t)
    ∧ should_attempt s now clock t = Some (Ok (verdict (since s h) now clock))
    ∧ peer_has_failures s t = Some (Ok (bool_decide (since s h ≠ [])))
    ∧ peer_backoff s now t = Some (Ok (peer_backoff_from self now <$> streak_since (since s h)))
    ∧ (∃ m, peer_backoffs now t = Some (Ok m) ∧ ∀ s', m !! s' = peer_backoff_from self now <$> streak_since (since s' h))
    ∧ (∀ c at_ later, last (since s h) = Some (c, at_, later) → at_ + MAX_BACKOFF ≤ now → should_attempt s now clock t = Some (Ok Yes)).
Proof.
  intros H0 Hok Hsort Hs Hnow.
  destruct (replay_tracks [] h t0 ∅) as (t & R & Hrun & Hh & Ht); [|by intros s' k|done..|].
  { split; [|by intros s' k f]. intros b v. rewrite H0. split; [done|]. by intros (s' & k & f & ? & _). }
  destruct (peer_streak_spec t R s Hh Hs) as (es & Hstreak & Hsad & Hss & Hmem).
  destruct (streak_tracks s R (since s h) es Hss Hmem (Ht s)) as [Heq Hne].
  assert (Hsa : should_attempt s now clock t = Some (Ok (verdict (since s h) now clock))) by (unfold should_attempt; by rewrite Hstreak, Heq).
  exists t. split_and!; [done|done| | | |].
  - rewrite Hsad. do 2 f_equal. by apply bool_decide_ext.
  - unfold peer_backoff. by rewrite Hstreak, Heq.
  - destruct (peer_backoffs_spec t R now Hh) as (m & es' & Hm & Hlt & Hmem' & Hget). exists m. split; [done|]. intros s'. rewrite Hget. f_equal.
    apply (streak_tracks s' R); [| |apply Ht].
    + unfold server_of. eapply sorted_weaken; [apply sorted_filter; exact Hlt|].
      intros [[sa ka] fa] [[sb kb] fb] [Hsa' HRa%Hmem']%list_elem_of_filter [Hsb' HRb%Hmem']%list_elem_of_filter.
      unfold row_lt. cbn [fst snd] in *. subst sa sb. destruct (holds_names _ _ Hh _ _ _ HRa) as (_ & Hka & _).
      destruct (holds_names _ _ Hh _ _ _ HRb) as (_ & Hkb & _). rewrite skey_cmp by done. apply Z.compare_lt_iff.
    + intros e. unfold server_of. by rewrite list_elem_of_filter, Hmem'.
  - intros c at_ later Hl Hle. rewrite Hsa. by rewrite (verdict_after _ _ _ _ _ _ Hl).
Qed.

End Scans.
End Peers.

(** ** A server that keeps failing *)

(** Two servers; the first fails, is heard of, and fails in two windows. *)
Definition sample_history : list Event :=
  [Failed [97] Transient 100 100; Failed [98] Permanent 150 150; Alive [97];
   Failed [97] Transient 400 400; Failed [97] Transient 700 701].

#[local] Existing Instance usize_64.

Notation sample_replay := (replay (Column0 := gmap_column) no_format no_format (λ _, EmptyString) true (build 180 0)).
Notation sample_attempt := (should_attempt (Column0 := gmap_column) no_format no_format (λ _, EmptyString) true (build 180 0)).

Lemma peer_verdict_from_history_witness :
  ∃ t, sample_replay sample_history (mkTable ∅ []) = Some (Ok t)
    ∧ sample_attempt [97] 800 800 t = Some (Ok (No 1420)) ∧ sample_attempt [97] 1420 1420 t = Some (Ok Yes).
Proof.
  assert (Hok : Forall (ev_ok) sample_history) by (repeat (constructor; [split; [by split|repeat constructor; by cbn]|]); constructor).
  assert (Hsort : StronglySorted Z.le (sample_history ≫= readings)) by (cbn; repeat constructor; lia).
  assert (Hname : name_ok [97]) by (by split).
  pose proof (peer_verdict_from_history (Column0 := gmap_column) no_format no_format (λ _, EmptyString) true (build 180 0)
    (λ _, eq_refl) sample_history (mkTable ∅ []) [97]) as Hthm.
  destruct (Hthm 800 800 (λ b, lookup_empty b) Hok Hsort Hname ltac:(done)) as (t & Hrun & Hno & _).
  destruct (Hthm 1420 1420 (λ b, lookup_empty b) Hok Hsort Hname ltac:(done)) as (t' & Hrun' & Hyes & _).
  exists t. split; [exact Hrun|]. split; [rewrite Hno; reflexivity|].
  rewrite Hrun in Hrun'. injection Hrun' as <-. rewrite Hyes. reflexivity.
Defined.

(** The streak cap can keep the wait of a server that fails for ever below
    [MAX_BACKOFF]: where a window does not divide it, the cap counts the whole
    windows only. *)
Lemma cap_below_max now run :
  streak_class run = Transient → delay_secs (backoff (build 266 0) now run) ≤ 86184 < MAX_BACKOFF.
Proof.
  intros Hc. unfold delay_secs, backoff. cbn [class streak grace_secs backoff_window]. rewrite Hc.
  change (grace (build 266 0)) with 0. rewrite andb_false_r. change (window_secs (build 266 0)) with 266.
  assert (Hs : 0 ≤ streak_of (build 266 0) (latest_bucket run) (oldest_bucket run) ≤ 18).
  { unfold streak_of, add64, u64_max, u32_max. change (n_max (build 266 0)) with 18. case_match; lia. }
  unfold mul64, MAX_BACKOFF, u64_max. split; [nia|lia].
Qed.
