(* ===== verification/SendQueue.v ===== *)
(** * SendQueue: the stored queue of what is to be sent

    src/service/sending/dest.rs and data.rs, with the events of mod.rs: rows
    under the prefix of a destination, in one column while they wait and in
    another while a transaction carries them.  Ids are parsed by ruma, whose
    parsers are parameters; nothing watches these columns. *)

From stdpp Require Import sorting.
From S2P Require Import Prelude CoreError Bytes Store ByteOrder PduId RecordCodec WriteBatch Scan.

Inductive Destination :=
| Appservice (id : bytes)
| Push (user pushkey : bytes)
| Federation (server : bytes).

Inductive SendingEvent :=
| Pdu (id : RawId)
| Edu (buf : bytes)
| ToDevice (buf : bytes)
| DeviceListChanged (buf : bytes)
| BadgeRefresh
| Flush.

#[global] Instance RawId_eq_dec : EqDecision RawId.
Proof. solve_decision. Defined.
#[global] Instance SendingEvent_eq_dec : EqDecision SendingEvent.
Proof. solve_decision. Defined.
#[global] Instance Destination_eq_dec : EqDecision Destination.
Proof. solve_decision. Defined.
#[global, refine] Instance Destination_countable : Countable Destination :=
  inj_countable' (λ d, match d with Appservice i => inl (inl i) | Push u k => inl (inr (u, k)) | Federation s => inr s end)
    (λ x, match x with inl (inl i) => Appservice i | inl (inr (u, k)) => Push u k | inr s => Federation s end) _.
Proof. by intros []. Defined.

(** The rows of a column: by destination, and what the key ends with. *)
Notation Rows := (gmap (Destination * bytes) SendingEvent).

Definition TAG_TO_DEVICE : Z := 1.
Definition TAG_DEVICE_LIST_CHANGED : Z := 2.
Definition TAG_BADGE_REFRESH : Z := 3.

Definition value_bytes (e : SendingEvent) : bytes :=
  match e with
  | Edu bytes | ToDevice bytes | DeviceListChanged bytes => bytes
  | BadgeRefresh => [TAG_BADGE_REFRESH]
  | Pdu _ | Flush => []
  end.

(** The capacity reserved makes no difference. *)
Definition get_prefix (self : Destination) : bytes :=
  match self with
  | Federation server => server ++ [SEP]
  | Appservice server => 43 :: server ++ [SEP]
  | Push user pushkey => 36 :: user ++ SEP :: pushkey ++ [SEP]
  end.

Definition event_key (self : Destination) (pdu_id : RawId) : bytes := get_prefix self ++ as_bytes pdu_id.

Definition bad_database {A} (message : string) : Res A := Err (Database message).

(** [splitn]: what comes before the first separator, and what is left. *)
Fixpoint split_once (s : bytes) : bytes * option bytes :=
  match s with
  | [] => ([], None)
  | b :: s => if b =? SEP then ([], Some s) else let '(x, rest) := split_once s in (b :: x, rest)
  end.

Definition map_bad {A} (message : string) (r : Res A) : Res A := match r with Err _ => bad_database message | r => r end.
Definition some_or {A} (message : string) (o : option A) : Res A := match o with Some a => Ok a | None => bad_database message end.

Section Rows.
(** [UserId::parse] and [OwnedServerName::parse] *)
Context (parse_user_id parse_server_name : bytes → option bytes).

Definition decode_pdu (event : bytes) : Res SendingEvent := id ← RawId_from_bytes event; Ok (Pdu id).

Definition parse_appservice (key value : bytes) : Res (Destination * SendingEvent) :=
  let '(server, event) := split_once key in
  event ← some_or "Invalid bytes in servercurrentpdus." event;
  server ← map_bad "Invalid server bytes in server_currenttransaction" (str_from_bytes server);
  decoded ← match value with
    | [] => decode_pdu event
    | tag :: _ =>
        if tag =? TAG_TO_DEVICE then Ok (ToDevice value)
        else if tag =? TAG_DEVICE_LIST_CHANGED then Ok (DeviceListChanged value)
        else Ok (Edu value)
    end;
  Ok (Appservice server, decoded).

Definition parse_push (key value : bytes) : Res (Destination * SendingEvent) :=
  let '(user, rest) := split_once key in
  user_string ← map_bad "Invalid user string in servercurrentevent" (str_from_bytes user);
  user_id ← some_or "Invalid user id in servercurrentevent" (parse_user_id user_string);
  rest ← some_or "Invalid bytes in servercurrentpdus." rest;
  let '(pushkey, event) := split_once rest in
  pushkey_string ← map_bad "Invalid pushkey in servercurrentevent" (str_from_bytes pushkey);
  event ← some_or "Invalid bytes in servercurrentpdus." event;
  decoded ← match value with
    | [] => decode_pdu event
    | _ => if bool_decide (value = [TAG_BADGE_REFRESH]) then Ok BadgeRefresh else Ok (Edu value)
    end;
  Ok (Push user_id pushkey_string, decoded).

Definition parse_federation (key value : bytes) : Res (Destination * SendingEvent) :=
  let '(server, event) := split_once key in
  event ← some_or "Invalid bytes in servercurrentpdus." event;
  server ← map_bad "Invalid server bytes in server_currenttransaction" (str_from_bytes server);
  server ← some_or "Invalid server string in server_currenttransaction" (parse_server_name server);
  decoded ← match value with [] => decode_pdu event | _ => Ok (Edu value) end;
  Ok (Federation server, decoded).

Definition parse_servercurrentevent (key value : bytes) : Res (Destination * SendingEvent) :=
  match key with
  | sigil :: rest =>
      if sigil =? 43 then parse_appservice rest value
      else if sigil =? 36 then parse_push rest value
      else parse_federation key value
  | [] => parse_federation key value
  end.

(** ** Rows *)

(** The names a destination can carry: text, and what ruma's parsers accept as
    it is.  A server name begins with neither sigil. *)
Definition dest_ok (dest : Destination) : Prop :=
  match dest with
  | Appservice id => utf8_valid id = true
  | Push user pushkey => utf8_valid user = true ∧ utf8_valid pushkey = true ∧ parse_user_id user = Some user
  | Federation server =>
      utf8_valid server = true ∧ parse_server_name server = Some server ∧ head server ≠ Some 43 ∧ head server ≠ Some 36
  end.

Definition id_ok (id : RawId) : Prop :=
  match id with RawNormal raw => zlen raw = NORMAL_LEN | RawBackfilled raw => zlen raw = BACKFILLED_LEN end.

(** The events a destination is sent, and what their keys end with. *)
Definition event_ok (dest : Destination) (tail : bytes) (e : SendingEvent) : Prop :=
  match e with
  | Pdu id => id_ok id ∧ tail = as_bytes id
  | Edu buf =>
      match dest with
      | Appservice _ => ∃ b rest, buf = b :: rest ∧ b ≠ TAG_TO_DEVICE ∧ b ≠ TAG_DEVICE_LIST_CHANGED
      | Push _ _ => buf ≠ [] ∧ buf ≠ [TAG_BADGE_REFRESH]
      | Federation _ => buf ≠ []
      end
  | ToDevice buf => (∃ id, dest = Appservice id) ∧ ∃ rest, buf = TAG_TO_DEVICE :: rest
  | DeviceListChanged buf => (∃ id, dest = Appservice id) ∧ ∃ rest, buf = TAG_DEVICE_LIST_CHANGED :: rest
  | BadgeRefresh => ∃ user pushkey, dest = Push user pushkey
  | Flush => False
  end.

Lemma split_once_sep s rest : SEP ∉ s → split_once (s ++ SEP :: rest) = (s, Some rest).
Proof.
  induction s as [|b s IH]; intros Hs; cbn [app split_once]; [done|].
  rewrite (proj2 (Z.eqb_neq b SEP)) by (intros ->; apply Hs; left). rewrite IH; [done|]. intros Hin. apply Hs. by right.
Qed.

Lemma slice_all {E A} (l : list A) n : zlen l = n → slice (E := E) l 0 n = Ok l.
Proof.
  intros <-. unfold slice. rewrite (proj2 (Z.leb_le 0 (zlen l))) by apply zlen_nonneg. rewrite Z.leb_refl. rewrite Z.leb_refl. cbn [andb].
  rewrite drop_0, take_ge; [done|]. unfold zlen. lia.
Qed.

Lemma pdu_id_reads id : id_ok id → decode_pdu (as_bytes id) = Ok (Pdu id).
Proof.
  unfold decode_pdu, RawId_from_bytes, into_array.
  destruct id as [raw|raw]; cbn [id_ok as_bytes]; intros Hl; rewrite Hl; cbn [Z.eqb Pos.eqb NORMAL_LEN BACKFILLED_LEN]; rewrite slice_all by done; by rewrite bind_Ok, Hl.
Qed.

Lemma reads_text message s : utf8_valid s = true → map_bad message (str_from_bytes s) = Ok s.
Proof. unfold str_from_bytes. by intros ->. Qed.

(** The three kinds of destination. *)
Lemma read_appservice id tail value :
  utf8_valid id = true →
  parse_servercurrentevent (get_prefix (Appservice id) ++ tail) value =
    (decoded ← match value with
      | [] => decode_pdu tail
      | tag :: _ =>
          if tag =? TAG_TO_DEVICE then Ok (ToDevice value)
          else if tag =? TAG_DEVICE_LIST_CHANGED then Ok (DeviceListChanged value)
          else Ok (Edu value)
      end; Ok (Appservice id, decoded)).
Proof.
  intros Hid. cbn [get_prefix app parse_servercurrentevent]. rewrite <-(assoc_L (++)). change (43 =? 43) with true. cbn iota.
  unfold parse_appservice. cbn [app]. rewrite split_once_sep by by apply utf8_no_sep. cbn [some_or]. by rewrite bind_Ok, reads_text, bind_Ok.
Qed.

Lemma read_push user pushkey tail value :
  dest_ok (Push user pushkey) →
  parse_servercurrentevent (get_prefix (Push user pushkey) ++ tail) value =
    (decoded ← match value with
      | [] => decode_pdu tail
      | _ => if bool_decide (value = [TAG_BADGE_REFRESH]) then Ok BadgeRefresh else Ok (Edu value)
      end; Ok (Push user pushkey, decoded)).
Proof.
  intros (Hu & Hk & Hp). cbn [get_prefix app parse_servercurrentevent]. rewrite <-(assoc_L (++)). cbn [app]. rewrite <-(assoc_L (++)).
  change (36 =? 43) with false. change (36 =? 36) with true. cbn iota.
  unfold parse_push. rewrite split_once_sep by by apply utf8_no_sep. rewrite reads_text, bind_Ok, Hp by done. cbn [some_or]. rewrite !bind_Ok.
  cbn [app]. rewrite split_once_sep by by apply utf8_no_sep. cbn [some_or]. by rewrite reads_text, !bind_Ok.
Qed.

Lemma read_federation server tail value :
  dest_ok (Federation server) →
  parse_servercurrentevent (get_prefix (Federation server) ++ tail) value =
    (decoded ← match value with [] => decode_pdu tail | _ => Ok (Edu value) end; Ok (Federation server, decoded)).
Proof.
  intros (Hs & Hp & Hplus & Hdollar). cbn [get_prefix]. rewrite <-(assoc_L (++)). cbn [app].
  assert (parse_servercurrentevent (server ++ SEP :: tail) value = parse_federation (server ++ SEP :: tail) value) as ->.
  { destruct server as [|b server]; [done|]. cbn [app parse_servercurrentevent head] in *.
    rewrite (proj2 (Z.eqb_neq b 43)), (proj2 (Z.eqb_neq b 36)) by congruence. done. }
  unfold parse_federation. rewrite split_once_sep by by apply utf8_no_sep. cbn [some_or]. by rewrite bind_Ok, reads_text, bind_Ok, Hp.
Qed.

Lemma row_parses dest tail e :
  dest_ok dest → event_ok dest tail e → parse_servercurrentevent (get_prefix dest ++ tail) (value_bytes e) = Ok (dest, e).
Proof.
  intros Hd He. destruct dest as [id|user pushkey|server]; [rewrite read_appservice by done|rewrite read_push by done|rewrite read_federation by done].
  all: destruct e as [pid|buf|buf|buf| |]; cbn [event_ok value_bytes] in *; try done.
  all: try (destruct He as [Hid ->]; by rewrite pdu_id_reads).
  all: try (by destruct He as [(? & ?) _]); try (by destruct He as (? & ? & ?)).
  - destruct He as (b & rest & -> & H1 & H2). by rewrite (proj2 (Z.eqb_neq b _)), (proj2 (Z.eqb_neq b _)).
  - by destruct He as (_ & rest & ->).
  - by destruct He as (_ & rest & ->).
  - destruct He as [Hne Hb]. destruct buf as [|b buf]; [done|]. by rewrite bool_decide_false.
  - destruct buf as [|b buf]; [done|]. done.
Qed.

(** a row of the send queue is read back as it was written: for every
    destination and every event it can be sent, the key and the value decode to
    that destination and that event. *)
Theorem row_roundtrip dest tail e :
  dest_ok dest → event_ok dest tail e → parse_servercurrentevent (get_prefix dest ++ tail) (value_bytes e) = Ok (dest, e).
Proof. apply row_parses. Qed.

(** The rows of one destination are those its prefix begins. *)
Lemma dest_prefix dest dest' tail :
  dest_ok dest → dest_ok dest' → get_prefix dest `prefix_of` get_prefix dest' ++ tail ↔ dest = dest'.
Proof.
  intros Hd Hd'. split; [|intros ->; by exists tail].
  assert (Hfed : ∀ server b x y, dest_ok (Federation server) → (b = 43 ∨ b = 36) → head (server ++ SEP :: x) ≠ Some b ∧ b :: y ≠ []).
  { intros server b x y (_ & _ & H1 & H2) Hb. split; [|done]. destruct server; cbn in *; [intros [=]; unfold SEP in *; lia|]. by destruct Hb as [->| ->]. }
  assert (Hhead : ∀ a b (x y : bytes), a :: x `prefix_of` b :: y → a = b) by (intros; by eapply prefix_cons_inv_1).
  assert (Hcons : ∀ server x, ∃ b y, server ++ SEP :: x = b :: y) by (intros [|b l] x; eauto).
  destruct dest as [id|user pushkey|server], dest' as [id'|user' pushkey'|server']; cbn [get_prefix].
  all: rewrite <-?(assoc_L (++)); cbn [app]; rewrite <-?(assoc_L (++)); cbn [app]; intros Hp.
  - apply prefix_cons_inv_2 in Hp. apply sep_split in Hp as [-> _]; [done|by apply utf8_no_sep..].
  - by apply Hhead in Hp.
  - destruct (Hcons server' tail) as (b & y & Hb). rewrite Hb in Hp. apply Hhead in Hp as <-.
    destruct (Hfed server' 43 tail [] Hd') as [Hne _]; [by left|]. by rewrite Hb in Hne.
  - by apply Hhead in Hp.
  - destruct Hd as (Hu & Hk & _), Hd' as (Hu' & Hk' & _). apply prefix_cons_inv_2 in Hp.
    apply sep_split in Hp as [-> Hp]; [|by apply utf8_no_sep..]. rewrite <-(assoc_L (++)) in Hp.
    apply sep_split in Hp as [-> _]; [done|by apply utf8_no_sep..].
  - destruct (Hcons server' tail) as (b & y & Hb). rewrite Hb in Hp. apply Hhead in Hp as <-.
    destruct (Hfed server' 36 tail [] Hd') as [Hne _]; [by right|]. by rewrite Hb in Hne.
  - destruct (Hcons server []) as (b & y & Hb). rewrite Hb in Hp. apply Hhead in Hp as ->.
    destruct (Hfed server 43 [] [] Hd) as [Hne _]; [by left|]. by rewrite Hb in Hne.
  - destruct (Hcons server []) as (b & y & Hb). rewrite Hb in Hp. apply Hhead in Hp as ->.
    destruct (Hfed server 36 [] [] Hd) as [Hne _]; [by right|]. by rewrite Hb in Hne.
  - destruct Hd as (Hs & _), Hd' as (Hs' & _). apply sep_split in Hp as [-> _]; [done|by apply utf8_no_sep..].
Qed.

Lemma row_key_inj dest dest' tail tail' :
  dest_ok dest → dest_ok dest' → get_prefix dest ++ tail = get_prefix dest' ++ tail' → dest = dest' ∧ tail = tail'.
Proof.
  intros Hd Hd' Heq. assert (dest = dest') as <-.
  { apply (dest_prefix dest dest' tail'); [done..|]. rewrite <-Heq. by exists tail. }
  split; [done|]. by apply (inj (get_prefix dest ++.)) in Heq.
Qed.

Lemma prefix_nonempty dest tail : get_prefix dest ++ tail ≠ [].
Proof. destruct dest; cbn; [done..|]. rewrite <-(assoc_L (++)). by destruct server. Qed.

Definition row_ok (dest : Destination) (tail : bytes) (e : SendingEvent) : Prop := dest_ok dest ∧ event_ok dest tail e.

Section Data.
Context `{!Usize} (debug_assertions : bool) {S I : Type} `{!Column S I} (in_cache : bool).
Context (engine_id cf_current cf_queue : Z).

(** [struct Data] *)
Record Data := mkData { servercurrentevent_data : S; servernameevent_data : S; servername_educount : S }.

Definition current_map : Map := mkMap engine_id cf_current.
Definition queue_map : Map := mkMap engine_id cf_queue.

(** What RocksDB does with a batch. *)
Definition apply_op (d : Data) (op : BatchOp) : Data :=
  let on (f : S → S) :=
    if op_cf op =? cf_current then mkData (f (servercurrentevent_data d)) (servernameevent_data d) (servername_educount d)
    else if op_cf op =? cf_queue then mkData (servercurrentevent_data d) (f (servernameevent_data d)) (servername_educount d)
    else d in
  match op with
  | Put _ key val => on (λ c, kv_put c key val)
  | Delete _ key => on (λ c, kv_del c key)
  | Merge _ _ _ => d
  end.

Definition commit (txn : Txn) (d : Data) : Data := foldl apply_op d (batch txn).

Definition delete_active_request (key : bytes) (d : Data) : Data :=
  mkData (kv_del (servercurrentevent_data d) key) (servernameevent_data d) (servername_educount d).

(** The keys a prefix scan yields, removed one by one; [None] when the scan
    never ends. *)
Definition remove_prefix (prefix : bytes) (c : S) : option (Res S) :=
  for_each_ok debug_assertions (λ key c, kv_del c key) (raw_keys_prefix debug_assertions c prefix) c.

Definition delete_all_active_requests_for (destination : Destination) (d : Data) : option (Res Data) :=
  and_then (remove_prefix (get_prefix destination) (servercurrentevent_data d))
    (λ c, Ok (mkData c (servernameevent_data d) (servername_educount d))).

Definition delete_all_requests_for (destination : Destination) (d : Data) : option (Res Data) :=
  let prefix := get_prefix destination in
  match remove_prefix prefix (servercurrentevent_data d) with
  | Some (Ok c) =>
      and_then (remove_prefix prefix (servernameevent_data d)) (λ q, Ok (mkData c q (servername_educount d)))
  | Some _ => Some Panic
  | None => None
  end.

Definition is_empty_key (key : bytes) : bool := match key with [] => true | _ => false end.

Fixpoint activate (events : list (bytes * SendingEvent)) (txn : Txn) : Res Txn :=
  match events with
  | [] => Ok txn
  | (key, val) :: events =>
      if is_empty_key key then activate events txn
      else
        txn ← insert_raw current_map key (value_bytes val) txn;
        txn ← del_raw queue_map key txn;
        activate events txn
  end.

Definition mark_as_active (events : list (bytes * SendingEvent)) (d : Data) : Res Data :=
  txn ← activate events (Txn_new engine_id); Ok (commit txn d).

(** The keys of composed EDUs; [draw] is the global counter's next numbers. *)
Fixpoint edu_items (prefix : bytes) (draw : nat → Z) (edus : list bytes) : list (bytes * bytes) :=
  match edus with
  | [] => []
  | edu :: edus => (prefix ++ be_bytes 8 (draw O), edu) :: edu_items prefix (λ n, draw (Datatypes.S n)) edus
  end.

Definition persist_active_edus (server : bytes) (draw : nat → Z) (edus : list bytes) (d : Data) : Res Data :=
  txn ← insert current_map (edu_items (get_prefix (Federation server)) draw edus); Ok (commit txn d).

Definition expect {A} (r : Res A) : Res A := match r with Ok a => Ok a | _ => Panic end.

Definition active_requests (d : Data) : Stream (bytes * SendingEvent * Destination) :=
  stream_map (λ r, kv ← r; p ← expect (parse_servercurrentevent kv.1 kv.2); Ok (kv.1, p.2, p.1))
    (ignore_err debug_assertions (raw_stream debug_assertions (servercurrentevent_data d))).

Definition requests_for (destination : Destination) (c : S) : Stream (bytes * SendingEvent) :=
  let prefix := get_prefix destination in
  stream_map (λ r, kv ← r; p ← expect (parse_servercurrentevent kv.1 kv.2); Ok (kv.1, p.2))
    (try_take_while (λ kv, starts_with prefix kv.1) (ignore_err debug_assertions (raw_stream_from debug_assertions c prefix))).

Definition active_requests_for (destination : Destination) (d : Data) : Stream (bytes * SendingEvent) :=
  requests_for destination (servercurrentevent_data d).
Definition queued_requests (destination : Destination) (d : Data) : Stream (bytes * SendingEvent) :=
  requests_for destination (servernameevent_data d).

Fixpoint request_keys (draw : nat → Z) (requests : list (SendingEvent * Destination)) : list bytes :=
  match requests with
  | [] => []
  | (Pdu pdu_id, dest) :: requests => event_key dest pdu_id :: request_keys draw requests
  | (_, dest) :: requests => (get_prefix dest ++ be_bytes 8 (draw O)) :: request_keys (λ n, draw (Datatypes.S n)) requests
  end.

Definition queue_requests (draw : nat → Z) (requests : list (SendingEvent * Destination)) (d : Data) : Res (list bytes * Data) :=
  let keys := request_keys draw requests in
  let items := zip_with (λ key (r : SendingEvent * Destination), (key, value_bytes r.1)) keys requests in
  txn ← insert queue_map items; Ok (keys, commit txn d).

(** Whether [retain_queued] yields an item; it asks when it comes to it. *)
Definition retain_queued (item : bytes * SendingEvent) (d : Data) : Res bool :=
  if is_empty_key item.1 then Ok true
  else match exists_ in_cache (servernameevent_data d) item.1 with Ok _ => Ok true | Err _ => Ok false | Panic => Panic end.

Definition is_badge_row (r : Res KeyVal) : bool :=
  match r with Ok kv => bool_decide (kv.2 = [TAG_BADGE_REFRESH]) | _ => true end.

Definition queued_badge_refresh_destinations (d : Data) : Stream Destination :=
  let found := try_take_while (λ kv : KeyVal, starts_with [36] kv.1)
    (ignore_err debug_assertions (raw_stream_from debug_assertions (servernameevent_data d) [36])) in
  stream_map (λ r, kv ← r; p ← expect (parse_servercurrentevent kv.1 kv.2); Ok p.1)
    (mkStream (filter (λ r, is_badge_row r = true) (yielded found)) (ended found)).

Definition set_latest_educount (server_name : bytes) (last_count : Z) (d : Data) : Data :=
  mkData (servercurrentevent_data d) (servernameevent_data d) (kv_put (servername_educount d) server_name (be_bytes 8 last_count)).

(** [get(..).deserialized().unwrap_or(0)] *)
Definition get_latest_educount (server_name : bytes) (d : Data) : Res Z :=
  match get in_cache (servername_educount d) server_name with
  | Ok v => match deserialized debug_assertions v with Ok n => Ok n | Err _ => Ok 0 | Panic => Panic end
  | Err _ => Ok 0
  | Panic => Panic
  end.

(** ** What a column holds *)

Record holds (c : S) (R : Rows) : Prop := {
  holds_rows : ∀ b v, kv_get c b = Some v ↔
    ∃ dest tail e, R !! (dest, tail) = Some e ∧ b = get_prefix dest ++ tail ∧ v = value_bytes e;
  holds_ok : ∀ dest tail e, R !! (dest, tail) = Some e → row_ok dest tail e
}.

Lemma row_lookup c R dest tail :
  holds c R → dest_ok dest → kv_get c (get_prefix dest ++ tail) = value_bytes <$> R !! (dest, tail).
Proof.
  intros [Hr Hok] Hd. destruct (kv_get c _) as [v|] eqn:Hv.
  - apply Hr in Hv as (dest' & tail' & e & HR & Hk & ->). destruct (Hok _ _ _ HR) as [Hd' _].
    apply row_key_inj in Hk as [<- <-]; [|done..]. by rewrite HR.
  - destruct (R !! (dest, tail)) as [e|] eqn:HR; [|done]. assert (kv_get c (get_prefix dest ++ tail) = Some (value_bytes e)); [|congruence].
    apply Hr. by exists dest, tail, e.
Qed.

Lemma put_holds c R dest tail e :
  holds c R → row_ok dest tail e → holds (kv_put c (get_prefix dest ++ tail) (value_bytes e)) (<[(dest, tail) := e]> R).
Proof.
  intros [Hr Hok] [Hd He]. split.
  - intros b v. destruct (decide (get_prefix dest ++ tail = b)) as [<-|Hb].
    + rewrite kv_get_put_eq. split.
      * intros [= <-]. exists dest, tail, e. by rewrite lookup_insert_eq.
      * intros (dest' & tail' & e' & [[[= <- <-] <-]|[Hne HR]]%lookup_insert_Some & Hk & ->); [done|].
        destruct (Hok _ _ _ HR) as [Hd' _]. apply row_key_inj in Hk as [-> ->]; done.
    + rewrite kv_get_put_ne, Hr by done. split.
      * intros (dest' & tail' & e' & HR & -> & ->). exists dest', tail', e'. rewrite lookup_insert_ne by congruence. done.
      * intros (dest' & tail' & e' & [[[= <- <-] <-]|[Hne HR]]%lookup_insert_Some & -> & ->); [done|]. by exists dest', tail', e'.
  - intros dest' tail' e' [[[= <- <-] <-]|[Hne HR]]%lookup_insert_Some; [done|]. by apply Hok in HR.
Qed.

Lemma del_holds c R dest tail :
  holds c R → dest_ok dest → holds (kv_del c (get_prefix dest ++ tail)) (delete (dest, tail) R).
Proof.
  intros [Hr Hok] Hd. split.
  - intros b v. destruct (decide (b = get_prefix dest ++ tail)) as [->|Hb].
    + rewrite kv_get_del_eq. split; [done|]. intros (dest' & tail' & e & [Hne HR]%lookup_delete_Some & Hk & _).
      destruct (Hok _ _ _ HR) as [Hd' _]. apply row_key_inj in Hk as [-> ->]; done.
    + rewrite kv_get_del_ne, Hr by done. split.
      * intros (dest' & tail' & e & HR & -> & ->). exists dest', tail', e. rewrite lookup_delete_ne by congruence. done.
      * intros (dest' & tail' & e & [Hne HR]%lookup_delete_Some & -> & ->). by exists dest', tail', e.
  - intros dest' tail' e [Hne HR]%lookup_delete_Some. by apply Hok in HR.
Qed.

(** The rows of every other destination. *)
Definition without (dest : Destination) (R : Rows) : Rows := filter (λ r, r.1.1 ≠ dest) R.

Lemma lookup_without dest R x t : without dest R !! (x, t) = if decide (x = dest) then None else R !! (x, t).
Proof.
  unfold without. case_decide as Hx.
  - apply map_lookup_filter_None. right. by intros e _ ?.
  - destruct (R !! (x, t)) as [e|] eqn:HR; [apply map_lookup_filter_Some; done|apply map_lookup_filter_None; by left].
Qed.

Section Scans.
(** No iterator is in error. *)
Hypothesis healthy : ∀ it : I, it_status it = None.

Lemma remove_prefix_spec c R dest :
  holds c R → dest_ok dest → ∃ c', remove_prefix (get_prefix dest) c = Some (Ok c') ∧ holds c' (without dest R).
Proof.
  intros [Hr Hok] Hd. unfold remove_prefix. rewrite raw_keys_prefix_spec, for_each_done by done.
  eexists. split; [reflexivity|]. split.
  - intros b v. rewrite del_all, under_gone. unfold starts_with. split.
    + case_bool_decide as Hp; [done|]. intros (dest' & tail & e & HR & -> & ->)%Hr. exists dest', tail, e.
      destruct (Hok _ _ _ HR) as [Hd' _]. rewrite dest_prefix in Hp by done. rewrite lookup_without, decide_False by congruence. done.
    + intros (dest' & tail & e & HR & -> & ->). rewrite lookup_without in HR. case_decide as Hne; [done|].
      destruct (Hok _ _ _ HR) as [Hd' _]. rewrite bool_decide_false by (rewrite dest_prefix by done; congruence).
      apply Hr. by exists dest', tail, e.
  - intros dest' tail e HR. rewrite lookup_without in HR. case_decide; [done|]. by apply Hok.
Qed.

(** The rows of a destination in the order of their keys. *)
Definition lists (dest : Destination) (R : Rows) (l : list (bytes * SendingEvent)) : Prop :=
  StronglySorted (λ a b, lex_cmp a.1 b.1 = Lt) l ∧ ∀ t e, (t, e) ∈ l ↔ R !! (dest, t) = Some e.

Definition item_of (dest : Destination) (te : bytes * SendingEvent) : bytes * SendingEvent := (get_prefix dest ++ te.1, te.2).

Lemma requests_for_spec c R dest :
  holds c R → dest_ok dest → ∃ l, requests_for dest c = done_stream (item_of dest <$> l) ∧ lists dest R l.
Proof.
  intros Hh Hd. destruct Hh as [Hr Hok] eqn:Heq. clear Heq. set (p := get_prefix dest).
  assert (Hin : ∀ kv, kv ∈ under p c ↔ ∃ t e, R !! (dest, t) = Some e ∧ kv = (p ++ t, value_bytes e)).
  { intros [b v]. unfold under. rewrite list_elem_of_filter, records_get, Hr. cbn [fst]. split.
    - intros [Hp (dest' & t & e & HR & -> & ->)]. destruct (Hok _ _ _ HR) as [Hd' _]. apply dest_prefix in Hp as <-; [|done..]. by exists t, e.
    - intros (t & e & HR & [= -> ->]). split; [by exists t|]. by exists dest, t, e. }
  destruct (scan_entries (λ kv te, R !! (dest, te.1) = Some te.2 ∧ kv = (p ++ te.1, value_bytes te.2)) (λ a b, lex_cmp a.1 b.1 = Lt)
    (under p c) (under_sorted p c)) as (l & Hl & Hsort).
  - intros kv (t & e & HR & ->)%Hin. by exists (t, e).
  - intros ? ? [t e] [t' e'] [_ ->] [_ ->]. unfold key_lt. cbn [fst]. by rewrite lex_cmp_same.
  - exists l. split; [|split; [done|]].
    + unfold requests_for. fold p.
      assert (ignore_err debug_assertions (raw_stream_from debug_assertions c p) = raw_stream_from debug_assertions c p) as ->.
      { unfold raw_stream_from. rewrite raw_stream_spec by done. apply ignore_err_done. }
      change (try_take_while _ _) with (raw_stream_prefix debug_assertions c p). rewrite raw_stream_prefix_spec by done.
      apply stream_map_done. apply Forall2_fmap_r. eapply Forall2_impl; [exact Hl|]. intros kv [t e] [HR ->]. cbn [fst snd].
      destruct (Hok _ _ _ HR) as [_ He]. rewrite bind_Ok. cbn [fst snd]. unfold p. by rewrite row_parses.
    + intros t e. split.
      * intros (i & Hi)%list_elem_of_lookup. by destruct (Forall2_lookup_r _ _ _ _ _ Hl Hi) as (kv & _ & HR & _).
      * intros HR. assert (Hkv : (p ++ t, value_bytes e) ∈ under p c) by (apply Hin; by exists t, e).
        apply list_elem_of_lookup in Hkv as (i & Hi). destruct (Forall2_lookup_l _ _ _ _ _ Hl Hi) as ([t' e'] & Hi' & HR' & [= Ht _]).
        apply (inj (p ++.)) in Ht as <-. cbn in HR'. rewrite HR in HR'. injection HR' as ->. by eapply list_elem_of_lookup_2.
Qed.

Lemma stream_taken n dest l :
  collect debug_assertions (stream_take n (done_stream (item_of dest <$> l))) = Some (Ok (item_of dest <$> take n l)).
Proof. by rewrite stream_take_done, collect_done, fmap_take. Qed.

Hypothesis columns_differ : cf_current ≠ cf_queue.

(** The two columns as rows in flight and rows waiting. *)
Definition stores (d : Data) (A Q : Rows) : Prop := holds (servercurrentevent_data d) A ∧ holds (servernameevent_data d) Q.

Lemma delete_all_active_spec d A Q dest :
  stores d A Q → dest_ok dest → ∃ d', delete_all_active_requests_for dest d = Some (Ok d') ∧ stores d' (without dest A) Q.
Proof.
  intros [HA HQ] Hd. destruct (remove_prefix_spec _ _ dest HA Hd) as (c & Hrun & Hc).
  unfold delete_all_active_requests_for. rewrite Hrun. eexists. split; [reflexivity|]. done.
Qed.

Lemma delete_all_spec d A Q dest :
  stores d A Q → dest_ok dest → ∃ d', delete_all_requests_for dest d = Some (Ok d') ∧ stores d' (without dest A) (without dest Q).
Proof.
  intros [HA HQ] Hd. destruct (remove_prefix_spec _ _ dest HA Hd) as (c & Hrun & Hc). destruct (remove_prefix_spec _ _ dest HQ Hd) as (q & Hrun' & Hq).
  unfold delete_all_requests_for. rewrite Hrun, Hrun'. eexists. split; [reflexivity|]. done.
Qed.

Lemma delete_active_spec d A Q dest tail :
  stores d A Q → dest_ok dest → stores (delete_active_request (get_prefix dest ++ tail) d) (delete (dest, tail) A) Q.
Proof. intros [HA HQ] Hd. split; [by apply del_holds|done]. Qed.

Lemma commit_app txn txn' d ops : batch txn' = batch txn ++ ops → commit txn' d = foldl apply_op (commit txn d) ops.
Proof. intros Hb. unfold commit. by rewrite Hb, foldl_app. Qed.

Lemma apply_current_put key val d :
  apply_op d (Put cf_current key val) = mkData (kv_put (servercurrentevent_data d) key val) (servernameevent_data d) (servername_educount d).
Proof. cbn. by rewrite Z.eqb_refl. Qed.

Lemma apply_queue op d (f : S → S) :
  (∃ key val, op = Put cf_queue key val ∧ f = λ c, kv_put c key val) ∨ (∃ key, op = Delete cf_queue key ∧ f = λ c, kv_del c key) →
  apply_op d op = mkData (servercurrentevent_data d) (f (servernameevent_data d)) (servername_educount d).
Proof. intros [(key & val & -> & ->)|(key & -> & ->)]; cbn; by rewrite (proj2 (Z.eqb_neq cf_queue cf_current)), Z.eqb_refl by done. Qed.

Lemma activate_spec dest ts txn d A Q :
  Forall (λ te, row_ok dest te.1 te.2) ts → engine txn = engine_id → stores (commit txn d) A Q →
  ∃ txn', activate (item_of dest <$> ts) txn = Ok txn'
    ∧ stores (commit txn' d) (foldl (λ A te, <[(dest, te.1) := te.2]> A) A ts) (foldl (λ Q te, delete (dest, te.1) Q) Q ts).
Proof.
  intros Hts. revert txn A Q. induction Hts as [|[t e] ts Hte Hts IH]; intros txn A Q He Hd; [by exists txn|].
  cbn [fmap list_fmap activate item_of fst snd foldl]. fold (item_of dest <$> ts).
  assert (is_empty_key (get_prefix dest ++ t) = false) as ->.
  { destruct (get_prefix dest ++ t) eqn:Hk; [by apply prefix_nonempty in Hk|done]. }
  unfold insert_raw, del_raw, assert_map. rewrite He. cbn [map_engine current_map queue_map]. rewrite Z.eqb_refl, !bind_Ok.
  cbn [engine queue]. rewrite He, Z.eqb_refl, !bind_Ok. apply IH; [done|].
  cbn [map_cf current_map queue_map]. unfold commit. cbn [batch queue]. rewrite !foldl_app. fold (commit txn d). cbn [foldl].
  rewrite apply_current_put, (apply_queue _ _ (λ c, kv_del c (get_prefix dest ++ t))) by (right; eauto). destruct Hd as [HA HQ]. destruct Hte as [Hdo He'].
  split; cbn [servercurrentevent_data servernameevent_data]; [by apply put_holds|by apply del_holds].
Qed.

Lemma mark_as_active_spec dest ts d A Q :
  Forall (λ te, row_ok dest te.1 te.2) ts → stores d A Q →
  ∃ d', mark_as_active (item_of dest <$> ts) d = Ok d'
    ∧ stores d' (foldl (λ A te, <[(dest, te.1) := te.2]> A) A ts) (foldl (λ Q te, delete (dest, te.1) Q) Q ts).
Proof.
  intros Hts Hd. destruct (activate_spec dest ts (Txn_new engine_id) d A Q) as (txn & Hrun & Hs); [done..|].
  unfold mark_as_active. rewrite Hrun, bind_Ok. by eexists.
Qed.

(** What an empty key marks is not stored. *)
Lemma mark_none e d : mark_as_active [([], e)] d = Ok d.
Proof. done. Qed.

(** What the key of a request ends with. *)
Fixpoint request_tails (draw : nat → Z) (requests : list (SendingEvent * Destination)) : list bytes :=
  match requests with
  | [] => []
  | (Pdu pdu_id, _) :: requests => as_bytes pdu_id :: request_tails draw requests
  | _ :: requests => be_bytes 8 (draw O) :: request_tails (λ n, draw (Datatypes.S n)) requests
  end.

Definition queued_rows (draw : nat → Z) (requests : list (SendingEvent * Destination)) : list (Destination * bytes * SendingEvent) :=
  zip_with (λ t r, (r.2, t, r.1)) (request_tails draw requests) requests.

Lemma request_keys_spec draw requests :
  request_keys draw requests = (λ r, get_prefix r.1.1 ++ r.1.2) <$> queued_rows draw requests.
Proof.
  unfold queued_rows. revert draw. induction requests as [|[e dest] requests IH]; intros draw; [done|].
  destruct e; cbn [request_keys request_tails zip_with fmap list_fmap]; rewrite IH; done.
Qed.

Lemma items_spec draw requests :
  zip_with (λ key (r : SendingEvent * Destination), (key, value_bytes r.1)) (request_keys draw requests) requests =
    (λ r, (get_prefix r.1.1 ++ r.1.2, value_bytes r.2)) <$> queued_rows draw requests.
Proof.
  unfold queued_rows. revert draw. induction requests as [|[e dest] requests IH]; intros draw; [done|].
  destruct e; cbn [request_keys request_tails zip_with fmap list_fmap]; rewrite IH; done.
Qed.

(** The operations of a batch that inserts. *)
Lemma insert_ops (map : Map) (items : list (bytes * bytes)) :
  ∃ txn, insert map items = Ok txn ∧ batch txn = (λ i, Put (map_cf map) i.1 i.2) <$> items.
Proof.
  unfold insert. assert (Hgen : ∀ t, engine t = map_engine map → ∃ txn,
    foldl (λ txn item, t ← txn; insert_raw map item.1 item.2 t) (Ok t) items = Ok txn ∧ batch txn = batch t ++ ((λ i, Put (map_cf map) i.1 i.2) <$> items)).
  { induction items as [|[k v] items IH]; intros t Ht; [exists t; by rewrite app_nil_r|]. cbn [foldl]. rewrite bind_Ok.
    unfold insert_raw, assert_map. cbn [fst snd]. rewrite Ht, Z.eqb_refl, bind_Ok. destruct (IH (queue (Put (map_cf map) k v) t)) as (txn & Hrun & Hb); [done|].
    exists txn. split; [done|]. rewrite Hb. cbn. by rewrite <-(assoc_L (++)). }
  apply (Hgen (Txn_new (map_engine map))). done.
Qed.

Definition add_rows (rows : list (Destination * bytes * SendingEvent)) (R : Rows) : Rows := foldl (λ R r, <[r.1 := r.2]> R) R rows.

Lemma put_rows rows c R :
  holds c R → Forall (λ r, row_ok r.1.1 r.1.2 r.2) rows →
  holds (foldl (λ c r, kv_put c (get_prefix r.1.1 ++ r.1.2) (value_bytes r.2)) c rows) (add_rows rows R).
Proof.
  intros Hc Hr. revert c R Hc. induction Hr as [|[[dest t] e] rows Hr _ IH]; intros c R Hc; [done|]. cbn [foldl add_rows].
  apply IH. by apply put_holds.
Qed.

Lemma apply_puts cf rows d :
  cf = cf_current ∨ cf = cf_queue →
  foldl apply_op d ((λ i : bytes * bytes, Put cf i.1 i.2) <$> ((λ r : Destination * bytes * SendingEvent, (get_prefix r.1.1 ++ r.1.2, value_bytes r.2)) <$> rows)) =
    let puts c := foldl (λ c (r : Destination * bytes * SendingEvent), kv_put c (get_prefix r.1.1 ++ r.1.2) (value_bytes r.2)) c rows in
    if cf =? cf_current then mkData (puts (servercurrentevent_data d)) (servernameevent_data d) (servername_educount d)
    else mkData (servercurrentevent_data d) (puts (servernameevent_data d)) (servername_educount d).
Proof.
  intros Hcf. revert d. induction rows as [|r rows IH]; intros d; [destruct (_ =? _); by destruct d|].
  cbn [fmap list_fmap foldl]. cbn [fst snd]. destruct Hcf as [->| ->].
  - rewrite apply_current_put. specialize (IH (mkData (kv_put (servercurrentevent_data d) (get_prefix r.1.1 ++ r.1.2) (value_bytes r.2)) (servernameevent_data d) (servername_educount d))).
    rewrite Z.eqb_refl in *. exact IH.
  - rewrite (apply_queue _ _ (λ c, kv_put c (get_prefix r.1.1 ++ r.1.2) (value_bytes r.2))) by (left; eauto).
    specialize (IH (mkData (servercurrentevent_data d) (kv_put (servernameevent_data d) (get_prefix r.1.1 ++ r.1.2) (value_bytes r.2)) (servername_educount d))).
    rewrite (proj2 (Z.eqb_neq cf_queue cf_current)) in * by done. exact IH.
Qed.

Lemma queue_requests_spec draw requests d A Q :
  stores d A Q → Forall (λ r, row_ok r.1.1 r.1.2 r.2) (queued_rows draw requests) →
  ∃ d', queue_requests draw requests d = Ok ((λ r, get_prefix r.1.1 ++ r.1.2) <$> queued_rows draw requests, d')
    ∧ stores d' A (add_rows (queued_rows draw requests) Q).
Proof.
  intros [HA HQ] Hr. unfold queue_requests. rewrite items_spec.
  destruct (insert_ops queue_map ((λ r, (get_prefix r.1.1 ++ r.1.2, value_bytes r.2)) <$> queued_rows draw requests)) as (txn & Hrun & Hb).
  rewrite Hrun, bind_Ok, request_keys_spec. eexists. split; [reflexivity|]. unfold commit. rewrite Hb, apply_puts by by right.
  cbn [map_cf queue_map]. rewrite (proj2 (Z.eqb_neq cf_queue cf_current)) by done. split; [done|]. by apply put_rows.
Qed.

Definition edu_rows (server : bytes) (draw : nat → Z) (edus : list bytes) : list (Destination * bytes * SendingEvent) :=
  imap (λ i edu, (Federation server, be_bytes 8 (draw i), Edu edu)) edus.

Lemma edu_items_spec server draw edus :
  edu_items (get_prefix (Federation server)) draw edus = (λ r, (get_prefix r.1.1 ++ r.1.2, value_bytes r.2)) <$> edu_rows server draw edus.
Proof.
  unfold edu_rows. revert draw. induction edus as [|edu edus IH]; intros draw; [done|]. cbn [edu_items imap fmap list_fmap]. f_equal.
  rewrite IH. done.
Qed.

Lemma persist_spec server draw edus d A Q :
  stores d A Q → dest_ok (Federation server) → Forall (λ edu, edu ≠ []) edus →
  ∃ d', persist_active_edus server draw edus d = Ok d' ∧ stores d' (add_rows (edu_rows server draw edus) A) Q.
Proof.
  intros [HA HQ] Hd He. unfold persist_active_edus. rewrite edu_items_spec.
  destruct (insert_ops current_map ((λ r, (get_prefix r.1.1 ++ r.1.2, value_bytes r.2)) <$> edu_rows server draw edus)) as (txn & Hrun & Hb).
  rewrite Hrun, bind_Ok. eexists. split; [reflexivity|]. unfold commit. rewrite Hb, apply_puts by by left.
  cbn [map_cf current_map]. rewrite Z.eqb_refl. split; [|done]. apply put_rows; [done|].
  apply Forall_lookup. intros i r Hi. unfold edu_rows in Hi. apply list_lookup_imap_Some in Hi as (edu & Hi & ->). split; [done|].
  cbn. rewrite Forall_forall in He. apply He. by eapply list_elem_of_lookup_2.
Qed.

Lemma active_requests_spec d A Q :
  stores d A Q →
  ∃ rows, active_requests d = done_stream ((λ r : Destination * bytes * SendingEvent, (get_prefix r.1.1 ++ r.1.2, r.2, r.1.1)) <$> rows)
    ∧ NoDup (rows.*1) ∧ ∀ dest t e, (dest, t, e) ∈ rows ↔ A !! (dest, t) = Some e.
Proof.
  intros [[Hr Hok] _]. set (c := servercurrentevent_data d) in *.
  destruct (scan_entries (λ kv (r : Destination * bytes * SendingEvent), A !! r.1 = Some r.2 ∧ kv = (get_prefix r.1.1 ++ r.1.2, value_bytes r.2))
    (λ a b, a.1 ≠ b.1) (records c) (records_sorted c)) as (rows & Hl & Hsort).
  - intros [b v] Hkv. apply records_get, Hr in Hkv as (dest & t & e & HR & -> & ->). by exists (dest, t, e).
  - intros ? ? [k e] [k' e'] [_ ->] [_ ->] Hlt Heq. cbn in Heq. subst k'. unfold key_lt in Hlt. cbn in Hlt. by rewrite lex_cmp_refl in Hlt.
  - exists rows. split_and!.
    + unfold active_requests, raw_stream. fold c. rewrite raw_stream_spec, ignore_err_done by done. unfold scanned.
      apply stream_map_done. apply Forall2_fmap_r. eapply Forall2_impl; [exact Hl|]. intros kv [[dest t] e] [HR ->]. cbn [fst snd] in *.
      destruct (Hok _ _ _ HR) as [Hd He]. rewrite bind_Ok. cbn [fst snd]. by rewrite row_parses.
    + clear -Hsort. induction Hsort as [|r rows _ IH Hr]; [constructor|]. cbn. constructor; [|done].
      intros (r' & Heq & Hin)%list_elem_of_fmap. rewrite Forall_forall in Hr. by apply (Hr r').
    + intros dest t e. split.
      * intros (i & Hi)%list_elem_of_lookup. by destruct (Forall2_lookup_r _ _ _ _ _ Hl Hi) as (kv & _ & HR & _).
      * intros HR. assert (Hkv : (get_prefix dest ++ t, value_bytes e) ∈ records c) by (apply records_get, Hr; by exists dest, t, e).
        apply list_elem_of_lookup in Hkv as (i & Hi). destruct (Forall2_lookup_l _ _ _ _ _ Hl Hi) as ([[dest' t'] e'] & Hi' & HR' & [= Ht _]).
        cbn in HR', Ht. destruct (Hok _ _ _ HR) as [Hd _], (Hok _ _ _ HR') as [Hd' _]. apply row_key_inj in Ht as [<- <-]; [|done..].
        rewrite HR in HR'. injection HR' as ->. by eapply list_elem_of_lookup_2.
Qed.

Lemma retain_queued_spec d A Q dest t e :
  stores d A Q → dest_ok dest → retain_queued (get_prefix dest ++ t, e) d = Ok (bool_decide (is_Some (Q !! (dest, t)))).
Proof.
  intros [_ HQ] Hd. unfold retain_queued. cbn [fst].
  assert (is_empty_key (get_prefix dest ++ t) = false) as ->.
  { destruct (get_prefix dest ++ t) eqn:Hk; [by apply prefix_nonempty in Hk|done]. }
  unfold exists_. rewrite get_spec, (row_lookup _ Q) by done. by destruct (Q !! (dest, t)).
Qed.

Lemma ignore_raw_from c p : ignore_err debug_assertions (raw_stream_from debug_assertions c p) = raw_stream_from debug_assertions c p.
Proof. unfold raw_stream_from. rewrite raw_stream_spec by done. apply ignore_err_done. Qed.

Lemma badge_row_spec dest t e :
  row_ok dest t e →
  ([36] `prefix_of` get_prefix dest ++ t ∧ value_bytes e = [TAG_BADGE_REFRESH]) ↔ e = BadgeRefresh.
Proof.
  intros [Hd He]. split.
  - intros [Hp Hv]. destruct dest as [id|user pushkey|server].
    + by apply prefix_cons_inv_1 in Hp.
    + destruct e as [pid|buf|buf|buf| |]; cbn in Hv, He; try done; [by destruct He as [_ ?]|destruct He as [(? & ?) _]; done..].
    + destruct Hd as (_ & _ & _ & Hne). exfalso. apply Hne. destruct server as [|b server]; cbn in Hp; [by apply prefix_cons_inv_1 in Hp|].
      apply prefix_cons_inv_1 in Hp. cbn. by rewrite Hp.
  - intros ->. destruct He as (user & pushkey & ->). split; [|done]. eexists. reflexivity.
Qed.

Lemma badge_destinations_spec d A Q :
  stores d A Q →
  ∃ l, queued_badge_refresh_destinations d = done_stream l ∧ ∀ dest, dest ∈ l ↔ ∃ t, Q !! (dest, t) = Some BadgeRefresh.
Proof.
  intros [_ [Hr Hok]]. set (c := servernameevent_data d) in *.
  assert (Hrow : ∀ b v, (b, v) ∈ under [36] c ∧ v = [TAG_BADGE_REFRESH] ↔ ∃ dest t, Q !! (dest, t) = Some BadgeRefresh ∧ b = get_prefix dest ++ t ∧ v = [TAG_BADGE_REFRESH]).
  { intros b v. unfold under. rewrite list_elem_of_filter, records_get, Hr. cbn [fst]. split.
    - intros [[Hp (dest & t & e & HR & -> & ->)] Hv]. exists dest, t. rewrite HR. split; [|done]. f_equal. by apply (badge_row_spec dest t e (Hok _ _ _ HR)).
    - intros (dest & t & HR & -> & ->). destruct (badge_row_spec dest t _ (Hok _ _ _ HR)) as [_ [Hp _]]; [done|].
      split; [|done]. split; [done|]. by exists dest, t, BadgeRefresh. }
  set (rows := filter (λ kv, kv.2 = [TAG_BADGE_REFRESH]) (under [36] c)).
  set (dest_of := λ kv : KeyVal, match parse_servercurrentevent kv.1 kv.2 with Ok p => p.1 | _ => Federation [] end).
  assert (Hparse : ∀ kv, kv ∈ rows → ∃ dest t, Q !! (dest, t) = Some BadgeRefresh ∧ kv = (get_prefix dest ++ t, [TAG_BADGE_REFRESH])
    ∧ parse_servercurrentevent kv.1 kv.2 = Ok (dest, BadgeRefresh)).
  { intros [b v] [Hv Hin]%list_elem_of_filter. destruct (proj1 (Hrow b v)) as (dest & t & HR & -> & ->); [done|]. exists dest, t.
    destruct (Hok _ _ _ HR) as [Hd He]. split_and!; [done..|]. by apply (row_parses dest t BadgeRefresh). }
  exists (dest_of <$> rows). split.
  - unfold queued_badge_refresh_destinations. fold c. rewrite ignore_raw_from.
    change (try_take_while _ _) with (raw_stream_prefix debug_assertions c [36]). rewrite raw_stream_prefix_spec by done. cbn [yielded ended done_stream].
    rewrite filter_fmap. cbn [is_badge_row].
    assert (filter (λ kv : KeyVal, bool_decide (kv.2 = [TAG_BADGE_REFRESH]) = true) (under [36] c) = rows) as ->.
    { unfold rows. apply filter_ext_in. intros kv _. apply bool_decide_eq_true. }
    apply stream_map_done, Forall2_fmap_r, Forall2_same_length_lookup_2; [done|]. intros i kv kv' Hi Hi'. rewrite Hi in Hi'. injection Hi' as <-.
    destruct (Hparse kv) as (dest & t & _ & _ & Hp); [by eapply list_elem_of_lookup_2|]. unfold dest_of. unfold compose. by rewrite bind_Ok, Hp.
  - intros dest. rewrite list_elem_of_fmap. split.
    + intros (kv & -> & Hin). destruct (Hparse kv Hin) as (dest' & t & HR & _ & Hp). exists t. unfold dest_of. by rewrite Hp.
    + intros [t HR]. exists (get_prefix dest ++ t, [TAG_BADGE_REFRESH]). assert (Hin : (get_prefix dest ++ t, [TAG_BADGE_REFRESH]) ∈ rows).
      { apply list_elem_of_filter. apply and_comm, Hrow. by exists dest, t. }
      split; [|done]. destruct (Hok _ _ _ HR) as [Hd He]. unfold dest_of. cbn [fst snd].
      change [TAG_BADGE_REFRESH] with (value_bytes BadgeRefresh). by rewrite row_parses.
Qed.

(** ** The numbers EDUs were selected up to *)

Lemma commit_educount txn d : servername_educount (commit txn d) = servername_educount d.
Proof.
  unfold commit. generalize (batch txn). intros ops. revert d. induction ops as [|op ops IH]; intros d; [done|]. cbn [foldl]. rewrite IH.
  destruct op; cbn; [destruct (_ =? _); [done|destruct (_ =? _); done]..|done].
Qed.

(** An operation that leaves the numbers alone. *)
Definition same_educount (d d' : Data) : Prop := servername_educount d' = servername_educount d.

Lemma educount_set server n d :
  u64 n → get_latest_educount server (set_latest_educount server n d) = Ok n.
Proof.
  intros Hn. unfold get_latest_educount, set_latest_educount. cbn [servername_educount]. rewrite get_spec, kv_get_put_eq. by rewrite deserialized_be.
Qed.

Lemma educount_set_ne server server' n d :
  server ≠ server' → get_latest_educount server' (set_latest_educount server n d) = get_latest_educount server' d.
Proof. intros Hne. unfold get_latest_educount, set_latest_educount. cbn [servername_educount]. by rewrite !get_spec, kv_get_put_ne. Qed.


End Scans.
End Data.
End Rows.

(** ** Two destinations *)

(** A server with an event and an EDU waiting, and an appservice with a
    to-device message. *)
Definition sample_pdu : RawId := RawNormal (be_bytes 8 1 ++ be_bytes 8 7).
Definition sample_requests : list (SendingEvent * Destination) :=
  [(Pdu sample_pdu, Federation [97]); (Edu [123; 125], Federation [97]); (ToDevice [1; 0], Appservice [98])].

Lemma row_roundtrip_witness :
  parse_servercurrentevent Some Some (get_prefix (Federation [97]) ++ as_bytes sample_pdu) (value_bytes (Pdu sample_pdu))
    = Ok (Federation [97], Pdu sample_pdu).
Proof. apply (row_roundtrip Some Some (Federation [97]) (as_bytes sample_pdu) (Pdu sample_pdu)); repeat split; done. Defined.

Lemma empty_stores :
  stores Some Some (mkData (∅ : gmap bytes bytes) ∅ ∅) ∅ ∅.
Proof. repeat split; intros; try done; naive_solver. Qed.

