(* ===== verification/SendStore.v ===== *)
(** * SendStore: what the sender relies on of its store

    The interface between src/service/sending/data.rs and sender.rs: the
    operations of the store with their laws on the rows, and the instance over
    two RocksDB columns that SendQueue proves them for. *)

From S2P Require Import Prelude CoreError Bytes Store ByteOrder PduId RecordCodec Scan SendQueue.

(** The store: which destinations it takes, the rows it holds in flight and
    waiting, its operations, and what each does to the rows. *)
Class SendStore (D : Type) := {
  dest_valid : Destination → Prop;
  rows_of : D → Rows → Rows → Prop;

  delete_all_active : Destination → D → option (Res D);
  delete_all : Destination → D → option (Res D);
  delete_active : bytes → D → D;
  mark_active : list (bytes * SendingEvent) → D → Res D;
  queue_up : (nat → Z) → list (SendingEvent * Destination) → D → Res (list bytes * D);
  persist_edus : bytes → (nat → Z) → list bytes → D → Res D;
  all_active : D → Stream (bytes * SendingEvent * Destination);
  active_for : Destination → D → Stream (bytes * SendingEvent);
  queued_for : Destination → D → Stream (bytes * SendingEvent);
  retained : bytes * SendingEvent → D → Res bool;
  badge_destinations : D → Stream Destination;
  educount : bytes → D → Res Z;
  set_educount : bytes → Z → D → D;

  rows_valid d A Q dest t e :
    rows_of d A Q → A !! (dest, t) = Some e ∨ Q !! (dest, t) = Some e → dest_valid dest ∧ event_ok dest t e;

  delete_all_active_law d A Q dest :
    rows_of d A Q → dest_valid dest →
    ∃ d', delete_all_active dest d = Some (Ok d') ∧ rows_of d' (without dest A) Q ∧ ∀ s, educount s d' = educount s d;
  delete_all_law d A Q dest :
    rows_of d A Q → dest_valid dest →
    ∃ d', delete_all dest d = Some (Ok d') ∧ rows_of d' (without dest A) (without dest Q) ∧ ∀ s, educount s d' = educount s d;
  delete_active_law d A Q dest t :
    rows_of d A Q → dest_valid dest →
    rows_of (delete_active (get_prefix dest ++ t) d) (delete (dest, t) A) Q
    ∧ ∀ s, educount s (delete_active (get_prefix dest ++ t) d) = educount s d;
  mark_active_law d A Q dest ts :
    rows_of d A Q → dest_valid dest → Forall (λ te, event_ok dest te.1 te.2) ts →
    ∃ d', mark_active (item_of dest <$> ts) d = Ok d'
      ∧ rows_of d' (foldl (λ A te, <[(dest, te.1) := te.2]> A) A ts) (foldl (λ Q te, delete (dest, te.1) Q) Q ts)
      ∧ ∀ s, educount s d' = educount s d;
  mark_none_law d e : mark_active [([], e)] d = Ok d;
  queue_up_law d A Q draw requests :
    rows_of d A Q → Forall (λ r, dest_valid r.1.1 ∧ event_ok r.1.1 r.1.2 r.2) (queued_rows draw requests) →
    ∃ d', queue_up draw requests d = Ok ((λ r, get_prefix r.1.1 ++ r.1.2) <$> queued_rows draw requests, d')
      ∧ rows_of d' A (add_rows (queued_rows draw requests) Q) ∧ ∀ s, educount s d' = educount s d;
  persist_edus_law d A Q server draw edus :
    rows_of d A Q → dest_valid (Federation server) → Forall (λ edu, edu ≠ []) edus →
    ∃ d', persist_edus server draw edus d = Ok d' ∧ rows_of d' (add_rows (edu_rows server draw edus) A) Q
      ∧ ∀ s, educount s d' = educount s d;
  all_active_law d A Q :
    rows_of d A Q →
    ∃ rows, all_active d = done_stream ((λ r : Destination * bytes * SendingEvent, (get_prefix r.1.1 ++ r.1.2, r.2, r.1.1)) <$> rows)
      ∧ NoDup (rows.*1) ∧ ∀ dest t e, (dest, t, e) ∈ rows ↔ A !! (dest, t) = Some e;
  active_for_law d A Q dest :
    rows_of d A Q → dest_valid dest → ∃ l, active_for dest d = done_stream (item_of dest <$> l) ∧ lists dest A l;
  queued_for_law d A Q dest :
    rows_of d A Q → dest_valid dest → ∃ l, queued_for dest d = done_stream (item_of dest <$> l) ∧ lists dest Q l;
  retained_law d A Q dest t e :
    rows_of d A Q → dest_valid dest → retained (get_prefix dest ++ t, e) d = Ok (bool_decide (is_Some (Q !! (dest, t))));
  retained_none_law d e : retained ([], e) d = Ok true;
  badge_destinations_law d A Q :
    rows_of d A Q → ∃ l, badge_destinations d = done_stream l ∧ ∀ dest, dest ∈ l ↔ ∃ t, Q !! (dest, t) = Some BadgeRefresh;
  set_educount_law d A Q server n :
    rows_of d A Q → u64 n →
    rows_of (set_educount server n d) A Q ∧ educount server (set_educount server n d) = Ok n
    ∧ ∀ s, s ≠ server → educount s (set_educount server n d) = educount s d
}.

(** ** The store over two columns *)

Section Instance.
Context `{!Usize} (parse_user_id parse_server_name : bytes → option bytes) (debug_assertions : bool).
Context {S I : Type} `{!Column S I} (in_cache : bool) (engine_id cf_current cf_queue : Z).
Hypothesis healthy : ∀ it : I, it_status it = None.
Hypothesis columns_differ : cf_current ≠ cf_queue.

Lemma same_count (d d' : Data (S := S)) server :
  servername_educount d' = servername_educount d →
  get_latest_educount debug_assertions in_cache server d' = get_latest_educount debug_assertions in_cache server d.
Proof. intros He. unfold get_latest_educount. by rewrite He. Qed.

#[refine] Instance data_store : SendStore (Data (S := S)) := {|
  dest_valid := dest_ok parse_user_id parse_server_name;
  rows_of := stores parse_user_id parse_server_name;
  delete_all_active := delete_all_active_requests_for debug_assertions;
  delete_all := delete_all_requests_for debug_assertions;
  delete_active := delete_active_request;
  mark_active := mark_as_active engine_id cf_current cf_queue;
  queue_up := queue_requests engine_id cf_current cf_queue;
  persist_edus := persist_active_edus engine_id cf_current cf_queue;
  all_active := active_requests parse_user_id parse_server_name debug_assertions;
  active_for := active_requests_for parse_user_id parse_server_name debug_assertions;
  queued_for := queued_requests parse_user_id parse_server_name debug_assertions;
  retained := retain_queued in_cache;
  badge_destinations := queued_badge_refresh_destinations parse_user_id parse_server_name debug_assertions;
  educount := get_latest_educount debug_assertions in_cache;
  set_educount := set_latest_educount
|}.
Proof.
  - intros d A Q dest t e [HA HQ] [HR|HR]; [by apply (holds_ok _ _ _ _ HA) in HR|by apply (holds_ok _ _ _ _ HQ) in HR].
  - intros d A Q dest Hd Hok. destruct (delete_all_active_spec parse_user_id parse_server_name debug_assertions healthy d A Q dest Hd Hok) as (d' & Hrun & Hs).
    exists d'. split_and!; [done..|]. intros s. apply same_count. revert Hrun. unfold delete_all_active_requests_for.
    destruct (remove_prefix _ _ _) as [[]|]; cbn; intros [= <-]; done.
  - intros d A Q dest Hd Hok. destruct (delete_all_spec parse_user_id parse_server_name debug_assertions healthy d A Q dest Hd Hok) as (d' & Hrun & Hs).
    exists d'. split_and!; [done..|]. intros s. apply same_count. revert Hrun. unfold delete_all_requests_for.
    destruct (remove_prefix _ _ _) as [[]|]; [|done..]. destruct (remove_prefix _ _ _) as [[]|]; cbn; intros [= <-]; done.
  - intros d A Q dest t Hd Hok. split; [by apply delete_active_spec|]. intros s. by apply same_count.
  - intros d A Q dest ts Hd Hok Hts.
    destruct (mark_as_active_spec parse_user_id parse_server_name engine_id cf_current cf_queue columns_differ dest ts d A Q) as (d' & Hrun & Hs);
      [by eapply Forall_impl; [exact Hts|]; intros te Hte; split|done|].
    exists d'. split_and!; [done..|]. intros s. apply same_count. revert Hrun. unfold mark_as_active.
    destruct (activate _ _ _ _ _); cbn; intros [= <-]. apply commit_educount.
  - done.
  - intros d A Q draw requests Hd Hr.
    destruct (queue_requests_spec parse_user_id parse_server_name engine_id cf_current cf_queue columns_differ draw requests d A Q Hd Hr) as (d' & Hrun & Hs).
    exists d'. split_and!; [done..|]. intros s. apply same_count. revert Hrun. unfold queue_requests.
    destruct (WriteBatch.insert _ _); cbn; intros [=]; subst d'. apply commit_educount.
  - intros d A Q server draw edus Hd Hok He.
    destruct (persist_spec parse_user_id parse_server_name engine_id cf_current cf_queue columns_differ server draw edus d A Q Hd Hok He) as (d' & Hrun & Hs).
    exists d'. split_and!; [done..|]. intros s. apply same_count. revert Hrun. unfold persist_active_edus.
    destruct (WriteBatch.insert _ _); cbn; intros [= <-]. apply commit_educount.
  - intros d A Q Hd. by eapply active_requests_spec.
  - intros d A Q dest [HA HQ] Hok. by apply requests_for_spec.
  - intros d A Q dest [HA HQ] Hok. by apply requests_for_spec.
  - intros d A Q dest t e Hd Hok. by eapply retain_queued_spec.
  - done.
  - intros d A Q Hd. by eapply badge_destinations_spec.
  - intros d A Q server n [HA HQ] Hn. split_and!; [done| |].
    + by apply educount_set.
    + intros s Hs. by apply educount_set_ne.
Defined.

End Instance.
