(* ===== verification/SendWorker.v ===== *)
(** * SendWorker: transactions to other servers

    src/service/sending/sender.rs: one worker, its status of every destination,
    the transactions in flight and the retry timers.  The worker handles one
    message, answer or timer at a time.  What it reads of the rest of the
    program comes with each: clocks, jitter, the reachability verdict, and the
    EDUs composed for a server in the order their places were reserved. *)

From S2P Require Import Prelude Order CoreError Bytes Store ByteOrder PduId Scan SendQueue SendStore Backoff PeerStatus.

(** Times are nanoseconds of the monotonic clock. *)
Inductive TransactionStatus :=
| Running
| RunningForceRetry
| Failed (tries time : Z)
| Retrying (tries : Z).

Inductive RetryAction := NoRetry | Force.

(** [struct Msg] *)
Record Msg := mkMsg { dest : Destination; event : SendingEvent; queue_id : bytes }.

Definition DEQUEUE_LIMIT : nat := 48.
Definition EDU_LIMIT : Z := 100.
Definition WAKE_OVERFLOW_DELAY : Z := from_secs (365 * 24 * 60 * 60).

Record Options := mkOptions {
  sender_timeout : Z; sender_retry_backoff_limit : Z; startup_netburst_enabled : bool; startup_netburst_keep : Z
}.

(** [Ord] of destinations, in the order of their variants. *)
Definition dest_rank (d : Destination) : Z := match d with Appservice _ => 0 | Push _ _ => 1 | Federation _ => 2 end.
Definition dest_cmp (a b : Destination) : comparison :=
  match dest_rank a ?= dest_rank b with
  | Eq =>
      match a, b with
      | Appservice x, Appservice y | Federation x, Federation y => lex_cmp x y
      | Push u k, Push u' k' => match lex_cmp u u' with Eq => lex_cmp k k' | o => o end
      | _, _ => Eq
      end
  | o => o
  end.

(** [BinaryHeap<Reverse<(Instant, Destination)>>]: the least entry first. *)
Definition wake_cmp (a b : Z * Destination) : comparison := match a.1 ?= b.1 with Eq => dest_cmp a.2 b.2 | o => o end.
Definition heap_push (x : Z * Destination) (h : list (Z * Destination)) : list (Z * Destination) := insert_by wake_cmp x h.

(** [let x := m in k] for a step that may panic, or wait for ever. *)
Definition bind_scan {A B} (m : option (Res A)) (k : A → option (Res B)) : option (Res B) :=
  match m with Some (Ok a) => k a | Some _ => Some Panic | None => None end.
Notation "x <~ m ; k" := (bind_scan m (λ x, k)) (at level 100, m at next level, right associativity, only parsing).
Notation "' p <~ m ; k" := (bind_scan m (λ x, match x with p => k end))
  (at level 100, p pattern, m at next level, right associativity, only parsing).

(** ** EDUs composed for a server *)

(** The three selectors run side by side and reserve places of one budget; this
    is the order in which they did. *)
Inductive Reserve := DeviceChange (buf : bytes) | Receipt (buf : bytes) | Presence (buf : bytes).

Record Selected := mkSelected { shipped : list bytes; overflow : list bytes }.

(** What [select_edus] finds to compose: the numbers up to which it looks, the
    largest one it saw, and the reserved places. *)
Record Window := mkWindow { since_upper : Z; max_edu_count : Z; reserves : list Reserve }.

Record Selection := mkSelection { events_len : Z; device_changes : Selected; receipts : Selected; presence : list bytes }.

(** One place: past the budget, and after the first that was, what can wait
    goes to the overflow. *)
Definition select_into (buf : bytes) (len : Z) (sel : Selected) : Z * Selected :=
  match overflow sel with
  | _ :: _ => (len, mkSelected (shipped sel) (overflow sel ++ [buf]))
  | [] =>
      if EDU_LIMIT <=? len then (len + 1, mkSelected (shipped sel) [buf])
      else (len + 1, mkSelected (shipped sel ++ [buf]) [])
  end.

Definition reserve (sel : Selection) (r : Reserve) : Selection :=
  match r with
  | DeviceChange buf =>
      let '(len, s) := select_into buf (events_len sel) (device_changes sel) in mkSelection len s (receipts sel) (presence sel)
  | Receipt buf =>
      let '(len, s) := select_into buf (events_len sel) (receipts sel) in mkSelection len (device_changes sel) s (presence sel)
  | Presence buf =>
      mkSelection (events_len sel + 1) (device_changes sel) (receipts sel)
        (if EDU_LIMIT <=? events_len sel then presence sel else presence sel ++ [buf])
  end.

Definition select_all (budget_used : Z) (rs : list Reserve) : Selection :=
  foldl reserve (mkSelection budget_used (mkSelected [] []) (mkSelected [] []) []) rs.

(** ** The budget is kept *)

Definition taken (sel : Selection) : Z := zlen (shipped (device_changes sel) ++ shipped (receipts sel)) + zlen (presence sel).
Definition buf_of (r : Reserve) : bytes := match r with DeviceChange b | Receipt b | Presence b => b end.
Definition durable (sel : Selection) : list bytes := shipped (device_changes sel) ++ shipped (receipts sel).
Definition spilled (sel : Selection) : list bytes := overflow (device_changes sel) ++ overflow (receipts sel).

Lemma select_all_snoc b rs r : select_all b (rs ++ [r]) = reserve (select_all b rs) r.
Proof. unfold select_all. by rewrite foldl_app. Qed.

Lemma select_bound b rs :
  b ≤ EDU_LIMIT → b + taken (select_all b rs) ≤ EDU_LIMIT ∧ b + taken (select_all b rs) ≤ events_len (select_all b rs).
Proof.
  intros Hb. induction rs as [|r rs IH] using rev_ind; [change (taken (select_all b [])) with 0; cbn; lia|]. rewrite select_all_snoc.
  destruct (select_all b rs) as [len [ds dover] [rs' rover] pr]. unfold taken in *. cbn [device_changes receipts presence events_len shipped] in *.
  destruct r as [buf|buf|buf]; unfold reserve, select_into; cbn [device_changes receipts presence events_len shipped overflow].
  - destruct dover; [destruct (Z.leb_spec EDU_LIMIT len)|]; cbn [device_changes receipts presence events_len shipped]; rewrite ?zlen_app in *; rewrite ?zlen_cons, ?zlen_nil; lia.
  - destruct rover; [destruct (Z.leb_spec EDU_LIMIT len)|]; cbn [device_changes receipts presence events_len shipped]; rewrite ?zlen_app in *; rewrite ?zlen_cons, ?zlen_nil; lia.
  - destruct (Z.leb_spec EDU_LIMIT len); cbn [device_changes receipts presence events_len shipped]; rewrite ?zlen_app in *; rewrite ?zlen_cons, ?zlen_nil; lia.
Qed.

(** Every place reserved holds what was composed for it. *)
Lemma select_all_bufs (P : bytes → Prop) b rs :
  Forall (λ r, P (buf_of r)) rs →
  Forall P (durable (select_all b rs)) ∧ Forall P (spilled (select_all b rs))
  ∧ zlen (durable (select_all b rs)) + zlen (spilled (select_all b rs)) ≤ zlen rs.
Proof.
  intros Hrs. induction rs as [|r rs IH] using rev_ind; [by repeat constructor|]. rewrite select_all_snoc.
  apply Forall_app in Hrs as [Hrs [Hr _]%Forall_cons]. destruct (IH Hrs) as (Hd & Hs & Hn). clear IH.
  destruct (select_all b rs) as [len [ds dover] [rs' rover] pr]. unfold durable, spilled in *. cbn [device_changes receipts presence events_len shipped overflow] in *.
  rewrite (zlen_app rs [r]), (zlen_cons r []), (zlen_nil (A := Reserve)). rewrite !Forall_app, !zlen_app in *.
  destruct r as [buf|buf|buf]; unfold reserve, select_into; cbn [device_changes receipts presence events_len shipped overflow buf_of] in *.
  - destruct dover; [destruct (EDU_LIMIT <=? len)|]; cbn [device_changes receipts presence events_len shipped overflow];
      rewrite ?Forall_app, ?Forall_cons, ?zlen_app, ?zlen_cons, ?zlen_nil in *; split_and!; try naive_solver; lia.
  - destruct rover; [destruct (EDU_LIMIT <=? len)|]; cbn [device_changes receipts presence events_len shipped overflow];
      rewrite ?Forall_app, ?Forall_cons, ?zlen_app, ?zlen_cons, ?zlen_nil in *; split_and!; try naive_solver; lia.
  - split_and!; try naive_solver; lia.
Qed.

Section Worker.
Context {D : Type} `{!SendStore D} `{!HashOrder} (debug_assertions : bool) (config : Options).

(** [TokioInstant::checked_add] *)
Context (instant_add : Z → Z → option Z).

(** The store and the global counter it draws numbers from, with what the
    worker itself keeps. *)
Record World := mkWorld {
  data : D;
  dispatched : Z;
  statuses : gmap Destination TransactionStatus;
  futures : list (Destination * list SendingEvent);
  wakes : list (Z * Destination)
}.

Definition set_data (d : D) (w : World) : World := mkWorld d (dispatched w) (statuses w) (futures w) (wakes w).
Definition set_statuses (st : gmap Destination TransactionStatus) (w : World) : World :=
  mkWorld (data w) (dispatched w) st (futures w) (wakes w).
Definition set_wakes (h : list (Z * Destination)) (w : World) : World :=
  mkWorld (data w) (dispatched w) (statuses w) (futures w) h.

(** [next_count]: the numbers after those drawn. *)
Definition draw (w : World) (i : nat) : Z := dispatched w + 1 + Z.of_nat i.
Definition drawn (n : Z) (d : D) (w : World) : World := mkWorld d (dispatched w + n) (statuses w) (futures w) (wakes w).

(** The requests that are numbered. *)
Definition numbered (requests : list (SendingEvent * Destination)) : Z :=
  zlen (filter (λ r, match r.1 with Pdu _ => false | _ => true end = true) requests).

Definition queue_rows (requests : list (SendingEvent * Destination)) (w : World) : Res (list bytes * World) :=
  r ← queue_up (draw w) requests (data w); Ok (r.1, drawn (numbered requests) r.2 w).

(** What is read while one event is handled. *)
Record Env := mkEnv {
  attempt : bytes → ShouldAttempt;
  wake_attempt : bytes → ShouldAttempt;
  failed_at : Z;
  elapsed_at : Z;
  armed_at : Z;
  system_now : Z;
  jitter : Z;
  window : Window
}.

Definition wake_deadline (env : Env) (delay : Z) : Z :=
  let delay := Z.max delay (from_secs 1) in
  let scheduled := dur_add delay (jitter env) in
  match instant_add (armed_at env) scheduled with
  | Some deadline => deadline
  | None => default (armed_at env) (instant_add (armed_at env) WAKE_OVERFLOW_DELAY)
  end.

Definition arm_wake_in (env : Env) (dest : Destination) (delay : Z) (w : World) : World :=
  set_wakes (heap_push (wake_deadline env delay, dest) (wakes w)) w.

(** [duration_since(now).unwrap_or_default()] of seconds since the epoch. *)
Definition arm_wake (env : Env) (dest : Destination) (earliest_retry : Z) (w : World) : World :=
  arm_wake_in env dest (Z.max (from_secs earliest_retry - system_now env) 0) w.

Definition push_backoff_remaining (env : Env) (status : option TransactionStatus) : option Z :=
  match status with
  | Some (Failed tries time) =>
      exponential_backoff_remaining_secs (sender_timeout config) (sender_retry_backoff_limit config)
        (Z.max (elapsed_at env - time) 0) tries
  | _ => None
  end.

Definition send_events (dest : Destination) (events : list SendingEvent) (w : World) : Res World :=
  _ ← debug_assert debug_assertions (negb (bool_decide (events = [])));
  Ok (mkWorld (data w) (dispatched w) (statuses w) (futures w ++ [(dest, events)]) (wakes w)).

Definition is_flush (e : SendingEvent) : bool := match e with Flush => true | _ => false end.
Definition is_edu (e : SendingEvent) : bool := match e with Edu _ => true | _ => false end.
Definition is_push (dest : Destination) : bool := match dest with Push _ _ => true | _ => false end.
Definition is_appservice (dest : Destination) : bool := match dest with Appservice _ => true | _ => false end.

Definition budget (events : list SendingEvent) : Z := zlen (filter (λ e, is_edu e = true) events).

Definition select_edus (env : Env) (server_name : bytes) (budget_used : Z) (w : World) : Res (list bytes * World) :=
  since ← educount server_name (data w);
  if since =? since_upper (window env) then Ok ([], w)
  else
    _ ← debug_assert debug_assertions (since <=? since_upper (window env));
    let sel := select_all budget_used (reserves (window env)) in
    let durable := shipped (device_changes sel) ++ shipped (receipts sel) in
    let events := durable ++ presence sel in
    _ ← debug_assert debug_assertions (budget_used + zlen events <=? EDU_LIMIT);
    let over := Edu <$> (overflow (device_changes sel) ++ overflow (receipts sel)) in
    w ← (match over with
         | [] => Ok w
         | _ => r ← queue_rows ((λ e, (e, Federation server_name)) <$> over) w; Ok r.2
         end);
    w ← (match durable with
         | [] => Ok w
         | _ => d ← persist_edus server_name (draw w) durable (data w); Ok (drawn (zlen durable) d w)
         end);
    let last_count := Z.max since (max_edu_count (window env)) in
    Ok (events, if since <? last_count then set_data (set_educount server_name last_count (data w)) w else w).

(** EDUs top up what is sent to a server. *)
Definition top_up (env : Env) (dest : Destination) (events : list SendingEvent) (w : World) : Res (list SendingEvent * World) :=
  match dest with
  | Federation server_name =>
      match select_edus env server_name (budget events) w with
      | Ok (edus, w) => Ok (events ++ (Edu <$> edus), w)
      | Err _ => Ok (events, w)
      | Panic => Panic
      end
  | _ => Ok (events, w)
  end.

(** ** Choosing what to send *)

Definition gated (env : Env) (dest : Destination) : bool :=
  match dest with
  | Federation server => match attempt env server with No _ => true | _ => false end
  | _ => false
  end.

(** Whether to send, whether it is a retry, and the statuses after. *)
Definition select_events_current (env : Env) (dest : Destination) (retry_action : RetryAction)
    (st : gmap Destination TransactionStatus) : bool * bool * gmap Destination TransactionStatus :=
  if gated env dest then (false, false, st)
  else
    match st !! dest with
    | Some Running | Some RunningForceRetry =>
        (false, false, match retry_action with Force => <[dest := RunningForceRetry]> st | NoRetry => st end)
    | Some (Failed tries time) =>
        match push_backoff_remaining env (Some (Failed tries time)) with
        | Some _ => (false, false, st)
        | None => (true, true, <[dest := Retrying tries]> st)
        end
    | Some (Retrying tries) =>
        if is_push dest then (false, false, st) else (true, true, <[dest := Running]> st)
    | None => (true, false, <[dest := Running]> st)
    end.

(** The items still queued, each marked active before the next is looked at. *)
Fixpoint take_items (new_events : list (bytes * SendingEvent)) (w : World) : Res (list SendingEvent * World) :=
  match new_events with
  | [] => Ok ([], w)
  | item :: rest =>
      keep ← retained item (data w);
      if keep : bool then
        d ← mark_active [item] (data w);
        r ← take_items rest (set_data d w);
        Ok (if is_flush item.2 then r else (item.2 :: r.1, r.2))
      else take_items rest w
  end.

Definition select_events (env : Env) (dest : Destination) (new_events : list (bytes * SendingEvent)) (w : World)
  : option (Res (option (list SendingEvent) * World)) :=
  let retry_action := if is_appservice dest && existsb (λ item, is_flush item.2) new_events then Force else NoRetry in
  let '(allow, retry, st) := select_events_current env dest retry_action (statuses w) in
  let w := set_statuses st w in
  if negb allow then Some (Ok (None, w))
  else if retry : bool then
    events <~ collect debug_assertions (active_for dest (data w));
    Some (Ok (Some events.*2, w))
  else
    Some (r ← take_items new_events w; r ← top_up env dest r.1 r.2; Ok (Some r.1, r.2)).

Definition schedule_events (dest : Destination) (events : list SendingEvent) (w : World) : Res World :=
  match events with
  | [] => Ok (set_statuses (delete dest (statuses w)) w)
  | _ => send_events dest events w
  end.

(** [if let Ok(Some(events))] *)
Definition select_and_schedule (env : Env) (dest : Destination) (new_events : list (bytes * SendingEvent)) (w : World) : option (Res World) :=
  r <~ select_events env dest new_events w;
  match r with
  | (Some events, w) => Some (schedule_events dest events w)
  | (None, w) => Some (Ok w)
  end.

Definition handle_force_retry (env : Env) (dest : Destination) (w : World) : option (Res World) := select_and_schedule env dest [] w.

Definition has_status (dest : Destination) (w : World) : bool := bool_decide (is_Some (statuses w !! dest)).

Definition handle_request (env : Env) (msg : Msg) (w : World) : option (Res World) :=
  let synthetic_badge := is_empty_key (queue_id msg) && bool_decide (event msg = BadgeRefresh) in
  new_events <~ (if negb synthetic_badge then Some (Ok [(queue_id msg, event msg)])
                 else if has_status (dest msg) w then Some (Ok [])
                 else collect debug_assertions (stream_take DEQUEUE_LIMIT (queued_for (dest msg) (data w))));
  select_and_schedule env (dest msg) new_events w.

(** ** Answers *)

Definition handle_response_err (env : Env) (dest : Destination) (w : World) : RetryAction * World :=
  match statuses w !! dest with
  | None => (NoRetry, w)
  | Some status =>
      let '(tries, retry_action) := match status with
        | Running => (1, NoRetry)
        | RunningForceRetry => (1, Force)
        | Failed n _ | Retrying n => (Z.min (n + 1) u32_max, NoRetry)
        end in
      (retry_action, set_statuses (<[dest := if is_push dest then Failed tries (failed_at env) else Retrying tries]> (statuses w)) w)
  end.

Definition handle_response_ok (env : Env) (dest : Destination) (w : World) : option (Res World) :=
  d <~ delete_all_active dest (data w);
  new_events <~ collect debug_assertions (stream_take DEQUEUE_LIMIT (queued_for dest d));
  d <~ Some (if bool_decide (new_events = []) then Ok d else mark_active new_events d);
  Some (r ← top_up env dest new_events.*2 (set_data d w);
        let '(events, w) := r in
        match events with
        | [] => Ok (set_statuses (delete dest (statuses w)) w)
        | _ => send_events dest events (set_statuses (alter (λ _, Running) dest (statuses w)) w)
        end).

(** How a transaction ends.  A push that fails in part names the events it
    could not deliver; those it could are deleted before it answers. *)
Inductive Outcome := Delivered | Rejected | Partly (ids : list RawId).

Definition pdu_of (e : SendingEvent) : option RawId := match e with Pdu id => Some id | _ => None end.

Definition send_failures (dest : Destination) (events : list SendingEvent) (ids : list RawId) (d : D) : D :=
  foldl (λ d id, delete_active (event_key dest id) d) d (filter (λ id, id ∉ ids) (omap pdu_of events)).

Definition handle_rejected (env : Env) (dest : Destination) (w : World) : option (Res World) :=
  let '(retry_action, w) := handle_response_err env dest w in
  match dest with
  | Federation server =>
      Some (Ok (match attempt env server with No earliest_retry => arm_wake env dest earliest_retry w | _ => w end))
  | Push _ _ =>
      Some (Ok (match statuses w !! dest with
                | Some (Failed tries time) =>
                    arm_wake_in env dest (default 0 (push_backoff_remaining env (Some (Failed tries time)))) w
                | _ => w
                end))
  | Appservice _ => match retry_action with Force => handle_force_retry env dest w | NoRetry => Some (Ok w) end
  end.

(** [futures.next()] hands over one that has ended. *)
Definition handle_response (env : Env) (i : nat) (outcome : Outcome) (w : World) : option (Res World) :=
  match futures w !! i with
  | None => Some (Ok w)
  | Some (dest, events) =>
      let w := mkWorld (data w) (dispatched w) (statuses w) (delete i (futures w)) (wakes w) in
      match outcome with
      | Delivered => handle_response_ok env dest w
      | Rejected => handle_rejected env dest w
      | Partly ids => handle_rejected env dest (set_data (send_failures dest events ids (data w)) w)
      end
  end.

(** ** Timers *)

Definition handle_wake (env : Env) (dest : Destination) (w : World) : option (Res World) :=
  let status := statuses w !! dest in
  match status with
  | Some Running | Some RunningForceRetry => Some (Ok w)
  | _ =>
      if is_push dest && match status with Some (Retrying _) => true | _ => false end then Some (Ok w)
      else
        match (if is_push dest then push_backoff_remaining env status else None) with
        | Some remaining =>
            if existsb (λ armed, bool_decide (armed.2 = dest)) (wakes w) then Some (Ok w)
            else Some (Ok (arm_wake_in env dest remaining w))
        | None =>
            match dest with
            | Federation server =>
                match wake_attempt env server with
                | No earliest_retry => Some (Ok (arm_wake env dest earliest_retry w))
                | _ => handle_request env (mkMsg dest Flush []) w
                end
            | Push _ _ => handle_force_retry env dest w
            | Appservice _ => Some (Ok w)
            end
        end
  end.

(** Every timer that is due; an environment for each, [None] when they do not
    suffice. *)
Fixpoint drain_due_wakes (now : Z) (envs : list Env) (w : World) : option (option (Res World)) :=
  match wakes w with
  | (due, dest) :: rest =>
      if due <=? now then
        match envs with
        | [] => None
        | env :: envs =>
            match handle_wake env dest (set_wakes rest w) with
            | Some (Ok w) => drain_due_wakes now envs w
            | r => Some r
            end
        end
      else Some (Some (Ok w))
  | [] => Some (Some (Ok w))
  end.

(** ** Start and end *)

(** The rows in flight when the program stopped, gathered by destination; those
    past [keep] are dropped. *)
Fixpoint gather (mine : Destination → bool) (keep : Z) (items : list (bytes * SendingEvent * Destination))
    (txns : gmap Destination (list SendingEvent)) (d : D) : gmap Destination (list SendingEvent) * D :=
  match items with
  | [] => (txns, d)
  | (key, event, dest) :: items =>
      if negb (mine dest) then gather mine keep items txns d
      else
        let entry := default [] (txns !! dest) in
        if (0 <=? startup_netburst_keep config) && (keep <=? zlen entry)
        then gather mine keep items (<[dest := entry]> txns) (delete_active key d)
        else gather mine keep items (<[dest := entry ++ [event]]> txns) d
  end.

Fixpoint resend (txns : list (Destination * list SendingEvent)) (w : World) : Res World :=
  match txns with
  | [] => Ok w
  | (dest, events) :: txns =>
      if startup_netburst_enabled config && negb (bool_decide (events = [])) then
        w ← send_events dest events (set_statuses (<[dest := Running]> (statuses w)) w);
        resend txns w
      else resend txns w
  end.

Fixpoint wake_badges (envs : Destination → Env) (dests : list Destination) (w : World) : option (Res World) :=
  match dests with
  | [] => Some (Ok w)
  | dest :: dests =>
      w <~ handle_request (envs dest) (mkMsg dest BadgeRefresh []) w;
      wake_badges envs dests w
  end.

(** [usize::try_from(keep).unwrap_or(usize::MAX)] *)
Definition keep_limit `{!Usize} : Z := let k := startup_netburst_keep config in if (0 <=? k) && (k <=? usize_max) then k else usize_max.

Definition startup_netburst `{!Usize} (mine : Destination → bool) (envs : Destination → Env) (w : World) : option (Res World) :=
  items <~ collect debug_assertions (all_active (data w));
  let '(txns, d) := gather mine keep_limit items ∅ (data w) in
  w <~ Some (resend (hash_order ["startup_netburst.txns"] (map_to_list txns)) (set_data d w));
  if negb (startup_netburst_enabled config) || (keep_limit =? 0) then Some (Ok w)
  else
    dests <~ collect debug_assertions (badge_destinations (data w));
    wake_badges envs (hash_order ["startup_netburst.badges"] (elements (list_to_set (C := gset Destination) (filter (λ dest, mine dest = true) dests)))) w.

(** One answer while the worker shuts down. *)
Definition finish_response (i : nat) (outcome : Outcome) (w : World) : option (Res World) :=
  match futures w !! i with
  | None => Some (Ok w)
  | Some (dest, events) =>
      let w := mkWorld (data w) (dispatched w) (statuses w) (delete i (futures w)) (wakes w) in
      match outcome with
      | Delivered => and_then (delete_all_active dest (data w)) (λ d, Ok (set_data d w))
      | Rejected => Some (Ok w)
      | Partly ids => Some (Ok (set_data (send_failures dest events ids (data w)) w))
      end
  end.

(** A worker with nothing in hand, over the store it finds. *)
Definition fresh (d : D) (n : Z) : World := mkWorld d n ∅ [] [].

(** ** Rows and their numbers *)

(** What a row's key ends with: its event's id, or a number drawn. *)
Definition tail_in (n : Z) (t : bytes) (e : SendingEvent) : Prop :=
  (∃ id, e = Pdu id ∧ id_ok id ∧ t = as_bytes id) ∨ (pdu_of e = None ∧ ∃ k, 0 ≤ k ≤ n ∧ t = be_bytes 8 k).

Definition counted (n : Z) (R : Rows) : Prop := ∀ dest t e, R !! (dest, t) = Some e → tail_in n t e.

Lemma id_length id : id_ok id → (length (as_bytes id) = 16 ∨ length (as_bytes id) = 24)%nat.
Proof. destruct id; cbn; unfold NORMAL_LEN, BACKFILLED_LEN, zlen; lia. Qed.

Lemma as_bytes_inj id id' : id_ok id → id_ok id' → as_bytes id = as_bytes id' → id = id'.
Proof.
  destruct id as [raw|raw], id' as [raw'|raw']; cbn; unfold NORMAL_LEN, BACKFILLED_LEN; intros Hl Hl' He; subst; try done; lia.
Qed.

Lemma id_not_number id k : id_ok id → as_bytes id ≠ be_bytes 8 k.
Proof. intros Hid He. apply id_length in Hid. rewrite He, length_be_bytes in Hid. lia. Qed.

Lemma tail_mono n n' t e : n ≤ n' → tail_in n t e → tail_in n' t e.
Proof. intros Hn [?|[? (k & ? & ?)]]; [by left|right]. split; [done|]. exists k. split; [lia|done]. Qed.

Lemma counted_mono n n' R : n ≤ n' → counted n R → counted n' R.
Proof. intros Hn HR dest t e Hl. eapply tail_mono; [done|]. by eapply HR. Qed.

(** A number not yet drawn is no row's. *)
Lemma tail_fresh n t e k : tail_in n t e → n < k → k ≤ u64_max → t ≠ be_bytes 8 k.
Proof.
  intros [(id & _ & Hid & ->)|(_ & k' & Hk' & ->)] Hk Hmax He; [by eapply id_not_number|].
  apply be_bytes_inj in He; unfold u64_max in *; cbn; lia.
Qed.

(** An event's id is the key of no other event. *)
Lemma tail_pdu n t e id : tail_in n t e → id_ok id → t = as_bytes id → e = Pdu id.
Proof.
  intros [(id' & -> & Hid' & ->)|(_ & k & _ & ->)] Hid He; [f_equal; by apply as_bytes_inj|]. symmetry in He. by apply id_not_number in He.
Qed.

(** A row that can be added to others without taking the place of one. *)
Definition fits (R : Rows) (rows : list (Destination * bytes * SendingEvent)) : Prop :=
  (∀ k e e', (k, e) ∈ rows → R !! k = Some e' → e' = e) ∧ (∀ k e e', (k, e) ∈ rows → (k, e') ∈ rows → e = e').

Lemma lookup_add_rows R rows k :
  fits R rows → ∀ e, add_rows rows R !! k = Some e ↔ (k, e) ∈ rows ∨ R !! k = Some e.
Proof.
  revert R. induction rows as [|[k0 e0] rows IH]; intros R [HR Hf] e.
  - cbn. split; [by right|]. by intros [?%not_elem_of_nil|?].
  - change (add_rows ((k0, e0) :: rows) R) with (add_rows rows (<[k0 := e0]> R)). rewrite IH.
    + rewrite elem_of_cons. split.
      * intros [Hin|[[<- <-]|[Hne Hk]]%lookup_insert_Some]; [by left; right|by left; left|by right].
      * intros [[[= -> ->]|Hin]|Hk]; [right; by rewrite lookup_insert_eq|by left|].
        destruct (decide (k0 = k)) as [->|Hne]; [|right; by rewrite lookup_insert_ne].
        right. rewrite lookup_insert_eq. f_equal. symmetry. eapply HR; [left|done].
    + split; [|intros k1 e1 e2 H1 H2; eapply Hf; by right].
      intros k1 e1 e2 Hin [[<- <-]|[Hne Hk]]%lookup_insert_Some; [eapply Hf; [left|by right]|]. eapply HR; [by right|done].
Qed.

(** Nothing of the rows [A] and [Q] is missing from [A'] and [Q']. *)
Definition kept (A Q A' Q' : Rows) : Prop :=
  ∀ dest t e, A !! (dest, t) = Some e ∨ Q !! (dest, t) = Some e → A' !! (dest, t) = Some e ∨ Q' !! (dest, t) = Some e.

Lemma kept_refl A Q : kept A Q A Q.
Proof. by intros dest t e. Qed.
Lemma kept_trans A1 Q1 A2 Q2 A3 Q3 : kept A1 Q1 A2 Q2 → kept A2 Q2 A3 Q3 → kept A1 Q1 A3 Q3.
Proof. intros H12 H23 dest t e Hl. by apply H23, H12. Qed.

Lemma kept_add_queue A Q rows : fits Q rows → kept A Q A (add_rows rows Q).
Proof. intros Hf dest t e [?|?]; [by left|right]. rewrite lookup_add_rows by done. by right. Qed.
Lemma kept_add_active A Q rows : fits A rows → kept A Q (add_rows rows A) Q.
Proof. intros Hf dest t e [?|?]; [left|by right]. rewrite lookup_add_rows by done. by right. Qed.

(** The rows of requests numbered from [n] on. *)
Definition rows_from (n : Z) (requests : list (SendingEvent * Destination)) : list (Destination * bytes * SendingEvent) :=
  queued_rows (λ i, n + 1 + Z.of_nat i) requests.

Lemma tails_ext f g requests : (∀ i, f i = g i) → request_tails f requests = request_tails g requests.
Proof.
  revert f g. induction requests as [|[e dest] requests IH]; intros f g Hfg; [done|].
  destruct e; cbn [request_tails]; rewrite ?Hfg; f_equal; by apply IH.
Qed.

Lemma rows_from_pdu n id dest requests : rows_from n ((Pdu id, dest) :: requests) = (dest, as_bytes id, Pdu id) :: rows_from n requests.
Proof. done. Qed.

Lemma rows_from_numbered n e dest requests :
  pdu_of e = None → rows_from n ((e, dest) :: requests) = (dest, be_bytes 8 (n + 1), e) :: rows_from (n + 1) requests.
Proof.
  intros He. unfold rows_from, queued_rows. rewrite (tails_ext (λ i, n + 1 + 1 + Z.of_nat i) (λ i, n + 1 + Z.of_nat (Datatypes.S i))) by (intros; lia).
  replace (be_bytes 8 (n + 1)) with (be_bytes 8 (n + 1 + Z.of_nat 0)) by (f_equal; lia). by destruct e.
Qed.

Lemma numbered_pdu id dest requests : numbered ((Pdu id, dest) :: requests) = numbered requests.
Proof. done. Qed.

Lemma numbered_cons e dest requests : pdu_of e = None → numbered ((e, dest) :: requests) = 1 + numbered requests.
Proof. intros He. unfold numbered. rewrite filter_cons, decide_True by by destruct e. apply zlen_cons. Qed.

Lemma numbered_nonneg requests : 0 ≤ numbered requests.
Proof. apply zlen_nonneg. Qed.

Lemma rows_from_tails n requests dest t e :
  (dest, t, e) ∈ rows_from n requests →
  (e, dest) ∈ requests ∧ ((∃ id, e = Pdu id ∧ t = as_bytes id) ∨ (pdu_of e = None ∧ ∃ k, n < k ≤ n + numbered requests ∧ t = be_bytes 8 k)).
Proof.
  revert n. induction requests as [|[e0 dest0] requests IH]; intros n; [by intros ?%not_elem_of_nil|]. pose proof (numbered_nonneg requests) as Hnn.
  destruct (pdu_of e0) as [id|] eqn:He0.
  - destruct e0; try done. injection He0 as ->. rewrite rows_from_pdu, numbered_pdu.
    intros [[= -> -> ->]|Hin]%elem_of_cons; [split; [left|left; by exists id]|]. destruct (IH n Hin) as [Hr Ht]. split; [by right|done].
  - rewrite rows_from_numbered, numbered_cons by done. intros [[= -> -> ->]|Hin]%elem_of_cons.
    + split; [left|right; split; [done|]]. exists (n + 1). split; [lia|done].
    + apply IH in Hin as [Hr [?|[? (k & Hk & ->)]]]; (split; [by right|]); [by left|right; split; [done|]; exists k; split; [lia|done]].
Qed.

Lemma rows_from_functional n requests k e e' :
  0 ≤ n → n + numbered requests ≤ u64_max → Forall (λ r, event_ok r.1.1 r.1.2 r.2) (rows_from n requests) →
  (k, e) ∈ rows_from n requests → (k, e') ∈ rows_from n requests → e = e'.
Proof.
  destruct k as [dest t]. revert n e e'. induction requests as [|[e0 dest0] requests IH]; intros n e e' Hn Hmax Hok; [by intros ?%not_elem_of_nil|].
  assert (Hsplit : ∃ t0 n0, rows_from n ((e0, dest0) :: requests) = (dest0, t0, e0) :: rows_from n0 requests ∧ n ≤ n0 ∧ n0 + numbered requests ≤ u64_max
    ∧ tail_in n0 t0 e0).
  { destruct (pdu_of e0) as [id|] eqn:He0.
    - destruct e0; try done. injection He0 as ->. exists (as_bytes id), n. rewrite rows_from_pdu, numbered_pdu in *. split_and!; [done|lia|lia|].
      left. exists id. apply Forall_cons in Hok as [[Hid _] _]. done.
    - exists (be_bytes 8 (n + 1)), (n + 1). rewrite rows_from_numbered, numbered_cons in * by done. split_and!; [done|lia|lia|].
      right. split; [done|]. exists (n + 1). split; [lia|done]. }
  destruct Hsplit as (t0 & n0 & Hrows & Hn0 & Hmax0 & Ht0). rewrite Hrows in *. apply Forall_cons in Hok as [Hok0 Hok].
  assert (Hhead : ∀ e1, dest = dest0 → t = t0 → (dest, t, e1) ∈ rows_from n0 requests → e1 = e0).
  { intros e1 -> -> Hin. rewrite Forall_forall in Hok. pose proof (Hok _ Hin) as Hok1.
    apply rows_from_tails in Hin as [_ [(id & -> & ->)|(_ & k & Hk & ->)]].
    - destruct Hok1 as [Hid _]. by eapply tail_pdu in Ht0 as ->.
    - exfalso. eapply tail_fresh; [exact Ht0| | |reflexivity]; lia. }
  intros [[= -> -> ->]|Hin]%elem_of_cons [[= <-]|Hin']%elem_of_cons; [done| | |by eapply (IH n0); [lia|..]].
  - symmetry. by apply Hhead.
  - subst. by apply Hhead.
Qed.

Lemma rows_from_fits n requests R :
  0 ≤ n → n + numbered requests ≤ u64_max → Forall (λ r, event_ok r.1.1 r.1.2 r.2) (rows_from n requests) → counted n R →
  fits R (rows_from n requests) ∧ counted (n + numbered requests) (add_rows (rows_from n requests) R).
Proof.
  intros Hn Hmax Hok HR. pose proof (numbered_nonneg requests) as Hnn.
  assert (Hfits : fits R (rows_from n requests)).
  { split; [|intros k e e'; by apply rows_from_functional]. intros [dest t] e e' Hin HRe. apply HR in HRe.
    rewrite Forall_forall in Hok. pose proof (Hok _ Hin) as Hok0. apply rows_from_tails in Hin as [_ [(id & -> & ->)|(_ & k & Hk & ->)]].
    - destruct Hok0 as [Hid _]. by eapply tail_pdu.
    - exfalso. eapply tail_fresh; [exact HRe| | |reflexivity]; lia. }
  split; [done|]. intros dest t e. rewrite lookup_add_rows by done. intros [Hin|HRe].
  - rewrite Forall_forall in Hok. pose proof (Hok _ Hin) as Hok0. apply rows_from_tails in Hin as [_ [(id & -> & ->)|(He & k & Hk & ->)]].
    + left. exists id. destruct Hok0 as [Hid _]. done.
    + right. split; [done|]. exists k. split; [lia|done].
  - eapply tail_mono; [|by eapply HR]. lia.
Qed.

Lemma edu_rows_from server n edus :
  edu_rows server (λ i, n + 1 + Z.of_nat i) edus = rows_from n ((λ b, (Edu b, Federation server)) <$> edus).
Proof.
  revert n. induction edus as [|b edus IH]; intros n; [done|]. cbn [fmap list_fmap]. rewrite rows_from_numbered, <-IH by done.
  unfold edu_rows. cbn [imap]. replace (n + 1 + Z.of_nat 0) with (n + 1) by lia. f_equal. apply imap_ext. intros i x _.
  unfold compose. by replace (n + 1 + Z.of_nat (Datatypes.S i)) with (n + 1 + 1 + Z.of_nat i) by lia.
Qed.

Lemma numbered_edus server (edus : list bytes) : numbered ((λ b, (Edu b, Federation server)) <$> edus) = zlen edus.
Proof. induction edus as [|b edus IH]; [done|]. cbn [fmap list_fmap]. rewrite numbered_cons, IH by done. by rewrite zlen_cons. Qed.

(** ** The invariant *)

(** A destination whose transaction is in flight. *)
Definition busy (dest : Destination) (status : option TransactionStatus) : bool :=
  match status with
  | Some Running | Some RunningForceRetry => true
  | Some (Retrying _) => is_push dest
  | _ => false
  end.

(** The part that does not concern transactions; [r] is a number up to which
    EDUs were looked for. *)
Record sound (w : World) (A Q : Rows) (r : Z) : Prop := {
  sound_rows : rows_of (data w) A Q;
  sound_active : counted (dispatched w) A;
  sound_queued : counted (dispatched w) Q;
  sound_numbers : 0 ≤ r ≤ dispatched w;
  sound_bound : dispatched w ≤ u64_max;
  sound_educounts : ∀ server, ∃ n, educount server (data w) = Ok n ∧ 0 ≤ n ≤ r;
  sound_dests : ∀ dest, is_Some (statuses w !! dest) → dest_valid dest;
  sound_failed : ∀ dest tries time, statuses w !! dest = Some (Failed tries time) → is_push dest = true;
  sound_wakes : ∀ due dest, (due, dest) ∈ wakes w → dest_valid dest
}.

(** A transaction that carries every row in flight to its destination. *)
Definition ids_ok (events : list SendingEvent) : Prop := ∀ id, Pdu id ∈ events → id_ok id.
Definition carries (A : Rows) (dest : Destination) (events : list SendingEvent) : Prop :=
  ids_ok events ∧ ∀ t e, A !! (dest, t) = Some e → e ∈ events.

(** One transaction at most to a destination, and exactly while its status says
    so; all the rows in flight to it are of that transaction; without a status
    there are none. *)
Definition settled (w : World) (A : Rows) (dest : Destination) : Prop :=
  (dest ∈ (futures w).*1 ↔ busy dest (statuses w !! dest) = true)
  ∧ (∀ events, (dest, events) ∈ futures w → carries A dest events)
  ∧ (statuses w !! dest = None → ∀ t, A !! (dest, t) = None).

Record inv (w : World) (A Q : Rows) (r : Z) : Prop := {
  inv_sound : sound w A Q r;
  inv_single : NoDup (futures w).*1;
  inv_settled : ∀ dest, settled w A dest
}.

(** While a transaction to [dest] is put together: it is marked as running but
    not yet in flight. *)
Record composing (dest : Destination) (w : World) (A Q : Rows) (r : Z) : Prop := {
  comp_sound : sound w A Q r;
  comp_single : NoDup (futures w).*1;
  comp_others : ∀ dest', dest' ≠ dest → settled w A dest';
  comp_idle : dest ∉ (futures w).*1;
  comp_busy : busy dest (statuses w !! dest) = true
}.

Lemma send_spec dest events w A Q r :
  composing dest w A Q r → carries A dest events → events ≠ [] →
  ∃ w', send_events dest events w = Ok w' ∧ inv w' A Q r ∧ dispatched w' = dispatched w ∧ wakes w' = wakes w.
Proof.
  intros [Hs Hnd Ho Hidle Hbusy] Hc Hne. unfold send_events. rewrite bool_decide_false, debug_assert_true, bind_Ok by done.
  eexists. split; [reflexivity|]. split; [|by split]. split.
  - destruct Hs. by split.
  - cbn [futures]. rewrite fmap_app. apply NoDup_app. split_and!; [done| |apply NoDup_singleton].
    intros x Hx ->%list_elem_of_singleton. done.
  - intros dest'. unfold settled. cbn [futures statuses]. rewrite fmap_app, elem_of_app. cbn [fmap list_fmap fst].
    destruct (decide (dest' = dest)) as [->|Hne'].
    + split_and!.
      * split; [done|]. intros _. right. left.
      * intros evs [Hin|[= ->]%list_elem_of_singleton]%elem_of_app; [|done].
        exfalso. apply Hidle, list_elem_of_fmap. by exists (dest, evs).
      * intros Hn. by rewrite Hn in Hbusy.
    + destruct (Ho dest' Hne') as (Hb & Hf & Hn). split_and!; [|intros evs [Hin|[= Heq _]%list_elem_of_singleton]%elem_of_app; [by apply Hf|done]|done].
      rewrite <-Hb. split; [|by left]. by intros [?| ->%list_elem_of_singleton].
Qed.

Lemma sound_status dest s w A Q r :
  sound w A Q r → dest_valid dest → (∀ tries time, s = Failed tries time → is_push dest = true) →
  sound (set_statuses (<[dest := s]> (statuses w)) w) A Q r.
Proof.
  intros [Hrows HcA HcQ Hnum Hbound Hedu Hdests Hfailed Hwakes] Hd Hs. split; try done; cbn [statuses set_statuses].
  - intros x [s' [[<- _]|[_ Hx]]%lookup_insert_Some]; [done|]. apply Hdests. by exists s'.
  - intros x tries time [[<- ->]|[_ Hx]]%lookup_insert_Some; [by eapply Hs|by eapply Hfailed].
Qed.

Lemma sound_drop dest w A Q r : sound w A Q r → sound (set_statuses (delete dest (statuses w)) w) A Q r.
Proof.
  intros [Hrows HcA HcQ Hnum Hbound Hedu Hdests Hfailed Hwakes]. split; try done; cbn [statuses set_statuses].
  - intros x [s [_ Hx]%lookup_delete_Some]. apply Hdests. by exists s.
  - intros x tries time [_ Hx]%lookup_delete_Some. by eapply Hfailed.
Qed.

Lemma drop_status_spec dest w A Q r :
  composing dest w A Q r → carries A dest [] → inv (set_statuses (delete dest (statuses w)) w) A Q r.
Proof.
  intros [Hs Hnd Ho Hidle Hbusy] Hc. split.
  - by apply sound_drop.
  - done.
  - intros dest'. unfold settled. cbn [futures statuses set_statuses]. destruct (decide (dest' = dest)) as [->|Hne'].
    + rewrite lookup_delete_eq. split_and!; [by split| |].
      * intros evs Hin. exfalso. apply Hidle, list_elem_of_fmap. by exists (dest, evs).
      * intros _ t. apply eq_None_not_Some. intros [e He]. by apply Hc, not_elem_of_nil in He.
    + rewrite lookup_delete_ne by done. by apply Ho.
Qed.

Lemma schedule_spec dest events w A Q r :
  composing dest w A Q r → carries A dest events →
  ∃ w', schedule_events dest events w = Ok w' ∧ inv w' A Q r ∧ dispatched w' = dispatched w ∧ wakes w' = wakes w.
Proof.
  intros Hw Hc. destruct events as [|e events]; [|by apply send_spec].
  eexists. split; [reflexivity|]. split; [by apply drop_status_spec|by split].
Qed.

(** Marking a destination as running. *)
Lemma start_spec dest s w A Q r :
  inv w A Q r → dest_valid dest → busy dest (statuses w !! dest) = false → busy dest (Some s) = true →
  composing dest (set_statuses (<[dest := s]> (statuses w)) w) A Q r.
Proof.
  intros [Hs Hnd Hset] Hd Hidle Hbusy. split; cbn [futures statuses set_statuses].
  - apply sound_status; [done..|]. by intros tries time ->.
  - done.
  - intros dest' Hne. unfold settled. cbn [futures statuses set_statuses]. rewrite lookup_insert_ne by done. apply Hset.
  - destruct (Hset dest) as (Hb & _). rewrite Hb, Hidle. done.
  - by rewrite lookup_insert_eq.
Qed.

(** The items a transaction is made of: each has no key and is not stored, or
    has the key its event is stored under. *)
Definition item_ok (dest : Destination) (n : Z) (Q : Rows) (item : bytes * SendingEvent) : Prop :=
  (item.1 = [] ∧ (item.2 = Flush ∨ item.2 = BadgeRefresh)) ∨
  (∃ t, item.1 = get_prefix dest ++ t ∧ event_ok dest t item.2 ∧ tail_in n t item.2 ∧ ∀ e, Q !! (dest, t) = Some e → e = item.2).

Lemma item_ok_queue dest n n' Q Q' item :
  n ≤ n' → (∀ t e, Q' !! (dest, t) = Some e → Q !! (dest, t) = Some e ∨ ∀ e', tail_in n t e' → e' = e) →
  item_ok dest n Q item → item_ok dest n' Q' item.
Proof.
  intros Hn HQ [?|(t & Hk & He & Ht & Hsame)]; [by left|right]. exists t. split_and!; [done|done|by eapply tail_mono|].
  intros e Hl. apply HQ in Hl as [Hl|Hl]; [by apply Hsame|]. symmetry. by apply Hl.
Qed.

(** Rows of the destination at hand may change. *)
Lemma composing_rows dest w w' A A' Q Q' r r' :
  composing dest w A Q r → sound w' A' Q' r' → futures w' = futures w → statuses w' = statuses w →
  (∀ x t, x ≠ dest → A' !! (x, t) = A !! (x, t)) → composing dest w' A' Q' r'.
Proof.
  intros [Hs Hnd Ho Hidle Hbusy] Hs' Hf Hst HA. split; [done|by rewrite Hf| |by rewrite Hf|by rewrite Hst].
  intros dest' Hne. destruct (Ho dest' Hne) as (Hb & Hfl & Hn). unfold settled. rewrite Hf, Hst. split_and!; [done| |].
  - intros evs Hin. destruct (Hfl evs Hin) as [Hids Hcar]. split; [done|]. intros t e. rewrite HA by done. apply Hcar.
  - intros Hnone t. rewrite HA by done. by apply Hn.
Qed.

Lemma mark_sound dest t e w A Q r :
  sound w A Q r → dest_valid dest → event_ok dest t e → tail_in (dispatched w) t e →
  ∃ d, mark_active [(get_prefix dest ++ t, e)] (data w) = Ok d
    ∧ sound (set_data d w) (<[(dest, t) := e]> A) (delete (dest, t) Q) r.
Proof.
  intros [Hrows HcA HcQ Hnum Hbound Hedu Hdests Hfailed Hwakes] Hd He Ht.
  destruct (mark_active_law (data w) A Q dest [(t, e)] Hrows Hd) as (d & Hrun & Hrows' & Hcount); [by repeat constructor|].
  exists d. split; [done|]. split; cbn [data dispatched statuses wakes set_data]; try done.
  - intros x t' e' [[[= <- <-] <-]|[_ HA]]%lookup_insert_Some; [done|by apply HcA in HA].
  - intros x t' e' [_ HQ]%lookup_delete_Some. by apply HcQ in HQ.
  - intros server. destruct (Hedu server) as (n & Hn & Hle). exists n. by rewrite Hcount.
Qed.

Lemma take_items_spec dest items w A Q r :
  composing dest w A Q r → dest_valid dest → Forall (item_ok dest (dispatched w) Q) items →
  (∀ t, is_Some (A !! (dest, t)) → Q !! (dest, t) = None) →
  ∃ events w' A' Q', take_items items w = Ok (events, w') ∧ composing dest w' A' Q' r ∧ kept A Q A' Q'
    ∧ (∀ t e, A' !! (dest, t) = Some e → A !! (dest, t) = Some e ∨ e ∈ events) ∧ dispatched w' = dispatched w
    ∧ (∀ x t e, Q' !! (x, t) = Some e → Q !! (x, t) = Some e) ∧ zlen events ≤ zlen items ∧ ids_ok events ∧ wakes w' = wakes w.
Proof.
  intros Hw Hd. revert w A Q Hw. induction items as [|item items IH]; intros w A Q Hw Hok Hdis.
  { exists [], w, A, Q. split_and!; [done|done|apply kept_refl|by left|done|done|done| |done]. by intros id ?%not_elem_of_nil. }
  apply Forall_cons in Hok as [Hitem Hok]. cbn [take_items]. rewrite zlen_cons.
  destruct Hitem as [[Hkey Hev]|(t & Hkey & He & Ht & Hsame)]; destruct item as [key e]; cbn [fst snd] in *; subst key.
  - rewrite retained_none_law, bind_Ok, mark_none_law, bind_Ok. replace (set_data (data w) w) with w by by destruct w.
    destruct (IH w A Q Hw Hok Hdis) as (events & w' & A' & Q' & Hrun & Hw' & Hkept & Hcar & Hn & HQ & Hlen & Hids & Hwk). rewrite Hrun, bind_Ok.
    destruct Hev as [->| ->]; cbn [is_flush]; eexists _, _, _, _; (split_and!; [reflexivity|done|done| |done|done| | |done]); try done.
    + lia.
    + intros t0 e0 HA. apply Hcar in HA as [?|?]; [by left|right; by right].
    + cbn [fst]. rewrite zlen_cons. lia.
    + intros id [?|?]%elem_of_cons; [done|by apply Hids].
  - destruct (comp_sound _ _ _ _ _ Hw) as [Hrows HcA HcQ Hnum Hbound Hedu Hdests Hfailed Hwakes].
    rewrite (retained_law _ _ _ _ _ _ Hrows Hd), bind_Ok.
    destruct (Q !! (dest, t)) as [e'|] eqn:HQt; [rewrite bool_decide_true by by eexists|rewrite bool_decide_false by by intros [? ?]].
    2: { destruct (IH w A Q Hw Hok Hdis) as (events & w' & A' & Q' & Hrun & Hw' & Hkept & Hcar & Hn & HQ & Hlen & Hids & Hwk).
         eexists _, _, _, _. split_and!; [exact Hrun|done..| |done|done]. lia. }
    assert (e' = e) as -> by by apply Hsame.
    destruct (mark_sound dest t e w A Q r (comp_sound _ _ _ _ _ Hw) Hd He Ht) as (d & Hmark & Hs). rewrite Hmark, bind_Ok.
    assert (Hsub : ∀ x t' e', delete (dest, t) Q !! (x, t') = Some e' → Q !! (x, t') = Some e') by (by intros x t' e' [_ ?]%lookup_delete_Some).
    destruct (IH (set_data d w) (<[(dest, t) := e]> A) (delete (dest, t) Q)) as (events & w' & A' & Q' & Hrun & Hw' & Hkept & Hcar & Hn & HQ & Hlen & Hids & Hwk).
    + eapply composing_rows; [exact Hw|done..|]. intros x t' Hx. apply lookup_insert_ne. congruence.
    + eapply Forall_impl; [exact Hok|]. intros it. apply item_ok_queue; [done|]. left. by apply Hsub.
    + intros t' [e' [[[= <-] _]|[Hne HA]]%lookup_insert_Some]; [apply lookup_delete_eq|]. rewrite lookup_delete_ne by done. apply Hdis. by exists e'.
    + rewrite Hrun, bind_Ok. assert (is_flush e = false) as -> by (destruct e; try done; by cbn in He).
      eexists _, _, _, _. split_and!; [reflexivity|done| | |done| | | |done].
      * intros x t' e' Hin. apply Hkept. destruct (decide ((x, t') = (dest, t))) as [[= -> ->]|Hne].
        -- left. rewrite lookup_insert_eq. destruct Hin as [HA|HQ']; [|congruence]. by rewrite (Hdis t) in HQt by by eexists.
        -- rewrite lookup_insert_ne, lookup_delete_ne by done. done.
      * intros t' e' HA. apply Hcar in HA as [[[[= <-] <-]|[_ HA]]%lookup_insert_Some|Hin]; [right; left|by left|right; by right].
      * intros x t' e' HQ'. by apply Hsub, HQ.
      * cbn [fst]. rewrite zlen_cons. lia.
      * intros id [Heq|?]%elem_of_cons; [|by apply Hids]. cbn in Heq. subst e. by destruct He.
Qed.

(** ** EDUs *)

(** The queue changes only by rows taken, rows newly numbered, and rows of
    events that were there before. *)
Definition grows (n : Z) (Q : Rows) (n' : Z) (Q' : Rows) : Prop :=
  n ≤ n' ∧ ∀ x t e, Q' !! (x, t) = Some e → Q !! (x, t) = Some e ∨ ∀ e', tail_in n t e' → e' = e.

Lemma grows_refl n Q : grows n Q n Q.
Proof. split; [lia|]. by left. Qed.

Lemma grows_trans n1 Q1 n2 Q2 n3 Q3 : grows n1 Q1 n2 Q2 → grows n2 Q2 n3 Q3 → grows n1 Q1 n3 Q3.
Proof.
  intros [Hn12 H12] [Hn23 H23]. split; [lia|]. intros x t e [Hl|Hl]%H23; [by apply H12|right].
  intros e' Ht. apply Hl. by eapply tail_mono.
Qed.

Lemma grows_sub n Q Q' : (∀ x t e, Q' !! (x, t) = Some e → Q !! (x, t) = Some e) → grows n Q n Q'.
Proof. intros Hs. split; [lia|]. left. by apply Hs. Qed.

Lemma item_ok_grows dest n Q n' Q' item : grows n Q n' Q' → item_ok dest n Q item → item_ok dest n' Q' item.
Proof. intros [Hn HQ]. apply item_ok_queue; [done|]. intros t e. apply HQ. Qed.

Lemma grows_rows n requests Q :
  0 ≤ n → n + numbered requests ≤ u64_max → Forall (λ r, event_ok r.1.1 r.1.2 r.2) (rows_from n requests) → counted n Q →
  grows n Q (n + numbered requests) (add_rows (rows_from n requests) Q).
Proof.
  intros Hn Hmax Hok HQ. pose proof (numbered_nonneg requests). split; [lia|]. intros x t e.
  rewrite lookup_add_rows by by apply rows_from_fits. intros [Hin|Hl]; [right|by left]. rewrite Forall_forall in Hok. pose proof (Hok _ Hin) as Hok0.
  apply rows_from_tails in Hin as [_ [(id & -> & ->)|(_ & k & Hk & ->)]]; intros e' Ht.
  - destruct Hok0 as [Hid _]. by eapply tail_pdu.
  - exfalso. eapply tail_fresh; [exact Ht| | |reflexivity]; lia.
Qed.

Lemma sound_retired w A Q r r' : sound w A Q r → r ≤ r' ≤ dispatched w → sound w A Q r'.
Proof.
  intros [] Hr. split; try done; [lia|]. intros server. destruct (sound_educounts0 server) as (n & Hn & Hle). exists n. split; [done|lia].
Qed.

(** Requests that can be stored. *)
Definition requests_ok (n : Z) (requests : list (SendingEvent * Destination)) : Prop :=
  Forall (λ r, dest_valid r.1.1 ∧ event_ok r.1.1 r.1.2 r.2) (rows_from n requests).

Lemma queue_sound requests w A Q r :
  sound w A Q r → requests_ok (dispatched w) requests → dispatched w + numbered requests ≤ u64_max →
  ∃ w', queue_rows requests w = Ok ((λ x, get_prefix x.1.1 ++ x.1.2) <$> rows_from (dispatched w) requests, w')
    ∧ sound w' A (add_rows (rows_from (dispatched w) requests) Q) r
    ∧ grows (dispatched w) Q (dispatched w') (add_rows (rows_from (dispatched w) requests) Q)
    ∧ fits Q (rows_from (dispatched w) requests)
    ∧ futures w' = futures w ∧ statuses w' = statuses w ∧ wakes w' = wakes w ∧ dispatched w' = dispatched w + numbered requests.
Proof.
  intros [Hrows HcA HcQ Hnum Hbound Hedu Hdests Hfailed Hwakes] Hok Hmax. pose proof (numbered_nonneg requests).
  assert (Hok' : Forall (λ r, event_ok r.1.1 r.1.2 r.2) (rows_from (dispatched w) requests)) by (eapply Forall_impl; [exact Hok|]; by intros x [_ ?]).
  destruct (queue_up_law (data w) A Q (draw w) requests Hrows Hok) as (d & Hrun & Hrows' & Hcount).
  destruct (rows_from_fits (dispatched w) requests Q) as [Hfits Hc]; [lia|done..|].
  eexists. split; [unfold queue_rows; rewrite Hrun, bind_Ok; reflexivity|]. cbn [fst snd].
  split; [|split_and!; [by apply grows_rows; [lia|..]|done..]].
  split; cbn [data dispatched statuses wakes drawn]; try done.
  - eapply counted_mono; [|done]. lia.
  - lia.
  - intros server. destruct (Hedu server) as (n & Hn & Hle). exists n. by rewrite Hcount.
Qed.

Lemma persist_sound server edus w A Q r :
  sound w A Q r → dest_valid (Federation server) → Forall (λ edu, edu ≠ []) edus → dispatched w + zlen edus ≤ u64_max →
  let rows := rows_from (dispatched w) ((λ b, (Edu b, Federation server)) <$> edus) in
  ∃ d, persist_edus server (draw w) edus (data w) = Ok d ∧ sound (drawn (zlen edus) d w) (add_rows rows A) Q r ∧ fits A rows.
Proof.
  intros [Hrows HcA HcQ Hnum Hbound Hedu Hdests Hfailed Hwakes] Hd He Hmax rows. pose proof (zlen_nonneg edus).
  destruct (persist_edus_law (data w) A Q server (draw w) edus Hrows Hd He) as (d & Hrun & Hrows' & Hcount).
  change (draw w) with (λ i : nat, dispatched w + 1 + Z.of_nat i) in Hrows'. rewrite edu_rows_from in Hrows'. fold rows in Hrows'. pose proof (numbered_edus server edus) as Hne.
  assert (Hok : Forall (λ r, event_ok r.1.1 r.1.2 r.2) rows).
  { apply Forall_forall. intros [[x t] e] Hin. apply rows_from_tails in Hin as [Hin _]. apply list_elem_of_fmap in Hin as (b & [= -> ->] & Hb).
    cbn. rewrite Forall_forall in He. by apply He. }
  destruct (rows_from_fits (dispatched w) ((λ b, (Edu b, Federation server)) <$> edus) A) as [Hfits Hc]; [lia|lia|done..|].
  exists d. split; [done|]. split; [|done]. split; cbn [data dispatched statuses wakes drawn]; try done.
  - by rewrite <-Hne.
  - eapply counted_mono; [|done]. lia.
  - lia.
  - intros s. destruct (Hedu s) as (n & Hn & Hle). exists n. by rewrite Hcount.
Qed.

(** What the rest of the program hands over: numbers that do not run back, no
    further than those drawn, EDUs that are not empty, and numbers left to draw. *)
Definition env_ok (env : Env) (r n : Z) : Prop :=
  r ≤ since_upper (window env) ≤ n ∧ max_edu_count (window env) ≤ since_upper (window env)
  ∧ Forall (λ x, buf_of x ≠ []) (reserves (window env)) ∧ n + zlen (reserves (window env)) ≤ u64_max.

(** What composing adds, for the events [events'] of the transaction. *)
Record composed (dest : Destination) (w : World) (A Q : Rows) (r : Z) (w' : World) (events' : list SendingEvent) (A' Q' : Rows) (env : Env) : Prop := {
  composed_still : composing dest w' A' Q' (since_upper (window env));
  composed_kept : kept A Q A' Q';
  composed_carries : ∀ t e, A' !! (dest, t) = Some e → A !! (dest, t) = Some e ∨ e ∈ events';
  composed_grows : grows (dispatched w) Q (dispatched w') Q';
  composed_drawn : dispatched w' ≤ dispatched w + zlen (reserves (window env));
  composed_wakes : wakes w' = wakes w;
  composed_ids : ids_ok events'
}.

Lemma set_educount_sound server n w A Q r :
  sound w A Q r → 0 ≤ n ≤ r → sound (set_data (set_educount server n (data w)) w) A Q r.
Proof.
  intros [Hrows HcA HcQ Hnum Hbound Hedu Hdests Hfailed Hwakes] Hn.
  destruct (set_educount_law (data w) A Q server n Hrows) as (Hrows' & Hset & Hother); [unfold u64; lia|].
  split; cbn [data dispatched statuses wakes set_data]; try done. intros s.
  destruct (decide (s = server)) as [->|Hne]; [by exists n|]. rewrite Hother by done. apply Hedu.
Qed.

Lemma overflow_spec server over w A Q r :
  composing (Federation server) w A Q r → dest_valid (Federation server) → Forall (λ b : bytes, b ≠ []) over → dispatched w + zlen over ≤ u64_max →
  ∃ w' Q', (match Edu <$> over with
            | [] => Ok w
            | _ => x ← queue_rows ((λ e, (e, Federation server)) <$> (Edu <$> over)) w; Ok x.2
            end) = Ok w'
    ∧ composing (Federation server) w' A Q' r ∧ kept A Q A Q' ∧ grows (dispatched w) Q (dispatched w') Q'
    ∧ dispatched w' ≤ dispatched w + zlen over ∧ wakes w' = wakes w.
Proof.
  intros Hw Hd Hne Hmax. destruct over as [|b over]; [exists w, Q; split_and!; [done|done|apply kept_refl|apply grows_refl|rewrite zlen_nil; lia|done]|].
  set (requests := (λ e, (e, Federation server)) <$> (Edu <$> b :: over)).
  assert (Hreq : requests = (λ b, (Edu b, Federation server)) <$> (b :: over)) by (subst requests; by rewrite <-list_fmap_compose).
  assert (Hnum : numbered requests = zlen (b :: over)) by (rewrite Hreq; apply numbered_edus).
  destruct (queue_sound requests w A Q r (comp_sound _ _ _ _ _ Hw)) as (w' & Hrun & Hs & Hg & Hf & Hfut & Hst & Hwk & Hdis).
  - apply Forall_forall. intros [[x t] e] Hin. apply rows_from_tails in Hin as [Hin _]. rewrite Hreq in Hin. apply list_elem_of_fmap in Hin as (b' & [= -> ->] & Hb).
    split; [done|]. cbn. rewrite Forall_forall in Hne. by apply Hne.
  - lia.
  - exists w', (add_rows (rows_from (dispatched w) requests) Q). split_and!; [|by eapply composing_rows|by apply kept_add_queue|done|lia|done].
    change (match Edu <$> b :: over with [] => Ok w | _ :: _ => x ← queue_rows requests w; Ok x.2 end) with (x ← queue_rows requests w; Ok x.2).
    by rewrite Hrun.
Qed.

Lemma durable_spec server edus w A Q r :
  composing (Federation server) w A Q r → dest_valid (Federation server) → Forall (λ b : bytes, b ≠ []) edus → dispatched w + zlen edus ≤ u64_max →
  ∃ w' A', (match edus with
            | [] => Ok w
            | _ => d ← persist_edus server (draw w) edus (data w); Ok (drawn (zlen edus) d w)
            end) = Ok w'
    ∧ composing (Federation server) w' A' Q r ∧ kept A Q A' Q
    ∧ (∀ t e, A' !! (Federation server, t) = Some e → A !! (Federation server, t) = Some e ∨ e ∈ Edu <$> edus)
    ∧ dispatched w ≤ dispatched w' ≤ dispatched w + zlen edus ∧ wakes w' = wakes w.
Proof.
  intros Hw Hd Hne Hmax. destruct edus as [|b edus]; [exists w, A; split_and!; [done|done|apply kept_refl|by left|lia|rewrite zlen_nil; lia|done]|].
  destruct (persist_sound server (b :: edus) w A Q r (comp_sound _ _ _ _ _ Hw) Hd Hne Hmax) as (d & Hrun & Hs & Hf).
  eexists _, _. split; [by rewrite Hrun|]. pose proof (zlen_nonneg (b :: edus)). split_and!; [| | |cbn; lia|done|done].
  - eapply composing_rows; [exact Hw|done..|]. intros x t Hx. apply option_eq. intros e. rewrite lookup_add_rows by done. split; [|by right].
    intros [Hin|?]; [|done]. apply rows_from_tails in Hin as [Hin _]. apply list_elem_of_fmap in Hin as (b' & [= _ ->] & _). done.
  - by apply kept_add_active.
  - intros t e. rewrite lookup_add_rows by done. intros [Hin|?]; [right|by left]. apply rows_from_tails in Hin as [Hin _].
    apply list_elem_of_fmap in Hin as (b' & [= -> ] & Hb). by apply list_elem_of_fmap_2.
Qed.

Lemma select_edus_spec env server budget_used w A Q r :
  composing (Federation server) w A Q r → dest_valid (Federation server) → env_ok env r (dispatched w) → budget_used ≤ EDU_LIMIT →
  ∃ edus w' A' Q', select_edus env server budget_used w = Ok (edus, w')
    ∧ composed (Federation server) w A Q r w' (Edu <$> edus) A' Q' env.
Proof.
  intros Hw Hd (Hup & Hmax & Hne & Hdraw) Hbudget. pose proof (comp_sound _ _ _ _ _ Hw) as Hs.
  destruct (sound_educounts _ _ _ _ Hs server) as (since & Hsince & Hle). pose proof (zlen_nonneg (reserves (window env))) as Hnn.
  assert (Hw1 : composing (Federation server) w A Q (since_upper (window env))).
  { eapply composing_rows; [exact Hw|eapply sound_retired; [done|lia]|done..]. }
  unfold select_edus. rewrite Hsince, bind_Ok. destruct (Z.eqb_spec since (since_upper (window env))) as [Heq|Hneq].
  { exists [], w, A, Q. split; [done|]. split; [done|apply kept_refl|by left|apply grows_refl|lia|done|by intros id ?%not_elem_of_nil]. }
  rewrite (debug_assert_true (since <=? since_upper (window env))), bind_Ok by (apply Z.leb_le; lia). set (sel := select_all budget_used (reserves (window env))).
  destruct (select_bound budget_used (reserves (window env)) Hbudget) as [Hb _]. fold sel in Hb.
  destruct (select_all_bufs (λ b, b ≠ []) budget_used (reserves (window env)) Hne) as (Hdu & Hsp & Hcount). fold sel in Hdu, Hsp, Hcount.
  pose proof (zlen_nonneg (durable sel)) as Hn1. pose proof (zlen_nonneg (spilled sel)) as Hn2.
  rewrite debug_assert_true, bind_Ok by (apply Z.leb_le; unfold taken in Hb; rewrite zlen_app; lia).
  fold (durable sel) (spilled sel).
  destruct (overflow_spec server (spilled sel) w A Q _ Hw1 Hd Hsp) as (w1 & Q1 & Hrun1 & Hc1 & Hk1 & Hg1 & Hd1 & Hwk1); [lia|].
  rewrite Hrun1, bind_Ok. pose proof (proj1 Hg1) as Hge1.
  destruct (durable_spec server (durable sel) w1 A Q1 _ Hc1 Hd Hdu) as (w2 & A2 & Hrun2 & Hc2 & Hk2 & Hcar & Hd2 & Hwk2); [lia|].
  rewrite Hrun2, bind_Ok. set (last := Z.max since (max_edu_count (window env))).
  eexists _, _, A2, Q1. split; [reflexivity|].
  assert (Hc3 : composing (Federation server) (if since <? last then set_data (set_educount server last (data w2)) w2 else w2) A2 Q1 (since_upper (window env))).
  { destruct (since <? last); [|done]. eapply composing_rows; [exact Hc2|apply set_educount_sound; [by apply (comp_sound _ _ _ _ _ Hc2)|subst last; lia]|done..]. }
  split; [done|by eapply kept_trans| | | | |by intros id (b & ? & _)%list_elem_of_fmap].
  - intros t e HA. apply Hcar in HA as [?|Hin]; [by left|right]. rewrite fmap_app. apply elem_of_app. by left.
  - split; [destruct (since <? last); cbn; lia|]. intros x t e HQ. by apply Hg1.
  - destruct (since <? last); cbn; lia.
  - destruct (since <? last); cbn; congruence.
Qed.

Lemma composing_retired dest w A Q r r' : composing dest w A Q r → r ≤ r' ≤ dispatched w → composing dest w A Q r'.
Proof. intros Hw Hr. eapply composing_rows; [exact Hw|eapply sound_retired; [by apply (comp_sound _ _ _ _ _ Hw)|done]|done..]. Qed.

Lemma inv_retired w A Q r r' : inv w A Q r → r ≤ r' ≤ dispatched w → inv w A Q r'.
Proof. intros [Hs Hnd Hset] Hr. split; [by eapply sound_retired|done..]. Qed.

Lemma top_up_spec env dest events w A Q r :
  composing dest w A Q r → dest_valid dest → env_ok env r (dispatched w) → budget events ≤ EDU_LIMIT →
  ∃ edus w' A' Q', top_up env dest events w = Ok (events ++ edus, w') ∧ composed dest w A Q r w' edus A' Q' env.
Proof.
  intros Hw Hd Henv Hb. pose proof (zlen_nonneg (reserves (window env))). unfold top_up. destruct dest as [id|user pushkey|server].
  3: { destruct (select_edus_spec env server (budget events) w A Q r Hw Hd Henv Hb) as (edus & w' & A' & Q' & -> & Hc). by eexists _, _, _, _. }
  all: exists [], w, A, Q; rewrite app_nil_r; split; [done|].
  all: split; [eapply composing_retired; [exact Hw|by apply Henv]|apply kept_refl|by left|apply grows_refl|lia|done|by intros i ?%not_elem_of_nil].
Qed.

(** The timers armed in between. *)
Definition timers (env : Env) (w w' : World) : Prop :=
  ∃ l, wakes w' ≡ₚ l ++ wakes w ∧ ∀ x, x ∈ l → ∃ delay, x.1 = wake_deadline env delay.

Lemma timers_same env w w' : wakes w' = wakes w → timers env w w'.
Proof. intros Hw. exists []. split; [by rewrite Hw|]. by intros x ?%not_elem_of_nil. Qed.

(** What handling one event does: the invariant holds on, no row is lost, the
    queue grows by new rows only. *)
Record moves (w : World) (A Q : Rows) (env : Env) (w' : World) (A' Q' : Rows) : Prop := {
  moves_inv : inv w' A' Q' (since_upper (window env));
  moves_kept : kept A Q A' Q';
  moves_grows : grows (dispatched w) Q (dispatched w') Q';
  moves_drawn : dispatched w' ≤ dispatched w + zlen (reserves (window env));
  moves_timers : timers env w w'
}.

Lemma moves_stay w A Q r env :
  inv w A Q r → env_ok env r (dispatched w) → moves w A Q env w A Q.
Proof.
  intros Hw Henv. pose proof (zlen_nonneg (reserves (window env))).
  split; [eapply inv_retired; [exact Hw|by apply Henv]|apply kept_refl|apply grows_refl|lia|by apply timers_same].
Qed.

(** Statuses that leave it as it is whether a transaction is in flight. *)
Lemma inv_status dest s w A Q r :
  inv w A Q r → is_Some (statuses w !! dest) → (∀ tries time, s = Failed tries time → is_push dest = true) →
  busy dest (Some s) = busy dest (statuses w !! dest) →
  inv (set_statuses (<[dest := s]> (statuses w)) w) A Q r.
Proof.
  intros [Hs Hnd Hset] Hsome Hf Hb. split; [|done|].
  - apply sound_status; [done|by apply (sound_dests _ _ _ _ Hs)|done].
  - intros x. unfold settled. cbn [futures statuses set_statuses]. destruct (Hset x) as (Hb' & Hfl & Hn).
    destruct (decide (x = dest)) as [->|Hne]; [rewrite lookup_insert_eq|by rewrite lookup_insert_ne].
    split_and!; [by rewrite Hb|done|done].
Qed.

Lemma inv_same_statuses st w A Q r : inv w A Q r → st = statuses w → inv (set_statuses st w) A Q r.
Proof. intros Hw ->. by destruct w. Qed.

(** The destination is let through: it is now running, from not running. *)
Lemma select_current_spec env dest action w A Q r :
  inv w A Q r → dest_valid dest →
  let '(allow, retry, st) := select_events_current env dest action (statuses w) in
  if allow : bool then composing dest (set_statuses st w) A Q r ∧ (retry = false → statuses w !! dest = None)
  else inv (set_statuses st w) A Q r.
Proof.
  intros Hw Hd. unfold select_events_current. destruct (gated env dest); [by apply inv_same_statuses|].
  destruct (statuses w !! dest) as [s|] eqn:Hs.
  - assert (Hsome : is_Some (statuses w !! dest)) by by eexists.
    destruct s as [| |tries time|tries].
    + destruct action; [by apply inv_same_statuses|]. apply inv_status; [done..|by rewrite Hs].
    + destruct action; [by apply inv_same_statuses|]. apply inv_status; [done..|by rewrite Hs].
    + destruct (push_backoff_remaining _ _); [by apply inv_same_statuses|]. split; [|done].
      apply start_spec; [done..|by rewrite Hs|]. by apply (sound_failed _ _ _ _ (inv_sound _ _ _ _ Hw)) in Hs.
    + destruct (is_push dest) eqn:Hp; [by apply inv_same_statuses|]. split; [|done]. apply start_spec; [done..|by rewrite Hs; cbn|done].
  - split; [|done]. apply start_spec; [done..|by rewrite Hs|done].
Qed.

Lemma budget_le events : budget events ≤ zlen events.
Proof. unfold budget, zlen. pose proof (length_filter (λ e : SendingEvent, is_edu e = true) events). lia. Qed.

Lemma rows_ids_ok dest (l : list (bytes * SendingEvent)) : Forall (λ te, event_ok dest te.1 te.2) l → ids_ok l.*2.
Proof. intros Hl id ([t e] & Heq & Hin)%list_elem_of_fmap. cbn in Heq. subst e. rewrite Forall_forall in Hl. by apply Hl in Hin as [Hid _]. Qed.

Lemma ids_ok_app l l' : ids_ok l → ids_ok l' → ids_ok (l ++ l').
Proof. intros Hl Hl' id [?|?]%elem_of_app; [by apply Hl|by apply Hl']. Qed.

Lemma item_of_snd dest (l : list (bytes * SendingEvent)) : (item_of dest <$> l).*2 = l.*2.
Proof. by rewrite <-list_fmap_compose. Qed.

Lemma listed_carries d dest A Q l : rows_of d A Q → lists dest A l → carries A dest (item_of dest <$> l).*2.
Proof.
  intros Hd [_ Hl]. rewrite item_of_snd. split.
  - apply (rows_ids_ok dest), Forall_forall. intros [t e] Hin%Hl. by eapply (rows_valid d A Q dest t e Hd); left.
  - intros t e HA. apply Hl in HA. by apply (list_elem_of_fmap_2 snd) in HA.
Qed.

Lemma select_and_schedule_spec env dest items w A Q r :
  inv w A Q r → dest_valid dest → env_ok env r (dispatched w) → Forall (item_ok dest (dispatched w) Q) items → zlen items ≤ EDU_LIMIT →
  ∃ w' A' Q', select_and_schedule env dest items w = Some (Ok w') ∧ moves w A Q env w' A' Q'.
Proof.
  intros Hw Hd Henv Hitems Hlen. unfold select_and_schedule, select_events. cbn zeta. set (action := if is_appservice dest && _ then Force else NoRetry).
  pose proof (select_current_spec env dest action w A Q r Hw Hd) as Hsel.
  destruct (select_events_current env dest action (statuses w)) as [[allow retry] st]. destruct allow; cbn [negb].
  2: { cbn [bind_scan]. eexists _, A, Q. split; [reflexivity|].
       destruct (moves_stay (set_statuses st w) A Q r env Hsel Henv). by split. }
  destruct Hsel as [Hc Hnone]. pose proof (zlen_nonneg (reserves (window env))) as Hnn. destruct Henv as (Hup & Henv') eqn:He. clear He. set (w1 := set_statuses st w) in *.
  destruct retry.
  - destruct (active_for_law (data w1) A Q dest) as (l & Hl & Hlist); [by apply (comp_sound _ _ _ _ _ Hc)|done|].
    rewrite Hl, collect_done. cbn [bind_scan].
    destruct (schedule_spec dest (item_of dest <$> l).*2 w1 A Q (since_upper (window env))) as (w' & Hrun & Hw' & Hdis & Hwk);
      [by eapply composing_retired|eapply listed_carries; [by apply (comp_sound _ _ _ _ _ Hc)|done]|]. rewrite Hrun.
    exists w', A, Q. split; [done|]. split; [done|apply kept_refl|rewrite Hdis; apply grows_refl|rewrite Hdis; cbn; lia|by apply timers_same].
  - assert (Hempty : ∀ t, A !! (dest, t) = None) by (destruct (inv_settled _ _ _ _ Hw dest) as (_ & _ & Hn); by apply Hn, Hnone).
    destruct (take_items_spec dest items w1 A Q r Hc Hd Hitems) as (events & w2 & A2 & Q2 & Hrun2 & Hc2 & Hk2 & Hcar2 & Hdis2 & HQ2 & Hlen2 & Hids2 & Hwk2).
    { intros t [e He]. by rewrite Hempty in He. }
    rewrite Hrun2, bind_Ok. cbn [fst snd].
    destruct (top_up_spec env dest events w2 A2 Q2 r Hc2 Hd) as (edus & w3 & A3 & Q3 & Hrun3 & [Hc3 Hk3 Hcar3 Hg3 Hd3 Hwk3 Hids3]);
      [by rewrite Hdis2|pose proof (budget_le events); lia|]. rewrite Hrun3, bind_Ok. cbn [fst snd bind_scan].
    destruct (schedule_spec dest (events ++ edus) w3 A3 Q3 (since_upper (window env)) Hc3) as (w' & Hrun & Hw' & Hdis & Hwk).
    { split; [by apply ids_ok_app|]. intros t e HA. apply elem_of_app. apply Hcar3 in HA as [HA|?]; [|by right]. apply Hcar2 in HA as [HA|?]; [|by left]. by rewrite Hempty in HA. }
    rewrite Hrun. exists w', A3, Q3. split; [done|].
    assert (Hg2 : grows (dispatched w1) Q (dispatched w2) Q2) by (rewrite Hdis2; by apply grows_sub).
    split; [done|by eapply kept_trans|rewrite Hdis; by eapply grows_trans|rewrite Hdis; cbn in *; lia|apply timers_same; cbn in *; congruence].
Qed.

(** ** Handlers *)

Definition msg_ok (n : Z) (Q : Rows) (msg : Msg) : Prop :=
  dest_valid (dest msg) ∧ item_ok (dest msg) n Q (queue_id msg, event msg).

Lemma msg_ok_grows n Q n' Q' msg : grows n Q n' Q' → msg_ok n Q msg → msg_ok n' Q' msg.
Proof. intros Hg [Hd Hi]. split; [done|]. by eapply item_ok_grows. Qed.

(** The first rows waiting. *)
Lemma dequeue_spec d dest w A Q r :
  sound (set_data d w) A Q r → dest_valid dest →
  ∃ l, collect debug_assertions (stream_take DEQUEUE_LIMIT (queued_for dest d)) = Some (Ok (item_of dest <$> take DEQUEUE_LIMIT l))
    ∧ lists dest Q l ∧ Forall (λ te, event_ok dest te.1 te.2 ∧ tail_in (dispatched w) te.1 te.2 ∧ Q !! (dest, te.1) = Some te.2) (take DEQUEUE_LIMIT l)
    ∧ zlen (take DEQUEUE_LIMIT l) ≤ 48.
Proof.
  intros Hs Hd. destruct (queued_for_law d A Q dest (sound_rows _ _ _ _ Hs) Hd) as (l & Hl & Hlist). exists l. rewrite Hl. split; [apply stream_taken|]. split; [done|]. split.
  - apply Forall_forall. intros [t e] Hin. apply (subseteq_take DEQUEUE_LIMIT l) in Hin. pose proof (proj1 (proj2 Hlist t e) Hin) as Hi.
    cbn. split_and!; [|by apply (sound_queued _ _ _ _ Hs) in Hi|done]. by eapply (rows_valid d A Q dest t e (sound_rows _ _ _ _ Hs)); right.
  - unfold zlen. rewrite length_take. unfold DEQUEUE_LIMIT. lia.
Qed.

Lemma dequeued_items (dest : Destination) (n : Z) (Q : Rows) (l : list (bytes * SendingEvent)) :
  Forall (λ te, event_ok dest te.1 te.2 ∧ tail_in n te.1 te.2 ∧ Q !! (dest, te.1) = Some te.2) l → Forall (item_ok dest n Q) (item_of dest <$> l).
Proof.
  intros Hl. apply Forall_fmap. eapply Forall_impl; [exact Hl|]. intros [t e] (He & Ht & HQ). right. exists t. split_and!; [done..|].
  intros e' HQ'. cbn in *. congruence.
Qed.

Lemma handle_request_spec env msg w A Q r :
  inv w A Q r → msg_ok (dispatched w) Q msg → env_ok env r (dispatched w) →
  ∃ w' A' Q', handle_request env msg w = Some (Ok w') ∧ moves w A Q env w' A' Q'.
Proof.
  intros Hw [Hd Hitem] Henv. unfold handle_request. destruct (is_empty_key (queue_id msg) && bool_decide (event msg = BadgeRefresh)) eqn:Hb; cbn [negb].
  - destruct (has_status (dest msg) w); cbn [bind_scan].
    + apply (select_and_schedule_spec env (dest msg) [] w A Q r); [done..|constructor|]. rewrite zlen_nil. unfold EDU_LIMIT. lia.
    + destruct (dequeue_spec (data w) (dest msg) w A Q r) as (l & Hl & _ & Hok & Hlen); [destruct w; apply (inv_sound _ _ _ _ Hw)|done|].
      rewrite Hl. cbn [bind_scan]. apply (select_and_schedule_spec env (dest msg) _ w A Q r); [done..|by apply dequeued_items|].
      unfold zlen, EDU_LIMIT in *. rewrite length_fmap. lia.
  - cbn [bind_scan]. apply (select_and_schedule_spec env (dest msg) _ w A Q r); [done..|by constructor|]. rewrite zlen_cons, zlen_nil. unfold EDU_LIMIT. lia.
Qed.

(** Rows may be missing that are named lost. *)
Definition kept_but (lost : Destination → SendingEvent → Prop) (A Q A' Q' : Rows) : Prop :=
  ∀ x t e, A !! (x, t) = Some e ∨ Q !! (x, t) = Some e → (A' !! (x, t) = Some e ∨ Q' !! (x, t) = Some e) ∨ lost x e.

Lemma kept_but_kept lost A1 Q1 A2 Q2 A3 Q3 : kept_but lost A1 Q1 A2 Q2 → kept A2 Q2 A3 Q3 → kept_but lost A1 Q1 A3 Q3.
Proof. intros H12 H23 x t e Hl. destruct (H12 x t e Hl) as [?|?]; [left; by apply H23|by right]. Qed.

Lemma composing_status dest s w A Q r :
  composing dest w A Q r → busy dest (Some s) = true → composing dest (set_statuses (<[dest := s]> (statuses w)) w) A Q r.
Proof.
  intros [Hs Hnd Ho Hidle Hbusy] Hb. split; cbn [futures statuses set_statuses]; [|done| |done|by rewrite lookup_insert_eq].
  - apply sound_status; [done| |by intros tries time ->]. apply (sound_dests _ _ _ _ Hs). destruct (statuses w !! dest); [by eexists|done].
  - intros dest' Hne. unfold settled. cbn [futures statuses set_statuses]. rewrite lookup_insert_ne by done. by apply Ho.
Qed.

Lemma alter_busy dest w A Q r :
  composing dest w A Q r → alter (λ _, Running) dest (statuses w) = <[dest := Running]> (statuses w).
Proof.
  intros [_ _ _ _ Hbusy]. apply map_eq. intros x. destruct (decide (x = dest)) as [->|Hne].
  - rewrite lookup_insert_eq, lookup_alter_eq. by destruct (statuses w !! dest).
  - by rewrite lookup_insert_ne, lookup_alter_ne.
Qed.

Lemma delete_fmap {A B} (f : A → B) i (l : list A) : f <$> delete i l = delete i (f <$> l).
Proof. revert i. induction l as [|x l IH]; intros [|i]; cbn; [done..|]. by f_equal. Qed.

(** A transaction that ended leaves its destination without one. *)
Lemma ended_spec i dest events w A Q r :
  inv w A Q r → futures w !! i = Some (dest, events) →
  composing dest (mkWorld (data w) (dispatched w) (statuses w) (delete i (futures w)) (wakes w)) A Q r ∧ carries A dest events ∧ dest_valid dest.
Proof.
  intros [Hs Hnd Hset] Hi. pose proof (delete_Permutation _ _ _ Hi) as Hperm.
  assert (Hperm' : (futures w).*1 ≡ₚ dest :: (delete i (futures w)).*1) by (exact (fmap_Permutation fst _ _ Hperm)).
  rewrite Hperm' in Hnd. apply NoDup_cons in Hnd as [Hout Hnd].
  assert (Hin : dest ∈ (futures w).*1) by (rewrite Hperm'; left).
  assert (Hbusy : busy dest (statuses w !! dest) = true) by (by apply (Hset dest)).
  split_and!.
  - split; cbn [futures statuses]; [by destruct Hs|done| |done|done].
    intros x Hne. destruct (Hset x) as (Hb & Hf & Hn). unfold settled. cbn [futures statuses]. split_and!; [|intros evs Hin'|done].
    + rewrite <-Hb, Hperm'. split; [by right|]. by intros [?|?]%elem_of_cons.
    + apply Hf. rewrite Hperm. by right.
  - apply (Hset dest). by eapply list_elem_of_lookup_2.
  - apply (sound_dests _ _ _ _ Hs). destruct (statuses w !! dest); [by eexists|done].
Qed.

Lemma lookup_delete_rows (Q : Rows) (dest : Destination) (ts : list (bytes * SendingEvent)) x t :
  foldl (λ Q te, delete (dest, te.1) Q) Q ts !! (x, t) = if decide (x = dest ∧ t ∈ ts.*1) then None else Q !! (x, t).
Proof.
  revert Q. induction ts as [|[t0 e0] ts IH]; intros Q; cbn [foldl]; [by rewrite decide_False by (intros [_ Hin]; by apply not_elem_of_nil in Hin)|]. rewrite IH. cbn [fmap list_fmap fst].
  destruct (decide (x = dest ∧ t ∈ ts.*1)) as [[-> Hin]|Hout]; [by rewrite decide_True by (split; [done|by right])|].
  destruct (decide ((dest, t0) = (x, t))) as [[= <- <-]|Hne].
  - rewrite lookup_delete_eq, decide_True by (split; [done|left]). done.
  - rewrite lookup_delete_ne by done. rewrite decide_False; [done|]. intros [-> [->|?]%elem_of_cons]; [done|]. by apply Hout.
Qed.

(** Rows taken from the queue for a destination with none in flight. *)
Lemma take_queued_spec dest ts w A Q r :
  composing dest w A Q r → dest_valid dest → (∀ t, A !! (dest, t) = None) →
  Forall (λ te, event_ok dest te.1 te.2 ∧ tail_in (dispatched w) te.1 te.2 ∧ Q !! (dest, te.1) = Some te.2) ts →
  ∃ d A' Q', mark_active (item_of dest <$> ts) (data w) = Ok d ∧ composing dest (set_data d w) A' Q' r ∧ kept A Q A' Q'
    ∧ (∀ t e, A' !! (dest, t) = Some e → e ∈ ts.*2) ∧ grows (dispatched w) Q (dispatched w) Q'.
Proof.
  intros Hw Hd Hempty Hts. pose proof (comp_sound _ _ _ _ _ Hw) as Hs. destruct Hs as [Hrows HcA HcQ Hnum Hbound Hedu Hdests Hfailed Hwakes] eqn:E. clear E.
  rewrite Forall_forall in Hts.
  destruct (mark_active_law (data w) A Q dest ts Hrows Hd) as (d & Hrun & Hrows' & Hcount); [apply Forall_forall; intros te Hte; by apply Hts|].
  set (rows := (λ te : bytes * SendingEvent, (dest, te.1, te.2)) <$> ts).
  assert (Hadd : foldl (λ A te, <[(dest, te.1) := te.2]> A) A ts = add_rows rows A) by (unfold add_rows, rows; by rewrite foldl_fmap).
  rewrite Hadd in Hrows'. set (Q' := foldl (λ Q te, delete (dest, te.1) Q) Q ts) in *.
  assert (Hrow : ∀ k e, (k, e) ∈ rows → ∃ t, k = (dest, t) ∧ (t, e) ∈ ts ∧ Q !! (dest, t) = Some e).
  { intros k e ([t e'] & [= -> ->] & Hin)%list_elem_of_fmap. exists t. split_and!; [done..|]. by apply Hts in Hin as (_ & _ & ?). }
  assert (Hfits : fits A rows).
  { split.
    - intros k e e' (t & -> & _ & _)%Hrow HA. by rewrite Hempty in HA.
    - intros k e e' (t & -> & _ & HQ)%Hrow (t' & [= <-] & _ & HQ')%Hrow. congruence. }
  assert (HA' : ∀ x t e, add_rows rows A !! (x, t) = Some e ↔ (x = dest ∧ (t, e) ∈ ts) ∨ A !! (x, t) = Some e).
  { intros x t e. rewrite lookup_add_rows by done. apply or_iff_compat_r. split; [intros (t' & [= -> ->] & Hin & _)%Hrow; done|].
    intros [-> Hin]. apply list_elem_of_fmap. by exists (t, e). }
  assert (HQ' : ∀ x t e, Q' !! (x, t) = Some e → Q !! (x, t) = Some e).
  { intros x t e. unfold Q'. rewrite lookup_delete_rows. by case_decide. }
  exists d, (add_rows rows A), Q'. split_and!; [done| | | |by apply grows_sub].
  - eapply composing_rows; [exact Hw| |done|done|].
    + split; cbn [data dispatched statuses wakes set_data]; try done.
      * intros x t e [[-> Hin]|HA]%HA'; [by apply Hts in Hin as (_ & ? & _)|by apply HcA in HA].
      * intros x t e HQ. by eapply HcQ, HQ'.
      * intros server. destruct (Hedu server) as (n & Hn & Hle). exists n. by rewrite Hcount.
    + intros x t Hx. apply option_eq. intros e. rewrite HA'. split; [by intros [[? _]|?]|by right].
  - intros x t e [HA|HQ]; [left; apply HA'; by right|]. unfold Q'. rewrite lookup_delete_rows. case_decide as Hc; [|by right].
    destruct Hc as [-> Hin]. left. apply HA'. left. split; [done|]. apply list_elem_of_fmap in Hin as ([t' e'] & -> & Hin).
    destruct (Hts _ Hin) as (_ & _ & HQt). cbn in *. by assert (e' = e) as -> by congruence.
  - intros t e [[_ Hin]|HA]%HA'; [by apply (list_elem_of_fmap_2 snd) in Hin|]. by rewrite Hempty in HA.
Qed.

(** As [moves], but for the rows named lost. *)
Record advances (lost : Destination → SendingEvent → Prop) (w : World) (A Q : Rows) (env : Env) (w' : World) (A' Q' : Rows) : Prop := {
  advances_inv : inv w' A' Q' (since_upper (window env));
  advances_kept : kept_but lost A Q A' Q';
  advances_grows : grows (dispatched w) Q (dispatched w') Q';
  advances_drawn : dispatched w' ≤ dispatched w + zlen (reserves (window env))
}.

Lemma moves_advances lost w A Q env w' A' Q' : moves w A Q env w' A' Q' → advances lost w A Q env w' A' Q'.
Proof. intros [Hi Hk Hg Hd _]. split; [done| |done..]. intros x t e Hl. left. by apply Hk. Qed.

Lemma sound_sub d w A Q A' Q' r :
  sound w A Q r → rows_of d A' Q' → (∀ s, educount s d = educount s (data w)) → (∀ x t e, A' !! (x, t) = Some e → A !! (x, t) = Some e) →
  (∀ x t e, Q' !! (x, t) = Some e → Q !! (x, t) = Some e) → sound (set_data d w) A' Q' r.
Proof.
  intros [Hrows HcA HcQ Hnum Hbound Hedu Hdests Hfailed Hwakes] Hrows' Hcount HA HQ. split; cbn [data dispatched statuses wakes set_data]; try done.
  - intros x t e Hx%HA. by apply HcA in Hx.
  - intros x t e Hx%HQ. by apply HcQ in Hx.
  - intros server. destruct (Hedu server) as (n & Hn & Hle). exists n. by rewrite Hcount.
Qed.

Lemma without_sub (dest : Destination) (R : Rows) x t e : without dest R !! (x, t) = Some e → R !! (x, t) = Some e.
Proof. rewrite lookup_without. by case_decide. Qed.

Lemma without_sound dest d w A Q r :
  sound w A Q r → rows_of d (without dest A) Q → (∀ s, educount s d = educount s (data w)) → sound (set_data d w) (without dest A) Q r.
Proof. intros Hs Hrows Hcount. eapply sound_sub; [done..|apply without_sub|done]. Qed.

(** The rows waiting for [dest], in the order of their keys: the first of them
    are in the transaction now in flight. *)
Definition waiting_sent (dest : Destination) (Q : Rows) (w' : World) : Prop :=
  ∃ l, lists dest Q l ∧ (l ≠ [] → ∃ events, (dest, events) ∈ futures w' ∧ ∀ e, e ∈ (take DEQUEUE_LIMIT l).*2 → e ∈ events).

Lemma send_queued dest events w w' : send_events dest events w = Ok w' → (dest, events) ∈ futures w'.
Proof.
  unfold send_events. destruct (debug_assert _ _); [|done..]. rewrite bind_Ok. intros [= <-]. cbn [futures]. apply elem_of_app. right. left.
Qed.

Lemma handle_response_ok_spec env dest events w A Q r :
  composing dest w A Q r → dest_valid dest → env_ok env r (dispatched w) → carries A dest events →
  ∃ w' A' Q', handle_response_ok env dest w = Some (Ok w') ∧ advances (λ x e, x = dest ∧ e ∈ events) w A Q env w' A' Q'
    ∧ waiting_sent dest Q w'.
Proof.
  intros Hw Hd Henv Hc. pose proof (comp_sound _ _ _ _ _ Hw) as Hs. unfold handle_response_ok.
  destruct (delete_all_active_law (data w) A Q dest (sound_rows _ _ _ _ Hs) Hd) as (d1 & -> & Hrows1 & Hcount1). cbn [bind_scan].
  set (A1 := without dest A) in *. assert (Hempty : ∀ t, A1 !! (dest, t) = None) by (intros t; unfold A1; by rewrite lookup_without, decide_True).
  assert (Hw1 : composing dest (set_data d1 w) A1 Q r).
  { eapply composing_rows; [exact Hw|by apply without_sound|done..|]. intros x t Hx. unfold A1. by rewrite lookup_without, decide_False. }
  destruct (dequeue_spec d1 dest w A1 Q r) as (l & Hl & Hlist & Hok & Hlen); [by apply (comp_sound _ _ _ _ _ Hw1)|done|]. rewrite Hl. cbn [bind_scan].
  set (ts := take DEQUEUE_LIMIT l) in *.
  destruct (take_queued_spec dest ts (set_data d1 w) A1 Q r Hw1 Hd Hempty Hok) as (d2 & A2 & Q2 & Hmark & Hw2 & Hk2 & Hc2 & Hg2). cbn [data set_data] in Hmark.
  assert (Hrun2 : (if bool_decide (item_of dest <$> ts = []) then Ok d1 else mark_active (item_of dest <$> ts) d1) = Ok (if bool_decide (item_of dest <$> ts = []) then d1 else d2)).
  { by case_bool_decide. }
  rewrite Hrun2. cbn [bind_scan]. clear Hrun2.
  assert (Hstart : ∃ d3 A3 Q3, (if bool_decide (item_of dest <$> ts = []) then d1 else d2) = d3 ∧ composing dest (set_data d3 w) A3 Q3 r ∧ kept A1 Q A3 Q3
    ∧ (∀ t e, A3 !! (dest, t) = Some e → e ∈ ts.*2) ∧ grows (dispatched w) Q (dispatched w) Q3).
  { case_bool_decide; [exists d1, A1, Q|by exists d2, A2, Q2]. split_and!; [done|done|apply kept_refl| |apply grows_refl]. intros t e HA. by rewrite Hempty in HA. }
  destruct Hstart as (d3 & A3 & Q3 & -> & Hw3 & Hk3 & Hc3 & Hg3).
  rewrite item_of_snd.
  destruct (top_up_spec env dest ts.*2 (set_data d3 w) A3 Q3 r Hw3 Hd Henv) as (edus & w4 & A4 & Q4 & -> & [Hw4 Hk4 Hcar4 Hg4 Hd4 Hwk4 Hids4]).
  { pose proof (budget_le ts.*2) as Hb. unfold zlen, EDU_LIMIT in *. rewrite length_fmap in Hb. lia. }
  rewrite bind_Ok. assert (Hcarries : carries A4 dest (ts.*2 ++ edus)).
  { split; [apply ids_ok_app; [|done]; apply (rows_ids_ok dest); eapply Forall_impl; [exact Hok|by intros te []]|].
    intros t e HA. apply elem_of_app. apply Hcar4 in HA as [HA|?]; [left; by eapply Hc3|by right]. }
  assert (Hkb : kept_but (λ x e, x = dest ∧ e ∈ events) A Q A4 Q4).
  { apply (kept_but_kept _ _ _ A1 Q); [|exact (kept_trans _ _ _ _ _ _ Hk3 Hk4)]. intros x t e [HA|HQ]; [|left; by right]. destruct (decide (x = dest)) as [->|Hne].
    - right. split; [done|]. by eapply (proj2 Hc).
    - left. left. unfold A1. by rewrite lookup_without, decide_False. }
  assert (Hg : grows (dispatched w) Q (dispatched w4) Q4) by (by eapply grows_trans).
  destruct (ts.*2 ++ edus) as [|e0 rest] eqn:Hev.
  - eexists _, A4, Q4. split; [reflexivity|]. split; [split; [by apply drop_status_spec|done..]|].
    exists l. split; [done|]. intros Hne. destruct l; [done|]. by cbn in Hev.
  - rewrite (alter_busy dest w4 A4 Q4 (since_upper (window env))) by done.
    destruct (send_spec dest (e0 :: rest) (set_statuses (<[dest := Running]> (statuses w4)) w4) A4 Q4 (since_upper (window env))) as (w' & Hsend & Hw' & Hdis & _);
      [by apply composing_status|done|done|].
    rewrite Hsend. exists w', A4, Q4. split; [done|]. split; [split; [done|done|by rewrite Hdis|by rewrite Hdis]|].
    exists l. split; [done|]. intros _. exists (e0 :: rest). split; [by eapply send_queued|]. rewrite <-Hev. intros e Hin. apply elem_of_app. by left.
Qed.

(** A transaction that failed leaves a status that is not running. *)
Lemma stop_spec dest s w A Q r :
  composing dest w A Q r → busy dest (Some s) = false → (∀ tries time, s = Failed tries time → is_push dest = true) →
  inv (set_statuses (<[dest := s]> (statuses w)) w) A Q r.
Proof.
  intros [Hs Hnd Ho Hidle Hbusy] Hb Hf. split; [|done|].
  - apply sound_status; [done| |done]. apply (sound_dests _ _ _ _ Hs). destruct (statuses w !! dest); [by eexists|done].
  - intros x. unfold settled. cbn [futures statuses set_statuses]. destruct (decide (x = dest)) as [->|Hne].
    + rewrite lookup_insert_eq, Hb. split_and!; [by split| |done]. intros evs Hin. exfalso. apply Hidle, list_elem_of_fmap. by exists (dest, evs).
    + rewrite lookup_insert_ne by done. by apply Ho.
Qed.

Lemma insert_by_perm {A} cmp (x : A) l : insert_by cmp x l ≡ₚ x :: l.
Proof. induction l as [|y l IH]; [done|]. cbn. destruct (cmp x y); [done..|]. rewrite IH. constructor. Qed.

Lemma inv_wakes h w A Q r : inv w A Q r → (∀ due x, (due, x) ∈ h → dest_valid x) → inv (set_wakes h w) A Q r.
Proof. intros [Hs Hnd Hset] Hh. split; [|done|done]. by destruct Hs. Qed.

Lemma arm_spec env dest delay w A Q r : inv w A Q r → dest_valid dest → inv (arm_wake_in env dest delay w) A Q r.
Proof.
  intros Hw Hd. apply inv_wakes; [done|]. intros due x Hin. unfold heap_push in Hin. rewrite insert_by_perm in Hin.
  apply elem_of_cons in Hin as [[= _ ->]|Hin]; [done|]. by apply (sound_wakes _ _ _ _ (inv_sound _ _ _ _ Hw)) in Hin.
Qed.

Lemma moves_arm env dest delay w A Q w' A' Q' :
  moves w A Q env w' A' Q' → dest_valid dest → moves w A Q env (arm_wake_in env dest delay w') A' Q'.
Proof.
  intros [Hi Hk Hg Hd (l & Hl & Ht)] Hdest. split; [by apply arm_spec|done..|].
  exists ((wake_deadline env delay, dest) :: l). split; [|intros x [->|?]%elem_of_cons; [by exists delay|by apply Ht]].
  cbn. unfold heap_push. by rewrite insert_by_perm, Hl.
Qed.

Lemma handle_rejected_spec env dest w A Q r :
  composing dest w A Q r → dest_valid dest → env_ok env r (dispatched w) →
  ∃ w' A' Q', handle_rejected env dest w = Some (Ok w') ∧ moves w A Q env w' A' Q'.
Proof.
  intros Hw Hd Henv. unfold handle_rejected, handle_response_err.
  pose proof (comp_busy _ _ _ _ _ Hw) as Hbusy. destruct (statuses w !! dest) as [s|] eqn:Hs; [|done].
  destruct (match s with Running => (1, NoRetry) | RunningForceRetry => (1, Force) | Failed n _ | Retrying n => (Z.min (n + 1) u32_max, NoRetry) end) as [tries action].
  set (s' := if is_push dest then Failed tries (failed_at env) else Retrying tries).
  assert (Hi : inv (set_statuses (<[dest := s']> (statuses w)) w) A Q r).
  { apply stop_spec; [done|..]; unfold s'; destruct (is_push dest) eqn:Hp; try done. }
  assert (Hstay : moves w A Q env (set_statuses (<[dest := s']> (statuses w)) w) A Q) by (destruct (moves_stay _ A Q r env Hi Henv); by split).
  destruct dest as [id|user pushkey|server].
  - destruct action; [by eexists _, A, Q|].
    destruct (select_and_schedule_spec env (Appservice id) [] _ A Q r Hi Hd Henv) as (w' & A' & Q' & Hrun & [Hi' Hk Hg Hdr Htm]); [constructor|rewrite zlen_nil; unfold EDU_LIMIT; lia|].
    exists w', A', Q'. split; [exact Hrun|]. by split.
  - eexists _, A, Q. split; [reflexivity|]. destruct (statuses (set_statuses _ w) !! _) as [[| | |]|]; try done. by apply moves_arm.
  - eexists _, A, Q. split; [reflexivity|]. destruct (attempt env server); try done. by apply moves_arm.
Qed.

(** The events a transaction's end settles. *)
Definition settles (outcome : Outcome) (dest : Destination) (events : list SendingEvent) (x : Destination) (e : SendingEvent) : Prop :=
  x = dest ∧ e ∈ events ∧
  match outcome with
  | Delivered => True
  | Rejected => False
  | Partly ids => ∃ id, e = Pdu id ∧ id ∉ ids
  end.

Definition outcome_ok (dest : Destination) (outcome : Outcome) : Prop :=
  match outcome with Partly _ => is_push dest = true | _ => True end.

Lemma delete_ids_sound dest ids w A Q r :
  sound w A Q r → dest_valid dest →
  ∃ A', sound (set_data (foldl (λ d id, delete_active (event_key dest id) d) (data w) ids) w) A' Q r
    ∧ ∀ x t, A' !! (x, t) = if decide (x = dest ∧ t ∈ as_bytes <$> ids) then None else A !! (x, t).
Proof.
  intros Hs Hd. revert w A Hs. induction ids as [|id ids IH]; intros w A Hs; cbn [foldl].
  - exists A. split; [by destruct w|]. intros x t. rewrite decide_False; [done|]. intros [_ Hin]. by apply not_elem_of_nil in Hin.
  - destruct Hs as [Hrows HcA HcQ Hnum Hbound Hedu Hdests Hfailed Hwakes].
    destruct (delete_active_law (data w) A Q dest (as_bytes id) Hrows Hd) as [Hrows' Hcount].
    destruct (IH (set_data (delete_active (event_key dest id) (data w)) w) (delete (dest, as_bytes id) A)) as (A' & Hs' & HA').
    + split; cbn [data dispatched statuses wakes set_data]; try done.
      * intros x t e [_ HA]%lookup_delete_Some. by apply HcA in HA.
      * intros server. destruct (Hedu server) as (n & Hn & Hle). exists n. unfold event_key. by rewrite Hcount.
    + exists A'. split; [exact Hs'|]. intros x t. rewrite HA'. cbn [fmap list_fmap].
      destruct (decide (x = dest ∧ t ∈ as_bytes <$> ids)) as [[-> Hin]|Hout]; [by rewrite decide_True by (split; [done|by right])|].
      destruct (decide ((dest, as_bytes id) = (x, t))) as [[= <- <-]|Hne].
      * rewrite lookup_delete_eq, decide_True by (split; [done|left]). done.
      * rewrite lookup_delete_ne by done. rewrite decide_False; [done|]. intros [-> [->|?]%elem_of_cons]; [done|]. by apply Hout.
Qed.

Lemma ids_settled dest events ids w A Q A' r :
  sound w A Q r → carries A dest events →
  (∀ x t, A' !! (x, t) = if decide (x = dest ∧ t ∈ as_bytes <$> filter (λ id, id ∉ ids) (omap pdu_of events)) then None else A !! (x, t)) →
  kept_but (settles (Partly ids) dest events) A Q A' Q.
Proof.
  intros Hs [Hids Hc] HA' x t e [HA|HQ]; [|left; by right]. specialize (HA' x t). case_decide as Hcase; [right|left; left; by rewrite HA'].
  destruct Hcase as [-> Hin]. split; [done|]. split; [by eapply Hc|].
  apply list_elem_of_fmap in Hin as (id & -> & [Hout Hin]%list_elem_of_filter). exists id. split; [|done].
  apply list_elem_of_omap in Hin as (e' & Hin & He'). destruct e'; try done. injection He' as ->.
  eapply tail_pdu; [by eapply (sound_active _ _ _ _ Hs)|by apply Hids|done].
Qed.

Lemma send_failures_spec dest events ids w A Q r :
  composing dest w A Q r → dest_valid dest → carries A dest events →
  ∃ A', composing dest (set_data (send_failures dest events ids (data w)) w) A' Q r
    ∧ kept_but (settles (Partly ids) dest events) A Q A' Q.
Proof.
  intros Hw Hd Hc. destruct (delete_ids_sound dest (filter (λ id, id ∉ ids) (omap pdu_of events)) w A Q r (comp_sound _ _ _ _ _ Hw) Hd) as (A' & Hs & HA').
  exists A'. split; [|eapply ids_settled; [apply (comp_sound _ _ _ _ _ Hw)|done..]].
  eapply composing_rows; [exact Hw|exact Hs|done..|]. intros x t Hx. rewrite HA', decide_False; [done|]. by intros [? _].
Qed.

Lemma handle_response_spec env i outcome dest events w A Q r :
  inv w A Q r → futures w !! i = Some (dest, events) → outcome_ok dest outcome → env_ok env r (dispatched w) →
  ∃ w' A' Q', handle_response env i outcome w = Some (Ok w') ∧ advances (settles outcome dest events) w A Q env w' A' Q'.
Proof.
  intros Hw Hi Hout Henv. unfold handle_response. rewrite Hi. destruct (ended_spec i dest events w A Q r Hw Hi) as (Hc & Hcar & Hd).
  destruct outcome as [| |ids].
  - destruct (handle_response_ok_spec env dest events _ A Q r Hc Hd Henv Hcar) as (w' & A' & Q' & Hrun & [Hi' Hk Hg Hdr] & _).
    exists w', A', Q'. split; [done|]. split; [done| |done..]. intros x t e Hl. destruct (Hk x t e Hl) as [?|[-> Hin]]; [by left|right]. by split.
  - destruct (handle_rejected_spec env dest _ A Q r Hc Hd Henv) as (w' & A' & Q' & Hrun & Hm).
    exists w', A', Q'. split; [done|]. apply moves_advances. destruct Hm. by split.
  - destruct (send_failures_spec dest events ids _ A Q r Hc Hd Hcar) as (A1 & Hc1 & Hk1).
    destruct (handle_rejected_spec env dest _ A1 Q r Hc1 Hd Henv) as (w' & A' & Q' & Hrun & [Hi' Hk Hg Hdr _]).
    exists w', A', Q'. split; [done|]. split; [done|by eapply kept_but_kept|done..].
Qed.

Lemma handle_wake_spec env dest w A Q r :
  inv w A Q r → dest_valid dest → env_ok env r (dispatched w) →
  ∃ w' A' Q', handle_wake env dest w = Some (Ok w') ∧ moves w A Q env w' A' Q'.
Proof.
  intros Hw Hd Henv. pose proof (moves_stay w A Q r env Hw Henv) as Hstay.
  assert (Hretry : ∃ w' A' Q', handle_force_retry env dest w = Some (Ok w') ∧ moves w A Q env w' A' Q').
  { apply (select_and_schedule_spec env dest [] w A Q r); [done..|constructor|rewrite zlen_nil; unfold EDU_LIMIT; lia]. }
  assert (Harm : ∀ delay, ∃ w' A' Q', Some (Ok (arm_wake_in env dest delay w)) = Some (Ok (E := Error) w') ∧ moves w A Q env w' A' Q').
  { intros delay. eexists _, A, Q. split; [reflexivity|]. by apply moves_arm. }
  assert (Hnone : ∃ w' A' Q', Some (Ok w) = Some (Ok (E := Error) w') ∧ moves w A Q env w' A' Q') by (by exists w, A, Q).
  assert (Hrest : ∃ w' A' Q', match dest with
      | Federation server => match wake_attempt env server with
          | No earliest_retry => Some (Ok (arm_wake env dest earliest_retry w)) | _ => handle_request env (mkMsg dest Flush []) w end
      | Push _ _ => handle_force_retry env dest w
      | Appservice _ => Some (Ok w)
      end = Some (Ok w') ∧ moves w A Q env w' A' Q').
  { destruct dest as [id|user pushkey|server]; [done|done|]. assert (Hflush : msg_ok (dispatched w) Q (mkMsg (Federation server) Flush [])).
    { split; [done|]. left. split; [done|by left]. }
    destruct (wake_attempt env server); [by eapply handle_request_spec|apply Harm|by eapply handle_request_spec]. }
  unfold handle_wake. destruct (statuses w !! dest) as [[| |tries time|tries]|]; [done|done| | |].
  all: destruct (is_push dest); cbn [andb]; try done.
  all: destruct (push_backoff_remaining env _); [|done]; destruct (existsb _ _); [done|apply Harm].
Qed.

(** One environment after another. *)
Fixpoint envs_ok (envs : list Env) (r n : Z) : Prop :=
  match envs with
  | [] => True
  | env :: envs =>
      r ≤ since_upper (window env) ≤ n ∧ max_edu_count (window env) ≤ since_upper (window env)
      ∧ Forall (λ x, buf_of x ≠ []) (reserves (window env)) ∧ envs_ok envs (since_upper (window env)) n
  end.

Definition to_draw (envs : list Env) : Z := foldr (λ env n, zlen (reserves (window env)) + n) 0 envs.

Lemma to_draw_nonneg envs : 0 ≤ to_draw envs.
Proof. induction envs as [|env envs IH]; [done|]. cbn [to_draw foldr]. fold (to_draw envs). pose proof (zlen_nonneg (reserves (window env))). lia. Qed.

Lemma envs_ok_mono envs r n n' : n ≤ n' → envs_ok envs r n → envs_ok envs r n'.
Proof. intros Hn. revert r. induction envs as [|env envs IH]; intros r; [done|]. intros (? & ? & ? & ?). split_and!; [lia|lia|done|done|by apply IH]. Qed.

Definition due_wakes (now : Z) (w : World) : nat := length (filter (λ x, x.1 ≤ now) (wakes w)).

(** What the last of them saw, or [r]. *)
Definition last_upper (r : Z) (envs : list Env) : Z := foldl (λ _ env, since_upper (window env)) r envs.

Lemma last_upper_bound envs r n : envs_ok envs r n → r ≤ last_upper r envs ∧ last_upper r envs ≤ Z.max r n.
Proof.
  revert r. induction envs as [|env envs IH]; intros r; cbn [envs_ok]; [unfold last_upper; cbn; lia|]. intros (Hr & _ & _ & Henvs).
  apply IH in Henvs. change (last_upper r (env :: envs)) with (last_upper (since_upper (window env)) envs). lia.
Qed.

Lemma drain_wakes_spec now envs w A Q r :
  inv w A Q r → envs_ok envs r (dispatched w) → dispatched w + to_draw envs ≤ u64_max →
  (∀ env delay, env ∈ envs → now < wake_deadline env delay) → (due_wakes now w ≤ length envs)%nat →
  ∃ w' A' Q' r', drain_due_wakes now envs w = Some (Some (Ok w')) ∧ inv w' A' Q' r' ∧ r ≤ r' ≤ last_upper r envs
    ∧ kept A Q A' Q' ∧ grows (dispatched w) Q (dispatched w') Q'.
Proof.
  revert w A Q r. induction envs as [|env envs IH]; intros w A Q r Hw Henv Hdraw Hlate Hdue;
    pose proof (last_upper_bound _ _ _ Henv) as [Hlast _].
  - exists w, A, Q, r. split_and!; [|done|lia|lia|apply kept_refl|apply grows_refl]. cbn [drain_due_wakes]. unfold due_wakes in Hdue.
    destruct (wakes w) as [|[due dest] rest]; [done|]. destruct (Z.leb_spec due now); [|done].
    rewrite filter_cons, decide_True in Hdue by done. cbn in Hdue. lia.
  - cbn [drain_due_wakes]. destruct (wakes w) as [|[due dest] rest] eqn:Hwk; [exists w, A, Q, r; split_and!; [done|done|lia|lia|apply kept_refl|apply grows_refl]|].
    destruct (Z.leb_spec due now) as [Hle|]; [|exists w, A, Q, r; split_and!; [done|done|lia|lia|apply kept_refl|apply grows_refl]].
    destruct Henv as (Hup & Hmax & Hne & Henvs). cbn [to_draw foldr] in Hdraw. fold (to_draw envs) in Hdraw. pose proof (to_draw_nonneg envs) as Hnn.
    assert (Hvalid : ∀ due x, (due, x) ∈ wakes w → dest_valid x) by (apply (sound_wakes _ _ _ _ (inv_sound _ _ _ _ Hw))).
    assert (Hw1 : inv (set_wakes rest w) A Q r) by (apply inv_wakes; [done|]; intros due' x Hin; apply (Hvalid due'); rewrite Hwk; by right).
    destruct (handle_wake_spec env dest (set_wakes rest w) A Q r Hw1) as (w2 & A2 & Q2 & Hrun & [Hi Hk Hg Hd (l & Hl & Ht)]);
      [apply (Hvalid due); rewrite Hwk; left|unfold env_ok; cbn [dispatched set_wakes]; split_and!; [lia|lia|lia|done|lia]|]. rewrite Hrun. pose proof (proj1 Hg) as Hge. cbn [dispatched set_wakes wakes] in *.
    destruct (IH w2 A2 Q2 (since_upper (window env))) as (w' & A' & Q' & r' & Hrun' & Hi' & Hr' & Hk' & Hg'); [done| |lia| | |].
    + by eapply envs_ok_mono.
    + intros env' delay Hin. apply Hlate. by right.
    + unfold due_wakes in *. rewrite Hwk, filter_cons, decide_True in Hdue by done. rewrite Hl, filter_app, length_app.
      rewrite (filter_none (λ x : Z * Destination, x.1 ≤ now) l); [cbn [length] in *; lia|].
      intros x Hx Hle'. destruct (Ht x Hx) as [delay He]. specialize (Hlate env delay ltac:(left)). lia.
    + change (last_upper r (env :: envs)) with (last_upper (since_upper (window env)) envs) in *. exists w', A', Q', r'. split_and!; [done|done|lia|lia|by eapply kept_trans|by eapply grows_trans].
Qed.

(** ** Start *)

Definition txns_ok (txns : gmap Destination (list SendingEvent)) : Prop :=
  ∀ dest events, txns !! dest = Some events → dest_valid dest ∧ ids_ok events.

Definition active_item (row : Destination * bytes * SendingEvent) : bytes * SendingEvent * Destination :=
  (get_prefix row.1.1 ++ row.1.2, row.2, row.1.1).

Lemma delete_sound dest t w A Q r :
  sound w A Q r → dest_valid dest → sound (set_data (delete_active (get_prefix dest ++ t) (data w)) w) (delete (dest, t) A) Q r.
Proof.
  intros Hs Hd. destruct (delete_active_law (data w) A Q dest t (sound_rows _ _ _ _ Hs) Hd) as [Hrows Hcount].
  eapply sound_sub; [done..| |done]. by intros x t' e [_ HA]%lookup_delete_Some.
Qed.

Lemma txns_ok_insert dest events txns : txns_ok txns → dest_valid dest → ids_ok events → txns_ok (<[dest := events]> txns).
Proof. intros Ht Hd He x evs [[<- <-]|[_ Hx]]%lookup_insert_Some; [done|by apply Ht]. Qed.

Lemma entry_insert dest (events : list SendingEvent) (txns : gmap Destination (list SendingEvent)) x e :
  (∀ e, e ∈ default [] (txns !! dest) → e ∈ events) → e ∈ default [] (txns !! x) → e ∈ default [] (<[dest := events]> txns !! x).
Proof. intros Hsub He. destruct (decide (dest = x)) as [<-|Hne]; [rewrite lookup_insert_eq; by apply Hsub|by rewrite lookup_insert_ne]. Qed.

Lemma gather_spec keep rows txns w A Q r :
  sound w A Q r → txns_ok txns → NoDup rows.*1 → (∀ k e, (k, e) ∈ rows → A !! k = Some e) →
  (∀ dest t e, A !! (dest, t) = Some e → (dest, t, e) ∈ rows ∨ e ∈ default [] (txns !! dest)) →
  ∃ txns' d' A', gather (λ _, true) keep (active_item <$> rows) txns (data w) = (txns', d')
    ∧ sound (set_data d' w) A' Q r ∧ txns_ok txns' ∧ (∀ dest t e, A' !! (dest, t) = Some e → e ∈ default [] (txns' !! dest))
    ∧ kept_but (λ _ _, 0 ≤ startup_netburst_keep config) A Q A' Q.
Proof.
  revert txns w A. induction rows as [|[[dest t] e] rows IH]; intros txns w A Hs Htx Hnd Hrows Hcov.
  { exists txns, (data w), A. split_and!; [done|by destruct w|done| |intros x t e Hl; by left].
    intros dest t e [Hin|?]%Hcov; [by apply not_elem_of_nil in Hin|done]. }
  cbn [fmap list_fmap gather active_item fst snd negb] in *. fold (active_item <$> rows). apply NoDup_cons in Hnd as [Hnew Hnd].
  pose proof (Hrows (dest, t) e ltac:(left)) as HA. destruct (rows_valid (data w) A Q dest t e (sound_rows _ _ _ _ Hs)) as [Hd He]; [by left|].
  assert (Hentry : ids_ok (default [] (txns !! dest))).
  { destruct (txns !! dest) as [evs|] eqn:Htd; cbn; [by apply (Htx dest)|]. by intros id ?%not_elem_of_nil. }
  destruct ((0 <=? startup_netburst_keep config) && (keep <=? zlen (default [] (txns !! dest)))) eqn:Hdrop.
  - apply andb_true_iff in Hdrop as [Hkeep%Z.leb_le _].
    destruct (IH (<[dest := default [] (txns !! dest)]> txns) (set_data (delete_active (get_prefix dest ++ t) (data w)) w) (delete (dest, t) A))
      as (txns' & d' & A' & Hrun & Hs' & Htx' & Hcov' & Hk); [by apply delete_sound|by apply txns_ok_insert|done| | |].
    + intros k e' Hin. apply lookup_delete_Some. split; [|apply Hrows; by right]. intros <-. apply Hnew, list_elem_of_fmap. by exists (dest, t, e').
    + intros x t' e' [Hne HAx]%lookup_delete_Some. apply Hcov in HAx as [[[= -> -> ->]|Hin]%elem_of_cons|Hin]; [done|by left|right]. by apply entry_insert.
    + exists txns', d', A'. split_and!; [done..|]. intros x t' e' _. by right.
  - destruct (IH (<[dest := default [] (txns !! dest) ++ [e]]> txns) w A) as (txns' & d' & A' & Hrun & Hs' & Htx' & Hcov' & Hk); [done| |done| | |by exists txns', d', A'].
    + apply txns_ok_insert; [done..|]. apply ids_ok_app; [done|]. intros id <-%list_elem_of_singleton. by destruct He.
    + intros k e' Hin. apply Hrows. by right.
    + intros x t' e' HAx. apply Hcov in HAx as [[[= -> -> ->]|Hin]%elem_of_cons|Hin]; [right|by left|right].
      * rewrite lookup_insert_eq. cbn. apply elem_of_app. right. left.
      * apply entry_insert; [|done]. intros e0 ?. apply elem_of_app. by left.
Qed.

Record bursting (l : list (Destination * list SendingEvent)) (w : World) (A Q : Rows) (r : Z) : Prop := {
  burst_sound : sound w A Q r;
  burst_single : NoDup (futures w).*1;
  burst_others : ∀ dest, dest ∉ l.*1 → settled w A dest;
  burst_idle : ∀ dest, dest ∈ l.*1 → dest ∉ (futures w).*1 ∧ statuses w !! dest = None
}.

Lemma resend_spec l w A Q r :
  startup_netburst_enabled config = true → bursting l w A Q r → NoDup l.*1 → (∀ dest events, (dest, events) ∈ l → dest_valid dest ∧ carries A dest events) →
  ∃ w', resend l w = Ok w' ∧ inv w' A Q r ∧ dispatched w' = dispatched w.
Proof.
  intros Hon. revert w. induction l as [|[dest events] l IH]; intros w [Hs Hsg Ho Hi] Hnd Hl.
  { exists w. split_and!; [done| |done]. split; [done..|]. intros dest. apply Ho. intros ?%not_elem_of_nil. done. }
  cbn [resend]. rewrite Hon. cbn [fmap list_fmap fst] in Hnd, Ho, Hi. fold (l.*1) in Hnd, Ho, Hi. apply NoDup_cons in Hnd as [Hnew Hnd].
  destruct (Hl dest events ltac:(left)) as [Hd Hc]. destruct (Hi dest ltac:(left)) as [Hidle Hst].
  destruct (decide (events = [])) as [->|Hne]; cbn [andb negb].
  - rewrite bool_decide_true by done. cbn [negb]. apply IH; [|done|intros x evs ?; apply Hl; by right].
    split; [done..| |intros x Hx; apply Hi; by right].
    intros x Hx. destruct (decide (x = dest)) as [->|Hxd]; [|apply Ho; by intros [?|?]%elem_of_cons].
    split_and!; [rewrite Hst; split; [done|by destruct dest]| |].
    + intros evs Hin. exfalso. apply Hidle, list_elem_of_fmap. by exists (dest, evs).
    + intros _ t. destruct (A !! (dest, t)) as [e|] eqn:HA; [|done]. apply Hc in HA. by apply not_elem_of_nil in HA.
  - rewrite bool_decide_false by done. cbn [negb].
    unfold send_events at 1. rewrite bool_decide_false, debug_assert_true, bind_Ok by done. cbn [negb bind_Ok].
    match goal with |- context [mkWorld ?a ?b ?c ?d ?e] => destruct (IH (mkWorld a b c d e)) as (w' & Hrun & Hw' & Hn) end; [|done|intros x evs ?; apply Hl; by right|by exists w'].
    cbn [data dispatched statuses futures wakes set_statuses]. split; cbn [statuses futures].
    + pose proof (sound_status dest Running w A Q r Hs Hd ltac:(done)) as []. by split.
    + rewrite fmap_app. apply NoDup_app. split_and!; [done| |apply NoDup_singleton]. intros x Hx ->%list_elem_of_singleton. done.
    + intros x Hx. unfold settled. cbn [futures statuses]. rewrite fmap_app, elem_of_app. cbn [fmap list_fmap fst].
      destruct (decide (x = dest)) as [->|Hxd].
      * rewrite lookup_insert_eq. split_and!; [split; [by destruct dest|intros _; right; left]| |done].
        intros evs [Hin|[= ->]%list_elem_of_singleton]%elem_of_app; [|done]. exfalso. apply Hidle, list_elem_of_fmap. by exists (dest, evs).
      * rewrite lookup_insert_ne by done. destruct (Ho x) as (Hb & Hf & Hz); [by intros [?|?]%elem_of_cons|].
        split_and!; [|intros evs [Hin|[= ? _]%list_elem_of_singleton]%elem_of_app; [by apply Hf|done]|done].
        rewrite <-Hb. split; [|by left]. by intros [?| ->%list_elem_of_singleton].
    + intros x Hx. destruct (Hi x ltac:(by right)) as [Hxi Hxs]. assert (Hxd : x ≠ dest) by (by intros ->).
      rewrite fmap_app, elem_of_app, lookup_insert_ne by done. split; [|done]. by intros [?|?%list_elem_of_singleton].
Qed.

(** A pusher's transaction carries no EDUs: the window does not matter. *)
Definition idle_window (r : Z) : Window := mkWindow r r [].
Definition with_window (W : Window) (env : Env) : Env :=
  mkEnv (attempt env) (wake_attempt env) (failed_at env) (elapsed_at env) (armed_at env) (system_now env) (jitter env) W.

Lemma push_window W env msg w : is_push (dest msg) = true → handle_request env msg w = handle_request (with_window W env) msg w.
Proof. destruct msg as [[id|user pushkey|server] e k]; by cbn. Qed.

Lemma wake_badges_spec envs dests w A Q r :
  inv w A Q r → Forall (λ dest, dest_valid dest ∧ is_push dest = true) dests →
  ∃ w' A' Q', wake_badges envs dests w = Some (Ok w') ∧ inv w' A' Q' r ∧ kept A Q A' Q' ∧ grows (dispatched w) Q (dispatched w') Q'.
Proof.
  intros Hw Hdests. revert w A Q Hw. induction Hdests as [|dest dests [Hd Hp] _ IH]; intros w A Q Hw.
  { exists w, A, Q. split_and!; [done|done|apply kept_refl|apply grows_refl]. }
  cbn [wake_badges]. rewrite (push_window (idle_window r)) by done. pose proof (inv_sound _ _ _ _ Hw) as [_ _ _ ? ? _ _ _ _].
  destruct (handle_request_spec (with_window (idle_window r) (envs dest)) (mkMsg dest BadgeRefresh []) w A Q r) as (w1 & A1 & Q1 & Hrun & Hm); [done| | |].
  - split; [done|]. left. split; [done|]. by right.
  - split_and!; cbn; [lia|lia|lia|constructor|rewrite zlen_nil; lia].
  - rewrite Hrun. cbn [bind_scan]. destruct (IH w1 A1 Q1) as (w' & A' & Q' & Hrun' & Hw' & Hk & Hg); [apply (moves_inv _ _ _ _ _ _ _ Hm)|].
    exists w', A', Q'. split_and!; [done|done|eapply kept_trans; [apply (moves_kept _ _ _ _ _ _ _ Hm)|done]|eapply grows_trans; [apply (moves_grows _ _ _ _ _ _ _ Hm)|done]].
Qed.

Lemma fresh_burst A Q r d n l :
  sound (fresh d n) A Q r → (∀ dest t e, A !! (dest, t) = Some e → dest ∈ l.*1) → bursting l (fresh d n) A Q r.
Proof.
  intros Hs Hl. split; [done|constructor| |].
  - intros dest Hn. split_and!.
    + cbn [futures fresh statuses]. rewrite lookup_empty. split; [by intros ?%not_elem_of_nil|by destruct dest].
    + by intros evs ?%not_elem_of_nil.
    + intros _ t. destruct (A !! (dest, t)) as [e|] eqn:HA; [|done]. by apply Hl in HA.
  - intros dest _. split; [by intros ?%not_elem_of_nil|apply lookup_empty].
Qed.

Lemma startup_spec `{!Usize} envs d n A Q r :
  startup_netburst_enabled config = true → sound (fresh d n) A Q r →
  ∃ w' A' Q', startup_netburst (λ _, true) envs (fresh d n) = Some (Ok w') ∧ inv w' A' Q' r
    ∧ kept_but (λ _ _, 0 ≤ startup_netburst_keep config) A Q A' Q' ∧ grows n Q (dispatched w') Q'.
Proof.
  intros Hon Hs. unfold startup_netburst. destruct (all_active_law d A Q (sound_rows _ _ _ _ Hs)) as (rows & Hall & Hnd & Hrows).
  cbn [data fresh] in *. rewrite Hall. rewrite collect_done. cbn [bind_scan].
  destruct (gather_spec keep_limit rows ∅ (fresh d n) A Q r) as (txns & d' & A1 & Hgather & Hs1 & Htx & Hcov & Hkept); [done|by intros ? ? ?%lookup_empty_Some|done| | |].
  { intros [dest t] e. apply Hrows. }
  { intros dest t e HA. left. by apply Hrows. }
  cbn [data fresh] in Hgather. unfold active_item in Hgather. rewrite Hgather. change (set_data d' (fresh d n)) with (fresh d' n) in *.
  set (l := hash_order ["startup_netburst.txns"] (map_to_list txns)).
  assert (Hperm : l ≡ₚ map_to_list txns) by apply hash_order_perm.
  assert (Hin : ∀ dest events, (dest, events) ∈ l ↔ txns !! dest = Some events). { intros dest events. rewrite Hperm. apply elem_of_map_to_list. }
  destruct (resend_spec l (fresh d' n) A1 Q r) as (w1 & Hresend & Hw1 & Hn1); [done| | | |].
  - apply fresh_burst; [done|]. intros dest t e HA. apply Hcov in HA. destruct (txns !! dest) as [events|] eqn:Ht; [|by apply not_elem_of_nil in HA].
    apply list_elem_of_fmap. exists (dest, events). split; [done|]. by apply Hin.
  - rewrite Hperm. apply NoDup_fst_map_to_list.
  - intros dest events Ht%Hin. destruct (Htx dest events Ht) as [Hd Hids]. split; [done|]. split; [done|]. intros t e HA%Hcov. by rewrite Ht in HA.
  - rewrite Hresend. cbn [bind_scan]. rewrite Hon. cbn [negb orb]. cbn [dispatched fresh] in Hn1. destruct (keep_limit =? 0).
    { exists w1, A1, Q. split_and!; [done..|]. rewrite Hn1. apply grows_refl. }
    destruct (badge_destinations_law (data w1) A1 Q (sound_rows _ _ _ _ (inv_sound _ _ _ _ Hw1))) as (dests & Hb & Hbadge). rewrite Hb, collect_done. cbn [bind_scan].
    match goal with |- context [wake_badges envs ?ds w1] => destruct (wake_badges_spec envs ds w1 A1 Q r Hw1) as (w' & A' & Q' & Hrun & Hw' & Hk & Hg) end.
    + apply Forall_forall. intros dest. rewrite hash_order_perm, elem_of_elements, elem_of_list_to_set, list_elem_of_filter. intros [_ [t HQ]%Hbadge].
      destruct (rows_valid (data w1) A1 Q dest t BadgeRefresh (sound_rows _ _ _ _ (inv_sound _ _ _ _ Hw1))) as [Hd He]; [by right|]. split; [done|]. by destruct He as (user & pushkey & ->).
    + exists w', A', Q'. split_and!; [done|done|by eapply kept_but_kept|by rewrite <-Hn1].
Qed.

(** ** Shutdown and removal *)

(** While the worker shuts down statuses are no longer kept. *)
Record closing (w : World) (A Q : Rows) (r : Z) : Prop := {
  closing_sound : sound w A Q r;
  closing_single : NoDup (futures w).*1;
  closing_carries : ∀ dest events, (dest, events) ∈ futures w → dest_valid dest ∧ carries A dest events
}.

Lemma inv_closing w A Q r : inv w A Q r → closing w A Q r.
Proof.
  intros [Hs Hnd Hset]. split; [done..|]. intros dest events Hin. destruct (Hset dest) as (Hb & Hc & _). split; [|by apply Hc].
  apply (sound_dests _ _ _ _ Hs). destruct (statuses w !! dest); [done|]. exfalso. assert (Hf : dest ∈ (futures w).*1) by (apply list_elem_of_fmap; by exists (dest, events)).
  apply Hb in Hf. by destruct dest.
Qed.

Lemma closing_rows d w A Q r A' Q' :
  closing w A Q r → sound (set_data d w) A' Q' r → (∀ x t e, A' !! (x, t) = Some e → A !! (x, t) = Some e) → closing (set_data d w) A' Q' r.
Proof.
  intros [Hs Hnd Hc] Hs' Hsub. split; [done..|]. intros dest events Hin. destruct (Hc dest events Hin) as (Hd & Hids & Hev). split; [done|]. split; [done|].
  intros t e HA%Hsub. by apply Hev in HA.
Qed.

Lemma finish_spec i outcome dest events w A Q r :
  closing w A Q r → futures w !! i = Some (dest, events) →
  ∃ w' A', finish_response i outcome w = Some (Ok w') ∧ closing w' A' Q r ∧ kept_but (settles outcome dest events) A Q A' Q ∧ dispatched w' = dispatched w.
Proof.
  intros [Hs Hnd Hc] Hi. unfold finish_response. rewrite Hi. destruct (Hc dest events) as [Hd [Hids Hev]]; [by eapply list_elem_of_lookup_2|].
  set (w1 := mkWorld (data w) (dispatched w) (statuses w) (delete i (futures w)) (wakes w)).
  assert (Hw1 : closing w1 A Q r).
  { pose proof (delete_Permutation _ _ _ Hi) as Hperm. split; [by destruct Hs| |].
    - rewrite Hperm in Hnd. by apply NoDup_cons in Hnd as [_ Hnd].
    - intros x evs Hin. apply Hc. rewrite Hperm. by right. }
  destruct outcome as [| |ids].
  - destruct (delete_all_active_law (data w) A Q dest (sound_rows _ _ _ _ Hs) Hd) as (d & Hrun & Hrows & Hcount).
    exists (set_data d w1), (without dest A). split_and!; [unfold w1; cbn [data]; by rewrite Hrun| | |done].
    + eapply closing_rows; [exact Hw1|by apply without_sound; [apply (closing_sound _ _ _ _ Hw1)|..]|apply without_sub].
    + intros x t e [HA|HQ]; [|by left; right]. destruct (decide (x = dest)) as [->|Hne]; [right|left; left; by rewrite lookup_without, decide_False].
      split_and!; [done|by eapply Hev|done].
  - exists w1, A. split_and!; [done|done| |done]. intros x t e ?. by left.
  - destruct (delete_ids_sound dest (filter (λ id, id ∉ ids) (omap pdu_of events)) w1 A Q r (closing_sound _ _ _ _ Hw1) Hd) as (A' & Hs' & HA').
    exists (set_data (send_failures dest events ids (data w)) w1), A'. split_and!; [done| |eapply ids_settled; [exact Hs|done..]|done].
    eapply closing_rows; [exact Hw1|exact Hs'|]. intros x t e. rewrite HA'. by case_decide.
Qed.

Lemma without_both_sound dest d w A Q r :
  sound w A Q r → rows_of d (without dest A) (without dest Q) → (∀ s, educount s d = educount s (data w)) → sound (set_data d w) (without dest A) (without dest Q) r.
Proof. intros Hs Hrows Hcount. eapply sound_sub; [done..|apply without_sub|apply without_sub]. Qed.

Lemma inv_rows d w A Q r A' Q' :
  inv w A Q r → sound (set_data d w) A' Q' r → (∀ x t e, A' !! (x, t) = Some e → A !! (x, t) = Some e) → inv (set_data d w) A' Q' r.
Proof.
  intros [Hs Hnd Hset] Hs' Hsub. split; [done..|]. intros dest. destruct (Hset dest) as (Hb & Hc & Hn). split_and!; [done| |].
  - intros events Hin. destruct (Hc events Hin) as [Hids Hev]. split; [done|]. intros t e HA%Hsub. by apply Hev in HA.
  - intros Hst t. destruct (A' !! (dest, t)) eqn:HA; [|done]. apply Hsub in HA. by rewrite (Hn Hst) in HA.
Qed.
(** ** What is sent next *)

(** A row still waiting for a destination with no status, that may be tried, is
    in the transaction its message starts. *)
Lemma idle_request_spec env dest t e w A Q r :
  inv w A Q r → dest_valid dest → env_ok env r (dispatched w) → Q !! (dest, t) = Some e → statuses w !! dest = None → gated env dest = false →
  ∃ w' events, handle_request env (mkMsg dest e (get_prefix dest ++ t)) w = Some (Ok w') ∧ (dest, events) ∈ futures w' ∧ e ∈ events.
Proof.
  intros Hw Hd Henv HQ Hst Hgate. pose proof (inv_sound _ _ _ _ Hw) as Hs. destruct (rows_valid (data w) A Q dest t e (sound_rows _ _ _ _ Hs)) as [_ He]; [by right|].
  assert (Hnot : is_flush e = false) by (destruct e; try done; by cbn in He).
  set (w1 := set_statuses (<[dest := Running]> (statuses w)) w).
  assert (Hc : composing dest w1 A Q r). { pose proof (select_current_spec env dest NoRetry w A Q r Hw Hd) as Hsel. unfold select_events_current in Hsel. rewrite Hgate, Hst in Hsel. apply Hsel. }
  pose proof (comp_sound _ _ _ _ _ Hc) as Hs1.
  destruct (mark_sound dest t e w1 A Q r Hs1 Hd He) as (d & Hmark & Hs2); [by apply (sound_queued _ _ _ _ Hs) in HQ|].
  assert (Hc2 : composing dest (set_data d w1) (<[(dest, t) := e]> A) (delete (dest, t) Q) r).
  { eapply composing_rows; [exact Hc|done..|]. intros x t' Hx. apply lookup_insert_ne. congruence. }
  destruct (top_up_spec env dest [e] (set_data d w1) _ _ r Hc2 Hd Henv) as (edus & w3 & A3 & Q3 & Htop & _).
  { pose proof (budget_le [e]) as Hb. rewrite zlen_cons, zlen_nil in Hb. unfold EDU_LIMIT. lia. }
  unfold handle_request. cbn [SendWorker.dest queue_id event]. assert (is_empty_key (get_prefix dest ++ t) = false) as -> by by destruct dest as [?|?|[|]]. cbn [andb negb bind_scan].
  unfold select_and_schedule, select_events, select_events_current. rewrite Hgate, Hst. cbn zeta. cbn [negb]. fold w1. cbn [take_items].
  rewrite (retained_law (data w1) A Q dest t e (sound_rows _ _ _ _ Hs1) Hd), bind_Ok, bool_decide_true by by eexists.
  rewrite Hmark, !bind_Ok. cbn [fst snd]. rewrite Hnot. cbn [fst snd]. rewrite Htop, bind_Ok. cbn [bind_scan fst snd app schedule_events].
  unfold send_events. rewrite bool_decide_false, debug_assert_true, bind_Ok by done. cbn [negb].
  eexists _, (e :: edus). split; [reflexivity|]. split; [|left]. cbn [futures]. apply elem_of_app. right. left.
Qed.

(** A flush reads nothing from the queue: a server with no status and no EDUs
    due stays without a transaction, whatever waits for it. *)
Lemma flush_leaves_queue env server w :
  gated env (Federation server) = false → statuses w !! Federation server = None → educount server (data w) = Ok (since_upper (window env)) →
  handle_request env (mkMsg (Federation server) Flush []) w = Some (Ok (set_statuses (delete (Federation server) (<[Federation server := Running]> (statuses w))) w)).
Proof.
  intros Hgate Hst Hcount. unfold handle_request. cbn [SendWorker.dest queue_id event]. rewrite (bool_decide_false (Flush = BadgeRefresh)), andb_false_r by done. cbn [negb bind_scan].
  unfold select_and_schedule, select_events, select_events_current. rewrite Hgate, Hst. cbn zeta. cbn [negb take_items].
  rewrite retained_none_law, bind_Ok, mark_none_law, !bind_Ok. cbn [fst snd is_flush]. cbn [fst snd top_up].
  unfold select_edus. cbn [data set_data set_statuses]. rewrite Hcount, bind_Ok, Z.eqb_refl. by destruct w.
Qed.

(** A worker that starts with the burst turned off takes no notice of the rows
    in flight: with no limit on what is kept they stay as they are, and no
    transaction is started. *)
Lemma quiet_start_ignores `{!Usize} envs d n A Q :
  startup_netburst_enabled config = false → startup_netburst_keep config < 0 → rows_of d A Q →
  startup_netburst (λ _, true) envs (fresh d n) = Some (Ok (fresh d n)).
Proof.
  intros Hoff Hkeep Hrows. unfold startup_netburst. destruct (all_active_law d A Q Hrows) as (rows & Hall & _ & _). cbn [data fresh]. rewrite Hall, collect_done. cbn [bind_scan].
  assert (Hgather : ∀ items txns, ∃ txns', gather (λ _, true) keep_limit items txns d = (txns', d)).
  { intros items. induction items as [|[[key e] dest] items IH]; intros txns; [by exists txns|]. cbn [gather negb].
    destruct (Z.leb_spec 0 (startup_netburst_keep config)); [lia|]. cbn [andb]. apply IH. }
  match goal with |- context [gather _ _ ?items ∅ d] => destruct (Hgather items ∅) as [txns ->] end.
  assert (Hresend : ∀ l w, resend l w = Ok w).
  { intros l w. induction l as [|[dest events] l IH]; [done|]. cbn [resend]. by rewrite Hoff. }
  rewrite Hresend. cbn [bind_scan]. by rewrite Hoff.
Qed.
End Worker.
