(* ===== verification/SendSystem.v ===== *)
(** * SendSystem: the sending service as a whole

    src/service/sending/mod.rs around the worker of SendWorker.v: what the rest
    of the program queues and hands over the channel, the loop that takes a
    message, an answer or a due timer, removal, shutdown and restart.  One
    worker serves every destination, as it does unless more are configured. *)

From stdpp Require Import sorting.
From S2P Require Import Prelude Order CoreError Bytes Store ByteOrder PduId Scan SendQueue SendStore PeerStatus SendWorker.

(** ** [loole::unbounded] *)

(** The channel to the worker: first in, first out, and never full. *)
Class Inbox (C : Type) := {
  messages : C → list Msg;
  unbounded : C;
  send_msg : Msg → C → option C;
  recv_msg : C → option (Msg * C);
  close_channel : C → C;
  is_closed : C → bool;
  is_full : C → bool;
  send_error : Msg → string;

  unbounded_law : messages unbounded = [] ∧ is_closed unbounded = false;
  send_open_law c msg : is_closed c = false → ∃ c', send_msg msg c = Some c' ∧ messages c' = messages c ++ [msg] ∧ is_closed c' = false;
  send_closed_law c msg : is_closed c = true → send_msg msg c = None;
  recv_law c msg rest : messages c = msg :: rest → ∃ c', recv_msg c = Some (msg, c') ∧ messages c' = rest ∧ is_closed c' = is_closed c;
  close_law c : is_closed (close_channel c) = true;
  never_full c : is_full c = false
}.

Definition list_inbox : Inbox (list Msg * bool).
Proof.
  refine {| messages := fst; unbounded := ([], false); send_msg msg c := if c.2 then None else Some (c.1 ++ [msg], false);
            recv_msg c := match c.1 with [] => None | msg :: rest => Some (msg, (rest, c.2)) end;
            close_channel c := (c.1, true); is_closed := snd; is_full _ := false; send_error _ := "closed"%string |}.
  - done.
  - intros [l b] msg Hb. cbn in *. rewrite Hb. by eexists.
  - intros [l b] msg Hb. cbn in *. by rewrite Hb.
  - intros [l b] msg rest Hl. cbn in *. subst l. by eexists.
  - done.
  - done.
Defined.

Section System.
Context {D C : Type} `{!SendStore D} `{!Inbox C} `{!HashOrder} `{!Usize} (debug_assertions : bool) (config : Options).
Context (instant_add : Z → Z → option Z).

Local Notation World := (SendWorker.World (D := D)).

(** The worker, its channel, and the number up to which EDUs were last looked
    for. *)
Record System := mkSystem { world : World; channel : C; retired : Z }.

(** ** Handing over *)

Definition dispatch (msg : Msg) (s : System) : Res System :=
  _ ← debug_assert debug_assertions (negb (is_full (channel s)));
  _ ← debug_assert debug_assertions (negb (is_closed (channel s)));
  match send_msg msg (channel s) with
  | Some c => Ok (mkSystem (world s) c (retired s))
  | None => err_msg (send_error msg)
  end.

Fixpoint dispatch_all (msgs : list Msg) (s : System) : Res System :=
  match msgs with
  | [] => Ok s
  | msg :: msgs => s ← dispatch msg s; dispatch_all msgs s
  end.

Definition queue_and_dispatch (dest : Destination) (event : SendingEvent) (s : System) : Res System :=
  r ← queue_rows [(event, dest)] (world s);
  match r.1 with
  | [] => Panic
  | queue_id :: _ => dispatch (mkMsg dest event queue_id) (mkSystem r.2 (channel s) (retired s))
  end.

(** Requests queued together, then handed over one after another. *)
Definition queue_and_dispatch_all (requests : list (SendingEvent * Destination)) (s : System) : Res System :=
  r ← queue_rows requests (world s);
  dispatch_all (zip_with (λ x queue_id, mkMsg x.2 x.1 queue_id) requests r.1) (mkSystem r.2 (channel s) (retired s)).

Definition send_pdu_push (pdu_id : RawId) (user pushkey : bytes) : System → Res System := queue_and_dispatch (Push user pushkey) (Pdu pdu_id).
Definition send_pdu_appservice (appservice_id : bytes) (pdu_id : RawId) : System → Res System := queue_and_dispatch (Appservice appservice_id) (Pdu pdu_id).
Definition send_pdu_servers (servers : list bytes) (pdu_id : RawId) : System → Res System :=
  queue_and_dispatch_all ((λ server, (Pdu pdu_id, Federation server)) <$> servers).
Definition send_edu_server (server serialized : bytes) : System → Res System := queue_and_dispatch (Federation server) (Edu serialized).
Definition send_edu_appservice (appservice_id serialized : bytes) : System → Res System := queue_and_dispatch (Appservice appservice_id) (Edu serialized).

Fixpoint refresh_push_badge (user : bytes) (pushkeys : list bytes) (s : System) : Res System :=
  match pushkeys with
  | [] => Ok s
  | pushkey :: pushkeys => s ← queue_and_dispatch (Push user pushkey) BadgeRefresh s; refresh_push_badge user pushkeys s
  end.

Definition flush_servers (servers : list bytes) : System → Res System := dispatch_all ((λ server, mkMsg (Federation server) Flush []) <$> servers).
Definition flush_appservice (appservice_id : bytes) : System → Res System := dispatch (mkMsg (Appservice appservice_id) Flush []).

Definition send_edu_servers (servers : list bytes) (serialized : bytes) : System → Res System :=
  queue_and_dispatch_all ((λ server, (Edu serialized, Federation server)) <$> servers).

Fixpoint queue_each (requests : list (SendingEvent * Destination)) (s : System) : Res System :=
  match requests with
  | [] => Ok s
  | (event, dest) :: requests => s ← queue_and_dispatch dest event s; queue_each requests s
  end.

(** An application service: its id, whether it opted into the transaction
    extensions, and what is known of the user concerned. *)
Record Registration := mkRegistration {
  registration_id : bytes; transaction_extensions : bool; is_user_match : bool; shares_device_list_room : bool
}.

(** [to_json] writes the event for a device. *)
Definition to_device_payloads (to_json : bytes → bytes) (deliveries : list (bytes * Z)) : list bytes :=
  (λ x, TAG_TO_DEVICE :: be_bytes 8 x.2 ++ to_json x.1) <$> deliveries.

Definition send_to_device_appservices (to_json : bytes → bytes) (registrations : list Registration) (deliveries : list (bytes * Z)) : System → Res System :=
  queue_each (concat ((λ info, (λ buf, (ToDevice buf, Appservice (registration_id info))) <$> to_device_payloads to_json deliveries)
                      <$> filter (λ info, is_user_match info = true) registrations)).

Definition device_list_payload (user_id : bytes) (count : Z) : bytes := TAG_DEVICE_LIST_CHANGED :: be_bytes 8 count ++ user_id.

Definition send_device_list_appservices (registrations : list Registration) (user_id : bytes) (count : Z) (s : System) : Res System :=
  if negb (existsb transaction_extensions registrations) then Ok s
  else
    queue_each ((λ info, (DeviceListChanged (device_list_payload user_id count), Appservice (registration_id info)))
                <$> filter (λ info, transaction_extensions info && (is_user_match info || shares_device_list_room info) = true) registrations) s.

(** [services.federation.note_peer_alive] says whether the server was in its
    failure bucket; a failure to hand over is only logged. *)
Definition notify_peer_alive (sad : bool) (server : bytes) (s : System) : Res (bool * System) :=
  if sad then
    match dispatch (mkMsg (Federation server) Flush []) s with
    | Ok s => Ok (sad, s)
    | Err _ => Ok (sad, s)
    | Panic => Panic
    end
  else Ok (sad, s).

Definition cleanup_dest (appservice_id user_id push_key : option bytes) : option Destination :=
  match appservice_id, user_id, push_key with
  | None, Some user_id, Some push_key => Some (Push user_id push_key)
  | Some appservice_id, None, None => Some (Appservice appservice_id)
  | _, _, _ => None
  end.

Definition set_world (w : World) (s : System) : System := mkSystem w (channel s) (retired s).

Definition cleanup_events (appservice_id user_id push_key : option bytes) (s : System) : option (Res System) :=
  match cleanup_dest appservice_id user_id push_key with
  | Some dest => d <~ delete_all dest (data (world s)); Some (Ok (set_world (set_data d (world s)) s))
  | None => Some (Ok s)
  end.

(** ** The loop *)

(** What can happen next: requests of the rest of the program, one turn of the
    worker's loop, removal, shutdown, an answer while shutting down, and a start
    over what is stored, after a shutdown or a crash. *)
Inductive Event :=
| Enqueue (requests : list (SendingEvent * Destination))
| FlushTo (dest : Destination)
| OnRequest (env : Env)
| OnResponse (env : Env) (i : nat) (outcome : Outcome)
| OnWakes (now : Z) (envs : list Env)
| Cleanup (appservice_id user_id push_key : option bytes)
| Interrupt
| OnFinish (i : nat) (outcome : Outcome)
| Start (envs : Destination → Env).

(** [None] when an event does not come to an end, or more timers are due than
    [envs] has entries for. *)
Definition exec (ev : Event) (s : System) : option (Res System) :=
  match ev with
  | Enqueue requests => Some (queue_and_dispatch_all requests s)
  | FlushTo dest => Some (dispatch (mkMsg dest Flush []) s)
  | OnRequest env =>
      match recv_msg (channel s) with
      | Some (msg, c) =>
          w <~ handle_request debug_assertions config env msg (world s);
          Some (Ok (mkSystem w c (since_upper (window env))))
      | None => None
      end
  | OnResponse env i outcome =>
      w <~ handle_response debug_assertions config instant_add env i outcome (world s);
      Some (Ok (mkSystem w (channel s) (since_upper (window env))))
  | OnWakes now envs =>
      match drain_due_wakes debug_assertions config instant_add now envs (world s) with
      | Some r => w <~ r; Some (Ok (mkSystem w (channel s) (last_upper (retired s) envs)))
      | None => None
      end
  | Cleanup appservice_id user_id push_key => cleanup_events appservice_id user_id push_key s
  | Interrupt => Some (Ok (mkSystem (world s) (close_channel (channel s)) (retired s)))
  | OnFinish i outcome => w <~ finish_response i outcome (world s); Some (Ok (set_world w s))
  | Start envs =>
      w <~ startup_netburst debug_assertions config (λ _, true) envs (fresh (data (world s)) (dispatched (world s)));
      Some (Ok (mkSystem w unbounded (retired s)))
  end.

(** The events that can happen in a state, and what the rest of the program
    hands over with them. *)
Definition ev_ok (ev : Event) (s : System) : Prop :=
  let n := dispatched (world s) in
  match ev with
  | Enqueue requests => is_closed (channel s) = false ∧ requests_ok n requests ∧ n + numbered requests ≤ u64_max
  | FlushTo dest => is_closed (channel s) = false ∧ dest_valid dest
  | OnRequest env => is_closed (channel s) = false ∧ messages (channel s) ≠ [] ∧ env_ok env (retired s) n
  | OnResponse env i outcome =>
      is_closed (channel s) = false ∧ (∃ tx, futures (world s) !! i = Some tx ∧ outcome_ok tx.1 outcome) ∧ env_ok env (retired s) n
  | OnWakes now envs =>
      is_closed (channel s) = false ∧ envs_ok envs (retired s) n ∧ n + to_draw envs ≤ u64_max
      ∧ (∀ env delay, env ∈ envs → now < wake_deadline instant_add env delay) ∧ (due_wakes now (world s) ≤ length envs)%nat
  | Cleanup appservice_id user_id push_key => ∀ dest, cleanup_dest appservice_id user_id push_key = Some dest → dest_valid dest
  | Interrupt => is_closed (channel s) = false
  | OnFinish i outcome => is_closed (channel s) = true ∧ (∃ tx, futures (world s) !! i = Some tx)
  | Start _ => True
  end.

Inductive runs : list Event → System → System → Prop :=
| runs_nil s : runs [] s s
| runs_cons ev evs s s1 s' : ev_ok ev s → exec ev s = Some (Ok s1) → runs evs s1 s' → runs (ev :: evs) s s'.

(** A row an event takes from the store for good. *)
Definition lost (ev : Event) (s : System) (x : Destination) (e : SendingEvent) : Prop :=
  match ev with
  | OnResponse _ i outcome | OnFinish i outcome => ∃ dest events, futures (world s) !! i = Some (dest, events) ∧ settles outcome dest events x e
  | Cleanup appservice_id user_id push_key => cleanup_dest appservice_id user_id push_key = Some x
  | Start _ => 0 ≤ startup_netburst_keep config
  | _ => False
  end.

Definition stored (s : System) (dest : Destination) (t : bytes) (e : SendingEvent) : Prop :=
  ∃ A Q, rows_of (data (world s)) A Q ∧ (A !! (dest, t) = Some e ∨ Q !! (dest, t) = Some e).

(** ** The invariant *)

Record good (s : System) (A Q : Rows) : Prop := {
  good_world : if is_closed (channel s) then closing (world s) A Q (retired s) else inv (world s) A Q (retired s);
  good_messages : is_closed (channel s) = false → Forall (msg_ok (dispatched (world s)) Q) (messages (channel s))
}.

Definition steps (ev : Event) (s : System) (A Q : Rows) : Prop :=
  ∃ s' A' Q', exec ev s = Some (Ok s') ∧ good s' A' Q' ∧ kept_but (lost ev s) A Q A' Q' ∧ retired s ≤ retired s'.

Lemma good_sound s A Q : good s A Q → sound (world s) A Q (retired s).
Proof. intros [Hw _]. destruct (is_closed (channel s)); [apply Hw|apply (inv_sound _ _ _ _ Hw)]. Qed.

Lemma good_open s A Q : good s A Q → is_closed (channel s) = false → inv (world s) A Q (retired s) ∧ Forall (msg_ok (dispatched (world s)) Q) (messages (channel s)).
Proof. intros [Hw Hm] Hc. rewrite Hc in Hw. by split; [|apply Hm]. Qed.

Lemma good_closing s A Q : good s A Q → closing (world s) A Q (retired s).
Proof. intros [Hw _]. destruct (is_closed (channel s)); [done|by apply inv_closing]. Qed.

(** After a turn of the loop. *)
Lemma good_turn w c r s Q A' Q' msgs :
  is_closed c = false → messages c = msgs → Forall (msg_ok (dispatched (world s)) Q) msgs → inv w A' Q' r →
  grows (dispatched (world s)) Q (dispatched w) Q' → good (mkSystem w c r) A' Q'.
Proof.
  intros Hc Hm Hmsgs Hw Hg. split; cbn [channel world retired]; [by rewrite Hc|]. intros _. rewrite Hm.
  eapply Forall_impl; [exact Hmsgs|]. intros msg. by apply msg_ok_grows.
Qed.

Lemma dispatch_spec msg s :
  is_closed (channel s) = false →
  ∃ c, dispatch msg s = Ok (mkSystem (world s) c (retired s)) ∧ is_closed c = false ∧ messages c = messages (channel s) ++ [msg].
Proof.
  intros Hc. destruct (send_open_law (channel s) msg Hc) as (c & Hsend & Hm & Hc'). exists c. split_and!; [|done..].
  unfold dispatch. by rewrite never_full, Hc, !debug_assert_true, !bind_Ok, Hsend.
Qed.

Lemma dispatch_all_spec msgs s :
  is_closed (channel s) = false →
  ∃ c, dispatch_all msgs s = Ok (mkSystem (world s) c (retired s)) ∧ is_closed c = false ∧ messages c = messages (channel s) ++ msgs.
Proof.
  revert s. induction msgs as [|msg msgs IH]; intros s Hc.
  { exists (channel s). cbn. rewrite app_nil_r. by destruct s. }
  cbn [dispatch_all]. destruct (dispatch_spec msg s Hc) as (c & -> & Hc1 & Hm1). rewrite bind_Ok.
  destruct (IH (mkSystem (world s) c (retired s)) Hc1) as (c' & -> & Hc' & Hm'). exists c'. split_and!; [done..|]. cbn in Hm'. by rewrite Hm', Hm1, <-app_assoc.
Qed.

Lemma zip_with_keys n requests :
  zip_with (λ x queue_id, mkMsg x.2 x.1 queue_id) requests ((λ x, get_prefix x.1.1 ++ x.1.2) <$> rows_from n requests)
  = (λ x, mkMsg x.1.1 x.2 (get_prefix x.1.1 ++ x.1.2)) <$> rows_from n requests.
Proof.
  revert n. induction requests as [|[e dest] requests IH]; intros n; [done|]. destruct (pdu_of e) as [id|] eqn:He.
  - destruct e; try done. injection He as ->. rewrite rows_from_pdu. cbn [fmap list_fmap zip_with fst snd]. f_equal. apply IH.
  - rewrite rows_from_numbered by done. cbn [fmap list_fmap zip_with fst snd]. f_equal. apply IH.
Qed.

(** Queueing and handing over. *)
Lemma queue_spec requests s A Q :
  good s A Q → is_closed (channel s) = false → requests_ok (dispatched (world s)) requests → dispatched (world s) + numbered requests ≤ u64_max →
  ∃ s', queue_and_dispatch_all requests s = Ok s' ∧ good s' A (add_rows (rows_from (dispatched (world s)) requests) Q) ∧ retired s' = retired s
    ∧ dispatched (world s') = dispatched (world s) + numbered requests
    ∧ is_closed (channel s') = false ∧ fits Q (rows_from (dispatched (world s)) requests).
Proof.
  intros Hg Hc Hok Hmax. destruct (good_open s A Q Hg Hc) as [Hw Hmsgs]. pose proof Hw as [Hs Hnd Hset].
  destruct (queue_sound requests (world s) A Q (retired s) Hs Hok Hmax) as (w' & Hrun & Hs' & Hgr & Hfits & Hf & Hst & Hwk & Hdis).
  set (rows := rows_from (dispatched (world s)) requests) in *.
  unfold queue_and_dispatch_all. rewrite Hrun, bind_Ok. cbn [fst snd]. pose proof (zip_with_keys (dispatched (world s)) requests) as Hz. fold rows in Hz. rewrite Hz.
  match goal with |- context [dispatch_all ?msgs ?s1] => destruct (dispatch_all_spec msgs s1 Hc) as (c & -> & Hc' & Hm') end. cbn [world channel retired] in *.
  eexists. split; [reflexivity|]. cbn [world channel retired]. split_and!; [|done..].
  split; cbn [world channel retired].
  - rewrite Hc'. split; [done|by rewrite Hf|]. intros dest. destruct (Hset dest) as (Hb & Hca & Hn). split_and!; rewrite ?Hf, ?Hst; done.
  - intros _. rewrite Hm'. apply Forall_app. split; [eapply Forall_impl; [exact Hmsgs|]; intros msg; by apply msg_ok_grows|].
    apply Forall_fmap, Forall_forall. intros [[dest t] e] Hin. pose proof Hok as Hok'. unfold requests_ok in Hok'. rewrite Forall_forall in Hok'. destruct (Hok' _ Hin) as [Hd He].
    split; [done|]. right. exists t. cbn. assert (HQ : add_rows rows Q !! (dest, t) = Some e) by (rewrite lookup_add_rows by done; by left).
    split_and!; [done|done|by apply (sound_queued _ _ _ _ Hs') in HQ|]. intros e' HQ'. congruence.
Qed.

Lemma queue_and_dispatch_one dest event s A Q :
  good s A Q → is_closed (channel s) = false → requests_ok (dispatched (world s)) [(event, dest)] → dispatched (world s) + numbered [(event, dest)] ≤ u64_max →
  queue_and_dispatch dest event s = queue_and_dispatch_all [(event, dest)] s.
Proof.
  intros Hg Hc Hok Hmax. destruct (good_open s A Q Hg Hc) as [Hw _].
  destruct (queue_sound [(event, dest)] (world s) A Q (retired s) (inv_sound _ _ _ _ Hw) Hok Hmax) as (w' & Hrun & _).
  unfold queue_and_dispatch, queue_and_dispatch_all. rewrite Hrun, !bind_Ok. cbn [fst snd].
  assert (Hone : ∃ k, ((λ x, get_prefix x.1.1 ++ x.1.2) <$> rows_from (dispatched (world s)) [(event, dest)]) = [k]) by (destruct event; eexists; reflexivity).
  destruct Hone as [k ->]. cbn [zip_with dispatch_all fst snd]. by destruct (dispatch _ _).
Qed.

Lemma kept_but_all (P : Destination → SendingEvent → Prop) A Q A' Q' : kept A Q A' Q' → kept_but P A Q A' Q'.
Proof. intros Hk x t e Hl. left. by apply Hk. Qed.

Lemma cleanup_steps appservice_id user_id push_key s A Q :
  good s A Q → ev_ok (Cleanup appservice_id user_id push_key) s → steps (Cleanup appservice_id user_id push_key) s A Q.
Proof.
  intros Hg Hok. unfold steps. cbn [exec ev_ok lost] in *. unfold cleanup_events. destruct (cleanup_dest _ _ _) as [dest|] eqn:Hdest.
  2: { exists s, A, Q. split_and!; [done..| |lia]. intros x t e Hl. by left. }
  destruct (delete_all_law (data (world s)) A Q dest (sound_rows _ _ _ _ (good_sound _ _ _ Hg)) (Hok dest eq_refl)) as (d & -> & Hrows & Hcount). cbn [bind_scan].
  eexists _, (without dest A), (without dest Q). split_and!; [reflexivity| | |cbn; lia].
  - assert (Hs : sound (set_data d (world s)) (without dest A) (without dest Q) (retired s)) by (apply without_both_sound; [by apply good_sound|done..]).
    destruct Hg as [Hw Hm]. split; cbn [world channel retired set_world].
    + destruct (is_closed (channel s)); [eapply closing_rows|eapply inv_rows]; [exact Hw|exact Hs|apply without_sub|exact Hw|exact Hs|apply without_sub].
    + intros Hc. eapply Forall_impl; [by apply Hm|]. intros msg. apply msg_ok_grows, grows_sub, without_sub.
  - intros x t e Hl. destruct (decide (x = dest)) as [->|Hne]; [by right|left]. by rewrite !lookup_without, !decide_False by done.
Qed.

Lemma exec_steps ev s A Q : startup_netburst_enabled config = true → good s A Q → ev_ok ev s → steps ev s A Q.
Proof.
  intros Hon Hg Hok. destruct ev as [requests|dest|env|env i outcome|now envs|a u k| |i outcome|envs]; [..|by apply cleanup_steps| | |];
    unfold steps; cbn [exec ev_ok lost] in *.
  - destruct Hok as (Hc & Hreq & Hmax). destruct (queue_spec requests s A Q Hg Hc Hreq Hmax) as (s' & -> & Hg' & Hr & _ & _ & Hfits).
    eexists _, A, _. split_and!; [reflexivity|done|by apply kept_but_all, kept_add_queue|lia].
  - destruct Hok as [Hc Hd]. destruct (good_open s A Q Hg Hc) as [Hw Hm]. destruct (dispatch_spec (mkMsg dest Flush []) s Hc) as (c & -> & Hc' & Hm').
    eexists _, A, Q. split_and!; [reflexivity| |apply kept_but_all, kept_refl|cbn; lia].
    eapply good_turn; [done|exact Hm'| |exact Hw|apply grows_refl]. apply Forall_app. split; [done|]. apply Forall_singleton. split; [done|]. left. by split; [|left].
  - destruct Hok as (Hc & Hne & Henv). destruct (good_open s A Q Hg Hc) as [Hw Hm]. destruct (messages (channel s)) as [|msg rest] eqn:Hmsgs; [done|].
    destruct (recv_law (channel s) msg rest Hmsgs) as (c & -> & Hm' & Hc'). apply Forall_cons in Hm as [Hmsg Hm].
    destruct (handle_request_spec debug_assertions config instant_add env msg (world s) A Q (retired s) Hw Hmsg Henv) as (w' & A' & Q' & -> & [Hi Hk Hgr _ _]). cbn [bind_scan].
    eexists _, A', Q'. split_and!; [reflexivity|eapply good_turn; [congruence|exact Hm'|done..]|by apply kept_but_all|apply Henv].
  - destruct Hok as (Hc & ([dest events] & Hi & Hout) & Henv). destruct (good_open s A Q Hg Hc) as [Hw Hm].
    destruct (handle_response_spec debug_assertions config instant_add env i outcome dest events (world s) A Q (retired s) Hw Hi Hout Henv) as (w' & A' & Q' & -> & [Hi' Hk Hgr _]).
    cbn [bind_scan]. eexists _, A', Q'. split_and!; [reflexivity|by eapply good_turn| |apply Henv].
    intros x t e Hl. destruct (Hk x t e Hl) as [?|?]; [by left|right]. by exists dest, events.
  - destruct Hok as (Hc & Henv & Hdraw & Hlate & Hdue). destruct (good_open s A Q Hg Hc) as [Hw Hm].
    destruct (drain_wakes_spec debug_assertions config instant_add now envs (world s) A Q (retired s) Hw Henv Hdraw Hlate Hdue) as (w' & A' & Q' & r' & -> & Hi & Hr & Hk & Hgr).
    cbn [bind_scan]. pose proof (last_upper_bound _ _ _ Henv) as Hlast. pose proof (proj1 Hgr). pose proof (sound_numbers _ _ _ _ (inv_sound _ _ _ _ Hw)).
    eexists _, A', Q'. split_and!; [reflexivity| |by apply kept_but_all|cbn; lia]. eapply good_turn; [done|done|exact Hm| |done].
    destruct Hi as [Hs Hnd Hset]. split; [|done..]. apply (sound_retired _ _ _ r'); [done|lia].
  - eexists _, A, Q. split_and!; [reflexivity| |apply kept_but_all, kept_refl|cbn; lia].
    split; cbn [channel world retired]; rewrite close_law; [by apply good_closing|done].
  - destruct Hok as (Hc & [dest events] & Hi). destruct (finish_spec i outcome dest events (world s) A Q (retired s) (good_closing _ _ _ Hg) Hi) as (w' & A' & -> & Hw & Hk & _).
    cbn [bind_scan]. eexists _, A', Q. split_and!; [reflexivity| | |cbn; lia].
    + split; cbn [channel world retired set_world]; rewrite Hc; done.
    + intros x t e Hl. destruct (Hk x t e Hl) as [?|?]; [by left|right]. by exists dest, events.
  - pose proof (good_sound _ _ _ Hg) as Hs. destruct (startup_spec debug_assertions config instant_add envs (data (world s)) (dispatched (world s)) A Q (retired s) Hon) as (w' & A' & Q' & -> & Hi & Hk & Hgr).
    + destruct Hs. split; try done; cbn [statuses wakes fresh]; [intros dest [x Hx]; by rewrite lookup_empty in Hx|by intros due dest Hx%not_elem_of_nil].
    + cbn [bind_scan]. destruct unbounded_law as [Hm Hc]. eexists _, A', Q'. split_and!; [reflexivity| |done|cbn; lia].
      split; cbn [channel world retired]; rewrite Hc; [done|]. intros _. rewrite Hm. constructor.
Qed.

(** ** What is stored *)

Lemma done_stream_inj {A} (l l' : list A) : done_stream l = done_stream l' → l = l'.
Proof.
  intros [= Heq]. revert l' Heq. induction l as [|a l IH]; intros [|a' l'] [=]; [done|]. f_equal; [done|]. by apply IH.
Qed.

Lemma active_unique d A Q A' Q' x t e : rows_of d A Q → rows_of d A' Q' → A !! (x, t) = Some e → A' !! (x, t) = Some e.
Proof.
  intros Hd Hd' HA. destruct (all_active_law d A Q Hd) as (rows & Hall & _ & Hrows). destruct (all_active_law d A' Q' Hd') as (rows' & Hall' & _ & Hrows').
  rewrite Hall in Hall'. apply done_stream_inj in Hall' as Heq. apply Hrows'. apply Hrows in HA.
  assert (Hin : (get_prefix x ++ t, e, x) ∈ (λ r : Destination * bytes * SendingEvent, (get_prefix r.1.1 ++ r.1.2, r.2, r.1.1)) <$> rows) by (apply list_elem_of_fmap; by exists (x, t, e)).
  rewrite Heq in Hin. apply list_elem_of_fmap in Hin as ([[x' t'] e'] & [= Hk -> ->] & Hin). by apply app_inv_head in Hk as ->.
Qed.

Lemma queued_unique d A Q A' Q' x t e : rows_of d A Q → rows_of d A' Q' → Q !! (x, t) = Some e → Q' !! (x, t) = Some e.
Proof.
  intros Hd Hd' HQ. destruct (rows_valid d A Q x t e Hd) as [Hx _]; [by right|].
  destruct (queued_for_law d A Q x Hd Hx) as (l & Hl & _ & Hlist). destruct (queued_for_law d A' Q' x Hd' Hx) as (l' & Hl' & _ & Hlist').
  rewrite Hl in Hl'. apply done_stream_inj in Hl' as Heq. apply Hlist'. apply Hlist in HQ.
  assert (Hin : item_of x (t, e) ∈ item_of x <$> l) by (apply list_elem_of_fmap; by exists (t, e)).
  rewrite Heq in Hin. apply list_elem_of_fmap in Hin as ([t' e'] & [= Hk ->] & Hin). by apply app_inv_head in Hk as ->.
Qed.

Lemma strict_nodup {V} (l : list (bytes * V)) : StronglySorted (λ a b, lex_cmp a.1 b.1 = Lt) l → NoDup l.
Proof.
  induction 1 as [|a l _ IH Ha]; constructor; [|done]. intros Hin. rewrite Forall_forall in Ha. apply Ha in Hin. by rewrite lex_cmp_refl in Hin.
Qed.

Lemma lists_unique dest Q Q' l l' : lists dest Q l → lists dest Q' l' → (∀ t e, Q !! (dest, t) = Some e ↔ Q' !! (dest, t) = Some e) → l = l'.
Proof.
  intros [Hs Hl] [Hs' Hl'] HQ. apply (StronglySorted_unique_strong (λ a b : bytes * SendingEvent, lex_cmp a.1 b.1 = Lt)); [|done..|].
  - intros a b _ _ Hab Hba. rewrite lex_cmp_opp, Hba in Hab. done.
  - apply NoDup_Permutation; [by apply strict_nodup..|]. intros [t e]. by rewrite Hl, Hl'.
Qed.

Lemma stored_rows s A Q x t e : rows_of (data (world s)) A Q → stored s x t e ↔ A !! (x, t) = Some e ∨ Q !! (x, t) = Some e.
Proof.
  intros Hd. split; [|by exists A, Q]. intros (A' & Q' & Hd' & [HA|HQ]); [left; by eapply active_unique|right; by eapply queued_unique].
Qed.

(** A state a run starts from: any store with its rows, and no worker yet. *)
Definition cold (s : System) (A Q : Rows) : Prop :=
  world s = fresh (data (world s)) (dispatched (world s)) ∧ is_closed (channel s) = true ∧ sound (world s) A Q (retired s).

Lemma cold_good s A Q : cold s A Q → good s A Q.
Proof.
  intros (Hw & Hc & Hs). split; rewrite Hc; [|done]. split; [done|rewrite Hw; constructor|]. intros dest events Hin. rewrite Hw in Hin. by apply not_elem_of_nil in Hin.
Qed.

Lemma runs_good evs s s' A Q :
  startup_netburst_enabled config = true → runs evs s s' → good s A Q → ∃ A' Q', good s' A' Q'.
Proof.
  intros Hon Hr. revert A Q. induction Hr as [s|ev evs s s1 s' Hok Hex _ IH]; intros A Q Hg; [by exists A, Q|].
  destruct (exec_steps ev s A Q Hon Hg Hok) as (s1' & A1 & Q1 & Hex' & Hg1 & _). rewrite Hex in Hex'. injection Hex' as <-. by eapply IH.
Qed.

(** ** Theorems *)



Lemma runs_stored evs s s' A Q x t e :
  startup_netburst_enabled config = true → runs evs s s' → good s A Q → stored s x t e →
  stored s' x t e ∨ ∃ evs1 ev evs2 s1, evs = evs1 ++ ev :: evs2 ∧ runs evs1 s s1 ∧ stored s1 x t e ∧ lost ev s1 x e.
Proof.
  intros Hon Hr. revert A Q. induction Hr as [s|ev evs s s1 s' Hok Hex Hr IH]; intros A Q Hg Hst; [by left|].
  destruct (exec_steps ev s A Q Hon Hg Hok) as (s1' & A1 & Q1 & Hex' & Hg1 & Hk & _). rewrite Hex in Hex'. injection Hex' as <-.
  pose proof Hst as Hrow. rewrite (stored_rows s A Q) in Hrow by apply (good_sound _ _ _ Hg). destruct (Hk x t e Hrow) as [Hrow1|Hlost].
  - destruct (IH A1 Q1 Hg1) as [?|(evs1 & ev' & evs2 & s2 & -> & Hr2 & Hst2 & Hl)]; [|by left|].
    { apply (stored_rows s1 A1 Q1); [apply (good_sound _ _ _ Hg1)|done]. }
    right. exists (ev :: evs1), ev', evs2, s2. split_and!; [done|by econstructor|done..].
  - right. exists [], ev, evs, s. split_and!; [done|constructor|done..].
Qed.


(** The message of a row that still waits, for a destination with no
    transaction or failure on record that may be tried, starts a transaction
    that carries the row. *)
Theorem queued_event_sent evs s0 s A0 Q0 A Q env dest t e rest :
  startup_netburst_enabled config = true → cold s0 A0 Q0 → runs evs s0 s → ev_ok (OnRequest env) s →
  messages (channel s) = mkMsg dest e (get_prefix dest ++ t) :: rest → rows_of (data (world s)) A Q → Q !! (dest, t) = Some e →
  statuses (world s) !! dest = None → gated env dest = false →
  ∃ s' events, exec (OnRequest env) s = Some (Ok s') ∧ (dest, events) ∈ futures (world s') ∧ e ∈ events.
Proof.
  intros Hon Hcold Hr (Hc & _ & Henv) Hm Hrows HQ Hst Hgate. destruct (runs_good evs s0 s A0 Q0 Hon Hr (cold_good _ _ _ Hcold)) as (A' & Q' & Hg).
  destruct (good_open s A' Q' Hg Hc) as [Hw _]. pose proof (sound_rows _ _ _ _ (inv_sound _ _ _ _ Hw)) as Hrows'.
  destruct (idle_request_spec debug_assertions config env dest t e (world s) A' Q' (retired s) Hw) as (w' & events & Hrun & Hin & He);
    [apply (rows_valid _ A Q dest t e Hrows); by right|done|by eapply (queued_unique _ A Q A' Q')|done|done|].
  destruct (recv_law (channel s) _ _ Hm) as (c & Hrecv & _). cbn [exec]. rewrite Hrecv, Hrun. cbn [bind_scan]. by eexists _, events.
Qed.

(** When a transaction is acknowledged, the rows that had come in for its
    destination meanwhile go out at once, the first of them by key in the next
    transaction. *)
Theorem answer_sends_waiting evs s0 s A0 Q0 A Q env i dest events l :
  startup_netburst_enabled config = true → cold s0 A0 Q0 → runs evs s0 s → ev_ok (OnResponse env i Delivered) s →
  futures (world s) !! i = Some (dest, events) → rows_of (data (world s)) A Q → lists dest Q l → l ≠ [] →
  ∃ s' events', exec (OnResponse env i Delivered) s = Some (Ok s') ∧ (dest, events') ∈ futures (world s')
    ∧ ∀ e, e ∈ (take DEQUEUE_LIMIT l).*2 → e ∈ events'.
Proof.
  intros Hon Hcold Hr (Hc & _ & Henv) Hi Hrows Hl Hne. destruct (runs_good evs s0 s A0 Q0 Hon Hr (cold_good _ _ _ Hcold)) as (A' & Q' & Hg).
  destruct (good_open s A' Q' Hg Hc) as [Hw _]. destruct (ended_spec i dest events (world s) A' Q' (retired s) Hw Hi) as (Hcomp & Hcar & Hd).
  destruct (handle_response_ok_spec debug_assertions env dest events _ A' Q' (retired s) Hcomp Hd Henv Hcar) as (w' & A1 & Q1 & Hrun & _ & l' & Hl' & Hsent).
  assert (l' = l) as ->.
  { apply (lists_unique dest Q' Q); [done|done|]. intros t e. split; intros HQ; [eapply (queued_unique _ A' Q' A Q)|eapply (queued_unique _ A Q A' Q')]; try done; apply (sound_rows _ _ _ _ (inv_sound _ _ _ _ Hw)). }
  destruct (Hsent Hne) as (events' & Hin & Hall). cbn [exec]. unfold handle_response. rewrite Hi, Hrun. cbn [bind_scan]. by eexists _, events'.
Qed.

Lemma runs_app evs1 evs2 s s1 s' : runs evs1 s s1 → runs evs2 s1 s' → runs (evs1 ++ evs2) s s'.
Proof. induction 1 as [|ev evs s s2 s1 Hok Hex _ IH]; intros Hr; [done|]. cbn. econstructor; [done..|by apply IH]. Qed.

(** What a store lists is what waits. *)
Lemma queue_listed d A Q dest l : rows_of d A Q → dest_valid dest → queued_for dest d = done_stream (item_of dest <$> l) → lists dest Q l.
Proof.
  intros Hd Hx Hq. destruct (queued_for_law d A Q dest Hd Hx) as (l' & Hl' & Hlist). rewrite Hq in Hl'. apply done_stream_inj in Hl'.
  assert (l' = l) as ->; [|done]. symmetry. revert l' Hl' Hlist. clear. intros l' Hl' _. revert l' Hl'.
  induction l as [|[t e] l IH]; intros [|[t' e'] l'] Heq; try done. injection Heq as Hk He Hl. apply app_inv_head in Hk as ->. subst e'. f_equal. by apply IH.
Qed.
End System.

(** ** Examples *)

(** One server, one event and one EDU, over a store kept in memory. *)
#[local] Existing Instance usize_64.
#[local] Existing Instance gmap_column.
#[local] Existing Instance in_order.
#[local] Existing Instance list_inbox.
#[local] Instance store : SendStore (Data (S := gmap bytes bytes)) := data_store Some Some true false 1 2 3 (λ _, eq_refl) ltac:(done).

Definition options : Options := mkOptions 180 86400 true 50.
Definition sample_add (a b : Z) : option Z := Some (a + b).
Definition peer : Destination := SendQueue.Federation [97].
Definition env (r : Z) : Env := mkEnv (λ _, Yes) (λ _, Yes) 0 0 0 0 0 (idle_window r).
Definition pdu : list (SendingEvent * Destination) := [(Pdu sample_pdu, peer)].
Definition edu : list (SendingEvent * Destination) := [(Edu [123; 125], peer)].

Notation State := (System (D := Data (S := gmap bytes bytes)) (C := list Msg * bool)).
Definition boot : State := mkSystem (fresh (mkData ∅ ∅ ∅) 0) ([], true) 0.
Definition next (ev : Event) (s : State) : State := match exec true options sample_add ev s with Some (Ok s') => s' | _ => s end.
Definition started : State := next (Start (λ _, env 0)) boot.
Definition queued : State := next (Enqueue pdu) started.
Definition sending : State := next (OnRequest (env 0)) queued.
Definition busy_queue : State := next (Enqueue edu) sending.
Definition evs1 : list Event := [Start (λ _, env 0); Enqueue pdu].
Definition evs2 : list Event := [OnRequest (env 0); Enqueue edu].

Lemma peer_ok : dest_valid peer.
Proof. done. Qed.

Lemma boot_cold : cold boot ∅ ∅.
Proof.
  split_and!; [done..|]. split; cbn [data dispatched statuses wakes world boot fresh retired]; try done.
  - apply empty_stores.
  - intros server. exists 0. split; [|done]. done.
  - by intros dest [x Hx].
  - by intros due dest ?%not_elem_of_nil.
Qed.

Lemma env_fine r n : 0 ≤ r ≤ n → n ≤ u64_max → env_ok (env r) r n.
Proof. intros Hr Hn. split_and!; cbn; [lia|lia|lia|constructor|rewrite zlen_nil; lia]. Qed.

Lemma requests_fine n e : event_ok peer (be_bytes 8 (n + 1)) e → pdu_of e = None → requests_ok n [(e, peer)].
Proof. intros He Hp. unfold requests_ok. rewrite rows_from_numbered by done. apply Forall_singleton. split; [apply peer_ok|done]. Qed.

Lemma first_runs : runs true options sample_add evs1 boot queued.
Proof.
  apply (runs_cons _ _ _ _ _ _ started); [done|by vm_compute|]. apply (runs_cons _ _ _ _ _ _ queued); [|by vm_compute|constructor].
  split_and!; [done| |by vm_compute]. apply Forall_singleton. by split; [apply peer_ok|].
Qed.

Lemma then_runs : runs true options sample_add evs2 queued busy_queue.
Proof.
  apply (runs_cons _ _ _ _ _ _ sending); [|by vm_compute|]; [split_and!; [done|by vm_compute|apply env_fine; by vm_compute]|].
  apply (runs_cons _ _ _ _ _ _ busy_queue); [|by vm_compute|constructor]. split_and!; [by vm_compute|by apply requests_fine|by vm_compute].
Qed.

Lemma all_runs : runs true options sample_add (evs1 ++ evs2) boot busy_queue.
Proof. eapply runs_app; [apply first_runs|apply then_runs]. Qed.


Definition ack : Event := OnResponse (env 1) 0 Delivered.

Lemma ack_ok : ev_ok sample_add ack busy_queue.
Proof. split_and!; [by vm_compute|exists (peer, [Pdu sample_pdu]); by vm_compute|]. split_and!; [by vm_compute..|constructor|by vm_compute]. Qed.


Lemma boot_waits evs s l :
  runs true options sample_add evs boot s → queued_for peer (data (world s)) = done_stream (item_of peer <$> l) →
  ∃ A Q, rows_of (data (world s)) A Q ∧ lists peer Q l.
Proof.
  intros Hr Hq. destruct (runs_good true options sample_add evs boot s ∅ ∅ eq_refl Hr (cold_good _ _ _ boot_cold)) as (A & Q & Hg).
  pose proof (sound_rows _ _ _ _ (good_sound _ _ _ Hg)) as Hd. exists A, Q. split; [done|]. eapply queue_listed; [exact Hd|apply peer_ok|exact Hq].
Qed.

Lemma pdu_waits : ∃ A Q, rows_of (data (world queued)) A Q ∧ lists peer Q [(as_bytes sample_pdu, Pdu sample_pdu)].
Proof. apply (boot_waits evs1); [apply first_runs|by vm_compute]. Qed.

Lemma edu_waits : ∃ A Q, rows_of (data (world busy_queue)) A Q ∧ lists peer Q [(be_bytes 8 1, Edu [123; 125])].
Proof. apply (boot_waits (evs1 ++ evs2)); [apply all_runs|by vm_compute]. Qed.


Lemma queued_event_sent_witness :
  ∃ s' events, exec true options sample_add (OnRequest (env 0)) queued = Some (Ok s') ∧ (peer, events) ∈ futures (world s') ∧ Pdu sample_pdu ∈ events.
Proof.
  destruct pdu_waits as (A & Q & Hd & Hl).
  apply (queued_event_sent true options sample_add evs1 boot queued ∅ ∅ A Q (env 0) peer (as_bytes sample_pdu) (Pdu sample_pdu) []);
    [done|apply boot_cold|apply first_runs| |by vm_compute|done|apply Hl; left|by vm_compute|done].
  split_and!; [done|by vm_compute|apply env_fine; by vm_compute].
Defined.

Lemma answer_sends_waiting_witness :
  ∃ s' events', exec true options sample_add ack busy_queue = Some (Ok s') ∧ (peer, events') ∈ futures (world s')
    ∧ ∀ e, e ∈ (take DEQUEUE_LIMIT [(be_bytes 8 1, Edu [123; 125])]).*2 → e ∈ events'.
Proof.
  destruct edu_waits as (A & Q & Hd & Hl).
  apply (answer_sends_waiting true options sample_add (evs1 ++ evs2) boot busy_queue ∅ ∅ A Q (env 1) 0 peer [Pdu sample_pdu]);
    [done|apply boot_cold|apply all_runs|apply ack_ok|by vm_compute|done|done|done].
Defined.
