(* ===== verification/PackQueue.v ===== *)
(** * PackQueue: a connection's send queue

    src/service/streams/mod.rs, [PackQueue]: a bounded channel and the bytes a
    connection may hold in it.  Room is booked before a pack joins the queue,
    travels with it, and comes back when the pack has been written.  tokio's
    semaphore and channel are the classes [Semaphore] and [Bounded]; [try_send]
    is the sink the registry of Subscribers.v pushes into. *)

From S2P Require Import Prelude Order Store.

(** ** Data *)

(** [enum Outgoing] *)
Inductive Outgoing := Pack (pack : bytes) | Close (code : Z) (reason : string).

Definition queued_bytes (o : Outgoing) : Z := match o with Pack pack => Z.of_nat (length pack) | Close _ _ => 0 end.

(** [struct Queued]: the permit is its number of bytes. *)
Record Queued := mkQueued { outgoing : Outgoing; room : option Z }.

(** [enum QueueError] *)
Inductive QueueError := Gone | Full | TooLargeForBudget.

(** ** tokio *)

Inductive TryAcquireError := NoPermits | SemaphoreClosed.

Class Semaphore (S : Type) := {
  semaphore : Z → S;
  permits : S → Z;
  try_acquire_many : Z → S → Result TryAcquireError S;
  add_permits : Z → S → S;

  semaphore_law n : permits (semaphore n) = n;
  acquire_law n s : n ≤ permits s → ∃ s', try_acquire_many n s = Ok s' ∧ permits s' = permits s - n;
  acquire_short_law n s : permits s < n → try_acquire_many n s = Err NoPermits;
  add_permits_law n s : permits (add_permits n s) = permits s + n
}.

Inductive TrySendError := ChannelFull | ChannelClosed.

Class Bounded (C : Type) := {
  channel : Z → C;
  slots : C → Z;
  buffered : C → list Queued;
  is_shut : C → bool;
  chan_try_send : Queued → C → Result TrySendError C;
  chan_recv : C → option (Queued * C);
  drop_receiver : C → C;

  channel_law n : slots (channel n) = n ∧ buffered (channel n) = [] ∧ is_shut (channel n) = false;
  send_room_law q c : is_shut c = false → Z.of_nat (length (buffered c)) < slots c →
    ∃ c', chan_try_send q c = Ok c' ∧ buffered c' = buffered c ++ [q] ∧ slots c' = slots c ∧ is_shut c' = false;
  send_full_law q c : is_shut c = false → slots c ≤ Z.of_nat (length (buffered c)) → chan_try_send q c = Err ChannelFull;
  send_shut_law q c : is_shut c = true → chan_try_send q c = Err ChannelClosed;
  recv_some_law q rest c : buffered c = q :: rest → ∃ c', chan_recv c = Some (q, c') ∧ buffered c' = rest ∧ slots c' = slots c ∧ is_shut c' = is_shut c;
  recv_none_law c : buffered c = [] → chan_recv c = None;
  drop_receiver_law c : is_shut (drop_receiver c) = true ∧ buffered (drop_receiver c) = [] ∧ slots (drop_receiver c) = slots c
}.

(** ** Operations *)

Section Queue.
Context {S : Type} `{!Semaphore S} {C : Type} `{!Bounded C}.

(** [struct PackQueue], and what outside it holds room of it: the senders that
    have booked and not queued yet, and the packs the send task has taken out. *)
Record PackQueue := mkPackQueue {
  packs : C;
  budget : S;
  capacity_bytes : Z;
  booked : list Queued;
  taken : list Queued
}.

Definition new (packs bytes : Z) : PackQueue := mkPackQueue (channel (Z.max packs 1)) (semaphore (Z.max bytes 1)) (Z.max bytes 1) [] [].

Definition set_packs (c : C) (q : PackQueue) : PackQueue := mkPackQueue c (budget q) (capacity_bytes q) (booked q) (taken q).
Definition set_budget (s : S) (q : PackQueue) : PackQueue := mkPackQueue (packs q) s (capacity_bytes q) (booked q) (taken q).
Definition set_booked (l : list Queued) (q : PackQueue) : PackQueue := mkPackQueue (packs q) (budget q) (capacity_bytes q) l (taken q).
Definition set_taken (l : list Queued) (q : PackQueue) : PackQueue := mkPackQueue (packs q) (budget q) (capacity_bytes q) (booked q) l.

(** An [OwnedSemaphorePermit] dropped. *)
Definition give_back (room : option Z) (q : PackQueue) : PackQueue :=
  match room with Some n => set_budget (add_permits n (budget q)) q | None => q end.

Definition bookable (q : PackQueue) (bytes : Z) : Result QueueError (option Z) :=
  if bytes =? 0 then Ok None
  else if capacity_bytes q <? bytes then Err TooLargeForBudget
  else match u32_try_from bytes tt with Ok n => Ok (Some n) | _ => Err TooLargeForBudget end.

Definition book_now (bytes : Z) (q : PackQueue) : Result QueueError (option Z * PackQueue) :=
  wanted ← bookable q bytes;
  match wanted with
  | None => Ok (None, q)
  | Some n =>
      match try_acquire_many n (budget q) with
      | Ok s => Ok (Some n, set_budget s q)
      | Err NoPermits => Err Full
      | Err SemaphoreClosed => Err Gone
      | Panic => Panic
      end
  end.

(** The item a failed send hands back is dropped, and its room with it. *)
Definition try_send (o : Outgoing) (q : PackQueue) : Result QueueError unit * PackQueue :=
  match book_now (queued_bytes o) q with
  | Ok (room, q) =>
      match chan_try_send (mkQueued o room) (packs q) with
      | Ok c => (Ok tt, set_packs c q)
      | Err ChannelFull => (Err Full, give_back room q)
      | Err ChannelClosed => (Err Gone, give_back room q)
      | Panic => (Panic, q)
      end
  | Err e => (Err e, q)
  | Panic => (Panic, q)
  end.

(** [send] up to its first wait: the room, once there is enough of it.  [None]
    is a sender still waiting. *)
Definition book (o : Outgoing) (q : PackQueue) : option (Result QueueError unit * PackQueue) :=
  match bookable q (queued_bytes o) with
  | Ok None => Some (Ok tt, set_booked (booked q ++ [mkQueued o None]) q)
  | Ok (Some n) =>
      match try_acquire_many n (budget q) with
      | Ok s => Some (Ok tt, set_booked (booked q ++ [mkQueued o (Some n)]) (set_budget s q))
      | Err NoPermits => None
      | Err SemaphoreClosed => Some (Err Gone, q)
      | Panic => Some (Panic, q)
      end
  | Err e => Some (Err e, q)
  | Panic => Some (Panic, q)
  end.

(** [send] from there: the slot, for the sender that holds the room [k]. *)
Definition enqueue (k : nat) (q : PackQueue) : option (Result QueueError unit * PackQueue) :=
  match booked q !! k with
  | None => None
  | Some item =>
      match chan_try_send item (packs q) with
      | Ok c => Some (Ok tt, set_booked (delete k (booked q)) (set_packs c q))
      | Err ChannelFull => None
      | Err ChannelClosed => Some (Err Gone, give_back (room item) (set_booked (delete k (booked q)) q))
      | Panic => Some (Panic, q)
      end
  end.

(** A handler dropped while it waits for a slot. *)
Definition abandon (k : nat) (q : PackQueue) : PackQueue :=
  match booked q !! k with
  | None => q
  | Some item => give_back (room item) (set_booked (delete k (booked q)) q)
  end.

(** The receiver dropped, with everything queued. *)
Definition hang_up (q : PackQueue) : PackQueue :=
  foldl (λ q item, give_back (room item) q) (set_packs (drop_receiver (packs q)) q) (buffered (packs q)).

(** ** A connection's queue at work *)

(** The queue, what has been accepted into it, what the send task has written,
    and whether that task still runs. *)
Record Line := mkLine { pq : PackQueue; accepted : list Outgoing; wire : list Outgoing; running : bool }.

Definition start (packs bytes : Z) : Line := mkLine (new packs bytes) [] [] true.

(** [send_queued], one turn: the next item, and the item written (or the socket
    refusing it) and dropped. *)
Definition turn_recv (l : Line) : Line :=
  match running l, taken (pq l), chan_recv (packs (pq l)) with
  | true, [], Some (item, c) => mkLine (set_taken [item] (set_packs c (pq l))) (accepted l) (wire l) true
  | _, _, _ => l
  end.

Definition turn_end (wrote : bool) (l : Line) : Line :=
  match taken (pq l) with
  | [] => l
  | item :: rest =>
      let q := give_back (room item) (set_taken rest (pq l)) in
      let wire := if wrote then wire l ++ [outgoing item] else wire l in
      match outgoing item with
      | Pack _ => if wrote then mkLine q (accepted l) wire (running l) else mkLine (hang_up q) (accepted l) wire false
      | Close _ _ => mkLine (hang_up q) (accepted l) wire false
      end
  end.

Inductive Step := STrySend (o : Outgoing) | SBook (o : Outgoing) | SEnqueue (k : nat) | SAbandon (k : nat) | SRecv | SEnd (wrote : bool).

Definition set_pq (q : PackQueue) (l : Line) : Line := mkLine q (accepted l) (wire l) (running l).
Definition accept (o : Outgoing) (r : Result QueueError unit * PackQueue) (l : Line) : Line :=
  mkLine r.2 (match r.1 with Ok _ => accepted l ++ [o] | _ => accepted l end) (wire l) (running l).

Definition step (s : Step) (l : Line) : Line :=
  match s with
  | STrySend o => accept o (try_send o (pq l)) l
  | SBook o => match book o (pq l) with Some (_, q) => set_pq q l | None => l end
  | SEnqueue k => match booked (pq l) !! k, enqueue k (pq l) with Some item, Some r => accept (outgoing item) r l | _, _ => l end
  | SAbandon k => set_pq (abandon k (pq l)) l
  | SRecv => turn_recv l
  | SEnd wrote => turn_end wrote l
  end.
Definition run (ss : list Step) (l : Line) : Line := foldl (λ l s, step s l) l ss.

(** ** Room *)

Fixpoint cost (items : list Queued) : Z := match items with [] => 0 | i :: items => queued_bytes (outgoing i) + cost items end.

(** Everything the connection holds in memory. *)
Definition held (q : PackQueue) : Z := cost (buffered (packs q)) + cost (booked q) + cost (taken q).

Definition room_bytes (r : option Z) : Z := default 0 r.
Definition paid (i : Queued) : Prop := room_bytes (room i) = queued_bytes (outgoing i).

Lemma cost_app l l' : cost (l ++ l') = cost l + cost l'.
Proof. induction l as [|i l IH]; cbn [app cost]; lia. Qed.

Lemma cost_delete k l i : l !! k = Some i → cost (delete k l) = cost l - queued_bytes (outgoing i).
Proof.
  intros Hk. apply list_elem_of_split_length in Hk as (l1 & l2 & -> & ->). rewrite delete_middle, !cost_app. cbn [cost]. lia.
Qed.

Lemma queued_bytes_nonneg o : 0 ≤ queued_bytes o.
Proof. destruct o; cbn; lia. Qed.
Lemma cost_nonneg l : 0 ≤ cost l.
Proof. induction l as [|i l IH]; cbn [cost]; [lia|]. pose proof (queued_bytes_nonneg (outgoing i)). lia. Qed.

Lemma bookable_spec q n :
  0 ≤ n → match bookable q n with
          | Ok r => room_bytes r = n ∧ n ≤ Z.max 0 (capacity_bytes q) ∧ n ≤ u32_max
          | Err e => e = TooLargeForBudget ∧ (capacity_bytes q < n ∨ u32_max < n)
          | Panic => False
          end.
Proof.
  intros Hn. unfold bookable, u32_try_from. destruct (Z.eqb_spec n 0); cbn; [unfold u32_max; lia|].
  destruct (Z.ltb_spec (capacity_bytes q) n); [split; [done|lia]|]. destruct (Z.leb_spec n u32_max); cbn; [lia|split; [done|lia]].
Qed.

Lemma acquire_cases n s : (n ≤ permits s ∧ ∃ s', try_acquire_many n s = Ok s' ∧ permits s' = permits s - n) ∨ (permits s < n ∧ try_acquire_many n s = Err NoPermits).
Proof. destruct (Z.le_gt_cases n (permits s)) as [Hn|Hn]; [left; split; [done|by apply acquire_law]|right; split; [done|by apply acquire_short_law]]. Qed.

(** ** The queue's invariant *)

Record sound (slots_ bytes : Z) (q : PackQueue) : Prop := {
  sd_capacity : capacity_bytes q = bytes;
  sd_slots : slots (packs q) = slots_;
  sd_permits : permits (budget q) + held q = bytes;
  sd_nonneg : 0 ≤ permits (budget q);
  sd_paid : Forall paid (buffered (packs q) ++ booked q ++ taken q);
  sd_count : Z.of_nat (length (buffered (packs q))) ≤ slots_;
  sd_shut : is_shut (packs q) = true → buffered (packs q) = []
}.

Lemma queue_sound_new n b : sound (Z.max n 1) (Z.max b 1) (new n b).
Proof.
  destruct (channel_law (Z.max n 1)) as (Hs & Hb & Hc). split; unfold new, held; cbn [capacity_bytes packs budget booked taken]; rewrite ?Hb, ?semaphore_law; cbn; try done; lia.
Qed.

(** Room of an item that is nowhere else comes back. *)
Lemma give_back_fields r q :
  packs (give_back r q) = packs q ∧ capacity_bytes (give_back r q) = capacity_bytes q ∧ booked (give_back r q) = booked q ∧ taken (give_back r q) = taken q
  ∧ permits (budget (give_back r q)) = permits (budget q) + room_bytes r.
Proof. destruct r as [n|]; cbn; split_and!; try done; [by rewrite add_permits_law|lia]. Qed.

(** The sound queues one item away from sound. *)
Lemma sound_give n b q q' item :
  sound n b q → paid item → packs q' = packs q → budget q' = budget q → capacity_bytes q' = capacity_bytes q →
  held q' = held q - queued_bytes (outgoing item) → booked q' ++ taken q' ⊆ booked q ++ taken q → sound n b (give_back (room item) q').
Proof.
  intros [Hc Hs Hp Hn Hpd Hl Hsh] Hpaid Hpacks Hbud Hcap Hheld Hsub. destruct (give_back_fields (room item) q') as (E1 & E2 & E3 & E4 & E5).
  unfold paid in Hpaid. pose proof (queued_bytes_nonneg (outgoing item)). split; unfold held in *; rewrite ?E1, ?E2, ?E3, ?E4, ?E5, ?Hpacks, ?Hbud, ?Hcap in *; try done; [lia|lia|].
  rewrite Forall_forall in *. intros i. rewrite elem_of_app. intros [Hi|Hi]; apply Hpd, elem_of_app; [by left|right; by apply Hsub].
Qed.

Lemma sound_hang_up n b q : sound n b q → sound n b (hang_up q) ∧ is_shut (packs (hang_up q)) = true ∧ booked (hang_up q) = booked q ∧ taken (hang_up q) = taken q.
Proof.
  intros [Hc Hs Hp Hn Hpd Hl Hsh]. unfold hang_up. destruct (drop_receiver_law (packs q)) as (Hd1 & Hd2 & Hd3).
  assert (Hfold : ∀ l q0, Forall paid l → let q1 := foldl (λ q item, give_back (room item) q) q0 l in
    packs q1 = packs q0 ∧ capacity_bytes q1 = capacity_bytes q0 ∧ booked q1 = booked q0 ∧ taken q1 = taken q0 ∧ permits (budget q1) = permits (budget q0) + cost l).
  { induction l as [|i l IH]; intros q0 Hl0; cbn [foldl cost]; [split_and!; try done; lia|]. apply Forall_cons in Hl0 as [Hi Hl0].
    destruct (IH (give_back (room i) q0) Hl0) as (? & ? & ? & ? & ?). destruct (give_back_fields (room i) q0) as (? & ? & ? & ? & ?). unfold paid in Hi. cbn. split_and!; try congruence. lia. }
  rewrite Forall_app in Hpd. destruct Hpd as [Hpd1 Hpd2]. destruct (Hfold (buffered (packs q)) (set_packs (drop_receiver (packs q)) q) Hpd1) as (E1 & E2 & E3 & E4 & E5).
  cbn [set_packs packs capacity_bytes booked taken budget] in *. pose proof (cost_nonneg (buffered (packs q))).
  split; [split|]; unfold held in *; rewrite ?E1, ?E2, ?E3, ?E4, ?E5, ?Hd2, ?Hd3; cbn [cost app length]; try done; try lia.
Qed.

(** An item that paid joins the queue. *)
Lemma sound_push n b q q' item :
  sound n b q → paid item → packs q' = packs q → capacity_bytes q' = capacity_bytes q →
  permits (budget q') + (cost (buffered (packs q)) + cost (booked q') + cost (taken q') + queued_bytes (outgoing item)) = b → 0 ≤ permits (budget q') →
  Forall paid (booked q' ++ taken q') → is_shut (packs q) = false → Z.of_nat (length (buffered (packs q))) < slots (packs q) →
  ∃ c, chan_try_send item (packs q') = Ok c ∧ sound n b (set_packs c q') ∧ buffered c = buffered (packs q) ++ [item] ∧ is_shut c = false.
Proof.
  intros [Hc Hs Hp Hn Hpd Hl Hsh] Hpaid Hpacks Hcap Hheld Hnn Hrest Hopen Hroom. destruct (send_room_law item (packs q) Hopen Hroom) as (c & Hsend & Hbuf & Hslots & Hshut).
  exists c. rewrite Hpacks. split_and!; [done| |done|done]. apply Forall_app in Hpd as [Hpd _].
  split; unfold held; cbn [set_packs packs budget capacity_bytes booked taken]; rewrite ?Hbuf, ?Hslots, ?cost_app; cbn [cost]; try congruence; try lia.
  - rewrite <-app_assoc. apply Forall_app; split; [done|]. by apply Forall_cons.
  - rewrite length_app. cbn. lia.
Qed.

(** What [try_send] answers. *)
Definition verdict (o : Outgoing) (q : PackQueue) : Result QueueError unit :=
  let n := queued_bytes o in
  if (capacity_bytes q <? n) || (u32_max <? n) then Err TooLargeForBudget
  else if permits (budget q) <? n then Err Full
  else if is_shut (packs q) then Err Gone
  else if slots (packs q) <=? Z.of_nat (length (buffered (packs q))) then Err Full
  else Ok tt.

Lemma book_now_spec n b o q :
  sound n b q →
  match book_now (queued_bytes o) q with
  | Ok (r, q') =>
      (capacity_bytes q <? queued_bytes o) || (u32_max <? queued_bytes o) = false ∧ queued_bytes o ≤ permits (budget q) ∧ room_bytes r = queued_bytes o
      ∧ packs q' = packs q ∧ capacity_bytes q' = capacity_bytes q ∧ booked q' = booked q ∧ taken q' = taken q ∧ permits (budget q') = permits (budget q) - queued_bytes o
  | Err Full => (capacity_bytes q <? queued_bytes o) || (u32_max <? queued_bytes o) = false ∧ permits (budget q) < queued_bytes o
  | Err TooLargeForBudget => (capacity_bytes q <? queued_bytes o) || (u32_max <? queued_bytes o) = true
  | _ => False
  end.
Proof.
  intros [Hc Hs Hp Hn Hpd Hl Hsh]. pose proof (queued_bytes_nonneg o) as Ho. pose proof (bookable_spec q (queued_bytes o) Ho) as Hbook.
  pose proof (cost_nonneg (buffered (packs q))). pose proof (cost_nonneg (booked q)). pose proof (cost_nonneg (taken q)). unfold held in Hp.
  unfold book_now. destruct (bookable q (queued_bytes o)) as [[m|]|e|]; cbn [mbind result_bind]; [| | |done].
  - destruct Hbook as (Hm & ? & ?). change (m = queued_bytes o) in Hm. subst m. destruct (acquire_cases (queued_bytes o) (budget q)) as [(Hle & s' & Hacq & Hs')|(Hlt & Hacq)]; rewrite Hacq.
    + split_and!; try done. apply orb_false_iff; split; apply Z.ltb_ge; lia.
    + split; [|done]. apply orb_false_iff; split; apply Z.ltb_ge; lia.
  - destruct Hbook as (Hm & ? & ?). change (0 = queued_bytes o) in Hm. split_and!; try done; [|lia..]. apply orb_false_iff; split; apply Z.ltb_ge; lia.
  - destruct Hbook as [-> Hbook]. apply orb_true_iff. rewrite !Z.ltb_lt. done.
Qed.

Lemma try_send_spec n b o q :
  sound n b q → ∃ q', try_send o q = (verdict o q, q') ∧ sound n b q' ∧ booked q' = booked q ∧ taken q' = taken q ∧ is_shut (packs q') = is_shut (packs q)
    ∧ outgoing <$> buffered (packs q') = (outgoing <$> buffered (packs q)) ++ match verdict o q with Ok _ => [o] | _ => [] end.
Proof.
  intros Hq. pose proof Hq as [Hc Hs Hp Hn Hpd Hl Hsh]. pose proof (book_now_spec n b o q Hq) as Hb. unfold try_send, verdict.
  destruct (book_now (queued_bytes o) q) as [[r q1]|[]|]; [|done| | |done].
  - destruct Hb as (-> & Hle & Hr & E1 & E2 & E3 & E4 & E5). rewrite (proj2 (Z.ltb_ge _ _) Hle), E1.
    assert (Hgive : ∀ e, ∃ q', (Err e, give_back r q1) = (Err e : Result QueueError unit, q') ∧ sound n b q' ∧ booked q' = booked q ∧ taken q' = taken q ∧ is_shut (packs q') = is_shut (packs q)
      ∧ outgoing <$> buffered (packs q') = (outgoing <$> buffered (packs q)) ++ []).
    { intros e. exists (give_back r q1). destruct (give_back_fields r q1) as (F1 & F2 & F3 & F4 & F5). rewrite app_nil_r. split_and!; try congruence.
      split; unfold held in *; rewrite ?F1, ?F2, ?F3, ?F4, ?F5, ?E1, ?E2, ?E3, ?E4, ?E5; try done; lia. }
    destruct (is_shut (packs q)) eqn:Hshut; [rewrite send_shut_law by done; apply Hgive|]. destruct (Z.leb_spec (slots (packs q)) (Z.of_nat (length (buffered (packs q))))) as [Hfull|Hroom].
    + rewrite send_full_law by done. apply Hgive.
    + destruct (sound_push n b q q1 (mkQueued o r)) as (c & Hsend & Hsound & Hbuf & Hopen); try done; [|lia|by rewrite E3, E4; apply Forall_app in Hpd as [_ ?]|].
      { unfold held in Hp. cbn [outgoing]. rewrite E3, E4, E5. lia. }
      rewrite E1 in Hsend. rewrite Hsend. eexists. split; [done|]. cbn [set_packs packs booked taken]. rewrite Hbuf, fmap_app. by split_and!.
  - destruct Hb as [-> Hlt]. rewrite (proj2 (Z.ltb_lt _ _) Hlt). exists q. rewrite app_nil_r. by split_and!.
  - rewrite Hb. exists q. rewrite app_nil_r. by split_and!.
Qed.

(** A sender that has booked. *)
Lemma book_spec n b o q r q' :
  sound n b q → book o q = Some (r, q') → sound n b q' ∧ packs q' = packs q ∧ taken q' = taken q.
Proof.
  intros Hq. pose proof Hq as [Hc Hs Hp Hn Hpd Hl Hsh]. pose proof (bookable_spec q (queued_bytes o) (queued_bytes_nonneg o)) as Hbook. unfold book.
  assert (Hadd : ∀ rm s, room_bytes rm = queued_bytes o → permits s = permits (budget q) - queued_bytes o → 0 ≤ permits s → sound n b (set_booked (booked q ++ [mkQueued o rm]) (set_budget s q))).
  { intros rm s Hrm Hps Hnn. split; unfold held in *; cbn [set_booked set_budget packs budget capacity_bytes booked taken]; rewrite ?cost_app; cbn [cost outgoing]; try done; [lia|].
    rewrite !Forall_app in *. destruct Hpd as (? & ? & ?). split_and!; try done. by apply Forall_singleton. }
  destruct (bookable q (queued_bytes o)) as [[m|]|e|]; [| |intros [= <- <-]; done|done].
  - destruct Hbook as (Hm & _). change (m = queued_bytes o) in Hm. subst m. destruct (acquire_cases (queued_bytes o) (budget q)) as [(Hle & s' & -> & Hs')|(Hlt & ->)]; [|done].
    intros [= <- <-]. split_and!; [apply Hadd; (done || lia)|done..].
  - destruct Hbook as (Hm & _). change (0 = queued_bytes o) in Hm. intros [= <- <-]. split_and!; [|done..]. destruct q; apply Hadd; cbn in *; (done || lia).
Qed.

Lemma delete_subset (k : nat) (l l' : list Queued) : delete k l ++ l' ⊆ l ++ l'.
Proof. intros i. rewrite !elem_of_app. intros [Hi|Hi]; [left|by right]. apply (list_subseteq_delete k l). done. Qed.

Lemma enqueue_spec n b k q item r q' :
  sound n b q → booked q !! k = Some item → enqueue k q = Some (r, q') →
  sound n b q' ∧ taken q' = taken q ∧ is_shut (packs q') = is_shut (packs q)
  ∧ outgoing <$> buffered (packs q') = (outgoing <$> buffered (packs q)) ++ match r with Ok _ => [outgoing item] | _ => [] end.
Proof.
  intros Hq Hk. pose proof Hq as [Hc Hs Hp Hn Hpd Hl Hsh]. unfold enqueue. rewrite Hk. pose proof (cost_delete k (booked q) item Hk) as Hcost.
  assert (Hpaid : paid item) by (eapply Forall_forall; [exact Hpd|]; rewrite !elem_of_app; right; left; by eapply list_elem_of_lookup_2).
  destruct (is_shut (packs q)) eqn:Hshut.
  - rewrite send_shut_law by done. intros [= <- <-]. destruct (give_back_fields (room item) (set_booked (delete k (booked q)) q)) as (F1 & F2 & F3 & F4 & F5). rewrite F1, F4, app_nil_r.
    split_and!; try done. apply (sound_give n b q); try done; [unfold held; cbn [set_booked packs booked taken]; lia|apply delete_subset].
  - destruct (Z.le_gt_cases (slots (packs q)) (Z.of_nat (length (buffered (packs q))))) as [Hfull|Hroom]; [by rewrite send_full_law|].
    destruct (sound_push n b q (set_booked (delete k (booked q)) q) item) as (c & Hsend & Hsound & Hbuf & Hopen); try done.
    + unfold held in Hp. cbn [set_booked packs booked taken budget]. lia.
    + cbn [set_booked booked taken]. apply Forall_app in Hpd as [_ Hpd]. rewrite Forall_forall in *. intros i Hi. by apply Hpd, (delete_subset k).
    + cbn [set_booked packs] in Hsend. rewrite Hsend. intros [= <- <-]. cbn [set_packs set_booked packs taken]. rewrite Hbuf, fmap_app. by split_and!.
Qed.

Lemma abandon_spec n b k q : sound n b q → sound n b (abandon k q) ∧ packs (abandon k q) = packs q ∧ taken (abandon k q) = taken q.
Proof.
  intros Hq. unfold abandon. destruct (booked q !! k) as [item|] eqn:Hk; [|done]. pose proof (cost_delete k (booked q) item Hk) as Hcost.
  destruct (give_back_fields (room item) (set_booked (delete k (booked q)) q)) as (F1 & F2 & F3 & F4 & F5). split_and!; [|done..].
  apply (sound_give n b q); try done; [|unfold held; cbn [set_booked packs booked taken]; lia|apply delete_subset].
  eapply Forall_forall; [exact (sd_paid n b q Hq)|]. rewrite !elem_of_app. right; left; by eapply list_elem_of_lookup_2.
Qed.

(** ** The line's invariant *)

Definition is_pack (o : Outgoing) : bool := match o with Pack _ => true | Close _ _ => false end.

(** Nothing follows a close frame. *)
Definition close_ends (w : list Outgoing) : Prop := ∀ k o, w !! k = Some o → is_pack o = false → Datatypes.S k = length w.

Record good (n b : Z) (l : Line) : Prop := {
  gd_sound : sound n b (pq l);
  gd_shut : is_shut (packs (pq l)) = negb (running l);
  gd_hand : running l = false → taken (pq l) = [];
  gd_one : (length (taken (pq l)) ≤ 1)%nat;
  gd_order : running l = true → accepted l = wire l ++ (outgoing <$> taken (pq l)) ++ (outgoing <$> buffered (packs (pq l)));
  gd_prefix : wire l `prefix_of` accepted l;
  gd_packs : running l = true → Forall (λ o, is_pack o = true) (wire l);
  gd_close : close_ends (wire l)
}.

Lemma packs_close_ends w o : Forall (λ o, is_pack o = true) w → close_ends (w ++ [o]).
Proof.
  intros Hw k o' Hk Ho. rewrite Forall_forall in Hw. apply lookup_app_Some in Hk as [Hk|[Hle Hk]].
  - apply list_elem_of_lookup_2 in Hk. by rewrite Hw in Ho.
  - rewrite length_app. cbn. apply list_lookup_singleton_Some in Hk as [? _]. lia.
Qed.
Lemma all_packs_close_ends w : Forall (λ o, is_pack o = true) w → close_ends w.
Proof. intros Hw k o Hk Ho. rewrite Forall_forall in Hw. apply list_elem_of_lookup_2 in Hk. by rewrite Hw in Ho. Qed.

Lemma good_start n b : good (Z.max n 1) (Z.max b 1) (start n b).
Proof.
  destruct (channel_law (Z.max n 1)) as (Hs & Hb & Hc). split; unfold start, new; cbn [pq accepted wire running packs booked taken]; try done; [apply queue_sound_new|cbn; lia|by rewrite Hb].
Qed.

(** An item accepted at the back of the queue. *)
Lemma good_accept n b l r q o :
  good n b l → sound n b q → taken q = taken (pq l) → is_shut (packs q) = is_shut (packs (pq l)) →
  outgoing <$> buffered (packs q) = (outgoing <$> buffered (packs (pq l))) ++ match r with Ok _ => [o] | _ => [] end → good n b (accept o (r, q) l).
Proof.
  intros [Hg1 Hg2 Hg3 Hg4 Hg5 Hg6 Hg7 Hg8] Hq Ht Hs Hb. unfold accept. cbn [fst snd]. split; cbn [pq accepted wire running]; rewrite ?Ht; try done; [congruence| |].
  - intros Hr. rewrite Hb. specialize (Hg5 Hr). destruct r; rewrite ?app_nil_r, Hg5, <-?app_assoc; done.
  - destruct r; [|done..]. by apply prefix_app_r.
Qed.

Lemma good_keep n b l q : good n b l → sound n b q → taken q = taken (pq l) → packs q = packs (pq l) → good n b (set_pq q l).
Proof. intros [Hg1 Hg2 Hg3 Hg4 Hg5 Hg6 Hg7 Hg8] Hq Ht Hp. split; unfold set_pq; cbn [pq accepted wire running]; rewrite ?Ht, ?Hp; done. Qed.

Lemma good_recv n b l : good n b l → good n b (turn_recv l).
Proof.
  intros Hg. pose proof Hg as [Hg1 Hg2 Hg3 Hg4 Hg5 Hg6 Hg7 Hg8]. unfold turn_recv. destruct (running l) eqn:Hr; [|done]. destruct (taken (pq l)) as [|? ?] eqn:Ht; [|done].
  destruct (buffered (packs (pq l))) as [|item rest] eqn:Hb; [by rewrite recv_none_law|]. destruct (recv_some_law item rest (packs (pq l)) Hb) as (c & -> & Hc1 & Hc2 & Hc3).
  destruct Hg1 as [Sc Ss Sp Sn Spd Sl Ssh]. split; cbn [pq accepted wire running set_taken set_packs packs taken]; try done; [|congruence|intros _; rewrite Hg5, Hc1 by done; done].
  split; unfold held in *; cbn [set_taken set_packs packs taken booked budget capacity_bytes]; rewrite ?Hc1, ?Hb, ?Ht in *; cbn [cost] in *; try congruence; try lia.
  - rewrite app_nil_r in Spd. cbn in Spd. apply Forall_cons in Spd as [Hi Spd]. rewrite Forall_app in *. destruct Spd. split_and!; try done. rewrite Forall_app. split; [done|]. by apply Forall_singleton.
  - cbn in Sl. lia.
  - rewrite Hc3. intros Hshut. by apply Ssh in Hshut.
Qed.

Lemma good_end n b wrote l : good n b l → good n b (turn_end wrote l).
Proof.
  intros Hg. pose proof Hg as [Hg1 Hg2 Hg3 Hg4 Hg5 Hg6 Hg7 Hg8]. unfold turn_end. destruct (taken (pq l)) as [|item rest] eqn:Ht; [done|].
  assert (rest = []) as -> by (destruct rest; [done|cbn in Hg4; lia]). assert (Hr : running l = true) by (by destruct (running l); [|specialize (Hg3 eq_refl)]).
  specialize (Hg5 Hr). specialize (Hg7 Hr). set (q := give_back (room item) (set_taken [] (pq l))).
  destruct (give_back_fields (room item) (set_taken [] (pq l))) as (F1 & F2 & F3 & F4 & F5). fold q in F1, F2, F3, F4, F5. cbn [set_taken packs taken] in F1, F4.
  assert (Hq : sound n b q).
  { apply (sound_give n b (pq l)); try done.
    - eapply Forall_forall; [exact (sd_paid n b _ Hg1)|]. rewrite Ht, !elem_of_app. right; right; left.
    - unfold held. cbn [set_taken packs booked taken]. rewrite Ht. cbn [cost]. lia.
    - cbn [set_taken booked taken]. intros i. rewrite !elem_of_app. intros [?|?%not_elem_of_nil]; [by left|done]. }
  assert (Hpre : wire l ++ [outgoing item] `prefix_of` accepted l) by (rewrite Hg5; cbn; apply prefix_app; by eexists).
  destruct (sound_hang_up n b q Hq) as (Hs1 & Hs2 & Hs3 & Hs4).
  assert (Hend : ∀ w, w `prefix_of` accepted l → close_ends w → good n b (mkLine (hang_up q) (accepted l) w false)).
  { intros w Hw1 Hw2. split; cbn [pq accepted wire running]; try done; rewrite ?Hs4, ?F4; cbn; try done; lia. }
  destruct (outgoing item) as [pack|code reason] eqn:Ho; destruct wrote; try (apply Hend; [done|]; by apply packs_close_ends || by apply all_packs_close_ends).
  split; cbn [pq accepted wire running]; rewrite ?F1, ?F4; try done; [cbn; lia| | |].
  - intros _. rewrite Hg5. cbn. rewrite Ho. by rewrite <-app_assoc.
  - intros _. apply Forall_app; split; [done|]. by apply Forall_singleton.
  - by apply packs_close_ends.
Qed.

Lemma good_step n b s l : good n b l → good n b (step s l).
Proof.
  intros Hg. pose proof (gd_sound n b l Hg) as Hq. destruct s as [o|o|k|k| |wrote]; cbn [step].
  - destruct (try_send_spec n b o (pq l) Hq) as (q' & -> & Hq' & _ & Ht & Hs & Hb). by apply good_accept.
  - destruct (book o (pq l)) as [[r q']|] eqn:Hb; [|done]. destruct (book_spec n b o (pq l) r q' Hq Hb) as (Hq' & Hp & Ht). by apply good_keep.
  - destruct (booked (pq l) !! k) as [item|] eqn:Hk; [|done]. destruct (enqueue k (pq l)) as [[r q']|] eqn:He; [|done].
    destruct (enqueue_spec n b k (pq l) item r q' Hq Hk He) as (Hq' & Ht & Hs & Hb). by apply good_accept.
  - destruct (abandon_spec n b k (pq l) Hq) as (Hq' & Hp & Ht). by apply good_keep.
  - by apply good_recv.
  - by apply good_end.
Qed.

Lemma good_run n b ss : good (Z.max n 1) (Z.max b 1) (run ss (start n b)).
Proof.
  unfold run. pose proof (good_start n b) as Hg. revert Hg. generalize (start n b). induction ss as [|s ss IH]; intros l Hg; [done|]. by apply IH, good_step.
Qed.


(** Every answer, of any queue. *)
Lemma try_send_cases o q :
  let r := try_send o q in
  is_shut (packs r.2) = is_shut (packs q)
  ∧ ((r.1 = Ok tt ∧ is_shut (packs q) = false) ∨ ∃ e, r.1 = Err e ∧ (e = Gone → is_shut (packs q) = true)).
Proof.
  unfold try_send. assert (Hbook : (∃ r q1, book_now (queued_bytes o) q = Ok (r, q1) ∧ packs q1 = packs q) ∨ ∃ e, book_now (queued_bytes o) q = Err e ∧ e ≠ Gone).
  { pose proof (bookable_spec q (queued_bytes o) (queued_bytes_nonneg o)) as Hb. unfold book_now. destruct (bookable q (queued_bytes o)) as [[m|]|e|]; cbn [mbind result_bind]; [| | |done].
    - destruct (acquire_cases m (budget q)) as [(_ & s & -> & _)|(_ & ->)]; [left; by eexists _, _|right; by eexists].
    - left. by eexists _, _.
    - right. exists e. destruct Hb as [-> _]. done. }
  destruct Hbook as [(r & q1 & -> & Hq1)|(e & -> & He)]; [|split; [done|right; by exists e]]. destruct (give_back_fields r q1) as (Hg & _). rewrite <-Hq1.
  destruct (is_shut (packs q1)) eqn:Hshut; [rewrite send_shut_law by done; cbn; rewrite Hg; split; [done|right; by exists Gone]|].
  destruct (Z.le_gt_cases (slots (packs q1)) (Z.of_nat (length (buffered (packs q1))))) as [Hf|Hf]; [rewrite send_full_law by done; cbn; rewrite Hg; split; [done|right; by exists Full]|].
  destruct (send_room_law (mkQueued o r) (packs q1) Hshut Hf) as (c & -> & _ & _ & Hc). split; [done|left; done].
Qed.
End Queue.
Arguments PackQueue : clear implicits.
Arguments Line : clear implicits.

(** ** A semaphore and a channel *)

Definition z_semaphore : Semaphore Z.
Proof.
  refine {| semaphore n := n; permits s := s; try_acquire_many n s := if n <=? s then Ok (s - n) else Err NoPermits; add_permits n s := s + n |}.
  - done.
  - intros n s Hn. rewrite (proj2 (Z.leb_le _ _) Hn). by eexists.
  - intros n s Hn. by rewrite (proj2 (Z.leb_gt _ _) Hn).
  - done.
Defined.

Definition list_channel : Bounded (Z * list Queued * bool).
Proof.
  refine {| channel n := (n, [], false); slots c := c.1.1; buffered c := c.1.2; is_shut c := c.2;
            chan_try_send q c := if c.2 then Err ChannelClosed else if c.1.1 <=? Z.of_nat (length c.1.2) then Err ChannelFull else Ok (c.1.1, c.1.2 ++ [q], false);
            chan_recv c := match c.1.2 with [] => None | q :: rest => Some (q, (c.1.1, rest, c.2)) end;
            drop_receiver c := (c.1.1, [], true) |}.
  - done.
  - intros q [[n l] []]; cbn; [done|]. intros _ Hn. rewrite (proj2 (Z.leb_gt _ _) Hn). by eexists.
  - intros q [[n l] []]; cbn; [done|]. intros _ Hn. by rewrite (proj2 (Z.leb_le _ _) Hn).
  - intros q [[n l] []]; cbn; done.
  - intros q rest [[n l] b]; cbn. intros ->. by eexists.
  - intros [[n l] b]; cbn. by intros ->.
  - done.
Defined.

#[local] Existing Instances z_semaphore list_channel.

(** Two packs fill the budget; the third is dropped, and a close frame is not. *)
Definition busy : list Step := [STrySend (Pack [1; 2; 3]); STrySend (Pack [4; 5]); STrySend (Pack [6]); SRecv; STrySend (Close 1000 "bye"); SEnd true; SBook (Pack [7]); SEnqueue 0].

