(* ===== verification/Subscribers.v ===== *)
(** * Subscribers: who listens to what

    src/service/streams/subscribers.rs: the registry every kind of subscription
    shares, each subscription's [id], [seq] and [gap], and the push that never
    waits.  An operation under the registry's lock is one function.  A send
    queue is known by its handle; the queues themselves are the sinks of
    [PackSink]. *)

From S2P Require Import Prelude Order Store PackQueue.

Notation ConnectionId := Z (only parsing).

(** ** Queues *)

(** [PackQueue::try_send] on shared queues: what was queued, in order, and what
    was not. *)
Class PackSink (S : Type) := {
  try_send : Z → bytes → S → option QueueError * S;
  sent : S → Z → list bytes;
  try_send_ok q p s : (try_send q p s).1 = None → sent (try_send q p s).2 q = sent s q ++ [p];
  try_send_err q p s : (try_send q p s).1 ≠ None → sent (try_send q p s).2 q = sent s q;
  try_send_other q q' p s : q' ≠ q → sent (try_send q p s).2 q' = sent s q';
  closed : S → Z → bool;
  closed_gone q p s : (try_send q p s).1 = Some Gone → closed s q = true;
  closed_err q p s : closed s q = true → (try_send q p s).1 ≠ None;
  closed_stays q q' p s : closed (try_send q p s).2 q' = closed s q'
}.

Section Sink.
Context {S : Type} `{!Semaphore S} {C : Type} `{!Bounded C}.

Definition answer (r : Result QueueError unit) : option QueueError := match r with Ok _ => None | Err e => Some e | Panic => Some Gone end.
Definition packs_of (os : list Outgoing) : list bytes := omap (λ o, match o with Pack p => Some p | Close _ _ => None end) os.

Definition send_on (q : Z) (p : bytes) (m : gmap Z (Line S C)) : option QueueError * gmap Z (Line S C) :=
  match m !! q with
  | None => (Some Gone, m)
  | Some l => let r := PackQueue.try_send (Pack p) (pq l) in (answer r.1, <[q := accept (Pack p) r l]> m)
  end.

(** The connections' send queues, by handle. *)
#[global] Instance queue_sink : PackSink (gmap Z (Line S C)).
Proof.
  refine {| try_send := send_on; sent m q := from_option (λ l, packs_of (accepted l)) [] (m !! q); closed m q := from_option (λ l, is_shut (packs (pq l))) true (m !! q) |};
    intros q; [intros p m|intros p m|intros q' p m Hq|intros p m|intros p m|intros q' p m]; unfold send_on;
    destruct (m !! q) as [l|] eqn:Hl; try (cbn [fst snd]; by rewrite ?Hl); pose proof (try_send_cases (Pack p) (pq l)) as [Hsame Hans];
    destruct (PackQueue.try_send (Pack p) (pq l)) as [r q1]; cbn [fst snd from_option] in *.
  - destruct Hans as [[-> _]|(e & -> & _)]; [|done]. intros _. rewrite lookup_insert_eq. cbn. unfold packs_of. by rewrite omap_app.
  - destruct Hans as [[-> _]|(e & -> & _)]; [done|]. intros _. by rewrite lookup_insert_eq.
  - by rewrite lookup_insert_ne.
  - destruct Hans as [[-> _]|(e & -> & He)]; [done|]. by intros [= ->]; apply He.
  - destruct Hans as [[-> Ho]|(e & -> & He)]; [by rewrite Ho|done].
  - destruct (decide (q' = q)) as [->|]; [by rewrite lookup_insert_eq, Hl|by rewrite lookup_insert_ne].
Defined.
End Sink.

(** ** Data *)

Record Subscriber := mkSubscriber { user : string; queue : Z; id : Z; seq : Z; gap : bool }.

Record Target := mkTarget { t_connection : ConnectionId; t_queue : Z; t_id : Z; t_seq : Z; t_gap : bool }.

Inductive Occupancy := Many | OneTheLatest.

Record Displaced := mkDisplaced { d_connection : ConnectionId; d_queue : Z; d_id : Z; d_seq : Z }.

Definition set_seq (n : Z) (s : Subscriber) : Subscriber := mkSubscriber (user s) (queue s) (id s) n (gap s).
Definition set_gap (b : bool) (s : Subscriber) : Subscriber := mkSubscriber (user s) (queue s) (id s) (seq s) b.

(** [AtomicU32::fetch_add(1)] leaves the next number, which wraps. *)
Definition next_seq (n : Z) : Z := (n + 1) mod 2 ^ 32.

Section Registry.
Context {Topic : Type} `{!EqDecision Topic} `{!Countable Topic} `{!HashOrder}.

Record Entered := mkEntered { topics_entered : list Topic; displaced : list Displaced }.

Record Registry := mkRegistry {
  topics : gmap Topic (gset ConnectionId);
  subscribers : gmap ConnectionId Subscriber;
  by_user : gmap string (gset ConnectionId);
  ended : gset ConnectionId
}.

Definition new : Registry := mkRegistry ∅ ∅ ∅ ∅.

Definition set_topics (t : gmap Topic (gset ConnectionId)) (r : Registry) : Registry := mkRegistry t (subscribers r) (by_user r) (ended r).
Definition set_subscribers (s : gmap ConnectionId Subscriber) (r : Registry) : Registry := mkRegistry (topics r) s (by_user r) (ended r).
Definition set_by_user (u : gmap string (gset ConnectionId)) (r : Registry) : Registry := mkRegistry (topics r) (subscribers r) u (ended r).
Definition set_ended (e : gset ConnectionId) (r : Registry) : Registry := mkRegistry (topics r) (subscribers r) (by_user r) e.

(** A set in a map that is dropped once it is empty. *)
Definition shrink {K : Type} `{!EqDecision K} `{!Countable K} (k : K) (c : ConnectionId) (m : gmap K (gset ConnectionId)) : gmap K (gset ConnectionId) :=
  match m !! k with
  | None => m
  | Some s => if bool_decide (s ∖ {[c]} = ∅) then delete k m else <[k := s ∖ {[c]}]> m
  end.

(** [entry(k).or_default().insert(c)] *)
Definition grow {K : Type} `{!EqDecision K} `{!Countable K} (k : K) (c : ConnectionId) (m : gmap K (gset ConnectionId)) : gmap K (gset ConnectionId) :=
  <[k := default ∅ (m !! k) ∪ {[c]}]> m.

(** ** Under the lock *)

Definition leave_topic (connection : ConnectionId) (topic : Topic) (r : Registry) : Registry :=
  set_topics (shrink topic connection (topics r)) r.

(** One connection turned out of a topic. *)
Definition displace (topic : Topic) (acc : list Displaced * Registry) (loser : ConnectionId) : list Displaced * Registry :=
  let '(out, r) := acc in
  match subscribers r !! loser with
  | Some s =>
      (out ++ [mkDisplaced loser (queue s) (id s) (seq s)],
       leave_topic loser topic (set_subscribers (<[loser := set_seq (next_seq (seq s)) s]> (subscribers r)) r))
  | None => (out, leave_topic loser topic r)
  end.

Definition take_topic_over (newcomer : ConnectionId) (topic : Topic) (r : Registry) : list Displaced * Registry :=
  match topics r !! topic with
  | None => ([], r)
  | Some holders => foldl (displace topic) ([], r) (hash_order ["take_topic_over"] (elements (holders ∖ {[newcomer]})))
  end.

Definition registry_remove_connection (connection : ConnectionId) (r : Registry) : Registry :=
  match subscribers r !! connection with
  | None => r
  | Some s =>
      mkRegistry (filter (λ x, x.2 ≠ ∅) ((λ listeners, listeners ∖ {[connection]}) <$> topics r))
        (delete connection (subscribers r)) (shrink (user s) connection (by_user r)) (ended r)
  end.

(** ** Operations *)

(** One topic of [subscribe]. *)
Definition enter_topic (occupancy : Occupancy) (connection : ConnectionId) (acc : Entered * Registry) (topic : Topic) : Entered * Registry :=
  let '(e, r) := acc in
  let '(out, r) := match occupancy with OneTheLatest => take_topic_over connection topic r | Many => ([], r) end in
  let fresh := negb (bool_decide (connection ∈ default ∅ (topics r !! topic))) in
  (mkEntered (if fresh then topics_entered e ++ [topic] else topics_entered e) (displaced e ++ out),
   set_topics (grow topic connection (topics r)) r).

Definition is_another_identity (connection : ConnectionId) (u : string) (r : Registry) : bool :=
  match subscribers r !! connection with Some existing => bool_decide (user existing ≠ u) | None => false end.

Definition refresh (u : string) (q i : Z) (existing : option Subscriber) : Subscriber :=
  match existing with
  | Some s => if id s =? i then mkSubscriber (user s) q (id s) (seq s) (gap s) else mkSubscriber (user s) q i 0 false
  | None => mkSubscriber u q i 0 false
  end.

Definition register (connection : ConnectionId) (u : string) (q i : Z) (r : Registry) : Registry :=
  let r := if is_another_identity connection u r then registry_remove_connection connection r else r in
  mkRegistry (topics r) (<[connection := refresh u q i (subscribers r !! connection)]> (subscribers r))
    (grow u connection (by_user r)) (ended r).

Definition subscribe (occupancy : Occupancy) (connection : ConnectionId) (u : string) (q i : Z) (ts : list Topic) (r : Registry)
  : option Entered * Registry :=
  if bool_decide (connection ∈ ended r) then (None, r)
  else
    let '(e, r) := foldl (enter_topic occupancy connection) (mkEntered [] [], register connection u q i r) ts in
    (Some e, r).

Definition unsubscribe (connection : ConnectionId) (ts : list Topic) (r : Registry) : Registry :=
  foldl (λ r topic, leave_topic connection topic r) r ts.

Definition remove_connection (connection : ConnectionId) (r : Registry) : Registry := registry_remove_connection connection r.
Definition end_connection (connection : ConnectionId) (r : Registry) : Registry :=
  let r := registry_remove_connection connection r in set_ended (ended r ∪ {[connection]}) r.
Definition forget_connection (connection : ConnectionId) (r : Registry) : Registry :=
  let r := registry_remove_connection connection r in set_ended (ended r ∖ {[connection]}) r.

Definition is_listened (topic : Topic) (r : Registry) : bool := bool_decide (is_Some (topics r !! topic)).

Definition listeners (topic : Topic) (r : Registry) : list (ConnectionId * string) :=
  match topics r !! topic with
  | None => []
  | Some s => omap (λ c, (λ sub, (c, user sub)) <$> subscribers r !! c) (hash_order ["listeners"] (elements s))
  end.

Definition listener_count (topic : Topic) (r : Registry) : nat := match topics r !! topic with None => 0%nat | Some s => size s end.
Definition is_subscribed (connection : ConnectionId) (r : Registry) : bool := bool_decide (is_Some (subscribers r !! connection)).

Definition copy_topic (from to : Topic) (r : Registry) : Registry :=
  match topics r !! from with
  | None => r
  | Some s =>
      match filter (λ c, is_subscribed c r = true) (hash_order ["copy_topic"] (elements s)) with
      | [] => r
      | movers => set_topics (foldl (λ m c, grow to c m) (topics r) movers) r
      end
  end.

Definition leave_topic_of_user (u : string) (topic : Topic) (r : Registry) : Registry :=
  match by_user r !! u with
  | None => r
  | Some s => foldl (λ r c, leave_topic c topic r) r (hash_order ["leave_topic_of_user"] (elements s))
  end.

(** ** Pushing *)

Definition is_still_in_topic (topic : option Topic) (r : Registry) (connection : ConnectionId) : bool :=
  match topic with None => true | Some t => bool_decide (connection ∈ default ∅ (topics r !! t)) end.

(** The target of one candidate. *)
Definition take_target (topic : option Topic) (acc : list Target * Registry) (connection : ConnectionId) : list Target * Registry :=
  let '(out, r) := acc in
  if is_still_in_topic topic r connection then
    match subscribers r !! connection with
    | Some s =>
        (out ++ [mkTarget connection (queue s) (id s) (seq s) (gap s)],
         set_subscribers (<[connection := mkSubscriber (user s) (queue s) (id s) (next_seq (seq s)) false]> (subscribers r)) r)
    | None => (out, r)
    end
  else (out, r).

Definition take_targets (topic : option Topic) (connections : list ConnectionId) (r : Registry) : list Target * Registry :=
  foldl (take_target topic) ([], r) connections.

Definition mark_gap (connections : list ConnectionId) (r : Registry) : Registry :=
  foldl (λ r c, match subscribers r !! c with Some s => set_subscribers (<[c := set_gap true s]> (subscribers r)) r | None => r end) r connections.

Section Push.
Context {S : Type} `{!PackSink S}.

(** One target: the pack made and offered, or the connection to mark. *)
Definition offer (make_pack : Z → Z → bool → option bytes) (acc : list ConnectionId * S) (t : Target) : list ConnectionId * S :=
  let '(dropped, w) := acc in
  match make_pack (t_id t) (t_seq t) (t_gap t) with
  | None => (dropped ++ [t_connection t], w)
  | Some pack =>
      match try_send (t_queue t) pack w with
      | (None, w) | (Some Gone, w) => (dropped, w)
      | (Some _, w) => (dropped ++ [t_connection t], w)
      end
  end.

Definition push_with (topic : option Topic) (connections : list ConnectionId) (make_pack : Z → Z → bool → option bytes) (rw : Registry * S) : Registry * S :=
  let '(targets, r) := take_targets topic connections rw.1 in
  let '(dropped, w) := foldl (offer make_pack) ([], rw.2) targets in
  (mark_gap dropped r, w).

Definition send_pack_to_topic (topic : Topic) (connections : list ConnectionId) (pack : bytes) (r : Registry) (w : S) : S :=
  match topics r !! topic with
  | None => w
  | Some s =>
      foldl (λ w c, match subscribers r !! c with Some sub => (try_send (queue sub) pack w).2 | None => w end) w (filter (λ c, c ∈ s) connections)
  end.

Definition send_pack (connection : ConnectionId) (pack : bytes) (r : Registry) (w : S) : bool * S :=
  match subscribers r !! connection with
  | Some sub => let '(res, w) := try_send (queue sub) pack w in (match res with None => true | _ => false end, w)
  | None => (false, w)
  end.
End Push.

(** ** Sets in maps *)

Section Sets.
Context {K : Type} `{!EqDecision K} `{!Countable K}.

Definition at_ (m : gmap K (gset ConnectionId)) (k : K) : gset ConnectionId := default ∅ (m !! k).
Definition dense (m : gmap K (gset ConnectionId)) : Prop := ∀ k s, m !! k = Some s → s ≠ ∅.

Lemma at_shrink k c m k' : at_ (shrink k c m) k' = if decide (k' = k) then at_ m k ∖ {[c]} else at_ m k'.
Proof.
  unfold shrink, at_. destruct (m !! k) as [s|] eqn:Hk.
  - case_bool_decide as He; case_decide as Hd; subst.
    + rewrite lookup_delete_eq. cbn. by rewrite He.
    + by rewrite lookup_delete_ne.
    + by rewrite lookup_insert_eq.
    + by rewrite lookup_insert_ne.
  - case_decide; subst; [|done]. rewrite Hk. cbn. apply leibniz_equiv. intros x. rewrite elem_of_difference. split; [by intros ?%elem_of_empty|by intros [?%elem_of_empty _]].
Qed.

Lemma dense_shrink k c m : dense m → dense (shrink k c m).
Proof.
  intros Hm. unfold shrink. destruct (m !! k) as [s|] eqn:Hk; [|done]. case_bool_decide as He; intros k' s'.
  - intros [_ Hs]%lookup_delete_Some. by eapply Hm.
  - intros [[<- <-]|[_ Hs]]%lookup_insert_Some; [done|by eapply Hm].
Qed.

Lemma at_grow k c m k' : at_ (grow k c m) k' = if decide (k' = k) then at_ m k ∪ {[c]} else at_ m k'.
Proof. unfold grow, at_. case_decide; subst; [by rewrite lookup_insert_eq|by rewrite lookup_insert_ne]. Qed.

Lemma dense_grow k c m : dense m → dense (grow k c m).
Proof. intros Hm k' s'. unfold grow. intros [[<- <-]|[_ Hs]]%lookup_insert_Some; [|by eapply Hm]. intros He. apply (not_elem_of_empty (C := gset ConnectionId) c). rewrite <-He. apply elem_of_union. right. by apply elem_of_singleton. Qed.

Lemma elem_at_shrink k c m k' x : x ∈ at_ (shrink k c m) k' ↔ x ∈ at_ m k' ∧ ¬ (k' = k ∧ x = c).
Proof.
  rewrite at_shrink. case_decide; subst; [|naive_solver]. rewrite elem_of_difference, elem_of_singleton. naive_solver.
Qed.

Lemma elem_at_grow k c m k' x : x ∈ at_ (grow k c m) k' ↔ x ∈ at_ m k' ∨ (k' = k ∧ x = c).
Proof. rewrite at_grow. case_decide; subst; [|naive_solver]. rewrite elem_of_union, elem_of_singleton. naive_solver. Qed.
End Sets.

(** ** The invariant *)

Record wf (r : Registry) : Prop := {
  wf_topics : dense (topics r);
  wf_users : dense (by_user r);
  wf_listed : ∀ t c, c ∈ at_ (topics r) t → is_Some (subscribers r !! c);
  wf_by_user : ∀ u c, c ∈ at_ (by_user r) u ↔ ∃ s, subscribers r !! c = Some s ∧ user s = u;
  wf_ended : ∀ c, c ∈ ended r → subscribers r !! c = None;
  wf_seq : ∀ c s, subscribers r !! c = Some s → 0 ≤ seq s < 2 ^ 32
}.

Lemma wf_new : wf new.
Proof.
  split; cbn; [done|done| | |done|done].
  - intros t c Hc. by apply elem_of_empty in Hc.
  - intros u c. split; [intros Hc; by apply elem_of_empty in Hc|by intros (s & Hs & _)].
Qed.

(** Leaving a topic. *)
Lemma elem_leave c topic r t x : x ∈ at_ (topics (leave_topic c topic r)) t ↔ x ∈ at_ (topics r) t ∧ ¬ (t = topic ∧ x = c).
Proof. apply elem_at_shrink. Qed.

Lemma wf_leave c topic r : wf r → wf (leave_topic c topic r).
Proof.
  intros [Ht Hu Hl Hb He Hs]. split; try done; [by apply dense_shrink|].
  intros t x [Hx _]%elem_leave. by eapply Hl.
Qed.

(** A connection forgotten. *)
Lemma at_removed c (m : gmap Topic (gset ConnectionId)) t :
  at_ (filter (λ x, x.2 ≠ ∅) ((λ listeners, listeners ∖ {[c]}) <$> m)) t = at_ m t ∖ {[c]}.
Proof.
  unfold at_. rewrite map_lookup_filter, lookup_fmap. destruct (m !! t) as [s|]; cbn.
  - case_guard as Hg; cbn; [done|]. by destruct (decide (s ∖ {[c]} = ∅)).
  - apply leibniz_equiv. intros x. rewrite elem_of_difference. split; [by intros ?%elem_of_empty|by intros [?%elem_of_empty _]].
Qed.

Lemma elem_remove c r t x : wf r → x ∈ at_ (topics (registry_remove_connection c r)) t ↔ x ∈ at_ (topics r) t ∧ x ≠ c.
Proof.
  intros Hw. unfold registry_remove_connection. destruct (subscribers r !! c) as [s|] eqn:Hc; cbn [topics].
  - by rewrite at_removed, elem_of_difference, elem_of_singleton.
  - split; [|by intros [? _]]. intros Hx. split; [done|]. intros ->. destruct (wf_listed r Hw t c Hx) as [s Hs]. by rewrite Hc in Hs.
Qed.

Lemma remove_subscribers c r x : subscribers (registry_remove_connection c r) !! x = if decide (x = c) then None else subscribers r !! x.
Proof.
  unfold registry_remove_connection. destruct (subscribers r !! c) as [s|] eqn:Hc; cbn [subscribers]; case_decide; subst; [by rewrite lookup_delete_eq|by rewrite lookup_delete_ne|done|done].
Qed.

Lemma remove_ended c r : ended (registry_remove_connection c r) = ended r.
Proof. unfold registry_remove_connection. by destruct (subscribers r !! c). Qed.

Lemma wf_remove c r : wf r → wf (registry_remove_connection c r).
Proof.
  intros Hw. pose proof Hw as [Ht Hu Hl Hb He Hs]. split.
  - unfold registry_remove_connection. destruct (subscribers r !! c); [|done]. cbn [topics]. intros t s1 [_ Hg]%map_lookup_filter_Some. done.
  - unfold registry_remove_connection. destruct (subscribers r !! c); [|done]. by apply dense_shrink.
  - intros t x [Hx Hne]%elem_remove; [|done]. rewrite remove_subscribers, decide_False by done. by eapply Hl.
  - intros u x. rewrite remove_subscribers. unfold registry_remove_connection. destruct (subscribers r !! c) as [s|] eqn:Hc; cbn [by_user].
    + rewrite elem_at_shrink, Hb. case_decide as Hd; subst; [|naive_solver].
      split; [|by intros (? & ? & _)]. intros [(s' & Hs' & Hu') Hn]. destruct Hn. split; [congruence|done].
    + rewrite Hb. case_decide; subst; [|done]. rewrite Hc. split; by intros (? & ? & _).
  - intros x. rewrite remove_ended, remove_subscribers. intros Hx%He. by case_decide.
  - intros x s. rewrite remove_subscribers. case_decide; [done|]. apply Hs.
Qed.

Lemma wf_end c r : wf r → wf (end_connection c r).
Proof.
  intros Hw. pose proof (wf_remove c r Hw) as [Ht Hu Hl Hb He Hs]. split; try done. cbn [end_connection set_ended ended].
  intros x [Hx| ->%elem_of_singleton]%elem_of_union; [by apply He|]. unfold end_connection. cbn [subscribers set_ended]. by rewrite remove_subscribers, decide_True.
Qed.

Lemma wf_forget c r : wf r → wf (forget_connection c r).
Proof.
  intros Hw. pose proof (wf_remove c r Hw) as [Ht Hu Hl Hb He Hs]. split; try done. cbn [forget_connection set_ended ended].
  intros x [Hx _]%elem_of_difference. by apply He.
Qed.

(** A connection registered. *)
Lemma register_subscriber c u q i r x :
  subscribers (register c u q i r) !! x = if decide (x = c) then Some (refresh u q i (if is_another_identity c u r then None else subscribers r !! c)) else subscribers r !! x.
Proof.
  unfold register. destruct (is_another_identity c u r); cbn [subscribers]; case_decide; subst.
  - by rewrite lookup_insert_eq, remove_subscribers, decide_True.
  - by rewrite lookup_insert_ne, remove_subscribers, decide_False.
  - by rewrite lookup_insert_eq.
  - by rewrite lookup_insert_ne.
Qed.

Lemma refresh_user c u q i r : user (refresh u q i (if is_another_identity c u r then None else subscribers r !! c)) = u.
Proof.
  unfold is_another_identity. destruct (subscribers r !! c) as [s|] eqn:Hc; [|by cbn]. case_bool_decide as Hd; cbn [refresh]; [done|].
  by destruct (id s =? i).
Qed.

Lemma elem_register c u q i r t x :
  wf r → x ∈ at_ (topics (register c u q i r)) t ↔ x ∈ at_ (topics r) t ∧ ¬ (x = c ∧ is_another_identity c u r = true).
Proof.
  intros Hw. unfold register. destruct (is_another_identity c u r) eqn:Hi; cbn [topics]; [rewrite elem_remove by done; naive_solver|]. naive_solver.
Qed.

Lemma wf_register c u q i r : wf r → c ∉ ended r → wf (register c u q i r).
Proof.
  intros Hw Hc. pose proof (refresh_user c u q i r) as Hu. pose proof (register_subscriber c u q i r) as Hsub.
  set (r1 := if is_another_identity c u r then registry_remove_connection c r else r).
  assert (Hw1 : wf r1) by (unfold r1; destruct (is_another_identity c u r); [by apply wf_remove|done]).
  assert (Hother : ∀ s, subscribers r1 !! c = Some s → user s = u).
  { unfold r1, is_another_identity. destruct (subscribers r !! c) as [s|] eqn:Hs; [|by rewrite Hs]. case_bool_decide as Hd; intros s'.
    - by rewrite remove_subscribers, decide_True.
    - rewrite Hs. by intros [= <-]. }
  pose proof Hw1 as [Ht Hus Hl Hb He Hs]. split.
  - done.
  - by apply dense_grow.
  - intros t x Hx. change (topics (register c u q i r)) with (topics r1) in Hx. rewrite Hsub. case_decide; subst; [by eexists|].
    apply Hl in Hx. unfold r1 in Hx. destruct (is_another_identity c u r); [by rewrite remove_subscribers, decide_False in Hx|done].
  - intros u' x. change (by_user (register c u q i r)) with (grow u c (by_user r1)). rewrite elem_at_grow, Hb.
    change (subscribers (register c u q i r)) with (<[c := refresh u q i (subscribers r1 !! c)]> (subscribers r1)).
    destruct (decide (x = c)) as [->|Hne].
    + rewrite lookup_insert_eq. split.
      * intros [(s & Hs' & Hu')|[-> _]]; eexists; (split; [done|]); [rewrite Hs'; cbn; destruct (id s =? i); cbn; done|].
        destruct (subscribers r1 !! c) as [s|] eqn:Hs'; cbn [refresh]; [|done]. pose proof (Hother s eq_refl). by destruct (id s =? i).
      * intros (s & [= <-] & Hu'). right. split; [|done]. rewrite <-Hu'. destruct (subscribers r1 !! c) as [s|] eqn:Hs'; cbn [refresh]; [|done].
        pose proof (Hother s eq_refl). by destruct (id s =? i).
    + rewrite lookup_insert_ne by done. naive_solver.
  - intros x Hx. rewrite Hsub. assert (Hx' : x ∈ ended r) by (revert Hx; unfold register; destruct (is_another_identity c u r); cbn [ended]; by rewrite ?remove_ended).
    case_decide; subst; [done|by apply (wf_ended r Hw)].
  - intros x s. change (subscribers (register c u q i r)) with (<[c := refresh u q i (subscribers r1 !! c)]> (subscribers r1)).
    intros [[<- <-]|[_ Hx]]%lookup_insert_Some; [|by eapply Hs]. destruct (subscribers r1 !! c) as [s|] eqn:Hs'; cbn [refresh]; [|cbn; lia].
    destruct (id s =? i); cbn [seq]; [by eapply Hs|lia].
Qed.

(** Registries that agree on who is who. *)
Definition who (s : Subscriber) : string * Z * Z := (user s, queue s, id s).
Record keeps (r r' : Registry) : Prop := {
  keeps_users : by_user r' = by_user r;
  keeps_ended : ended r' = ended r;
  keeps_who : ∀ x, who <$> subscribers r' !! x = who <$> subscribers r !! x
}.

Lemma keeps_refl r : keeps r r.
Proof. done. Qed.
Lemma keeps_trans r1 r2 r3 : keeps r1 r2 → keeps r2 r3 → keeps r1 r3.
Proof. intros [? ? H12] [? ? H23]. split; [congruence..|]. intros x. by rewrite H23, H12. Qed.

Lemma keeps_some r r' x : keeps r r' → is_Some (subscribers r' !! x) ↔ is_Some (subscribers r !! x).
Proof. intros [_ _ Hw]. specialize (Hw x). rewrite <-(fmap_is_Some who (subscribers r' !! x)), Hw, fmap_is_Some. done. Qed.

Lemma keeps_user r r' x u : keeps r r' → (∃ s, subscribers r' !! x = Some s ∧ user s = u) ↔ (∃ s, subscribers r !! x = Some s ∧ user s = u).
Proof.
  intros [_ _ Hw]. specialize (Hw x). unfold who in Hw. destruct (subscribers r' !! x) as [s'|], (subscribers r !! x) as [s|]; cbn in Hw; try done.
  injection Hw as Hu _ _. split; intros (s0 & [= <-] & <-); eexists; (split; [done|congruence]).
Qed.

Lemma wf_keeps r r' :
  wf r → keeps r r' → dense (topics r') → (∀ t x, x ∈ at_ (topics r') t → is_Some (subscribers r !! x)) →
  (∀ c s, subscribers r' !! c = Some s → 0 ≤ seq s < 2 ^ 32) → wf r'.
Proof.
  intros [Ht Hu Hl Hb He Hs] Hk Hd Hin Hseq. pose proof Hk as [Hk1 Hk2 Hk3]. split; [done|by rewrite Hk1| | | |done].
  - intros t x Hx. rewrite (keeps_some r r'); [|done]. by eapply Hin.
  - intros u x. by rewrite Hk1, Hb, (keeps_user r r').
  - intros x. rewrite Hk2. intros Hx%He. apply eq_None_not_Some. rewrite (keeps_some r r') by done. rewrite Hx. by intros [].
Qed.

Lemma next_seq_range n : 0 ≤ next_seq n < 2 ^ 32.
Proof. apply Z.mod_pos_bound. lia. Qed.

(** Connections turned out of a topic. *)
Lemma displace_spec topic out r loser :
  wf r → is_Some (subscribers r !! loser) →
  ∃ d r', displace topic (out, r) loser = (out ++ [d], r') ∧ d_connection d = loser ∧ wf r' ∧ keeps r r'
    ∧ ∀ t x, x ∈ at_ (topics r') t ↔ x ∈ at_ (topics r) t ∧ ¬ (t = topic ∧ x = loser).
Proof.
  intros Hw [s Hs]. unfold displace. rewrite Hs. eexists _, _. split; [reflexivity|]. split; [done|].
  set (r1 := set_subscribers _ r).
  assert (Hk : keeps r r1).
  { split; [done..|]. intros x. cbn [subscribers r1 set_subscribers]. destruct (decide (x = loser)) as [->|Hne]; [by rewrite lookup_insert_eq, Hs|by rewrite lookup_insert_ne]. }
  assert (Hw1 : wf r1).
  { apply (wf_keeps r); [done|done|apply Hw|apply Hw|]. cbn [subscribers r1 set_subscribers]. intros c s' [[<- <-]|[_ Hs']]%lookup_insert_Some; [apply next_seq_range|by eapply Hw]. }
  split; [by apply wf_leave|]. split; [destruct Hk; by split|]. intros t x. exact (elem_leave loser topic r1 t x).
Qed.

Lemma displace_all topic losers out r :
  wf r → (∀ x, x ∈ losers → is_Some (subscribers r !! x)) →
  ∃ ds r', foldl (displace topic) (out, r) losers = (out ++ ds, r') ∧ d_connection <$> ds = losers ∧ wf r' ∧ keeps r r'
    ∧ ∀ t x, x ∈ at_ (topics r') t ↔ x ∈ at_ (topics r) t ∧ ¬ (t = topic ∧ x ∈ losers).
Proof.
  revert out r. induction losers as [|loser losers IH]; intros out r Hw Hl.
  { exists [], r. rewrite app_nil_r. split_and!; [done..|]. intros t x. split; [|by intros [? _]]. intros ?. split; [done|]. by intros [_ ?%not_elem_of_nil]. }
  destruct (displace_spec topic out r loser Hw) as (d & r1 & Hd & Hc & Hw1 & Hk1 & Hm1); [apply Hl; left|].
  cbn [foldl]. rewrite Hd. destruct (IH (out ++ [d]) r1 Hw1) as (ds & r' & Hrun & Hcs & Hw' & Hk' & Hm').
  { intros x Hx. rewrite (keeps_some r r1) by done. apply Hl. by right. }
  exists (d :: ds), r'. rewrite Hrun, <-app_assoc. split_and!; [done|cbn; by rewrite Hc, Hcs|done|by eapply keeps_trans|].
  intros t x. rewrite Hm', Hm1, elem_of_cons. naive_solver.
Qed.

Lemma take_over_spec newcomer topic r :
  wf r →
  ∃ ds r', take_topic_over newcomer topic r = (ds, r') ∧ wf r' ∧ keeps r r'
    ∧ (∀ x, x ∈ d_connection <$> ds ↔ x ∈ at_ (topics r) topic ∧ x ≠ newcomer)
    ∧ ∀ t x, x ∈ at_ (topics r') t ↔ x ∈ at_ (topics r) t ∧ (t = topic → x = newcomer).
Proof.
  intros Hw. unfold take_topic_over. pose proof (wf_listed r Hw topic) as Hl. unfold at_ in Hl |- * at 1. destruct (topics r !! topic) as [holders|] eqn:Ht; cbn [default] in *.
  - set (losers := hash_order ["take_topic_over"] (elements (holders ∖ {[newcomer]}))).
    assert (Hin : ∀ x, x ∈ losers ↔ x ∈ holders ∧ x ≠ newcomer).
    { intros x. unfold losers. by rewrite elem_of_hash_order, elem_of_elements, elem_of_difference, elem_of_singleton. }
    destruct (displace_all topic losers [] r Hw) as (ds & r' & Hrun & Hc & Hw' & Hk & Hm); [intros x [Hx _]%Hin; by apply Hl|].
    exists ds, r'. split_and!; [done|done|done|intros x; by rewrite Hc, Hin|]. intros t x. rewrite Hm, Hin. split.
    + intros [Hx Hn]. split; [done|]. intros ->. destruct (decide (x = newcomer)); [done|]. destruct Hn. split; [done|]. split; [|done]. unfold at_ in Hx. by rewrite Ht in Hx.
    + intros [Hx Hn]. split; [done|]. intros [-> [_ Hne]]. by apply Hne, Hn.
  - exists [], r. split_and!; [done|done|done| |].
    + intros x. split; [by intros ?%not_elem_of_nil|by intros [?%elem_of_empty _]].
    + intros t x. split; [|by intros [? _]]. intros Hx. split; [done|]. intros ->. unfold at_ in Hx. rewrite Ht in Hx. by apply elem_of_empty in Hx.
Qed.

(** ** Subscribing *)

Definition exclusive (r : Registry) : Prop := ∀ t x y, x ∈ at_ (topics r) t → y ∈ at_ (topics r) t → x = y.

(** Who is in a topic once [c] has entered it. *)
Definition entered_in (occ : Occupancy) (c : ConnectionId) (r : Registry) (ts : list Topic) (t : Topic) (x : ConnectionId) : Prop :=
  (x ∈ at_ (topics r) t ∧ (occ = OneTheLatest → t ∈ ts → x = c)) ∨ (t ∈ ts ∧ x = c).

Lemma wf_grow t c r : wf r → is_Some (subscribers r !! c) → wf (set_topics (grow t c (topics r)) r).
Proof.
  intros [Ht Hu Hl Hb He Hs] Hc. split; try done; [by apply dense_grow|]. cbn [topics set_topics subscribers].
  intros t' x [Hx|[-> ->]]%elem_at_grow; [by eapply Hl|done].
Qed.

Lemma enter_spec occ c e r topic :
  wf r → is_Some (subscribers r !! c) →
  ∃ e' r', enter_topic occ c (e, r) topic = (e', r') ∧ wf r' ∧ keeps r r' ∧ (∀ t x, x ∈ at_ (topics r') t ↔ entered_in occ c r [topic] t x)
    ∧ topics_entered e' = topics_entered e ++ (if decide (c ∈ at_ (topics r) topic) then [] else [topic])
    ∧ (occ = Many → displaced e' = displaced e)
    ∧ (occ = OneTheLatest → ∀ x, x ∈ d_connection <$> displaced e' ↔ x ∈ d_connection <$> displaced e ∨ (x ∈ at_ (topics r) topic ∧ x ≠ c)).
Proof.
  intros Hw Hc. unfold enter_topic.
  assert (Hout : ∃ ds r1, match occ with OneTheLatest => take_topic_over c topic r | Many => ([], r) end = (ds, r1) ∧ wf r1 ∧ keeps r r1
    ∧ (∀ t x, x ∈ at_ (topics r1) t ↔ x ∈ at_ (topics r) t ∧ (occ = OneTheLatest → t = topic → x = c))
    ∧ (occ = Many → ds = []) ∧ (occ = OneTheLatest → ∀ x, x ∈ d_connection <$> ds ↔ x ∈ at_ (topics r) topic ∧ x ≠ c)).
  { destruct occ; [exists [], r; split_and!; try done; naive_solver|].
    destruct (take_over_spec c topic r Hw) as (ds & r1 & Hrun & Hw1 & Hk & Hd & Hm). exists ds, r1. split_and!; try done. naive_solver. }
  destruct Hout as (ds & r1 & -> & Hw1 & Hk & Hm & Hmany & Hone). eexists _, _. split; [reflexivity|].
  split; [apply wf_grow; [done|by rewrite (keeps_some r r1)]|]. split; [destruct Hk; by split|]. split; [|split; [|split]].
  - intros t x. cbn [topics set_topics]. rewrite elem_at_grow, Hm. unfold entered_in. rewrite list_elem_of_singleton. naive_solver.
  - cbn [topics_entered]. assert (Hiff : c ∈ at_ (topics r1) topic ↔ c ∈ at_ (topics r) topic) by (rewrite Hm; naive_solver).
    unfold at_ in Hiff at 1. case_bool_decide as Hin; case_decide as Hin'; cbn [negb]; rewrite ?app_nil_r; try done; by apply Hiff in Hin || (destruct Hin; by apply Hiff).
  - intros Ho. cbn [displaced]. by rewrite (Hmany Ho), app_nil_r.
  - intros Ho x. cbn [displaced]. rewrite fmap_app, elem_of_app, (Hone Ho). done.
Qed.

Lemma enter_all occ c ts e r :
  wf r → is_Some (subscribers r !! c) →
  ∃ e' r', foldl (enter_topic occ c) (e, r) ts = (e', r') ∧ wf r' ∧ keeps r r' ∧ (∀ t x, x ∈ at_ (topics r') t ↔ entered_in occ c r ts t x)
    ∧ (∀ t, t ∈ topics_entered e' ↔ t ∈ topics_entered e ∨ (t ∈ ts ∧ c ∉ at_ (topics r) t))
    ∧ (occ = Many → displaced e' = displaced e)
    ∧ (occ = OneTheLatest → ∀ x, x ∈ d_connection <$> displaced e' ↔ x ∈ d_connection <$> displaced e ∨ (x ≠ c ∧ ∃ t, t ∈ ts ∧ x ∈ at_ (topics r) t)).
Proof.
  revert e r. induction ts as [|topic ts IH]; intros e r Hw Hc.
  { exists e, r. split_and!; try done.
    - intros t x. unfold entered_in. split; [|by intros [[? _]|[?%not_elem_of_nil _]]]. intros Hx. left. split; [done|]. by intros _ ?%not_elem_of_nil.
    - intros t. split; [by left|]. by intros [?|[?%not_elem_of_nil _]].
    - intros _ x. split; [by left|]. by intros [?|[_ (t & ?%not_elem_of_nil & _)]]. }
  destruct (enter_spec occ c e r topic Hw Hc) as (e1 & r1 & Hrun & Hw1 & Hk1 & Hm1 & Ht1 & Hmany1 & Hone1).
  cbn [foldl]. rewrite Hrun. destruct (IH e1 r1 Hw1) as (e' & r' & Hrun' & Hw' & Hk' & Hm' & Ht' & Hmany' & Hone'); [by rewrite (keeps_some r r1)|].
  assert (Hstep : ∀ t x, x ∈ at_ (topics r1) t ↔ (x ∈ at_ (topics r) t ∧ (occ = OneTheLatest → t = topic → x = c)) ∨ (t = topic ∧ x = c)).
  { intros t x. rewrite Hm1. unfold entered_in. by rewrite list_elem_of_singleton. }
  exists e', r'. split_and!; [done|done|by eapply keeps_trans| | | |].
  - intros t x. rewrite Hm'. unfold entered_in. rewrite Hstep, elem_of_cons. clear. destruct (decide (t = topic)); tauto.
  - intros t. rewrite Ht', Ht1, elem_of_app, elem_of_cons. assert (Hself : c ∈ at_ (topics r1) t ↔ c ∈ at_ (topics r) t ∨ t = topic) by (rewrite Hstep; clear; tauto).
    rewrite Hself. destruct (decide (t = topic)) as [->|Hne]; case_decide as Hin; rewrite ?elem_of_nil, ?list_elem_of_singleton; clear -Hin Hne || clear -Hin; tauto.
  - intros Ho. by rewrite (Hmany' Ho), (Hmany1 Ho).
  - intros Ho x. rewrite (Hone' Ho), (Hone1 Ho). split.
    + intros [[Hx|[Hx Hne]]|[Hne (t & Ht & Hx)]]; [by left|right; split; [done|]; exists topic; split; [left|done]|].
      right. split; [done|]. exists t. split; [by right|]. apply Hstep in Hx as [[? _]|[_ ?]]; done.
    + intros [Hx|[Hne (t & [->|Ht]%elem_of_cons & Hx)]]; [by left; left|left; right; done|].
      destruct (decide (t = topic)) as [->|Hd]; [left; right; done|]. right. split; [done|]. exists t. split; [done|]. apply Hstep. left. done.
Qed.

Lemma refused_spec occ c u q i ts r : c ∈ ended r → subscribe occ c u q i ts r = (None, r).
Proof. intros Hc. unfold subscribe. by rewrite bool_decide_true. Qed.

Lemma register_who c u q i r : ∃ s, subscribers (register c u q i r) !! c = Some s ∧ who s = (u, q, i).
Proof.
  eexists. rewrite register_subscriber, decide_True by done. split; [reflexivity|]. unfold who. rewrite refresh_user.
  destruct (if is_another_identity c u r then None else subscribers r !! c) as [s|]; [|done]. cbn [refresh]. by destruct (Z.eqb_spec (id s) i) as [->|].
Qed.

Lemma register_ended c u q i r : ended (register c u q i r) = ended r.
Proof. unfold register. destruct (is_another_identity c u r); [apply remove_ended|done]. Qed.

(** What a topic holds before [c] enters: another identity's entries are gone. *)
Definition before (c : ConnectionId) (u : string) (r : Registry) (t : Topic) (x : ConnectionId) : Prop :=
  x ∈ at_ (topics r) t ∧ ¬ (x = c ∧ is_another_identity c u r = true).

Lemma subscribe_spec occ c u q i ts r :
  wf r → c ∉ ended r →
  ∃ e r', subscribe occ c u q i ts r = (Some e, r') ∧ wf r' ∧ ended r' = ended r
    ∧ (∃ s, subscribers r' !! c = Some s ∧ who s = (u, q, i))
    ∧ (∀ x, x ≠ c → who <$> subscribers r' !! x = who <$> subscribers r !! x)
    ∧ (∀ t x, x ∈ at_ (topics r') t ↔ (before c u r t x ∧ (occ = OneTheLatest → t ∈ ts → x = c)) ∨ (t ∈ ts ∧ x = c))
    ∧ (∀ t, t ∈ topics_entered e ↔ t ∈ ts ∧ ¬ before c u r t c)
    ∧ (occ = Many → displaced e = [])
    ∧ (occ = OneTheLatest → ∀ x, x ∈ d_connection <$> displaced e ↔ x ≠ c ∧ ∃ t, t ∈ ts ∧ x ∈ at_ (topics r) t).
Proof.
  intros Hw Hc. unfold subscribe. rewrite bool_decide_false by done. pose proof (register_who c u q i r) as (s & Hs & Hwho).
  destruct (enter_all occ c ts (mkEntered [] []) (register c u q i r) (wf_register c u q i r Hw Hc)) as (e & r' & Hrun & Hw' & Hk & Hm & Ht & Hmany & Hone); [by eexists|].
  assert (Hreg : ∀ t x, x ∈ at_ (topics (register c u q i r)) t ↔ before c u r t x) by (intros; by apply elem_register).
  rewrite Hrun. exists e, r'. destruct Hk as [_ Hke Hkw]. split_and!; [done|done|by rewrite Hke, register_ended| | | | |done|].
  - specialize (Hkw c). rewrite Hs in Hkw. destruct (subscribers r' !! c) as [s'|]; [|done]. exists s'. injection Hkw as Hkw. split; [done|]. unfold who in *. congruence.
  - intros x Hx. by rewrite Hkw, register_subscriber, decide_False.
  - intros t x. rewrite Hm. unfold entered_in. by rewrite Hreg.
  - intros t. rewrite Ht, Hreg. cbn [topics_entered]. split; [by intros [?%not_elem_of_nil|?]|by right].
  - intros Ho x. rewrite (Hone Ho). cbn [displaced fmap list_fmap]. setoid_rewrite Hreg. unfold before. split; [intros [?%not_elem_of_nil|[? (t & ? & ? & _)]]; [done|by eauto]|].
    intros [Hx (t & Ht' & Hin)]. right. split; [done|]. exists t. split_and!; [done..|]. by intros [? _].
Qed.

(** The to-device rule: the latest connection alone holds what it names. *)
Lemma subscribe_exclusive c u q i ts r :
  wf r → exclusive r → exclusive (subscribe OneTheLatest c u q i ts r).2.
Proof.
  intros Hw Hx. destruct (decide (c ∈ ended r)) as [Hc|Hc]; [by rewrite refused_spec|].
  destruct (subscribe_spec OneTheLatest c u q i ts r Hw Hc) as (e & r' & -> & _ & _ & _ & _ & Hm & _). cbn [snd].
  intros t x y [[[Hx1 _] Hx2]|[Hx1 ->]]%Hm [[[Hy1 _] Hy2]|[Hy1 ->]]%Hm.
  - by eapply Hx.
  - by rewrite Hx2.
  - by rewrite Hy2.
  - done.
Qed.

(** ** Leaving *)

Lemma unsubscribe_spec c ts r :
  wf r → wf (unsubscribe c ts r) ∧ keeps r (unsubscribe c ts r)
  ∧ ∀ t x, x ∈ at_ (topics (unsubscribe c ts r)) t ↔ x ∈ at_ (topics r) t ∧ ¬ (t ∈ ts ∧ x = c).
Proof.
  unfold unsubscribe. revert r. induction ts as [|topic ts IH]; intros r Hw; cbn [foldl].
  { split_and!; [done|apply keeps_refl|]. intros t x. split; [|by intros [? _]]. intros Hx. split; [done|]. by intros [?%not_elem_of_nil _]. }
  destruct (IH (leave_topic c topic r) (wf_leave c topic r Hw)) as (Hw' & [? ? ?] & Hm). split_and!; [done|by split|].
  intros t x. rewrite Hm, elem_leave, elem_of_cons. naive_solver.
Qed.

Lemma evict_spec u topic r :
  wf r → wf (leave_topic_of_user u topic r) ∧ keeps r (leave_topic_of_user u topic r)
  ∧ ∀ t x, x ∈ at_ (topics (leave_topic_of_user u topic r)) t ↔ x ∈ at_ (topics r) t ∧ ¬ (t = topic ∧ ∃ s, subscribers r !! x = Some s ∧ user s = u).
Proof.
  intros Hw. unfold leave_topic_of_user. pose proof (wf_by_user r Hw u) as Hb. unfold at_ in Hb. destruct (by_user r !! u) as [s|]; cbn [default] in Hb.
  - assert (Hfold : ∀ l r0, wf r0 → let r' := foldl (λ r c, leave_topic c topic r) r0 l in wf r' ∧ keeps r0 r'
      ∧ ∀ t x, x ∈ at_ (topics r') t ↔ x ∈ at_ (topics r0) t ∧ ¬ (t = topic ∧ x ∈ l)).
    { intros l. induction l as [|c l IH]; intros r0 Hw0; cbn [foldl].
      - split_and!; [done|apply keeps_refl|]. intros t x. split; [|by intros [? _]]. intros Hx. split; [done|]. by intros [_ ?%not_elem_of_nil].
      - destruct (IH (leave_topic c topic r0) (wf_leave c topic r0 Hw0)) as (Hw' & [? ? ?] & Hm). split_and!; [done|by split|].
        intros t x. rewrite Hm, elem_leave, elem_of_cons. naive_solver. }
    destruct (Hfold (hash_order ["leave_topic_of_user"] (elements s)) r Hw) as (Hw' & Hk & Hm). split_and!; [done|done|].
    intros t x. rewrite Hm, elem_of_hash_order, elem_of_elements. cbn in Hb. by rewrite Hb.
  - split_and!; [done|apply keeps_refl|]. intros t x. split; [|by intros [? _]]. intros Hx. split; [done|]. intros [_ Hs%Hb]. by apply elem_of_empty in Hs.
Qed.

Lemma copy_spec from to r :
  wf r → wf (copy_topic from to r) ∧ keeps r (copy_topic from to r)
  ∧ ∀ t x, x ∈ at_ (topics (copy_topic from to r)) t ↔ x ∈ at_ (topics r) t ∨ (t = to ∧ x ∈ at_ (topics r) from).
Proof.
  intros Hw. unfold copy_topic. pose proof (wf_listed r Hw from) as Hl. unfold at_ in Hl. destruct (topics r !! from) as [s|] eqn:Hf; cbn [default] in Hl.
  2: { split_and!; [done|apply keeps_refl|]. intros t x. split; [by left|]. intros [?|[_ Hx]]; [done|]. unfold at_ in Hx. rewrite Hf in Hx. by apply elem_of_empty in Hx. }
  set (movers := filter _ _).
  assert (Hin : ∀ x, x ∈ movers ↔ x ∈ at_ (topics r) from).
  { intros x. unfold movers, at_. rewrite Hf, list_elem_of_filter, elem_of_hash_order, elem_of_elements. unfold is_subscribed. rewrite bool_decide_eq_true. cbn. naive_solver. }
  assert (Hfold : ∀ l r0, wf r0 → (∀ x, x ∈ l → is_Some (subscribers r0 !! x)) → let r' := set_topics (foldl (λ m c, grow to c m) (topics r0) l) r0 in wf r' ∧ keeps r0 r'
    ∧ ∀ t x, x ∈ at_ (topics r') t ↔ x ∈ at_ (topics r0) t ∨ (t = to ∧ x ∈ l)).
  { intros l. induction l as [|c l IH]; intros r0 Hw0 Hs0; cbn [foldl].
    - split_and!; [by destruct r0|by split|]. intros t x. split; [by left|]. by intros [?|[_ ?%not_elem_of_nil]].
    - destruct (IH (set_topics (grow to c (topics r0)) r0)) as (Hw' & [? ? ?] & Hm); [by apply wf_grow; [|apply Hs0; left]|intros x Hx; apply Hs0; by right|].
      split_and!; [done|by split|]. intros t x. rewrite Hm. cbn [topics set_topics]. rewrite elem_at_grow, elem_of_cons. naive_solver. }
  destruct (Hfold movers r Hw) as (Hw' & Hk & Hm); [intros x Hx%Hin; by eapply wf_listed|].
  clearbody movers. destruct movers as [|m0 ms].
  - split_and!; [done|apply keeps_refl|]. intros t x. rewrite <-Hin. split; [by left|]. by intros [?|[_ ?%not_elem_of_nil]].
  - split_and!; [done|done|]. intros t x. by rewrite Hm, Hin.
Qed.

(** ** Targets *)

Definition taken (s : Subscriber) : Subscriber := mkSubscriber (user s) (queue s) (id s) (next_seq (seq s)) false.
Definition target_of (topic : option Topic) (r : Registry) (c : ConnectionId) : option Target :=
  if is_still_in_topic topic r c then (λ s, mkTarget c (queue s) (id s) (seq s) (gap s)) <$> subscribers r !! c else None.

Lemma take_targets_from topic connections out r :
  NoDup connections →
  ∃ r', foldl (take_target topic) (out, r) connections = (out ++ omap (target_of topic r) connections, r')
    ∧ topics r' = topics r ∧ by_user r' = by_user r ∧ ended r' = ended r
    ∧ ∀ x, subscribers r' !! x = if decide (x ∈ connections ∧ is_still_in_topic topic r x = true) then taken <$> subscribers r !! x else subscribers r !! x.
Proof.
  revert out r. induction connections as [|c connections IH]; intros out r Hnd.
  { exists r. cbn. rewrite app_nil_r. by split_and!. }
  apply NoDup_cons in Hnd as [Hnew Hnd]. cbn [foldl].
  assert (Hstep : ∃ r1, take_target topic (out, r) c = (out ++ option_list (target_of topic r c), r1) ∧ topics r1 = topics r ∧ by_user r1 = by_user r ∧ ended r1 = ended r
    ∧ ∀ x, subscribers r1 !! x = if decide (x = c ∧ is_still_in_topic topic r x = true) then taken <$> subscribers r !! x else subscribers r !! x).
  { unfold take_target, target_of. destruct (is_still_in_topic topic r c) eqn:Hin.
    - destruct (subscribers r !! c) as [s|] eqn:Hs; cbn [fmap option_fmap option_map option_list]; eexists; (split; [by rewrite ?app_nil_r|]); (split_and!; [done..|]); intros x; cbn [subscribers set_subscribers].
      + destruct (decide (x = c)) as [->|Hne]; [rewrite lookup_insert_eq, decide_True by done; by rewrite Hs|rewrite lookup_insert_ne, decide_False by naive_solver; done].
      + case_decide as Hd; [|done]. destruct Hd as [-> _]. by rewrite Hs.
    - eexists. cbn [option_list]. rewrite app_nil_r. split_and!; [done..|]. intros x. rewrite decide_False; [done|]. intros [-> ?]. congruence. }
  destruct Hstep as (r1 & -> & Ht & Hb & He & Hs). destruct (IH (out ++ option_list (target_of topic r c)) r1 Hnd) as (r' & -> & Ht' & Hb' & He' & Hs').
  assert (Hsame : ∀ x, is_still_in_topic topic r1 x = is_still_in_topic topic r x) by (intros x; unfold is_still_in_topic; by rewrite Ht).
  exists r'. split_and!; [|congruence..|].
  - f_equal. rewrite <-app_assoc. f_equal. cbn [omap list_omap]. assert (Hrest : omap (target_of topic r1) connections = omap (target_of topic r) connections).
    { clear -Hnew Hsame Hs. induction connections as [|y connections IH]; [done|]. apply not_elem_of_cons in Hnew as [Hne Hnew].
      assert (Hy : target_of topic r1 y = target_of topic r y) by (unfold target_of; rewrite Hsame, Hs, decide_False by (intros [? _]; congruence); done).
      specialize (IH Hnew). cbn in *. by rewrite Hy, IH. }
    rewrite Hrest. by destruct (target_of topic r c).
  - intros x. rewrite Hs', Hsame, Hs. destruct (decide (x = c)) as [->|Hne].
    + rewrite (decide_False (P := c ∈ connections ∧ _)) by naive_solver. destruct (is_still_in_topic topic r c) eqn:Hin;
        [rewrite !decide_True; [done|by split; [left|]|done]|rewrite !decide_False; [done|by intros []|by intros []]].
    + rewrite (decide_False (P := x = c ∧ _)) by naive_solver. destruct (decide (x ∈ connections ∧ _)) as [[? ?]|Hn]; [rewrite decide_True; [done|by split; [right|]]|].
      rewrite decide_False; [done|]. intros [[?|?]%elem_of_cons ?]; [done|by destruct Hn].
Qed.

Lemma mark_gap_spec connections r :
  topics (mark_gap connections r) = topics r ∧ by_user (mark_gap connections r) = by_user r ∧ ended (mark_gap connections r) = ended r
  ∧ ∀ x, subscribers (mark_gap connections r) !! x = if decide (x ∈ connections) then set_gap true <$> subscribers r !! x else subscribers r !! x.
Proof.
  unfold mark_gap. revert r. induction connections as [|c connections IH]; intros r; cbn [foldl].
  { by split_and!. }
  match goal with |- context [foldl _ ?r1 connections] => destruct (IH r1) as (Ht & Hb & He & Hs); set (r1' := r1) in *; assert (Hr1 : topics r1' = topics r ∧ by_user r1' = by_user r ∧ ended r1' = ended r ∧ ∀ x, subscribers r1' !! x = if decide (x = c) then set_gap true <$> subscribers r !! x else subscribers r !! x) end.
  { unfold r1'. destruct (subscribers r !! c) as [s|] eqn:Hc; (split_and!; [done..|]); intros x; cbn [subscribers set_subscribers].
    - case_decide; subst; [by rewrite lookup_insert_eq, Hc|by rewrite lookup_insert_ne].
    - case_decide; subst; [by rewrite Hc|done]. }
  destruct Hr1 as (Ht1 & Hb1 & He1 & Hs1). split_and!; [congruence..|]. intros x. rewrite Hs, Hs1.
  destruct (decide (x = c)) as [->|Hne].
  - rewrite (decide_True (P := c ∈ c :: connections)) by left. case_decide; [|done]. by destruct (subscribers r !! c).
  - destruct (decide (x ∈ connections)) as [Hin|Hin]; [rewrite decide_True; [done|by right]|rewrite decide_False; [done|]]. by intros [?|?]%elem_of_cons.
Qed.

(** ** Gaps are announced *)

Section Gaps.
Context {S : Type} `{!PackSink S} (read : bytes → Z * Z * bool).

Definition Push : Type := option Topic * list ConnectionId * (Z → Z → bool → option bytes).
Definition push_all (ps : list Push) (rw : Registry * S) : Registry * S := foldl (λ rw p, push_with p.1.1 p.1.2 p.2 rw) rw ps.

(** A push names each connection once, and its pack says what it was made of. *)
Definition push_ok (p : Push) : Prop := NoDup p.1.2 ∧ ∀ i n g pack, p.2 i n g = Some pack → read pack = (i, n, g).

(** Packs of one conversation, from the state ([n], [g]) of its counter and
    mark to the state ([n'], [g']): a pack that is not marked carries the number
    after the one before it, and nothing was dropped in between. *)
Fixpoint announced (i n : Z) (g : bool) (packs : list (Z * Z * bool)) (n' : Z) (g' : bool) : Prop :=
  match packs with
  | [] => g' = false → n' = n ∧ g = false
  | (i', m, marked) :: packs => i' = i ∧ (marked = false → m = n ∧ g = false) ∧ announced i (next_seq m) false packs n' g'
  end.

Lemma announced_app i n g l n1 g1 l' n2 g2 : announced i n g l n1 g1 → announced i n1 g1 l' n2 g2 → announced i n g (l ++ l') n2 g2.
Proof.
  revert n g. induction l as [|[[i' m] b] l IH]; intros n g; cbn [announced app].
  - intros Hl Hl'. destruct l' as [|[[i' m] b] l']; cbn [announced] in *; [|naive_solver]. intros Hg. destruct (Hl' Hg) as [-> Hg1]. by apply Hl.
  - intros (? & ? & ?) Hl'. split_and!; [done..|]. by apply IH.
Qed.

Lemma offer_others make_pack ts dropped w q c :
  (∀ t, t ∈ ts → t_queue t ≠ q ∧ t_connection t ≠ c) →
  ∃ dropped' w', foldl (offer make_pack) (dropped, w) ts = (dropped', w') ∧ sent w' q = sent w q ∧ closed w' q = closed w q ∧ (c ∈ dropped' ↔ c ∈ dropped).
Proof.
  revert dropped w. induction ts as [|t ts IH]; intros dropped w Hts; [by exists dropped, w|]. destruct (Hts t ltac:(left)) as [Hq Hc].
  assert (Hstep : ∃ d1 w1, offer make_pack (dropped, w) t = (d1, w1) ∧ sent w1 q = sent w q ∧ closed w1 q = closed w q ∧ (c ∈ d1 ↔ c ∈ dropped)).
  { assert (Hadd : c ∈ dropped ++ [t_connection t] ↔ c ∈ dropped) by (rewrite elem_of_app, list_elem_of_singleton; naive_solver).
    unfold offer. destruct (make_pack _ _ _) as [pack|]; [|by eexists _, w].
    pose proof (try_send_other (t_queue t) q pack w (not_eq_sym Hq)) as Hsent. pose proof (closed_stays (t_queue t) q pack w) as Hclosed.
    destruct (try_send (t_queue t) pack w) as [[[]|] w1]; by eexists _, w1. }
  destruct Hstep as (d1 & w1 & Hrun & Hs & Hcl & Hd). cbn [foldl]. rewrite Hrun.
  destruct (IH d1 w1) as (d' & w' & Hrun' & Hs' & Hcl' & Hd'); [intros t' Ht'; apply Hts; by right|].
  exists d', w'. split_and!; [done|congruence|congruence|by rewrite Hd'].
Qed.

(** What one push does for one connection. *)
Definition advanced (s : Subscriber) (q : Z) (w : S) (s' : Subscriber) (w' : S) : Prop :=
  who s' = who s ∧ closed w' q = closed w q
  ∧ ∃ new, sent w' q = sent w q ++ new ∧ (closed w q = true → new = [])
    ∧ (closed w q = false → announced (id s) (seq s) (gap s) (read <$> new) (seq s') (gap s')).

Definition alone (r : Registry) (c q : Z) : Prop := ∀ x s, subscribers r !! x = Some s → queue s = q → x = c.

Lemma offer_own make_pack c s dropped w :
  (∀ i n g pack, make_pack i n g = Some pack → read pack = (i, n, g)) → c ∉ dropped →
  ∃ dropped' w' new, offer make_pack (dropped, w) (mkTarget c (queue s) (id s) (seq s) (gap s)) = (dropped', w')
    ∧ sent w' (queue s) = sent w (queue s) ++ new ∧ closed w' (queue s) = closed w (queue s) ∧ (closed w (queue s) = true → new = [])
    ∧ (closed w (queue s) = false → announced (id s) (seq s) (gap s) (read <$> new) (next_seq (seq s)) (bool_decide (c ∈ dropped'))).
Proof.
  intros Hread Hout. unfold offer. cbn [t_id t_seq t_gap t_queue t_connection].
  assert (Hmark : bool_decide (c ∈ dropped ++ [c]) = true) by (apply bool_decide_eq_true; apply elem_of_app; right; left).
  destruct (make_pack _ _ _) as [pack|] eqn:Hpack; [|eexists _, w, []; rewrite app_nil_r, Hmark; by split_and!].
  pose proof (try_send_ok (queue s) pack w) as Hok. pose proof (try_send_err (queue s) pack w) as Herr. pose proof (closed_gone (queue s) pack w) as Hgone.
  pose proof (closed_err (queue s) pack w) as Hshut. pose proof (closed_stays (queue s) (queue s) pack w) as Hstay.
  destruct (try_send (queue s) pack w) as [[e|] w'] eqn:Hsend; cbn [fst snd] in *.
  - assert (Hsame : sent w' (queue s) = sent w (queue s) ++ []) by (rewrite app_nil_r; by apply Herr).
    destruct e; [|eexists _, w', []; rewrite Hmark; by split_and!..]. eexists _, w', []. split_and!; [done..|]. rewrite Hgone by done. done.
  - eexists _, w', [pack]. split_and!; [done|by apply Hok|done|intros Hc; by apply Hshut in Hc|]. intros _. rewrite list_fmap_singleton, (Hread _ _ _ _ Hpack).
    rewrite bool_decide_eq_false_2 by done. by split_and!.
Qed.

Lemma push_one p r w c s :
  push_ok p → subscribers r !! c = Some s → alone r c (queue s) →
  ∃ r' w' s', push_with p.1.1 p.1.2 p.2 (r, w) = (r', w') ∧ subscribers r' !! c = Some s' ∧ alone r' c (queue s) ∧ advanced s (queue s) w s' w'.
Proof.
  destruct p as [[topic connections] make_pack]. intros [Hnd Hread] Hs Halone. cbn [fst snd] in *. unfold push_with. cbn [fst snd].
  destruct (take_targets_from topic connections [] r Hnd) as (r1 & Htake & _ & _ & _ & Hsubs). unfold take_targets. rewrite Htake. cbn [app].
  assert (Halone' : ∀ d, alone (mark_gap d r1) c (queue s)).
  { intros d x sx. destruct (mark_gap_spec d r1) as (_ & _ & _ & ->). rewrite Hsubs. intros Hx Hq. destruct (subscribers r !! x) as [s0|] eqn:Hx0; [|by repeat case_decide].
    apply (Halone x s0 Hx0). rewrite <-Hq. by repeat case_decide; injection Hx as <-. }
  assert (Hfar : ∀ l : list ConnectionId, c ∉ l → ∀ t, t ∈ omap (target_of topic r) l → t_queue t ≠ queue s ∧ t_connection t ≠ c).
  { intros l Hl t (x & Hx & Ht)%list_elem_of_omap. unfold target_of in Ht. destruct (is_still_in_topic topic r x); [|done].
    destruct (subscribers r !! x) as [sx|] eqn:Hsx; [|done]. injection Ht as <-. cbn [t_queue t_connection]. assert (Hne : x ≠ c) by (by intros ->).
    split; [|done]. intros Hq. by apply Hne, (Halone x sx). }
  destruct (decide (c ∈ connections ∧ is_still_in_topic topic r c = true)) as [[Hin Hstill]|Hnot].
  - apply list_elem_of_split in Hin as (l1 & l2 & ->). apply NoDup_app in Hnd as (Hnd1 & Hdis & Hnd2). apply NoDup_cons in Hnd2 as [Hc2 _].
    assert (Hc1 : c ∉ l1) by (intros Hc; by apply (Hdis c Hc); left).
    rewrite omap_app, foldl_app. change (omap (target_of topic r) (c :: l2)) with (from_option (λ t, t :: omap (target_of topic r) l2) (omap (target_of topic r) l2) (target_of topic r c)).
    replace (target_of topic r c) with (Some (mkTarget c (queue s) (id s) (seq s) (gap s))) by (unfold target_of; by rewrite Hstill, Hs). cbn [from_option].
    destruct (offer_others make_pack _ [] w (queue s) c (Hfar l1 Hc1)) as (d1 & w1 & -> & Hs1 & Hcl1 & Hd1). cbn [foldl].
    destruct (offer_own make_pack c s d1 w1) as (d2 & w2 & new & Hown & Hsent & Hclosed & Hnone & Hann); [done|set_solver|]. rewrite Hown.
    destruct (offer_others make_pack _ d2 w2 (queue s) c (Hfar l2 Hc2)) as (d3 & w3 & -> & Hs3 & Hcl3 & Hd3). cbn [fst snd].
    eexists _, w3, (if bool_decide (c ∈ d2) then set_gap true (taken s) else taken s). split; [done|].
    destruct (mark_gap_spec d3 r1) as (_ & _ & _ & Hmark). rewrite Hmark, Hsubs, (decide_True (P := c ∈ _ ∧ _)) by (split; [apply elem_of_app; right; left|done]). rewrite Hs.
    split; [rewrite (decide_ext _ _ _ _ Hd3); by case_decide; case_bool_decide|]. split; [apply Halone'|].
    split_and!; [by case_bool_decide|congruence|]. exists new. split_and!; [congruence|by rewrite <-Hcl1|]. rewrite <-Hcl1. intros Hopen. specialize (Hann Hopen). by case_bool_decide.
  - destruct (offer_others make_pack (omap (target_of topic r) connections) [] w (queue s) c) as (d & w' & -> & Hsent & Hclosed & Hd).
    { destruct (decide (c ∈ connections)) as [Hin|Hout]; [|by apply Hfar]. intros t (x & Hx & Ht)%list_elem_of_omap. unfold target_of in Ht.
      destruct (is_still_in_topic topic r x) eqn:Hstill; [|done]. destruct (subscribers r !! x) as [sx|] eqn:Hsx; [|done]. injection Ht as <-. cbn [t_queue t_connection].
      assert (Hne : x ≠ c) by (by intros ->; apply Hnot). split; [|done]. intros Hq. by apply Hne, (Halone x sx). }
    cbn [fst snd]. eexists _, w', s. split; [done|]. destruct (mark_gap_spec d r1) as (_ & _ & _ & Hmark). rewrite Hmark, Hsubs, (decide_False (P := c ∈ connections ∧ _)), decide_False by (done || rewrite Hd; by intros ?%elem_of_nil).
    split; [done|]. split; [apply Halone'|]. split_and!; [done..|]. exists []. rewrite app_nil_r. by split_and!.
Qed.

Lemma push_all_one ps r w c s :
  (∀ p, p ∈ ps → push_ok p) → subscribers r !! c = Some s → alone r c (queue s) →
  ∃ s', subscribers (push_all ps (r, w)).1 !! c = Some s' ∧ advanced s (queue s) w s' (push_all ps (r, w)).2.
Proof.
  revert r w s. induction ps as [|p ps IH]; intros r w s Hps Hs Halone.
  { exists s. cbn. split; [done|]. split_and!; [done..|]. exists []. rewrite app_nil_r. by split_and!. }
  destruct (push_one p r w c s) as (r1 & w1 & s1 & Hpush & Hs1 & Halone1 & Hwho1 & Hcl1 & new1 & Hsent1 & Hnone1 & Hann1); [apply Hps; left|done..|].
  unfold push_all. cbn [foldl]. rewrite Hpush. fold (push_all ps (r1, w1)).
  assert (queue s1 = queue s ∧ id s1 = id s) as [Hq Hi] by (unfold who in Hwho1; by injection Hwho1).
  destruct (IH r1 w1 s1) as (s2 & Hs2 & Hwho2 & Hcl2 & new2 & Hsent2 & Hnone2 & Hann2); [intros p' Hp'; apply Hps; by right|done|by rewrite Hq|].
  rewrite Hq in *. exists s2. split; [done|]. split_and!; [congruence..|]. exists (new1 ++ new2). split_and!.
  - by rewrite Hsent2, Hsent1, app_assoc.
  - intros Hc. rewrite Hnone1, Hnone2 by congruence. done.
  - intros Hc. rewrite fmap_app. apply (announced_app _ _ _ _ (seq s1) (gap s1)); [by apply Hann1|]. rewrite <-Hi. apply Hann2. congruence.
Qed.

End Gaps.

(** ** What the registry promises

    Who listens is one relation between topics and connections, beside who each
    connection is; the three maps of the registry keep it. *)

Record Listening := mkListening {
  members : gset (Topic * ConnectionId);
  identity : gmap ConnectionId (string * Z * Z);
  gone : gset ConnectionId
}.

(** An operation, as one holder of the lock performs it. *)
Inductive Op :=
  | OSubscribe (occ : Occupancy) (c : ConnectionId) (u : string) (q i : Z) (ts : list Topic)
  | OUnsubscribe (c : ConnectionId) (ts : list Topic)
  | ORemove (c : ConnectionId)
  | OEnd (c : ConnectionId)
  | OForget (c : ConnectionId)
  | OCopy (from to : Topic)
  | OEvict (u : string) (topic : Topic)
  | OTake (topic : option Topic) (connections : list ConnectionId)
  | OMark (connections : list ConnectionId).

Definition exec (o : Op) (r : Registry) : Registry :=
  match o with
  | OSubscribe occ c u q i ts => (subscribe occ c u q i ts r).2
  | OUnsubscribe c ts => unsubscribe c ts r
  | ORemove c => remove_connection c r
  | OEnd c => end_connection c r
  | OForget c => forget_connection c r
  | OCopy from to => copy_topic from to r
  | OEvict u topic => leave_topic_of_user u topic r
  | OTake topic connections => (take_targets topic connections r).2
  | OMark connections => mark_gap connections r
  end.

Definition user_of (l : Listening) (c : ConnectionId) : option string := (λ w, w.1.1) <$> identity l !! c.

Definition without (c : ConnectionId) (l : Listening) : Listening := mkListening (filter (λ m, m.2 ≠ c) (members l)) (delete c (identity l)) (gone l).

Definition promise (o : Op) (l : Listening) : Listening :=
  match o with
  | OSubscribe occ c u q i ts =>
      if bool_decide (c ∈ gone l) then l
      else
        let others := if bool_decide (user_of l c = Some u) then members l else filter (λ m, m.2 ≠ c) (members l) in
        let stay := match occ with Many => others | OneTheLatest => filter (λ m, ¬ (m.1 ∈ ts ∧ m.2 ≠ c)) others end in
        mkListening (stay ∪ list_to_set ((λ t, (t, c)) <$> ts)) (<[c := (u, q, i)]> (identity l)) (gone l)
  | OUnsubscribe c ts => mkListening (filter (λ m, ¬ (m.1 ∈ ts ∧ m.2 = c)) (members l)) (identity l) (gone l)
  | ORemove c => without c l
  | OEnd c => mkListening (members (without c l)) (identity (without c l)) (gone l ∪ {[c]})
  | OForget c => mkListening (members (without c l)) (identity (without c l)) (gone l ∖ {[c]})
  | OCopy from to => mkListening (members l ∪ set_map (λ m, (to, m.2)) (filter (λ m, m.1 = from) (members l))) (identity l) (gone l)
  | OEvict u topic => mkListening (filter (λ m, ¬ (m.1 = topic ∧ user_of l m.2 = Some u)) (members l)) (identity l) (gone l)
  | OTake _ _ | OMark _ => l
  end.

Definition exec_all (os : list Op) (r : Registry) : Registry := foldl (λ r o, exec o r) r os.
Definition promise_all (os : list Op) (l : Listening) : Listening := foldl (λ l o, promise o l) l os.

Record keeps_promise (r : Registry) (l : Listening) : Prop := {
  kp_wf : wf r;
  kp_members : ∀ t x, x ∈ at_ (topics r) t ↔ (t, x) ∈ members l;
  kp_identity : ∀ x, who <$> subscribers r !! x = identity l !! x;
  kp_gone : ended r = gone l
}.

Lemma promise_same r r' l : keeps_promise r l → wf r' → keeps r r' → topics r' = topics r → keeps_promise r' l.
Proof. intros [_ Hm Hi Hg] Hw [_ He Hk] Ht. split; [done|by rewrite Ht|intros x; by rewrite Hk|congruence]. Qed.

Lemma promise_user r l c u : keeps_promise r l → user_of l c = Some u ↔ ∃ s, subscribers r !! c = Some s ∧ user s = u.
Proof.
  intros [_ _ Hi _]. unfold user_of. rewrite <-Hi. destruct (subscribers r !! c) as [s|]; cbn; [|naive_solver]. naive_solver.
Qed.

Lemma promise_remove r l c : keeps_promise r l → keeps_promise (registry_remove_connection c r) (without c l).
Proof.
  intros [Hw Hm Hi Hg]. split; [by apply wf_remove| | |by rewrite remove_ended].
  - intros t x. rewrite elem_remove by done. cbn [without members]. rewrite elem_of_filter, Hm. cbn [snd]. tauto.
  - intros x. rewrite remove_subscribers. cbn [without identity]. case_decide; subst; [by rewrite lookup_delete_eq|]. rewrite lookup_delete_ne by done. apply Hi.
Qed.

Lemma take_keeps topic connections out r : wf r → wf (foldl (take_target topic) (out, r) connections).2 ∧ keeps r (foldl (take_target topic) (out, r) connections).2
  ∧ topics (foldl (take_target topic) (out, r) connections).2 = topics r.
Proof.
  revert out r. induction connections as [|c connections IH]; intros out r Hw; cbn [foldl]; [by split_and!; [| apply keeps_refl|]|].
  unfold take_target at 2 4 6. destruct (is_still_in_topic topic r c); [|by apply IH]. destruct (subscribers r !! c) as [s|] eqn:Hc; [|by apply IH].
  set (r1 := set_subscribers _ r). assert (Hk : keeps r r1).
  { split; [done..|]. intros x. cbn [r1 set_subscribers subscribers]. destruct (decide (x = c)) as [->|]; [by rewrite lookup_insert_eq, Hc|by rewrite lookup_insert_ne]. }
  assert (Hw1 : wf r1).
  { apply (wf_keeps r); [done..|apply (wf_topics r Hw)|apply (wf_listed r Hw)|]. intros x sx. cbn [r1 set_subscribers subscribers].
    destruct (decide (x = c)) as [->|]; [rewrite lookup_insert_eq; intros [= <-]; apply next_seq_range|rewrite lookup_insert_ne by done; by eapply wf_seq]. }
  destruct (IH (out ++ [mkTarget c (queue s) (id s) (seq s) (gap s)]) r1 Hw1) as (Hw2 & Hk2 & Ht2). split_and!; [done|by eapply keeps_trans|done].
Qed.

Lemma mark_keeps connections r : wf r → wf (mark_gap connections r) ∧ keeps r (mark_gap connections r) ∧ topics (mark_gap connections r) = topics r.
Proof.
  intros Hw. destruct (mark_gap_spec connections r) as (Ht & Hu & He & Hs).
  assert (Hk : keeps r (mark_gap connections r)) by (split; [done..|]; intros x; rewrite Hs; case_decide; [by destruct (subscribers r !! x)|done]).
  split_and!; [|done..]. apply (wf_keeps r); [done..|rewrite Ht; apply (wf_topics r Hw)|rewrite Ht; apply (wf_listed r Hw)|].
  intros c s. rewrite Hs. case_decide; [|by eapply wf_seq]. destruct (subscribers r !! c) as [s0|] eqn:Hc; [|done]. intros [= <-]. by apply (wf_seq r Hw c s0).
Qed.

Lemma before_promise r l c u t x :
  keeps_promise r l → before c u r t x ↔ (t, x) ∈ (if bool_decide (user_of l c = Some u) then members l else filter (λ m, m.2 ≠ c) (members l)).
Proof.
  intros Hp. pose proof Hp as [Hw Hm _ _]. pose proof (promise_user r l c u Hp) as Hu. unfold before, is_another_identity. rewrite Hm.
  destruct (subscribers r !! c) as [s|] eqn:Hc.
  - destruct (decide (user s = u)) as [He|He].
    + rewrite (bool_decide_eq_false_2 (user s ≠ u)), bool_decide_eq_true_2 by (tauto || apply Hu; eauto). naive_solver.
    + rewrite (bool_decide_eq_true_2 (user s ≠ u)), bool_decide_eq_false_2 by (done || rewrite Hu; naive_solver). rewrite elem_of_filter. cbn [snd]. naive_solver.
  - rewrite bool_decide_eq_false_2 by (rewrite Hu; naive_solver). rewrite elem_of_filter. cbn [snd].
    split; [|naive_solver]. intros [Hx _]. split; [|done]. intros ->. apply Hm in Hx. destruct (wf_listed r Hw t c Hx) as [s Hs]. by rewrite Hc in Hs.
Qed.

Lemma promise_subscribe r l occ c u q i ts : keeps_promise r l → keeps_promise (exec (OSubscribe occ c u q i ts) r) (promise (OSubscribe occ c u q i ts) l).
Proof.
  intros Hp. pose proof Hp as [Hw Hm Hi Hg]. cbn [exec promise]. rewrite <-Hg. case_bool_decide as Hc; [by rewrite refused_spec|].
  destruct (subscribe_spec occ c u q i ts r Hw Hc) as (e & r' & -> & Hw' & He & (s & Hs & Hwho) & Hother & Hin & _). cbn [snd]. split; cbn [members identity gone]; [done| | |done].
  - intros t x. rewrite Hin, (before_promise r l c u t x Hp), elem_of_union, elem_of_list_to_set, list_elem_of_fmap.
    assert (Hnew : (∃ y, (t, x) = (y, c) ∧ y ∈ ts) ↔ t ∈ ts ∧ x = c) by naive_solver. rewrite Hnew.
    destruct occ; [|rewrite elem_of_filter; cbn [fst snd]]; destruct (decide (x = c)); naive_solver.
  - intros x. destruct (decide (x = c)) as [->|Hx]; [by rewrite Hs, lookup_insert_eq, <-Hwho|]. by rewrite Hother, lookup_insert_ne.
Qed.

Lemma promise_step o r l : keeps_promise r l → keeps_promise (exec o r) (promise o l).
Proof.
  intros Hp. pose proof Hp as [Hw Hm Hi Hg]. destruct o as [occ c u q i ts|c ts|c|c|c|from to|u topic|topic cs|cs]; cbn [exec promise].
  - by apply promise_subscribe.
  - destruct (unsubscribe_spec c ts r Hw) as (Hw' & [_ He Hk] & Hin). split; [done| |intros x; by rewrite Hk|by rewrite He].
    intros t x. rewrite Hin, Hm. cbn [members]. rewrite elem_of_filter. cbn [fst snd]. tauto.
  - by apply promise_remove.
  - destruct (promise_remove r l c Hp) as [Hw' Hm' Hi' Hg']. split; [by apply wf_end|done|done|]. cbn [end_connection set_ended ended gone]. by rewrite Hg'.
  - destruct (promise_remove r l c Hp) as [Hw' Hm' Hi' Hg']. split; [by apply wf_forget|done|done|]. cbn [forget_connection set_ended ended gone]. by rewrite Hg'.
  - destruct (copy_spec from to r Hw) as (Hw' & [_ He Hk] & Hin). split; [done| |intros x; by rewrite Hk|by rewrite He].
    intros t x. rewrite Hin, !Hm. cbn [members]. rewrite elem_of_union, elem_of_map. setoid_rewrite elem_of_filter. split; [intros [?|[-> ?]]; [by left|right; by exists (from, x)]|].
    intros [?|([t0 x0] & [= -> ->] & Hf & ?)]; [by left|]. cbn [fst] in Hf. subst. by right.
  - destruct (evict_spec u topic r Hw) as (Hw' & [_ He Hk] & Hin). split; [done| |intros x; by rewrite Hk|by rewrite He].
    intros t x. rewrite Hin, Hm. cbn [members]. rewrite elem_of_filter. cbn [fst snd]. rewrite (promise_user r l x u Hp). tauto.
  - destruct (take_keeps topic cs [] r Hw) as (Hw' & Hk & Ht). by apply (promise_same r).
  - destruct (mark_keeps cs r Hw) as (Hw' & Hk & Ht). by apply (promise_same r).
Qed.

Lemma promise_run os r l : keeps_promise r l → keeps_promise (exec_all os r) (promise_all os l).
Proof. revert r l. induction os as [|o os IH]; intros r l Hp; [done|]. by apply IH, promise_step. Qed.

Lemma promise_new : keeps_promise new (mkListening ∅ ∅ ∅).
Proof. split; [apply wf_new| |done|done]. intros t x. cbn [members]. split; by intros ?%elem_of_empty. Qed.

(** What the queries answer. *)
Record answers (r : Registry) (l : Listening) : Prop := {
  an_listened : ∀ t, is_listened t r = true ↔ ∃ c, (t, c) ∈ members l;
  an_listeners : ∀ t c u, (c, u) ∈ listeners t r ↔ (t, c) ∈ members l ∧ user_of l c = Some u;
  an_once : ∀ t, NoDup (listeners t r).*1;
  an_count : ∀ t, listener_count t r = length (listeners t r);
  an_subscribed : ∀ c, is_subscribed c r = true ↔ is_Some (identity l !! c)
}.

Lemma promise_answers r l : keeps_promise r l → answers r l.
Proof.
  intros Hp. pose proof Hp as [Hw Hm Hi Hg].
  assert (Hlist : ∀ t s, topics r !! t = Some s → (listeners t r).*1 = hash_order ["listeners"] (elements s)).
  { intros t s Ht. unfold listeners. rewrite Ht. assert (Hall : ∀ x, x ∈ hash_order ["listeners"] (elements s) → is_Some (subscribers r !! x)).
    { intros x Hx. rewrite elem_of_hash_order, elem_of_elements in Hx. apply (wf_listed r Hw t). unfold at_. by rewrite Ht. }
    induction (hash_order ["listeners"] (elements s)) as [|x xs IH]; [done|]. destruct (Hall x ltac:(left)) as [sx Hsx]. cbn. rewrite Hsx. cbn. f_equal. apply IH. intros y Hy. apply Hall. by right. }
  split.
  - intros t. unfold is_listened. rewrite bool_decide_eq_true. setoid_rewrite <-Hm. unfold at_. split; [|intros [c Hc]; destruct (topics r !! t); [by eexists|by apply elem_of_empty in Hc]].
    intros [s Hs]. rewrite Hs. apply set_choose_L. by apply (wf_topics r Hw t).
  - intros t c u. rewrite <-Hm, (promise_user r l c u Hp). unfold listeners, at_. destruct (topics r !! t) as [s|] eqn:Ht; cbn [default]; [|split; [by intros ?%not_elem_of_nil|by intros [?%elem_of_empty _]]].
    rewrite list_elem_of_omap. split.
    + intros (x & Hx & He). rewrite elem_of_hash_order, elem_of_elements in Hx. destruct (subscribers r !! x) as [sx|] eqn:Hsx; [|done]. injection He as <- <-. split; [done|by exists sx].
    + intros [Hc (sx & Hsx & <-)]. exists c. rewrite elem_of_hash_order, elem_of_elements, Hsx. done.
  - intros t. destruct (topics r !! t) as [s|] eqn:Ht; [rewrite (Hlist t s Ht), hash_order_perm; apply NoDup_elements|]. unfold listeners. rewrite Ht. apply NoDup_nil_2.
  - intros t. unfold listener_count. destruct (topics r !! t) as [s|] eqn:Ht; [|by unfold listeners; rewrite Ht]. rewrite <-(length_fmap fst), (Hlist t s Ht), hash_order_perm. done.
  - intros c. unfold is_subscribed. rewrite bool_decide_eq_true, <-Hi. by rewrite fmap_is_Some.
Qed.

(** ** What a stream may do to its registry *)

Definition may (occ : Occupancy) (forgets : list ConnectionId) (o : Op) : Prop :=
  match o with OSubscribe occ' _ _ _ _ _ => occ' = occ | OForget c => c ∈ forgets | OCopy _ _ => occ = Many | _ => True end.
Definition acts (occ : Occupancy) (forgets : list ConnectionId) (r r' : Registry) : Prop := ∃ os, Forall (may occ forgets) os ∧ r' = exec_all os r.

Lemma acts_refl occ f r : acts occ f r r.
Proof. by exists []. Qed.
Lemma acts_trans occ f r1 r2 r3 : acts occ f r1 r2 → acts occ f r2 r3 → acts occ f r1 r3.
Proof. intros (os & Ho & ->) (os' & Ho' & ->). exists (os ++ os'). split; [by apply Forall_app|]. unfold exec_all. by rewrite foldl_app. Qed.
Lemma acts_one occ f o r : may occ f o → acts occ f r (exec o r).
Proof. intros Ho. exists [o]. split; [by apply Forall_singleton|done]. Qed.
Lemma acts_fold {A} occ f (g : Registry → A → Registry) l r : (∀ r a, acts occ f r (g r a)) → acts occ f r (foldl g r l).
Proof. intros Hg. revert r. induction l as [|a l IH]; intros r; [apply acts_refl|]. eapply acts_trans; [apply Hg|apply IH]. Qed.

Lemma acts_push {S : Type} `{!PackSink S} occ f topic connections make_pack r (w : S) : acts occ f r (push_with topic connections make_pack (r, w)).1.
Proof.
  unfold push_with. cbn [fst snd]. destruct (take_targets topic connections r) as [ts r1] eqn:Ht. destruct (foldl (offer make_pack) ([], w) ts) as [dropped w']. cbn [fst].
  exists [OTake topic connections; OMark dropped]. split; [by repeat constructor|]. cbn. by rewrite Ht.
Qed.

Lemma wf_exec o r : wf r → wf (exec o r).
Proof.
  intros Hw. destruct o as [occ c u q i ts|c ts|c|c|c|from to|u topic|topic cs|cs]; cbn [exec].
  - destruct (decide (c ∈ ended r)) as [Hc|Hc]; [by rewrite refused_spec|]. by destruct (subscribe_spec occ c u q i ts r Hw Hc) as (e & r' & -> & Hw' & _).
  - by apply unsubscribe_spec.
  - by apply wf_remove.
  - by apply wf_end.
  - by apply wf_forget.
  - by apply copy_spec.
  - by apply evict_spec.
  - by apply take_keeps.
  - by apply mark_keeps.
Qed.

Lemma acts_wf occ f r r' : acts occ f r r' → wf r → wf r'.
Proof. intros (os & _ & ->). revert r. induction os as [|o os IH]; intros r Hw; [done|]. by apply IH, wf_exec. Qed.

Lemma exclusive_smaller r r' : exclusive r → (∀ t x, x ∈ at_ (topics r') t → x ∈ at_ (topics r) t) → exclusive r'.
Proof. intros Hx Hs t x y Hx' Hy'. by apply (Hx t); apply Hs. Qed.

Lemma exclusive_exec f o r : may OneTheLatest f o → wf r → exclusive r → exclusive (exec o r).
Proof.
  intros Ho Hw Hx. destruct o as [occ c u q i ts|c ts|c|c|c|from to|u topic|topic cs|cs]; cbn [exec may] in *; [subst; by apply subscribe_exclusive|..]; apply (exclusive_smaller r); try done; intros t x.
  - destruct (unsubscribe_spec c ts r Hw) as (_ & _ & Hm). intros ?%Hm. tauto.
  - intros ?%elem_remove; tauto.
  - intros ?%elem_remove; tauto.
  - intros ?%elem_remove; tauto.
  - destruct (evict_spec u topic r Hw) as (_ & _ & Hm). intros ?%Hm. tauto.
  - destruct (take_keeps topic cs [] r Hw) as (_ & _ & Ht). unfold take_targets. by rewrite Ht.
  - destruct (mark_keeps cs r Hw) as (_ & _ & Ht). by rewrite Ht.
Qed.

Lemma acts_exclusive f r r' : acts OneTheLatest f r r' → wf r → exclusive r → exclusive r'.
Proof.
  intros (os & Ho & ->). revert r. induction Ho as [|o os Ho _ IH]; intros r Hw Hx; [done|]. apply IH; [by apply wf_exec|by eapply exclusive_exec].
Qed.

Lemma ended_exec occ f o r c : may occ f o → wf r → c ∉ f → c ∈ ended r → c ∈ ended (exec o r).
Proof.
  intros Ho Hw Hf Hc. destruct o as [occ' c' u q i ts|c' ts|c'|c'|c'|from to|u topic|topic cs|cs]; cbn [exec may] in *.
  - destruct (decide (c' ∈ ended r)) as [Hc'|Hc']; [by rewrite refused_spec|]. destruct (subscribe_spec occ' c' u q i ts r Hw Hc') as (e & r' & Hs & _ & He & _). rewrite Hs. cbn [snd]. by rewrite He.
  - destruct (unsubscribe_spec c' ts r Hw) as (_ & [_ -> _] & _). done.
  - unfold remove_connection. by rewrite remove_ended.
  - cbn [end_connection set_ended ended]. rewrite remove_ended. by apply elem_of_union_l.
  - cbn [forget_connection set_ended ended]. rewrite remove_ended, elem_of_difference, elem_of_singleton. split; [done|]. by intros ->.
  - destruct (copy_spec from to r Hw) as (_ & [_ -> _] & _). done.
  - destruct (evict_spec u topic r Hw) as (_ & [_ -> _] & _). done.
  - destruct (take_keeps topic cs [] r Hw) as (_ & [_ He _] & _). unfold take_targets. by rewrite He.
  - destruct (mark_keeps cs r Hw) as (_ & [_ -> _] & _). done.
Qed.

Lemma acts_ended occ f r r' c : acts occ f r r' → wf r → c ∉ f → c ∈ ended r → c ∈ ended r'.
Proof. intros (os & Ho & ->) Hw Hf. revert r Hw. induction Ho as [|o os Ho _ IH]; intros r Hw Hc; [done|]. apply IH; [by apply wf_exec|by eapply ended_exec]. Qed.

Lemma ended_out r c t : wf r → c ∈ ended r → c ∉ at_ (topics r) t.
Proof. intros Hw Hc Hin. destruct (wf_listed r Hw t c Hin) as [s Hs]. by rewrite (wf_ended r Hw c Hc) in Hs. Qed.

(** C14: the registry keeps its promise.  Whatever sequence of subscriptions,
    withdrawals, ended and forgotten connections, copied topics, evictions and
    pushes it goes through, who is in which topic, who each connection is and
    which connections have ended is what one relation, updated in the obvious
    way, says; and the questions the streams ask are answered from it, each
    listener once. *)
Theorem registry_keeps_promise os :
  keeps_promise (exec_all os new) (promise_all os (mkListening ∅ ∅ ∅)) ∧ answers (exec_all os new) (promise_all os (mkListening ∅ ∅ ∅)).
Proof. pose proof (promise_run os new _ promise_new) as Hp. split; [done|]. by apply promise_answers. Qed.
End Registry.

(** ** A connection that loses a push *)

#[local] Existing Instances in_order z_semaphore list_channel.

Definition read_pack (p : bytes) : Z * Z * bool := match p with i :: n :: g :: _ => (i, n, g =? 1) | _ => (0, 0, false) end.
Definition pack_with (tail : bytes) (i n : Z) (g : bool) : option bytes := Some (i :: n :: (if g then 1 else 0) :: tail).
Definition one_line : gmap Z (Line Z (Z * list Queued * bool)) := {[ 5 := start 8 8 ]}.
Definition one_listener : Registry (Topic := Z) := (subscribe Many 1 "@u" 5 9 [3] new).2.
Definition three_pushes : list (Push (Topic := Z)) := [(Some 3, [1], pack_with []); (Some 3, [1], pack_with [0; 0; 0; 0; 0; 0]); (None, [1], pack_with [0])].

