(* ===== verification/Streams.v ===== *)
(** * Streams: the room channels, the to-device queues and the pending invites

    src/service/streams/mod.rs, rooms.rs, devices.rs and invites.rs: three
    registries of Subscribers.v behind one set of connection numbers, who enters
    which topic, and the packs each kind pushes.  The send queues are a
    [PackSink]; serde_json's writer and reader, and the checksum, are
    arguments. *)

From stdpp Require Import pretty sorting.
From S2P Require Import Prelude Json Order Store Pack WireCodes WireEvents WireInvites PackQueue Subscribers.

(** ** Data *)

Inductive RoomTopic := Room (room : string) | FollowsJoins (user : string).
#[global] Instance RoomTopic_eq_dec : EqDecision RoomTopic.
Proof. solve_decision. Defined.
#[global] Instance RoomTopic_countable : Countable RoomTopic.
Proof.
  refine (inj_countable' (λ t, match t with Room r => inl r | FollowsJoins u => inr u end) (λ s, match s with inl r => Room r | inr u => FollowsJoins u end) _). by intros [].
Defined.

Record DeviceTopic := mkDeviceTopic { dt_user : string; dt_device : string }.
#[global] Instance DeviceTopic_eq_dec : EqDecision DeviceTopic.
Proof. solve_decision. Defined.
#[global] Instance DeviceTopic_countable : Countable DeviceTopic.
Proof. refine (inj_countable' (λ t, (dt_user t, dt_device t)) (λ p, mkDeviceTopic p.1 p.2) _). by intros []. Defined.

Inductive InviteTopic := mkInviteTopic (user : string).
#[global] Instance InviteTopic_eq_dec : EqDecision InviteTopic.
Proof. solve_decision. Defined.
#[global] Instance InviteTopic_countable : Countable InviteTopic.
Proof. refine (inj_countable' (λ '(mkInviteTopic u), u) mkInviteTopic _). by intros []. Defined.

Record PushedEvent := mkPushedEvent { g_seq : Z; json : bytes }.
Record PushedItem := mkPushedItem { item_count : Z; item_json : bytes }.
Record CryptoState := mkCryptoState { otk_counts : Value; unused_fallback_key_types : list string }.
Record PushedInvite := mkPushedInvite { invite_count : Z; invite_state : list bytes }.

Definition EVENT_PUSH_SUBTYPE : Z := 0x06.
Definition EVENT_DEVICE_CHANGED_SUBTYPE : Z := 0x07.
Definition DEVICE_PUSH_SUBTYPE : Z := 0x06.
Definition DEVICE_CRYPTO_STATE_SUBTYPE : Z := 0x08.
Definition INVITE_PUSH_SUBTYPE : Z := 0x06.
Definition INVITE_GONE_SUBTYPE : Z := 0x07.
Definition CONTROL_ERROR_SUBTYPE : Z := 0x03.

(** [struct Streams] *)
Record Streams := mkStreams {
  epoch : Z;
  next_connection : Z;
  rooms : Registry (Topic := RoomTopic);
  devices : Registry (Topic := DeviceTopic);
  invites : Registry (Topic := InviteTopic);
  device_versions_declared : gset ConnectionId
}.

Definition new (epoch : Z) : Streams := mkStreams epoch 1 Subscribers.new Subscribers.new Subscribers.new ∅.

Definition set_rooms (r : Registry) (st : Streams) : Streams := mkStreams (epoch st) (next_connection st) r (devices st) (invites st) (device_versions_declared st).
Definition set_devices (r : Registry) (st : Streams) : Streams := mkStreams (epoch st) (next_connection st) (rooms st) r (invites st) (device_versions_declared st).
Definition set_invites (r : Registry) (st : Streams) : Streams := mkStreams (epoch st) (next_connection st) (rooms st) (devices st) r (device_versions_declared st).
Definition set_declared (d : gset ConnectionId) (st : Streams) : Streams := mkStreams (epoch st) (next_connection st) (rooms st) (devices st) (invites st) d.

(** ** Connections *)

Definition set_device_versions_declared (connection : ConnectionId) (is_declared : bool) (st : Streams) : Streams :=
  if connection =? 0 then st
  else set_declared (if is_declared then device_versions_declared st ∪ {[connection]} else device_versions_declared st ∖ {[connection]}) st.
Definition is_device_versions_declared (connection : ConnectionId) (st : Streams) : bool := bool_decide (connection ∈ device_versions_declared st).

Definition next_connection_id (st : Streams) : ConnectionId * Streams :=
  (next_connection st, mkStreams (epoch st) ((next_connection st + 1) mod 2 ^ 64) (rooms st) (devices st) (invites st) (device_versions_declared st)).

Definition remove_connection (connection : ConnectionId) (st : Streams) : Streams :=
  set_device_versions_declared connection false
    (set_invites (Subscribers.remove_connection connection (invites st))
      (set_devices (Subscribers.remove_connection connection (devices st)) (set_rooms (Subscribers.remove_connection connection (rooms st)) st))).
Definition end_connection (connection : ConnectionId) (st : Streams) : Streams :=
  set_device_versions_declared connection false
    (set_invites (Subscribers.end_connection connection (invites st))
      (set_devices (Subscribers.end_connection connection (devices st)) (set_rooms (Subscribers.end_connection connection (rooms st)) st))).
Definition forget_connection (connection : ConnectionId) (st : Streams) : Streams :=
  set_device_versions_declared connection false
    (set_invites (Subscribers.forget_connection connection (invites st))
      (set_devices (Subscribers.forget_connection connection (devices st)) (set_rooms (Subscribers.forget_connection connection (rooms st)) st))).

Section Ops.
Context `{!Usize} `{!HashOrder} (crc32c : bytes → Z) (to_vec : Value → option bytes) (from_slice : bytes → option Value).
Context {W : Type} `{!PackSink W}.

(** ** Packs *)

Definition number (n : Z) : Value := Number (pretty n).

(** [Result<Vec<u8>, PackError>] as [push_with] reads it. *)
Definition made (r : Result PackError bytes) : option bytes := match r with Ok b => Some b | _ => None end.

Definition with_meta (kind : Kind) (subtype : Z) (flags : Flags) (id seq : Z) (meta : Value) : Result PackError bytes :=
  b ← json_meta to_vec (Pack.new kind subtype flags id seq) meta;
  finish crc32c b.
Definition with_meta_data (kind : Kind) (subtype : Z) (flags : Flags) (id seq : Z) (meta : Value) (d : bytes) : Result PackError bytes :=
  b ← json_meta to_vec (Pack.new kind subtype flags id seq) meta;
  b ← data b d;
  finish crc32c b.

Definition push_meta (bc fs ls : Z) (gap : bool) : Value := Object [("bc", number bc); ("fs", number fs); ("ls", number ls); ("gap", Bool_ gap)]%string.
Definition push_pack (id seq bc fs ls : Z) (gap : bool) (d : bytes) : Result PackError bytes :=
  with_meta_data Event EVENT_PUSH_SUBTYPE IS_RESPONSE id seq (push_meta bc fs ls gap) d.

Definition device_changed_meta (user device_version : string) (rooms : list (string * Value)) (gap : bool) : Value :=
  Object [("user_id", Str user); ("device_version", Str device_version); ("rooms", Object rooms); ("gap", Bool_ gap)]%string.
Definition device_changed_pack (id seq : Z) (meta : Value) : Result PackError bytes := with_meta Event EVENT_DEVICE_CHANGED_SUBTYPE IS_RESPONSE id seq meta.

Definition superseded_pack (id seq : Z) : Result PackError bytes :=
  with_meta Control CONTROL_ERROR_SUBTYPE (union IS_RESPONSE IS_LAST) id seq
    (Object [("code_id", number (RejectCode.id RejectCode.Superseded)); ("code", Str (RejectCode.name RejectCode.Superseded));
             ("message", Str "another connection of this device took its to-device queue over")]%string).

Definition crypto_state_meta (state : CryptoState) (gap : bool) : Value :=
  Object [("otk_counts", otk_counts state); ("unused_fallback_key_types", Arr (Str <$> unused_fallback_key_types state)); ("gap", Bool_ gap)]%string.
Definition crypto_state_pack (id seq : Z) (meta : Value) : Result PackError bytes := with_meta Device DEVICE_CRYPTO_STATE_SUBTYPE IS_RESPONSE id seq meta.

Definition device_push_pack (id seq bc ot nt : Z) (counts : list Z) (gap : bool) (d : bytes) : Result PackError bytes :=
  with_meta_data Device DEVICE_PUSH_SUBTYPE IS_RESPONSE id seq
    (Object [("bc", number bc); ("ot", number ot); ("nt", number nt); ("counts", Arr (number <$> counts)); ("gap", Bool_ gap)]%string) d.

Definition is_over_meta_max (meta : Value) (meta_max : Z) : bool := match to_vec meta with Some b => meta_max <? zlen b | None => false end.

Definition invited_meta (room : string) (fields : InviteFields) (count state_count : Z) (gap : bool) (meta_max : Z) : Value :=
  let meta (reason : list (string * Value)) :=
    Object ([("room_id"%string, Str room)] ++ from_option (λ i, [("inviter"%string, Str i)]) [] (inviter fields) ++ [("is_direct"%string, Bool_ (is_direct fields))]
            ++ reason ++ [("is", number count); ("sc", number state_count); ("gap", Bool_ gap)]%string) in
  let full := meta (from_option (λ r, [("reason", Str r)]%string) [] (reason fields)) in
  if is_over_meta_max full meta_max then meta [] else full.
Definition invited_pack (id seq : Z) (meta : Value) (d : bytes) : Result PackError bytes := with_meta_data Invite INVITE_PUSH_SUBTYPE IS_RESPONSE id seq meta d.
Definition invite_gone_pack (id seq : Z) (meta : Value) : Result PackError bytes := with_meta Invite INVITE_GONE_SUBTYPE IS_RESPONSE id seq meta.

Definition framed_state (state : list bytes) (data_max : Z) : bytes :=
  match length_prefixed state with
  | Ok framed => if data_max <? zlen framed then [] else framed
  | _ => []
  end.

(** ** Room channels *)

Definition on_rooms (f : Registry * W → Registry * W) (x : Streams * W) : Streams * W := let '(r, w) := f (rooms x.1, x.2) in (set_rooms r x.1, w).
Definition on_devices (f : Registry * W → Registry * W) (x : Streams * W) : Streams * W := let '(r, w) := f (devices x.1, x.2) in (set_devices r x.1, w).
Definition on_invites (f : Registry * W → Registry * W) (x : Streams * W) : Streams * W := let '(r, w) := f (invites x.1, x.2) in (set_invites r x.1, w).

(** [None] is [SessionEnded]; a number, the channels newly entered. *)
Definition subscribe (connection : ConnectionId) (user : string) (queue id : Z) (rs : list string) (account_wide : bool) (st : Streams) : option nat * Streams :=
  let ts := (Room <$> rs) ++ (if account_wide then [FollowsJoins user] else []) in
  let '(entered, r) := Subscribers.subscribe Many connection user queue id ts (rooms st) in
  ((λ e, length (filter (λ t, match t with Room _ => true | FollowsJoins _ => false end = true) (topics_entered e))) <$> entered, set_rooms r st).

Definition unsubscribe (connection : ConnectionId) (rs : list string) (st : Streams) : Streams :=
  set_rooms (Subscribers.unsubscribe connection (Room <$> rs) (rooms st)) st.
Definition unsubscribe_all_rooms (connection : ConnectionId) (st : Streams) : Streams := set_rooms (Subscribers.remove_connection connection (rooms st)) st.
Definition follow (user room : string) (st : Streams) : Streams := set_rooms (copy_topic (FollowsJoins user) (Room room) (rooms st)) st.
Definition evict (user room : string) (st : Streams) : Streams := set_rooms (leave_topic_of_user user (Room room) (rooms st)) st.
Definition is_listened (room : string) (st : Streams) : bool := Subscribers.is_listened (Room room) (rooms st).
Definition listeners (room : string) (st : Streams) : list (ConnectionId * string) := Subscribers.listeners (Room room) (rooms st).
Definition listener_count (room : string) (st : Streams) : nat := Subscribers.listener_count (Room room) (rooms st).

Definition push_inner (topic : option RoomTopic) (connections : list ConnectionId) (events : list PushedEvent) (x : Streams * W) : Streams * W :=
  match events with
  | [] => x
  | _ =>
      match length_prefixed (json <$> events) with
      | Ok d =>
          let fs := from_option g_seq 0 (head events) in
          let ls := from_option g_seq 0 (last events) in
          on_rooms (push_with topic connections (λ id seq gap, made (push_pack id seq (zlen events) fs ls gap d))) x
      | _ => (set_rooms (mark_gap connections (rooms x.1)) x.1, x.2)
      end
  end.
Definition push (connections : list ConnectionId) (events : list PushedEvent) (x : Streams * W) : Streams * W := push_inner None connections events x.
Definition push_to_room (room : string) (connections : list ConnectionId) (events : list PushedEvent) (x : Streams * W) : Streams * W :=
  push_inner (Some (Room room)) connections events x.

(** [&events[range]] *)
Definition sub_list {A} (l : list A) (range : nat * nat) : list A := take (range.2 - range.1) (drop range.1 l).

Definition push_window (connection : ConnectionId) (events : list PushedEvent) (is_cut_short : bool) (per_pack : nat) (data_max : Z) (x : Streams * W) : Streams * W :=
  let x := if is_cut_short then (set_rooms (mark_gap [connection] (rooms x.1)) x.1, x.2) else x in
  foldl (λ x range, push [connection] (sub_list events range) x) x (list_pack_ranges ((λ e, zlen (json e)) <$> events) per_pack data_max).

Definition relay_to (room : string) (connections : list ConnectionId) (pack : bytes) (x : Streams * W) : Streams * W :=
  (x.1, send_pack_to_topic (Room room) connections pack (rooms x.1) x.2).

Definition is_listened_by_device_versions (room : string) (st : Streams) : bool :=
  existsb (λ l, is_device_versions_declared l.1 st) (listeners room st).

(** [Map::insert] *)
Fixpoint map_insert (key : string) (v : Value) (m : list (string * Value)) : list (string * Value) :=
  match m with
  | [] => [(key, v)]
  | (k, v') :: m => if bool_decide (k = key) then (k, v) :: m else (k, v') :: map_insert key v m
  end.

Definition rooms_by_connection (room_versions : list (string * Z)) (st : Streams) : gmap ConnectionId (list (string * Value)) :=
  foldl (λ m rv, foldl (λ m l, if is_device_versions_declared l.1 st then <[l.1 := map_insert rv.1 (number rv.2) (default [] (m !! l.1))]> m else m) m (listeners rv.1 st)) ∅ room_versions.

Definition push_device_changed (user device_version : string) (room_versions : list (string * Z)) (x : Streams * W) : Streams * W :=
  let m := rooms_by_connection room_versions x.1 in
  foldl (λ x c, on_rooms (push_with None [c] (λ id seq gap, made (device_changed_pack id seq (device_changed_meta user device_version (default [] (m !! c)) gap)))) x)
    x (merge_sort Z.le (elements (dom m))).

(** ** To-device queues *)

Definition displaced_told (w : W) (loser : Displaced) : W :=
  match made (superseded_pack (d_id loser) (d_seq loser)) with
  | Some pack => (try_send (d_queue loser) pack w).2
  | None => w
  end.

Definition subscribe_device (connection : ConnectionId) (user device : string) (queue id : Z) (x : Streams * W) : option (option ConnectionId) * (Streams * W) :=
  let '(entered, r) := Subscribers.subscribe OneTheLatest connection user queue id [mkDeviceTopic user device] (devices x.1) in
  match entered with
  | None => (None, (set_devices r x.1, x.2))
  | Some e => (Some (d_connection <$> last (displaced e)), (set_devices r x.1, foldl displaced_told x.2 (displaced e)))
  end.

Definition unsubscribe_device (connection : ConnectionId) (st : Streams) : Streams := set_devices (Subscribers.remove_connection connection (devices st)) st.

Definition holders (user device : string) (st : Streams) : list ConnectionId := (Subscribers.listeners (mkDeviceTopic user device) (devices st)).*1.
Definition device_holder (user device : string) (st : Streams) : option ConnectionId := head (holders user device st).

Definition push_crypto_state (user device : string) (state : CryptoState) (x : Streams * W) : Streams * W :=
  match holders user device x.1 with
  | [] => x
  | holder => on_devices (push_with (Some (mkDeviceTopic user device)) holder (λ id seq gap, made (crypto_state_pack id seq (crypto_state_meta state gap)))) x
  end.

Definition push_items (topic : DeviceTopic) (holder : list ConnectionId) (items : list PushedItem) (x : Streams * W) : Streams * W :=
  match items with
  | [] => x
  | _ =>
      match length_prefixed (item_json <$> items) with
      | Ok d =>
          let ot := from_option item_count 0 (head items) in
          let nt := from_option item_count 0 (last items) in
          on_devices (push_with (Some topic) holder (λ id seq gap, made (device_push_pack id seq (zlen items) ot nt (item_count <$> items) gap d))) x
      | _ => (set_devices (mark_gap holder (devices x.1)) x.1, x.2)
      end
  end.

Definition push_to_device (user device : string) (items : list PushedItem) (per_pack : nat) (data_max : Z) (x : Streams * W) : Streams * W :=
  match holders user device x.1 with
  | [] => x
  | holder => foldl (λ x range, push_items (mkDeviceTopic user device) holder (sub_list items range) x) x (list_pack_ranges ((λ i, zlen (item_json i)) <$> items) per_pack data_max)
  end.

Definition push_device_window (user device : string) (items : list PushedItem) (is_cut_short : bool) (per_pack : nat) (data_max : Z) (x : Streams * W) : Streams * W :=
  let x := if is_cut_short then (set_devices (mark_gap (holders user device x.1) (devices x.1)) x.1, x.2) else x in
  push_to_device user device items per_pack data_max x.

(** ** Pending invites *)

Definition subscribe_invites (connection : ConnectionId) (user : string) (queue id : Z) (st : Streams) : option unit * Streams :=
  let '(entered, r) := Subscribers.subscribe Many connection user queue id [mkInviteTopic user] (invites st) in
  ((λ _, tt) <$> entered, set_invites r st).
Definition unsubscribe_invites (connection : ConnectionId) (st : Streams) : Streams := set_invites (Subscribers.remove_connection connection (invites st)) st.

Definition invite_listeners (user : string) (st : Streams) : list ConnectionId := (Subscribers.listeners (mkInviteTopic user) (invites st)).*1.
Definition is_listened_for_invites (user : string) (st : Streams) : bool := negb (bool_decide (Subscribers.listeners (mkInviteTopic user) (invites st) = [])).

Definition push_invited (user room : string) (invite : PushedInvite) (data_max meta_max : Z) (x : Streams * W) : Streams * W :=
  match invite_listeners user x.1 with
  | [] => x
  | connections =>
      let fields := get_invite_fields from_slice (invite_state invite) user in
      let d := framed_state (invite_state invite) data_max in
      let count := match d with [] => 0 | _ => zlen (invite_state invite) end in
      on_invites (push_with (Some (mkInviteTopic user)) connections (λ id seq gap, made (invited_pack id seq (invited_meta room fields (invite_count invite) count gap meta_max) d))) x
  end.

Definition push_invite_gone (user room membership : string) (count : Z) (x : Streams * W) : Streams * W :=
  match invite_listeners user x.1 with
  | [] => x
  | connections =>
      on_invites (push_with (Some (mkInviteTopic user)) connections
        (λ id seq gap, made (invite_gone_pack id seq (Object [("room_id", Str room); ("membership", Str membership); ("is", number count); ("gap", Bool_ gap)]%string)))) x
  end.

(** ** Everything that happens to the streams *)

Inductive Act :=
  | ANext
  | ADeclare (c : ConnectionId) (is_declared : bool)
  | ARemove (c : ConnectionId)
  | AEnd (c : ConnectionId)
  | AForget (c : ConnectionId)
  | ASubscribe (c : ConnectionId) (user : string) (queue id : Z) (rs : list string) (account_wide : bool)
  | AUnsubscribe (c : ConnectionId) (rs : list string)
  | AUnsubscribeAll (c : ConnectionId)
  | AFollow (user room : string)
  | AEvict (user room : string)
  | APush (room : option string) (connections : list ConnectionId) (events : list PushedEvent)
  | AWindow (c : ConnectionId) (events : list PushedEvent) (is_cut_short : bool) (per_pack : nat) (data_max : Z)
  | ARelay (room : string) (connections : list ConnectionId) (pack : bytes)
  | ADeviceChanged (user device_version : string) (room_versions : list (string * Z))
  | ASubscribeDevice (c : ConnectionId) (user device : string) (queue id : Z)
  | AUnsubscribeDevice (c : ConnectionId)
  | ACrypto (user device : string) (state : CryptoState)
  | AToDevice (user device : string) (items : list PushedItem) (per_pack : nat) (data_max : Z)
  | ADeviceWindow (user device : string) (items : list PushedItem) (is_cut_short : bool) (per_pack : nat) (data_max : Z)
  | ASubscribeInvites (c : ConnectionId) (user : string) (queue id : Z)
  | AUnsubscribeInvites (c : ConnectionId)
  | AInvited (user room : string) (invite : PushedInvite) (data_max meta_max : Z)
  | AInviteGone (user room membership : string) (count : Z).

Definition act (a : Act) (x : Streams * W) : Streams * W :=
  let on (f : Streams → Streams) := (f x.1, x.2) in
  match a with
  | ANext => on (λ st, (next_connection_id st).2)
  | ADeclare c b => on (set_device_versions_declared c b)
  | ARemove c => on (remove_connection c)
  | AEnd c => on (end_connection c)
  | AForget c => on (forget_connection c)
  | ASubscribe c u q i rs wide => on (λ st, (subscribe c u q i rs wide st).2)
  | AUnsubscribe c rs => on (unsubscribe c rs)
  | AUnsubscribeAll c => on (unsubscribe_all_rooms c)
  | AFollow u room => on (follow u room)
  | AEvict u room => on (evict u room)
  | APush None cs events => push cs events x
  | APush (Some room) cs events => push_to_room room cs events x
  | AWindow c events cut per_pack data_max => push_window c events cut per_pack data_max x
  | ARelay room cs pack => relay_to room cs pack x
  | ADeviceChanged u v rvs => push_device_changed u v rvs x
  | ASubscribeDevice c u d q i => (subscribe_device c u d q i x).2
  | AUnsubscribeDevice c => on (unsubscribe_device c)
  | ACrypto u d state => push_crypto_state u d state x
  | AToDevice u d items per_pack data_max => push_to_device u d items per_pack data_max x
  | ADeviceWindow u d items cut per_pack data_max => push_device_window u d items cut per_pack data_max x
  | ASubscribeInvites c u q i => on (λ st, (subscribe_invites c u q i st).2)
  | AUnsubscribeInvites c => on (unsubscribe_invites c)
  | AInvited u room invite data_max meta_max => push_invited u room invite data_max meta_max x
  | AInviteGone u room membership count => push_invite_gone u room membership count x
  end.
Definition act_all (l : list Act) (x : Streams * W) : Streams * W := foldl (λ x a, act a x) x l.

Definition forgets (a : Act) : list ConnectionId := match a with AForget c => [c] | _ => [] end.

(** Each stream moves by its registry's operations: the room channels and the
    invites with as many connections as ask, a device queue with one. *)
Record moves (f : list ConnectionId) (x y : Streams) : Prop := {
  mv_rooms : acts Many f (rooms x) (rooms y);
  mv_devices : acts OneTheLatest f (devices x) (devices y);
  mv_invites : acts Many f (invites x) (invites y)
}.

Lemma moves_refl f x : moves f x x.
Proof. split; apply acts_refl. Qed.
Lemma moves_trans f x y z : moves f x y → moves f y z → moves f x z.
Proof. intros [] []. split; by eapply acts_trans. Qed.
Lemma moves_fold {A} f (g : Streams * W → A → Streams * W) l x : (∀ x a, moves f x.1 (g x a).1) → moves f x.1 (foldl g x l).1.
Proof. intros Hg. revert x. induction l as [|a l IH]; intros x; [apply moves_refl|]. eapply moves_trans; [apply Hg|apply IH]. Qed.

Lemma moves_rooms f r st : acts Many f (rooms st) r → moves f st (set_rooms r st).
Proof. split; [done|apply acts_refl..]. Qed.
Lemma moves_devices f r st : acts OneTheLatest f (devices st) r → moves f st (set_devices r st).
Proof. split; [apply acts_refl|done|apply acts_refl]. Qed.
Lemma moves_invites f r st : acts Many f (invites st) r → moves f st (set_invites r st).
Proof. split; [apply acts_refl..|done]. Qed.

Lemma moves_push_rooms f topic cs mk x : moves f x.1 (on_rooms (push_with topic cs mk) x).1.
Proof. unfold on_rooms. pose proof (acts_push Many f topic cs mk (rooms x.1) x.2) as Ha. destruct (push_with topic cs mk (rooms x.1, x.2)) as [r w]. by apply moves_rooms. Qed.
Lemma moves_push_devices f topic cs mk x : moves f x.1 (on_devices (push_with topic cs mk) x).1.
Proof. unfold on_devices. pose proof (acts_push OneTheLatest f topic cs mk (devices x.1) x.2) as Ha. destruct (push_with topic cs mk (devices x.1, x.2)) as [r w]. by apply moves_devices. Qed.
Lemma moves_push_invites f topic cs mk x : moves f x.1 (on_invites (push_with topic cs mk) x).1.
Proof. unfold on_invites. pose proof (acts_push Many f topic cs mk (invites x.1) x.2) as Ha. destruct (push_with topic cs mk (invites x.1, x.2)) as [r w]. by apply moves_invites. Qed.

Lemma moves_mark_rooms f cs st : moves f st (set_rooms (mark_gap cs (rooms st)) st).
Proof. apply moves_rooms. by apply (acts_one Many f (OMark cs)). Qed.
Lemma moves_mark_devices f cs st : moves f st (set_devices (mark_gap cs (devices st)) st).
Proof. apply moves_devices. by apply (acts_one OneTheLatest f (OMark cs)). Qed.

Lemma moves_push_inner f topic cs events x : moves f x.1 (push_inner topic cs events x).1.
Proof. unfold push_inner. destruct events; [apply moves_refl|]. destruct (length_prefixed _); [apply moves_push_rooms|apply moves_mark_rooms..]. Qed.
Lemma moves_push_items f topic cs items x : moves f x.1 (push_items topic cs items x).1.
Proof. unfold push_items. destruct items; [apply moves_refl|]. destruct (length_prefixed _); [apply moves_push_devices|apply moves_mark_devices..]. Qed.
Lemma moves_to_device f u d items n m x : moves f x.1 (push_to_device u d items n m x).1.
Proof. unfold push_to_device. destruct (holders u d x.1); [apply moves_refl|]. apply moves_fold. intros. apply moves_push_items. Qed.

Lemma moves_lifecycle f (o : ∀ T (eq : EqDecision T) (co : Countable T), Op (Topic := T)) c b st :
  (∀ T eq co occ, may (Topic := T) occ f (o T eq co)) →
  moves f st (set_device_versions_declared c b (set_invites (exec (o _ _ _) (invites st)) (set_devices (exec (o _ _ _) (devices st)) (set_rooms (exec (o _ _ _) (rooms st)) st)))).
Proof. intros Ho. unfold set_device_versions_declared. destruct (c =? 0); split; cbn; by apply acts_one. Qed.

Lemma act_moves a x : moves (forgets a) x.1 (act a x).1.
Proof.
  destruct a as [|c b|c|c|c|c u q i rs wide|c rs|c|u room|u room|room cs events|c events cut n m|room cs pack|u v rvs|c u d q i|c|u d state|u d items n m|u d items cut n m|c u q i|c|u room invite m1 m2|u room membership count];
    cbn [act forgets fst].
  - split; apply acts_refl.
  - unfold set_device_versions_declared. by destruct (c =? 0); split; apply acts_refl.
  - by apply (moves_lifecycle [] (λ T eq co, ORemove c)).
  - by apply (moves_lifecycle [] (λ T eq co, OEnd c)).
  - apply (moves_lifecycle [c] (λ T eq co, OForget c)). intros. left.
  - unfold subscribe. set (ts := _ ++ _). pose proof (acts_one Many [] (OSubscribe Many c u q i ts) (rooms x.1) eq_refl) as Ha. cbn [exec] in Ha.
    destruct (Subscribers.subscribe Many c u q i ts (rooms x.1)) as [e r]. by apply moves_rooms.
  - apply moves_rooms. by apply (acts_one Many [] (OUnsubscribe c (Room <$> rs))).
  - apply moves_rooms. by apply (acts_one Many [] (ORemove c)).
  - apply moves_rooms. by apply (acts_one Many [] (OCopy (FollowsJoins u) (Room room))).
  - apply moves_rooms. by apply (acts_one Many [] (OEvict u (Room room))).
  - destruct room; apply moves_push_inner.
  - unfold push_window. apply (moves_trans _ _ (if cut then (set_rooms (mark_gap [c] (rooms x.1)) x.1, x.2) else x).1); [destruct cut; [apply moves_mark_rooms|apply moves_refl]|].
    apply moves_fold. intros. apply moves_push_inner.
  - apply moves_refl.
  - apply moves_fold. intros. apply moves_push_rooms.
  - unfold subscribe_device. pose proof (acts_one OneTheLatest [] (OSubscribe OneTheLatest c u q i [mkDeviceTopic u d]) (devices x.1) eq_refl) as Ha. cbn [exec] in Ha.
    destruct (Subscribers.subscribe OneTheLatest c u q i [mkDeviceTopic u d] (devices x.1)) as [[e|] r]; by apply moves_devices.
  - apply moves_devices. by apply (acts_one OneTheLatest [] (ORemove c)).
  - unfold push_crypto_state. destruct (holders u d x.1); [apply moves_refl|apply moves_push_devices].
  - apply moves_to_device.
  - unfold push_device_window. apply (moves_trans _ _ (if cut then (set_devices (mark_gap (holders u d x.1) (devices x.1)) x.1, x.2) else x).1); [destruct cut; [apply moves_mark_devices|apply moves_refl]|].
    apply moves_to_device.
  - unfold subscribe_invites. pose proof (acts_one Many [] (OSubscribe Many c u q i [mkInviteTopic u]) (invites x.1) eq_refl) as Ha. cbn [exec] in Ha.
    destruct (Subscribers.subscribe Many c u q i [mkInviteTopic u] (invites x.1)) as [e r]. by apply moves_invites.
  - apply moves_invites. by apply (acts_one Many [] (ORemove c)).
  - unfold push_invited. destruct (invite_listeners u x.1); [apply moves_refl|apply moves_push_invites].
  - unfold push_invite_gone. destruct (invite_listeners u x.1); [apply moves_refl|apply moves_push_invites].
Qed.

(** ** The streams' invariant *)

Record sound (st : Streams) : Prop := {
  so_rooms : wf (rooms st);
  so_devices : wf (devices st);
  so_invites : wf (invites st);
  so_single : exclusive (devices st)
}.

Lemma sound_new e : sound (new e).
Proof. split; [apply wf_new..|]. intros t x y Hx. by apply elem_of_empty in Hx. Qed.
Lemma sound_moves f x y : moves f x y → sound x → sound y.
Proof. intros [] []. split; [by eapply acts_wf..|by eapply acts_exclusive]. Qed.
Lemma sound_all l x : sound x.1 → sound (act_all l x).1.
Proof. revert x. induction l as [|a l IH]; intros x Hx; [done|]. apply IH. eapply sound_moves; [apply act_moves|done]. Qed.

Lemma holders_in user device st c : wf (devices st) → c ∈ holders user device st ↔ c ∈ at_ (topics (devices st)) (mkDeviceTopic user device).
Proof.
  intros Hw. unfold holders, Subscribers.listeners, at_. destruct (topics (devices st) !! (mkDeviceTopic user device)) as [s|] eqn:Ht; cbn [default]; [|split; [by intros ?%elem_of_nil|by intros ?%elem_of_empty]].
  rewrite list_elem_of_fmap. setoid_rewrite list_elem_of_omap. setoid_rewrite elem_of_hash_order. setoid_rewrite elem_of_elements. split.
  - intros ([c' u] & -> & x & Hx & He). destruct (subscribers (devices st) !! x); [|done]. by injection He as <- _.
  - intros Hc. destruct (wf_listed _ Hw (mkDeviceTopic user device) c) as [s0 Hs0]; [unfold at_; by rewrite Ht|]. exists (c, Subscribers.user s0). split; [done|]. exists c. by rewrite Hs0.
Qed.

Lemma holders_nodup user device st : wf (devices st) → NoDup (holders user device st).
Proof.
  intros Hw. unfold holders, Subscribers.listeners. destruct (topics (devices st) !! (mkDeviceTopic user device)) as [s|]; [|apply NoDup_nil_2].
  assert (Hnd : NoDup (hash_order ["listeners"%string] (elements s))) by (rewrite hash_order_perm; apply NoDup_elements).
  induction Hnd as [|x xs Hx Hnd IH]; [apply NoDup_nil_2|]. cbn [omap list_omap]. destruct (subscribers (devices st) !! x) as [sx|]; [|done]. cbn. apply NoDup_cons_2; [|done].
  rewrite list_elem_of_fmap. intros ([c u] & -> & (y & Hy & He)%list_elem_of_omap). destruct (subscribers (devices st) !! y); [|done]. injection He as <- _. done.
Qed.

Lemma single_holder user device st : sound st → (length (holders user device st) ≤ 1)%nat.
Proof.
  intros [_ Hw _ Hx]. pose proof (holders_nodup user device st Hw) as Hnd. pose proof (holders_in user device st) as Hin.
  destruct (holders user device st) as [|a [|b l]]; cbn; [lia..|]. exfalso. apply NoDup_cons in Hnd as [Hnd _]. apply Hnd.
  assert (a = b) as -> by (apply (Hx (mkDeviceTopic user device)); apply Hin; [done|left|done|right; left]). left.
Qed.

(** Whoever takes a device's queue is told who it took it from. *)
Definition taken_from (c : ConnectionId) (holder : option ConnectionId) : option ConnectionId :=
  match holder with Some h => if h =? c then None else Some h | None => None end.

Lemma last_only {A} (l : list A) (a : A) : l ≠ [] → (∀ x, x ∈ l → x = a) → last l = Some a.
Proof. intros Hne Hl. destruct (last l) as [b|] eqn:Hb; [|by apply last_None in Hb]. f_equal. apply Hl, last_Some_elem_of. done. Qed.

Lemma subscribe_device_spec c user device q i x :
  sound x.1 →
  match subscribe_device c user device q i x with
  | (None, y) => c ∈ ended (devices x.1) ∧ y = x
  | (Some loser, y) => c ∉ ended (devices x.1) ∧ holders user device y.1 = [c] ∧ loser = taken_from c (device_holder user device x.1)
  end.
Proof.
  intros Hs. pose proof Hs as [_ Hw _ Hx]. pose proof (act_moves (ASubscribeDevice c user device q i) x) as Hmove. cbn [act] in Hmove. apply sound_moves in Hmove; [|done].
  unfold subscribe_device in *. destruct (decide (c ∈ ended (devices x.1))) as [Hc|Hc]; [rewrite refused_spec by done; split; [done|]; by destruct x as [[] ?]|].
  destruct (subscribe_spec OneTheLatest c user q i [mkDeviceTopic user device] (devices x.1) Hw Hc) as (e & r' & Hrun & Hw' & _ & _ & _ & Hm & _ & _ & Hd).
  rewrite Hrun in *. cbn [fst snd] in *. split; [done|]. split.
  - pose proof (single_holder user device _ Hmove) as Hone. assert (Hin : c ∈ holders user device (set_devices r' x.1)) by (apply holders_in; [done|]; apply Hm; right; split; [left|done]).
    destruct (holders user device (set_devices r' x.1)) as [|a [|b l]]; cbn in Hone; [by apply elem_of_nil in Hin| |lia]. by apply list_elem_of_singleton in Hin as ->.
  - specialize (Hd eq_refl). assert (Hd' : ∀ y, y ∈ d_connection <$> displaced e ↔ y ≠ c ∧ y ∈ holders user device x.1).
    { intros y. rewrite Hd, holders_in by done. split; [|intros [? ?]; split; [done|]; eexists; by split; [left|]]. intros [? (t & ->%list_elem_of_singleton & ?)]. done. }
    rewrite <-fmap_last. pose proof (single_holder user device x.1 Hs) as Hone. unfold device_holder. destruct (holders user device x.1) as [|a [|b l]]; cbn in Hone |- *; [| |lia].
    + destruct (d_connection <$> displaced e) as [|y ys]; [done|]. by destruct (proj1 (Hd' y) ltac:(left)) as [_ ?%elem_of_nil].
    + destruct (Z.eqb_spec a c) as [->|Ha].
      * destruct (d_connection <$> displaced e) as [|y ys]; [done|]. by destruct (proj1 (Hd' y) ltac:(left)) as [? ?%list_elem_of_singleton].
      * apply last_only; [|intros y [_ Hy%list_elem_of_singleton]%Hd'; done]. intros He. rewrite He in Hd'. apply (not_elem_of_nil a), Hd'. split; [done|left].
Qed.

Lemma ended_moves f x y c : moves f x y → sound x → c ∉ f → c ∈ ended (rooms x) ∧ c ∈ ended (devices x) ∧ c ∈ ended (invites x) → c ∈ ended (rooms y) ∧ c ∈ ended (devices y) ∧ c ∈ ended (invites y).
Proof. intros [] [] Hf (? & ? & ?). split_and!; by eapply acts_ended. Qed.

Lemma ended_all l x c : sound x.1 → (∀ a, a ∈ l → c ∉ forgets a) → c ∈ ended (rooms x.1) ∧ c ∈ ended (devices x.1) ∧ c ∈ ended (invites x.1) →
  c ∈ ended (rooms (act_all l x).1) ∧ c ∈ ended (devices (act_all l x).1) ∧ c ∈ ended (invites (act_all l x).1).
Proof.
  revert x. induction l as [|a l IH]; intros x Hx Hl Hc; [done|]. apply IH; [eapply sound_moves; [apply act_moves|done]|intros b Hb; apply Hl; by right|].
  eapply ended_moves; [apply act_moves|done|apply Hl; left|done].
Qed.

Lemma end_marks c st : c ∈ ended (rooms (end_connection c st)) ∧ c ∈ ended (devices (end_connection c st)) ∧ c ∈ ended (invites (end_connection c st)).
Proof. unfold end_connection, set_device_versions_declared. destruct (c =? 0); cbn; split_and!; apply elem_of_union_r, elem_of_singleton_2; done. Qed.

(** One connection holds a device's queue, the latest.  Whatever has
    happened to the streams, at most one connection listens to a device's
    queue; a connection that subscribes to it holds it alone from then on and
    the answer names the one it was taken from, if that was another; and a
    connection whose session has ended is refused and changes nothing. *)
Theorem device_queue_latest l e w c user device q i :
  let x := act_all l (new e, w) in
  (length (holders user device x.1) ≤ 1)%nat
  ∧ match subscribe_device c user device q i x with
    | (None, y) => c ∈ ended (devices x.1) ∧ y = x
    | (Some loser, y) => c ∉ ended (devices x.1) ∧ holders user device y.1 = [c] ∧ loser = taken_from c (device_holder user device x.1)
    end.
Proof. intros x. assert (Hx : sound x.1) by (by apply sound_all, sound_new). split; [by apply single_holder|by apply subscribe_device_spec]. Qed.

(** An ended connection is in no stream again.  Once a connection's
    session has ended, no request already in flight, join, catch-up or other
    event puts it back into a room channel, a device queue or the invites while
    the connection lives, and every subscription it asks for is refused. *)
Theorem ended_connection_stays_out l l' e w c :
  (∀ a, a ∈ l' → c ∉ forgets a) →
  let x := act_all l' (act (AEnd c) (act_all l (new e, w))) in
  (∀ t, c ∉ at_ (topics (rooms x.1)) t) ∧ (∀ t, c ∉ at_ (topics (devices x.1)) t) ∧ (∀ t, c ∉ at_ (topics (invites x.1)) t)
  ∧ (∀ u q i rs wide, subscribe c u q i rs wide x.1 = (None, x.1)) ∧ (∀ u d q i, subscribe_device c u d q i x = (None, x)) ∧ (∀ u q i, subscribe_invites c u q i x.1 = (None, x.1)).
Proof.
  intros Hl x. assert (Hx0 : sound (act (AEnd c) (act_all l (new e, w))).1) by (eapply sound_moves; [apply act_moves|apply sound_all, sound_new]).
  destruct (ended_all l' _ c Hx0 Hl (end_marks c _)) as (Hr & Hd & Hi). destruct (sound_all l' _ Hx0) as [Sr Sd Si _]. fold x in Hr, Hd, Hi, Sr, Sd, Si.
  split_and!; [intros t; by apply ended_out..| | |].
  - intros. unfold subscribe. rewrite refused_spec by done. by destruct x as [[] ?].
  - intros. unfold subscribe_device. rewrite refused_spec by done. by destruct x as [[] ?].
  - intros. unfold subscribe_invites. rewrite refused_spec by done. by destruct x as [[] ?].
Qed.
End Ops.

(** ** A connection that ends while it is subscribing *)

#[local] Existing Instances usize_64 in_order z_semaphore list_channel.

Lemma ended_connection_stays_out_witness :
  let x := act_all crc32c_ref (λ _, Some []) (λ _, None) [AFollow "@u" "!r"; ASubscribe 7 "@u" 5 43 ["!r"] true; ASubscribe 8 "@u" 6 1 ["!r"] true]%string
             (act crc32c_ref (λ _, Some []) (λ _, None) (AEnd 7)
               (act_all crc32c_ref (λ _, Some []) (λ _, None) [ASubscribe 7 "@u" 5 42 ["!q"] true]%string (new 0, ∅ : gmap Z (Line Z (Z * list Queued * bool))))) in
  listeners "!r" x.1 = [(8, "@u")]%string ∧ ∀ t, 7 ∉ at_ (topics (rooms x.1)) t.
Proof.
  split; [by vm_compute|]. apply ended_connection_stays_out. intros a Ha. repeat (apply elem_of_cons in Ha as [->|Ha]; [by intros ?%elem_of_nil|]). by apply elem_of_nil in Ha.
Defined.
