(* ===== verification/StreamWindows.v ===== *)
(** * StreamWindows: what a catch-up window delivers

    The room channels' push and catch-up of Streams.v together with the packs
    of Pack.v, the framing and cutting of WireEvents.v and the registry of
    Subscribers.v: what arrives in the send queue decodes to the events that
    were to be sent. *)

From stdpp Require Import pretty.
From S2P Require Import Prelude Json Order Store Pack WireCodes WireEvents WireInvites PackQueue Subscribers Streams.

Section Windows.
Context `{!Usize} `{!HashOrder} (crc32c : bytes → Z) (to_vec : Value → option bytes) {W : Type} `{!PackSink W}.
Context (Hbits : usize_bits = 64) (Hcrc : ∀ bs, u32 (crc32c bs)) (Hjson : ∀ v m, to_vec v = Some m → bytes_ok m).

Lemma wide : usize_max = u64_max ∧ isize_max = 9223372036854775807.
Proof. unfold usize_max, isize_max. rewrite Hbits. by vm_compute. Qed.

(** ** One pack *)

Lemma with_meta_data_Ok kind subtype flags i n meta_ d b :
  with_meta_data crc32c to_vec kind subtype flags i n meta_ d = Ok b →
  u8 subtype → u8 (flag_bits flags) → has_reserved_bits flags = false → u64 i → u32 n → bytes_ok d →
  ∃ m, to_vec meta_ = Some m ∧ zlen d ≤ u32_max ∧ decode crc32c b = Ok (mkView (mkHeader VERSION kind subtype flags i n) m d).
Proof.
  intros Hb Hs Hf Hr Hi Hn Hd. unfold with_meta_data, json_meta in Hb. destruct (to_vec meta_) as [m|] eqn:Hm; [|done].
  unfold ok_or in Hb. cbn [mbind result_bind] in Hb. set (p := mkPack kind subtype flags i n m d).
  assert (Hbuild : build crc32c p = Ok b) by exact Hb. clear Hb.
  assert (zlen m ≤ u32_max ∧ zlen d ≤ u32_max) as [Hml Hdl].
  { unfold build in Hbuild. apply bind_Ok_inv in Hbuild as (b1 & Hb1 & Hbuild). apply bind_Ok_inv in Hbuild as (b2 & Hb2 & _). split.
    - unfold meta in Hb1. apply bind_Ok_inv in Hb1 as (u & _ & Hb1). apply bind_Ok_inv in Hb1 as (len & Hlen & _). unfold u32_try_from in Hlen. cbn [p_meta p] in Hlen.
      by destruct (Z.leb_spec (zlen m) u32_max).
    - unfold data, data_slot in Hb2. apply bind_Ok_inv in Hb2 as (b3 & Hb3 & _). apply bind_Ok_inv in Hb3 as (u & _ & Hb3). apply bind_Ok_inv in Hb3 as (len & Hlen & _).
      unfold u32_try_from in Hlen. cbn [p_data p] in Hlen. by destruct (Z.leb_spec (zlen d) u32_max). }
  assert (Hok : pack_ok p) by (unfold pack_ok; cbn [p p_subtype p_flags p_id p_seq p_meta p_data]; split_and!; try done; by apply (Hjson meta_)).
  assert (Hfit : buffer_fits (pack_len p)).
  { unfold buffer_fits, pack_len, OVERHEAD, HEADER_LEN. cbn [p_meta p_data p]. destruct wide as [-> _]. unfold u32_max, u64_max in *. lia. }
  exists m. split; [done|]. split; [done|]. rewrite build_layout in Hbuild by done. injection Hbuild as <-. by rewrite decode_layout.
Qed.

(** A pack of one chunk of events. *)
Definition carries (i n : Z) (g : bool) (chunk : list PushedEvent) (pack : bytes) : Prop :=
  ∃ m d, decode crc32c pack = Ok (mkView (mkHeader VERSION Event EVENT_PUSH_SUBTYPE IS_RESPONSE i n) m d)
    ∧ to_vec (push_meta (zlen chunk) (from_option g_seq 0 (head chunk)) (from_option g_seq 0 (last chunk)) g) = Some m
    ∧ split_length_prefixed d = Ok (json <$> chunk).

Lemma frames_ok l : Forall bytes_ok l → bytes_ok (frames l).
Proof. induction 1 as [|e l He _ IH]; cbn [frames]; [constructor|]. repeat apply Forall_app_2; [apply be_bytes_ok|done..]. Qed.

Lemma push_pack_carries i n g chunk d pack :
  length_prefixed (json <$> chunk) = Ok d → Forall (λ e, bytes_ok (json e)) chunk → u64 i → u32 n →
  made (push_pack crc32c to_vec i n (zlen chunk) (from_option g_seq 0 (head chunk)) (from_option g_seq 0 (last chunk)) g d) = Some pack → carries i n g chunk pack.
Proof.
  intros Hd Hb Hi Hn Hp. unfold made in Hp. destruct (push_pack _ _ _ _ _ _ _ _ _) as [b| |] eqn:Hpack; [|done..]. injection Hp as <-.
  assert (Hdok : bytes_ok d) by (apply length_prefixed_Ok in Hd as [_ ->]; apply frames_ok; by apply Forall_fmap).
  apply with_meta_data_Ok in Hpack as (m & Hm & Hdl & Hdec); [|by vm_compute..|done|done|done].
  exists m, d. split_and!; [done|done|]. apply (event_frames_roundtrip (json <$> chunk) d Hdok); [|done]. destruct wide as [_ ->]. unfold u32_max in Hdl. lia.
Qed.

(** ** One push to one connection *)

Lemma push_single (r : Registry (Topic := RoomTopic)) (w : W) c s mk :
  subscribers r !! c = Some s →
  ∃ s' w', push_with None [c] mk (r, w) = (set_subscribers (<[c := s']> (subscribers r)) r, w') ∧ who s' = who s ∧ seq s' = next_seq (seq s)
    ∧ closed w' (queue s) = closed w (queue s)
    ∧ ((∃ pack, mk (id s) (seq s) (gap s) = Some pack ∧ closed w (queue s) = false ∧ sent w' (queue s) = sent w (queue s) ++ [pack] ∧ gap s' = false)
       ∨ (sent w' (queue s) = sent w (queue s) ∧ (gap s' = true ∨ closed w (queue s) = true))).
Proof.
  intros Hs. unfold push_with, take_targets. cbn [fst snd foldl take_target is_still_in_topic]. rewrite Hs. cbn [app foldl offer t_id t_seq t_gap t_queue t_connection].
  set (r1 := set_subscribers _ r). assert (Hr1 : subscribers r1 !! c = Some (taken s)) by (cbn; by rewrite lookup_insert_eq).
  assert (Hmark : mark_gap [c] r1 = set_subscribers (<[c := set_gap true (taken s)]> (subscribers r)) r).
  { unfold mark_gap. cbn [foldl]. rewrite Hr1. cbn. by rewrite insert_insert_eq. }
  assert (Hnone : mark_gap [] r1 = set_subscribers (<[c := taken s]> (subscribers r)) r) by done.
  destruct (mk (id s) (seq s) (gap s)) as [pack|] eqn:Hpack.
  - pose proof (try_send_ok (queue s) pack w) as Hok. pose proof (try_send_err (queue s) pack w) as Herr. pose proof (closed_gone (queue s) pack w) as Hgone.
    pose proof (closed_err (queue s) pack w) as Hshut. pose proof (closed_stays (queue s) (queue s) pack w) as Hstay.
    destruct (try_send (queue s) pack w) as [[[]|] w'] eqn:Hsend; cbn [fst snd] in *.
    + exists (taken s), w'. split_and!; [done..|]. right. split; [by apply Herr|right; by apply Hgone].
    + cbn [app]. rewrite Hmark. exists (set_gap true (taken s)), w'. split_and!; [done..|]. right. split; [by apply Herr|by left].
    + cbn [app]. rewrite Hmark. exists (set_gap true (taken s)), w'. split_and!; [done..|]. right. split; [by apply Herr|by left].
    + exists (taken s), w'. split_and!; [done..|]. left. exists pack. split_and!; [done| |by apply Hok|done]. destruct (closed w (queue s)); [|done]. by destruct (Hshut eq_refl).
  - cbn [app]. rewrite Hmark. exists (set_gap true (taken s)), w. split_and!; [done..|]. right. split; [done|by left].
Qed.

(** ** A window *)

(** What may have arrived of a run of chunks, from the number [n] and the mark
    [g] on: each chunk's pack, or nothing of it and the mark on what follows. *)
Fixpoint arrived (i n : Z) (g : bool) (chunks : list (list PushedEvent)) (packs : list bytes) : Prop :=
  match chunks with
  | [] => packs = []
  | chunk :: chunks =>
      (∃ pack rest, packs = pack :: rest ∧ carries i n g chunk pack ∧ arrived i (next_seq n) false chunks rest) ∨ arrived i (next_seq n) true chunks packs
  end.

Lemma arrived_nothing i n g chunks : arrived i n g chunks [].
Proof. revert n g. induction chunks as [|chunk chunks IH]; intros n g; [done|]. right. apply IH. Qed.

Definition sendable (chunk : list PushedEvent) : Prop := chunk ≠ [] ∧ Forall (λ e, bytes_ok (json e) ∧ zlen (json e) ≤ u32_max) chunk.

Lemma next_seq_u32 n : u32 (next_seq n).
Proof. pose proof (next_seq_range n). unfold u32, u32_max. lia. Qed.

Lemma push_chunk c chunk (x : Streams * W) s :
  sendable chunk → subscribers (rooms x.1) !! c = Some s → u64 (id s) → u32 (seq s) →
  ∃ s', subscribers (rooms (push crc32c to_vec [c] chunk x).1) !! c = Some s' ∧ who s' = who s ∧ seq s' = next_seq (seq s)
    ∧ closed (push crc32c to_vec [c] chunk x).2 (queue s) = closed x.2 (queue s)
    ∧ ((∃ pack, carries (id s) (seq s) (gap s) chunk pack ∧ closed x.2 (queue s) = false ∧ sent (push crc32c to_vec [c] chunk x).2 (queue s) = sent x.2 (queue s) ++ [pack] ∧ gap s' = false)
       ∨ (sent (push crc32c to_vec [c] chunk x).2 (queue s) = sent x.2 (queue s) ∧ (gap s' = true ∨ closed x.2 (queue s) = true))).
Proof.
  intros [Hne Hfit] Hs Hi Hn. destruct chunk as [|e chunk]; [done|]. unfold push, push_inner.
  rewrite (length_prefixed_frames (json <$> e :: chunk)) by (apply Forall_fmap; eapply Forall_impl; [exact Hfit|by intros ? []]). unfold on_rooms.
  set (mk := λ i n g, made _). destruct (push_single (rooms x.1) x.2 c s mk Hs) as (s' & w' & -> & Hwho & Hseq & Hcl & Hcase). cbn [fst snd rooms set_rooms subscribers set_subscribers].
  exists s'. rewrite lookup_insert_eq. split_and!; [done..|]. destruct Hcase as [(pack & Hpack & Hopen & Hsent & Hg)|Hlost]; [left|by right]. exists pack. split_and!; [|done..].
  unfold mk in Hpack. eapply push_pack_carries; [|eapply Forall_impl; [exact Hfit|by intros ? []]|done..|exact Hpack].
  apply length_prefixed_frames, Forall_fmap. eapply Forall_impl; [exact Hfit|by intros ? []].
Qed.

Lemma window_fold c chunks (x : Streams * W) s :
  Forall sendable chunks → subscribers (rooms x.1) !! c = Some s → u64 (id s) → u32 (seq s) →
  ∃ new, sent (foldl (λ x chunk, push crc32c to_vec [c] chunk x) x chunks).2 (queue s) = sent x.2 (queue s) ++ new
    ∧ (closed x.2 (queue s) = true → new = []) ∧ arrived (id s) (seq s) (gap s) chunks new.
Proof.
  intros Hch. revert x s. induction Hch as [|chunk chunks Hc _ IH]; intros x s Hs Hi Hn; cbn [foldl arrived]; [exists []; by rewrite app_nil_r|].
  destruct (push_chunk c chunk x s Hc Hs Hi Hn) as (s' & Hs' & Hwho & Hseq & Hcl & Hcase). assert (id s' = id s ∧ queue s' = queue s) as [Ei Eq] by (unfold who in Hwho; by injection Hwho).
  destruct (IH (push crc32c to_vec [c] chunk x) s' Hs') as (new & Hnew & Hshut & Harr); [by rewrite Ei|rewrite Hseq; apply next_seq_u32|]. rewrite Eq, Ei, Hseq in *.
  destruct Hcase as [(pack & Hcar & Hopen & Hsent & Hg)|[Hsent Hg]].
  - exists (pack :: new). rewrite Hnew, Hsent, <-app_assoc. split_and!; [done|by rewrite Hopen|]. left. exists pack, new. rewrite Hg in Harr. by split_and!.
  - exists new. rewrite Hnew, Hsent. split_and!; [done|intros; apply Hshut; congruence|]. right. destruct Hg as [Hg|Hg]; [by rewrite Hg in Harr|]. rewrite Hshut by congruence. apply arrived_nothing.
Qed.

(** ** Cutting *)

Lemma chain_le a rs b : chain a rs b → (a ≤ b)%nat.
Proof. revert a. induction rs as [|[s e] rs IH]; intros a; cbn [chain]; [lia|]. intros (-> & ? & ?%IH). lia. Qed.

Lemma chain_chunks {A} (l : list A) a rs : chain a rs (length l) → mjoin (sub_list l <$> rs) = drop a l ∧ Forall (λ chunk, chunk ≠ []) (sub_list l <$> rs).
Proof.
  revert a. induction rs as [|[s e] rs IH]; intros a; cbn [chain fmap list_fmap mjoin list_join]; [intros ->; by rewrite drop_all|].
  intros (-> & Hlt & Hch). pose proof (chain_le _ _ _ Hch). destruct (IH e Hch) as [He Hne]. split.
  - change (sub_list l (a, e) ++ mjoin (sub_list l <$> rs) = drop a l). rewrite He. unfold sub_list. cbn [fst snd]. replace (drop e l) with (drop (e - a) (drop a l)) by (rewrite drop_drop; f_equal; lia). apply take_drop.
  - apply Forall_cons; split; [|done]. unfold sub_list. cbn [fst snd]. intros Hn%(f_equal length). rewrite length_take, length_drop in Hn. cbn in Hn. lia.
Qed.

Lemma sub_list_Forall {A} (P : A → Prop) (l : list A) r : Forall P l → Forall P (sub_list l r).
Proof. intros Hl. unfold sub_list. by apply Forall_take, Forall_drop. Qed.

End Windows.

(** ** A window of three events *)

#[local] Existing Instances usize_64 in_order z_semaphore list_channel.

Definition braces (v : Value) : option bytes := Some [123; 125].
Definition caught_up : Streams * gmap Z (Line Z (Z * list Queued * bool)) := ((subscribe 7 "@u" 5 42 ["!r"] true (new 0)).2, {[ 5 := start 8 1000 ]})%string.
Definition missed : list PushedEvent := [mkPushedEvent 9 [123; 125]; mkPushedEvent 8 [1]; mkPushedEvent 7 []].

