(* ===== verification/Membership.v ===== *)
(** * Membership: who is in which room

    src/service/rooms/state_cache/update.rs and the queries of
    src/service/rooms/state_cache/mod.rs: the four pairs of columns that hold
    each user's membership of each room, written in one transaction per
    transition, the questions asked of them, the aggregate counts of a room, and
    the hooks into the streams.  A key is two identifiers with the separator
    byte between them (RecordCodec.v). *)

From stdpp Require Import sorting.
From S2P Require Import Prelude Json Order Store CoreError PackQueue Subscribers Streams.

(** ** Keys *)

Definition sep_char : Ascii.ascii := Ascii.ascii_of_nat 255.
Definition SEPARATOR : string := String (sep_char) EmptyString.

(** [serialize_key((a, b))] *)
Definition key (a b : string) : string := (a +:+ SEPARATOR +:+ b)%string.

Fixpoint sep_free (s : string) : bool :=
  match s with EmptyString => true | String a s => negb (bool_decide (a = sep_char)) && sep_free s end.

Fixpoint starts_with (p s : string) : bool :=
  match p, s with
  | EmptyString, _ => true
  | String a p, String b s => bool_decide (a = b) && starts_with p s
  | _, _ => false
  end.

(** The second component of a key whose first is ignored. *)
Fixpoint second (k : string) : option string :=
  match k with
  | EmptyString => None
  | String a k => if bool_decide (a = sep_char) then Some k else second k
  end.

Lemma key_nil b : key EmptyString b = String sep_char b.
Proof. reflexivity. Qed.
Lemma key_cons x a b : key (String x a) b = String x (key a b).
Proof. reflexivity. Qed.
Lemma sep_free_cons x a : sep_free (String x a) = true ↔ x ≠ sep_char ∧ sep_free a = true.
Proof. cbn [sep_free]. by rewrite andb_true_iff, negb_true_iff, bool_decide_eq_false. Qed.

Lemma key_inj a b a' b' : sep_free a = true → sep_free a' = true → key a b = key a' b' → a = a' ∧ b = b'.
Proof.
  revert a'. induction a as [|x a IH]; intros [|x' a']; rewrite ?key_nil, ?key_cons, ?sep_free_cons.
  - intros _ _ [= ->]. done.
  - intros _ [Hx' _] [= Hx _]. congruence.
  - intros [Hx _] _ [= Hx' _]. congruence.
  - intros [_ Ha] [_ Ha'] [= -> He]. destruct (IH a' Ha Ha' He) as [-> ->]. done.
Qed.

Lemma second_key a b : sep_free a = true → second (key a b) = Some b.
Proof.
  induction a as [|x a IH]; rewrite ?key_nil, ?key_cons, ?sep_free_cons; cbn [second]; [by rewrite bool_decide_true|]. intros [Hx Ha]. rewrite bool_decide_false by done. by apply IH.
Qed.

Lemma starts_with_key a a' b : sep_free a = true → sep_free a' = true → starts_with (a +:+ SEPARATOR)%string (key a' b) = true ↔ a = a'.
Proof.
  assert (Hnil : (EmptyString +:+ SEPARATOR)%string = String sep_char EmptyString) by reflexivity.
  assert (Hcons : ∀ x s, (String x s +:+ SEPARATOR)%string = String x (s +:+ SEPARATOR)%string) by reflexivity.
  revert a'. induction a as [|x a IH]; intros [|x' a']; rewrite ?Hnil, ?Hcons, ?key_nil, ?key_cons, ?sep_free_cons; cbn [starts_with]; rewrite ?andb_true_iff, ?bool_decide_eq_true.
  - done.
  - intros _ [Hx' _]. split; [intros [Hx _]; congruence|done].
  - intros [Hx _] _. split; [intros [Hx' _]; congruence|done].
  - intros [_ Ha] [_ Ha']. rewrite (IH a' Ha Ha'). split; [by intros [-> ->]|by intros [= -> ->]].
Qed.

(** ** Data *)

(** The two columns of one kind of membership. *)
Record Rows := mkRows { by_user_room : gmap string bytes; by_room_user : gmap string bytes }.

Record Cache := mkCache {
  joined : Rows;
  invited : Rows;
  left : Rows;
  knocked : Rows;
  once : gset string;
  joinedcount : gmap string Z;
  invitedcount : gmap string Z;
  knockedcount : gmap string Z;
  roomserverids : gset string;
  serverroomids : gset string
}.

Definition no_rows : Rows := mkRows ∅ ∅.
Definition empty_cache : Cache := mkCache no_rows no_rows no_rows no_rows ∅ ∅ ∅ ∅ ∅ ∅.

(** [enum MembershipState] *)
Inductive MembershipState := Ban | Invite | Join | Knock | Leave | Custom (s : string).

Definition membership_str (m : MembershipState) : string :=
  match m with Ban => "ban" | Invite => "invite" | Join => "join" | Knock => "knock" | Leave => "leave" | Custom s => s end%string.

(** ** Transitions *)

Definition put_rows (user room : string) (vu vr : bytes) (t : Rows) : Rows := mkRows (<[key user room := vu]> (by_user_room t)) (<[key room user := vr]> (by_room_user t)).
Definition del_rows (user room : string) (t : Rows) : Rows := mkRows (delete (key user room) (by_user_room t)) (delete (key room user) (by_room_user t)).

Definition set_rows (j i l k : Rows) (c : Cache) : Cache :=
  mkCache j i l k (once c) (joinedcount c) (invitedcount c) (knockedcount c) (roomserverids c) (serverroomids c).

Definition mark_as_joined (user room : string) (count : Z) (c : Cache) : Cache :=
  let n := be_bytes 8 count in
  set_rows (put_rows user room n n (joined c)) (del_rows user room (invited c)) (del_rows user room (left c)) (del_rows user room (knocked c)) c.

(** The left state written is an empty JSON array. *)
Definition mark_as_left (user room : string) (count : Z) (c : Cache) : Cache :=
  set_rows (del_rows user room (joined c)) (del_rows user room (invited c)) (put_rows user room [91; 93] (be_bytes 8 count) (left c)) (del_rows user room (knocked c)) c.

Definition mark_as_knocked (user room : string) (count : Z) (state : bytes) (c : Cache) : Cache :=
  set_rows (del_rows user room (joined c)) (del_rows user room (invited c)) (del_rows user room (left c)) (put_rows user room state (be_bytes 8 count) (knocked c)) c.

Definition mark_as_invited (user room : string) (count : Z) (state : bytes) (c : Cache) : Cache :=
  set_rows (del_rows user room (joined c)) (put_rows user room state (be_bytes 8 count) (invited c)) (del_rows user room (left c)) (del_rows user room (knocked c)) c.

Definition forget (room user : string) (c : Cache) : Cache := set_rows (joined c) (invited c) (del_rows user room (left c)) (knocked c) c.

Definition mark_as_once_joined (user room : string) (c : Cache) : Cache :=
  mkCache (joined c) (invited c) (left c) (knocked c) (once c ∪ {[key user room]}) (joinedcount c) (invitedcount c) (knockedcount c) (roomserverids c) (serverroomids c).

(** ** Questions *)

Definition has (t : Rows) (user room : string) : bool := bool_decide (is_Some (by_user_room t !! key user room)).
Definition is_joined (user room : string) (c : Cache) : bool := has (joined c) user room.
Definition is_invited (user room : string) (c : Cache) : bool := has (invited c) user room.
Definition is_left (user room : string) (c : Cache) : bool := has (left c) user room.
Definition is_knocked (user room : string) (c : Cache) : bool := has (knocked c) user room.
Definition once_joined (user room : string) (c : Cache) : bool := bool_decide (key user room ∈ once c).

Definition user_membership (user room : string) (c : Cache) : option MembershipState :=
  match is_joined user room c, is_left user room c, is_knocked user room c, is_invited user room c, once_joined user room c with
  | true, _, _, _, _ => Some Join
  | _, true, _, _, _ => Some Leave
  | _, _, true, _, _ => Some Knock
  | _, _, _, true, _ => Some Invite
  | false, false, false, false, true => Some Ban
  | _, _, _, _, _ => None
  end.

(** The keys of a column that start with a prefix, in order, and what follows
    their first separator. *)
Definition seconds (prefix : string) (m : gset string) : list string :=
  omap (λ k, if starts_with prefix k then second k else None) (merge_sort str_le (elements m)).

(** [keys_prefix((room_id, Interfix))] *)
Definition room_members (room : string) (c : Cache) : list string := seconds (room +:+ SEPARATOR)%string (dom (by_room_user (joined c))).
Definition room_members_invited (room : string) (c : Cache) : list string := seconds (room +:+ SEPARATOR)%string (dom (by_room_user (invited c))).
Definition room_members_knocked (room : string) (c : Cache) : list string := seconds (room +:+ SEPARATOR)%string (dom (by_room_user (knocked c))).
Definition room_servers (room : string) (c : Cache) : list string := seconds (room +:+ SEPARATOR)%string (roomserverids c).

(** [keys_raw_prefix(user_id)] *)
Definition rooms_joined (user : string) (c : Cache) : list string := seconds user (dom (by_user_room (joined c))).
Definition rooms_invited (user : string) (c : Cache) : list string := seconds user (dom (by_user_room (invited c))).

(** ** Aggregates *)

Section Update.
Context `{!Usize} `{!HashOrder} (crc32c : bytes → Z) (to_vec : Value → option bytes) (from_slice : bytes → option Value) {W : Type} `{!PackSink W}.
Context (server_name : string → string).

Definition set_counts (room : string) (j i k : Z) (rs sr : gset string) (c : Cache) : Cache :=
  mkCache (joined c) (invited c) (left c) (knocked c) (once c) (<[room := j]> (joinedcount c)) (<[room := i]> (invitedcount c)) (<[room := k]> (knockedcount c)) rs sr.

Definition update_joined_count (room : string) (c : Cache) : Cache :=
  let members := room_members room c in
  let joined_servers : gset string := list_to_set (server_name <$> members) in
  let gone := filter (λ s, s ∉ joined_servers) (room_servers room c) in
  let fresh := filter (λ s, s ∉ room_servers room c) (elements joined_servers) in
  let rs := foldl (λ m s, m ∖ {[key room s]}) (roomserverids c) gone in
  let sr := foldl (λ m s, m ∖ {[key s room]}) (serverroomids c) gone in
  set_counts room (Z.min (zlen members) u64_max) (zlen (room_members_invited room c)) (zlen (room_members_knocked room c))
    (foldl (λ m s, m ∪ {[key room s]}) rs fresh) (foldl (λ m s, m ∪ {[key s room]}) sr fresh) c.

(** ** [update_membership] *)

(** What a transition meets outside this service. *)
Record Around := mkAround {
  user_is_ignored : string → string → bool;
  ensure_remote_user : Res ();
  copy_predecessor_data : Res ();
  (** [forget_forced_upon_leave], or a banned or disabled room; and the user is local *)
  forget_forced : bool;
  invite_events : bytes → option (list bytes);
  data_max_bytes : Z;
  meta_max_bytes : Z
}.
Context (around : Around).

Definition on_streams (f : Streams → Streams) (x : Cache * (Streams * W)) : Cache * (Streams * W) := (x.1, (f x.2.1, x.2.2)).

Definition handle_join (room user : string) (count : Z) (x : Cache * (Streams * W)) : Res () * (Cache * (Streams * W)) :=
  let '(c, out) := x in
  let first := negb (once_joined user room c) in
  let c := if first then mark_as_once_joined user room c else c in
  match (if first then copy_predecessor_data around else Ok tt) with
  | Ok _ => (Ok tt, on_streams (follow user room) (mark_as_joined user room count c, out))
  | failed => (failed, (c, out))
  end.

Definition handle_leave (room user : string) (count : Z) (x : Cache * (Streams * W)) : Cache * (Streams * W) :=
  let x := on_streams (evict user room) (mark_as_left user room count x.1, x.2) in
  if forget_forced around then (forget room user x.1, x.2) else x.

Definition push_invited_to_streams (user room : string) (count : Z) (x : Cache * (Streams * W)) : Cache * (Streams * W) :=
  if is_listened_for_invites user x.2.1 then
    match by_user_room (invited x.1) !! key user room ≫= invite_events around with
    | None => x
    | Some state => (x.1, push_invited crc32c to_vec from_slice user room (mkPushedInvite count state) (data_max_bytes around) (meta_max_bytes around) x.2)
    end
  else x.

Definition is_invite_ended_by (m : MembershipState) : bool := match m with Join | Leave | Ban | Knock => true | _ => false end.

(** The arms of the [match]; [None] is the early return of an ignored invite. *)
Definition transition (room user sender : string) (m : MembershipState) (state : bytes) (count : Z) (x : Cache * (Streams * W))
  : option (Res ()) * (Cache * (Streams * W)) :=
  match m with
  | Join => let '(r, x) := handle_join room user count x in (Some r, x)
  | Invite =>
      if user_is_ignored around sender user then (None, x)
      else (Some (Ok tt), push_invited_to_streams user room count (mark_as_invited user room count state x.1, x.2))
  | Leave | Ban => (Some (Ok tt), handle_leave room user count x)
  | Knock => (Some (Ok tt), (mark_as_knocked user room count state x.1, x.2))
  | Custom _ => (Some (Ok tt), x)
  end.

Definition update_membership (room user sender : string) (m : MembershipState) (state : bytes) (update_count : bool) (count : Z) (x : Cache * (Streams * W))
  : Res () * (Cache * (Streams * W)) :=
  let was_invited := is_invited user room x.1 in
  match ensure_remote_user around with
  | Ok _ =>
      match transition room user sender m state count x with
      | (Some (Ok _), x) =>
          let x := if was_invited && is_invite_ended_by m then (x.1, push_invite_gone crc32c to_vec user room (membership_str m) count x.2) else x in
          (Ok tt, if update_count then (update_joined_count room x.1, x.2) else x)
      | (Some failed, x) => (failed, x)
      | (None, x) => (Ok tt, x)
      end
  | failed => (failed, x)
  end.
End Update.

(** [delete_room_join_counts] *)
Definition drop_room (room : string) (keep : string → bool) (t : Rows) : Rows :=
  foldl (λ t user, if keep user then t else del_rows user room t) t (seconds (room +:+ SEPARATOR)%string (dom (by_room_user t))).

Definition delete_room_join_counts (room : string) (force : bool) (user_is_local : string → bool) (c : Cache) : Cache :=
  let servers := room_servers room c in
  mkCache (drop_room room (λ _, false) (joined c)) (drop_room room (λ _, false) (invited c)) (drop_room room (λ u, negb (force || negb (user_is_local u))) (left c))
    (drop_room room (λ _, false) (knocked c)) (once c) (delete room (joinedcount c)) (delete room (invitedcount c)) (delete room (knockedcount c))
    (foldl (λ m s, m ∖ {[key room s]}) (roomserverids c) servers) (foldl (λ m s, m ∖ {[key s room]}) (serverroomids c) servers).

(** ** What the columns say

    One status for a user in a room, and whether they ever joined. *)

Inductive Status := SJoined | SInvited | SLeft | SKnocked.
#[global] Instance Status_eq_dec : EqDecision Status.
Proof. solve_decision. Defined.

Record Roster := mkRoster { status : gmap (string * string) Status; ever : gset (string * string) }.

Definition of_ (t : Status) (s : Roster) : gset (string * string) := dom (filter (λ x, x.2 = t) (status s)).
Definition ids (p : string * string) : Prop := sep_free p.1 = true ∧ sep_free p.2 = true.

Definition user_key (p : string * string) : string := key p.1 p.2.
Definition room_key (p : string * string) : string := key p.2 p.1.

Record rows_are (S : gset (string * string)) (t : Rows) : Prop := {
  ra_ids : ∀ p, p ∈ S → ids p;
  ra_user : ∀ k, k ∈ dom (by_user_room t) ↔ ∃ p, p ∈ S ∧ k = user_key p;
  ra_room : ∀ k, k ∈ dom (by_room_user t) ↔ ∃ p, p ∈ S ∧ k = room_key p
}.

Lemma user_key_inj p p' : ids p → ids p' → user_key p = user_key p' → p = p'.
Proof. intros [? _] [? _] [? ?]%key_inj; [|done..]. destruct p, p'. cbn in *. congruence. Qed.
Lemma room_key_inj p p' : ids p → ids p' → room_key p = room_key p' → p = p'.
Proof. intros [_ ?] [_ ?] [? ?]%key_inj; [|done..]. destruct p, p'. cbn in *. congruence. Qed.

Lemma put_rows_are S t p vu vr : rows_are S t → ids p → rows_are (S ∪ {[p]}) (put_rows p.1 p.2 vu vr t).
Proof.
  intros [Hi Hu Hr] Hp. split.
  - intros p'. rewrite elem_of_union, elem_of_singleton. intros [?| ->]; [by apply Hi|done].
  - intros k. cbn [put_rows by_user_room]. rewrite dom_insert, elem_of_union, elem_of_singleton, Hu. setoid_rewrite elem_of_union. setoid_rewrite elem_of_singleton. split; [intros [->|(p' & ? & ->)]; eauto|].
    intros (p' & [?| ->] & ->); eauto.
  - intros k. cbn [put_rows by_room_user]. rewrite dom_insert, elem_of_union, elem_of_singleton, Hr. setoid_rewrite elem_of_union. setoid_rewrite elem_of_singleton. split; [intros [->|(p' & ? & ->)]; eauto|].
    intros (p' & [?| ->] & ->); eauto.
Qed.

Lemma del_rows_are S t p : rows_are S t → ids p → rows_are (S ∖ {[p]}) (del_rows p.1 p.2 t).
Proof.
  intros [Hi Hu Hr] Hp. split.
  - intros p' [? _]%elem_of_difference. by apply Hi.
  - intros k. cbn [del_rows by_user_room]. rewrite dom_delete, elem_of_difference, elem_of_singleton, Hu. setoid_rewrite elem_of_difference. setoid_rewrite elem_of_singleton. split.
    + intros [(p' & ? & ->) Hne]. exists p'. split_and!; [done| |done]. by intros ->.
    + intros (p' & [Hin Hne] & ->). split; [eauto|]. intros He. apply Hne. apply user_key_inj; [by apply Hi|done|done].
  - intros k. cbn [del_rows by_room_user]. rewrite dom_delete, elem_of_difference, elem_of_singleton, Hr. setoid_rewrite elem_of_difference. setoid_rewrite elem_of_singleton. split.
    + intros [(p' & ? & ->) Hne]. exists p'. split_and!; [done| |done]. by intros ->.
    + intros (p' & [Hin Hne] & ->). split; [eauto|]. intros He. apply Hne. apply room_key_inj; [by apply Hi|done|done].
Qed.

Lemma rows_are_ext S S' t : rows_are S t → S ≡ S' → rows_are S' t.
Proof. intros [Hi Hu Hr] He. split; [intros p; rewrite <-He; apply Hi|intros k; rewrite Hu; by setoid_rewrite He|intros k; rewrite Hr; by setoid_rewrite He]. Qed.

Lemma elem_of_of t s p : p ∈ of_ t s ↔ status s !! p = Some t.
Proof. unfold of_. rewrite elem_of_dom. unfold is_Some. setoid_rewrite map_lookup_filter_Some. cbn. naive_solver. Qed.

Record roster_is (s : Roster) (c : Cache) : Prop := {
  ri_joined : rows_are (of_ SJoined s) (joined c);
  ri_invited : rows_are (of_ SInvited s) (invited c);
  ri_left : rows_are (of_ SLeft s) (left c);
  ri_knocked : rows_are (of_ SKnocked s) (knocked c);
  ri_once : ∀ k, k ∈ once c ↔ ∃ p, p ∈ ever s ∧ k = user_key p;
  ri_ever : ∀ p, p ∈ ever s → ids p
}.

(** ** Transitions of a status *)

Definition mark (p : string * string) (t : Status) (s : Roster) : Roster := mkRoster (<[p := t]> (status s)) (ever s).
Definition unmark (p : string * string) (s : Roster) : Roster := mkRoster (if bool_decide (status s !! p = Some SLeft) then delete p (status s) else status s) (ever s).
Definition mark_ever (p : string * string) (s : Roster) : Roster := mkRoster (status s) (ever s ∪ {[p]}).

Lemma of_mark t t' p s : of_ t (mark p t' s) ≡ if decide (t = t') then of_ t s ∪ {[p]} else of_ t s ∖ {[p]}.
Proof.
  intros p'. rewrite elem_of_of. cbn [mark status]. case_decide as Ht; rewrite ?elem_of_union, ?elem_of_difference, elem_of_singleton, elem_of_of;
    (destruct (decide (p' = p)) as [->|Hp]; [rewrite lookup_insert_eq|rewrite lookup_insert_ne by done]); naive_solver.
Qed.

Lemma mark_rows t t' p s r vu vr :
  rows_are (of_ t s) r → ids p → rows_are (of_ t (mark p t' s)) (if decide (t = t') then put_rows p.1 p.2 vu vr r else del_rows p.1 p.2 r).
Proof.
  intros Hr Hp. eapply rows_are_ext; [|symmetry; apply of_mark]. case_decide; [by apply put_rows_are|by apply del_rows_are].
Qed.

Lemma mark_joined s c p n : roster_is s c → ids p → roster_is (mark p SJoined s) (mark_as_joined p.1 p.2 n c).
Proof.
  intros [Hj Hi Hl Hk Ho He] Hp. split; [exact (mark_rows SJoined SJoined p s _ _ _ Hj Hp)|exact (mark_rows SInvited SJoined p s _ [] [] Hi Hp)
    |exact (mark_rows SLeft SJoined p s _ [] [] Hl Hp)|exact (mark_rows SKnocked SJoined p s _ [] [] Hk Hp)|done|done].
Qed.
Lemma mark_left s c p n : roster_is s c → ids p → roster_is (mark p SLeft s) (mark_as_left p.1 p.2 n c).
Proof.
  intros [Hj Hi Hl Hk Ho He] Hp. split; [exact (mark_rows SJoined SLeft p s _ [] [] Hj Hp)|exact (mark_rows SInvited SLeft p s _ [] [] Hi Hp)
    |exact (mark_rows SLeft SLeft p s _ _ _ Hl Hp)|exact (mark_rows SKnocked SLeft p s _ [] [] Hk Hp)|done|done].
Qed.
Lemma mark_knocked s c p n st : roster_is s c → ids p → roster_is (mark p SKnocked s) (mark_as_knocked p.1 p.2 n st c).
Proof.
  intros [Hj Hi Hl Hk Ho He] Hp. split; [exact (mark_rows SJoined SKnocked p s _ [] [] Hj Hp)|exact (mark_rows SInvited SKnocked p s _ [] [] Hi Hp)
    |exact (mark_rows SLeft SKnocked p s _ [] [] Hl Hp)|exact (mark_rows SKnocked SKnocked p s _ _ _ Hk Hp)|done|done].
Qed.
Lemma mark_invited s c p n st : roster_is s c → ids p → roster_is (mark p SInvited s) (mark_as_invited p.1 p.2 n st c).
Proof.
  intros [Hj Hi Hl Hk Ho He] Hp. split; [exact (mark_rows SJoined SInvited p s _ [] [] Hj Hp)|exact (mark_rows SInvited SInvited p s _ _ _ Hi Hp)
    |exact (mark_rows SLeft SInvited p s _ [] [] Hl Hp)|exact (mark_rows SKnocked SInvited p s _ [] [] Hk Hp)|done|done].
Qed.

Lemma unmark_left s c p : roster_is s c → ids p → roster_is (unmark p s) (forget p.2 p.1 c).
Proof.
  intros [Hj Hi Hl Hk Ho He] Hp. assert (Hof : ∀ t, of_ t (unmark p s) ≡ if decide (t = SLeft) then of_ t s ∖ {[p]} else of_ t s).
  { intros t p'. rewrite elem_of_of. unfold unmark. cbn [status]. case_decide as Ht; rewrite ?elem_of_difference, ?elem_of_singleton, ?elem_of_of; case_bool_decide as Hs;
      (destruct (decide (p' = p)) as [->|Hne]; [rewrite ?lookup_delete_eq|rewrite ?lookup_delete_ne by done]); naive_solver. }
  split; [eapply rows_are_ext; [exact Hj|by rewrite Hof]|eapply rows_are_ext; [exact Hi|by rewrite Hof]| |eapply rows_are_ext; [exact Hk|by rewrite Hof]|done|done].
  eapply rows_are_ext; [by apply (del_rows_are _ _ p Hl)|by rewrite Hof].
Qed.

Lemma once_ever s c p : roster_is s c → ids p → roster_is (mark_ever p s) (mark_as_once_joined p.1 p.2 c).
Proof.
  intros [Hj Hi Hl Hk Ho He] Hp. split; try done; cbn [mark_ever ever mark_as_once_joined once].
  - intros k. rewrite elem_of_union, elem_of_singleton, Ho. setoid_rewrite elem_of_union. setoid_rewrite elem_of_singleton. split; [intros [(p' & ? & ->)| ->]; eauto|]. intros (p' & [?| ->] & ->); eauto.
  - intros p'. rewrite elem_of_union, elem_of_singleton. intros [?| ->]; [by apply He|done].
Qed.

Lemma once_joined_spec s c p : roster_is s c → ids p → once_joined p.1 p.2 c = true ↔ p ∈ ever s.
Proof.
  intros [Hj Hi Hl Hk Ho He] Hp. unfold once_joined. rewrite bool_decide_eq_true, Ho. split; [|eauto]. intros (p' & Hin & Hk'). by apply user_key_inj in Hk' as ->; [|done|apply He].
Qed.

Lemma has_spec S t p : rows_are S t → ids p → has t p.1 p.2 = true ↔ p ∈ S.
Proof.
  intros [Hi Hu _] Hp. unfold has. rewrite bool_decide_eq_true, <-elem_of_dom, Hu. split; [|eauto]. intros (p' & Hin & Hk). by apply user_key_inj in Hk as ->; [|done|apply Hi].
Qed.

(** What a scan by room yields. *)
Lemma seconds_set (m : gset string) a b : (∀ k, k ∈ m → ∃ x y, sep_free x = true ∧ k = key x y) → sep_free a = true → b ∈ seconds (a +:+ SEPARATOR)%string m ↔ key a b ∈ m.
Proof.
  intros Hm Ha. unfold seconds. rewrite list_elem_of_omap. setoid_rewrite merge_sort_Permutation. setoid_rewrite elem_of_elements. split.
  - intros (k & Hin & Hk). destruct (Hm k Hin) as (x & y & Hx & ->). destruct (starts_with _ _) eqn:Hs; [|done]. apply starts_with_key in Hs as ->; [|done..]. rewrite second_key in Hk by done. by injection Hk as <-.
  - intros Hin. exists (key a b). split; [done|]. by rewrite (proj2 (starts_with_key a a b Ha Ha) eq_refl), second_key.
Qed.

Lemma seconds_spec S t room u : rows_are S t → sep_free room = true → u ∈ seconds (room +:+ SEPARATOR)%string (dom (by_room_user t)) ↔ (u, room) ∈ S.
Proof.
  intros [Hi _ Hr] Hroom. rewrite seconds_set by (done || intros k (p & Hp & ->)%Hr; destruct (Hi p Hp); by exists p.2, p.1). rewrite Hr. split.
  - intros (p & Hp & Hk). destruct (Hi p Hp) as [_ ?]. destruct p as [a b]. apply key_inj in Hk as [-> ->]; done.
  - intros Hp. by exists (u, room).
Qed.

Lemma seconds_nodup S t room : rows_are S t → sep_free room = true → NoDup (seconds (room +:+ SEPARATOR)%string (dom (by_room_user t))).
Proof.
  intros [Hi _ Hr] Hroom. unfold seconds. assert (Hnd : NoDup (merge_sort str_le (elements (dom (by_room_user t))))) by (rewrite merge_sort_Permutation; apply NoDup_elements).
  assert (Hin : ∀ k, k ∈ merge_sort str_le (elements (dom (by_room_user t))) → ∃ p, p ∈ S ∧ k = room_key p) by (intros k; rewrite merge_sort_Permutation, elem_of_elements; apply Hr).
  induction Hnd as [|k l Hk Hnd IH]; [apply NoDup_nil_2|]. specialize (IH (λ k' Hk', Hin k' (list_elem_of_further _ _ _ Hk'))). cbn [omap list_omap].
  destruct (Hin k ltac:(by left)) as (p & Hp & ->). destruct (Hi p Hp) as [_ Hp2]. unfold room_key. destruct (starts_with _ (key p.2 p.1)) eqn:Hs; [|done]. apply starts_with_key in Hs; [|done..].
  rewrite second_key by done. apply NoDup_cons_2; [|done]. rewrite list_elem_of_omap. intros (k' & Hk' & He). destruct (Hin k' ltac:(by right)) as (p' & Hp' & ->). destruct (Hi p' Hp') as [_ Hp2'].
  unfold room_key in He. destruct (starts_with _ (key p'.2 p'.1)) eqn:Hs'; [|done]. apply starts_with_key in Hs'; [|done..]. rewrite second_key in He by done. injection He as He.
  apply Hk. unfold room_key in *. by rewrite <-Hs, Hs', <-He.
Qed.

Lemma drop_room_are S t room keep :
  rows_are S t → sep_free room = true → rows_are (filter (λ p, ¬ (p.2 = room ∧ keep p.1 = false)) S) (drop_room room keep t).
Proof.
  intros Hr Hroom. unfold drop_room. assert (Hin : ∀ u, u ∈ seconds (room +:+ SEPARATOR)%string (dom (by_room_user t)) ↔ (u, room) ∈ S) by (intros u; by apply seconds_spec).
  assert (Hfold : ∀ l S0 t0, rows_are S0 t0 → (∀ u, u ∈ l → sep_free u = true) →
    rows_are (filter (λ p, ¬ (p.2 = room ∧ p.1 ∈ l ∧ keep p.1 = false)) S0) (foldl (λ t u, if keep u then t else del_rows u room t) t0 l)).
  { induction l as [|u l IH]; intros S0 t0 H0 Hl; cbn [foldl].
    - eapply rows_are_ext; [exact H0|]. intros p. rewrite elem_of_filter. split; [|tauto]. intros Hp. split; [|done]. by intros (_ & ?%elem_of_nil & _).
    - destruct (keep u) eqn:Hk.
      + eapply rows_are_ext; [apply IH; [exact H0|intros u' Hu'; apply Hl; by right]|]. intros p. rewrite !elem_of_filter, elem_of_cons. destruct (decide (p.1 = u)) as [->|]; [rewrite Hk; naive_solver|tauto].
      + eapply rows_are_ext; [apply IH; [by apply (del_rows_are S0 t0 (u, room) H0); split; [apply Hl; left|]|intros u' Hu'; apply Hl; by right]|].
        intros p. rewrite !elem_of_filter, elem_of_cons, elem_of_difference, elem_of_singleton. destruct p as [a b]. cbn [fst snd].
        assert (Hpair : (a, b) = (u, room) ↔ a = u ∧ b = room) by (split; [by intros [= -> ->]|by intros [-> ->]]). rewrite Hpair. destruct (decide (a = u)) as [->|]; tauto. }
  eapply rows_are_ext; [apply Hfold; [exact Hr|intros u Hu%Hin; by destruct (ra_ids S t Hr _ Hu)]|]. intros [a b]. rewrite !elem_of_filter, Hin. cbn [fst snd]. split; [|tauto]. intros [Hn Hp]. split; [|done]. intros [-> Hk]. tauto.
Qed.

(** ** Every transition *)

Section Changes.
Context `{!Usize} `{!HashOrder} (crc32c : bytes → Z) (to_vec : Value → option bytes) (from_slice : bytes → option Value) {W : Type} `{!PackSink W}.
Context (server_name : string → string).

Inductive Change :=
  | CUpdate (around : Around) (room user sender : string) (m : MembershipState) (state : bytes) (update_count : bool) (count : Z)
  | CForget (room user : string)
  | CDelete (room : string) (force : bool) (user_is_local : string → bool).

Definition change (ch : Change) (x : Cache * (Streams * W)) : Cache * (Streams * W) :=
  match ch with
  | CUpdate around room user sender m state upd n => (update_membership crc32c to_vec from_slice server_name around room user sender m state upd n x).2
  | CForget room user => (forget room user x.1, x.2)
  | CDelete room force local => (delete_room_join_counts room force local x.1, x.2)
  end.
Definition change_all (l : list Change) (x : Cache * (Streams * W)) : Cache * (Streams * W) := foldl (λ x ch, change ch x) x l.

Definition is_ok {A} (r : Res A) : bool := match r with Ok _ => true | _ => false end.

(** The status a transition leaves. *)
Definition expect_update (around : Around) (room user sender : string) (m : MembershipState) (s : Roster) : Roster :=
  let p := (user, room) in
  if is_ok (ensure_remote_user around) then
    match m with
    | Join => if bool_decide (p ∈ ever s) || is_ok (copy_predecessor_data around) then mark p SJoined (mark_ever p s) else mark_ever p s
    | Invite => if user_is_ignored around sender user then s else mark p SInvited s
    | Leave | Ban => if forget_forced around then unmark p (mark p SLeft s) else mark p SLeft s
    | Knock => mark p SKnocked s
    | Custom _ => s
    end
  else s.

Definition expect (ch : Change) (s : Roster) : Roster :=
  match ch with
  | CUpdate around room user sender m _ _ _ => expect_update around room user sender m s
  | CForget room user => unmark (user, room) s
  | CDelete room force local => mkRoster (filter (λ x, ¬ (x.1.2 = room ∧ (x.2 ≠ SLeft ∨ force = true ∨ local x.1.1 = false))) (status s)) (ever s)
  end.
Definition expect_all (l : list Change) (s : Roster) : Roster := foldl (λ s ch, expect ch s) s l.

Definition change_ok (ch : Change) : Prop :=
  match ch with CUpdate _ room user _ _ _ _ _ | CForget room user => ids (user, room) | CDelete room _ _ => sep_free room = true end.

Lemma counts_rows s room c : roster_is s c → roster_is s (update_joined_count server_name room c).
Proof. by intros [? ? ? ? ? ?]. Qed.

(** The servers of a room are those of its members. *)
Lemma fold_remove (f : string → string) l (m : gset string) k : k ∈ foldl (λ m s, m ∖ {[f s]}) m l ↔ k ∈ m ∧ ∀ s, s ∈ l → k ≠ f s.
Proof.
  revert m. induction l as [|s l IH]; intros m; cbn [foldl]; [split; [intros ?; split; [done|by intros s ?%elem_of_nil]|tauto]|].
  rewrite IH, elem_of_difference, elem_of_singleton. setoid_rewrite elem_of_cons. naive_solver.
Qed.
Lemma fold_add (f : string → string) l (m : gset string) k : k ∈ foldl (λ m s, m ∪ {[f s]}) m l ↔ k ∈ m ∨ ∃ s, s ∈ l ∧ k = f s.
Proof.
  revert m. induction l as [|s l IH]; intros m; cbn [foldl]; [split; [by left|intros [?|(s & ?%elem_of_nil & _)]; done]|].
  rewrite IH, elem_of_union, elem_of_singleton. setoid_rewrite elem_of_cons. naive_solver.
Qed.

Lemma room_servers_exact room c s :
  (∀ k, k ∈ roomserverids c → ∃ x y, sep_free x = true ∧ k = key x y) → sep_free room = true →
  s ∈ room_servers room (update_joined_count server_name room c) ↔ ∃ u, u ∈ room_members room c ∧ s = server_name u.
Proof.
  intros Hk Hroom. assert (Hold : ∀ s, s ∈ room_servers room c ↔ key room s ∈ roomserverids c) by (intros; by apply seconds_set).
  unfold room_servers at 1. cbn [update_joined_count set_counts roomserverids]. set (servers := list_to_set (server_name <$> room_members room c) : gset string).
  assert (Hin : s ∈ servers ↔ ∃ u, u ∈ room_members room c ∧ s = server_name u) by (unfold servers; rewrite elem_of_list_to_set, list_elem_of_fmap; naive_solver). rewrite <-Hin.
  rewrite seconds_set; [|intros k; rewrite fold_add, fold_remove; intros [[? _]|(s' & _ & ->)]; [by apply Hk|by exists room, s']|done].
  rewrite fold_add, fold_remove. setoid_rewrite list_elem_of_filter. setoid_rewrite elem_of_elements. setoid_rewrite Hold.
  assert (Hinj : ∀ s', key room s = key room s' ↔ s = s') by (intros s'; split; [by intros [_ ?]%key_inj|by intros ->]). setoid_rewrite Hinj.
  destruct (decide (s ∈ servers)), (decide (key room s ∈ roomserverids c)); naive_solver.
Qed.

Lemma ever_again s c p : roster_is s c → p ∈ ever s → roster_is (mark_ever p s) c.
Proof.
  intros [Hj Hi Hl Hk Ho He] Hp. split; try done; cbn [mark_ever ever].
  - intros k. rewrite Ho. split; [intros (p' & ? & ->); exists p'; split; [by apply elem_of_union_l|done]|]. intros (p' & [?| ->%elem_of_singleton]%elem_of_union & ->); eauto.
  - intros p' [?| ->%elem_of_singleton]%elem_of_union; by apply He.
Qed.

Lemma join_expected around room user n s (x : Cache * (Streams * W)) :
  roster_is s x.1 → ids (user, room) →
  (is_ok (handle_join around room user n x).1 = bool_decide ((user, room) ∈ ever s) || is_ok (copy_predecessor_data around))
  ∧ roster_is (if bool_decide ((user, room) ∈ ever s) || is_ok (copy_predecessor_data around) then mark (user, room) SJoined (mark_ever (user, room) s) else mark_ever (user, room) s)
      (handle_join around room user n x).2.1.
Proof.
  intros Hs Hp. pose proof (once_joined_spec s x.1 (user, room) Hs Hp) as Ho. cbn [fst snd] in Ho. unfold handle_join. destruct x as [c out]. cbn [fst] in *.
  destruct (once_joined user room c) eqn:Hc; cbn [negb].
  - rewrite bool_decide_true by (by apply Ho). cbn. split; [done|]. apply (mark_joined _ c (user, room)); [|done]. apply ever_again; [done|]. by apply Ho.
  - rewrite bool_decide_false by (intros ?%Ho; done). cbn [orb]. pose proof (once_ever s c (user, room) Hs Hp) as He. destruct (copy_predecessor_data around); cbn; (split; [done|]); [|done..].
    by apply (mark_joined _ _ (user, room)).
Qed.

Lemma update_expected around room user sender m state upd n s (x : Cache * (Streams * W)) :
  roster_is s x.1 → ids (user, room) →
  roster_is (expect_update around room user sender m s) (update_membership crc32c to_vec from_slice server_name around room user sender m state upd n x).2.1.
Proof.
  intros Hs Hp. unfold update_membership, expect_update. destruct (ensure_remote_user around); cbn [is_ok]; [|done..].
  assert (Htail : ∀ s' (y : Cache * (Streams * W)) (b : bool), roster_is s' y.1 →
    roster_is s' (let y := if b then (y.1, push_invite_gone crc32c to_vec user room (membership_str m) n y.2) else y in if upd then (update_joined_count server_name room y.1, y.2) else y).1).
  { intros s' y b Hy. destruct upd, b; cbn; try apply counts_rows; done. }
  destruct m; cbn [transition].
  - apply Htail. unfold handle_leave. pose proof (mark_left s x.1 (user, room) n Hs Hp) as Hl. destruct (forget_forced around); [by apply (unmark_left _ _ (user, room))|done].
  - destruct (user_is_ignored around sender user); [done|]. apply Htail. unfold push_invited_to_streams. pose proof (mark_invited s x.1 (user, room) n state Hs Hp) as Hi.
    by repeat case_match.
  - destruct (join_expected around room user n s x Hs Hp) as [Hok Hjoin]. destruct (handle_join around room user n x) as [r y]. cbn [fst snd] in *.
    rewrite <-Hok in *. destruct r; cbn [is_ok snd] in *; [by apply Htail|done..].
  - apply Htail. by apply (mark_knocked s x.1 (user, room)).
  - apply Htail. unfold handle_leave. pose proof (mark_left s x.1 (user, room) n Hs Hp) as Hl. destruct (forget_forced around); [by apply (unmark_left _ _ (user, room))|done].
  - by apply Htail.
Qed.

Lemma change_expected ch s (x : Cache * (Streams * W)) : roster_is s x.1 → change_ok ch → roster_is (expect ch s) (change ch x).1.
Proof.
  intros Hs Hok. destruct ch as [around room user sender m state upd n|room user|room force local]; cbn [change expect change_ok] in *.
  - by apply update_expected.
  - by apply (unmark_left s x.1 (user, room)).
  - destruct Hs as [Hj Hi Hl Hk Ho He]. assert (Hof : ∀ t keep, (∀ u, keep u = false ↔ t ≠ SLeft ∨ force = true ∨ local u = false) →
      filter (λ p, ¬ (p.2 = room ∧ keep p.1 = false)) (of_ t s) ≡ of_ t (expect (CDelete room force local) s)).
    { intros t keep Hkeep [u r]. rewrite elem_of_filter, !elem_of_of. cbn [expect status fst snd]. rewrite map_lookup_filter_Some. cbn [fst snd]. rewrite Hkeep. tauto. }
    split; cbn [delete_room_join_counts joined invited left knocked once fst]; [..|done|done]; (eapply rows_are_ext; [by apply drop_room_are|]); apply Hof; intros u.
    + split; [by left|done].
    + split; [by left|done].
    + rewrite negb_false_iff, orb_true_iff, negb_true_iff. tauto.
    + split; [by left|done].
Qed.

Lemma change_all_expected l s (x : Cache * (Streams * W)) : roster_is s x.1 → (∀ ch, ch ∈ l → change_ok ch) → roster_is (expect_all l s) (change_all l x).1.
Proof.
  revert s x. induction l as [|ch l IH]; intros s x Hs Hl; [done|]. apply IH; [apply change_expected; [done|apply Hl; left]|intros ch' Hch'; apply Hl; by right].
Qed.

Lemma roster_empty : roster_is (mkRoster ∅ ∅) empty_cache.
Proof.
  assert (Hno : ∀ t, rows_are (of_ t (mkRoster ∅ ∅)) no_rows).
  { intros t. assert (He : ∀ p, p ∉ of_ t (mkRoster ∅ ∅)) by (intros p; rewrite elem_of_of; cbn [status]; by rewrite lookup_empty).
    split; [by intros p ?%He|..]; intros k; cbn; rewrite dom_empty; (split; [by intros ?%elem_of_empty|by intros (p & ?%He & _)]). }
  split; [apply Hno..| |]; cbn; [intros k; split; [by intros ?%elem_of_empty|by intros (p & ?%elem_of_empty & _)]|by intros p ?%elem_of_empty].
Qed.

(** The answer a status and the past give. *)
Definition membership_of (s : Roster) (p : string * string) : option MembershipState :=
  match status s !! p with
  | Some SJoined => Some Join
  | Some SLeft => Some Leave
  | Some SKnocked => Some Knock
  | Some SInvited => Some Invite
  | None => if bool_decide (p ∈ ever s) then Some Ban else None
  end.

Lemma bool_decide_of (b : bool) (P : Prop) `{!Decision P} : (b = true ↔ P) → b = bool_decide P.
Proof. intros Hb. destruct b; symmetry; [apply bool_decide_eq_true; by apply Hb|apply bool_decide_eq_false; by intros ?%Hb]. Qed.

Lemma user_membership_spec s c p : roster_is s c → ids p → user_membership p.1 p.2 c = membership_of s p.
Proof.
  intros Hs Hp. pose proof Hs as [Hj Hi Hl Hk Ho He]. unfold user_membership, membership_of, is_joined, is_left, is_knocked, is_invited.
  pose proof (has_spec _ _ p Hj Hp) as Ej. pose proof (has_spec _ _ p Hl Hp) as El. pose proof (has_spec _ _ p Hk Hp) as Ek. pose proof (has_spec _ _ p Hi Hp) as Ei.
  pose proof (once_joined_spec s c p Hs Hp) as Eo. rewrite elem_of_of in Ej, El, Ek, Ei.
  rewrite (bool_decide_of _ _ Ej), (bool_decide_of _ _ El), (bool_decide_of _ _ Ek), (bool_decide_of _ _ Ei), (bool_decide_of _ _ Eo).
  by destruct (status s !! p) as [[]|].
Qed.

End Changes.

(** ** Three rooms *)

#[local] Existing Instances usize_64 in_order z_semaphore list_channel.

Definition quiet : Around := mkAround (λ _ _, false) (Ok tt) (Ok tt) false (λ _, None) 1000 1000.
Definition quiet_line : Streams * gmap Z (Line Z (Z * list Queued * bool)) := (new 0, ∅).
Definition by_itself (m : MembershipState) (room user : string) (n : Z) : Change := CUpdate quiet room user user m [] true n.
Definition comings : list Change := [by_itself Join "!a" "@u:x" 1; by_itself Join "!a" "@v:y" 2; by_itself Ban "!a" "@v:y" 3; by_itself Invite "!b" "@v:y" 4; CForget "!a" "@v:y"]%string.
Definition apply_changes (l : list Change) : Cache := (change_all Pack.crc32c_ref (λ _, Some []) (λ _, None) (λ u, u) l (empty_cache, quiet_line)).1.


(** A ban reads as a departure, and a departure that was forgotten as a ban. *)
Lemma forgotten_reads_as_ban :
  user_membership "@v:y" "!a" (apply_changes [by_itself Join "!a" "@v:y" 1; by_itself Ban "!a" "@v:y" 2]%string) = Some Leave
  ∧ user_membership "@v:y" "!a" (apply_changes [by_itself Join "!a" "@v:y" 1; by_itself Leave "!a" "@v:y" 2; CForget "!a" "@v:y"]%string) = Some Ban.
Proof. split; by vm_compute. Qed.

(** The scan by user has no separator after the user: it also yields the rooms
    of a user whose id only starts the same. *)
Lemma rooms_joined_of_another :
  let c := apply_changes [by_itself Join "!a" "@u:example.community" 1]%string in
  rooms_joined "@u:example.com" c = ["!a"]%string ∧ is_joined "@u:example.com" "!a" c = false.
Proof. split; by vm_compute. Qed.
