(* ===== verification/RoomChannels.v ===== *)
(** * RoomChannels: who a room's channel pushes to

    The membership columns of Membership.v, the room registry of Streams.v and
    the handler of [Event/Subscribe] (src/api/client/wbf/subscribe.rs), as tasks
    that interleave: a membership write and its hook are two steps, and so is
    every read the handler awaits. *)

From stdpp Require Import sorting.
From S2P Require Import Prelude Json Order Store PackQueue Subscribers Streams Membership.

Section Channels.
Context `{!Usize} `{!HashOrder}.

(** ** [handle_subscribe] *)

Inductive Phase :=
  (** the membership of each named room *)
  | Checking (named : list string)
  (** the registration *)
  | Registering
  (** the membership of each room once more *)
  | Rechecking (unchecked left : list string).

Record Flight := mkFlight { f_connection : ConnectionId; f_user : string; f_queue : Z; f_id : Z; f_rooms : list string; f_skipped : list string; f_wide : bool; f_phase : Phase }.

Definition set_phase (p : Phase) (f : Flight) : Flight := mkFlight (f_connection f) (f_user f) (f_queue f) (f_id f) (f_rooms f) (f_skipped f) (f_wide f) p.

(** Each name once. *)
Fixpoint dedup (seen l : list string) : list string :=
  match l with
  | [] => []
  | x :: l => if bool_decide (x ∈ seen) then dedup seen l else x :: dedup (x :: seen) l
  end.

Definition start_subscribe (c : ConnectionId) (user : string) (queue id : Z) (named : option (list string)) (cache : Cache) : Flight :=
  match named with
  | Some named => mkFlight c user queue id [] [] false (Checking (dedup [] named))
  | None => mkFlight c user queue id (rooms_joined user cache) [] true Registering
  end.

(** The handler up to its next wait; without a flight it has answered. *)
Definition advance (cache : Cache) (st : Streams) (f : Flight) : option Flight * Streams :=
  match f_phase f with
  | Checking (room :: rest) =>
      let f := set_phase (Checking rest) f in
      (Some (if is_joined (f_user f) room cache
             then mkFlight (f_connection f) (f_user f) (f_queue f) (f_id f) (f_rooms f ++ [room]) (f_skipped f) (f_wide f) (f_phase f)
             else mkFlight (f_connection f) (f_user f) (f_queue f) (f_id f) (f_rooms f) (f_skipped f ++ [room]) (f_wide f) (f_phase f)), st)
  | Checking [] => (Some (set_phase Registering f), st)
  | Registering =>
      match subscribe (f_connection f) (f_user f) (f_queue f) (f_id f) (f_rooms f) (f_wide f) st with
      | (None, st) => (None, st)
      | (Some _, st) => (Some (set_phase (Rechecking (f_rooms f) []) f), st)
      end
  | Rechecking (room :: rest) left =>
      (Some (set_phase (Rechecking rest (if is_joined (f_user f) room cache then left else left ++ [room])) f), st)
  | Rechecking [] left => (None, match left with [] => st | _ => unsubscribe (f_connection f) left st end)
  end.

(** ** The system *)

Inductive Hook := Follow | Evict.

Record Sys := mkSys {
  cache : Cache;
  streams : Streams;
  (** the hook each membership write has still to call *)
  hooks : gmap (string * string) Hook;
  flights : list Flight
}.

Inductive Step :=
  | Write (m : MembershipState) (user room : string) (count : Z) (state : bytes)
  | RunHook (user room : string)
  | Start (c : ConnectionId) (user : string) (queue id : Z) (named : option (list string))
  | Advance (i : nat)
  | Unsubscribe (c : ConnectionId) (rs : list string)
  | UnsubscribeAll (c : ConnectionId)
  | Remove (c : ConnectionId)
  | End_ (c : ConnectionId)
  | Forget (c : ConnectionId).

(** A room's transitions follow one another, and neither an invite nor a knock
    of a member is admitted. *)
Definition write (m : MembershipState) (user room : string) (count : Z) (state : bytes) (s : Sys) : option Sys :=
  match hooks s !! (user, room), m with
  | Some _, _ => None
  | None, Join => Some (mkSys (mark_as_joined user room count (cache s)) (streams s) (<[(user, room) := Follow]> (hooks s)) (flights s))
  | None, (Leave | Ban) => Some (mkSys (mark_as_left user room count (cache s)) (streams s) (<[(user, room) := Evict]> (hooks s)) (flights s))
  | None, Invite => if is_joined user room (cache s) then None else Some (mkSys (mark_as_invited user room count state (cache s)) (streams s) (hooks s) (flights s))
  | None, Knock => if is_joined user room (cache s) then None else Some (mkSys (mark_as_knocked user room count state (cache s)) (streams s) (hooks s) (flights s))
  | None, Custom _ => Some s
  end.

Definition set_streams (st : Streams) (s : Sys) : Sys := mkSys (cache s) st (hooks s) (flights s).

Definition step (x : Step) (s : Sys) : option Sys :=
  match x with
  | Write m user room count state => if sep_free user && sep_free room then write m user room count state s else None
  | RunHook user room =>
      match hooks s !! (user, room) with
      | None => None
      | Some h => Some (mkSys (cache s) (match h with Follow => follow user room (streams s) | Evict => evict user room (streams s) end) (delete (user, room) (hooks s)) (flights s))
      end
  | Start c user queue id named =>
      if sep_free user && forallb sep_free (default [] named)
      then Some (mkSys (cache s) (streams s) (hooks s) (flights s ++ [start_subscribe c user queue id named (cache s)])) else None
  | Advance i =>
      match flights s !! i with
      | None => None
      | Some f => let '(f, st) := advance (cache s) (streams s) f in Some (mkSys (cache s) st (hooks s) (match f with Some f => <[i := f]> (flights s) | None => delete i (flights s) end))
      end
  | Unsubscribe c rs => Some (set_streams (unsubscribe c rs (streams s)) s)
  | UnsubscribeAll c => Some (set_streams (unsubscribe_all_rooms c (streams s)) s)
  | Remove c => Some (set_streams (remove_connection c (streams s)) s)
  | End_ c => Some (set_streams (end_connection c (streams s)) s)
  | Forget c => Some (set_streams (forget_connection c (streams s)) s)
  end.

Fixpoint run (l : list Step) (s : Sys) : option Sys :=
  match l with
  | [] => Some s
  | x :: l => s ← step x s; run l s
  end.

Definition boot (epoch : Z) : Sys := mkSys empty_cache (new epoch) ∅ [].

(** ** Who is where *)

Definition in_ (r : Registry (Topic := RoomTopic)) (t : RoomTopic) (c : ConnectionId) (u : string) : Prop := c ∈ at_ (topics r) t ∧ ∃ sub, subscribers r !! c = Some sub ∧ user sub = u.

Lemma in_unsubscribe c ts r t x u : wf r → in_ (Subscribers.unsubscribe c ts r) t x u → in_ r t x u.
Proof. intros Hw [Hx Hs]. destruct (unsubscribe_spec c ts r Hw) as (_ & Hk & Hm). apply Hm in Hx as [Hx _]. split; [done|]. by apply (keeps_user r (Subscribers.unsubscribe c ts r)). Qed.
Lemma in_remove c r t x u : wf r → in_ (registry_remove_connection c r) t x u → in_ r t x u.
Proof.
  intros Hw [Hx (sub & Hs & Hu)]. apply elem_remove in Hx as [Hx Hne]; [|done]. rewrite remove_subscribers, decide_False in Hs by done. split; [done|eauto].
Qed.
Lemma in_evict v topic r t x u : wf r → in_ (leave_topic_of_user v topic r) t x u → in_ r t x u ∧ ¬ (t = topic ∧ u = v).
Proof.
  intros Hw [Hx Hs]. destruct (evict_spec v topic r Hw) as (_ & Hk & Hm). apply Hm in Hx as [Hx Hn]. apply (keeps_user r (leave_topic_of_user v topic r) x u) in Hs; [|done].
  split; [by split|]. intros [-> ->]. by apply Hn.
Qed.
Lemma in_copy from to r t x u : wf r → in_ (copy_topic from to r) t x u → in_ r t x u ∨ (t = to ∧ in_ r from x u).
Proof.
  intros Hw [Hx Hs]. destruct (copy_spec from to r Hw) as (_ & Hk & Hm). apply (keeps_user r (copy_topic from to r) x u) in Hs; [|done]. apply Hm in Hx as [Hx|[-> Hx]]; [by left|by right].
Qed.
Lemma in_subscribe c v q i ts r e r' t x u :
  wf r → Subscribers.subscribe Many c v q i ts r = (Some e, r') → wf r' ∧ (in_ r' t x u → in_ r t x u ∨ (x = c ∧ u = v ∧ t ∈ ts)).
Proof.
  intros Hw Hrun. destruct (decide (c ∈ ended r)) as [Hc|Hc]; [by rewrite refused_spec in Hrun|].
  destruct (subscribe_spec Many c v q i ts r Hw Hc) as (e' & r1 & Hrun' & Hw' & _ & (s & Hs & Hwho) & Hother & Hm & _). rewrite Hrun in Hrun'. injection Hrun' as <- <-. split; [done|].
  intros [Hx (sub & Hsub & Hu)]. apply Hm in Hx as [[[Hx Hid] _]|[Ht ->]].
  - left. split; [done|]. destruct (decide (x = c)) as [->|Hne].
    + destruct (wf_listed r Hw t c Hx) as [s0 Hs0]. exists s0. split; [done|]. assert (Hsame : user s0 = v).
      { unfold is_another_identity in Hid. rewrite Hs0 in Hid. destruct (decide (user s0 = v)); [done|]. exfalso. apply Hid. by rewrite bool_decide_eq_true_2. }
      rewrite Hs in Hsub. injection Hsub as <-. unfold who in Hwho. injection Hwho as Hv _ _. congruence.
    + specialize (Hother x Hne). rewrite Hsub in Hother. destruct (subscribers r !! x) as [s0|]; [|done]. exists s0. split; [done|]. unfold who in Hother. cbn in Hother. congruence.
  - right. rewrite Hs in Hsub. injection Hsub as <-. unfold who in Hwho. injection Hwho as Hv _ _. split_and!; [done|congruence|done].
Qed.

(** ** Who is joined *)

Lemma is_joined_joined user room n c u r : ids (user, room) → ids (u, r) → is_joined u r (mark_as_joined user room n c) = true ↔ (u, r) = (user, room) ∨ is_joined u r c = true.
Proof.
  intros Hp Hp'. unfold is_joined, has. cbn [mark_as_joined set_rows joined put_rows by_user_room]. rewrite !bool_decide_eq_true. destruct (decide ((u, r) = (user, room))) as [[= -> ->]|Hne].
  - rewrite lookup_insert_eq. split; [by left|done].
  - rewrite lookup_insert_ne; [tauto|]. intros Hk. apply Hne. symmetry. by apply user_key_inj.
Qed.
Lemma is_joined_gone user room c c' u r :
  by_user_room (joined c') = delete (key user room) (by_user_room (joined c)) → ids (user, room) → ids (u, r) → is_joined u r c' = true ↔ (u, r) ≠ (user, room) ∧ is_joined u r c = true.
Proof.
  intros Hc Hp Hp'. unfold is_joined, has. rewrite Hc, !bool_decide_eq_true. destruct (decide ((u, r) = (user, room))) as [[= -> ->]|Hne].
  - rewrite lookup_delete_eq. split; [by intros []|by intros []].
  - rewrite lookup_delete_ne; [tauto|]. intros Hk. apply Hne. symmetry. by apply user_key_inj.
Qed.

(** ** The invariant *)

Definition pending (f : Flight) (c : ConnectionId) (u r : string) : Prop :=
  f_connection f = c ∧ f_user f = u ∧ match f_phase f with Rechecking unchecked left => r ∈ unchecked ∨ r ∈ left | _ => False end.

Definition flight_ok (f : Flight) : Prop :=
  sep_free (f_user f) = true ∧ (∀ r, r ∈ f_rooms f → sep_free r = true) ∧ match f_phase f with Checking named => ∀ r, r ∈ named → sep_free r = true | _ => True end.

Definition covered (s : Sys) (c : ConnectionId) (u r : string) : Prop :=
  is_joined u r (cache s) = true ∨ hooks s !! (u, r) = Some Evict ∨ ∃ f, f ∈ flights s ∧ pending f c u r.

Record inv (s : Sys) : Prop := {
  iv_wf : wf (rooms (streams s));
  iv_roster : ∃ ro, roster_is ro (cache s);
  iv_ids : ∀ r c u, in_ (rooms (streams s)) (Room r) c u → ids (u, r);
  iv_follow : ∀ v c u, in_ (rooms (streams s)) (FollowsJoins v) c u → u = v;
  iv_cover : ∀ r c u, in_ (rooms (streams s)) (Room r) c u → covered s c u r;
  iv_hooks : ∀ u r h, hooks s !! (u, r) = Some h → ids (u, r) ∧ (h = Follow → is_joined u r (cache s) = true);
  iv_flights : ∀ f, f ∈ flights s → flight_ok f
}.

(** A registry that lost entries. *)
Lemma inv_shrink s st : inv s → wf (rooms st) → (∀ t c u, in_ (rooms st) t c u → in_ (rooms (streams s)) t c u) → inv (set_streams st s).
Proof.
  intros [Hw Hr Hi Hf Hc Hh Hl] Hw' Hsub. split; cbn [set_streams cache streams hooks flights]; try done.
  - intros r c u Hin%Hsub. by eapply Hi.
  - intros v c u Hin%Hsub. by eapply Hf.
  - intros r c u Hin%Hsub. by apply Hc.
Qed.

Lemma rooms_declared c b st : rooms (set_device_versions_declared c b st) = rooms st.
Proof. unfold set_device_versions_declared. by destruct (c =? 0). Qed.

Lemma covered_weaker s s' c u r :
  covered s c u r → (is_joined u r (cache s) = true → is_joined u r (cache s') = true ∨ hooks s' !! (u, r) = Some Evict) →
  (hooks s !! (u, r) = Some Evict → hooks s' !! (u, r) = Some Evict) → flights s' = flights s → covered s' c u r.
Proof. unfold covered. intros [Hj|[He|Hf]] Hj' He' Hf'; rewrite ?Hf'; [destruct (Hj' Hj); tauto|tauto|tauto]. Qed.

Lemma inv_write m user room n state s s' : inv s → ids (user, room) → write m user room n state s = Some s' → inv s'.
Proof.
  intros [Hw [ro Hr] Hi Hf Hc Hh Hl] Hp. unfold write. destruct (hooks s !! (user, room)) eqn:Hnone; [done|].
  assert (Hleft : inv (mkSys (mark_as_left user room n (cache s)) (streams s) (<[(user, room) := Evict]> (hooks s)) (flights s))).
  { split; cbn [cache streams hooks flights]; try done.
    - exists (mark (user, room) SLeft ro). by apply (mark_left ro _ (user, room)).
    - intros r c u Hin. pose proof (Hi r c u Hin) as Hid. eapply covered_weaker; [by apply Hc| | |done]; cbn [cache hooks].
      + intros Hj. destruct (decide ((u, r) = (user, room))) as [->|Hne]; [right; apply lookup_insert_eq|left]. by apply (is_joined_gone user room (cache s)).
      + intros He. rewrite lookup_insert_ne; [done|]. intros [= <- <-]. congruence.
    - intros u r h. destruct (decide ((u, r) = (user, room))) as [[= -> ->]|Hne]; [rewrite lookup_insert_eq; by intros [= <-]|]. rewrite lookup_insert_ne by done. intros Hk. destruct (Hh u r h Hk) as [Hid Hj].
      split; [done|]. intros ->. apply (is_joined_gone user room (cache s)); [done..|]. split; [done|by apply Hj]. }
  assert (Hnot : ∀ c', is_joined user room (cache s) = false → by_user_room (joined c') = delete (key user room) (by_user_room (joined (cache s))) → (∃ ro', roster_is ro' c') →
    inv (mkSys c' (streams s) (hooks s) (flights s))).
  { intros c' Hout Hc' Hro. assert (Hsame : ∀ u r, ids (u, r) → is_joined u r (cache s) = true → is_joined u r c' = true).
    { intros u r Hid Hj. apply (is_joined_gone user room (cache s)); [done..|]. split; [|done]. intros [= -> ->]. congruence. }
    split; cbn [cache streams hooks flights]; try done.
    - intros r c u Hin. eapply covered_weaker; [by apply Hc| |done|done]. intros Hj. left. apply Hsame; [by eapply Hi|done].
    - intros u r h Hk. destruct (Hh u r h Hk) as [Hid Hj]. split; [done|]. intros ->. apply Hsame; [done|by apply Hj]. }
  destruct m; intros Hs'.
  - by injection Hs' as <-.
  - destruct (is_joined user room (cache s)) eqn:Hj; [done|]. injection Hs' as <-. apply Hnot; [done..|]. eexists. by apply (mark_invited ro _ (user, room)).
  - injection Hs' as <-. split; cbn [cache streams hooks flights]; try done.
    + eexists. by apply (mark_joined ro _ (user, room)).
    + intros r c u Hin. pose proof (Hi r c u Hin) as Hid. eapply covered_weaker; [by apply Hc| | |done]; cbn [cache hooks].
      * intros Hj. left. apply is_joined_joined; [done..|]. by right.
      * intros He. rewrite lookup_insert_ne; [done|]. intros [= <- <-]. congruence.
    + intros u r h. destruct (decide ((u, r) = (user, room))) as [[= -> ->]|Hne].
      * rewrite lookup_insert_eq. intros [= <-]. split; [done|]. intros _. apply is_joined_joined; [done..|]. by left.
      * rewrite lookup_insert_ne by done. intros Hk. destruct (Hh u r h Hk) as [Hid Hj]. split; [done|]. intros ->. apply is_joined_joined; [done..|]. right. by apply Hj.
  - destruct (is_joined user room (cache s)) eqn:Hj; [done|]. injection Hs' as <-. apply Hnot; [done..|]. eexists. by apply (mark_knocked ro _ (user, room)).
  - by injection Hs' as <-.
  - injection Hs' as <-. split; try done. by exists ro.
Qed.

Lemma inv_hook user room h s :
  inv s → hooks s !! (user, room) = Some h →
  inv (mkSys (cache s) (match h with Follow => follow user room (streams s) | Evict => evict user room (streams s) end) (delete (user, room) (hooks s)) (flights s)).
Proof.
  intros [Hw Hr Hi Hf Hc Hh Hl] Hk. destruct (Hh user room h Hk) as [Hp Hj].
  assert (Hrest : ∀ u r h', delete (user, room) (hooks s) !! (u, r) = Some h' → ids (u, r) ∧ (h' = Follow → is_joined u r (cache s) = true)) by (intros u r h' [_ Hk']%lookup_delete_Some; by apply Hh).
  assert (Hstay : ∀ st r c u, covered s c u r → (u, r) ≠ (user, room) → covered (mkSys (cache s) st (delete (user, room) (hooks s)) (flights s)) c u r).
  { intros st r c u Hcov Hne. eapply covered_weaker; [exact Hcov|by left| |done]. cbn [hooks]. by rewrite lookup_delete_ne. }
  destruct h.
  - assert (Hnew : ∀ t c u, in_ (rooms (follow user room (streams s))) t c u → in_ (rooms (streams s)) t c u ∨ (t = Room room ∧ u = user)).
    { intros t c u Hin. apply in_copy in Hin as [?|[-> Hin]]; [by left| |done]. right. split; [done|by eapply Hf]. }
    split; cbn [cache streams hooks flights]; try done.
    + by apply copy_spec.
    + intros r c u [Hin|[[= ->] ->]]%Hnew; [by eapply Hi|done].
    + intros v c u [Hin|[? _]]%Hnew; [by eapply Hf|done].
    + intros r c u Hin. destruct (decide ((u, r) = (user, room))) as [[= -> ->]|Hne]; [left; by apply Hj|]. apply Hstay; [|done]. apply Hnew in Hin as [Hin|[[= ->] ->]]; [by apply Hc|done].
  - assert (Hold : ∀ t c u, in_ (rooms (evict user room (streams s))) t c u → in_ (rooms (streams s)) t c u ∧ ¬ (t = Room room ∧ u = user)) by (intros t c u; by apply in_evict).
    split; cbn [cache streams hooks flights]; try done.
    + by apply evict_spec.
    + intros r c u [Hin _]%Hold. by eapply Hi.
    + intros v c u [Hin _]%Hold. by eapply Hf.
    + intros r c u [Hin Hne]%Hold. apply Hstay; [by apply Hc|]. intros [= -> ->]. by apply Hne.
Qed.

Definition replace_flight (i : nat) (fo : option Flight) (l : list Flight) : list Flight := match fo with Some f => <[i := f]> l | None => delete i l end.

Lemma replace_other i j f fo l : l !! j = Some f → i ≠ j → f ∈ replace_flight i fo l.
Proof.
  intros Hj Hne. destruct fo as [f'|]; cbn; [apply list_elem_of_lookup; exists j; by rewrite list_lookup_insert_ne|].
  destruct (decide (j < i)%nat); [apply (list_elem_of_lookup_2 _ j); by rewrite list_lookup_delete_lt|]. apply (list_elem_of_lookup_2 _ (j - 1)). rewrite list_lookup_delete_ge by lia. by replace (S (j - 1)) with j by lia.
Qed.
Lemma replace_own i f f' l : l !! i = Some f → f' ∈ replace_flight i (Some f') l.
Proof. intros Hi. apply (list_elem_of_lookup_2 _ i). apply list_lookup_insert_eq. by eapply lookup_lt_Some. Qed.
Lemma replace_only i fo l f : f ∈ replace_flight i fo l → f ∈ l ∨ fo = Some f.
Proof.
  destruct fo as [f'|]; cbn; intros Hf.
  - apply list_elem_of_lookup in Hf as (j & Hj). destruct (decide (i = j)) as [->|Hne].
    + destruct (decide (j < length l)%nat); [rewrite list_lookup_insert_eq in Hj by done; right; congruence|]. rewrite list_insert_ge in Hj by lia. left. by eapply list_elem_of_lookup_2.
    + rewrite list_lookup_insert_ne in Hj by done. left. by eapply list_elem_of_lookup_2.
  - left. by apply (list_subseteq_delete i l).
Qed.

Lemma covered_flight s i f fo st c u r :
  flights s !! i = Some f → covered s c u r → (pending f c u r → (∃ f', fo = Some f' ∧ pending f' c u r) ∨ is_joined u r (cache s) = true) →
  covered (mkSys (cache s) st (hooks s) (replace_flight i fo (flights s))) c u r.
Proof.
  intros Hi [Hj|[He|(f0 & Hf0 & Hp)]] Hf; [by left|right; by left|]. apply list_elem_of_lookup in Hf0 as (j & Hj). destruct (decide (i = j)) as [<-|Hne].
  - rewrite Hi in Hj. injection Hj as <-. destruct (Hf Hp) as [(f' & -> & Hp')|Hj]; [|by left]. right. right. exists f'. split; [by eapply replace_own|done].
  - right. right. exists f0. split; [by eapply replace_other|done].
Qed.

(** One turn of a handler whose registry only loses entries. *)
Lemma inv_turn s i f fo st :
  inv s → flights s !! i = Some f → wf (rooms st) → (∀ t c u, in_ (rooms st) t c u → in_ (rooms (streams s)) t c u) → (∀ f', fo = Some f' → flight_ok f') →
  (∀ r c u, in_ (rooms st) (Room r) c u → pending f c u r → (∃ f', fo = Some f' ∧ pending f' c u r) ∨ is_joined u r (cache s) = true) →
  inv (mkSys (cache s) st (hooks s) (replace_flight i fo (flights s))).
Proof.
  intros [Hw Hr Hi Hf Hc Hh Hl] Hfi Hw' Hsub Hok Hpend. split; cbn [cache streams hooks flights]; try done.
  - intros r c u Hin%Hsub. by eapply Hi.
  - intros v c u Hin%Hsub. by eapply Hf.
  - intros r c u Hin. eapply covered_flight; [done|by apply Hc, Hsub|by apply Hpend].
  - intros f' [?|?]%replace_only; [by apply Hl|by apply Hok].
Qed.

Lemma inv_register s i f : inv s → flights s !! i = Some f → f_phase f = Registering →
  let '(fo, st) := advance (cache s) (streams s) f in inv (mkSys (cache s) st (hooks s) (replace_flight i fo (flights s))).
Proof.
  intros Hinv Hfi Hph. pose proof Hinv as [Hw Hr Hi Hf Hc Hh Hl]. destruct (Hl f) as (Hu & Hrooms & _); [by eapply list_elem_of_lookup_2|].
  unfold advance. rewrite Hph. unfold subscribe. set (ts := _ ++ _).
  destruct (Subscribers.subscribe Many (f_connection f) (f_user f) (f_queue f) (f_id f) ts (rooms (streams s))) as [[e|] r'] eqn:Hrun; cbn [fmap option_fmap option_map].
  - destruct (in_subscribe _ _ _ _ _ _ _ _ (Room "") 0 "" Hw Hrun) as [Hw' _].
    assert (Hin : ∀ t x u, in_ r' t x u → in_ (rooms (streams s)) t x u ∨ (x = f_connection f ∧ u = f_user f ∧ t ∈ ts)) by (intros t x u; by apply (in_subscribe _ _ _ _ _ _ _ _ t x u Hw Hrun)).
    assert (Hts : ∀ r, Room r ∈ ts → r ∈ f_rooms f).
    { intros r [(r0 & [= ->] & ?)%list_elem_of_fmap|Hx]%elem_of_app; [done|]. destruct (f_wide f); [by apply list_elem_of_singleton in Hx|by apply elem_of_nil in Hx]. }
    assert (Hfs : ∀ v, FollowsJoins v ∈ ts → v = f_user f).
    { intros v [(r0 & ? & _)%list_elem_of_fmap|Hx]%elem_of_app; [done|]. destruct (f_wide f); [by apply list_elem_of_singleton in Hx as [= ->]|by apply elem_of_nil in Hx]. }
    split; cbn [cache streams hooks flights rooms set_rooms]; try done.
    + intros r c u [Hx|(-> & -> & Ht)]%Hin; [by eapply Hi|]. split; [done|]. by apply Hrooms, Hts.
    + intros v c u [Hx|(_ & -> & Ht)]%Hin; [by eapply Hf|]. symmetry. by apply Hfs.
    + intros r c u [Hx|(-> & -> & Ht)]%Hin.
      * eapply covered_flight; [done|by apply Hc|]. unfold pending. rewrite Hph. tauto.
      * right. right. eexists. split; [by eapply replace_own|]. split_and!; [done..|]. left. by apply Hts.
    + intros f' [?|[= <-]]%replace_only; [by apply Hl|done].
  - assert (r' = rooms (streams s)) as ->.
    { destruct (decide (f_connection f ∈ ended (rooms (streams s)))) as [Hd|Hd]; [rewrite refused_spec in Hrun by done; congruence|].
      destruct (subscribe_spec Many (f_connection f) (f_user f) (f_queue f) (f_id f) ts (rooms (streams s)) Hw Hd) as (e & r1 & Hrun' & _). congruence. }
    apply (inv_turn s i f); try done. unfold pending. rewrite Hph. tauto.
Qed.

Lemma inv_advance s i f : inv s → flights s !! i = Some f →
  let '(fo, st) := advance (cache s) (streams s) f in inv (mkSys (cache s) st (hooks s) (replace_flight i fo (flights s))).
Proof.
  intros Hinv Hfi. destruct (f_phase f) as [named| |unchecked left] eqn:Hph; [|by apply inv_register|].
  - destruct (iv_flights s Hinv f) as (Hu & Hrooms & Hnamed); [by eapply list_elem_of_lookup_2|]. rewrite Hph in Hnamed. unfold advance. rewrite Hph. destruct named as [|room rest].
    + apply (inv_turn s i f); try done; [apply Hinv|by intros f' [= <-]|]. unfold pending. rewrite Hph. tauto.
    + apply (inv_turn s i f); try done; [apply Hinv| |unfold pending; rewrite Hph; tauto].
      assert (Hrest : ∀ r, r ∈ rest → sep_free r = true) by (intros r Hr; apply Hnamed; by right). intros f' [= <-]. destruct (is_joined _ room (cache s)); split_and!; try done. cbn [f_rooms].
      intros r [?| ->%list_elem_of_singleton]%elem_of_app; [by apply Hrooms|apply Hnamed; left].
  - destruct (iv_flights s Hinv f) as (Hu & Hrooms & _); [by eapply list_elem_of_lookup_2|]. unfold advance. rewrite Hph. destruct unchecked as [|room rest].
    + destruct left as [|l0 ls]; apply (inv_turn s i f); try done; [by apply Hinv|unfold pending; rewrite Hph; intros r c u _ (_ & _ & [?%elem_of_nil|?%elem_of_nil]); done|..].
      * by apply unsubscribe_spec, Hinv.
      * intros t c u. by apply in_unsubscribe, Hinv.
      * intros r c u [Hx _] (Hc & _ & Hp). rewrite Hph in Hp. destruct Hp as [?%elem_of_nil|Hp]; [done|]. cbn [unsubscribe rooms set_rooms] in Hx. exfalso.
        destruct (unsubscribe_spec (f_connection f) (Room <$> l0 :: ls) (rooms (streams s))) as (_ & _ & Hm); [by apply Hinv|]. apply Hm in Hx as [_ Hx]. apply Hx. split; [|done]. by apply list_elem_of_fmap_2.
    + apply (inv_turn s i f); try done; [apply Hinv|by intros f' [= <-]|]. intros r c u _ (Hc & Hfu & Hp). rewrite Hph in Hp.
      destruct (is_joined (f_user f) room (cache s)) eqn:Hj.
      * destruct Hp as [[->|Hp]%elem_of_cons|Hp]; [right; by rewrite <-Hfu|left..]; (eexists; split; [done|]); split_and!; try done; [by left|by right].
      * left. eexists. split; [done|]. split_and!; try done. cbn. rewrite elem_of_app, list_elem_of_singleton. destruct Hp as [[->|Hp]%elem_of_cons|Hp]; tauto.
Qed.

Lemma rooms_joined_ids ro c user r : roster_is ro c → r ∈ rooms_joined user c → sep_free r = true.
Proof.
  intros [[Hi Hu _] _ _ _ _ _]. unfold rooms_joined, seconds. rewrite list_elem_of_omap. setoid_rewrite merge_sort_Permutation. setoid_rewrite elem_of_elements.
  intros (k & (p & Hp & ->)%Hu & Hk). destruct (Hi p Hp) as [Hp1 Hp2]. destruct (starts_with user (user_key p)); [|done]. unfold user_key in Hk. rewrite second_key in Hk by done. by injection Hk as <-.
Qed.

Lemma dedup_subset seen l r : r ∈ dedup seen l → r ∈ l.
Proof. revert seen. induction l as [|x l IH]; intros seen; cbn [dedup]; [done|]. case_bool_decide; [intros ?%IH; by right|]. intros [->|?%IH]%elem_of_cons; [by left|by right]. Qed.

Lemma inv_step x s s' : inv s → step x s = Some s' → inv s'.
Proof.
  intros Hinv. pose proof (iv_wf s Hinv) as Hw. destruct x as [m user room n state|user room|c user q i named|i|c rs|c|c|c|c]; cbn [step].
  - destruct (sep_free user) eqn:Hu, (sep_free room) eqn:Hr; try done. by apply inv_write.
  - destruct (hooks s !! (user, room)) as [h|] eqn:Hh; [|done]. intros [= <-]. by apply inv_hook.
  - destruct (sep_free user) eqn:Hu; [|done]. destruct (forallb sep_free (default [] named)) eqn:Hn; [|done]. intros [= <-]. pose proof Hinv as [_ [ro Hr] Hi Hf Hc Hh Hl]. split; cbn [cache streams hooks flights]; try done; [by exists ro| |].
    + intros r c' u Hin. destruct (Hc r c' u Hin) as [?|[?|(f & ? & ?)]]; [by left|right; by left|]. right. right. exists f. split; [apply elem_of_app; by left|done].
    + intros f [?| ->%list_elem_of_singleton]%elem_of_app; [by apply Hl|]. destruct named as [named|]; cbn; (split; [done|]); cbn [f_rooms f_phase].
      * split; [by intros r ?%elem_of_nil|]. intros r Hr'%dedup_subset. rewrite forallb_forall in Hn. apply Hn. by apply list_elem_of_In.
      * split; [|done]. intros r. by eapply rooms_joined_ids.
  - destruct (flights s !! i) as [f|] eqn:Hi; [|done]. pose proof (inv_advance s i f Hinv Hi) as Ha. destruct (advance (cache s) (streams s) f) as [fo st]. intros [= <-]. exact Ha.
  - intros [= <-]. apply inv_shrink; [done|by apply unsubscribe_spec|intros t c' u; by apply in_unsubscribe].
  - intros [= <-]. apply inv_shrink; [done|by apply wf_remove|intros t c' u; by apply in_remove].
  - intros [= <-]. apply inv_shrink; [done|..]; unfold remove_connection; rewrite rooms_declared; [by apply wf_remove|intros t c' u; by apply in_remove].
  - intros [= <-]. apply inv_shrink; [done|..]; unfold end_connection; rewrite rooms_declared; [by apply wf_end|]. intros t c' u Hin. by apply (in_remove c).
  - intros [= <-]. apply inv_shrink; [done|..]; unfold forget_connection; rewrite rooms_declared; [by apply wf_forget|]. intros t c' u Hin. by apply (in_remove c).
Qed.

Lemma inv_run l s s' : inv s → run l s = Some s' → inv s'.
Proof.
  revert s. induction l as [|x l IH]; intros s Hinv; cbn [run]; [by intros [= <-]|]. destruct (step x s) as [s1|] eqn:Hs; [|done]. cbn. apply IH. by eapply inv_step.
Qed.

Lemma inv_boot e : inv (boot e).
Proof.
  split; cbn [boot cache streams hooks flights]; [apply wf_new|exists (mkRoster ∅ ∅); apply roster_empty| | | |by intros u r h; rewrite lookup_empty|by intros f ?%elem_of_nil];
    intros ? c u [Hx _]; by apply elem_of_empty in Hx.
Qed.

Lemma listener_in r st c u : wf (rooms st) → (c, u) ∈ listeners r st → in_ (rooms st) (Room r) c u.
Proof.
  intros Hw Hin. unfold listeners, Subscribers.listeners in Hin. destruct (topics (rooms st) !! Room r) as [s|] eqn:Ht; [|by apply elem_of_nil in Hin].
  apply list_elem_of_omap in Hin as (x & Hx & He). rewrite elem_of_hash_order, elem_of_elements in Hx. destruct (subscribers (rooms st) !! x) as [sub|] eqn:Hs; [|done]. injection He as <- <-.
  split; [unfold at_; by rewrite Ht|eauto].
Qed.

End Channels.

(** ** Two races *)

#[local] Existing Instances usize_64 in_order.

(** A leave lands between the check and the registration: the recheck drops
    the room again. *)
Definition left_in_flight : list Step :=
  [Write Join "@u" "!r" 1 []; RunHook "@u" "!r"; Start 7 "@u" 5 42 (Some ["!r"; "!r"; "!q"]); Advance 0; Advance 0; Advance 0;
   Write Leave "@u" "!r" 2 []; RunHook "@u" "!r"; Advance 0; Advance 0; Advance 0]%string.


(** A join lands between the list of joined rooms and the registration: its hook
    finds no subscription to follow with, and the recheck only asks about the
    rooms of the list. *)
Definition joined_in_flight : list Step :=
  [Start 7 "@u" 5 42 None; Write Join "@u" "!r" 1 []; RunHook "@u" "!r"; Advance 0; Advance 0]%string.

Lemma join_in_flight_missed :
  match run joined_in_flight (boot 0) with
  | Some s => is_joined "@u" "!r" (cache s) = true ∧ bool_decide (hooks s = ∅) = true ∧ flights s = [] ∧ at_ (topics (rooms (streams s))) (FollowsJoins "@u") = {[7]}
      ∧ listeners "!r" (streams s) = []
  | None => False
  end.
Proof. by vm_compute. Qed.

#[local] Existing Instances z_semaphore list_channel.

(** A member whose membership becomes an invite, which the resolution of a
    room's state can decide, stays in the channel: only a leave and a ban have a
    hook. *)
Lemma invited_member_stays :
  let x := (mark_as_joined "@u" "!r" 1 empty_cache, ((subscribe 7 "@u" 5 42 ["!r"] false (new 0)).2, ∅ : gmap Z (Line Z (Z * list Queued * bool))))%string in
  let y := (update_membership Pack.crc32c_ref (λ _, Some []) (λ _, None) (λ u, u) quiet "!r" "@u" "@v" Invite [] true 2 x).2%string in
  is_joined "@u" "!r" y.1 = false ∧ listeners "!r" y.2.1 = [(7, "@u")]%string.
Proof. split; by vm_compute. Qed.
