(* ===== verification/Connections.v ===== *)
(** * Connections: how many connections a device and an address have

    src/service/connections.rs: the places a device's connections take, the
    connections that serve it and can be asked to end, the places of a source
    address's group; and, with the streams of Streams.v, what the end of a
    device's session does to its connections (src/service/users/device.rs,
    [remove_device]).  The slots and guards a task holds are kept beside the
    tables; dropping one is an operation. *)

From S2P Require Import Prelude Order Store PackQueue Subscribers Streams.

(** ** Addresses *)

(** [IpAddr], its octets. *)
Inductive IpAddr := V4 (octets : list Z) | V6 (octets : list Z).
#[global] Instance IpAddr_eq_dec : EqDecision IpAddr.
Proof. solve_decision. Defined.
#[global] Instance IpAddr_countable : Countable IpAddr.
Proof. refine (inj_countable' (λ a, match a with V4 o => inl o | V6 o => inr o end) (λ s, match s with inl o => V4 o | inr o => V6 o end) _). by intros []. Defined.

(** [IpAddr::to_canonical]: an IPv4-mapped address is its IPv4 part. *)
Definition to_canonical (a : IpAddr) : IpAddr :=
  match a with
  | V4 o => V4 o
  | V6 o => if bool_decide (take 12 o = [0; 0; 0; 0; 0; 0; 0; 0; 0; 0; 255; 255]) then V4 (drop 12 o) else V6 o
  end.

Definition to_address_group (a : IpAddr) : IpAddr :=
  match to_canonical a with
  | V4 o => V4 o
  | V6 o => V6 (take 8 o ++ replicate 8 0)
  end.

Definition ip_ok (a : IpAddr) : Prop := match a with V4 o => length o = 4%nat | V6 o => length o = 16%nat end.

(** An IPv4 address and its mapped form. *)
Definition mapped (o : list Z) : IpAddr := V6 ([0; 0; 0; 0; 0; 0; 0; 0; 0; 0; 255; 255] ++ o).

(** Two addresses count together exactly when they are one IPv4 address, mapped
    or not, or IPv6 addresses of one /64. *)
Lemma address_group_exact a b :
  ip_ok a → ip_ok b →
  to_address_group a = to_address_group b ↔
  to_canonical a = to_canonical b ∨ ∃ o o', to_canonical a = V6 o ∧ to_canonical b = V6 o' ∧ take 8 o = take 8 o'.
Proof.
  intros _ _. unfold to_address_group. destruct (to_canonical a) as [o|o], (to_canonical b) as [o'|o'].
  - split; [by left|]. intros [?|(? & ? & ? & _)]; done.
  - split; [done|]. intros [?|(? & ? & ? & _)]; done.
  - split; [done|]. intros [?|(? & ? & _ & ? & _)]; done.
  - split; [intros [= He]; right; exists o, o'; split_and!; [done..|]; by apply app_inv_tail in He|]. intros [[= ->]|(? & ? & [= <-] & [= <-] & ->)]; done.
Qed.

Lemma address_group_mapped o : to_address_group (mapped o) = to_address_group (V4 o).
Proof. done. Qed.

(** ** Tables *)

Definition Key : Type := string * string.

Record DeviceConnections := mkDeviceConnections { reserved : Z; live : gset ConnectionId }.
Definition no_connections : DeviceConnections := mkDeviceConnections 0 ∅.
Definition is_empty (d : DeviceConnections) : bool := (reserved d =? 0) && bool_decide (live d = ∅).

Record Connections := mkConnections {
  slots : gmap Key DeviceConnections;
  addresses : gmap IpAddr Z;
  (** connections whose [Notify] has been notified *)
  notified : gset ConnectionId
}.

Definition new : Connections := mkConnections ∅ ∅ ∅.
Definition set_slots (t : gmap Key DeviceConnections) (c : Connections) : Connections := mkConnections t (addresses c) (notified c).
Definition set_addresses (t : gmap IpAddr Z) (c : Connections) : Connections := mkConnections (slots c) t (notified c).

Definition entry (k : Key) (c : Connections) : DeviceConnections := default no_connections (slots c !! k).

(** [None] refuses; [Some None] counts nothing. *)
Definition take_slot (k : Key) (max : Z) (c : Connections) : option (option Key) * Connections :=
  if max =? 0 then (Some None, c)
  else if max <=? reserved (entry k c) then (None, set_slots (<[k := entry k c]> (slots c)) c)
  else (Some (Some k), set_slots (<[k := mkDeviceConnections (Z.min (reserved (entry k c) + 1) u32_max) (live (entry k c))]> (slots c)) c).

(** [get_mut], a change, and [remove] when nothing is left. *)
Definition shrink_entry (f : DeviceConnections → DeviceConnections) (k : Key) (c : Connections) : Connections :=
  match slots c !! k with
  | None => c
  | Some d => set_slots (if is_empty (f d) then delete k (slots c) else <[k := f d]> (slots c)) c
  end.

(** [ConnectionSlot::drop] and [DeviceConnectionGuard::drop] *)
Definition drop_slot (k : Key) (c : Connections) : Connections := shrink_entry (λ d, mkDeviceConnections (Z.max (reserved d - 1) 0) (live d)) k c.
Definition drop_guard (k : Key) (x : ConnectionId) (c : Connections) : Connections := shrink_entry (λ d, mkDeviceConnections (reserved d) (live d ∖ {[x]})) k c.

Definition register_device_connection (k : Key) (x : ConnectionId) (c : Connections) : Connections :=
  set_slots (<[k := mkDeviceConnections (reserved (entry k c)) (live (entry k c) ∪ {[x]})]> (slots c)) c.

Definition count_device_connections (k : Key) (c : Connections) : nat := size (live (entry k c)).
Definition count_for (k : Key) (c : Connections) : Z := reserved (entry k c).

Definition take_address_slot (a : IpAddr) (max : Z) (c : Connections) : option (option IpAddr) * Connections :=
  if max =? 0 then (Some None, c)
  else
    let group := to_address_group a in
    let count := default 0 (addresses c !! group) in
    if max <=? count then (None, set_addresses (<[group := count]> (addresses c)) c)
    else (Some (Some group), set_addresses (<[group := count + 1]> (addresses c)) c).

(** [AddressSlot::drop] *)
Definition drop_address_slot (group : IpAddr) (c : Connections) : Connections :=
  set_addresses (match addresses c !! group with
                 | Some count => if 1 <? count then <[group := count - 1]> (addresses c) else delete group (addresses c)
                 | None => delete group (addresses c)
                 end) c.
Definition count_for_address (a : IpAddr) (c : Connections) : Z := default 0 (addresses c !! to_address_group a).

(** ** The end of a session *)

Definition end_device_sessions `{!HashOrder} (k : Key) (c : Connections) : list ConnectionId * Connections :=
  match slots c !! k with
  | None => ([], c)
  | Some d => (hash_order ["end_device_sessions"%string] (elements (live d)), mkConnections (slots c) (addresses c) (notified c ∪ live d))
  end.

(** [remove_device] after the access tokens are gone, as far as the connections. *)
Definition end_device `{!HashOrder} (k : Key) (c : Connections) (st : Streams) : Connections * Streams :=
  let '(ending, c) := end_device_sessions k c in (c, foldl (λ st x, end_connection x st) st ending).

(** ** What the tables count *)

Section Counts.
Context `{!HashOrder} (device_max address_max : Z) (Hdevice : 0 ≤ device_max ≤ u32_max) (Haddress : 0 ≤ address_max ≤ u32_max).

Record Held := mkHeld { tables : Connections; held : list Key; held_addresses : list IpAddr; guards : list (Key * ConnectionId) }.

Inductive Step :=
  | TakeSlot (k : Key)
  | DropSlot (i : nat)
  | TakeAddress (a : IpAddr)
  | DropAddress (i : nat)
  | Register (k : Key) (x : ConnectionId)
  | Unregister (i : nat)
  | EndDevice (k : Key).

(** A connection registers under one device at a time. *)
Definition step (s : Step) (h : Held) : Held :=
  match s with
  | TakeSlot k =>
      let '(r, t) := take_slot k device_max (tables h) in
      mkHeld t (match r with Some (Some k) => held h ++ [k] | _ => held h end) (held_addresses h) (guards h)
  | DropSlot i => match held h !! i with None => h | Some k => mkHeld (drop_slot k (tables h)) (delete i (held h)) (held_addresses h) (guards h) end
  | TakeAddress a =>
      let '(r, t) := take_address_slot a address_max (tables h) in
      mkHeld t (held h) (match r with Some (Some g) => held_addresses h ++ [g] | _ => held_addresses h end) (guards h)
  | DropAddress i =>
      match held_addresses h !! i with None => h | Some g => mkHeld (drop_address_slot g (tables h)) (held h) (delete i (held_addresses h)) (guards h) end
  | Register k x =>
      if bool_decide (x ∈ (guards h).*2) then h
      else mkHeld (register_device_connection k x (tables h)) (held h) (held_addresses h) (guards h ++ [(k, x)])
  | Unregister i => match guards h !! i with None => h | Some (k, x) => mkHeld (drop_guard k x (tables h)) (held h) (held_addresses h) (delete i (guards h)) end
  | EndDevice k => mkHeld (end_device_sessions k (tables h)).2 (held h) (held_addresses h) (guards h)
  end.
Definition run (l : list Step) : Held := foldl (λ h s, step s h) (mkHeld new [] [] []) l.

Definition count {A} `{!EqDecision A} (a : A) (l : list A) : Z := zlen (filter (λ x, x = a) l).

Lemma count_snoc {A} `{!EqDecision A} (a b : A) l : count a (l ++ [b]) = count a l + if decide (b = a) then 1 else 0.
Proof. unfold count. rewrite filter_app, filter_cons, filter_nil. case_decide; unfold zlen; rewrite length_app; cbn; lia. Qed.
Lemma count_delete {A} `{!EqDecision A} (a b : A) l i : l !! i = Some b → count a (delete i l) = count a l - if decide (b = a) then 1 else 0.
Proof.
  intros (l1 & l2 & -> & ->)%list_elem_of_split_length. rewrite delete_middle. unfold count, zlen. rewrite !filter_app, filter_cons, !length_app. case_decide; cbn; lia.
Qed.
Lemma count_nonneg {A} `{!EqDecision A} (a : A) l : 0 ≤ count a l.
Proof. unfold count, zlen. lia. Qed.

Record counted (h : Held) : Prop := {
  ct_reserved : ∀ k, reserved (entry k (tables h)) = count k (held h);
  ct_live : ∀ k x, x ∈ live (entry k (tables h)) ↔ (k, x) ∈ guards h;
  ct_present : ∀ k d, slots (tables h) !! k = Some d → is_empty d = false;
  ct_address : ∀ g, default 0 (addresses (tables h) !! g) = count g (held_addresses h);
  ct_counted : ∀ g n, addresses (tables h) !! g = Some n → 1 ≤ n;
  ct_guards : NoDup (guards h).*2;
  ct_device : 0 < device_max → ∀ k, count k (held h) ≤ device_max;
  ct_group : 0 < address_max → ∀ g, count g (held_addresses h) ≤ address_max
}.

(** A device's entry after one change of it. *)
Lemma entry_set k d k' c : entry k' (set_slots (<[k := d]> (slots c)) c) = if decide (k' = k) then d else entry k' c.
Proof. unfold entry. cbn. case_decide; subst; [by rewrite lookup_insert_eq|by rewrite lookup_insert_ne]. Qed.

Lemma is_empty_none d : is_empty d = true → d = no_connections.
Proof. destruct d as [n l]. unfold is_empty. cbn. rewrite andb_true_iff, Z.eqb_eq, bool_decide_eq_true. by intros [-> ->]. Qed.

Lemma entry_shrink f k k' c : f no_connections = no_connections → entry k' (shrink_entry f k c) = if decide (k' = k) then f (entry k c) else entry k' c.
Proof.
  intros Hf. unfold shrink_entry. destruct (slots c !! k) as [d|] eqn:Hk.
  - replace (entry k c) with d by (unfold entry; by rewrite Hk). destruct (is_empty (f d)) eqn:He; [|by rewrite entry_set]. unfold entry. cbn.
    case_decide; subst; [rewrite lookup_delete_eq; by rewrite (is_empty_none _ He)|by rewrite lookup_delete_ne].
  - case_decide; subst; [|done]. unfold entry. rewrite Hk. cbn. done.
Qed.

Lemma present_shrink f k c : (∀ k d, slots c !! k = Some d → is_empty d = false) → ∀ k' d, slots (shrink_entry f k c) !! k' = Some d → is_empty d = false.
Proof.
  intros Hp k' d. unfold shrink_entry. destruct (slots c !! k) as [d0|] eqn:Hk; [|by apply Hp]. cbn. destruct (is_empty (f d0)) eqn:He.
  - intros [_ ?]%lookup_delete_Some. by eapply Hp.
  - intros [[_ <-]|[_ ?]]%lookup_insert_Some; [done|by eapply Hp].
Qed.

Lemma is_empty_reserved d : 0 < reserved d → is_empty d = false.
Proof. intros Hd. unfold is_empty. by rewrite (proj2 (Z.eqb_neq _ _)) by lia. Qed.
Lemma is_empty_live d x : x ∈ live d → is_empty d = false.
Proof. intros Hx. unfold is_empty. rewrite (bool_decide_eq_false_2 (live d = ∅)) by (intros He; rewrite He in Hx; by apply elem_of_empty in Hx). by rewrite andb_false_r. Qed.

Lemma counted_take k h : counted h → counted (step (TakeSlot k) h).
Proof.
  intros [Hr Hl Hp Ha Hc Hg Hd Hx]. cbn [step]. unfold take_slot. destruct (Z.eqb_spec device_max 0) as [Hz|Hz]; [by split|].
  pose proof (count_nonneg k (held h)) as Hn. destruct (Z.leb_spec device_max (reserved (entry k (tables h)))) as [Hfull|Hroom].
  - split; cbn [tables held held_addresses guards]; try done.
    + intros k'. rewrite entry_set. case_decide; subst; apply Hr.
    + intros k' x. rewrite entry_set. case_decide; subst; apply Hl.
    + intros k' d. cbn. intros [[<- <-]|[_ ?]]%lookup_insert_Some; [apply is_empty_reserved; lia|by eapply Hp].
  - rewrite Hr in Hroom |- *. rewrite Z.min_l by lia. split; cbn [tables held held_addresses guards]; try done.
    + intros k'. rewrite entry_set, count_snoc. destruct (decide (k' = k)) as [->|]; [by rewrite decide_True|]. rewrite decide_False by done. rewrite Hr. lia.
    + intros k' x. rewrite entry_set. case_decide; subst; apply Hl.
    + intros k' d. cbn. intros [[<- <-]|[_ ?]]%lookup_insert_Some; [apply is_empty_reserved; cbn; lia|by eapply Hp].
    + intros Hpos k'. rewrite count_snoc. specialize (Hd Hpos k'). case_decide; subst; lia.
Qed.

Lemma counted_drop i h : counted h → counted (step (DropSlot i) h).
Proof.
  intros Hh. pose proof Hh as [Hr Hl Hp Ha Hc Hg Hd Hx]. cbn [step]. destruct (held h !! i) as [k|] eqn:Hi; [|done]. unfold drop_slot. split; cbn [tables held held_addresses guards]; try done.
  - intros k'. rewrite entry_shrink by done. rewrite (count_delete k' k (held h) i Hi). destruct (decide (k' = k)) as [->|]; cbn [reserved].
    + rewrite decide_True by done. rewrite Hr. assert (0 ≤ count k (delete i (held h))) by apply count_nonneg. rewrite (count_delete k k (held h) i Hi), decide_True in * by done. lia.
    + rewrite decide_False by done. rewrite Hr. lia.
  - intros k' x. rewrite entry_shrink by done. case_decide; subst; apply Hl.
  - by apply present_shrink.
  - unfold shrink_entry. by destruct (slots (tables h) !! k).
  - unfold shrink_entry. by destruct (slots (tables h) !! k).
  - intros Hpos k'. rewrite (count_delete k' k (held h) i Hi). specialize (Hd Hpos k'). case_decide; lia.
Qed.

Lemma counted_register k x h : counted h → counted (step (Register k x) h).
Proof.
  intros Hh. pose proof Hh as [Hr Hl Hp Ha Hc Hg Hd Hx]. cbn [step]. case_bool_decide as Hin; [done|]. unfold register_device_connection. split; cbn [tables held held_addresses guards]; try done.
  - intros k'. rewrite entry_set. case_decide; subst; apply Hr.
  - intros k' x'. rewrite entry_set, elem_of_app, list_elem_of_singleton. destruct (decide (k' = k)) as [->|Hne]; cbn [live].
    + rewrite elem_of_union, elem_of_singleton, Hl. naive_solver.
    + rewrite Hl. naive_solver.
  - intros k' d. cbn. intros [[<- <-]|[_ ?]]%lookup_insert_Some; [apply (is_empty_live _ x); cbn; by apply elem_of_union_r, elem_of_singleton|by eapply Hp].
  - rewrite fmap_app. apply NoDup_app. split_and!; [done| |apply NoDup_singleton]. intros y Hy ->%list_elem_of_singleton. done.
Qed.

Lemma counted_unregister i h : counted h → counted (step (Unregister i) h).
Proof.
  intros Hh. pose proof Hh as [Hr Hl Hp Ha Hc Hg Hd Hx]. cbn [step]. destruct (guards h !! i) as [[k x]|] eqn:Hi; [|done].
  apply list_elem_of_split_length in Hi as (l1 & l2 & Hgs & ->). rewrite Hgs in *. rewrite delete_middle.
  rewrite fmap_app, fmap_cons in Hg. apply NoDup_app in Hg as (Hg1 & Hg12 & [Hg0 Hg2]%NoDup_cons). cbn [snd] in *.
  assert (Hnot : ∀ k', (k', x) ∈ l1 ++ l2 → False).
  { intros k' [Hk|Hk]%elem_of_app; [apply (Hg12 x); [by apply (list_elem_of_fmap_2 snd _ (k', x))|left]|apply Hg0; by apply (list_elem_of_fmap_2 snd _ (k', x))]. }
  assert (Hnone : mkDeviceConnections (reserved no_connections) (live no_connections ∖ {[x]}) = no_connections) by (unfold no_connections; cbn; f_equal; set_solver).
  unfold drop_guard. split; cbn [tables held held_addresses guards]; try done.
  - intros k'. rewrite entry_shrink by exact Hnone. case_decide; subst; apply Hr.
  - intros k' x'. rewrite entry_shrink by exact Hnone. specialize (Hl k' x'). rewrite elem_of_app, elem_of_cons in Hl. specialize (Hnot k'). rewrite elem_of_app in Hnot |- *.
    destruct (decide (k' = k)) as [->|Hne]; cbn [live]; [rewrite elem_of_difference, elem_of_singleton|]; destruct (decide (x' = x)) as [->|]; naive_solver.
  - by apply present_shrink.
  - unfold shrink_entry. by destruct (slots (tables h) !! k).
  - unfold shrink_entry. by destruct (slots (tables h) !! k).
  - rewrite fmap_app. apply NoDup_app. split_and!; [done| |done]. intros y Hy Hy'. apply (Hg12 y Hy). by right.
Qed.

Lemma counted_address s h : (∃ a, s = TakeAddress a) ∨ (∃ i, s = DropAddress i) → counted h → counted (step s h).
Proof.
  intros Hs Hh. pose proof Hh as [Hr Hl Hp Ha Hc Hg Hd Hx]. destruct Hs as [[a ->]|[i ->]]; cbn [step].
  - unfold take_address_slot. destruct (Z.eqb_spec address_max 0) as [Hz|Hz]; [done|]. rewrite Ha. set (g := to_address_group a).
    assert (Hset : ∀ n g', default 0 (<[g := n]> (addresses (tables h)) !! g') = if decide (g' = g) then n else count g' (held_addresses h)).
    { intros n g'. destruct (decide (g' = g)) as [->|]; [by rewrite lookup_insert_eq|rewrite lookup_insert_ne by done; apply Ha]. }
    destruct (Z.leb_spec address_max (count g (held_addresses h))) as [Hfull|Hroom]; split; cbn [tables held held_addresses guards set_addresses addresses slots]; try done.
    + intros g'. rewrite Hset. by case_decide; subst.
    + intros g' n [[_ <-]|[_ ?]]%lookup_insert_Some; [lia|by eapply Hc].
    + intros g'. rewrite Hset, count_snoc. destruct (decide (g' = g)) as [->|]; [by rewrite decide_True|]. rewrite decide_False by done. lia.
    + intros g' n [[_ <-]|[_ ?]]%lookup_insert_Some; [pose proof (count_nonneg g (held_addresses h)); lia|by eapply Hc].
    + intros Hpos g'. rewrite count_snoc. specialize (Hx Hpos g'). case_decide; subst; lia.
  - destruct (held_addresses h !! i) as [g|] eqn:Hi; [|done]. unfold drop_address_slot.
    assert (Hcount : ∀ g', count g' (delete i (held_addresses h)) = count g' (held_addresses h) - if decide (g = g') then 1 else 0) by (intros g'; by apply count_delete).
    assert (1 ≤ count g (held_addresses h)) by (pose proof (count_nonneg g (delete i (held_addresses h))) as Hn; rewrite Hcount, decide_True in Hn by done; lia).
    pose proof (Ha g) as Hag. split; cbn [tables held held_addresses guards set_addresses addresses slots]; try done.
    + intros g'. rewrite Hcount. destruct (addresses (tables h) !! g) as [n|] eqn:Hgn; cbn in Hag; [|lia]. specialize (Ha g'). destruct (Z.ltb_spec 1 n).
      * destruct (decide (g = g')) as [<-|]; [rewrite lookup_insert_eq; cbn; lia|rewrite lookup_insert_ne by done; lia].
      * destruct (decide (g = g')) as [<-|]; [rewrite lookup_delete_eq; cbn; lia|rewrite lookup_delete_ne by done; lia].
    + intros g' n'. destruct (addresses (tables h) !! g) as [n|]; [destruct (Z.ltb_spec 1 n)|].
      * intros [[_ <-]|[_ ?]]%lookup_insert_Some; [lia|by eapply Hc].
      * intros [_ ?]%lookup_delete_Some. by eapply Hc.
      * intros [_ ?]%lookup_delete_Some. by eapply Hc.
    + intros Hpos g'. rewrite Hcount. specialize (Hx Hpos g'). case_decide; lia.
Qed.

Lemma counted_step s h : counted h → counted (step s h).
Proof.
  intros Hh. destruct s; [by apply counted_take|by apply counted_drop|apply counted_address; [left; eauto|done]|apply counted_address; [right; eauto|done]|by apply counted_register|by apply counted_unregister|].
  destruct Hh as [Hr Hl Hp Ha Hc Hg Hd Hx]. cbn [step]. unfold end_device_sessions. by destruct (slots (tables h) !! k).
Qed.

Lemma counted_run l : counted (run l).
Proof.
  unfold run. assert (H0 : counted (mkHeld new [] [] [])).
  { split; cbn [tables held held_addresses guards new slots addresses].
    - done.
    - intros k x. unfold entry. cbn. split; [by intros ?%elem_of_empty|by intros ?%elem_of_nil].
    - intros k d. by rewrite lookup_empty.
    - intros g. by rewrite lookup_empty.
    - intros g n. by rewrite lookup_empty.
    - apply NoDup_nil_2.
    - intros Hpos k. change (0 ≤ device_max). lia.
    - intros Hpos g. change (0 ≤ address_max). lia. }
  revert H0. generalize (mkHeld new [] [] []). induction l as [|s l IH]; intros h Hh; [done|]. by apply IH, counted_step.
Qed.

(** C19: the connection limits count what is open.  Whatever slots and guards
    are taken and dropped, in whatever order, a device's count is the number of
    slots held for it and an address group's is the number held for it, neither
    passes its limit, a device lists exactly the connections registered for it,
    and nothing is kept for a device or a group that has nothing left. *)
Theorem connection_counts_exact l :
  let h := run l in
  (∀ k, count_for k (tables h) = count k (held h) ∧ (0 < device_max → count k (held h) ≤ device_max))
  ∧ (∀ a, count_for_address a (tables h) = count (to_address_group a) (held_addresses h) ∧ (0 < address_max → count (to_address_group a) (held_addresses h) ≤ address_max))
  ∧ (∀ k x, x ∈ live (entry k (tables h)) ↔ (k, x) ∈ guards h)
  ∧ (∀ k, is_Some (slots (tables h) !! k) ↔ k ∈ held h ∨ k ∈ (guards h).*1)
  ∧ (∀ g, is_Some (addresses (tables h) !! g) ↔ g ∈ held_addresses h).
Proof.
  intros h. destruct (counted_run l) as [Hr Hl Hp Ha Hc Hg Hd Hx]. fold h in Hr, Hl, Hp, Ha, Hc, Hg, Hd, Hx.
  assert (Hcount : ∀ {A} `{!EqDecision A} (a : A) l, a ∈ l ↔ 0 < count a l).
  { intros A E a l'. unfold count, zlen. destruct (filter (λ x, x = a) l') as [|b f] eqn:Hf; cbn; (split; [|lia || intros _]); [|lia|].
    - intros Hin. exfalso. apply (not_elem_of_nil a). rewrite <-Hf. by apply list_elem_of_filter.
    - assert (Hb : b ∈ filter (λ x, x = a) l') by (rewrite Hf; left). by apply list_elem_of_filter in Hb as [-> ?]. }
  split_and!.
  - intros k. split; [apply Hr|intros Hpos; by apply Hd].
  - intros a. split; [apply Ha|intros Hpos; by apply Hx].
  - done.
  - intros k. rewrite Hcount, <-Hr, list_elem_of_fmap. unfold entry. split.
    + intros [d Hk]. specialize (Hp k d Hk). specialize (Hl k). specialize (Hr k). unfold entry in *. rewrite Hk in *. cbn in *. unfold is_empty in Hp. apply andb_false_iff in Hp as [Hz%Z.eqb_neq|He].
      * left. pose proof (count_nonneg k (held h)). lia.
      * right. apply bool_decide_eq_false in He. apply set_choose_L in He as [x Hx']. exists (k, x). split; [done|]. by apply Hl.
    + intros [Hpos|([k' x] & -> & Hin)]; [destruct (slots (tables h) !! k); [done|cbn in Hpos; lia]|]. cbn [fst]. apply Hl in Hin. unfold entry in Hin. destruct (slots (tables h) !! k'); [done|by apply elem_of_empty in Hin].
  - intros g. rewrite Hcount, <-Ha. split; [intros [n Hn]; specialize (Hc g n Hn); rewrite Hn; cbn; lia|]. destruct (addresses (tables h) !! g); [done|cbn; lia].
Qed.
End Counts.

(** ** A device's session ends *)

Section Teardown.
Context `{!Usize} `{!HashOrder} (crc32c : bytes → Z) (to_vec : Json.Value → option bytes) (from_slice : bytes → option Json.Value) {W : Type} `{!PackSink W}.

Lemma fold_end xs st (w : W) : (foldl (λ st x, end_connection x st) st xs, w) = act_all crc32c to_vec from_slice (AEnd <$> xs) (st, w).
Proof. revert st. induction xs as [|x xs IH]; intros st; [done|]. cbn [foldl fmap list_fmap]. apply IH. Qed.

Lemma ended_by_one_of xs st (w : W) x : sound st → x ∈ xs →
  let y := foldl (λ st x, end_connection x st) st xs in x ∈ ended (rooms y) ∧ x ∈ ended (devices y) ∧ x ∈ ended (invites y).
Proof.
  intros Hs (l1 & l2 & ->)%list_elem_of_split. rewrite foldl_app. cbn [foldl]. set (st1 := foldl _ st l1).
  assert (Hs1 : sound st1) by (pose proof (f_equal fst (fold_end l1 st w)) as He; cbn in He; unfold st1; rewrite He; by apply sound_all).
  pose proof (f_equal fst (fold_end l2 (end_connection x st1) w)) as He. cbn [fst] in He. rewrite He.
  apply ended_all; [by apply (sound_moves [] st1); [apply (act_moves crc32c to_vec from_slice (AEnd x) (st1, w))|]| |apply end_marks].
  intros a (y & -> & _)%list_elem_of_fmap. by intros ?%elem_of_nil.
Qed.

End Teardown.

(** ** Samples *)

#[local] Existing Instances usize_64 in_order z_semaphore list_channel.

Definition kd : Key := ("@u", "D")%string.
Definition served : Connections := register_device_connection kd 7 (take_slot kd 4 new).2.
Definition listening : Streams := (subscribe 7 "@u" 5 42 ["!r"] true (Streams.new 0)).2%string.

Lemma connection_counts_exact_witness :
  let h := run 2 40 [TakeSlot kd; TakeSlot kd; TakeSlot kd; Register kd 7; TakeAddress (mapped [1; 2; 3; 4]); TakeAddress (V4 [1; 2; 3; 4]); DropSlot 0] in
  count_for kd (tables h) = 1 ∧ count_for_address (V4 [1; 2; 3; 4]) (tables h) = 2
  ∧ ∀ k, count_for k (tables h) = count k (held h) ∧ (0 < 2 → count k (held h) ≤ 2).
Proof.
  split; [by vm_compute|]. split; [by vm_compute|].
  refine (proj1 (connection_counts_exact 2 40 _ _ [TakeSlot kd; TakeSlot kd; TakeSlot kd; Register kd 7; TakeAddress (mapped [1; 2; 3; 4]); TakeAddress (V4 [1; 2; 3; 4]); DropSlot 0])); by vm_compute.
Defined.


(** A connection that logs in again as the same device keeps its streams while
    it is off the device's list for a moment: a session that ends in that moment
    leaves it subscribed. *)
Lemma relogin_gap :
  let '(c, st) := end_device kd (drop_guard kd 7 served) listening in
  let c := register_device_connection kd 7 c in
  live (entry kd c) = {[7]} ∧ notified c = ∅ ∧ listeners "!r" st = [(7, "@u")]%string.
Proof. by vm_compute. Qed.
