(* ===== verification/RecentWindow.v ===== *)
(** * RecentWindow: the newest events of several rooms

    src/api/client/wbf/recent.rs: a request of [Event/Recent], the window that
    merges one reverse stream per room by the events' global count, and the
    [Batch] packs it is answered with.  A stream is the rows the timeline yields
    from newest to oldest, some of which fail to decode; the filters of the
    message endpoints, the last step before an event is served and its JSON are
    arguments.  A count is compared as a signed integer, as [PduCount] is. *)

From stdpp Require Import pretty sorting.
From S2P Require Import Prelude Json Order Store Pack WireCodes WireEvents PackQueue Subscribers Streams StreamWindows Membership.

(** ** The request *)

Section Request.
Context (as_u64 as_i64 : string → option Z) (room_id_parse : string → bool).

(** [meta[name]] *)
Definition index_value (meta : Value) (name : string) : Value := default Null (value_get meta name).

Definition count_field `{!Usize} (meta : Value) (name : string) (dflt max : Z) : Z :=
  match index_value meta name with
  | Number d => match as_u64 d with Some v => if v <=? usize_max then Z.min v max else dflt | None => dflt end
  | _ => dflt
  end.

Fixpoint room_names (l : list Value) : Result RejectCode.t (list string) :=
  match l with
  | [] => Ok []
  | Str name :: l => if room_id_parse name then rest ← room_names l; Ok (name :: rest) else Err RejectCode.InvalidRequest
  | _ :: _ => Err RejectCode.InvalidRequest
  end.

Definition rooms_field (meta : Value) : Result RejectCode.t (option (list string)) :=
  match index_value meta "rooms"%string with
  | Null => Ok None
  | Arr names => l ← room_names names; Ok (Some l)
  | _ => Err RejectCode.InvalidRequest
  end.

Definition g_seq_field (meta : Value) (name : string) : Result RejectCode.t (option Z) :=
  match index_value meta name with
  | Null => Ok None
  | Number d => match as_i64 d with Some n => Ok (Some n) | None => Err RejectCode.InvalidRequest end
  | _ => Err RejectCode.InvalidRequest
  end.

Record RecentRequest := mkRecentRequest { rq_rooms : option (list string); limit : Z; batch : Z; cg_seq : option Z; rq_before : option Z }.
Record RecentLimits := mkRecentLimits { default_limit : Z; max_limit : Z; default_batch : Z; max_batch : Z }.

(** [RecentRequest::parse]; the meta is read unless it is empty. *)
Definition parse `{!Usize} (meta : Value) (limits : RecentLimits) : Result RejectCode.t RecentRequest :=
  rooms ← rooms_field meta;
  let l := count_field meta "limit"%string (default_limit limits) (max_limit limits) in
  let b := Z.max (count_field meta "batch"%string (default_batch limits) (max_batch limits)) 1 in
  cached ← g_seq_field meta "cg_seq"%string;
  before ← g_seq_field meta "before"%string;
  Ok (mkRecentRequest rooms l b (match cached with Some 0 => None | c => c end) before).
End Request.

(** ** The window *)

Record WindowEvent := mkWindowEvent { we_g_seq : Z; we_json : bytes }.
Record Window := mkWindow { events : list WindowEvent; win_cut_short : bool }.

Record Head := mkHead { h_count : Z; h_room : nat }.

Section Merge.
Context `{!Usize} {P : Type} (ignored_filter visibility_filter : Z * P → option (Z * P)) (bundle_aggregations : P → P) (to_format : P → bytes).

Definition RoomStream : Type := list (option (Z * P)).

Fixpoint next_item (s : RoomStream) : option ((Z * P) * RoomStream) :=
  match s with
  | [] => None
  | Some item :: s => Some (item, s)
  | None :: s => next_item s
  end.

Definition is_newer_than_after (count : Z) (cg_seq : option Z) : bool := match cg_seq with None => true | Some c => c <? count end.

(** [BinaryHeap::pop]: a greatest element. *)
Fixpoint heap_pop (heap : list Head) : option (Head * list Head) :=
  match heap with
  | [] => None
  | x :: heap =>
      match heap_pop heap with
      | None => Some (x, [])
      | Some (m, rest) => if h_count m <=? h_count x then Some (x, m :: rest) else Some (m, x :: rest)
      end
  end.

Record Merge := mkMerge { streams : list RoomStream; heads : list (option (Z * P)); heap : list Head }.

(** The first candidate of each room. *)
Definition prime (room : nat) (s : RoomStream) : option (Z * P) * RoomStream * list Head :=
  match next_item s with
  | Some (item, s) => (Some item, s, [mkHead item.1 room])
  | None => (None, [], [])
  end.
Definition start_merge (l : list RoomStream) : Merge :=
  let primed := imap prime l in
  mkMerge ((λ p, p.1.2) <$> primed) ((λ p, p.1.1) <$> primed) (mjoin ((λ p, p.2) <$> primed)).

(** The room's next candidate takes its place. *)
Definition refill (room : nat) (m : Merge) : Merge :=
  match streams m !! room ≫= next_item with
  | Some (item, s) => mkMerge (<[room := s]> (streams m)) (<[room := Some item]> (heads m)) (heap m ++ [mkHead item.1 room])
  | None => mkMerge (<[room := []]> (streams m)) (heads m) (heap m)
  end.

(** What is served of a row, if anything. *)
Definition served (data_max : Z) (item : Z * P) : option bytes :=
  item ← ignored_filter item;
  item ← visibility_filter item;
  let json := to_format (bundle_aggregations item.2) in
  if data_max <? framed_len (zlen json) then None else Some json.

Fixpoint collect (fuel : nat) (data_max : Z) (cg_seq : option Z) (m : Merge) (budget : WindowBudget) (window : list WindowEvent) : list WindowEvent * WindowBudget :=
  match fuel with
  | O => (window, budget)
  | S fuel =>
      if is_count_full budget then (window, budget)
      else
        match heap_pop (heap m) with
        | None => (window, budget)
        | Some (h, rest) =>
            if is_newer_than_after (h_count h) cg_seq then
              match heads m !! h_room h with
              | Some (Some item) =>
                  let m := refill (h_room h) (mkMerge (streams m) (<[h_room h := None]> (heads m)) rest) in
                  match served data_max item with
                  | None => collect fuel data_max cg_seq m budget window
                  | Some json =>
                      match try_admit budget (zlen json) with
                      | (true, budget) => collect fuel data_max cg_seq m budget (window ++ [mkWindowEvent (h_count h) json])
                      | (false, budget) => (window, budget)
                      end
                  end
              | _ => (window, budget)
              end
            else (window, budget)
        end
  end.

(** Each room once, the first mention. *)
Fixpoint once_each (seen rooms : list string) : list string :=
  match rooms with
  | [] => []
  | r :: rooms => if bool_decide (r ∈ seen) then once_each seen rooms else r :: once_each (r :: seen) rooms
  end.

(** [collect_window]: the fuel is one turn per row, and one to stop. *)
Definition collect_window (pdus_rev : string → RoomStream) (rooms : list string) (limit : nat) (cg_seq : option Z) (window_max_bytes data_max : Z) : Window :=
  let ss := pdus_rev <$> once_each [] rooms in
  let '(window, budget) := collect (S (length (mjoin ss))) data_max cg_seq (start_merge ss) (window_new limit window_max_bytes) [] in
  mkWindow window (is_cut_short budget).

(** ** The merge yields the rows in order *)

Definition oks (s : RoomStream) : list (Z * P) := omap (λ x, x) s.

Lemma next_item_none s : next_item s = None → oks s = [].
Proof. induction s as [|[x|] s IH]; [done|done|apply IH]. Qed.
Lemma next_item_some s x s' : next_item s = Some (x, s') → oks s = x :: oks s'.
Proof. induction s as [|[y|] s IH]; [done|by intros [= -> ->]|apply IH]. Qed.

(** The candidates of what is left of each room. *)
Fixpoint heads_from (i : nat) (rems : list (list (Z * P))) : list Head :=
  match rems with
  | [] => []
  | l :: rems => option_list ((λ x, mkHead x.1 i) <$> head l) ++ heads_from (S i) rems
  end.

Record matches (m : Merge) (rems : list (list (Z * P))) : Prop := {
  mt_streams : Forall2 (λ s l, oks s = tail l) (streams m) rems;
  mt_heads : heads m = head <$> rems;
  mt_heap : heap m ≡ₚ heads_from 0 rems
}.

Lemma start_matches l : matches (start_merge l) (oks <$> l).
Proof.
  assert (Hone : ∀ i s, oks (prime i s).1.2 = tail (oks s) ∧ (prime i s).1.1 = head (oks s) ∧ (prime i s).2 = option_list ((λ x, mkHead x.1 i) <$> head (oks s))).
  { intros i s. unfold prime. destruct (next_item s) as [[x s']|] eqn:Hs; [by rewrite (next_item_some s x s' Hs)|by rewrite (next_item_none s Hs)]. }
  assert (Hall : ∀ k, let primed := imap (λ i, prime (k + i)) l in
    Forall2 (λ s l, oks s = tail l) ((λ p, p.1.2) <$> primed) (oks <$> l) ∧ (λ p, p.1.1) <$> primed = head <$> (oks <$> l) ∧ mjoin ((λ p, p.2) <$> primed) = heads_from k (oks <$> l)).
  { induction l as [|s l IH]; intros k; cbn zeta; [done|]. rewrite imap_cons. cbn [fmap list_fmap mjoin list_join heads_from]. rewrite Nat.add_0_r. destruct (Hone k s) as (H1 & H2 & H3).
    assert (Hext : imap ((λ i, prime (k + i)) ∘ S) l = imap (λ i, prime (S k + i)) l) by (apply imap_ext; intros i x _; cbn; by rewrite Nat.add_succ_r). rewrite Hext.
    destruct (IH (S k)) as (I1 & I2 & I3). split_and!; [by constructor|by rewrite H2; f_equal|]. rewrite H3. f_equal. exact I3. }
  destruct (Hall 0%nat) as (I1 & I2 & I3). change (imap (λ i, prime (0 + i)) l) with (imap prime l) in I1, I2, I3. split; unfold start_merge; cbn [streams heads heap]; [done|done|]. by rewrite I3.
Qed.

Lemma heads_from_app i r1 r2 : heads_from i (r1 ++ r2) = heads_from i r1 ++ heads_from (i + length r1) r2.
Proof. revert i. induction r1 as [|l r1 IH]; intros i; cbn [app heads_from length]; [by rewrite Nat.add_0_r|]. rewrite IH, <-app_assoc. by rewrite Nat.add_succ_r. Qed.

Lemma heads_from_elem i rems h : h ∈ heads_from i rems → ∃ j x l, rems !! j = Some (x :: l) ∧ h = mkHead x.1 (i + j).
Proof.
  revert i. induction rems as [|l rems IH]; intros i; cbn [heads_from]; [by intros ?%elem_of_nil|]. intros [Hh|Hh]%elem_of_app.
  - destruct l as [|x l]; cbn in Hh; [by apply elem_of_nil in Hh|]. apply list_elem_of_singleton in Hh as ->. exists 0%nat, x, l. by rewrite Nat.add_0_r.
  - apply IH in Hh as (j & x & l' & Hj & ->). exists (S j), x, l'. split; [done|]. by rewrite Nat.add_succ_r.
Qed.
Lemma heads_from_in rems j x l : rems !! j = Some (x :: l) → mkHead x.1 j ∈ heads_from 0 rems.
Proof.
  intros (r1 & r2 & -> & ->)%list_elem_of_split_length. rewrite heads_from_app, Nat.add_0_l. cbn. apply elem_of_app. right. left.
Qed.

Lemma heap_pop_spec h : match heap_pop h with
  | None => h = []
  | Some (m, rest) => h ≡ₚ m :: rest ∧ ∀ x, x ∈ h → h_count x ≤ h_count m
  end.
Proof.
  induction h as [|x h IH]; cbn [heap_pop]; [done|]. destruct (heap_pop h) as [[m rest]|]; [|subst; split; [done|]; intros y ->%list_elem_of_singleton; lia].
  destruct IH as [Hp Hm]. destruct (Z.leb_spec (h_count m) (h_count x)); (split; [|intros y [->|Hy%Hm]%elem_of_cons; lia]).
  - by rewrite Hp.
  - rewrite Hp. apply Permutation_swap.
Qed.

(** The next row: its room's candidate goes, and the room's next takes its place. *)
Lemma refill_matches m rems j x l rest :
  matches m rems → rems !! j = Some (x :: l) → heap m ≡ₚ mkHead x.1 j :: rest →
  matches (refill j (mkMerge (streams m) (<[j := None]> (heads m)) rest)) (<[j := l]> rems).
Proof.
  intros [Hs Hh Hp] Hj Hpop. assert (Hlt : (j < length rems)%nat) by (by eapply lookup_lt_Some).
  destruct (Forall2_lookup_r _ _ _ j (x :: l) Hs Hj) as (s & Hsj & Hoks). cbn [tail] in Hoks.
  assert (Hheap : ∀ l', heads_from 0 (<[j := l']> rems) ≡ₚ rest ++ option_list ((λ x, mkHead x.1 j) <$> head l')).
  { intros l'. rewrite Hp in Hpop. pose proof Hj as (r1 & r2 & -> & ->)%list_elem_of_split_length. rewrite insert_app_r_alt, Nat.sub_diag by done. cbn [insert list_insert].
    rewrite heads_from_app in Hpop |- *. cbn [heads_from] in *. rewrite Nat.add_0_l in *. cbn [head fmap option_fmap option_map option_list app] in Hpop.
    change (option_list (Some ?h) ++ ?t) with (h :: t) in Hpop. rewrite <-Permutation_middle in Hpop. apply Permutation_cons_inv in Hpop. rewrite <-Hpop, <-app_assoc. apply Permutation_app_head. apply Permutation_app_comm. }
  unfold refill. cbn [streams heads heap]. rewrite Hsj. cbn [mbind option_bind]. destruct (next_item s) as [[y s']|] eqn:Hn.
  - rewrite (next_item_some s y s' Hn) in Hoks. subst l. split; cbn [streams heads heap].
    + apply Forall2_insert; [done|]. done.
    + rewrite Hh, list_insert_insert_eq. by rewrite list_fmap_insert.
    + by rewrite Hheap.
  - rewrite (next_item_none s Hn) in Hoks. subst l. split; cbn [streams heads heap].
    + apply Forall2_insert; [done|]. done.
    + rewrite Hh. by rewrite list_fmap_insert.
    + rewrite Hheap. cbn. by rewrite app_nil_r.
Qed.

(** ** What a window reads *)

(** The window over one list of rows, newest first. *)
Fixpoint scan (data_max : Z) (cg_seq : option Z) (todo : list (Z * P)) (budget : WindowBudget) (window : list WindowEvent) : list WindowEvent * WindowBudget :=
  if is_count_full budget then (window, budget)
  else
    match todo with
    | [] => (window, budget)
    | x :: todo =>
        if is_newer_than_after x.1 cg_seq then
          match served data_max x with
          | None => scan data_max cg_seq todo budget window
          | Some json =>
              match try_admit budget (zlen json) with
              | (true, budget) => scan data_max cg_seq todo budget (window ++ [mkWindowEvent x.1 json])
              | (false, budget) => (window, budget)
              end
          end
        else (window, budget)
    end.

Definition newest_first (l : list (Z * P)) : Prop := StronglySorted (λ a b, b.1 < a.1) l.

Lemma scan_full data_max cg todo b w : is_count_full b = true → scan data_max cg todo b w = (w, b).
Proof. intros Hb. by destruct todo; cbn [scan]; rewrite Hb. Qed.

Lemma in_rooms (rems : list (list (Z * P))) x : x ∈ mjoin rems ↔ ∃ j l, rems !! j = Some l ∧ x ∈ l.
Proof. rewrite list_elem_of_join. setoid_rewrite list_elem_of_lookup. split; [intros (l & Hx & j & Hj); eauto|intros (j & l & Hj & Hx); eauto]. Qed.

Lemma join_insert (rems : list (list (Z * P))) j x l : rems !! j = Some (x :: l) → mjoin rems ≡ₚ x :: mjoin (<[j := l]> rems).
Proof.
  intros (r1 & r2 & -> & ->)%list_elem_of_split_length. rewrite insert_app_r_alt, Nat.sub_diag by done. cbn [insert list_insert]. rewrite !join_app. cbn [mjoin list_join].
  cbn [app]. by rewrite <-Permutation_middle.
Qed.

(** The greatest candidate is the greatest row. *)
Lemma pop_newest m rems x todo h rest :
  matches m rems → x :: todo ≡ₚ mjoin rems → newest_first (x :: todo) → Forall newest_first rems → heap_pop (heap m) = Some (h, rest) →
  ∃ j l, rems !! j = Some (x :: l) ∧ h = mkHead x.1 j ∧ heap m ≡ₚ h :: rest.
Proof.
  intros [Hs Hh Hp] Hall Hsort Hrems Hpop. pose proof (heap_pop_spec (heap m)) as Hspec. rewrite Hpop in Hspec. destruct Hspec as [Hperm Hmax].
  assert (Hin : h ∈ heads_from 0 rems) by (rewrite <-Hp, Hperm; left). apply heads_from_elem in Hin as (j & z & l & Hj & ->). rewrite Nat.add_0_l in *. cbn [h_count] in Hmax.
  exists j, l. assert (z = x) as ->; [|done]. assert (Hz : z ∈ x :: todo) by (rewrite Hall; apply in_rooms; exists j, (z :: l); split; [done|left]).
  apply elem_of_cons in Hz as [?|Hz]; [done|]. exfalso. apply StronglySorted_inv in Hsort as [_ Hlt]. rewrite Forall_forall in Hlt. rewrite Forall_forall in Hrems. specialize (Hlt z Hz). cbn in Hlt.
  assert (Hx : x ∈ mjoin rems) by (rewrite <-Hall; left). apply in_rooms in Hx as (i & l' & Hi & Hx). destruct l' as [|y l']; [by apply elem_of_nil in Hx|].
  assert (Hy : h_count (mkHead y.1 i) ≤ z.1) by (apply Hmax; rewrite Hp; by eapply heads_from_in). cbn in Hy. apply elem_of_cons in Hx as [->|Hx]; [lia|].
  assert (Hd : newest_first (y :: l')) by (apply Hrems; by eapply list_elem_of_lookup_2). apply StronglySorted_inv in Hd as [_ Hd]. rewrite Forall_forall in Hd. specialize (Hd x Hx). cbn in Hd. lia.
Qed.

Lemma collect_scan data_max cg todo fuel m rems b w :
  matches m rems → todo ≡ₚ mjoin rems → newest_first todo → Forall newest_first rems → (length todo < fuel)%nat →
  collect fuel data_max cg m b w = scan data_max cg todo b w.
Proof.
  revert fuel m rems b w. induction todo as [|x todo IH]; intros fuel m rems b w Hm Hall Hsort Hrems Hfuel; (destruct fuel as [|fuel]; [cbn in Hfuel; lia|]); cbn [collect scan]; destruct (is_count_full b); try done.
  - assert (heap m = []) as ->; [|done]. apply Permutation_nil. symmetry. rewrite (mt_heap m rems Hm). destruct (heads_from 0 rems) as [|h l] eqn:Hh; [done|].
    destruct (heads_from_elem 0 rems h) as (j & y & l' & Hj & _); [rewrite Hh; left|]. exfalso. apply (not_elem_of_nil y). rewrite Hall. apply in_rooms. exists j, (y :: l'). split; [done|left].
  - destruct (heap_pop (heap m)) as [[h rest]|] eqn:Hpop.
    + destruct (pop_newest m rems x todo h rest Hm Hall Hsort Hrems Hpop) as (j & l & Hj & -> & Hperm). cbn [h_count h_room]. destruct (is_newer_than_after x.1 cg); [|done].
      rewrite (mt_heads m rems Hm), list_lookup_fmap, Hj. cbn [fmap option_fmap option_map head].
      assert (Hm' : matches (refill j (mkMerge (streams m) (<[j := None]> (heads m)) rest)) (<[j := l]> rems)) by (by eapply refill_matches). rewrite (mt_heads m rems Hm) in Hm'.
      assert (Hall' : todo ≡ₚ mjoin (<[j := l]> rems)) by (rewrite (join_insert rems j x l Hj) in Hall; by apply Permutation_cons_inv in Hall).
      assert (Hrems' : Forall newest_first (<[j := l]> rems)).
      { apply Forall_insert; [done|]. rewrite Forall_forall in Hrems. assert (Hd : newest_first (x :: l)) by (apply Hrems; by eapply list_elem_of_lookup_2). by apply StronglySorted_inv in Hd as [? _]. }
      apply StronglySorted_inv in Hsort as [Hsort _]. cbn in Hfuel.
      destruct (served data_max x) as [json|]; [destruct (try_admit b (zlen json)) as [[] b']|]; try done; (eapply IH; [exact Hm'|done|done|done|lia]).
    + pose proof (heap_pop_spec (heap m)) as Hspec. rewrite Hpop in Hspec. exfalso. assert (Hx : x ∈ mjoin rems) by (rewrite <-Hall; left). apply in_rooms in Hx as (j & l & Hj & Hx).
      destruct l as [|y l]; [by apply elem_of_nil in Hx|]. apply heads_from_in in Hj. rewrite <-(mt_heap m rems Hm), Hspec in Hj. by apply elem_of_nil in Hj.
Qed.

(** What a window may hold: the rows newer than the client's, as they are served. *)
Definition offered (data_max : Z) (cg_seq : option Z) (rows : list (Z * P)) : list WindowEvent :=
  omap (λ x, if is_newer_than_after x.1 cg_seq then mkWindowEvent x.1 <$> served data_max x else None) rows.

Lemma offered_none data_max cg x todo : newest_first (x :: todo) → is_newer_than_after x.1 cg = false → offered data_max cg (x :: todo) = [].
Proof.
  intros [_ Hlt]%StronglySorted_inv Hx. unfold offered. cbn [omap list_omap]. rewrite Hx. induction Hlt as [|y todo Hy _ IH]; [done|]. cbn [omap list_omap].
  assert (is_newer_than_after y.1 cg = false) as ->; [|done]. unfold is_newer_than_after in *. destruct cg as [c|]; [|done]. apply Z.ltb_ge in Hx. apply Z.ltb_ge. lia.
Qed.

Section Budget.
Context (cm : nat) (bm data_max : Z) (cg : option Z) (Hbm : bm < usize_max).

Definition lens (l : list WindowEvent) : list Z := (λ e, zlen (we_json e)) <$> l.

Lemma lens_nonneg l : Forall (Z.le 0) (lens l).
Proof. apply Forall_fmap, Forall_true. intros e. cbn. unfold zlen. lia. Qed.

(** The window [pre] so far: how the rest is read. *)
Lemma scan_spec todo pre :
  newest_first todo → window_within cm bm (lens pre) →
  ∃ taken refused, offered data_max cg todo = taken ++ refused
    ∧ (scan data_max cg todo (open_window cm bm (lens pre)) pre).1 = pre ++ taken
    ∧ window_within cm bm (lens (pre ++ taken))
    ∧ (∀ e, head refused = Some e → window_refuses cm bm (lens (pre ++ taken)) (zlen (we_json e)))
    ∧ (is_cut_short (scan data_max cg todo (open_window cm bm (lens pre)) pre).2 = true ↔ cm ≠ 0%nat ∧ (refused ≠ [] ∨ length (pre ++ taken) = cm)).
Proof.
  revert pre. induction todo as [|x todo IH]; intros pre Hsort Hw.
  { exists [], []. cbn [scan]. rewrite !app_nil_r. destruct (is_count_full _) eqn:Hf; cbn [fst snd]; (split_and!; [done..|]); unfold is_cut_short; rewrite Hf; cbn [open_window w_count_max w_is_closed orb];
      unfold is_count_full in Hf; cbn in Hf; unfold lens in *; rewrite length_fmap in Hf; destruct Hw as [Hw _]; rewrite length_fmap in Hw; case_bool_decide; case_bool_decide; naive_solver lia. }
  cbn [scan]. destruct (is_count_full (open_window cm bm (lens pre))) eqn:Hf.
  { exists [], (offered data_max cg (x :: todo)). rewrite !app_nil_r. cbn [fst snd]. assert (length pre = cm) as Hlen.
    { unfold is_count_full in Hf. cbn in Hf. apply bool_decide_eq_true in Hf. destruct Hw as [Hw _]. unfold lens in *. rewrite length_fmap in *. lia. }
    split_and!; [done|done|done|intros e _; left; unfold lens; by rewrite length_fmap|]. unfold is_cut_short. rewrite Hf. cbn. case_bool_decide; naive_solver. }
  destruct (is_newer_than_after x.1 cg) eqn:Hx.
  2:{ rewrite offered_none by done. exists [], []. rewrite !app_nil_r. cbn [fst snd]. split_and!; [done..|]. unfold is_cut_short. rewrite Hf. unfold is_count_full in Hf. cbn in *.
      apply bool_decide_eq_false in Hf. unfold lens in *. rewrite length_fmap in Hf. case_bool_decide; naive_solver lia. }
  apply StronglySorted_inv in Hsort as [Hsort _]. unfold offered. cbn [omap list_omap]. fold (offered data_max cg todo). rewrite Hx. destruct (served data_max x) as [json|]; cbn [fmap option_fmap option_map]; [|by apply IH].
  set (e := mkWindowEvent x.1 json). assert (Hsnoc : lens (pre ++ [e]) = lens pre ++ [zlen json]) by (unfold lens; by rewrite fmap_app).
  destruct (try_admit_open cm bm Hbm (lens pre) (zlen json)) as [[Hw' Ha]|(Hr & w & Ha & Hcl & Hn & Hm)]; [unfold zlen; lia|apply lens_nonneg|done|..]; rewrite Ha.
  - rewrite <-Hsnoc in *. destruct (IH (pre ++ [e]) Hsort Hw') as (tk & rf & -> & ? & ? & ? & ?). exists (e :: tk), rf. rewrite <-app_assoc in *. by split_and!.
  - exists [], (e :: offered data_max cg todo). rewrite !app_nil_r. cbn [fst snd]. split_and!; [done|done|done|by intros ? [= <-]|]. unfold is_cut_short. rewrite Hcl, Hm. cbn. case_bool_decide; naive_solver.
Qed.
End Budget.

Lemma once_each_spec seen rooms : NoDup (once_each seen rooms) ∧ ∀ r, r ∈ once_each seen rooms ↔ r ∈ rooms ∧ r ∉ seen.
Proof.
  revert seen. induction rooms as [|r rooms IH]; intros seen; cbn [once_each]; [split; [constructor|set_solver]|].
  case_bool_decide as Hr; [destruct (IH seen); split; [done|set_solver]|]. destruct (IH (r :: seen)) as [Hnd Hin]. split; [apply NoDup_cons; set_solver|]. intros r'. destruct (decide (r' = r)); set_solver.
Qed.

End Merge.

(** ** The packs *)

Definition EVENT_BATCH : Z := 0x03.

(** [resolve_rooms] *)
Definition resolve_rooms (user : string) (named : option (list string)) (c : Cache) : Result RejectCode.t (list string) :=
  match named with
  | None => Ok (rooms_joined user c)
  | Some named => if forallb (λ room, is_joined user room c) named then Ok named else Err RejectCode.Forbidden
  end.

Section Batches.
Context `{!Usize} (crc32c : bytes → Z) (to_vec : Value → option bytes).

Definition batch_meta (tc bc fs ls remaining : Z) (more : bool) : Value :=
  Object [("tc", number tc); ("bc", number bc); ("fs", number fs); ("ls", number ls); ("r", number remaining); ("more", Bool_ more)]%string.

Definition batch_pack (id seq tc : Z) (in_batch : list WindowEvent) (remaining : Z) (more : bool) : Result PackError bytes :=
  d ← length_prefixed (we_json <$> in_batch);
  with_meta_data crc32c to_vec Event EVENT_BATCH IS_RESPONSE id seq
    (batch_meta tc (zlen in_batch) (from_option we_g_seq 0 (head in_batch)) (from_option we_g_seq 0 (last in_batch)) remaining more) d.

(** [&events[range]] *)
Definition events_at (l : list WindowEvent) (range : nat * nat) : Result PackError (list WindowEvent) :=
  if bool_decide (range.1 ≤ range.2 ∧ range.2 ≤ length l)%nat then Ok (sub_list l range) else Panic.

(** The packs from one position on, [sent] events being in those before it. *)
Fixpoint batches_from (id : Z) (window : Window) (position sent : nat) (ranges : list (nat * nat)) : list (Result PackError bytes) :=
  match ranges with
  | [] => []
  | range :: ranges =>
      match events_at (events window) range with
      | Ok in_batch =>
          let sent := (sent + length in_batch)%nat in
          batch_pack id (Z.min (Z.of_nat position) u32_max) (zlen (events window)) in_batch (Z.of_nat (length (events window) - sent)) (win_cut_short window)
            :: batches_from id window (S position) sent ranges
      | _ => [Panic]
      end
  end.

Definition build_batches (id : Z) (window : Window) (batch : nat) (data_max : Z) : list (Result PackError bytes) :=
  let ranges := list_pack_ranges (lens (events window)) batch data_max in
  batches_from id window 0 0 (match ranges with [] => [(0, 0)%nat] | _ => ranges end).

(** ** What the packs hold *)

Context (Hbits : usize_bits = 64) (Hcrc : ∀ bs, u32 (crc32c bs)).
(** A [Batch]'s meta serializes, to a section that fits its length field. *)
Context (Hjson : ∀ tc bc fs ls r more, ∃ m, to_vec (batch_meta tc bc fs ls r more) = Some m ∧ bytes_ok m ∧ zlen m ≤ u32_max).

(** A pack that answers the request [i] with one chunk. *)
Definition answers (i n tc : Z) (chunk : list WindowEvent) (remaining : Z) (more : bool) (pack : bytes) : Prop :=
  ∃ m d, decode crc32c pack = Ok (mkView (mkHeader VERSION Event EVENT_BATCH IS_RESPONSE i n) m d)
    ∧ to_vec (batch_meta tc (zlen chunk) (from_option we_g_seq 0 (head chunk)) (from_option we_g_seq 0 (last chunk)) remaining more) = Some m
    ∧ split_length_prefixed d = Ok (we_json <$> chunk).

Lemma zlen_frames l : zlen (frames (we_json <$> l)) = framed_total (lens l).
Proof. induction l as [|e l IH]; [done|]. change (zlen (be_bytes 4 (zlen (we_json e)) ++ we_json e ++ frames (we_json <$> l)) = 4 + zlen (we_json e) + framed_total (lens l)). rewrite !zlen_app, IH, zlen_be_bytes. lia. Qed.

Definition sized (e : WindowEvent) : Prop := bytes_ok (we_json e) ∧ zlen (we_json e) ≤ u32_max.

Lemma batch_pack_answers i n tc chunk r more :
  u64 i → u32 n → Forall sized chunk → framed_total (lens chunk) ≤ u32_max → ∃ b, batch_pack i n tc chunk r more = Ok b ∧ answers i n tc chunk r more b.
Proof.
  intros Hi Hn Hch Hlen. unfold batch_pack. rewrite length_prefixed_frames by (apply Forall_fmap; eapply Forall_impl; [exact Hch|by intros ? []]). cbn [mbind result_bind].
  set (d := frames _). set (v := batch_meta _ _ _ _ _ _). destruct (Hjson tc (zlen chunk) (from_option we_g_seq 0 (head chunk)) (from_option we_g_seq 0 (last chunk)) r more) as (m & Hm & Hmok & Hml). fold v in Hm.
  unfold with_meta_data, json_meta. rewrite Hm. unfold ok_or. cbn [mbind result_bind]. set (p := mkPack Event EVENT_BATCH IS_RESPONSE i n m d).
  assert (Hdok : bytes_ok d) by (apply frames_ok, Forall_fmap; eapply Forall_impl; [exact Hch|by intros ? []]). assert (Hdl : zlen d ≤ u32_max) by (unfold d; by rewrite zlen_frames).
  assert (Hok : pack_ok p) by (unfold pack_ok; cbn [p p_subtype p_flags p_id p_seq p_meta p_data]; split_and!; [by vm_compute|by vm_compute|by vm_compute|done..]).
  destruct (wide Hbits) as [Hmax Himax].
  assert (Hfit : buffer_fits (pack_len p)) by (unfold buffer_fits, pack_len, OVERHEAD, HEADER_LEN; cbn [p_meta p_data p]; rewrite Hmax; unfold u32_max, u64_max in *; lia).
  exists (layout crc32c p). split; [exact (build_layout crc32c p Hok Hfit)|]. exists m, d. split_and!; [by rewrite decode_layout|done|].
  apply (event_frames_roundtrip (we_json <$> chunk) d Hdok); [rewrite Himax; unfold u32_max in Hdl; lia|]. apply length_prefixed_frames, Forall_fmap. eapply Forall_impl; [exact Hch|by intros ? []].
Qed.

(** The packs of the chunks from the position [n] on: each says how many events
    are in those that follow. *)
Fixpoint answered (i : Z) (n : nat) (tc : Z) (more : bool) (chunks : list (list WindowEvent)) (packs : list bytes) : Prop :=
  match chunks, packs with
  | [], [] => True
  | chunk :: chunks, pack :: packs => answers i (Z.min (Z.of_nat n) u32_max) tc chunk (zlen (mjoin chunks)) more pack ∧ answered i (S n) tc more chunks packs
  | _, _ => False
  end.

Lemma batches_answered i w n a ranges :
  u64 i → Forall sized (events w) → chain a ranges (length (events w)) → Forall (λ r, framed_total (lens (sub_list (events w) r)) ≤ u32_max) ranges →
  ∃ packs, batches_from i w n a ranges = Ok <$> packs ∧ answered i n (zlen (events w)) (win_cut_short w) (sub_list (events w) <$> ranges) packs.
Proof.
  intros Hi Hev. revert n a. induction ranges as [|[s e] ranges IH]; intros n a; cbn [chain batches_from]; [by exists []|]. intros (-> & Hlt & Hch) [Hfit Hfits]%Forall_cons.
  pose proof (chain_le _ _ _ Hch) as Hle. unfold events_at. cbn [fst snd]. rewrite bool_decide_true by lia. set (chunk := sub_list (events w) (a, e)).
  assert (Hlen : length chunk = (e - a)%nat) by (unfold chunk, sub_list; cbn [fst snd]; rewrite length_take, length_drop; lia). rewrite Hlen. replace (a + (e - a))%nat with e by lia.
  destruct (IH (S n) e Hch Hfits) as (packs & -> & Hans). destruct (chain_chunks (events w) e ranges Hch) as [Hjoin _].
  destruct (batch_pack_answers i (Z.min (Z.of_nat n) u32_max) (zlen (events w)) chunk (Z.of_nat (length (events w) - e)) (win_cut_short w)) as (b & -> & Hb);
    [done|unfold u32, u32_max; lia|by apply sub_list_Forall|done|]. exists (b :: packs). split; [done|].
  assert (Hr : zlen (mjoin (sub_list (events w) <$> ranges)) = Z.of_nat (length (events w) - e)) by (unfold zlen; by rewrite Hjoin, length_drop).
  rewrite <-Hr in Hb. exact (conj Hb Hans).
Qed.

(** C22: a request for the newest events is answered with the whole window, in
    packs the client can put together again.  [build_batches] builds every pack:
    they are the window cut into chunks in order, of at most [batch] events each,
    and one empty pack for an empty window; the pack at a position decodes to the
    request's id, that position as its number and exactly its chunk's events, and
    its meta says how many events the window has, how many this pack has, the
    counts of its first and last, how many are still to come, which is 0 in the
    last, and whether the window was cut short. *)
Theorem recent_batches_exact i w batch data_max :
  u64 i → 0 ≤ data_max ≤ u32_max → Forall (λ e, bytes_ok (we_json e) ∧ framed_len (zlen (we_json e)) ≤ data_max) (events w) →
  ∃ chunks packs, mjoin chunks = events w ∧ Forall (λ chunk, length chunk ≤ Nat.max batch 1)%nat chunks
    ∧ (if decide (events w = []) then chunks = [[]] else Forall (λ chunk, chunk ≠ []) chunks)
    ∧ build_batches i w batch data_max = Ok <$> packs
    ∧ answered i 0 (zlen (events w)) (win_cut_short w) chunks packs.
Proof.
  intros Hi Hdm Hev. destruct (wide Hbits) as [Hmax _]. unfold build_batches. set (rs := list_pack_ranges _ _ _).
  assert (Hone : Forall (λ l, 4 + l ≤ u32_max) (lens (events w))).
  { apply Forall_fmap. eapply Forall_impl; [exact Hev|]. intros e [_ He]. unfold compose, framed_len, sat_add, EVENT_LEN_PREFIX in *. rewrite Hmax in He. unfold u32_max, u64_max in *. lia. }
  assert (Hsized : Forall sized (events w)).
  { unfold lens in Hone. rewrite Forall_fmap in Hone. rewrite Forall_forall in Hev, Hone |- *. intros e He. split; [by apply Hev|]. specialize (Hone e He). cbn in Hone. lia. }
  destruct (pack_ranges_correct (lens (events w)) batch data_max) as (Hch & Hw & _); [apply lens_nonneg|rewrite Hmax; unfold u32_max, u64_max in *; lia|]. fold rs in Hch, Hw.
  unfold lens in Hch at 1. rewrite length_fmap in Hch. destruct (chain_chunks (events w) 0 rs Hch) as [Hjoin Hne]. rewrite drop_0 in Hjoin.
  case_decide as Hemp.
  - assert (rs = []) as -> by (destruct rs as [|[s e] rs']; [done|]; cbn in Hch; destruct Hch as (-> & Hlt & Hch); apply chain_le in Hch; rewrite Hemp in Hch; cbn in Hch; lia).
    destruct (batch_pack_answers i 0 0 [] 0 (win_cut_short w)) as (b & Hb & Hans); [done|by vm_compute|constructor|by vm_compute|].
    exists [[]], [b]. rewrite Hemp. split_and!; [done|by repeat constructor; cbn; lia|done| |by split].
    cbn [batches_from]. unfold events_at. rewrite Hemp. cbn [fst snd length]. rewrite bool_decide_true by lia. cbn. by rewrite <-Hb.
  - assert (match rs with [] => [(0, 0)%nat] | _ => rs end = rs) as -> by (destruct rs; [by rewrite <-Hjoin in Hemp|done]).
    destruct (batches_answered i w 0 0 rs Hi Hsized Hch) as (packs & Hp & Hans).
    { rewrite Forall_forall in Hw |- *. intros r Hr. destruct (Hw r Hr) as [_ Hfit]. replace (lens (sub_list (events w) r)) with (take (r.2 - r.1) (drop r.1 (lens (events w)))) by (unfold lens, sub_list; by rewrite fmap_take, fmap_drop).
      change (seg_total (lens (events w)) r.1 r.2 ≤ u32_max). destruct Hfit as [Hfit|Heq]; [lia|]. unfold seg_total. rewrite Heq. replace (S r.1 - r.1)%nat with 1%nat by lia.
      apply (Forall_drop _ r.1) in Hone. destruct (drop r.1 (lens (events w))) as [|l rest]; cbn; [by vm_compute|]. apply Forall_cons in Hone as [? _]. rewrite take_0. cbn. lia. }
    exists (sub_list (events w) <$> rs), packs. split_and!; [done| |done|done|done].
    apply Forall_fmap. rewrite Forall_forall in Hw |- *. intros r Hr. unfold compose, sub_list. rewrite length_take. destruct (Hw r Hr) as [? _]. lia.
Qed.
End Batches.

(** ** Two rooms *)

#[local] Existing Instance usize_64.

Definition sample_rows (room : string) : RoomStream (P := bytes) :=
  if bool_decide (room = "!a"%string) then [Some (9, [1]); None; Some (5, [2; 2])] else [Some (8, [3]); Some (7, [4]); Some (2, [5])].
Definition visible (item : Z * bytes) : option (Z * bytes) := if item.1 =? 8 then None else Some item.
Definition sample_window : Window := collect_window Some visible (λ p, p) (λ p, p) sample_rows ["!a"; "!b"; "!a"]%string 2 (Some 2) 1000 100.


Lemma recent_batches_exact_witness :
  length (build_batches crc32c_ref braces 42 sample_window 1 100) = 2%nat
  ∧ ∃ chunks packs, mjoin chunks = events sample_window ∧ Forall (λ chunk, length chunk ≤ Nat.max 1 1)%nat chunks
    ∧ (if decide (events sample_window = []) then chunks = [[]] else Forall (λ chunk, chunk ≠ []) chunks)
    ∧ build_batches crc32c_ref braces 42 sample_window 1 100 = Ok <$> packs
    ∧ answered crc32c_ref braces 42 0 (zlen (events sample_window)) (win_cut_short sample_window) chunks packs.
Proof.
  split; [by vm_compute|].
  refine (recent_batches_exact crc32c_ref braces _ crc32c_ref_u32 _ 42 sample_window 1 100 _ _ _); [by vm_compute|..].
  - intros. exists [123; 125]. split_and!; [done|apply (bool_decide_unpack _); by vm_compute|by vm_compute].
  - by vm_compute.
  - by vm_compute.
  - change (events sample_window) with (events (mkWindow [mkWindowEvent 9 [1]; mkWindowEvent 7 [4]] true)). cbn [events].
    repeat constructor; by vm_compute.
Defined.
